(* ===== verification/_CoqProject ===== *)
-Q . S2P
Prelude.v
Sha256.v
Strconv.v
Utf8.v
Json.v
JsonRoundtrip.v
Types.v
Crypto.v
LocalProvider.v
Common.v
Subject.v
FieldEncryption.v
FieldTheorems.v
MemoryAdapter.v
LogInvariant.v
MemorySubscription.v
MemoryAdmin.v
Command.v
IdempotencyStore.v
Idempotency.v
IdempotencyConcurrent.v
Versioning.v
SchemaRegistry.v
SagaStore.v
Saga.v
OutboxStore.v
AuditStore.v
CommandBus.v
BusClose.v
Middleware.v
IdempotentBus.v
AuditMiddleware.v
CommandTheorems.v
SubjectFootprint.v
OutboxInterface.v
OutboxProcessor.v
MemoryTheorems.v
EventLog.v
Aggregate.v
EventStore.v
SagaManager.v
SagaDrive.v
SagaTheorems.v
StoreRefinement.v
StoreTheorems.v
AggregateHandler.v
CheckpointStore.v
Projection.v
ProjectionWorker.v
Rebuilder.v
ProjectionEngine.v
ProjectionCoverage.v
ProjectionInvariant.v
ProjectionRegistry.v
ProjectionReplay.v
ProjectionTheorems.v
OutboxAppend.v
OutboxRouting.v
OutboxRoutingTheorems.v
Revocation.v
SubjectResolver.v
Eraser.v
Verification.v
Erasure.v
ErasureFrames.v
ErasureSafety.v
ErasureTheorems.v
ErasureProperties.v
SubjectErasers.v
Retention.v
RetentionSafety.v
RetentionTheorems.v
Export.v
ExportTheorems.v
KeyLifecycle.v
KeyLifecycleTheorems.v
Subscription.v
SubscriptionTheorems.v
Repository.v
RepositoryTheorems.v
