(* ===== verification/Prelude.v ===== *)
(** * go-mink: a verification development

    go-mink is an event-sourcing library for Go: an event store over pluggable
    adapters, with optimistic concurrency, aggregates, schema upcasting, field
    encryption, subject tags, a transactional outbox, sagas and idempotent
    commands.  This library models its core logic, from the Go source under
    [src/], as executable functions, and proves what makes each part correct.

    ** How the code is modelled

    A Go method with a receiver is a function that returns the new receiver with
    its result ([op], this file); an [error] result is [Err], and what was
    mutated before a failure stays mutated.  Errors are the values of
    [Types.error], with [errors.Is] as a function.  A panic is the error
    [Panic], a blocked channel the error [Blocked].  An [int], [int64] or
    [time.Duration] is a [Z] wrapped by [i64], a [uint64] one wrapped by [u64].
    A nil slice or map is [None].  A map is a [gmap]; iterating over one goes
    through [MapOrder], any order, and [sort.Slice] is [SliceSort], any
    admissible sort.  What a call reads from outside, the clock, fresh uuids,
    random bytes, [ctx.Err], is an argument ([Types.Env], [Crypto.Entropy],
    [EventStore.StoreEnv]).  A method that holds a mutex for its whole body is
    atomic; where a method releases it between steps, or calls another
    component, the steps are separate ([Idempotency.prog], [OutboxProcessor]).
    User code (appliers, taggers, upcasters, handlers, publishers) is a
    function argument.

    ** Files

    Foundations.  [Prelude]: machine integers, results, maps, sorts, tactics.
    [Sha256], [Strconv], [Utf8] (with base64), [Json]: the standard-library
    functions the source calls, [JsonRoundtrip] and lemmas in the others that
    encoding and decoding are inverse.  [Types], [Common]: the records and
    helpers of [adapters/adapter.go], [event.go], [adapters/common.go] and
    [errors.go].

    The in-memory adapter, [adapters/memory/].  [MemoryAdapter] (append, reads,
    rewrite, snapshots, checkpoints), [MemorySubscription] (subscribers as
    channels with a buffer), [MemoryAdmin] (the CLI's queries), [LogInvariant]
    (the invariant of the two logs, their rewriting and the abstract log
    [LogSpec]), [MemoryTheorems] (the guarantees, from [reachable] states of a
    step relation).

    The outbox.  [OutboxStore] is [outbox_store.go], [OutboxInterface] its
    contract as a class, [OutboxProcessor] is [outbox_processor.go] over any
    store of that class; the atomic append with messages, [AppendWithOutbox], is
    in [OutboxInterface], what it keeps together in [OutboxAppend].
    [OutboxRouting] is [outbox.go], the event store that routes what it appends,
    over any adapter and outbox store; [OutboxRoutingTheorems] its properties.

    Encryption.  [Crypto]: AES-GCM as a class with its laws, key providers as a
    class ([ProviderOps], [ProviderLaws], [ProviderStable]).  [LocalProvider]:
    [encryption/local/local.go], an instance.  [Subject]: the tags of
    [subject.go].  [FieldEncryption], [FieldTheorems]:
    [encryption.go].

    The event store.  [Versioning] is [versioning.go], [SchemaRegistry] is
    [schema_registry.go], [Aggregate] is [aggregate.go].  [EventLog] states what
    the store asks of an adapter as a class, with the in-memory adapter as an
    instance.  [EventStore] is [store.go] over any event log, key provider,
    serializer and subject index; [StoreRefinement] and
    [StoreTheorems] are its properties: the store represents a map from streams to
    lists of typed events.

    Commands.  [Command] is [command.go], [CommandBus] [bus.go] and [handler.go],
    [Middleware] [middleware.go] (the arithmetic of its delays is in [Strconv]),
    [AuditMiddleware] the middleware of [audit.go], [IdempotentBus] that of
    [idempotency.go] on the bus; [BusClose] is the bus under concurrent dispatches
    and a [Close]; [AggregateHandler] runs a command on an aggregate of the event
    store; [CommandTheorems] is what the middleware guarantees.
    [IdempotencyStore], [Idempotency],
    [IdempotencyConcurrent]: [idempotency.go] and its store, under every
    interleaving of concurrent commands.

    Projections.  [Projection] is [projection.go] with the policies and options
    of [projection_engine.go], and the checkpoint store as a class;
    [ProjectionWorker] the batches, the poison events and the supervised
    goroutine of an async projection, one step per turn of its loop;
    [Rebuilder] is [rebuilder.go]; [ProjectionEngine] the registries, the life
    cycle, the operator's commands and the inline and live paths.  Their world
    holds the store, the checkpoints, the application's state and the trace of
    what it was asked.  [ProjectionCoverage] and [ProjectionInvariant] are what
    a worker never overtakes, [ProjectionRegistry] the engine's well-formedness,
    [ProjectionReplay] what a rebuild computes, [ProjectionTheorems] the
    properties.

    Read models.  [Repository] is [repository.go]: values and struct types as
    reflection sees them, the query language and the in-memory repository over a
    memory of models; [RepositoryTheorems] its properties.

    Subscriptions.  [Subscription] is [subscription.go]: the goroutines one turn
    at a time, the channel and its consumer; [SubscriptionTheorems] what is
    delivered.

    Sagas.  [SagaStore] is [saga_store.go], [Saga] the interface and base of
    [saga.go], [SagaManager] all of [saga_manager.go] between the delivery of an
    event and the store, over any store, bus, provider and saga, with what other
    processes do to the store between two calls as a parameter ([others]).
    [SagaDrive] states the contract of a store as a class, with the in-memory store
    as an instance, what one drive does and which saga an event is for;
    [SagaTheorems] a saga to run and the properties.

    Erasure.  [Revocation]: permanent key revocation as [encryption/provider.go]
    reports it, its contract a class ([RevocableLaws]) with the local provider as
    an instance.  [SubjectResolver] is [subject.go], [subjectindex.go] and the
    scans of the log; [Eraser] the scans, the shared-key guard, the
    reconciliation, the derived data and the marker of [eraser.go];
    [Verification] is [verify.go] with the certificate; [Erasure] composes them
    as [DataEraser.Erase] does; [SubjectErasers] is [subjecterasers.go] and
    [NewDataEraser].  Their world holds the log, the provider, the serializer's
    and the index's states and the application's own; other writers append to
    the log before each read ([others]).  [ErasureFrames] is what every step of
    the eraser leaves alone, [ErasureSafety] what its scans and its verification
    establish, [ErasureTheorems] what [Erase] does stage by stage
    and that the scans end, [ErasureProperties] the guarantees.

    Retention.  [Retention] is [retention.go] in the world of the eraser, with the
    checkpoint store and the state of the policies' hooks beside it;
    [RetentionSafety] what a sweep, its guard and its frontier establish,
    [RetentionTheorems] the properties.

    Export and key life cycle.  [Export] is [export.go] in the world of the
    eraser, with its filters as functions that may read that world;
    [ExportTheorems] what it hands over.  [KeyLifecycle] is [keylifecycle.go]
    over the event store, [anonymize.go] and [upcasting_serializer.go];
    [KeyLifecycleTheorems] what a re-encryption preserves.

    Smaller stores.  [AuditStore] is [audit.go] of the in-memory adapter and the
    audit queries, [CheckpointStore] its [checkpoint.go], [SubjectFootprint] the
    erasure and counting by aggregate id of [subject_footprint.go].

    ** What the theorems show

    The log: every operation keeps the invariants and cannot panic, appends
    refine the abstract log, one writer per version wins, what is appended is
    loaded, subscriptions miss nothing they had room for, paging is complete.
    The outbox: no message is lost, claims are exclusive and earliest-first,
    every claimed message is settled, a poison message ends dead-lettered, an
    append schedules one message per event and route that takes it.
    Versions: the upcaster chain is sorted and gap-free when validated, and
    upcasting runs the registered steps.  Encryption: sealing then opening is
    the identity on the JSON object, a sealed field is bound to its place, a
    revoked key stays revoked.  The store: appended events are loaded whatever
    happens between, saving is atomic and optimistic, loading replays, and the
    library's metadata keys cannot be forged.  Commands: nothing runs after
    a [Close], a recovered panic discloses nothing, retries are bounded, the audit
    trail is complete, a command on an aggregate is all or nothing.  Idempotency:
    a handler runs once per key and a duplicate gets the first outcome.
    Projections: under every interleaving with other writers, the operator and
    crashes no event is skipped, unless a rebuild failed or was of a range; a
    rebuild is a replay of the log as decrypted; a worker has one goroutine.  Subscriptions deliver the log past
    their start once and in order.  The repository is a finite map, a query a page
    of one order, LIKE that of SQL.  Erasure: when a certificate or a
    report says Verified, every event of the log is beyond recovery or somebody
    else's; no key that protects somebody else is revoked; the scans end; the
    sibling stores lose exactly the subject's rows.  Retention: what lies behind
    the checkpoint of the sweeps is settled, and a sweep destroys no key that
    protects an event out of scope.  Export: a subject gets the events of the log,
    or of the streams its index lists, each once and nobody else's, and of a
    shredded one the stored bytes only.  Re-encryption
    copies a stream as it reads, onto an empty one, and leaves it alone.  Sagas: no update is lost; an
    event a saga is done with is harmless to deliver again, after any restart,
    while it is among the last hundred the saga processed; a
    drive dispatches, compensates and stores as documented; an operator's retry
    is refused without effect or reported and stored once.

    ** Bounds and fuel

    The JSON parser takes fuel [2 * length + 1], two per byte as each nested
    call consumes one, and stops at the depth limit 10000 of [encoding/json];
    [JsonRoundtrip.decode_print] shows it enough on every printed value.  The
    UTF-8 and string loops take the length of their input.  The scans of the log
    take fuel for their pages: one more than the length of the log is enough
    while nobody appends ([ErasureTheorems.erasure_scans_terminate]), and so it
    is for the loop of a rebuild ([ProjectionTheorems.rebuild_replays_log]); where
    others append meanwhile the safety theorems hold for any fuel, running out
    being the error [Blocked].  The log theorems assume that the log's length
    fits an [int64].

    ** Assumptions

    AES-GCM opens what it sealed and nothing with other additional data
    ([AEADLaws]); a provider unwraps the keys it generates and keeps doing so
    while it is only used ([ProviderLaws], [ProviderStable], both proved for the
    local provider); a serializer restores the events it was told about
    ([SerializerLaws]).  The messages a caller schedules are distinct objects.
    The text of an error is any function of it ([ErrorText]).  [ctx.Err] is
    [Canceled] or [DeadlineExceeded] where the saga theorems read it
    ([Types.ctx_law]); a saga's code leaves its identity alone
    ([Saga.SagaLaws]); other processes treat the store as the manager does
    ([SagaDrive.benign]).  For the eraser: the clock does not go back
    ([ErasureFrames.monotone_clock]), other writers append and do not rewrite
    ([appends_only]), and a key reported as permanently revoked cannot be
    unwrapped with again ([Revocation.RevocableLaws]).  For retention also:
    [RevokeKey] is permanent at once and destroys the key it names only, which
    [RetentionTheorems] proves of the local provider.  In the theorems on exports
    a filter of the caller is absent, or changes nothing of the store
    ([ExportTheorems.leavesBe]); in that on re-encryption other writers
    append through a store of the same configuration, events its serializer
    knows.  That a pseudonym cannot be inverted is not stated: it is a property
    of HMAC.

    ** Not modelled

    Drivers and formats outside the core: the PostgreSQL adapter (SQL executed
    by the database), the Kafka, SNS and webhook publishers, the KMS and Vault
    providers, the MessagePack and Protobuf serializers, metrics and tracing,
    the command line and the examples.  Running out of memory: making a channel
    panics beyond what the runtime admits ([Types.maxChanSize]), and below that
    succeeds.  Reflection (the Go types behind
    [JSONSerializer]).  The goroutines of the outbox processor and of the saga
    manager's subscription, [AsyncResult], [ParallelRebuilder], and logging.
    [ReEncryptStreamInPlace] returns its set of keys, which the code sorts. *)

From Stdlib Require Export ZArith Lia Strings.Ascii.
From stdpp Require Export sorting base strings gmap fin_maps numbers list.
Open Scope string_scope.
Open Scope list_scope.

Declare Scope go_scope.
Delimit Scope go_scope with go.
Open Scope Z_scope.

(** ** Hint databases of the development

    [mink] holds the resolution lemmas of the components, [mink_rw] the
    rewriting lemmas that normalise the operations. *)
Create HintDb mink.
Create Rewrite HintDb mink_rw.

(** ** Machine integers

    A Go [int], [int64] or [time.Duration] is a [Z] kept in the signed 64-bit
    range, a [uint64] a [Z] kept in the unsigned one; the arithmetic of the
    source wraps around, and so does [i64] and [u64]. *)
Definition MaxInt64 : Z := 9223372036854775807.
Definition MinInt64 : Z := -9223372036854775808.
Definition MaxUint64 : Z := 18446744073709551615.

Definition i64 (z : Z) : Z :=
  (z + 9223372036854775808) mod 18446744073709551616 - 9223372036854775808.

Definition u64 (z : Z) : Z := z mod 18446744073709551616.

Definition in_i64 (z : Z) : Prop := MinInt64 ≤ z ≤ MaxInt64.
Definition in_u64 (z : Z) : Prop := 0 ≤ z ≤ MaxUint64.

#[export] Instance in_i64_dec z : Decision (in_i64 z).
Proof. unfold in_i64. apply _. Defined.

Lemma i64_id z : in_i64 z → i64 z = z.
Proof. unfold in_i64, i64, MinInt64, MaxInt64. intros. rewrite Z.mod_small; lia. Qed.

Lemma u64_id z : in_u64 z → u64 z = z.
Proof. unfold in_u64, u64, MaxUint64. intros. rewrite Z.mod_small; lia. Qed.

Lemma i64_range z : in_i64 (i64 z).
Proof.
  unfold in_i64, i64, MinInt64, MaxInt64.
  pose proof (Z.mod_pos_bound (z + 9223372036854775808) 18446744073709551616). lia.
Qed.

Lemma u64_range z : in_u64 (u64 z).
Proof.
  unfold in_u64, u64, MaxUint64.
  pose proof (Z.mod_pos_bound z 18446744073709551616). lia.
Qed.

#[export] Hint Resolve i64_range u64_range : mink.

(** The length of a Go slice is an [int]: no slice is longer than [MaxInt64]. *)
Definition fits {A} (l : list A) : Prop := Z.of_nat (length l) ≤ MaxInt64.

(** ** Strings

    stdpp keeps [String.append] folded; these are its two equations. *)
Lemma app_String c a b : String c a +:+ b = String c (a +:+ b).
Proof. reflexivity. Qed.

Lemma app_Empty b : "" +:+ b = b.
Proof. reflexivity. Qed.

#[export] Hint Rewrite app_String app_Empty : mink_rw.

(** ** Lists *)

Lemma list_bind_ext_in {A B} (f g : A → list B) (l : list A) :
  (∀ x, x ∈ l → f x = g x) → l ≫= f = l ≫= g.
Proof.
  induction l as [|x l IH]; [done|]. intros H. cbn.
  rewrite (H x) by (by left). rewrite IH; [done|]. intros y Hy. apply H. by right.
Qed.

Lemma list_filter_all {A} (P : A → Prop) `{∀ x, Decision (P x)} (l : list A) :
  (∀ x, x ∈ l → P x) → filter P l = l.
Proof.
  induction l as [|x l IH]; [done|]. intros Hl.
  rewrite filter_cons_True by (apply Hl; left). rewrite IH; [done|]. intros y Hy. apply Hl. by right.
Qed.

Lemma list_filter_none {A} (P : A → Prop) `{∀ x, Decision (P x)} (l : list A) :
  (∀ x, x ∈ l → ¬ P x) → filter P l = [].
Proof.
  induction l as [|x l IH]; [done|]. intros Hl.
  rewrite filter_cons_False by (apply Hl; left). apply IH. intros y Hy. apply Hl. by right.
Qed.

Lemma NoDup_fst_filter {A B} (P : A * B → Prop) `{∀ x, Decision (P x)} (l : list (A * B)) :
  NoDup l.*1 → NoDup (filter P l).*1.
Proof.
  induction l as [|[a b] l IH]; [done|]. cbn [fmap list_fmap fst]. intros [Ha Hl]%NoDup_cons.
  rewrite filter_cons. case_decide; [|auto]. cbn [fmap list_fmap fst]. constructor; [|auto].
  intros ((a' & b') & E & Hin)%list_elem_of_fmap. cbn in E. subst.
  apply list_elem_of_filter in Hin as [_ Hin]. apply Ha. by apply (list_elem_of_fmap_2 fst) in Hin.
Qed.

Lemma foldl_ext {A B} (f g : B → A → B) (l : list A) b :
  (∀ b x, f b x = g b x) → foldl f b l = foldl g b l.
Proof. intros H. revert b. induction l as [|x l IH]; intros b; cbn; [done|]. by rewrite H. Qed.

(** ** Map iteration

    Go iterates over a map in an unspecified order: [range] is any enumeration
    of the entries. *)
Class MapOrder := {
  range : ∀ {K} `{Countable K} {V}, gmap K V → list (K * V);
  range_perm : ∀ {K} `{Countable K} {V} (m : gmap K V), range m ≡ₚ map_to_list m;
}.

(** One such order. *)
Definition listOrder : MapOrder :=
  {| range := λ K _ _ V m, map_to_list m;
     range_perm := λ K _ _ V m, Permutation_refl _ |}.

Lemma elem_of_range `{MapOrder} `{Countable K} {V} (m : gmap K V) k v :
  (k, v) ∈ range m ↔ m !! k = Some v.
Proof. rewrite range_perm. apply elem_of_map_to_list. Qed.

Lemma NoDup_range_keys `{MapOrder} `{Countable K} {V} (m : gmap K V) : NoDup (range m).*1.
Proof. rewrite range_perm. apply NoDup_fst_map_to_list. Qed.

(** ** [sort.Slice]

    The library sort permutes its slice so that no later element is less than
    an earlier one, provided the comparison is a weak order; how it places
    elements that compare equal is unspecified. *)
Record weak_order {A} (less : A → A → bool) : Prop := {
  less_asym : ∀ x y, less x y = true → less y x = false;
  less_ntrans : ∀ x y z, less x y = false → less y z = false → less x z = false;
}.

Class SliceSort := {
  sortSlice : ∀ {A}, (A → A → bool) → list A → list A;
  sortSlice_perm : ∀ {A} (less : A → A → bool) l, sortSlice less l ≡ₚ l;
  sortSlice_sorted : ∀ {A} (less : A → A → bool) l, weak_order less →
    StronglySorted (λ x y, less y x = false) (sortSlice less l);
}.

(** The stable sort, [sort.SliceStable]. *)
Fixpoint insertBy {A} (less : A → A → bool) (x : A) (l : list A) : list A :=
  match l with
  | [] => [x]
  | y :: l' => if less x y then x :: l else y :: insertBy less x l'
  end.

Definition stableSort {A} (less : A → A → bool) (l : list A) : list A :=
  foldl (λ acc x, insertBy less x acc) [] l.

Lemma insertBy_perm {A} (less : A → A → bool) x l : insertBy less x l ≡ₚ x :: l.
Proof.
  induction l as [|y l IH]; cbn; [done|]. destruct (less x y); [done|].
  rewrite IH. apply Permutation_swap.
Qed.

Lemma stableSort_perm {A} (less : A → A → bool) l : stableSort less l ≡ₚ l.
Proof.
  unfold stableSort. enough (∀ acc, foldl (λ acc x, insertBy less x acc) acc l ≡ₚ acc ++ l) by done.
  induction l as [|x l IH]; intros acc; cbn; [by rewrite app_nil_r|].
  rewrite IH, insertBy_perm. cbn. by rewrite Permutation_middle.
Qed.

Lemma insertBy_sorted {A} (less : A → A → bool) x l : weak_order less →
  StronglySorted (λ x y, less y x = false) l →
  StronglySorted (λ x y, less y x = false) (insertBy less x l).
Proof.
  intros [Ha Ht]. induction 1 as [|y l Hl IH Hy]; cbn; [repeat constructor|].
  destruct (less x y) eqn:E.
  - constructor; [by constructor|]. constructor; [by apply Ha|].
    eapply Forall_impl; [exact Hy|]. cbn. intros z Hz.
    destruct (less z x) eqn:Ezx; [|done].
    assert (less x z = false) as Hxz by auto.
    by rewrite (Ht _ _ _ Hxz Hz) in E.
  - constructor; [done|]. rewrite insertBy_perm. by constructor.
Qed.

Lemma stableSort_sorted {A} (less : A → A → bool) l : weak_order less →
  StronglySorted (λ x y, less y x = false) (stableSort less l).
Proof.
  intros Hw. unfold stableSort.
  enough (∀ acc, StronglySorted (λ x y, less y x = false) acc →
    StronglySorted (λ x y, less y x = false) (foldl (λ acc x, insertBy less x acc) acc l))
    as H by (apply H; constructor).
  induction l as [|x l IH]; intros acc Hacc; cbn; [done|]. by apply IH, insertBy_sorted.
Qed.

Definition stableSlice : SliceSort :=
  {| sortSlice := @stableSort; sortSlice_perm := @stableSort_perm;
     sortSlice_sorted := @stableSort_sorted |}.

Lemma elem_of_sortSlice `{SliceSort} {A} (less : A → A → bool) l x :
  x ∈ sortSlice less l ↔ x ∈ l.
Proof. by rewrite sortSlice_perm. Qed.

(** Comparing a numeric key is a weak order. *)
Lemma weak_order_key {A} (f : A → Z) : weak_order (λ x y, f x <? f y).
Proof.
  split; intros *; rewrite ?Z.ltb_lt, ?Z.ltb_ge; lia.
Qed.

#[export] Hint Resolve weak_order_key : mink.

(** [for k, v := range m { if p(v) { m[k] = f(v); count++ } }]: the entries are
    updated in place, as through a pointer, and counted. *)
Definition rangeUpdate `{MapOrder} `{Countable K} {V} (p : V → bool) (f : V → V) (m : gmap K V)
    : gmap K V * Z :=
  foldl (λ '(m, count) '(k, v),
    if p v then (<[k := f v]> m, i64 (count + 1)) else (m, count)) (m, 0) (range m).

(** [for k, v := range m { if p(v) { delete(m, k); count++ } }] *)
Definition rangeDelete `{MapOrder} `{Countable K} {V} (p : V → bool) (m : gmap K V)
    : gmap K V * Z :=
  foldl (λ '(m, count) '(k, v),
    if p v then (delete k m, i64 (count + 1)) else (m, count)) (m, 0) (range m).

(** Both loops visit each entry once: what they do to one entry is what they
    do to the map. *)
Lemma range_loop `{Countable K} {V} (p : V → bool) (g : V → option V) (l : list (K * V)) (m : gmap K V) n :
  NoDup l.*1 → (∀ k v, (k, v) ∈ l → m !! k = Some v) → 0 ≤ n → n + Z.of_nat (length l) ≤ MaxInt64 →
  foldl (λ '(m, count) '(k, v),
    if p v then (partial_alter (λ _, g v) k m, i64 (count + 1)) else (m, count)) (m, n) l =
  (map_imap (λ k v, if bool_decide (k ∈ l.*1) && p v then g v else Some v) m,
   n + Z.of_nat (length (filter (λ kv, p kv.2 = true) l))).
Proof.
  revert m n. induction l as [|[k v] l IH]; intros m n Hnd Hin Hn Hb; cbn [foldl].
  { f_equal; [|cbn; lia]. symmetry. apply map_eq. intros k. rewrite map_lookup_imap.
    by destruct (m !! k). }
  cbn [fmap list_fmap fst] in Hnd. apply NoDup_cons in Hnd as [Hk Hnd]. cbn [length] in Hb.
  rewrite (filter_cons _ (k, v)). cbn [snd].
  assert (∀ k' v', (k', v') ∈ l → k' ≠ k) as Hne
    by (intros k' v' Hl ->; apply Hk; by apply (list_elem_of_fmap_2 fst) in Hl).
  assert (∀ k', k' ≠ k → bool_decide (k' ∈ l.*1) = bool_decide (k' ∈ ((k, v) :: l).*1)) as Hbd
    by (intros; apply bool_decide_ext; cbn; set_solver).
  pose proof (Hin k v ltac:(by left)) as Hkv.
  destruct (p v) eqn:Ep.
  - rewrite decide_True by done. rewrite i64_id by (unfold in_i64, MinInt64; lia).
    rewrite IH; [|done| |lia|lia].
    2: { intros k' v' Hl. rewrite lookup_partial_alter_ne; [apply Hin; by right|].
         intros ->. by apply (Hne _ _ Hl). }
    f_equal; [|cbn [length]; lia]. apply map_eq. intros k'. rewrite !map_lookup_imap.
    destruct (decide (k' = k)) as [->|Hk'].
    + rewrite lookup_partial_alter_eq, Hkv. cbn [mbind option_bind].
      rewrite (bool_decide_true (k ∈ ((k, v) :: l).*1)) by left. rewrite Ep. cbn.
      destruct (g v) as [w|]; cbn; [|done]. by rewrite (bool_decide_false (k ∈ l.*1)).
    + rewrite lookup_partial_alter_ne by done. destruct (m !! k'); cbn [mbind option_bind]; [|done]. by rewrite Hbd.
  - rewrite decide_False by done. rewrite IH; [|done| |lia|lia].
    2: { intros k' v' Hl. apply Hin. by right. }
    f_equal. apply map_eq. intros k'. rewrite !map_lookup_imap.
    destruct (decide (k' = k)) as [->|Hk'].
    + rewrite Hkv. cbn. by rewrite Ep, !andb_false_r.
    + destruct (m !! k'); cbn [mbind option_bind]; [|done]. by rewrite Hbd.
Qed.

(** The number of entries a loop over the map selects. *)
Definition countWhere `{Countable K} {V} (p : V → bool) (m : gmap K V) : Z :=
  Z.of_nat (length (filter (λ kv, p kv.2 = true) (map_to_list m))).

Lemma rangeUpdate_spec `{MapOrder} `{Countable K} {V} (p : V → bool) (f : V → V) (m : gmap K V) :
  Z.of_nat (size m) ≤ MaxInt64 →
  rangeUpdate p f m = ((λ v, if p v then f v else v) <$> m, countWhere p m).
Proof.
  intros Hb. unfold rangeUpdate, countWhere.
  transitivity (foldl (λ '(m, count) '(k, v), if p v
    then (partial_alter (λ _, Some (f v)) k m, i64 (count + 1)) else (m, count)) (m, 0) (range m)).
  { apply foldl_ext. by intros [m' n'] [k v]. }
  rewrite (range_loop p (λ v, Some (f v))); [|apply NoDup_range_keys|intros ? ?; apply elem_of_range|lia|].
  2: { rewrite range_perm, length_map_to_list. lia. }
  f_equal; [|by rewrite range_perm]. apply map_eq. intros k. rewrite map_lookup_imap, lookup_fmap.
  destruct (m !! k) as [v|] eqn:E; cbn; [|done].
  rewrite bool_decide_true; [cbn; by destruct (p v)|].
  apply list_elem_of_fmap. exists (k, v). by rewrite elem_of_range.
Qed.

Lemma rangeDelete_spec `{MapOrder} `{Countable K} {V} (p : V → bool) (m : gmap K V) :
  Z.of_nat (size m) ≤ MaxInt64 →
  rangeDelete p m = (filter (λ kv, p kv.2 = false) m, countWhere p m).
Proof.
  intros Hb. unfold rangeDelete, countWhere.
  transitivity (foldl (λ '(m, count) '(k, v), if p v
    then (partial_alter (λ _, None) k m, i64 (count + 1)) else (m, count)) (m, 0) (range m)).
  { apply foldl_ext. by intros [m' n'] [k v]. }
  rewrite (range_loop p (λ v, None)); [|apply NoDup_range_keys|intros ? ?; apply elem_of_range|lia|].
  2: { rewrite range_perm, length_map_to_list. lia. }
  f_equal; [|by rewrite range_perm]. apply map_eq. intros k. rewrite map_lookup_imap, map_lookup_filter.
  destruct (m !! k) as [v|] eqn:E; cbn; [|done].
  rewrite bool_decide_true by (apply list_elem_of_fmap; exists (k, v); by rewrite elem_of_range).
  cbn. by destruct (p v).
Qed.

(** ** The exchange sort of the source

    [for i { for j := i+1 { if lt(s[i], s[j]) { swap } } }]: one inner loop
    carries the element at index [i] past the rest. *)
Fixpoint exchangePass {A} (lt : A → A → bool) (x : A) (l : list A) : A * list A :=
  match l with
  | [] => (x, [])
  | y :: l =>
      if lt x y then let '(m, r) := exchangePass lt y l in (m, x :: r)
      else let '(m, r) := exchangePass lt x l in (m, y :: r)
  end.

Fixpoint exchangeLoop {A} (lt : A → A → bool) (fuel : nat) (l : list A) : list A :=
  match fuel, l with
  | S fuel, x :: l => let '(m, r) := exchangePass lt x l in m :: exchangeLoop lt fuel r
  | _, _ => l
  end.

Definition exchangeSort {A} (lt : A → A → bool) (l : list A) : list A :=
  exchangeLoop lt (length l) l.

Section ExchangeSort.
Context {A} (lt : A → A → bool).

Lemma exchangePass_perm x l m r : exchangePass lt x l = (m, r) → x :: l ≡ₚ m :: r.
Proof.
  revert x m r. induction l as [|y l IH]; intros x m r; cbn; [by intros [= <- <-]|].
  destruct (lt x y).
  - destruct (exchangePass lt y l) as [m' r'] eqn:E. intros [= <- <-].
    apply IH in E. rewrite E. constructor.
  - destruct (exchangePass lt x l) as [m' r'] eqn:E. intros [= <- <-].
    apply IH in E. rewrite (Permutation_swap y x l), E. constructor.
Qed.

Lemma exchangeLoop_perm n l : exchangeLoop lt n l ≡ₚ l.
Proof.
  revert l. induction n as [|n IH]; intros [|x l]; cbn; [done..|].
  destruct (exchangePass lt x l) as [m r] eqn:E. rewrite IH.
  symmetry. by apply exchangePass_perm.
Qed.

Lemma exchangeSort_perm l : exchangeSort lt l ≡ₚ l.
Proof. apply exchangeLoop_perm. Qed.

(** The relation the result is sorted by: nothing later is strictly above. *)
Definition geq (x y : A) : Prop := lt x y = false.

Context (lt_total : ∀ x y, lt x y = true → lt y x = false)
        (lt_trans : ∀ x y z, lt x y = false → lt y z = false → lt x z = false).

Lemma exchangePass_max x l m r :
  exchangePass lt x l = (m, r) → geq m x ∧ Forall (geq m) r ∧ length r = length l.
Proof.
  assert (∀ z, lt z z = false) as Hirr.
  { intros z. destruct (lt z z) eqn:E; [|done]. by rewrite (lt_total z z) in E. }
  revert x m r. induction l as [|y l IH]; intros x m r; cbn.
  - intros [= <- <-]. unfold geq. auto.
  - destruct (lt x y) eqn:Exy.
    + destruct (exchangePass lt y l) as [m' r'] eqn:E. intros [= <- <-].
      destruct (IH _ _ _ E) as (? & ? & ?). assert (geq m' x) by (eapply lt_trans; [done|auto]).
      cbn. auto.
    + destruct (exchangePass lt x l) as [m' r'] eqn:E. intros [= <- <-].
      destruct (IH _ _ _ E) as (? & ? & ?). assert (geq m' y) by (eapply lt_trans; done).
      cbn. auto.
Qed.

Lemma exchangeSort_sorted l : StronglySorted geq (exchangeSort lt l).
Proof.
  unfold exchangeSort. remember (length l) as n eqn:E. revert l E.
  induction n as [|n IH]; intros [|x l]; cbn; intros; try discriminate; [constructor..|].
  destruct (exchangePass lt x l) as [m r] eqn:Ep.
  destruct (exchangePass_max _ _ _ _ Ep) as (_ & Hall & Hlen).
  constructor; [apply IH; congruence|]. by rewrite exchangeLoop_perm.
Qed.
End ExchangeSort.

(** ** Results

    A Go call returns a value and an error; the code reads the value only when
    the error is nil, so the pair is a sum. *)
Inductive result (E A : Type) : Type :=
| Ok (a : A)
| Err (e : E).
Arguments Ok {E A} a.
Arguments Err {E A} e.

#[export] Instance result_ret E : MRet (result E) := λ A a, Ok a.
#[export] Instance result_bind E : MBind (result E) := λ A B f m,
  match m with Ok a => f a | Err e => Err e end.
#[export] Instance result_fmap E : FMap (result E) := λ A B f m,
  match m with Ok a => Ok (f a) | Err e => Err e end.

Definition is_ok {E A} (r : result E A) : bool :=
  match r with Ok _ => true | Err _ => false end.

(** [if c { return err }] *)
Definition returnIf {E} (c : bool) (e : E) : result E unit :=
  if c then Err e else Ok tt.

(** [if err := x; err != nil { return err }] *)
Definition returnErr {E} (x : option E) : result E unit :=
  match x with Some e => Err e | None => Ok tt end.

Lemma bind_Ok {E A B} (m : result E A) (f : A → result E B) b :
  (m ≫= f) = Ok b ↔ ∃ a, m = Ok a ∧ f a = Ok b.
Proof. destruct m; cbn; naive_solver. Qed.

Lemma bind_Err {E A B} (m : result E A) (f : A → result E B) e :
  (m ≫= f) = Err e ↔ m = Err e ∨ ∃ a, m = Ok a ∧ f a = Err e.
Proof. destruct m; cbn; naive_solver. Qed.

Lemma returnIf_Ok {E} c (e : E) u : returnIf c e = Ok u ↔ c = false.
Proof. destruct c, u; cbn; naive_solver. Qed.

Lemma returnErr_Ok {E} (x : option E) u : returnErr x = Ok u ↔ x = None.
Proof. destruct x, u; cbn; naive_solver. Qed.

(** [for _, x := range l { if err := f(x); err != nil { return err } }] *)
Fixpoint forEach {E A} (f : A → result E unit) (l : list A) : result E unit :=
  match l with
  | [] => Ok tt
  | x :: l => f x;; forEach f l
  end.

Lemma forEach_Ok {E A} (f : A → result E unit) l :
  forEach f l = Ok tt ↔ ∀ x, x ∈ l → f x = Ok tt.
Proof.
  induction l as [|x l IH]; cbn; [set_solver|].
  rewrite bind_Ok. split.
  - intros ([] & Hx & Hl) y [->|Hy]%elem_of_cons; [done|]. by apply IH.
  - intros H. exists tt. split; [apply H; left|]. apply IH. intros y Hy. apply H. by right.
Qed.

(** ** State-passing operations

    An operation that mutates its receiver returns the new receiver with its
    result; on an error path the mutations made so far are kept, as in Go. *)
Definition op (S E A : Type) : Type := S → S * result E A.

Definition op_ret {S E A} (a : A) : op S E A := λ s, (s, Ok a).
Definition op_fail {S E A} (e : E) : op S E A := λ s, (s, Err e).
Definition op_lift {S E A} (r : result E A) : op S E A := λ s, (s, r).
Definition op_get {S E} : op S E S := λ s, (s, Ok s).
Definition op_put {S E} (s' : S) : op S E unit := λ _, (s', Ok tt).
Definition op_modify {S E} (f : S → S) : op S E unit := λ s, (f s, Ok tt).
Definition op_bind {S E A B} (m : op S E A) (f : A → op S E B) : op S E B := λ s,
  match m s with
  | (s', Ok a) => f a s'
  | (s', Err e) => (s', Err e)
  end.

#[export] Instance op_mret S E : MRet (op S E) := λ A, op_ret.
#[export] Instance op_mbind S E : MBind (op S E) := λ A B f m, op_bind m f.

(** Run a read-only check before a mutating body; the state is untouched when
    the check fails. *)
Definition guarded {S E A} (r : S → result E unit) (body : op S E A) : op S E A := λ s,
  match r s with Ok _ => body s | Err e => (s, Err e) end.

Lemma guarded_Err {S E A} (r : S → result E unit) (body : op S E A) s e :
  r s = Err e → guarded r body s = (s, Err e).
Proof. unfold guarded. by intros ->. Qed.

Lemma guarded_Ok {S E A} (r : S → result E unit) (body : op S E A) s u :
  r s = Ok u → guarded r body s = body s.
Proof. unfold guarded. by intros ->. Qed.

(** ** Tactics *)

(** Case analysis on the guards and lookups a definition matches on. *)
Ltac go_case :=
  match goal with
  | H : context [match ?x with _ => _ end] |- _ =>
      lazymatch x with context [match _ with _ => _ end] => fail | _ => idtac end;
      destruct x eqn:?; simplify_eq/=
  | |- context [match ?x with _ => _ end] =>
      lazymatch x with context [match _ with _ => _ end] => fail | _ => idtac end;
      destruct x eqn:?; simplify_eq/=
  end.

Ltac go_cases := repeat go_case.

(** Break a successful sequence of guards into the facts it establishes. *)
Ltac inv_ok :=
  repeat match goal with
  | H : (_ ≫= _) = Ok _ |- _ => apply bind_Ok in H as (? & ? & ?)
  | H : returnIf _ _ = Ok _ |- _ => apply returnIf_Ok in H
  | H : returnErr _ = Ok _ |- _ => apply returnErr_Ok in H
  | H : Ok _ = Ok _ |- _ => injection H as H
  | H : Err _ = Ok _ |- _ => discriminate H
  | H : Ok _ = Err _ |- _ => discriminate H
  | x : unit |- _ => destruct x
  end; simplify_eq.

(** Turn the boolean tests of a goal into propositions over [Z]. *)
Ltac zbool :=
  repeat match goal with
  | H : (_ =? _) = true |- _ => apply Z.eqb_eq in H
  | H : (_ =? _) = false |- _ => apply Z.eqb_neq in H
  | H : (_ <? _) = true |- _ => apply Z.ltb_lt in H
  | H : (_ <? _) = false |- _ => apply Z.ltb_ge in H
  | H : (_ <=? _) = true |- _ => apply Z.leb_le in H
  | H : (_ <=? _) = false |- _ => apply Z.leb_gt in H
  | H : _ && _ = true |- _ => apply andb_true_iff in H as [? ?]
  | H : _ || _ = false |- _ => apply orb_false_iff in H as [? ?]
  | H : negb _ = true |- _ => apply negb_true_iff in H
  | H : negb _ = false |- _ => apply negb_false_iff in H
  | H : bool_decide _ = true |- _ => apply bool_decide_eq_true in H
  | H : bool_decide _ = false |- _ => apply bool_decide_eq_false in H
  end.

(** Apply every bounded hypothesis to every known member of its list. *)
Ltac use_members :=
  repeat match goal with
  | H : ∀ x, x ∈ ?l → _, Hx : ?y ∈ ?l |- _ =>
      let T := type of (H y Hx) in
      lazymatch goal with
      | _ : T |- _ => fail
      | _ => pose proof (H y Hx)
      end
  end.
