(* ===== verification/Sha256.v ===== *)
(** * SHA-256

    [crypto/sha256] and [encoding/hex] as the library uses them, for outbox
    destination digests and idempotency keys: the hash of FIPS 180-4 on bytes
    given as integers, and its lower-case hexadecimal text. *)

From S2P Require Import Prelude.

Definition w32 (x : Z) : Z := x mod 4294967296.

Definition rotr (n x : Z) : Z :=
  Z.lor (Z.shiftr x n) (w32 (Z.shiftl x (32 - n))).

Definition Ch (x y z : Z) : Z := Z.lxor (Z.land x y) (Z.land (w32 (Z.lnot x)) z).
Definition Maj (x y z : Z) : Z := Z.lxor (Z.lxor (Z.land x y) (Z.land x z)) (Z.land y z).
Definition bigSigma0 (x : Z) : Z := Z.lxor (Z.lxor (rotr 2 x) (rotr 13 x)) (rotr 22 x).
Definition bigSigma1 (x : Z) : Z := Z.lxor (Z.lxor (rotr 6 x) (rotr 11 x)) (rotr 25 x).
Definition smallSigma0 (x : Z) : Z := Z.lxor (Z.lxor (rotr 7 x) (rotr 18 x)) (Z.shiftr x 3).
Definition smallSigma1 (x : Z) : Z := Z.lxor (Z.lxor (rotr 17 x) (rotr 19 x)) (Z.shiftr x 10).

Definition roundConstants : list Z :=
  [1116352408; 1899447441; 3049323471; 3921009573; 961987163; 1508970993; 2453635748; 2870763221;
   3624381080; 310598401; 607225278; 1426881987; 1925078388; 2162078206; 2614888103; 3248222580;
   3835390401; 4022224774; 264347078; 604807628; 770255983; 1249150122; 1555081692; 1996064986;
   2554220882; 2821834349; 2952996808; 3210313671; 3336571891; 3584528711; 113926993; 338241895;
   666307205; 773529912; 1294757372; 1396182291; 1695183700; 1986661051; 2177026350; 2456956037;
   2730485921; 2820302411; 3259730800; 3345764771; 3516065817; 3600352804; 4094571909; 275423344;
   430227734; 506948616; 659060556; 883997877; 958139571; 1322822218; 1537002063; 1747873779;
   1955562222; 2024104815; 2227730452; 2361852424; 2428436474; 2756734187; 3204031479; 3329325298].

Definition initialHash : list Z :=
  [1779033703; 3144134277; 1013904242; 2773480762; 1359893119; 2600822924; 528734635; 1541459225].

(** [n] big-endian bytes of [x]. *)
Fixpoint bigEndian (n : nat) (x : Z) : list Z :=
  match n with
  | O => []
  | S n => Z.shiftr x (8 * Z.of_nat n) mod 256 :: bigEndian n x
  end.

(** The message, a one bit, zeros up to 8 bytes short of a block, the length. *)
Definition pad (msg : list Z) : list Z :=
  let l := Z.of_nat (length msg) in
  msg ++ [128] ++ replicate (Z.to_nat ((55 - l) mod 64)) 0 ++ bigEndian 8 (8 * l).

Fixpoint words (bytes : list Z) : list Z :=
  match bytes with
  | a :: b :: c :: d :: rest => (((a * 256 + b) * 256 + c) * 256 + d) :: words rest
  | _ => []
  end.

(** The message schedule of a block, the latest word first. *)
Fixpoint schedule (n : nat) (w : list Z) : list Z :=
  match n with
  | O => w
  | S n =>
      let x := w32 (smallSigma1 (nth 1 w 0) + nth 6 w 0 + smallSigma0 (nth 14 w 0) + nth 15 w 0) in
      schedule n (x :: w)
  end.

Definition round (h : list Z) (kw : Z * Z) : list Z :=
  match h with
  | [a; b; c; d; e; f; g; hh] =>
      let t1 := hh + bigSigma1 e + Ch e f g + kw.1 + kw.2 in
      let t2 := bigSigma0 a + Maj a b c in
      [w32 (t1 + t2); a; b; c; w32 (d + t1); e; f; g]
  | _ => h
  end.

Definition compress (h : list Z) (block : list Z) : list Z :=
  let w := reverse (schedule 48 (reverse block)) in
  zip_with (λ x y, w32 (x + y)) h (foldl round h (zip roundConstants w)).

Fixpoint blocks (n : nat) (w : list Z) (h : list Z) : list Z :=
  match n with
  | O => h
  | S n => blocks n (drop 16 w) (compress h (take 16 w))
  end.

(** [sha256.Sum256]: 32 bytes. *)
Definition Sum256 (msg : list Z) : list Z :=
  let w := words (pad msg) in
  blocks (length w / 16) w initialHash ≫= bigEndian 4.

(** [hex.EncodeToString] *)
Definition hexDigit (x : Z) : ascii :=
  ascii_of_N (Z.to_N (if x <? 10 then 48 + x else 87 + x)).

Fixpoint EncodeToString (bytes : list Z) : string :=
  match bytes with
  | [] => ""
  | b :: bytes => String (hexDigit (b / 16)) (String (hexDigit (b mod 16)) (EncodeToString bytes))
  end.

(** [[]byte(s)] *)
Fixpoint bytesOf (s : string) : list Z :=
  match s with
  | EmptyString => []
  | String c s => Z.of_N (N_of_ascii c) :: bytesOf s
  end.

(** The FIPS 180-4 test vectors. *)
Example sum256_empty : EncodeToString (Sum256 []) =
  "e3b0c44298fc1c149afbf4c8996fb92427ae41e4649b934ca495991b7852b855".
Proof. vm_compute. reflexivity. Qed.

Example sum256_abc : EncodeToString (Sum256 (bytesOf "abc")) =
  "ba7816bf8f01cfea414140de5dae2223b00361a396177a9cb410ff61f20015ad".
Proof. vm_compute. reflexivity. Qed.

Example sum256_two_blocks :
  EncodeToString (Sum256 (bytesOf "abcdbcdecdefdefgefghfghighijhijkijkljklmklmnlmnomnopnopq")) =
  "248d6a61d20638b8e5c026930c3e6039a33ce45964ff2167f6ecedd419db06c1".
Proof. vm_compute. reflexivity. Qed.

(** ** The size of a digest *)

Lemma round_length h kw : length h = 8%nat → length (round h kw) = 8%nat.
Proof. intros. do 9 (destruct h as [|? h]; try done). Qed.

Lemma compress_length h block : length h = 8%nat → length (compress h block) = 8%nat.
Proof.
  intros Hh. unfold compress. rewrite length_zip_with.
  assert (∀ l h, length h = 8%nat → length (foldl round h l) = 8%nat) as Hr.
  { induction l as [|kw l IH]; intros h' Hh'; cbn; [done|]. by apply IH, round_length. }
  rewrite Hr by done. lia.
Qed.

Lemma blocks_length n w h : length h = 8%nat → length (blocks n w h) = 8%nat.
Proof. revert w h. induction n as [|n IH]; intros; cbn; [done|]. by apply IH, compress_length. Qed.

Lemma Sum256_length msg : length (Sum256 msg) = 32%nat.
Proof.
  unfold Sum256. set (h := blocks _ _ _).
  assert (length h = 8%nat) as Hh by (by apply blocks_length).
  clearbody h. do 9 (destruct h as [|? h]; try done).
Qed.

Lemma EncodeToString_length bytes : String.length (EncodeToString bytes) = (2 * length bytes)%nat.
Proof. induction bytes as [|b bytes IH]; cbn; [done|]. rewrite IH. lia. Qed.
