(* ===== verification/Strconv.v ===== *)
(** * Decimal numbers, UTF-8 boundaries and floating point

    [strconv.Itoa], [strconv.Atoi] and [utf8.RuneStart] as the library uses
    them, [truncateUTF8Bytes] of [src/audit.go], and the [float64] arithmetic the
    source uses. *)

From Stdlib Require Import DecimalString DecimalZ DecimalPos.
From Stdlib Require Import Floats.SpecFloat.
From S2P Require Import Prelude.

(** An optional sign and decimal digits, in the range of an [int]. *)
Definition Itoa (z : Z) : string := NilZero.string_of_int (Z.to_int z).

Definition Atoi (s : string) : option Z :=
  let parsed :=
    match s with
    | String "+" s' => Decimal.Pos <$> NilZero.uint_of_string s'
    | _ => NilZero.int_of_string s
    end in
  match parsed with
  | Some d =>
      let z := Z.of_int d in
      if (MinInt64 <=? z) && (z <=? MaxInt64) then Some z else None
  | None => None
  end.

(** A byte that does not continue a rune. *)
Definition RuneStart (c : ascii) : bool := negb (N.land (N_of_ascii c) 192 =? 128)%N.

(** [for cut > 0 && !utf8.RuneStart(s[cut]) { cut-- }] *)
Fixpoint cutBack (s : string) (cut : nat) : nat :=
  match cut with
  | O => O
  | S cut' =>
      match String.get cut s with
      | Some c => if RuneStart c then cut else cutBack s cut'
      | None => cut
      end
  end.

Definition truncateUTF8Bytes (s : string) (maxBytes : Z) : string :=
  if Z.of_nat (String.length s) <=? maxBytes then s
  else if maxBytes <=? 0 then ""
  else String.substring 0 (cutBack s (Z.to_nat maxBytes)) s.

(** ** Lemmas *)

Lemma uint_first d c s' :
  NilZero.string_of_uint d = String c s' → c ≠ "+"%char ∧ c ≠ "-"%char.
Proof. destruct d; cbn; intros [= <- _]; split; by intros [=]. Qed.

Lemma Itoa_int z : NilZero.int_of_string (Itoa z) = Some (Z.to_int z).
Proof.
  apply NilZero.isi; destruct z; cbn; try done;
    unfold Z.to_int, Pos.to_int; intros [= E]; by apply (DecimalPos.Unsigned.to_uint_nonnil p).
Qed.

Lemma Atoi_Itoa z : in_i64 z → Atoi (Itoa z) = Some z.
Proof.
  intros Hz. unfold Atoi.
  assert (match Itoa z with
          | String "+" s' => Decimal.Pos <$> NilZero.uint_of_string s'
          | _ => NilZero.int_of_string (Itoa z)
          end = Some (Z.to_int z)) as ->.
  { rewrite Itoa_int. destruct (Itoa z) as [|c s] eqn:E; [done|].
    assert (c ≠ "+"%char) as Hc.
    { unfold Itoa in E. destruct (Z.to_int z) as [u|u]; cbn in E; [by eapply uint_first in E as []|].
      injection E as <- _. by intros [=]. }
    destruct c as [[] [] [] [] [] [] [] []]; try done. }
  rewrite DecimalZ.of_to. unfold in_i64 in Hz.
  by rewrite (proj2 (Z.leb_le _ _)), (proj2 (Z.leb_le _ _)) by lia.
Qed.

Lemma Atoi_range s z : Atoi s = Some z → in_i64 z.
Proof.
  unfold Atoi. intros H. repeat case_match; try done; zbool; simplify_eq; unfold in_i64; lia.
Qed.

Lemma Itoa_inj x y : Itoa x = Itoa y → x = y.
Proof.
  intros E. pose proof (Itoa_int x) as Hx. rewrite E, Itoa_int in Hx. injection Hx as Hx.
  by rewrite <- (DecimalZ.of_to x), <- (DecimalZ.of_to y), Hx.
Qed.

(** A numeral has no colon. *)
Lemma string_of_uint_chars d c :
  c ∈ String.list_ascii_of_string (NilEmpty.string_of_uint d) → c ≠ ":"%char.
Proof.
  induction d; cbn; [by intros ?%not_elem_of_nil|..];
    (intros [->|Hc]%elem_of_cons; [by intros [=]|auto]).
Qed.

Lemma Itoa_chars z c : c ∈ String.list_ascii_of_string (Itoa z) → c ≠ ":"%char.
Proof.
  unfold Itoa. assert (∀ d, c ∈ String.list_ascii_of_string (NilZero.string_of_uint d) → c ≠ ":"%char) as Hu.
  { intros d. destruct d; try apply string_of_uint_chars. cbn. intros ->%list_elem_of_singleton. by intros [=]. }
  destruct (Z.to_int z) as [d|d]; [apply Hu|]. cbn. intros [->|Hc]%elem_of_cons; [by intros [=]|exact (Hu d Hc)].
Qed.

Lemma cutBack_le s n : (cutBack s n ≤ n)%nat.
Proof.
  induction n as [|n IH]; cbn [cutBack]; [done|]. destruct (String.get (S n) s) as [c|]; [|done].
  destruct (RuneStart c); lia.
Qed.

Lemma substring_length n s : (String.length (String.substring 0 n s) ≤ n)%nat.
Proof. revert n. induction s as [|c s IH]; intros [|n]; cbn; try lia. specialize (IH n). lia. Qed.

Lemma truncateUTF8Bytes_length s n : 0 ≤ n → Z.of_nat (String.length (truncateUTF8Bytes s n)) ≤ n.
Proof.
  intros Hn. unfold truncateUTF8Bytes. destruct (Z.leb_spec (Z.of_nat (String.length s)) n); [done|].
  destruct (Z.leb_spec n 0); [cbn; lia|].
  pose proof (substring_length (cutBack s (Z.to_nat n)) s). pose proof (cutBack_le s (Z.to_nat n)). lia.
Qed.

Lemma length_append s t : String.length (s +:+ t) = (String.length s + String.length t)%nat.
Proof. induction s as [|c s IH]; [done|]. rewrite app_String. cbn. by rewrite IH. Qed.

Lemma append_nil_r (s : string) : s +:+ "" = s.
Proof. induction s as [|c s IH]; [done|]. by rewrite app_String, IH. Qed.

Lemma append_assoc (a b c : string) : (a +:+ b) +:+ c = a +:+ (b +:+ c).
Proof. induction a as [|x a IH]; [done|]. by rewrite !app_String, IH. Qed.

Lemma append_cancel_l a b c : a +:+ b = a +:+ c → b = c.
Proof. induction a as [|x a IH]; [done|]. rewrite !app_String. intros [= E]. by apply IH. Qed.

(** Two strings split at their first colon. *)
Lemma colon_split a b c d :
  (∀ x, x ∈ String.list_ascii_of_string a → x ≠ ":"%char) →
  (∀ x, x ∈ String.list_ascii_of_string c → x ≠ ":"%char) →
  a +:+ ":" +:+ b = c +:+ ":" +:+ d → a = c ∧ b = d.
Proof.
  revert c. induction a as [|x a IH]; intros [|y c] Ha Hc.
  - intros E. by apply append_cancel_l, append_cancel_l in E.
  - rewrite app_Empty, app_String. intros E. injection E as Ey _.
    exfalso. by apply (Hc y); [left|].
  - rewrite app_Empty, app_String. intros E. injection E as Ex _.
    exfalso. by apply (Ha x); [left|].
  - rewrite !app_String. intros [= -> E]. destruct (IH c) as [-> ->]; [..|done|done].
    + intros z Hz. apply Ha. by right.
    + intros z Hz. apply Hc. by right.
Qed.

Lemma append_same_length a b c d :
  String.length a = String.length c → a +:+ b = c +:+ d → a = c ∧ b = d.
Proof.
  revert c. induction a as [|x a IH]; intros [|y c]; cbn [String.length]; try done.
  intros [= Hl]. rewrite !app_String. intros [= -> E]. by destruct (IH c Hl E) as [-> ->].
Qed.

(** Tails of the same length. *)
Lemma append_same_tail a b c d :
  String.length b = String.length d → a +:+ b = c +:+ d → b = d.
Proof.
  intros Hl E. apply (f_equal String.length) in E as El. rewrite !length_append in El.
  apply append_same_length in E as [_ ->]; [done|lia].
Qed.

(** * float64 *)

Abbreviation float64 := spec_float.

Definition float64OfInt (z : Z) : float64 := binary_normalize 53 1024 z 0 false.
Definition float64Mul : float64 → float64 → float64 := SFmul 53 1024.
Definition float64Add : float64 → float64 → float64 := SFadd 53 1024.
Definition float64Div : float64 → float64 → float64 := SFdiv 53 1024.
(** [x <= 0]; false for a NaN. *)
Definition float64NonPositive (x : float64) : bool := SFleb x (S754_zero false).

(** [0 < x]; false for a NaN. *)
Definition float64Positive (x : float64) : bool := SFltb (S754_zero false) x.

Class FloatConversion := outOfRange : float64 → Z.

(** Truncated toward zero. *)
Definition int64OfFloat `{FloatConversion} (x : float64) : Z :=
  match x with
  | S754_zero _ => 0
  | S754_finite s m e =>
      let v := if 0 <=? e then Zpos m * 2 ^ e else Zpos m / 2 ^ (- e) in
      let z := if s then - v else v in
      if (MinInt64 <=? z) && (z <=? MaxInt64) then z else outOfRange x
  | _ => outOfRange x
  end.

#[export] Instance amd64 : FloatConversion := λ _, MinInt64.

Example float64_scale : int64OfFloat (float64Mul (float64OfInt 100000000) (float64OfInt 2)) = 200000000.
Proof. vm_compute. reflexivity. Qed.
Example float64_half :
  int64OfFloat (float64Mul (float64OfInt 101) (SFdiv 53 1024 (float64OfInt 1) (float64OfInt 2))) = 50.
Proof. vm_compute. reflexivity. Qed.
