(* ===== verification/Utf8.v ===== *)
(** * UTF-8 and base64

    [unicode/utf8] as [encoding/json] uses it: the valid rune at the front of a
    string, the encoding of a code point, and the loop over the runes of a
    string that takes an invalid byte alone; then [encoding/base64]. *)

From S2P Require Import Prelude.
From S2P Require Import Strconv.

Definition byteZ (c : ascii) : Z := Z.of_N (N_of_ascii c).
Definition byteOf (z : Z) : ascii := ascii_of_N (Z.to_N z).

Definition between (lo hi : Z) (c : ascii) : bool := (lo <=? byteZ c) && (byteZ c <=? hi).
Definition continuation : ascii → bool := between 128 191.

(** The shapes of a rune of two, three and four bytes: no overlong form, no
    surrogate, nothing above U+10FFFF. *)
Definition rune2 (a b : ascii) : bool := between 194 223 a && continuation b.

Definition rune3 (a b c : ascii) : bool :=
  (if byteZ a =? 224 then between 160 191 b
   else if byteZ a =? 237 then between 128 159 b
   else between 225 239 a && continuation b) && continuation c.

Definition rune4 (a b c d : ascii) : bool :=
  (if byteZ a =? 240 then between 144 191 b
   else if byteZ a =? 244 then between 128 143 b
   else between 241 243 a && continuation b) && continuation c && continuation d.

(** [utf8.DecodeRune]: the first rune and what follows it, when it is valid. *)
Definition nextRune (s : string) : option (string * string) :=
  match s with
  | "" => None
  | String a s1 =>
      if byteZ a <? 128 then Some (String a "", s1)
      else
        match s1 with
        | "" => None
        | String b s2 =>
            if rune2 a b then Some (String a (String b ""), s2)
            else
              match s2 with
              | "" => None
              | String c s3 =>
                  if rune3 a b c then Some (String a (String b (String c "")), s3)
                  else
                    match s3 with
                    | "" => None
                    | String d s4 =>
                        if rune4 a b c d then Some (String a (String b (String c (String d ""))), s4) else None
                    end
              end
        end
  end.

(** [for _, r := range s]: the valid runes, [None] for a byte that starts none. *)
Fixpoint runes (n : nat) (s : string) : list (option string) :=
  match n, s with
  | S n, String c r =>
      match nextRune s with
      | Some (chunk, r') => Some chunk :: runes n r'
      | None => None :: runes n r
      end
  | _, _ => []
  end.

(** A surrogate or a value out of range becomes the replacement character. *)
Definition validRune (r : Z) : Z :=
  if ((r <? 0) || (1114111 <? r)) || ((55296 <=? r) && (r <=? 57343)) then 65533 else r.

(** [utf8.AppendRune] of a code point. *)
Definition EncodeRune (r : Z) : string :=
  let r := validRune r in
  if r <? 128 then String (byteOf r) ""
  else if r <? 2048 then String (byteOf (192 + r / 64)) (String (byteOf (128 + r mod 64)) "")
  else if r <? 65536 then
    String (byteOf (224 + r / 4096))
      (String (byteOf (128 + r / 64 mod 64)) (String (byteOf (128 + r mod 64)) ""))
  else
    String (byteOf (240 + r / 262144))
      (String (byteOf (128 + r / 4096 mod 64))
        (String (byteOf (128 + r / 64 mod 64)) (String (byteOf (128 + r mod 64)) ""))).

(** ** Lemmas *)

Lemma byteZ_range c : 0 ≤ byteZ c < 256.
Proof. unfold byteZ. pose proof (N_ascii_bounded c). lia. Qed.

Lemma byteZ_byteOf z : 0 ≤ z < 256 → byteZ (byteOf z) = z.
Proof. intros Hz. unfold byteZ, byteOf. rewrite N_ascii_embedding; lia. Qed.

(** A string that is one rune. *)
Definition is_rune (chunk : string) : Prop := nextRune chunk = Some (chunk, "").

Ltac rune_cases :=
  repeat match goal with
  | H : context [match ?s with "" => _ | String _ _ => _ end] |- _ => is_var s; destruct s
  | H : context [if ?b then _ else _] |- _ => destruct b eqn:?
  end.

Lemma nextRune_split s chunk r : nextRune s = Some (chunk, r) → s = chunk +:+ r ∧ is_rune chunk.
Proof.
  unfold is_rune, nextRune. intros H. rune_cases; simplify_eq; split; try reflexivity;
    repeat match goal with E : ?b = _ |- context [if ?b then _ else _] => rewrite E end; reflexivity.
Qed.

Lemma nextRune_app chunk r : is_rune chunk → nextRune (chunk +:+ r) = Some (chunk, r).
Proof.
  unfold is_rune, nextRune. intros H. rune_cases; simplify_eq; rewrite ?app_String, ?app_Empty;
    repeat match goal with E : ?b = _ |- context [if ?b then _ else _] => rewrite E end; reflexivity.
Qed.

Lemma is_rune_cons chunk : is_rune chunk → ∃ c s, chunk = String c s.
Proof. destruct chunk; [done|eauto]. Qed.

(** Valid UTF-8: a sequence of runes. *)
Inductive utf8 : string → Prop :=
| utf8_nil : utf8 ""
| utf8_cons chunk s : is_rune chunk → utf8 s → utf8 (chunk +:+ s).

Lemma utf8_one chunk : is_rune chunk → utf8 chunk.
Proof. intros H. rewrite <- (append_nil_r chunk). by apply utf8_cons, utf8_nil. Qed.

(** ASCII text is UTF-8. *)
Lemma utf8_ascii s : forallb (λ c, byteZ c <? 128) (String.list_ascii_of_string s) = true → utf8 s.
Proof.
  induction s as [|c s IH]; [constructor|]. cbn [String.list_ascii_of_string forallb]. intros [Hc Hs]%andb_true_iff.
  apply (utf8_cons (String c "")); [|auto]. unfold is_rune. cbn [nextRune]. by rewrite Hc.
Qed.

Lemma runes_utf8 s n :
  utf8 s → (String.length s ≤ n)%nat →
  ∃ chunks : list string, runes n s = Some <$> chunks ∧ Forall is_rune chunks ∧ s = String.concat "" chunks.
Proof.
  intros Hs. revert n. induction Hs as [|chunk s Hc Hs IH]; intros n Hn.
  { exists []. by destruct n. }
  destruct (is_rune_cons chunk Hc) as (c & t & E). rewrite length_append in Hn.
  destruct n as [|n]; [rewrite E in Hn; cbn in Hn; lia|].
  destruct (IH n) as (chunks & Hr & Hall & ->); [rewrite E in Hn; cbn in Hn; lia|].
  exists (chunk :: chunks). split; [|split; [by constructor|]].
  - cbn [runes]. rewrite nextRune_app by done. rewrite Hr. by rewrite E, app_String.
  - destruct chunks; [cbn; apply append_nil_r|done].
Qed.

Ltac rune_lia :=
  unfold is_rune, nextRune, rune2, rune3, rune4, continuation, between;
  rewrite ?byteZ_byteOf by (Z.to_euclidean_division_equations; lia);
  repeat match goal with
  | |- context [if (?a =? ?b)%Z then _ else _] => destruct (Z.eqb_spec a b)
  | |- context [if (?a <? ?b)%Z then _ else _] => destruct (Z.ltb_spec a b); try (exfalso; Z.to_euclidean_division_equations; lia)
  | |- context [(?a <=? ?b)%Z] => destruct (Z.leb_spec a b); try (exfalso; Z.to_euclidean_division_equations; lia)
  end; cbn; try reflexivity; try (exfalso; Z.to_euclidean_division_equations; lia).

Lemma EncodeRune_rune r : is_rune (EncodeRune r).
Proof.
  unfold EncodeRune.
  set (r' := validRune r).
  assert ((0 ≤ r' < 55296) ∨ (57343 < r' ≤ 1114111)) as Hr.
  { unfold r', validRune. destruct ((r <? 0) || (1114111 <? r) || ((55296 <=? r) && (r <=? 57343))) eqn:E; [lia|].
    apply orb_false_iff in E as [E1 E2]. zbool. apply andb_false_iff in E2 as [E2|E2]; zbool; lia. }
  clearbody r'. clear r.
  destruct (Z.ltb_spec r' 128); [|destruct (Z.ltb_spec r' 2048); [|destruct (Z.ltb_spec r' 65536)]]; rune_lia.
Qed.

(** * Base64 *)

(** The alphabet and its inverse. *)
Definition sextet (z : Z) : ascii :=
  if z <? 26 then byteOf (65 + z)
  else if z <? 52 then byteOf (71 + z)
  else if z <? 62 then byteOf (z - 4)
  else if z =? 62 then byteOf 43 else byteOf 47.

Definition sextetValue (c : ascii) : option Z :=
  let b := byteZ c in
  if between 65 90 c then Some (b - 65)
  else if between 97 122 c then Some (b - 71)
  else if between 48 57 c then Some (b + 4)
  else if b =? 43 then Some 62
  else if b =? 47 then Some 63
  else None.

Definition padding : ascii := "=".

Fixpoint base64Encode (s : string) : string :=
  match s with
  | "" => ""
  | String a "" =>
      String (sextet (byteZ a / 4)) (String (sextet (byteZ a mod 4 * 16))
        (String padding (String padding "")))
  | String a (String b "") =>
      String (sextet (byteZ a / 4)) (String (sextet (byteZ a mod 4 * 16 + byteZ b / 16))
        (String (sextet (byteZ b mod 16 * 4)) (String padding "")))
  | String a (String b (String c r)) =>
      String (sextet (byteZ a / 4)) (String (sextet (byteZ a mod 4 * 16 + byteZ b / 16))
        (String (sextet (byteZ b mod 16 * 4 + byteZ c / 64)) (String (sextet (byteZ c mod 64)) (base64Encode r))))
  end.

Definition lineBreak (c : ascii) : bool := (byteZ c =? 10) || (byteZ c =? 13).

Fixpoint dropLineBreaks (s : string) : string :=
  match s with
  | "" => ""
  | String c r => if lineBreak c then dropLineBreaks r else String c (dropLineBreaks r)
  end.

Fixpoint decodeQuanta (s : string) : option string :=
  match s with
  | "" => Some ""
  | String w (String x (String y (String z r))) =>
      match sextetValue w, sextetValue x with
      | Some w, Some x =>
          let first := byteOf (w * 4 + x / 16) in
          if bool_decide (y = padding) then
            if bool_decide (z = padding) && bool_decide (r = "") then Some (String first "") else None
          else
            match sextetValue y with
            | None => None
            | Some y =>
                let second := byteOf (x mod 16 * 16 + y / 4) in
                if bool_decide (z = padding) then
                  if bool_decide (r = "") then Some (String first (String second "")) else None
                else
                  match sextetValue z with
                  | None => None
                  | Some z =>
                      let third := byteOf (y mod 4 * 64 + z) in
                      (λ t, String first (String second (String third t))) <$> decodeQuanta r
                  end
            end
      | _, _ => None
      end
  | _ => None
  end.

Definition base64Decode (s : string) : option string := decodeQuanta (dropLineBreaks s).

(** ** Lemmas *)

Lemma sextetValue_sextet z : 0 ≤ z < 64 → sextetValue (sextet z) = Some z.
Proof.
  intros Hz. unfold sextet, sextetValue, between.
  destruct (Z.ltb_spec z 26); [|destruct (Z.ltb_spec z 52); [|destruct (Z.ltb_spec z 62);
    [|destruct (Z.eqb_spec z 62)]]]; rewrite !byteZ_byteOf by lia;
    repeat match goal with |- context [(?a <=? ?b)%Z] => destruct (Z.leb_spec a b); try lia end;
    cbn; try (f_equal; lia); by f_equal; lia.
Qed.

Lemma sextet_plain z : 0 ≤ z < 64 → sextet z ≠ padding ∧ lineBreak (sextet z) = false.
Proof.
  intros Hz. unfold sextet, lineBreak.
  destruct (Z.ltb_spec z 26); [|destruct (Z.ltb_spec z 52); [|destruct (Z.ltb_spec z 62);
    [|destruct (Z.eqb_spec z 62)]]]; rewrite !byteZ_byteOf by lia;
    (split; [intros E; apply (f_equal byteZ) in E; rewrite byteZ_byteOf in E by lia;
       change (byteZ padding) with 61 in E; lia|apply orb_false_iff; split; apply Z.eqb_neq; lia]).
Qed.

Lemma sextet_lineBreak z : 0 ≤ z < 64 → lineBreak (sextet z) = false.
Proof. apply sextet_plain. Qed.

(** Induction by three bytes. *)
Lemma string_ind3 (P : string → Prop) :
  P "" → (∀ a, P (String a "")) → (∀ a b, P (String a (String b ""))) →
  (∀ a b c r, P r → P (String a (String b (String c r)))) → ∀ s, P s.
Proof.
  intros H0 H1 H2 H3. fix IH 1. intros [|a [|b [|c r]]]; [done|apply H1|apply H2|apply H3, IH].
Qed.

Lemma byteOf_byteZ c z : byteZ c = z → byteOf z = c.
Proof. intros <-. unfold byteOf, byteZ. by rewrite N2Z.id, ascii_N_embedding. Qed.

Lemma dropLineBreaks_encode s : dropLineBreaks (base64Encode s) = base64Encode s.
Proof.
  induction s as [|a|a b|a b c r IH] using string_ind3; [done|..]; cbn [base64Encode dropLineBreaks];
    pose proof (byteZ_range a); try pose proof (byteZ_range b); try pose proof (byteZ_range c);
    rewrite !sextet_lineBreak by (Z.to_euclidean_division_equations; lia); [done|done|]. by rewrite IH.
Qed.

Lemma base64_roundtrip s : base64Decode (base64Encode s) = Some s.
Proof.
  unfold base64Decode. rewrite dropLineBreaks_encode.
  induction s as [|a|a b|a b c r IH] using string_ind3; [done|..]; cbn [base64Encode decodeQuanta];
    pose proof (byteZ_range a); try pose proof (byteZ_range b); try pose proof (byteZ_range c);
    rewrite !sextetValue_sextet by (Z.to_euclidean_division_equations; lia);
    repeat (rewrite (bool_decide_false (sextet _ = padding))
      by (apply sextet_plain; Z.to_euclidean_division_equations; lia));
    rewrite ?bool_decide_true by done; cbn [andb]; rewrite ?IH; cbn [fmap option_fmap option_map];
    repeat f_equal; apply byteOf_byteZ; Z.to_euclidean_division_equations; lia.
Qed.
