(* ===== verification/Json.v ===== *)
(** * JSON text

    [encoding/json] as the library uses it: [json.Marshal] of the values that
    decoding into an [interface{}] produces, and the decoder that keeps a number
    as its text ([json.Decoder.UseNumber]), with its escaping, UTF-8
    replacement and nesting limit.  A Go map has no order and is printed in the
    order of its keys: an object is its entries in that order. *)

From S2P Require Import Prelude.
From S2P Require Import Sha256.
From S2P Require Import Strconv.
From S2P Require Import Utf8.

(** ** Values *)

#[warnings="-register-all"]
Inductive json :=
| JNull
| JBool (b : bool)
| JNumber (n : string)
| JString (s : string)
| JArray (l : list json)
| JObject (m : list (string * json)).

Section JsonInd.
Context (P : json → Prop)
  (Pnull : P JNull) (Pbool : ∀ b, P (JBool b)) (Pnumber : ∀ n, P (JNumber n)) (Pstring : ∀ s, P (JString s))
  (Parray : ∀ l, Forall P l → P (JArray l))
  (Pobject : ∀ m, Forall (λ kv, P kv.2) m → P (JObject m)).

Fixpoint json_ind' (v : json) : P v :=
  match v with
  | JNull => Pnull
  | JBool b => Pbool b
  | JNumber n => Pnumber n
  | JString s => Pstring s
  | JArray l =>
      Parray l ((fix go l : Forall P l :=
        match l with [] => Forall_nil_2 _ | v :: l => Forall_cons_2 _ _ _ (json_ind' v) (go l) end) l)
  | JObject m =>
      Pobject m ((fix go m : Forall (λ kv, P kv.2) m :=
        match m with
        | [] => Forall_nil_2 _
        | kv :: m => Forall_cons_2 _ _ _ (json_ind' kv.2) (go m)
        end) m)
  end.
End JsonInd.

(** [m[k] = v] on the entries of a map. *)
Fixpoint objSet {A} (k : string) (v : A) (m : list (string * A)) : list (string * A) :=
  match m with
  | [] => [(k, v)]
  | (k', v') :: m' =>
      if bool_decide (k = k') then (k, v) :: m'
      else if String.ltb k k' then (k, v) :: m
      else (k', v') :: objSet k v m'
  end.

(** [m[k]] *)
Fixpoint objGet {A} (k : string) (m : list (string * A)) : option A :=
  match m with
  | [] => None
  | (k', v') :: m' => if bool_decide (k = k') then Some v' else objGet k m'
  end.

(** ** Marshal *)

Definition str1 (z : Z) : string := String (byteOf z) "".
Definition backslash : ascii := "\".
Definition quote : ascii := "034".

Definition escapeByte (c : ascii) : string :=
  let b := byteZ c in
  if (b =? 34) || (b =? 92) then String backslash (String c "")
  else if b =? 8 then "\b"
  else if b =? 9 then "\t"
  else if b =? 10 then "\n"
  else if b =? 12 then "\f"
  else if b =? 13 then "\r"
  else if (b <? 32) || (b =? 60) || (b =? 62) || (b =? 38) then
    "\u00" +:+ String (hexDigit (b / 16)) (String (hexDigit (b mod 16)) "")
  else String c "".

(** U+2028 and U+2029 *)
Definition lineSeparator : string := String "226" (String "128" (String "168" "")).
Definition paragraphSeparator : string := String "226" (String "128" (String "169" "")).

Definition escapeRune (r : option string) : string :=
  match r with
  | None => "\ufffd"
  | Some (String c "") => escapeByte c
  | Some chunk =>
      if bool_decide (chunk = lineSeparator) then "\u2028"
      else if bool_decide (chunk = paragraphSeparator) then "\u2029"
      else chunk
  end.

Definition printString (s : string) : string :=
  String quote (String.concat "" (escapeRune <$> runes (String.length s) s) +:+ String quote "").

Fixpoint print (v : json) : string :=
  match v with
  | JNull => "null"
  | JBool true => "true"
  | JBool false => "false"
  | JNumber n => if bool_decide (n = "") then "0" else n
  | JString s => printString s
  | JArray l => "[" +:+ String.concat "," (map print l) +:+ "]"
  | JObject m =>
      "{" +:+ String.concat "," (map (λ '(k, v), printString k +:+ ":" +:+ print v) m) +:+ "}"
  end.

(** ** Numbers *)

Definition digit : ascii → bool := between 48 57.

Definition numberChar (c : ascii) : bool :=
  digit c || (byteZ c =? 43) || (byteZ c =? 45) || (byteZ c =? 46) || (byteZ c =? 101) || (byteZ c =? 69).

Fixpoint skipDigits (s : string) : string :=
  match s with
  | "" => ""
  | String c r => if digit c then skipDigits r else s
  end.

(** At least one digit, then the rest. *)
Definition digits1 (s : string) : option string :=
  match s with
  | String c r => if digit c then Some (skipDigits r) else None
  | "" => None
  end.

Definition exponent (s : string) : bool :=
  match s with
  | "" => true
  | String c r =>
      if (byteZ c =? 101) || (byteZ c =? 69) then
        let r := match r with String d r' => if (byteZ d =? 43) || (byteZ d =? 45) then r' else r | "" => r end in
        bool_decide (digits1 r = Some "")
      else false
  end.

Definition fraction (s : string) : bool :=
  match s with
  | String "." r => match digits1 r with Some r => exponent r | None => false end
  | _ => exponent s
  end.

(** [isValidNumber] *)
Definition validNumber (s : string) : bool :=
  let s := match s with String "-" r => r | _ => s end in
  match s with
  | "" => false
  | String c r => if byteZ c =? 48 then fraction r else if digit c then fraction (skipDigits r) else false
  end.

(** Marshalling fails on a number that is none. *)
Fixpoint numbersValid (v : json) : bool :=
  match v with
  | JNumber n => bool_decide (n = "") || validNumber n
  | JArray l => forallb numbersValid l
  | JObject m => forallb (λ '(_, v), numbersValid v) m
  | _ => true
  end.

Definition Marshal (v : json) : option string :=
  if numbersValid v then Some (print v) else None.

(** ** Decoding *)

Definition space (c : ascii) : bool :=
  (byteZ c =? 32) || (byteZ c =? 9) || (byteZ c =? 10) || (byteZ c =? 13).

Fixpoint skipSpace (s : string) : string :=
  match s with
  | "" => ""
  | String c r => if space c then skipSpace r else s
  end.

Definition hexValue (c : ascii) : option Z :=
  let b := byteZ c in
  if between 48 57 c then Some (b - 48)
  else if between 97 102 c then Some (b - 87)
  else if between 65 70 c then Some (b - 55)
  else None.

(** The four digits after a [\u]. *)
Definition hex4 (s : string) : option (Z * string) :=
  match s with
  | String a (String b (String c (String d r))) =>
      match hexValue a, hexValue b, hexValue c, hexValue d with
      | Some a, Some b, Some c, Some d => Some (((a * 16 + b) * 16 + c) * 16 + d, r)
      | _, _, _, _ => None
      end
  | _ => None
  end.

Definition surrogate (u : Z) : bool := (55296 <=? u) && (u <=? 57343).

(** The second half of a surrogate pair. *)
Definition lowSurrogate (u : Z) (s : string) : option (Z * string) :=
  match s with
  | String a (String b r) =>
      if (byteZ a =? 92) && (byteZ b =? 117) then
        match hex4 r with
        | Some (lo, r) =>
            if (u <? 56320) && (56320 <=? lo) && (lo <=? 57343)
            then Some ((u - 55296) * 1024 + (lo - 56320) + 65536, r) else None
        | None => None
        end
      else None
  | _ => None
  end.

Definition unicodeEscape (s : string) : option (string * string) :=
  match hex4 s with
  | None => None
  | Some (u, r) =>
      if surrogate u then
        match lowSurrogate u r with
        | Some (u, r) => Some (EncodeRune u, r)
        | None => Some (EncodeRune 65533, r)
        end
      else Some (EncodeRune u, r)
  end.

Definition simpleEscape (c : ascii) : option string :=
  let b := byteZ c in
  if (b =? 34) || (b =? 92) || (b =? 47) then Some (String c "")
  else if b =? 98 then Some (str1 8)
  else if b =? 102 then Some (str1 12)
  else if b =? 110 then Some (str1 10)
  else if b =? 114 then Some (str1 13)
  else if b =? 116 then Some (str1 9)
  else None.

(** One character of a string literal, decoded; [None] on a syntax error. *)
Definition unquoteOne (s : string) : option (string * string) :=
  match s with
  | "" => None
  | String c r =>
      if byteZ c =? 92 then
        match r with
        | "" => None
        | String e r =>
            if byteZ e =? 117 then unicodeEscape r
            else match simpleEscape e with Some x => Some (x, r) | None => None end
        end
      else if byteZ c <? 32 then None
      else match nextRune s with Some (chunk, r') => Some (chunk, r') | None => Some (EncodeRune 65533, r) end
  end.

(** The body of a string literal, up to its closing quote. *)
Fixpoint unquote (n : nat) (s : string) : option (string * string) :=
  match n, s with
  | S n, String c r =>
      if byteZ c =? 34 then Some ("", r)
      else
        match unquoteOne s with
        | None => None
        | Some (x, r) => match unquote n r with Some (y, r) => Some (x +:+ y, r) | None => None end
        end
  | _, _ => None
  end.

Definition parseString (s : string) : option (string * string) := unquote (String.length s) s.

Fixpoint takeNumber (s : string) : string * string :=
  match s with
  | String c r => if numberChar c then let '(n, r) := takeNumber r in (String c n, r) else ("", s)
  | "" => ("", "")
  end.

Definition parseNumber (s : string) : option (json * string) :=
  let '(n, r) := takeNumber s in
  if validNumber n then Some (JNumber n, r) else None.

Definition parseLiteral (s : string) : option (json * string) :=
  match s with
  | String "n" (String "u" (String "l" (String "l" r))) => Some (JNull, r)
  | String "t" (String "r" (String "u" (String "e" r))) => Some (JBool true, r)
  | String "f" (String "a" (String "l" (String "s" (String "e" r)))) => Some (JBool false, r)
  | _ => parseNumber s
  end.

Definition maxNestingDepth : Z := 10000.

Fixpoint parseValue (n : nat) (d : Z) (s : string) : option (json * string) :=
  match n with
  | O => None
  | S n =>
      match skipSpace s with
      | "" => None
      | String c r =>
          if byteZ c =? 123 then
            if maxNestingDepth <=? d then None
            else
              match skipSpace r with
              | "" => None
              | String c' r' =>
                  if byteZ c' =? 125 then Some (JObject [], r') else parseMembers n (d + 1) [] r
              end
          else if byteZ c =? 91 then
            if maxNestingDepth <=? d then None
            else
              match skipSpace r with
              | "" => None
              | String c' r' =>
                  if byteZ c' =? 93 then Some (JArray [], r') else parseElements n (d + 1) [] r
              end
          else if byteZ c =? 34 then
            match parseString r with Some (x, r) => Some (JString x, r) | None => None end
          else parseLiteral (String c r)
      end
  end
with parseElements (n : nat) (d : Z) (acc : list json) (s : string) : option (json * string) :=
  match n with
  | O => None
  | S n =>
      match parseValue n d s with
      | None => None
      | Some (v, r) =>
          match skipSpace r with
          | "" => None
          | String c r =>
              if byteZ c =? 44 then parseElements n d (acc ++ [v]) r
              else if byteZ c =? 93 then Some (JArray (acc ++ [v]), r)
              else None
          end
      end
  end
with parseMembers (n : nat) (d : Z) (acc : list (string * json)) (s : string) : option (json * string) :=
  match n with
  | O => None
  | S n =>
      match skipSpace s with
      | "" => None
      | String q r =>
          if byteZ q =? 34 then
            match parseString r with
            | None => None
            | Some (k, r) =>
                match skipSpace r with
                | "" => None
                | String colon r =>
                    if byteZ colon =? 58 then
                      match parseValue n d r with
                      | None => None
                      | Some (v, r) =>
                          match skipSpace r with
                          | "" => None
                          | String c r =>
                              if byteZ c =? 44 then parseMembers n d (objSet k v acc) r
                              else if byteZ c =? 125 then Some (JObject (objSet k v acc), r)
                              else None
                          end
                      end
                    else None
                end
            end
          else None
      end
  end.

(** One value and nothing but white space after it. *)
Definition decode (s : string) : option json :=
  match parseValue (2 * String.length s + 1) 0 s with
  | Some (v, r) => if bool_decide (skipSpace r = "") then Some v else None
  | None => None
  end.

(** [json.Unmarshal] into a [[]string]: a null leaves the zero value. *)
Fixpoint stringElements (l : list json) : option (list string) :=
  match l with
  | [] => Some []
  | JString s :: l => cons s <$> stringElements l
  | JNull :: l => cons "" <$> stringElements l
  | _ => None
  end.

Definition UnmarshalStrings (s : string) : option (list string) :=
  match decode s with
  | Some JNull => Some []
  | Some (JArray l) => stringElements l
  | _ => None
  end.

Definition MarshalStrings (l : list string) : string := print (JArray (JString <$> l)).

(** ** Concrete texts *)

Example decode_sample :
  decode (MarshalStrings ["a"; "b<"]) = Some (JArray [JString "a"; JString "b<"]).
Proof. vm_compute. reflexivity. Qed.

Example decode_object :
  decode " { \u0022 : 1 }" = None ∧
  decode ("[12e5, -0.5 ,null,[],{}] ") =
    Some (JArray [JNumber "12e5"; JNumber "-0.5"; JNull; JArray []; JObject []]) ∧
  decode "[01]" = None ∧ decode "[1] x" = None ∧ decode "[1,]" = None.
Proof. vm_compute. auto. Qed.
