(* ===== verification/JsonRoundtrip.v ===== *)
(** * Printed JSON is read back

    The values a decoder returns are well formed, and decoding the text of a
    well-formed value returns it. *)

From S2P Require Import Prelude.
From S2P Require Import Sha256.
From S2P Require Import Strconv.
From S2P Require Import Utf8.
From S2P Require Import Json.

(** ** Strings *)

Lemma concat_cons x l : String.concat "" (x :: l) = x +:+ String.concat "" l.
Proof. destruct l; cbn; [by rewrite append_nil_r|done]. Qed.

Lemma escapeRune_unquoteOne chunk r :
  is_rune chunk →
  unquoteOne (escapeRune (Some chunk) +:+ r) = Some (chunk, r) ∧
  ∃ c t, escapeRune (Some chunk) = String c t ∧ byteZ c ≠ 34.
Proof.
  intros Hc. destruct chunk as [|a [|b t]]; [done|..].
  - destruct a as [[] [] [] [] [] [] [] []]; vm_compute in Hc; try discriminate Hc;
      (split; [reflexivity|]; eexists _, _; split; [reflexivity|]; vm_compute; discriminate).
  - cbn [escapeRune]. case_bool_decide as E1; [rewrite E1; split; [reflexivity|eexists _, _; by split]|].
    case_bool_decide as E2; [rewrite E2; split; [reflexivity|eexists _, _; by split]|].
    assert (128 ≤ byteZ a) as Ha.
    { unfold is_rune in Hc. cbn [nextRune] in Hc. destruct (Z.ltb_spec (byteZ a) 128); [|lia]. injection Hc. done. }
    split; [|eexists _, _; split; [reflexivity|lia]]. unfold unquoteOne. rewrite app_String.
    destruct (Z.eqb_spec (byteZ a) 92); [lia|]. destruct (Z.ltb_spec (byteZ a) 32); [lia|].
    rewrite <- app_String. by rewrite nextRune_app.
Qed.

Lemma unquote_print chunks n r :
  Forall is_rune chunks → (length chunks < n)%nat →
  unquote n (String.concat "" (escapeRune <$> (Some <$> chunks)) +:+ String quote r)
    = Some (String.concat "" chunks, r).
Proof.
  intros Hc. revert n. induction Hc as [|chunk chunks Hch _ IH]; intros [|n] Hn; cbn [length] in Hn; try lia; [done|].
  rewrite !fmap_cons, !concat_cons, append_assoc.
  destruct (escapeRune_unquoteOne chunk (String.concat "" (escapeRune <$> (Some <$> chunks)) +:+ String quote r) Hch)
    as (Hu & c & t & E & Hq).
  assert (∀ s x y, unquoteOne s = Some (x, y) → (∃ c t, s = String c t ∧ byteZ c ≠ 34) →
    unquote (S n) s = match unquote n y with Some (z, r) => Some (x +:+ z, r) | None => None end) as Hs.
  { intros s x y H1 (c' & t' & -> & H2). cbn [unquote]. rewrite (proj2 (Z.eqb_neq _ _)) by done. by rewrite H1. }
  erewrite Hs; [|exact Hu|]; [rewrite IH by lia; done|]. rewrite E, app_String. eauto.
Qed.

Lemma escapes_length chunks :
  Forall is_rune chunks → (length chunks ≤ String.length (String.concat "" (escapeRune <$> (Some <$> chunks))))%nat.
Proof.
  induction 1 as [|chunk chunks Hc _ IH]; [cbn; lia|]. rewrite !fmap_cons, concat_cons, length_append. cbn [length].
  destruct (escapeRune_unquoteOne chunk "" Hc) as (_ & c & t & -> & _). cbn [String.length]. lia.
Qed.

Lemma printString_shape s :
  utf8 s → ∃ body, (∀ r, printString s +:+ r = String quote (body +:+ String quote r)) ∧
    ∀ r, parseString (body +:+ String quote r) = Some (s, r).
Proof.
  intros Hs. unfold printString.
  destruct (runes_utf8 s (String.length s) Hs) as (chunks & -> & Hc & ->); [lia|].
  eexists. split.
  - intros r. rewrite app_String, append_assoc. reflexivity.
  - intros r. unfold parseString. apply unquote_print; [done|]. rewrite length_append.
    pose proof (escapes_length chunks Hc). cbn [String.length]. lia.
Qed.

(** ** Numbers *)

Definition number (n : string) : Prop := validNumber n = true ∧ takeNumber n = (n, "").

Definition notNumber (s : string) : Prop := match s with String c _ => numberChar c = false | "" => True end.

Lemma takeNumber_app n r : takeNumber n = (n, "") → notNumber r → takeNumber (n +:+ r) = (n, r).
Proof.
  intros Hn Hr. induction n as [|c n IH].
  - rewrite app_Empty. destruct r as [|c r]; [done|]. cbn in *. by rewrite Hr.
  - rewrite app_String. cbn [takeNumber] in *. destruct (numberChar c); [|done].
    destruct (takeNumber n) as [x y]. injection Hn as -> ->. by rewrite IH.
Qed.

Lemma takeNumber_idem s n r : takeNumber s = (n, r) → takeNumber n = (n, "").
Proof.
  revert n r. induction s as [|c s IH]; intros n r; cbn; [by intros [= <- <-]|].
  destruct (numberChar c) eqn:E; [|by intros [= <- <-]].
  destruct (takeNumber s) as [x y]. intros [= <- <-]. cbn. by rewrite E, (IH _ _ eq_refl).
Qed.

Lemma number_first n : number n → ∃ c r, n = String c r ∧ (byteZ c = 45 ∨ digit c = true).
Proof.
  intros [Hv _]. destruct n as [|c n]; [done|]. eexists _, _. split; [done|].
  destruct (decide (byteZ c = 45)) as [|Hne]; [by left|right]. unfold validNumber in Hv.
  assert (match String c n with String "-" r => r | _ => String c n end = String c n) as E.
  { destruct c as [[] [] [] [] [] [] [] []]; try done; by destruct Hne. }
  rewrite E in Hv. destruct (Z.eqb_spec (byteZ c) 48) as [E0|]; [|by destruct (digit c)].
  unfold digit, between. by rewrite E0.
Qed.

(** ** Well-formed values *)

Definition keyLess (k k' : string) : Prop := String.ltb k k' = true.

Lemma keyLess_le k k' : keyLess k k' ↔ String.le k k' ∧ k ≠ k'.
Proof.
  unfold keyLess, String.le, String.ltb, String.leb. destruct (String.compare k k') eqn:E.
  - apply String.compare_eq_iff in E. naive_solver.
  - split; [|done]. split; [done|]. intros ->. pose proof (String.compare_antisym k' k') as Ha.
    by rewrite E in Ha.
  - naive_solver.
Qed.

#[export] Instance keyLess_trans : Transitive keyLess.
Proof.
  intros x y z. rewrite !keyLess_le. intros [H1 N1] [H2 N2]. split; [by transitivity y|].
  intros ->. apply N2. by apply (anti_symm String.le).
Qed.

Lemma keyLess_irrefl k : ¬ keyLess k k.
Proof. rewrite keyLess_le. by intros [_ []]. Qed.

Lemma keyLess_total k k' : k ≠ k' → String.ltb k k' = false → keyLess k' k.
Proof.
  intros Hne H. rewrite keyLess_le. split; [|done]. destruct (total String.le k k') as [Hl|]; [|done].
  assert (keyLess k k') as E by (by rewrite keyLess_le). unfold keyLess in E. congruence.
Qed.

#[warnings="-register-all"]
Inductive wf : Z → json → Prop :=
| wf_null d : wf d JNull
| wf_bool d b : wf d (JBool b)
| wf_number d n : number n → wf d (JNumber n)
| wf_string d s : utf8 s → wf d (JString s)
| wf_array d l : d < maxNestingDepth → Forall (wf (d + 1)) l → wf d (JArray l)
| wf_object d m :
    d < maxNestingDepth → StronglySorted keyLess m.*1 → Forall utf8 m.*1 →
    Forall (λ kv, wf (d + 1) kv.2) m → wf d (JObject m).

Lemma wf_le v d d' : wf d v → d' ≤ d → wf d' v.
Proof.
  revert d d'. induction v as [|b|n|s|l IH|m IH] using json_ind'; intros d d' Hw Hd;
    inversion Hw as [| | | |? ? ? Hall|? ? ? ? ? Hall]; subst; constructor; try done; try lia;
    rewrite Forall_forall in IH, Hall |- *; intros x Hx; (eapply IH; [done|by apply Hall|lia]).
Qed.

(** ** Objects *)

Lemma objSet_append {A} k (v : A) m :
  Forall (λ k', keyLess k' k) m.*1 → objSet k v m = m ++ [(k, v)].
Proof.
  induction m as [|[k' v'] m IH]; [done|]. cbn [fmap list_fmap fst]. intros [Hk Hm]%Forall_cons. cbn [objSet app].
  rewrite bool_decide_false by (intros ->; by apply keyLess_irrefl in Hk).
  destruct (String.ltb k k') eqn:E; [|by rewrite IH].
  exfalso. apply (keyLess_irrefl k). by transitivity k'.
Qed.

Lemma objSet_keys {A} k (v : A) m x : x ∈ (objSet k v m).*1 ↔ x = k ∨ x ∈ m.*1.
Proof.
  induction m as [|[k' v'] m IH]; cbn; [set_solver|].
  case_bool_decide; [subst; cbn; set_solver|]. destruct (String.ltb k k'); cbn; set_solver.
Qed.

Lemma objSet_sorted {A} k (v : A) m :
  StronglySorted keyLess m.*1 → StronglySorted keyLess (objSet k v m).*1.
Proof.
  induction m as [|[k' v'] m IH]; cbn [fmap list_fmap fst objSet]; [repeat constructor|].
  intros Hs. inversion Hs as [|? ? Hs' Hk]; subst.
  case_bool_decide as E; [by subst|]. destruct (String.ltb k k') eqn:El; cbn [fmap list_fmap fst].
  - constructor; [done|]. constructor; [done|]. eapply Forall_impl; [exact Hk|]. intros x Hx. by transitivity k'.
  - constructor; [by apply IH|]. apply Forall_forall. intros x [->|Hx]%objSet_keys.
    + by apply keyLess_total.
    + rewrite Forall_forall in Hk. by apply Hk.
Qed.

Lemma objSet_values {A} (P : A → Prop) k (v : A) m :
  P v → Forall (λ kv, P kv.2) m → Forall (λ kv, P kv.2) (objSet k v m).
Proof.
  intros Hv. induction 1 as [|[k' v'] m Hx Hm IH]; cbn; [by repeat constructor|].
  case_bool_decide; [by constructor|]. destruct (String.ltb k k'); by repeat constructor.
Qed.

(** ** Printing, then parsing *)

Lemma skipSpace_cons c r : space c = false → skipSpace (String c r) = String c r.
Proof. intros H. cbn. by rewrite H. Qed.

(** A value starts with a character that is neither white space nor a closing
    bracket, and that tells its kind. *)
Lemma print_first d v :
  wf d v → ∃ c r, print v = String c r ∧ space c = false ∧ byteZ c ≠ 93 ∧ byteZ c ≠ 125.
Proof.
  destruct 1 as [?|? []|? n Hn|? s _|? l _ _|? m _ _ _ _]; try (eexists _, _; split; [reflexivity|by vm_compute]).
  cbn [print]. destruct (number_first n Hn) as (c & r & -> & Hc). rewrite bool_decide_false by done.
  eexists _, _. split; [done|]. unfold space. unfold digit, between in Hc.
  assert (byteZ c = 45 ∨ 48 ≤ byteZ c ≤ 57) as Hb by (destruct Hc as [|Hc]; [by left|zbool; lia]).
  repeat split; [|lia..]. repeat (rewrite (proj2 (Z.eqb_neq _ _)) by lia). done.
Qed.

Lemma skipSpace_print d v r : wf d v → skipSpace (print v +:+ r) = print v +:+ r.
Proof. intros (c & t & -> & Hs & _)%print_first. rewrite app_String. by apply skipSpace_cons. Qed.

(** What is left after a value. *)
Definition closed (rest : string) : Prop :=
  match rest with String c _ => numberChar c = false ∧ space c = false | "" => True end.

Definition reads (v : json) : Prop := ∀ d n rest,
  wf d v → closed rest → (2 * String.length (print v +:+ rest) < n)%nat →
  parseValue n d (print v +:+ rest) = Some (v, rest).

Lemma parseElements_print d n acc v l rest :
  Forall reads (v :: l) → Forall (wf d) (v :: l) →
  (2 * String.length (String.concat "," (map print (v :: l)) +:+ String "]" rest) + 1 < n)%nat →
  parseElements n d acc (String.concat "," (map print (v :: l)) +:+ String "]" rest)
    = Some (JArray (acc ++ v :: l), rest).
Proof.
  revert n acc v. induction l as [|v' l IH]; intros [|n] acc v Hr Hw Hn; [lia| |lia|];
    apply Forall_cons in Hr as [Hv Hr]; apply Forall_cons in Hw as [Hwv Hw]; cbn [parseElements].
  - change (String.concat "," (map print [v])) with (print v) in *.
    rewrite Hv; [|done|by cbn|lia]. rewrite skipSpace_cons by done. by vm_compute.
  - change (String.concat "," (map print (v :: v' :: l)))
      with (print v +:+ String "," (String.concat "," (map print (v' :: l)))) in *.
    rewrite append_assoc, app_String in *. rewrite Hv; [|done|by cbn|lia].
    rewrite skipSpace_cons by done. change (byteZ "," =? 44) with true. cbn iota.
    rewrite IH; [|done|done|rewrite length_append in Hn; cbn [String.length] in Hn; lia].
    by rewrite <- app_assoc.
Qed.

Definition printMember (kv : string * json) : string := printString kv.1 +:+ ":" +:+ print kv.2.

Lemma print_object m : print (JObject m) = "{" +:+ String.concat "," (map printMember m) +:+ "}".
Proof. cbn [print]. do 3 f_equal. apply map_ext. by intros [k v]. Qed.

(** One entry: the key, the colon and the value are consumed. *)
Lemma parseMembers_one n d acc kv rest :
  utf8 kv.1 → wf d kv.2 → reads kv.2 → closed rest →
  (2 * String.length (printMember kv +:+ rest) < n)%nat →
  parseMembers (S n) d acc (printMember kv +:+ rest) =
  match skipSpace rest with
  | "" => None
  | String c r =>
      if byteZ c =? 44 then parseMembers n d (objSet kv.1 kv.2 acc) r
      else if byteZ c =? 125 then Some (JObject (objSet kv.1 kv.2 acc), r)
      else None
  end.
Proof.
  destruct kv as [k v]. unfold printMember. cbn [fst snd]. intros Hk Hw Hr Hc Hn.
  destruct (printString_shape k Hk) as (body & Hshape & Hparse).
  rewrite !append_assoc, app_String, app_Empty, Hshape in *. cbn [parseMembers].
  rewrite skipSpace_cons by done. change (byteZ quote =? 34) with true. cbn iota.
  rewrite Hparse, skipSpace_cons by done. change (byteZ ":" =? 58) with true. cbn iota.
  cbn [String.length] in Hn. rewrite length_append in Hn. cbn [String.length] in Hn.
  by rewrite Hr by (done || lia).
Qed.

Lemma parseMembers_print n d acc kv m rest :
  Forall (λ kv, reads kv.2) (kv :: m) → Forall (λ kv, wf d kv.2) (kv :: m) → Forall utf8 (kv :: m).*1 →
  StronglySorted keyLess (acc ++ kv :: m).*1 →
  (2 * String.length (String.concat "," (map printMember (kv :: m)) +:+ String "}" rest) + 1 < n)%nat →
  parseMembers n d acc (String.concat "," (map printMember (kv :: m)) +:+ String "}" rest)
    = Some (JObject (acc ++ kv :: m), rest).
Proof.
  revert n acc kv. induction m as [|kv' m IH]; intros [|n] acc kv Hr Hw Hu Hs Hn; try lia;
    apply Forall_cons in Hr as [Hv Hr]; apply Forall_cons in Hw as [Hwv Hw]; apply Forall_cons in Hu as [Huk Hu];
    assert (objSet kv.1 kv.2 acc = acc ++ [kv]) as Hset
      by (rewrite objSet_append; [by destruct kv|]; rewrite fmap_app in Hs;
          apply Forall_forall; intros x Hx; eapply StronglySorted_app_1_elem_of in Hs; [exact Hs|done|cbn; by left]).
  - change (String.concat "," (map printMember [kv])) with (printMember kv) in *.
    rewrite parseMembers_one by (done || lia). rewrite skipSpace_cons, Hset by done. by vm_compute.
  - change (String.concat "," (map printMember (kv :: kv' :: m)))
      with (printMember kv +:+ String "," (String.concat "," (map printMember (kv' :: m)))) in *.
    rewrite append_assoc, app_String in *. rewrite parseMembers_one by (done || lia).
    rewrite skipSpace_cons, Hset by done. change (byteZ "," =? 44) with true. cbn iota.
    rewrite IH; [by rewrite <- app_assoc|done|done|done|by rewrite <- app_assoc|].
    rewrite length_append in Hn. cbn [String.length] in Hn. lia.
Qed.

Lemma parseLiteral_number c r :
  byteZ c = 45 ∨ digit c = true → parseLiteral (String c r) = parseNumber (String c r).
Proof.
  intros Hc. destruct c as [[] [] [] [] [] [] [] []]; try reflexivity;
    destruct Hc as [Hc|Hc]; vm_compute in Hc; discriminate Hc.
Qed.

Lemma reads_all v : reads v.
Proof.
  induction v as [|b|x|s|l IH|m IH] using json_ind'; intros d [|n] rest Hw Hc Hn; try lia;
    destruct (print_first d _ Hw) as (c & t & Hp & Hsp & H93 & H125);
    cbn [parseValue]; rewrite (skipSpace_print d) by done; inversion Hw as [| |? ? Hnum|? ? Hs|? ? Hd Hl|? ? Hd Hk Hu Hm]; subst.
  - reflexivity.
  - by destruct b.
  - assert (print (JNumber x) = x) as Hx by (cbn; destruct (number_first x Hnum) as (? & ? & -> & _); by rewrite bool_decide_false).
    rewrite Hx in *. destruct (number_first x Hnum) as (c' & t' & -> & Hc'). rewrite app_String.
    assert (byteZ c' = 45 ∨ 48 ≤ byteZ c' ≤ 57) as Hb by (destruct Hc' as [|Hc']; [by left|unfold digit, between in Hc'; zbool; lia]).
    rewrite !(proj2 (Z.eqb_neq _ _)) by lia. rewrite parseLiteral_number by done.
    rewrite <- app_String. unfold parseNumber. destruct Hnum as [Hv Ht].
    rewrite takeNumber_app; [by rewrite Hv|done|]. destruct rest; [done|by destruct Hc].
  - cbn [print] in *. destruct (printString_shape s Hs) as (body & Hshape & Hparse). rewrite Hshape.
    change (byteZ quote =? 123) with false. change (byteZ quote =? 91) with false.
    change (byteZ quote =? 34) with true. cbn iota. by rewrite Hparse.
  - cbn [print] in *. rewrite !append_assoc in *. rewrite !app_String, !app_Empty in *.
    change (byteZ "[" =? 123) with false. change (byteZ "[" =? 91) with true. cbn iota.
    rewrite (proj2 (Z.leb_gt _ _)) by done.
    destruct l as [|v l]; [by vm_compute|].
    apply Forall_cons in Hl as Hl'. destruct Hl' as [Hv _].
    destruct (print_first _ _ Hv) as (c1 & t1 & Hp1 & Hs1 & Hn93 & _).
    assert (∃ t2, String.concat "," (map print (v :: l)) +:+ String "]" rest = String c1 t2) as (t2 & E).
    { cbn [map String.concat]. rewrite Hp1. destruct (map print l); rewrite !app_String; eauto. }
    rewrite E, skipSpace_cons by done. rewrite (proj2 (Z.eqb_neq _ _)) by done. rewrite <- E.
    rewrite parseElements_print; [done..|]. cbn [String.length] in Hn. lia.
  - rewrite print_object in *. rewrite !append_assoc in *. rewrite !app_String, !app_Empty in *.
    change (byteZ "{" =? 123) with true. cbn iota. rewrite (proj2 (Z.leb_gt _ _)) by done.
    destruct m as [|kv m]; [by vm_compute|].
    assert (∃ t2, String.concat "," (map printMember (kv :: m)) +:+ String "}" rest = String quote t2) as (t2 & E).
    { assert (∃ t', printMember kv = String quote t') as (t' & Ht')
        by (unfold printMember, printString; rewrite app_String; eauto).
      cbn [map String.concat]. rewrite Ht'. destruct (map printMember m); rewrite !app_String; eauto. }
    rewrite E, skipSpace_cons by done. change (byteZ quote =? 125) with false. cbn iota. rewrite <- E.
    rewrite parseMembers_print; [done..|]. cbn [String.length] in Hn. lia.
Qed.

(** A well-formed value is what its text decodes to. *)
Lemma decode_print v : wf 0 v → decode (print v) = Some v.
Proof.
  intros Hw. unfold decode. pose proof (reads_all v 0 (2 * String.length (print v) + 1)%nat "" Hw I) as H.
  rewrite append_nil_r in H. rewrite H by lia. by rewrite bool_decide_true.
Qed.

(** ** What is parsed is well formed *)

Lemma utf8_app s t : utf8 s → utf8 t → utf8 (s +:+ t).
Proof.
  induction 1 as [|chunk s Hc _ IH]; intros Ht; [by rewrite app_Empty|].
  rewrite append_assoc. apply utf8_cons; auto.
Qed.

Lemma unquoteOne_rune s x r : unquoteOne s = Some (x, r) → is_rune x.
Proof.
  unfold unquoteOne. intros H. destruct s as [|c s]; [done|].
  destruct (byteZ c =? 92).
  - destruct s as [|e s]; [done|]. destruct (byteZ e =? 117).
    + unfold unicodeEscape in H. destruct (hex4 s) as [[u r']|]; [|done].
      destruct (surrogate u); [destruct (lowSurrogate u r') as [[? ?]|]|]; injection H as <- _; apply EncodeRune_rune.
    + destruct (simpleEscape e) as [y|] eqn:E; [|done]. injection H as <- _. unfold simpleEscape in E.
      destruct ((byteZ e =? 34) || (byteZ e =? 92) || (byteZ e =? 47)) eqn:Eb.
      * injection E as <-. unfold is_rune. cbn [nextRune]. destruct (Z.ltb_spec (byteZ e) 128); [done|].
        apply orb_true_iff in Eb as [Eb|Eb]; [apply orb_true_iff in Eb as [Eb|Eb]|]; zbool; lia.
      * repeat match type of E with context [if ?b then _ else _] => destruct b; [by injection E as <-|] end. done.
  - destruct (byteZ c <? 32); [done|]. destruct (nextRune (String c s)) as [[chunk r']|] eqn:E.
    + injection H as <- _. by apply nextRune_split in E as [_ ?].
    + injection H as <- _. apply EncodeRune_rune.
Qed.

Lemma unquote_utf8 n s x r : unquote n s = Some (x, r) → utf8 x.
Proof.
  revert s x r. induction n as [|n IH]; intros s x r; [done|]. cbn [unquote]. destruct s as [|c s]; [done|].
  destruct (byteZ c =? 34); [intros [= <- _]; constructor|].
  destruct (unquoteOne (String c s)) as [[y r']|] eqn:E; [|done].
  destruct (unquote n r') as [[z r'']|] eqn:E'; [|done]. intros [= <- _].
  apply utf8_cons; [by eapply unquoteOne_rune|by eapply IH].
Qed.

Lemma parseLiteral_wf s v r d : parseLiteral s = Some (v, r) → wf d v.
Proof.
  assert (parseNumber s = Some (v, r) → wf d v) as Hn.
  { unfold parseNumber. destruct (takeNumber s) as [n t] eqn:E. destruct (validNumber n) eqn:Ev; [|done].
    intros [= <- _]. constructor. split; [done|by eapply takeNumber_idem]. }
  unfold parseLiteral. intros H. repeat case_match; simplify_eq; auto; constructor.
Qed.

Lemma parse_wf n :
  (∀ d s v r, parseValue n d s = Some (v, r) → wf d v) ∧
  (∀ d acc s v r, d ≤ maxNestingDepth → Forall (wf d) acc → parseElements n d acc s = Some (v, r) → wf (d - 1) v) ∧
  (∀ d acc s v r, d ≤ maxNestingDepth → StronglySorted keyLess acc.*1 → Forall utf8 acc.*1 →
     Forall (λ kv, wf d kv.2) acc → parseMembers n d acc s = Some (v, r) → wf (d - 1) v).
Proof.
  induction n as [|n (IHv & IHe & IHm)]; [done|]. split; [|split].
  - intros d s v r. cbn [parseValue]. destruct (skipSpace s) as [|c t]; [done|].
    destruct (byteZ c =? 123); [|destruct (byteZ c =? 91); [|destruct (byteZ c =? 34)]].
    + destruct (Z.leb_spec maxNestingDepth d); [done|]. destruct (skipSpace t) as [|c' t']; [done|].
      destruct (byteZ c' =? 125); [intros [= <- _]; by repeat constructor|].
      intros Hm%IHm; [by replace d with (d + 1 - 1) by lia|lia|by constructor..].
    + destruct (Z.leb_spec maxNestingDepth d); [done|]. destruct (skipSpace t) as [|c' t']; [done|].
      destruct (byteZ c' =? 93); [intros [= <- _]; by constructor|].
      intros Hm%IHe; [by replace d with (d + 1 - 1) by lia|lia|by constructor].
    + destruct (parseString t) as [[x t']|] eqn:E; [|done]. intros [= <- _]. constructor. by eapply unquote_utf8.
    + apply parseLiteral_wf.
  - intros d acc s v r Hd Hacc. cbn [parseElements]. destruct (parseValue n d s) as [[x t]|] eqn:E; [|done].
    apply IHv in E. assert (Forall (wf d) (acc ++ [x])) as Hacc' by (by apply Forall_app_2; [|repeat constructor]).
    destruct (skipSpace t) as [|c t']; [done|]. destruct (byteZ c =? 44); [by apply IHe|].
    destruct (byteZ c =? 93); [|done]. intros [= <- _]. constructor; [lia|].
    by replace (d - 1 + 1) with d by lia.
  - intros d acc s v r Hd Hs Hu Hacc. cbn [parseMembers]. destruct (skipSpace s) as [|q t]; [done|].
    destruct (byteZ q =? 34); [|done]. destruct (parseString t) as [[k t1]|] eqn:Ek; [|done].
    apply unquote_utf8 in Ek. destruct (skipSpace t1) as [|co t2]; [done|]. destruct (byteZ co =? 58); [|done].
    destruct (parseValue n d t2) as [[x t3]|] eqn:E; [|done]. apply IHv in E.
    assert (Forall utf8 (objSet k x acc).*1) as Hu'.
    { apply Forall_forall. rewrite Forall_forall in Hu. intros y [->|Hy]%objSet_keys; auto. }
    pose proof (objSet_sorted k x acc Hs) as Hs'. pose proof (objSet_values (wf d) k x acc E Hacc) as Hv'.
    destruct (skipSpace t3) as [|c t4]; [done|]. destruct (byteZ c =? 44); [by apply IHm|].
    destruct (byteZ c =? 125); [|done]. intros [= <- _]. replace d with (d - 1 + 1) in Hv' by lia.
    constructor; [lia|done..].
Qed.

Lemma decode_wf s v : decode s = Some v → wf 0 v.
Proof.
  unfold decode. destruct (parseValue _ 0 s) as [[x r]|] eqn:E; [|done].
  case_bool_decide; [|done]. intros [= <-]. by apply (parse_wf _) in E.
Qed.
