(* ===== verification/Types.v ===== *)
(** * Data of the event store

    The records of [src/adapters/adapter.go] and [src/event.go] that the
    components exchange, the error values of the library and [errors.Is], and
    the environment of a call: what [time.Now], [uuid.New] and [ctx.Err]
    return while it runs.

    [mink.Metadata], [mink.StoredEvent] and [mink.StreamInfo] have exactly the
    fields of their [adapters] counterparts and are converted field by field at
    the package boundary; one record stands for both.  A [nil] slice or map is
    [None], so that the code's nil tests are visible. *)

From S2P Require Import Prelude.
From Stdlib Require Import Strings.Byte.
From stdpp Require Import pretty.

Abbreviation Bytes := (option (list byte)).
Abbreviation StringMap := (option (gmap string string)).
(** [time.Time] and [time.Duration] in nanoseconds; 0 is the zero time. *)
Abbreviation Time := Z (only parsing).
Abbreviation Duration := Z (only parsing).

(** ** Events *)

Record Metadata := mkMetadata {
  md_CorrelationID : string;
  md_CausationID : string;
  md_UserID : string;
  md_TenantID : string;
  md_Custom : StringMap;
}.

Record StoredEvent := mkStoredEvent {
  se_ID : string;
  se_StreamID : string;
  se_Type : string;
  se_Data : Bytes;
  se_Metadata : Metadata;
  se_Version : Z;
  se_GlobalPosition : Z;
  se_Timestamp : Time;
}.

Record StreamInfo := mkStreamInfo {
  si_StreamID : string;
  si_Category : string;
  si_Version : Z;
  si_EventCount : Z;
  si_CreatedAt : Time;
  si_UpdatedAt : Time;
}.

Record EventRecord := mkEventRecord {
  er_Type : string;
  er_Data : Bytes;
  er_Metadata : Metadata;
}.

Record SnapshotRecord := mkSnapshotRecord {
  sn_StreamID : string;
  sn_Version : Z;
  sn_Data : Bytes;
}.

#[export] Instance byte_eq_dec : EqDecision byte := Byte.byte_eq_dec.
#[export] Instance Metadata_eq_dec : EqDecision Metadata.
Proof. solve_decision. Defined.
#[export] Instance StoredEvent_eq_dec : EqDecision StoredEvent.
Proof. solve_decision. Defined.
#[export] Instance EventRecord_eq_dec : EqDecision EventRecord.
Proof. solve_decision. Defined.

Definition emptyMetadata : Metadata := mkMetadata "" "" "" "" None.

Definition set_Custom (m : Metadata) (c : StringMap) : Metadata :=
  mkMetadata (md_CorrelationID m) (md_CausationID m) (md_UserID m) (md_TenantID m) c.

(** [m.Custom[k]] on a possibly nil map: the value and the [ok] flag. *)
Definition custom_lookup (m : Metadata) (k : string) : option string :=
  match md_Custom m with Some c => c !! k | None => None end.

(** ** Saga and outbox status *)

Inductive SagaStatus :=
| SagaStatusStarted | SagaStatusRunning | SagaStatusCompleted | SagaStatusFailed
| SagaStatusCompensating | SagaStatusCompensated | SagaStatusCompensationFailed.

#[export] Instance SagaStatus_eq_dec : EqDecision SagaStatus.
Proof. solve_decision. Defined.

Definition SagaStatus_String (s : SagaStatus) : string :=
  match s with
  | SagaStatusStarted => "started"
  | SagaStatusRunning => "running"
  | SagaStatusCompleted => "completed"
  | SagaStatusFailed => "failed"
  | SagaStatusCompensating => "compensating"
  | SagaStatusCompensated => "compensated"
  | SagaStatusCompensationFailed => "compensation_failed"
  end.

Definition SagaStatus_IsTerminal (s : SagaStatus) : bool :=
  bool_decide (s = SagaStatusCompleted) || bool_decide (s = SagaStatusFailed)
  || bool_decide (s = SagaStatusCompensated)
  || bool_decide (s = SagaStatusCompensationFailed).

Definition SagaStatus_IsRetryable (s : SagaStatus) : bool :=
  bool_decide (s = SagaStatusFailed) || bool_decide (s = SagaStatusCompensated)
  || bool_decide (s = SagaStatusCompensationFailed).

Inductive OutboxStatus :=
| OutboxPending | OutboxProcessing | OutboxCompleted | OutboxFailed | OutboxDeadLetter.

#[export] Instance OutboxStatus_eq_dec : EqDecision OutboxStatus.
Proof. solve_decision. Defined.

(** ** Schema compatibility *)

Inductive SchemaCompatibility :=
| SchemaFullyCompatible | SchemaBackwardCompatible | SchemaForwardCompatible | SchemaBreaking.

#[export] Instance SchemaCompatibility_eq_dec : EqDecision SchemaCompatibility.
Proof. solve_decision. Defined.

(** ** Panics

    What a Go panic carries: nothing, a nil pointer of some type, an error of
    package [runtime] with its message (none where asking for it panics), or any
    other value, with its type and its contents. *)
Inductive panicValue :=
| PanicNil
| PanicNilPointer (type : string)
| PanicRuntimeError (type : string) (message : option string)
| PanicString (s : string)
| PanicOther (type contents : string).

#[export] Instance panicValue_eq_dec : EqDecision panicValue.
Proof. solve_decision. Defined.

(** What a call of user code comes to. *)
Inductive panics (A : Type) := Returned (a : A) | Panicked (v : panicValue).
Arguments Returned {A} _.
Arguments Panicked {A} _.

(** ** Errors

    The sentinels and the typed errors; an error built by [fmt.Errorf] is
    identified by its format string, and [Wrapf] carries the error a [%w] verb
    wraps.  [External] is an error returned by code the library only calls.
    [Panic] is a Go run-time panic and [Blocked] a channel operation that never
    returns: outcomes of the code that the theorems exclude. *)
Inductive error :=
| ErrConcurrencyConflict | ErrStreamNotFound | ErrEmptyStreamID | ErrNoEvents
| ErrInvalidVersion | ErrAdapterClosed | ErrSagaNotFound | ErrSagaAlreadyExists
| ErrNilAggregate | ErrOutboxMessageNotFound | ErrNilOutboxStore
| ErrNilAuditEntry | ErrSagaNotRetryable | ErrSagaTypeMismatch | ErrSagaTimedOut
| ErrCommandUnsuccessful | ErrCommandAlreadyProcessed | ErrPublisherNotFound
| ErrSchemaVersionGap | ErrUpcastFailed | ErrSchemaNotFound | ErrIncompatibleSchema
| ErrUnregisteredEventType | ErrEventTooLarge | ErrSubscriptionNotSupported
| ErrFilteredFeedNotSupported | ErrRewriteNotSupported
| ErrAggregateTypeNotRegistered | ErrBinarySerializerUnsupported
| ErrSerializationFailed | ErrEncryptionFailed | ErrDecryptionFailed | ErrKeyNotFound
| ErrKeyRevoked | ErrRevocationUnsupported | ErrProviderClosed | ErrKeyResolutionFailed
| ErrInvalidEncryptedFieldPath
| ErrSubjectIDRequired | ErrExportScanNotSupported | ErrErasureFailed | ErrErasureSubjectRequired
| ErrNoErasureSources | ErrErasureNotConfigured | ErrErasureScanNotSupported | ErrSharedKeyRevocation
| ErrResidualCountUnsupported
| ErrNilCommand | ErrCommandBusClosed | ErrHandlerNotFound | ErrValidationFailed | ErrHandlerPanicked
| ErrNilAuditStore
| ErrNilProjection | ErrEmptyProjectionName | ErrProjectionNotFound | ErrProjectionAlreadyRegistered
| ErrProjectionEngineAlreadyRunning | ErrProjectionEngineStopped | ErrNoCheckpointStore | ErrNotImplemented
| ErrProjectionFailed | ErrTransient
| ErrExportFailed | ErrNoExportSources | ErrExportPartialFootprint
| ErrRetentionMaxScanNeedsCheckpoint | ErrRetentionUnscopedPolicy | ErrRetentionSharedKey
| ErrRetentionUnencryptedMatches
| ErrNotFound | ErrAlreadyExists | ErrInvalidQuery | ErrUnknownFilterField
| ContextCanceled | ContextDeadlineExceeded
| ConcurrencyError (StreamID : string) (ExpectedVersion ActualVersion : Z)
| StreamNotFoundError (StreamID : string)
| SagaNotFoundError (SagaID CorrelationID : string)
| SagaNotRetryableError (SagaID : string) (Status : SagaStatus) (Reason : string)
| SagaTypeMismatchError (CorrelationID SagaID ExpectedType ActualType : string)
| IdempotencyReplayError (Key Message : string)
| SchemaVersionGapError (EventType : string) (MissingVersion ExpectedVersion : Z)
| UpcastError (EventType : string) (FromVersion ToVersion : Z) (Cause : error)
| IncompatibleSchemaError (EventType : string) (OldVersion NewVersion : Z)
    (Compatibility : SchemaCompatibility) (Reason : string)
| UnregisteredEventTypeError (StreamID EventType : string) (Version : Z)
| SerializationError (EventType Operation : string) (Cause : error)
| EncryptionError (Operation KeyID Field : string) (Cause : error)
| KeyNotFoundError (KeyID : string)
| KeyRevokedError (KeyID : string)
| KeyResolutionError (EventType TenantID SubjectID : string)
| SharedKeyError (SubjectID : string) (SharedKeys OtherSubjects : list string) (OtherSubjectCount : Z)
| ErasureError (SubjectID : string) (Cause : error)
| HandlerNotFoundError (CommandType : string)
| ValidationError (CommandType Field Message : string) (Cause : option error)
| MultiValidationError (CommandType : string) (Errors : list error)
| PanicError (CommandType : string) (Value : panicValue) (summary Stack CommandData : string)
| ProjectionError (ProjectionName EventType : string) (Position : Z) (Cause : error)
| ExportError (SubjectID : string) (Cause : error)
| RetentionSharedKeyError (KeyID : string) (OutOfScope : Z)
| UnknownFilterFieldError (Field : string)
| SubscriptionDropError (StreamID : string) (GlobalPosition : Z)
| Errorf (fmt : string)
| Wrapf (fmt : string) (inner : error)
| Join (first second : error)
| External (what : string)
| Panic (what : string)
| Blocked.

#[export] Instance error_eq_dec : EqDecision error.
Proof.
  unfold EqDecision. fix go 1. intros x y. unfold Decision.
  decide equality; first [apply go | apply (@option_eq_dec _ go) | apply (@list_eq_dec _ go) | solve_decision].
Defined.

(** [errors.Is]: the error itself, its [Is] method, then the errors it wraps. *)
Fixpoint errors_Is (err target : error) : bool :=
  bool_decide (err = target) ||
  match err with
  | ConcurrencyError _ _ _ => bool_decide (target = ErrConcurrencyConflict)
  | StreamNotFoundError _ => bool_decide (target = ErrStreamNotFound)
  | SagaNotFoundError _ _ => bool_decide (target = ErrSagaNotFound)
  | SagaNotRetryableError _ _ _ => bool_decide (target = ErrSagaNotRetryable)
  | SagaTypeMismatchError _ _ _ _ => bool_decide (target = ErrSagaTypeMismatch)
  | IdempotencyReplayError _ _ => bool_decide (target = ErrCommandAlreadyProcessed)
  | SchemaVersionGapError _ _ _ => bool_decide (target = ErrSchemaVersionGap)
  | UpcastError _ _ _ cause => bool_decide (target = ErrUpcastFailed) || errors_Is cause target
  | IncompatibleSchemaError _ _ _ _ _ => bool_decide (target = ErrIncompatibleSchema)
  | UnregisteredEventTypeError _ _ _ => bool_decide (target = ErrUnregisteredEventType)
  | SerializationError _ _ cause => bool_decide (target = ErrSerializationFailed) || errors_Is cause target
  | EncryptionError operation _ _ cause =>
      bool_decide (target = if bool_decide (operation = "encrypt") then ErrEncryptionFailed else ErrDecryptionFailed)
      || errors_Is cause target
  | KeyNotFoundError _ => bool_decide (target = ErrKeyNotFound)
  | KeyRevokedError _ => bool_decide (target = ErrKeyRevoked)
  | KeyResolutionError _ _ _ => bool_decide (target = ErrKeyResolutionFailed)
  | SharedKeyError _ _ _ _ => bool_decide (target = ErrSharedKeyRevocation)
  | ErasureError _ cause => bool_decide (target = ErrErasureFailed) || errors_Is cause target
  | HandlerNotFoundError _ => bool_decide (target = ErrHandlerNotFound)
  | ValidationError _ _ _ cause =>
      bool_decide (target = ErrValidationFailed)
      || match cause with Some cause => errors_Is cause target | None => false end
  | MultiValidationError _ errs =>
      bool_decide (target = ErrValidationFailed)
      || match errs with err :: _ => errors_Is err target | [] => false end
  | PanicError _ _ _ _ _ => bool_decide (target = ErrHandlerPanicked)
  | ProjectionError _ _ _ cause => bool_decide (target = ErrProjectionFailed) || errors_Is cause target
  | ExportError _ cause => bool_decide (target = ErrExportFailed) || errors_Is cause target
  | RetentionSharedKeyError _ _ => bool_decide (target = ErrRetentionSharedKey)
  | UnknownFilterFieldError _ => bool_decide (target = ErrUnknownFilterField) || bool_decide (target = ErrInvalidQuery)
  | ErrUnknownFilterField => bool_decide (target = ErrInvalidQuery)
  | Wrapf _ inner => errors_Is inner target
  | Join first second => errors_Is first target || errors_Is second target
  | _ => false
  end.

Definition isShutdownError (err : error) : bool :=
  errors_Is err ContextCanceled || errors_Is err ContextDeadlineExceeded.

(** The text of an error, [err.Error()]: the formatting of [fmt] is not
    modelled, so the text is any function of the error. *)
Class ErrorText := error_Error : error → string.

(** ** The environment of a call

    [time_Now k] and [uuid_New k] are the results of the [k]-th call of
    [time.Now] and [uuid.New] made by the operation, [ctx_Err] what [ctx.Err]
    reports, and [ctx_Done k] whether the [k]-th [select] that could also
    deliver finds the context done, after which [ctx.Err] is [ctx_DoneErr]. *)
Record Env := mkEnv {
  time_Now : nat → Time;
  uuid_New : nat → string;
  ctx_Err : option error;
  ctx_Done : nat → bool;
  ctx_DoneErr : error;
}.

Abbreviation res := (result error).

(** [if err := ctx.Err(); err != nil { return err }] *)
Definition check_ctx (env : Env) : res unit := returnErr (ctx_Err env).

(** ** Channels of events

    [make(chan StoredEvent, size)] panics on a negative size and on a buffer
    beyond what the 64-bit run-time system can address: [2^48] bytes less the
    channel's header of 96, an event taking 184 bytes. *)
Definition maxChanSize : Z := ((2 ^ 48 - 96) / 184)%Z.

Definition makechan (size : Z) : res unit :=
  returnIf ((size <? 0)%Z || (maxChanSize <? size)%Z) (Panic "makechan: size out of range").

Lemma makechan_Ok size : (0 ≤ size ≤ maxChanSize)%Z → makechan size = Ok tt.
Proof.
  intros []. unfold makechan. by rewrite (proj2 (Z.ltb_ge size 0)), (proj2 (Z.ltb_ge maxChanSize size)).
Qed.

(** What [context.Context] documents of [Err]. *)
Definition ctx_law (env : Env) : Prop :=
  ∀ err, ctx_Err env = Some err → err = ContextCanceled ∨ err = ContextDeadlineExceeded.

(** An environment for the concrete instances: a fixed clock, numbered ids, a
    live context. *)
Definition sampleEnv : Env :=
  mkEnv (λ _, 1000%Z) (λ n, String.append "id-" (pretty.pretty (N.of_nat n)))
    None (λ _, false) ContextCanceled.
