(* ===== verification/Crypto.v ===== *)
(** * Sealing and key providers

    [src/encryption/aes.go] and the [Provider] interface of
    [src/encryption/provider.go].  AES-GCM itself is a parameter: [AEAD] is
    [cipher.AEAD] for a valid key, [AEADLaws] what it promises.  A byte slice is
    a string; random bytes are arguments of the operations that draw them. *)

From S2P Require Import Prelude.
From S2P Require Import Types.
From S2P Require Import Strconv.

Definition NewEncryptionError (keyID field : string) (cause : error) : error :=
  EncryptionError "encrypt" keyID field cause.
Definition NewDecryptionError (keyID field : string) (cause : error) : error :=
  EncryptionError "decrypt" keyID field cause.

(** ** AES-GCM *)

(** [gcm.Seal] and [gcm.Open] with a key, a nonce and additional data. *)
Class AEAD := {
  gcm_Seal : string → string → string → string → string;
  gcm_Open : string → string → string → string → option string;
}.

(** A sealed text opens under its own key, nonce and additional data, and under
    no other additional data. *)
Class AEADLaws `{AEAD} := {
  gcm_open_seal : ∀ key nonce p aad, gcm_Open key nonce (gcm_Seal key nonce p aad) aad = Some p;
  gcm_open_other : ∀ key nonce p aad aad',
    aad ≠ aad' → gcm_Open key nonce (gcm_Seal key nonce p aad) aad' = None;
}.

Definition nonceSize : nat := 12.

(** [aes.NewCipher] accepts 16, 24 and 32 byte keys. *)
Definition validKeySize (key : string) : bool :=
  bool_decide (String.length key = 16%nat) || bool_decide (String.length key = 24%nat)
  || bool_decide (String.length key = 32%nat).

Section Aes.
Context `{AEAD}.

Definition AESGCMEncrypt (key plaintext aad nonce : string) : res string :=
  if validKeySize key then Ok (nonce +:+ gcm_Seal key nonce plaintext aad)
  else Err (Wrapf "mink: failed to create cipher: %w" (External "crypto/aes: invalid key size")).

Definition AESGCMDecrypt (key ciphertext aad : string) : res string :=
  if validKeySize key then
    if (String.length ciphertext <? nonceSize)%nat then Err (Errorf "mink: ciphertext too short")
    else
      let nonce := String.substring 0 nonceSize ciphertext in
      let body := String.substring nonceSize (String.length ciphertext - nonceSize) ciphertext in
      match gcm_Open key nonce body aad with
      | Some p => Ok p
      | None => Err (External "cipher: message authentication failed")
      end
  else Err (Wrapf "mink: failed to create cipher: %w" (External "crypto/aes: invalid key size")).
End Aes.

(** ** Providers *)

Record DataKey := mkDataKey { dk_Plaintext : string; dk_Ciphertext : string; dk_KeyID : string }.

(** The random bytes of one encryption: the data key, the nonce that wraps it,
    and a nonce for each field. *)
Record Entropy := mkEntropy { ent_dek : string; ent_wrap : string; ent_nonce : nat → string }.

Definition entropy_ok (e : Entropy) : Prop :=
  String.length (ent_dek e) = 32%nat ∧ String.length (ent_wrap e) = nonceSize ∧
  ∀ n, String.length (ent_nonce e n) = nonceSize.

(** [encryption.Provider] as the library uses it: a provider has a state, and
    both operations may read the clock. *)
Class ProviderOps (P : Type) := {
  GenerateDataKey : Time → Entropy → string → op P error DataKey;
  DecryptDataKey : Time → string → string → op P error string;
}.

(** [unwraps t p k c d]: at time [t] the provider turns [c] into the key [d]. *)
Definition unwraps `{ProviderOps P} (t : Time) (p : P) (keyID ciphertext dek : string) : Prop :=
  (DecryptDataKey t keyID ciphertext p).2 = Ok dek.

(** A generated key is an AES-256 key, wrapped for storage under a named key,
    and the provider unwraps it at that time. *)
Class ProviderLaws (P : Type) `{ProviderOps P} := {
  generate_sound : ∀ t ent keyID (p p' : P) dk,
    entropy_ok ent → GenerateDataKey t ent keyID p = (p', Ok dk) →
    String.length (dk_Plaintext dk) = 32%nat ∧ dk_KeyID dk = keyID ∧ dk_Ciphertext dk ≠ "" ∧
    unwraps t p' (dk_KeyID dk) (dk_Ciphertext dk) (dk_Plaintext dk);
}.

(** [later p q]: the provider went on from [p] to [q] without giving up a key,
    as it does through its own operations: what it unwrapped it unwraps. *)
Class ProviderStable (P : Type) `{ProviderOps P} := {
  later : relation P;
  later_preorder :: PreOrder later;
  later_generate : ∀ t ent keyID p, later p (GenerateDataKey t ent keyID p).1;
  later_decrypt : ∀ t keyID ct p, later p (DecryptDataKey t keyID ct p).1;
  later_unwraps : ∀ t t' p q keyID ct dek, later p q → unwraps t p keyID ct dek → unwraps t' q keyID ct dek;
}.

(** ** Lemmas *)

Lemma substring_append a b : String.substring 0 (String.length a) (a +:+ b) = a.
Proof. induction a as [|c a IH]; [by destruct b|]. rewrite app_String. cbn. by rewrite IH. Qed.

Lemma substring_all s : String.substring 0 (String.length s) s = s.
Proof. induction s as [|c s IH]; [done|]. cbn. by rewrite IH. Qed.

Lemma substring_rest a b :
  String.substring (String.length a) (String.length b) (a +:+ b) = b.
Proof. induction a as [|c a IH]; [apply substring_all|]. rewrite app_String. cbn. apply IH. Qed.

Lemma AESGCM_open `{AEADLaws} key nonce p aad aad' :
  validKeySize key = true → String.length nonce = nonceSize →
  AESGCMDecrypt key (nonce +:+ gcm_Seal key nonce p aad) aad' =
  if bool_decide (aad = aad') then Ok p else Err (External "cipher: message authentication failed").
Proof.
  intros Hk Hn. unfold AESGCMDecrypt. rewrite Hk, length_append.
  destruct (Nat.ltb_spec (String.length nonce + String.length (gcm_Seal key nonce p aad)) nonceSize); [lia|].
  rewrite <- Hn at 1 2 3. rewrite substring_append.
  replace (_ + _ - _)%nat with (String.length (gcm_Seal key nonce p aad)) by lia. rewrite substring_rest.
  case_bool_decide as E; [subst; by rewrite gcm_open_seal|by rewrite gcm_open_other].
Qed.

Lemma validKeySize_32 key : String.length key = 32%nat → validKeySize key = true.
Proof. intros Hk. unfold validKeySize. rewrite Hk. reflexivity. Qed.

(** ** A concrete AEAD

    An ideal one: the sealed text names its key and additional data. *)
Definition frame (s : string) : string := Itoa (Z.of_nat (String.length s)) +:+ ":" +:+ s.

Definition toySeal (key nonce p aad : string) : string := frame key +:+ frame aad +:+ p.

Definition toyOpen (key nonce c aad : string) : option string :=
  let head := frame key +:+ frame aad in
  if bool_decide (String.substring 0 (String.length head) c = head)
  then Some (String.substring (String.length head) (String.length c - String.length head) c) else None.

Definition toyAEAD : AEAD := {| gcm_Seal := toySeal; gcm_Open := toyOpen |}.

Lemma substring_prefix n c : String.substring 0 n c +:+ String.substring n (String.length c - n) c = c.
Proof.
  revert c. induction n as [|n IH]; intros c.
  - rewrite Nat.sub_0_r. destruct c as [|x c]; [done|]. rewrite substring_all. done.
  - destruct c as [|x c]; [done|]. cbn [String.substring String.length]. rewrite app_String. f_equal. apply IH.
Qed.

Lemma frame_inj a b p r : frame a +:+ p = frame b +:+ r → a = b.
Proof.
  unfold frame. rewrite !append_assoc. intros [El E]%colon_split; [|apply Itoa_chars..].
  apply Itoa_inj in El. apply append_same_length in E as [-> _]; [done|lia].
Qed.

Lemma toyAEAD_laws : @AEADLaws toyAEAD.
Proof.
  split; cbn; unfold toySeal, toyOpen.
  - intros key nonce p aad. rewrite <- append_assoc.
    generalize (frame key +:+ frame aad). intros head. rewrite substring_append, bool_decide_true by done.
    f_equal. rewrite length_append.
    replace (_ + _ - _)%nat with (String.length p) by lia. apply substring_rest.
  - intros key nonce p aad aad' Hne. rewrite bool_decide_false; [done|]. intros E. apply Hne.
    pose proof (substring_prefix (String.length (frame key +:+ frame aad')) (frame key +:+ frame aad +:+ p)) as Hp.
    rewrite E, append_assoc in Hp. apply append_cancel_l in Hp. symmetry in Hp. by eapply frame_inj.
Qed.
