(* ===== verification/LocalProvider.v ===== *)
(** * The local key provider

    [src/encryption/local/local.go]: master keys in memory, permanent and
    recoverable revocation.  Every operation holds the provider's lock; the
    operations that consult a soft revocation take the time they read.  The
    zeroing of key material is the removal of the key from the map: no slice of
    it is handed out. *)

From S2P Require Import Prelude.
From S2P Require Import Types.
From S2P Require Import Strconv.
From S2P Require Import Crypto.

Inductive RevocationState := NotRevoked | SoftRevoked | Revoked.

#[export] Instance RevocationState_eq_dec : EqDecision RevocationState.
Proof. solve_decision. Defined.

Definition RevocationState_String (s : RevocationState) : string :=
  match s with NotRevoked => "not_revoked" | SoftRevoked => "soft_revoked" | Revoked => "revoked" end.

Record Provider := mkProvider {
  lp_keys : gmap string string;
  lp_revoked : gmap string bool;
  lp_softRevoked : gmap string Time;
  lp_closed : bool;
}.

Definition New : Provider := mkProvider ∅ ∅ ∅ false.

(** [p.revoked[keyID]] *)
Definition isHard (keyID : string) (p : Provider) : bool := default false (lp_revoked p !! keyID).

Definition checkOpen (p : Provider) : res unit := returnIf (lp_closed p) ErrProviderClosed.

Definition AddKey (keyID key : string) : op Provider error unit := λ p,
  if negb (bool_decide (String.length key = 32%nat)) then (p, Err (Errorf "mink: key must be 32 bytes, got %d"))
  else if lp_closed p then (p, Err ErrProviderClosed)
  else (mkProvider (<[keyID := key]> (lp_keys p)) (lp_revoked p) (lp_softRevoked p) false, Ok tt).

Definition RevokeKey (keyID : string) : op Provider error unit := λ p,
  if lp_closed p then (p, Err ErrProviderClosed)
  else if isHard keyID p then (p, Ok tt)
  else
    match lp_keys p !! keyID with
    | None => (p, Err (KeyNotFoundError keyID))
    | Some _ =>
        (mkProvider (delete keyID (lp_keys p)) (<[keyID := true]> (lp_revoked p))
           (delete keyID (lp_softRevoked p)) false, Ok tt)
    end.

(** An elapsed soft revocation becomes a permanent one. *)
Definition promoteIfExpiredLocked (now : Time) (keyID : string) (p : Provider) : Provider :=
  match lp_softRevoked p !! keyID with
  | None => p
  | Some expiry =>
      if now <? expiry then p
      else mkProvider (delete keyID (lp_keys p)) (<[keyID := true]> (lp_revoked p))
             (delete keyID (lp_softRevoked p)) (lp_closed p)
  end.

Definition stateLocked (now : Time) (keyID : string) (p : Provider) : Provider * RevocationState :=
  let p := promoteIfExpiredLocked now keyID p in
  (p, if isHard keyID p then Revoked
      else match lp_softRevoked p !! keyID with Some _ => SoftRevoked | None => NotRevoked end).

Definition IsRevoked (now : Time) (keyID : string) : op Provider error bool := λ p,
  if lp_closed p then (p, Err ErrProviderClosed)
  else
    let '(p, state) := stateLocked now keyID p in
    (p, Ok (bool_decide (state = Revoked) || bool_decide (state = SoftRevoked))).

Definition RevocationStateOf (now : Time) (keyID : string) : op Provider error RevocationState := λ p,
  if lp_closed p then (p, Err ErrProviderClosed)
  else let '(p, state) := stateLocked now keyID p in (p, Ok state).

Definition getKey (now : Time) (keyID : string) : op Provider error string := λ p,
  if lp_closed p then (p, Err ErrProviderClosed)
  else
    let '(p, state) := stateLocked now keyID p in
    match state with
    | Revoked | SoftRevoked => (p, Err (KeyRevokedError keyID))
    | NotRevoked =>
        match lp_keys p !! keyID with
        | Some key => (p, Ok key)
        | None => (p, Err (KeyNotFoundError keyID))
        end
    end.

Definition SoftRevokeKey (now : Time) (keyID : string) (graceWindow : Duration) : op Provider error unit := λ p,
  if lp_closed p then (p, Err ErrProviderClosed)
  else
    let p := promoteIfExpiredLocked now keyID p in
    if isHard keyID p then (p, Ok tt)
    else
      match lp_keys p !! keyID with
      | None => (p, Err (KeyNotFoundError keyID))
      | Some _ =>
          (mkProvider (lp_keys p) (lp_revoked p) (<[keyID := now + graceWindow]> (lp_softRevoked p)) false, Ok tt)
      end.

Definition UnrevokeKey (now : Time) (keyID : string) : op Provider error unit := λ p,
  if lp_closed p then (p, Err ErrProviderClosed)
  else
    let p := promoteIfExpiredLocked now keyID p in
    if isHard keyID p then (p, Err (Errorf "mink/local: grace window elapsed for key %q; revocation is permanent"))
    else
      match lp_softRevoked p !! keyID with
      | None => (p, Ok tt)
      | Some _ => (mkProvider (lp_keys p) (lp_revoked p) (delete keyID (lp_softRevoked p)) false, Ok tt)
      end.

Definition Close : op Provider error unit := λ p,
  if lp_closed p then (p, Ok tt) else (mkProvider ∅ ∅ (lp_softRevoked p) true, Ok tt).

Section Keys.
Context `{AEAD}.

Definition Encrypt (now : Time) (nonce keyID plaintext : string) : op Provider error string :=
  op_bind (getKey now keyID) (λ key, op_lift (AESGCMEncrypt key plaintext keyID nonce)).

Definition Decrypt (now : Time) (keyID ciphertext : string) : op Provider error string :=
  op_bind (getKey now keyID) (λ key, op_lift (AESGCMDecrypt key ciphertext keyID)).

Definition localGenerateDataKey (now : Time) (ent : Entropy) (keyID : string) : op Provider error DataKey :=
  op_bind (getKey now keyID) (λ key, op_lift
    match AESGCMEncrypt key (ent_dek ent) keyID (ent_wrap ent) with
    | Ok encryptedDEK => Ok (mkDataKey (ent_dek ent) encryptedDEK keyID)
    | Err err => Err (NewEncryptionError keyID "" (Wrapf "failed to encrypt DEK: %w" err))
    end).

Definition localDecryptDataKey (now : Time) (keyID encryptedKey : string) : op Provider error string :=
  op_bind (getKey now keyID) (λ key, op_lift
    match AESGCMDecrypt key encryptedKey keyID with
    | Ok plaintext => Ok plaintext
    | Err err => Err (NewDecryptionError keyID "" (Wrapf "failed to decrypt DEK: %w" err))
    end).

#[export] Instance localProvider : ProviderOps Provider :=
  {| GenerateDataKey := localGenerateDataKey; DecryptDataKey := localDecryptDataKey |}.
End Keys.

(** ** Any history of calls *)

Inductive call :=
| CAddKey (k key : string)
| CRevokeKey (k : string)
| CSoftRevokeKey (k : string) (graceWindow : Duration)
| CUnrevokeKey (k : string)
| CIsRevoked (k : string)
| CRevocationState (k : string)
| CGetKey (k : string) (* Encrypt, Decrypt, GenerateDataKey, DecryptDataKey *)
| CClose.

Definition runCall (now : Time) (c : call) (p : Provider) : Provider :=
  match c with
  | CAddKey k key => (AddKey k key p).1
  | CRevokeKey k => (RevokeKey k p).1
  | CSoftRevokeKey k g => (SoftRevokeKey now k g p).1
  | CUnrevokeKey k => (UnrevokeKey now k p).1
  | CIsRevoked k => (IsRevoked now k p).1
  | CRevocationState k => (RevocationStateOf now k p).1
  | CGetKey k => (getKey now k p).1
  | CClose => (Close p).1
  end.

Definition history : Type := list (Time * call).

Definition runHistory (h : history) (p : Provider) : Provider :=
  foldl (λ p '(now, c), runCall now c p) p h.

(** The calls that name a key. *)
Definition touches (k : string) (c : call) : Prop :=
  match c with
  | CAddKey k' _ | CRevokeKey k' | CSoftRevokeKey k' _ | CUnrevokeKey k' | CIsRevoked k'
  | CRevocationState k' | CGetKey k' => k' = k
  | CClose => True
  end.

(** A key that is gone for good from time [t] on. *)
Definition dead (t : Time) (k : string) (p : Provider) : Prop :=
  lp_closed p = true ∨ isHard k p = true ∨ ∃ e, lp_softRevoked p !! k = Some e ∧ e ≤ t.

(** ** Lemmas *)

Ltac lp_maps k :=
  repeat match goal with
  | H : context [<[?k' := _]> _ !! k] |- _ => destruct (decide (k' = k)); simplify_map_eq
  | H : context [delete ?k' _ !! k] |- _ => destruct (decide (k' = k)); simplify_map_eq
  | |- context [<[?k' := _]> _ !! k] => destruct (decide (k' = k)); simplify_map_eq
  | |- context [delete ?k' _ !! k] => destruct (decide (k' = k)); simplify_map_eq
  end.

Lemma dead_later t t' k p : dead t k p → t ≤ t' → dead t' k p.
Proof. intros [?|[?|(e & ? & ?)]] Ht; [by left|by right; left|]. right; right. exists e. split; [done|lia]. Qed.

Lemma promote_dead t now k k' p : dead t k p → dead t k (promoteIfExpiredLocked now k' p).
Proof.
  unfold dead, promoteIfExpiredLocked, isHard. intros H. destruct (lp_softRevoked p !! k') as [e|] eqn:E; [|done].
  destruct (now <? e); [done|]. cbn. lp_maps k; [by right; left|done].
Qed.

Lemma promote_closed now k p : lp_closed (promoteIfExpiredLocked now k p) = lp_closed p.
Proof. unfold promoteIfExpiredLocked. by repeat case_match. Qed.

(** A dead key of an open provider is a hard revocation after its promotion. *)
Lemma promote_hard t now k p :
  dead t k p → t ≤ now → lp_closed p = false → isHard k (promoteIfExpiredLocked now k p) = true.
Proof.
  intros [H|[H|(e & He & Ht)]] Hn Hc; [congruence|..]; unfold promoteIfExpiredLocked, isHard in *.
  - destruct (lp_softRevoked p !! k) as [e|]; [|done]. destruct (now <? e); [done|]. cbn. by rewrite lookup_insert_eq.
  - rewrite He, (proj2 (Z.ltb_ge _ _)) by lia. cbn. by rewrite lookup_insert_eq.
Qed.

Lemma dead_getKey t k p : dead t k p →
  (getKey t k p).2 = Err (KeyRevokedError k) ∨ (getKey t k p).2 = Err ErrProviderClosed.
Proof.
  intros H. unfold getKey, stateLocked. destruct (lp_closed p) eqn:Ec; [by right|left].
  by rewrite (promote_hard t t k p).
Qed.

Lemma runCall_dead t now c k p : t ≤ now → dead t k p → dead t k (runCall now c p).
Proof.
  intros Hn H. assert (lp_closed p = true → dead t k p) as Hc by (by left).
  destruct c as [k' key|k'|k' g|k'|k'|k'|k'|]; cbn [runCall].
  - unfold AddKey. destruct (negb _); [done|]. destruct (lp_closed p) eqn:E; [done|]. cbn.
    destruct H as [H|H]; [congruence|by right].
  - unfold RevokeKey. destruct (lp_closed p) eqn:E; [done|]. destruct (isHard k' p); [done|].
    destruct (lp_keys p !! k'); [|done]. unfold dead, isHard in *. cbn. lp_maps k; [by right; left|naive_solver].
  - unfold SoftRevokeKey. destruct (lp_closed p) eqn:E; [done|].
    pose proof (promote_dead t now k k' p H) as H'.
    destruct (isHard k' _) eqn:Eh; [done|]. destruct (lp_keys _ !! k'); [|done].
    destruct (decide (k' = k)) as [->|Hne]; [by rewrite (promote_hard t) in Eh|].
    unfold dead in *. rewrite promote_closed in H'. cbn. rewrite lookup_insert_ne by done.
    destruct H' as [H'|H']; [congruence|by right].
  - unfold UnrevokeKey. destruct (lp_closed p) eqn:E; [done|].
    pose proof (promote_dead t now k k' p H) as H'.
    destruct (isHard k' _) eqn:Eh; [done|]. destruct (lp_softRevoked _ !! k') as [e|] eqn:Es; [|done].
    destruct (decide (k' = k)) as [->|Hne]; [by rewrite (promote_hard t) in Eh|].
    unfold dead in *. rewrite promote_closed in H'. cbn. rewrite lookup_delete_ne by done.
    destruct H' as [H'|H']; [congruence|by right].
  - unfold IsRevoked, stateLocked. destruct (lp_closed p); [done|]. by apply promote_dead.
  - unfold RevocationStateOf, stateLocked. destruct (lp_closed p); [done|]. by apply promote_dead.
  - unfold getKey, stateLocked. destruct (lp_closed p); [done|]. pose proof (promote_dead t now k k' p H).
    destruct (isHard _ _); [done|]. destruct (lp_softRevoked _ !! k'); [done|]. by destruct (lp_keys _ !! k').
  - unfold Close. destruct (lp_closed p); [done|]. by left.
Qed.

Lemma runHistory_dead t k h p :
  Forall (λ x, t ≤ x.1) h → dead t k p → dead t k (runHistory h p).
Proof.
  intros Hh. revert p. induction Hh as [|[now c] h Hn _ IH]; intros p H; [done|]. by apply IH, runCall_dead.
Qed.

(** What a call reads and writes of a key. *)
Definition view (k : string) (p : Provider) : option string * bool * option Time * bool :=
  (lp_keys p !! k, isHard k p, lp_softRevoked p !! k, lp_closed p).

Lemma getKey_view t k p p' : view k p = view k p' → (getKey t k p).2 = (getKey t k p').2.
Proof.
  unfold view. intros [= Hk Hh Hs Hc]. unfold getKey, stateLocked, promoteIfExpiredLocked. rewrite <- Hc, <- Hs.
  destruct (lp_closed p); [done|]. destruct (lp_softRevoked p !! k) as [e|] eqn:E.
  - destruct (t <? e).
    + rewrite <- Hh, <- Hs, E. by destruct (isHard k p).
    + unfold isHard. cbn. by rewrite !lookup_insert_eq.
  - rewrite <- Hh, <- Hs, <- Hk, E. destruct (isHard k p); [done|]. by destruct (lp_keys p !! k).
Qed.

Lemma promote_view now k k' p : k' ≠ k → view k (promoteIfExpiredLocked now k' p) = view k p.
Proof.
  intros Hne. unfold view, promoteIfExpiredLocked, isHard. repeat case_match; try done. cbn.
  by rewrite !lookup_delete_ne, lookup_insert_ne.
Qed.

Lemma runCall_view now k c p : ¬ touches k c → view k (runCall now c p) = view k p.
Proof.
  intros Ht. destruct c as [k' key|k'|k' g|k'|k'|k'|k'|]; cbn [touches] in Ht; [..|done];
    pose proof (promote_view now k k' p Ht) as Hv; cbn [runCall].
  - unfold AddKey. destruct (negb _); [done|]. destruct (lp_closed p) eqn:E; [done|].
    unfold view. cbn. by rewrite lookup_insert_ne, E.
  - unfold RevokeKey. destruct (lp_closed p) eqn:E; [done|]. destruct (isHard k' p); [done|].
    destruct (lp_keys p !! k'); [|done]. unfold view, isHard. cbn. by rewrite !lookup_delete_ne, lookup_insert_ne, E.
  - unfold SoftRevokeKey. destruct (lp_closed p) eqn:E; [done|]. pose proof (promote_closed now k' p) as Ec.
    destruct (isHard k' _); [done|]. destruct (lp_keys _ !! k'); [|done]. rewrite <- Hv. unfold view, isHard. cbn.
    by rewrite lookup_insert_ne, Ec, E.
  - unfold UnrevokeKey. destruct (lp_closed p) eqn:E; [done|]. pose proof (promote_closed now k' p) as Ec.
    destruct (isHard k' _); [done|]. destruct (lp_softRevoked _ !! k'); [|done]. rewrite <- Hv. unfold view, isHard. cbn.
    by rewrite lookup_delete_ne, Ec, E.
  - unfold IsRevoked, stateLocked. by destruct (lp_closed p).
  - unfold RevocationStateOf, stateLocked. by destruct (lp_closed p).
  - unfold getKey, stateLocked. destruct (lp_closed p); [done|].
    destruct (isHard _ _); [done|]. destruct (lp_softRevoked _ !! k'); [done|]. by destruct (lp_keys _ !! k').
Qed.

Lemma runHistory_view k h p : Forall (λ x, ¬ touches k x.2) h → view k (runHistory h p) = view k p.
Proof.
  intros Hh. revert p. induction Hh as [|[now c] h Hn _ IH]; intros p; [done|].
  cbn [runHistory foldl]. fold (runHistory h (runCall now c p)). rewrite IH. by apply runCall_view.
Qed.

(** A usable key and what a soft revocation makes of it. *)
Lemma getKey_Ok_view now k p key :
  (getKey now k p).2 = Ok key → view k p = (Some key, false, None, false).
Proof.
  unfold getKey, stateLocked, promoteIfExpiredLocked, view. destruct (lp_closed p); [done|].
  destruct (lp_softRevoked p !! k) as [e|] eqn:E.
  - destruct (now <? e); [by destruct (isHard k p); rewrite ?E|]. unfold isHard. cbn. by rewrite lookup_insert_eq.
  - destruct (isHard k p); [done|]. rewrite E. destruct (lp_keys p !! k); [by intros [= <-]|done].
Qed.

Lemma SoftRevokeKey_view now k g p p' key :
  view k p = (Some key, false, None, false) → SoftRevokeKey now k g p = (p', Ok tt) →
  view k p' = (Some key, false, Some (now + g), false).
Proof.
  unfold view. intros [= Hk Hh Hs Hc] H. unfold SoftRevokeKey, promoteIfExpiredLocked in H.
  rewrite Hc, Hs, Hh, Hk in H. injection H as <-. unfold isHard in *. cbn. by rewrite Hk, Hh, lookup_insert_eq.
Qed.

Lemma UnrevokeKey_view now k e p p' r key :
  view k p = (Some key, false, Some e, false) → now < e → UnrevokeKey now k p = (p', r) →
  r = Ok tt ∧ view k p' = (Some key, false, None, false).
Proof.
  unfold view. intros [= Hk Hh Hs Hc] Hn H. unfold UnrevokeKey, promoteIfExpiredLocked in H.
  rewrite Hc, Hs, (proj2 (Z.ltb_lt _ _)), Hh, Hs in H by done. injection H as <- <-.
  unfold isHard in *. cbn. by rewrite Hk, Hh, lookup_delete_eq.
Qed.

Lemma RevokeKey_dead t k p p' : RevokeKey k p = (p', Ok tt) → dead t k p'.
Proof.
  unfold RevokeKey. destruct (lp_closed p); [done|]. destruct (isHard k p) eqn:E; [intros [= <-]; by right; left|].
  destruct (lp_keys p !! k); [|done]. intros [= <-]. right; left. unfold isHard. cbn. by rewrite lookup_insert_eq.
Qed.

(** ** The properties of the provider *)

(** C30: revocation is permanent and exact: a revoked key, or a soft-revoked
    one past its grace window, is refused by every later call whatever the
    history of other calls, re-adding and unrevoking included; no call on
    other keys changes what a key gives; and within its window a soft-revoked
    key is refused but can be restored unchanged. *)
Theorem key_revocation_permanent (k : string) (p : Provider) :
  (∀ t h, dead t k p → Forall (λ x, t ≤ x.1) h → ∀ t', t ≤ t' →
     (getKey t' k (runHistory h p)).2 = Err (KeyRevokedError k) ∨
     (getKey t' k (runHistory h p)).2 = Err ErrProviderClosed) ∧
  (∀ t p', RevokeKey k p = (p', Ok tt) → dead t k p') ∧
  (∀ t h, Forall (λ x, ¬ touches k x.2) h → (getKey t k (runHistory h p)).2 = (getKey t k p).2) ∧
  (∀ now g p1 key, (getKey now k p).2 = Ok key → SoftRevokeKey now k g p = (p1, Ok tt) →
     dead (now + g) k p1 ∧
     ∀ h t, Forall (λ x, ¬ touches k x.2) h → t < now + g →
       (getKey t k (runHistory h p1)).2 = Err (KeyRevokedError k) ∧
       ∀ p2 r, UnrevokeKey t k (runHistory h p1) = (p2, r) →
         r = Ok tt ∧ ∀ t', (getKey t' k p2).2 = Ok key).
Proof.
  split; [|split; [|split]].
  - intros t h Hd Hh t' Ht. apply dead_getKey. eapply dead_later; [|done]. by apply runHistory_dead.
  - intros t p'. apply RevokeKey_dead.
  - intros t h Hh. by apply getKey_view, runHistory_view.
  - intros now g p1 key Hkey Hsoft. apply getKey_Ok_view in Hkey.
    pose proof (SoftRevokeKey_view _ _ _ _ _ _ Hkey Hsoft) as Hv. split.
    + injection Hv as _ _ Hs _. right; right. by exists (now + g).
    + intros h t Hh Ht. pose proof (runHistory_view k h p1 Hh) as Hv'. rewrite Hv in Hv'. split.
      * unfold view in Hv'. injection Hv' as Hk Hhd Hs Hc. unfold getKey, stateLocked, promoteIfExpiredLocked.
        by rewrite Hc, Hs, (proj2 (Z.ltb_lt _ _)), Hhd, Hs by done.
      * intros p2 r Hu. destruct (UnrevokeKey_view _ _ _ _ _ _ _ Hv' Ht Hu) as [-> Hv2]. split; [done|].
        intros t'. unfold view in Hv2. injection Hv2 as Hk Hhd Hs Hc.
        unfold getKey, stateLocked, promoteIfExpiredLocked. by rewrite Hc, Hs, Hhd, Hs, Hk.
Qed.

(** ** The provider keeps its promise *)

Lemma getKey_again now t k p key :
  (getKey now k p).2 = Ok key → (getKey t k (getKey now k p).1).2 = Ok key.
Proof.
  intros Hk. apply getKey_Ok_view in Hk as Hv. unfold view in Hv. injection Hv as Hkey Hh Hs Hc.
  assert ((getKey now k p).1 = p) as ->.
  { unfold getKey, stateLocked, promoteIfExpiredLocked. by rewrite Hc, Hs, Hh, Hs, Hkey. }
  unfold getKey, stateLocked, promoteIfExpiredLocked. by rewrite Hc, Hs, Hh, Hs, Hkey.
Qed.

#[export] Instance localProvider_laws `{AEADLaws} : ProviderLaws Provider.
Proof.
  split. intros t ent k p p' dk (Hd & Hw & _). cbn. unfold localGenerateDataKey, unwraps, op_bind.
  cbn [DecryptDataKey localProvider]. unfold localDecryptDataKey, op_bind.
  destruct (getKey t k p) as [p1 [key|]] eqn:Eg; [|done]. unfold op_lift.
  unfold AESGCMEncrypt. destruct (validKeySize key) eqn:Ek; [|done]. intros [= <- <-]. cbn.
  split; [done|]. split; [done|]. split.
  - intros E. apply (f_equal String.length) in E. rewrite length_append, Hw in E. done.
  - pose proof (getKey_again t t k p key) as Ha. rewrite Eg in Ha. cbn in Ha. specialize (Ha eq_refl).
    destruct (getKey t k p1) as [p2 r]. cbn in Ha. subst r. cbn.
    rewrite AESGCM_open by done. by rewrite bool_decide_true.
Qed.

(** Its own operations leave the keys in use as they are. *)
Definition keepsKeys (p q : Provider) : Prop :=
  ∀ k key, view k p = (Some key, false, None, false) → view k q = (Some key, false, None, false).

Lemma getKey_keepsKeys t k p : keepsKeys p (getKey t k p).1.
Proof.
  intros k' key Hv. destruct (decide (k' = k)) as [->|Hne].
  - injection Hv as Hk Hh Hs Hc. unfold getKey, stateLocked, promoteIfExpiredLocked. rewrite Hc, Hs, Hh, Hs, Hk.
    unfold view. cbn [fst]. by rewrite Hc, Hs, Hh, Hk.
  - rewrite <- Hv. exact (runCall_view t k' (CGetKey k) p (λ E, Hne (eq_sym E))).
Qed.

#[export] Instance localProvider_stable `{AEAD} : ProviderStable Provider.
Proof.
  refine {| later := keepsKeys |}.
  - split; [by intros p k key|]. intros p q r Hpq Hqr k key Hv. by apply Hqr, Hpq.
  - intros t ent k p. cbn. unfold localGenerateDataKey, op_bind. pose proof (getKey_keepsKeys t k p) as Hk.
    destruct (getKey t k p) as [p1 [key|]]; [|done]. exact Hk.
  - intros t k ct p. cbn. unfold localDecryptDataKey, op_bind. pose proof (getKey_keepsKeys t k p) as Hk.
    destruct (getKey t k p) as [p1 [key|]]; exact Hk.
  - intros t t' p q k ct dek Hl Hu. revert Hu. unfold unwraps. cbn. unfold localDecryptDataKey, op_bind.
    destruct (getKey t k p) as [p1 [key|]] eqn:Eg; [|done]. cbn. intros Hd.
    assert (view k p = (Some key, false, None, false)) as Hv by (apply (getKey_Ok_view t); by rewrite Eg).
    apply Hl in Hv. injection Hv as Hk Hh Hs Hc. unfold getKey, stateLocked, promoteIfExpiredLocked.
    rewrite Hc, Hs, Hh, Hs, Hk. exact Hd.
Defined.

(** ** Witness *)

Definition sampleKey : string := "0123456789abcdef0123456789abcdef".
Definition sampleProvider : Provider := (AddKey "tenant-a" sampleKey (AddKey "tenant-b" sampleKey New).1).1.

(** A revoked key stays refused after it is added again; another key goes on. *)
Lemma key_revocation_permanent_witness :
  let p := (RevokeKey "tenant-a" sampleProvider).1 in
  let h := [(5, CAddKey "tenant-a" sampleKey); (6, CUnrevokeKey "tenant-a")] in
  (getKey 7 "tenant-a" (runHistory h p)).2 = Err (KeyRevokedError "tenant-a") ∧
  (getKey 7 "tenant-b" (runHistory h p)).2 = Ok sampleKey.
Proof.
  intros p h. split.
  - destruct (key_revocation_permanent "tenant-a" p) as (H & _).
    destruct (H 5 h ltac:(right; left; reflexivity) ltac:(repeat constructor; discriminate) 7 ltac:(lia)) as [E|E];
      [exact E|vm_compute in E; discriminate E].
  - destruct (key_revocation_permanent "tenant-b" p) as (_ & _ & H & _).
    rewrite (H 7 h); [vm_compute; reflexivity|]. repeat constructor; intros E; discriminate E.
Defined.
