(* ===== verification/Common.v ===== *)
(** * Shared helpers of the adapters

    [src/adapters/common.go], the feed filter of [src/adapters/adapter.go] and
    the stream ids and metadata helpers of [src/event.go]: categories,
    optimistic concurrency, limits, SQL comment sanitising. *)

From S2P Require Import Prelude.
From S2P Require Import Types.

#[local] Arguments Ascii.eqb : simpl never.

(** ** Stream ids *)

(** [strings.SplitN(s, "-", 2)]: the whole string when it has no hyphen, else
    what precedes and what follows the first one. *)
Fixpoint splitHyphen (s : string) : string * option string :=
  match s with
  | EmptyString => ("", None)
  | String c s' =>
      if Ascii.eqb c "-"%char then ("", Some s')
      else let '(a, b) := splitHyphen s' in (String c a, b)
  end.

Definition ExtractCategory (streamID : string) : string :=
  if bool_decide (streamID = "") then "" else (splitHyphen streamID).1.

Record StreamID := mkStreamID { sid_Category : string; sid_ID : string }.

Definition StreamID_String (s : StreamID) : string :=
  sid_Category s +:+ "-" +:+ sid_ID s.

Definition ParseStreamID (s : string) : res StreamID :=
  match splitHyphen s with
  | (a, Some b) =>
      if bool_decide (a = "") || bool_decide (b = "")
      then Err (Errorf "mink: invalid stream ID format %q, expected 'Category-ID'")
      else Ok (mkStreamID a b)
  | (_, None) => Err (Errorf "mink: invalid stream ID format %q, expected 'Category-ID'")
  end.

Definition StreamID_Validate (s : StreamID) : res unit :=
  returnIf (bool_decide (sid_Category s = "")) (Errorf "mink: stream category is required");;
  returnIf (bool_decide (sid_ID s = "")) (Errorf "mink: stream ID is required").

(** ** Optimistic concurrency *)

Definition AnyVersion : Z := -1.
Definition NoStream : Z := 0.
Definition StreamExists : Z := -2.

Definition CheckVersion (streamID : string) (expected current : Z) (exists_ : bool) : res unit :=
  if expected =? AnyVersion then Ok tt
  else if expected =? NoStream then
    returnIf exists_ (ConcurrencyError streamID expected current)
  else if expected =? StreamExists then
    returnIf (negb exists_) (StreamNotFoundError streamID)
  else
    returnIf (expected <? 0) ErrInvalidVersion;;
    returnIf (negb (current =? expected)) (ConcurrencyError streamID expected current).

Definition DefaultLimit (limit defaultValue : Z) : Z :=
  if limit <=? 0 then defaultValue else limit.

(** ** Feed filters *)

Record FeedFilter := mkFeedFilter {
  ff_EventTypes : list string;
  ff_StreamIDs : list string;
  ff_Category : string;
}.

Definition CategoryStreamPrefix (category : string) : string := category +:+ "-".

Definition FeedFilter_IsEmpty (f : FeedFilter) : bool :=
  bool_decide (ff_EventTypes f = []) && bool_decide (ff_StreamIDs f = [])
  && bool_decide (ff_Category f = "").

Definition FeedFilter_Matches (f : FeedFilter) (ev : StoredEvent) : bool :=
  if negb (bool_decide (ff_EventTypes f = []))
     && negb (bool_decide (se_Type ev ∈ ff_EventTypes f)) then false
  else if negb (bool_decide (ff_StreamIDs f = []))
     && negb (bool_decide (se_StreamID ev ∈ ff_StreamIDs f)) then false
  else if negb (bool_decide (ff_Category f = ""))
     && negb (String.prefix (CategoryStreamPrefix (ff_Category f)) (se_StreamID ev)) then false
  else true.

Definition emptyFilter : FeedFilter := mkFeedFilter [] [] "".

(** ** Metadata helpers *)

Definition WithCustom (m : Metadata) (key value : string) : Metadata :=
  set_Custom m (Some (<[key := value]> (default ∅ (md_Custom m)))).

(** [len(m)] of a possibly nil map is 0. *)
Definition mapLenZero (c : StringMap) : bool :=
  match c with Some c => bool_decide (c = ∅) | None => true end.

Definition countPresent (c : gmap string string) (keys : list string) : nat :=
  length (filter (λ k, is_Some (c !! k)) keys).

Definition withoutCustomKeys (m : Metadata) (keys : list string) : Metadata :=
  if mapLenZero (md_Custom m) then m else
  let c := default ∅ (md_Custom m) in
  if bool_decide (countPresent c keys = 0%nat) then m else
  let custom := foldl (λ c k, delete k c) c keys in
  if bool_decide (custom = ∅) then set_Custom m None else set_Custom m (Some custom).

Definition Metadata_IsEmpty (m : Metadata) : bool :=
  bool_decide (md_CorrelationID m = "") && bool_decide (md_CausationID m = "")
  && bool_decide (md_UserID m = "") && bool_decide (md_TenantID m = "")
  && mapLenZero (md_Custom m).

(** ** SQL comments

    [strings.Map] and [strings.ReplaceAll] over the runes of the value. *)
Definition isControl (r : Z) : bool :=
  ((0 <=? r) && (r <=? 31)) || ((127 <=? r) && (r <=? 159)).

Definition SanitizeSQLComment (s : list Z) : list Z :=
  let kept := filter (λ r, isControl r = false ∧ r ≠ 8232 ∧ r ≠ 8233) s in
  kept ≫= (λ r, if r =? 39 then [39; 39] else [r]).

(** ** Lemmas *)

Lemma splitHyphen_app a b :
  (∀ c, c ∈ String.list_ascii_of_string a → c ≠ "-"%char) →
  splitHyphen (a +:+ "-" +:+ b) = (a, Some b).
Proof.
  induction a as [|c a IH]; intros Ha; [done|]. rewrite app_String. cbn.
  assert (c ≠ "-"%char) as Hc by (apply Ha; cbn; left).
  apply Ascii.eqb_neq in Hc. rewrite Hc.
  rewrite (IH (λ x Hx, Ha x (list_elem_of_further _ _ _ Hx))). done.
Qed.

Lemma splitHyphen_spec s a ob :
  splitHyphen s = (a, ob) →
  (∀ c, c ∈ String.list_ascii_of_string a → c ≠ "-"%char) ∧
  match ob with Some b => s = a +:+ "-" +:+ b | None => s = a end.
Proof.
  revert a ob. induction s as [|c s IH]; intros a ob; cbn.
  - intros [= <- <-]. split; [|done]. cbn. intros c Hc. by apply not_elem_of_nil in Hc.
  - destruct (Ascii.eqb_spec c "-"%char).
    + intros [= <- <-]. subst. split; [|done]. cbn. intros x Hx. by apply not_elem_of_nil in Hx.
    + destruct (splitHyphen s) as [a' b'] eqn:E. intros [= <- <-].
      destruct (IH _ _ eq_refl) as [H1 H2]. split.
      * cbn. intros x [->|Hx]%elem_of_cons; auto.
      * by destruct b'; subst s.
Qed.

Lemma prefix_app a b : String.prefix a (a +:+ b) = true.
Proof. induction a as [|c a IH]; [by destruct b|]. rewrite app_String. cbn. destruct (Ascii.ascii_dec c c); done. Qed.

Lemma prefix_spec a s : String.prefix a s = true → ∃ b, s = a +:+ b.
Proof.
  revert s. induction a as [|c a IH]; intros s; cbn.
  - by exists s.
  - destruct s as [|c' s]; cbn; [done|]. destruct (Ascii.ascii_dec c c'); [|done].
    intros [b ->]%IH. subst. by exists b.
Qed.

Lemma ExtractCategory_split s : ExtractCategory s = (splitHyphen s).1.
Proof. unfold ExtractCategory. case_bool_decide; by subst. Qed.

Lemma FeedFilter_Matches_empty ev : FeedFilter_Matches emptyFilter ev = true.
Proof. reflexivity. Qed.

Lemma CheckVersion_Ok sid expected current ex u :
  CheckVersion sid expected current ex = Ok u →
  expected = AnyVersion ∨ (expected = NoStream ∧ ex = false) ∨
  (expected = StreamExists ∧ ex = true) ∨ (0 < expected ∧ current = expected).
Proof.
  unfold CheckVersion. repeat case_match; intros; inv_ok; zbool;
    unfold AnyVersion, NoStream, StreamExists in *; subst;
    try (destruct ex; cbn in *); try tauto; try lia.
Qed.

Lemma CheckVersion_exact sid expected current :
  0 < expected → current = expected → CheckVersion sid expected current true = Ok tt.
Proof.
  intros H ->. unfold CheckVersion, AnyVersion, NoStream, StreamExists.
  repeat (case_match; zbool; try lia). cbn.
  rewrite (proj2 (Z.ltb_ge _ _)) by lia. cbn. by rewrite Z.eqb_refl.
Qed.

Lemma CheckVersion_conflict sid v current :
  0 ≤ v < current → CheckVersion sid v current true = Err (ConcurrencyError sid v current).
Proof.
  intros [Hv Hc]. unfold CheckVersion, AnyVersion, NoStream, StreamExists.
  rewrite (proj2 (Z.eqb_neq v (-1))) by lia.
  destruct (v =? 0); [done|].
  rewrite (proj2 (Z.eqb_neq v (-2))), (proj2 (Z.ltb_ge v 0)) by lia. cbn.
  by rewrite (proj2 (Z.eqb_neq current v)) by lia.
Qed.

Lemma lookup_foldl_delete (c : gmap string string) keys k :
  foldl (λ c k, delete k c) c keys !! k = if decide (k ∈ keys) then None else c !! k.
Proof.
  revert c. induction keys as [|k' keys IH]; intros c; cbn; [done|].
  rewrite IH. repeat case_decide; try set_solver.
  - destruct (decide (k = k')) as [->|]; [by rewrite lookup_delete_eq|set_solver].
  - rewrite lookup_delete_ne; [done|set_solver].
Qed.

Lemma withoutCustomKeys_lookup m keys k :
  custom_lookup (withoutCustomKeys m keys) k =
  if decide (k ∈ keys) then None else custom_lookup m k.
Proof.
  unfold withoutCustomKeys, custom_lookup, mapLenZero, countPresent.
  destruct m as [? ? ? ? [c|]]; cbn; [|by case_decide].
  case_bool_decide as H1; cbn; [subst; rewrite lookup_empty; by case_decide|].
  case_bool_decide as H2; cbn.
  - case_decide; [|done]. apply nil_length_inv in H2.
    destruct (c !! k) eqn:E; [|done]. exfalso.
    assert (k ∈ filter (λ k, is_Some (c !! k)) keys) as Hk by (apply list_elem_of_filter; eauto).
    rewrite H2 in Hk. by apply not_elem_of_nil in Hk.
  - pose proof (lookup_foldl_delete c keys k) as Hl.
    case_bool_decide as H3; cbn; [|done].
    rewrite H3, lookup_empty in Hl. done.
Qed.

#[export] Hint Rewrite ExtractCategory_split withoutCustomKeys_lookup : mink_rw.
