(* ===== verification/Subject.v ===== *)
(** * Subject tags

    The tags of [src/subject.go] that name, in an event's metadata, the data
    subjects the event concerns. *)

From S2P Require Import Prelude.
From S2P Require Import Types.
From S2P Require Import Common.
From S2P Require Import Utf8.
From S2P Require Import Json.
From S2P Require Import JsonRoundtrip.

Definition SubjectTagsKey : string := "$subjects".

(** A tagger is user code over the event's type, data and metadata. *)
Definition SubjectTagger : Type := string → Bytes → Metadata → list string.

Definition GetSubjectTags (m : Metadata) : list string :=
  match custom_lookup m SubjectTagsKey with
  | None => []
  | Some v => default [] (UnmarshalStrings v)
  end.

(** The first occurrence of each non-empty name, in order. *)
Fixpoint dedupe (seen : list string) (l : list string) : list string :=
  match l with
  | [] => []
  | s :: l =>
      if bool_decide (s = "") || bool_decide (s ∈ seen) then dedupe seen l
      else s :: dedupe (s :: seen) l
  end.

Definition setSubjectTags (m : Metadata) (subjects : list string) : Metadata :=
  match dedupe [] (GetSubjectTags m ++ subjects) with
  | [] => m
  | merged => WithCustom m SubjectTagsKey (MarshalStrings merged)
  end.

Definition replaceSubjectTags (m : Metadata) (subjects : list string) : Metadata :=
  let m := withoutCustomKeys m [SubjectTagsKey] in
  match subjects with
  | [] => m
  | _ => setSubjectTags m subjects
  end.

Definition eventTagsSubject (m : Metadata) (subjectID : string) : bool :=
  existsb (λ s, bool_decide (s = subjectID)) (GetSubjectTags m).

Definition cleanSubjects (l : list string) : list string := dedupe [] l.

(** ** Lemmas *)

Lemma stringElements_strings l : stringElements (JString <$> l) = Some l.
Proof. induction l as [|s l IH]; [done|]. cbn [fmap list_fmap stringElements]. by rewrite IH. Qed.

Lemma UnmarshalStrings_Marshal l : Forall utf8 l → UnmarshalStrings (MarshalStrings l) = Some l.
Proof.
  intros Hl. unfold UnmarshalStrings, MarshalStrings. rewrite decode_print; [apply stringElements_strings|].
  constructor; [done|]. apply Forall_fmap. eapply Forall_impl; [exact Hl|]. intros s Hs. by constructor.
Qed.

Lemma custom_lookup_WithCustom m k v k' :
  custom_lookup (WithCustom m k v) k' = if decide (k = k') then Some v else custom_lookup m k'.
Proof.
  unfold custom_lookup, WithCustom, set_Custom. cbn. case_decide as E; [subst; by rewrite lookup_insert_eq|].
  rewrite lookup_insert_ne by done. destruct (md_Custom m); cbn; [done|]. by rewrite lookup_empty.
Qed.

Lemma elem_of_dedupe seen l x : x ∈ dedupe seen l ↔ x ∈ l ∧ x ≠ "" ∧ x ∉ seen.
Proof.
  revert seen. induction l as [|s l IH]; intros seen; cbn [dedupe]; [set_solver|].
  destruct (bool_decide (s = "") || bool_decide (s ∈ seen)) eqn:E.
  - rewrite IH. split; [set_solver|]. intros ([->|Hx]%elem_of_cons & Hne & Hs); [|done].
    apply orb_true_iff in E as [E|E]; by apply bool_decide_eq_true in E.
  - zbool. rewrite elem_of_cons, IH. destruct (decide (x = s)); set_solver.
Qed.

Lemma NoDup_dedupe seen l : NoDup (dedupe seen l).
Proof.
  revert seen. induction l as [|s l IH]; intros seen; cbn [dedupe]; [constructor|].
  destruct (_ || _); [apply IH|]. constructor; [|apply IH]. rewrite elem_of_dedupe. set_solver.
Qed.

Lemma GetSubjectTags_set m l :
  Forall utf8 (GetSubjectTags m) → Forall utf8 l →
  GetSubjectTags (setSubjectTags m l) =
    match dedupe [] (GetSubjectTags m ++ l) with [] => GetSubjectTags m | merged => merged end.
Proof.
  intros Hm Hl. unfold setSubjectTags. destruct (dedupe [] _) as [|x merged] eqn:E; [done|].
  unfold GetSubjectTags at 1. rewrite custom_lookup_WithCustom, decide_True by done.
  rewrite UnmarshalStrings_Marshal; [done|]. apply Forall_forall. intros y Hy. rewrite <- E in Hy.
  apply elem_of_dedupe in Hy as [Hy _]. apply elem_of_app in Hy as [Hy|Hy].
  - rewrite Forall_forall in Hm. by apply Hm.
  - rewrite Forall_forall in Hl. by apply Hl.
Qed.
