(* ===== verification/FieldEncryption.v ===== *)
(** * Field encryption

    [src/encryption.go]: the configured fields of an event's JSON payload are
    sealed under a data key of their own, wrapped by a master key the event's
    tenant or subject selects, and the envelope is stamped in the metadata.
    The provider is an interface ([ProviderOps]); its state is threaded. *)

From S2P Require Import Prelude.
From S2P Require Import Types.
From S2P Require Import Common.
From S2P Require Import Strconv.
From S2P Require Import Utf8.
From S2P Require Import Json.
From S2P Require Import Crypto.
From S2P Require Import Subject.
From Stdlib Require Import Strings.Byte.

Definition encryptedFieldsKey : string := "$encrypted_fields".
Definition encryptionKeyIDKey : string := "$encryption_key_id".
Definition encryptedDEKKey : string := "$encrypted_dek".
Definition encryptionAlgorithmKey : string := "$encryption_algorithm".
Definition encryptionAlgorithm : string := "AES-256-GCM".

(** ** Configuration *)

(** [fe_hasProvider] is [provider != nil]. *)
Record FieldEncryptionConfig := mkFieldEncryptionConfig {
  fe_hasProvider : bool;
  fe_fields : gmap string (list string);
  fe_sealOrder : gmap string (list string);
  fe_defaultKeyID : string;
  fe_tenantKeyResolver : option (string → string);
  fe_onDecryptionError : option (error → string → Metadata → option error);
  fe_requireKeyResolution : bool;
  fe_configErr : gmap string error;
}.

Inductive EncryptionOption :=
| WithEncryptionProvider
| WithDefaultKeyID (keyID : string)
| WithEncryptedFields (eventType : string) (fields : list string)
| WithTenantKeyResolver (resolver : string → string) (* and WithSubjectKeyResolver *)
| WithRequireKeyResolution
| WithDecryptionErrorHandler (handler : error → string → Metadata → option error).

Definition fieldsOf (c : FieldEncryptionConfig) (eventType : string) : list string :=
  default [] (fe_fields c !! eventType).

(** First occurrence wins. *)
Definition addFields (existing fields : list string) : list string :=
  foldl (λ acc f, if bool_decide (f ∈ acc) then acc else acc ++ [f]) existing fields.

Definition applyOption (c : FieldEncryptionConfig) (o : EncryptionOption) : FieldEncryptionConfig :=
  let '(mkFieldEncryptionConfig pr fs so dk tr oe rk ce) := c in
  match o with
  | WithEncryptionProvider => mkFieldEncryptionConfig true fs so dk tr oe rk ce
  | WithDefaultKeyID keyID => mkFieldEncryptionConfig pr fs so keyID tr oe rk ce
  | WithEncryptedFields t l =>
      mkFieldEncryptionConfig pr (<[t := addFields (fieldsOf c t) l]> fs) so dk tr oe rk ce
  | WithTenantKeyResolver r => mkFieldEncryptionConfig pr fs so dk (Some r) oe rk ce
  | WithRequireKeyResolution => mkFieldEncryptionConfig pr fs so dk tr oe true ce
  | WithDecryptionErrorHandler h => mkFieldEncryptionConfig pr fs so dk tr (Some h) rk ce
  end.

(** *** Field paths *)

(** [strings.Split(path, ".")] *)
Fixpoint splitDots (s : string) : list string :=
  match s with
  | "" => [""]
  | String c r =>
      match splitDots r with
      | [] => [String c ""]
      | x :: l => if Ascii.eqb c "." then "" :: x :: l else String c x :: l
      end
  end.

(** [strings.Count(path, ".") + 1] *)
Fixpoint fieldDepth (s : string) : Z :=
  match s with
  | "" => 1
  | String c r => if Ascii.eqb c "." then 1 + fieldDepth r else fieldDepth r
  end.

(** [strings.Contains(path, ".")] *)
Definition nested (path : string) : bool := 1 <? fieldDepth path.

Definition orderByDepth (paths : list string) (deepestFirst : bool) : list string :=
  if negb (existsb nested paths) then paths
  else
    stableSort (λ x y, if deepestFirst then fieldDepth y <? fieldDepth x else fieldDepth x <? fieldDepth y) paths.

Definition unsealOrder (recorded : list string) : list string := orderByDepth recorded false.

Definition validateFieldPath (eventType path : string) : res unit :=
  if bool_decide (path = "") then Err (Wrapf "%w: event type %q lists an empty field path" ErrInvalidEncryptedFieldPath)
  else if existsb (λ seg, bool_decide (seg = "")) (splitDots path) then
    Err (Wrapf "%w: event type %q field path %q has an empty segment" ErrInvalidEncryptedFieldPath)
  else Ok tt.

(** The first malformed path of a type. *)
Definition firstInvalid (eventType : string) (paths : list string) : option error :=
  match forEach (validateFieldPath eventType) paths with Err e => Some e | Ok _ => None end.

(** The loop of [finalize] visits each type once, in any order. *)
Definition finalize (c : FieldEncryptionConfig) : FieldEncryptionConfig :=
  mkFieldEncryptionConfig (fe_hasProvider c) (fe_fields c)
    (map_imap (λ _ paths, if existsb nested paths then Some (orderByDepth paths true) else None) (fe_fields c))
    (fe_defaultKeyID c) (fe_tenantKeyResolver c) (fe_onDecryptionError c) (fe_requireKeyResolution c)
    (map_imap firstInvalid (fe_fields c)).

Definition NewFieldEncryptionConfig (opts : list EncryptionOption) : FieldEncryptionConfig :=
  finalize (foldl applyOption (mkFieldEncryptionConfig false ∅ ∅ "" None None false ∅) opts).

Definition sealPaths (c : FieldEncryptionConfig) (eventType : string) : list string :=
  match fe_sealOrder c !! eventType with Some ordered => ordered | None => fieldsOf c eventType end.

Definition HasEncryptedFields (c : FieldEncryptionConfig) (eventType : string) : bool :=
  0 <? Z.of_nat (length (fieldsOf c eventType)).

(** *** Key selection *)

Definition firstTag (metadata : Metadata) : string :=
  match GetSubjectTags metadata with t :: _ => t | [] => "" end.

Definition resolveKeyID (c : FieldEncryptionConfig) (metadata : Metadata) : string :=
  match fe_tenantKeyResolver c with
  | Some resolver =>
      let subject := if bool_decide (md_TenantID metadata = "") then firstTag metadata else md_TenantID metadata in
      if bool_decide (subject = "") then fe_defaultKeyID c
      else
        let keyID := resolver subject in
        if bool_decide (keyID = "") then fe_defaultKeyID c else keyID
  | None => fe_defaultKeyID c
  end.

Definition selectKeyID (c : FieldEncryptionConfig) (eventType : string) (metadata : Metadata) : res string :=
  match fe_requireKeyResolution c, fe_tenantKeyResolver c with
  | true, Some resolver =>
      let subjectID := if bool_decide (md_TenantID metadata = "") then firstTag metadata else "" in
      let id := if bool_decide (md_TenantID metadata = "") then subjectID else md_TenantID metadata in
      let keyID := if bool_decide (id = "") then "" else resolver id in
      if bool_decide (keyID = "") then
        Err (NewEncryptionError "" "" (KeyResolutionError eventType (md_TenantID metadata) subjectID))
      else Ok keyID
  | _, _ =>
      let keyID := resolveKeyID c metadata in
      if bool_decide (keyID = "") then Err (NewEncryptionError "" "" (Errorf "no encryption key ID configured"))
      else Ok keyID
  end.

(** ** Metadata *)

Definition GetEncryptedFields (m : Metadata) : list string :=
  match custom_lookup m encryptedFieldsKey with
  | None => []
  | Some v => default [] (UnmarshalStrings v)
  end.

Definition GetEncryptionKeyID (m : Metadata) : string := default "" (custom_lookup m encryptionKeyIDKey).
Definition GetEncryptionAlgorithm (m : Metadata) : string := default "" (custom_lookup m encryptionAlgorithmKey).

Definition IsEncrypted (m : Metadata) : bool := bool_decide (is_Some (custom_lookup m encryptedFieldsKey)).

Definition HasEncryptionEnvelope (m : Metadata) : bool :=
  IsEncrypted m && negb (bool_decide (GetEncryptionKeyID m = ""))
  && negb (bool_decide (default "" (custom_lookup m encryptedDEKKey) = "")).

(** ** One field *)

Definition object : Type := list (string * json).

Definition bytesToString (d : Bytes) : string := String.string_of_list_byte (default [] d).
Definition stringToBytes (s : string) : Bytes := Some (String.list_byte_of_string s).

(** [decodeJSON] into a map: a null leaves it nil. *)
Definition decodeObject (d : Bytes) : option object :=
  match decode (bytesToString d) with
  | Some (JObject m) => Some m
  | Some JNull => Some []
  | _ => None
  end.

Definition fieldAAD (streamID fieldPath : string) : string :=
  if bool_decide (streamID = "") then fieldPath else streamID +:+ String "000" fieldPath.

Section Fields.
Context `{AEAD}.

(** The walk of [encryptJSONFieldWithPath] along the segments of a path. *)
Fixpoint sealAt (aad key nonce : string) (segs : list string) (data : object) : res (bool * object) :=
  match segs with
  | [] => Ok (false, data)
  | [leaf] =>
      match objGet leaf data with
      | None => Ok (false, data)
      | Some val =>
          match Marshal val with
          | None => Err (Wrapf "failed to marshal field value: %w" (External "json"))
          | Some plaintext =>
              match AESGCMEncrypt key plaintext aad nonce with
              | Err err => Err err
              | Ok ciphertext => Ok (true, objSet leaf (JString (base64Encode ciphertext)) data)
              end
          end
      end
  | seg :: rest =>
      match objGet seg data with
      | None | Some JNull => Ok (false, data)
      | Some (JObject child) =>
          match sealAt aad key nonce rest child with
          | Err err => Err err
          | Ok (sealed, child) => Ok (sealed, objSet seg (JObject child) data)
          end
      | Some _ => Err (Errorf "parent %q of encrypted field %q holds a %T, not a JSON object (the field configuration does not match the event's shape)")
      end
  end.

Definition encryptJSONField (data : object) (fieldPath streamID key nonce : string) : res (bool * object) :=
  sealAt (fieldAAD streamID fieldPath) key nonce (splitDots fieldPath) data.

Definition tamperedFieldError : error :=
  Wrapf "%w: encrypted field %q %s (the stored event does not match what was sealed; possible tampering)"
    ErrDecryptionFailed.

(** The candidates in order, each tried once; the first failure is reported. *)
Fixpoint tryAADs (key ciphertext : string) (seen : list string) (firstErr : option error) (candidates : list string)
    : res string :=
  match candidates with
  | [] => match firstErr with Some e => Err e | None => Ok "" end
  | aad :: candidates =>
      if bool_decide (aad ∈ seen) then tryAADs key ciphertext seen firstErr candidates
      else
        match AESGCMDecrypt key ciphertext aad with
        | Ok plaintext => Ok plaintext
        | Err err =>
            tryAADs key ciphertext (aad :: seen)
              (match firstErr with Some e => Some e | None => Some err end) candidates
        end
  end.

Definition candidateAADs (streamID fullPath leaf : string) : list string :=
  [fieldAAD streamID fullPath; fieldAAD streamID leaf; fullPath; leaf].

Definition decryptFieldValue (key ciphertext streamID fullPath leaf : string) : res string :=
  tryAADs key ciphertext [] None (candidateAADs streamID fullPath leaf).

Fixpoint unsealAt (streamID fullPath key : string) (segs : list string) (data : object) : res object :=
  match segs with
  | [] => Ok data
  | [leaf] =>
      match objGet leaf data with
      | Some (JString encoded) =>
          match base64Decode encoded with
          | None => Err (Wrapf "failed to decode field: %w" (External "base64"))
          | Some ciphertext =>
              match decryptFieldValue key ciphertext streamID fullPath leaf with
              | Err err => Err err
              | Ok plaintext =>
                  match decode plaintext with
                  | None => Err (Wrapf "failed to unmarshal decrypted field: %w" (External "json"))
                  | Some restored => Ok (objSet leaf restored data)
                  end
              end
          end
      | _ => Err tamperedFieldError
      end
  | seg :: rest =>
      match objGet seg data with
      | Some (JObject child) =>
          match unsealAt streamID fullPath key rest child with
          | Err err => Err err
          | Ok child => Ok (objSet seg (JObject child) data)
          end
      | _ => Err tamperedFieldError
      end
  end.

Definition decryptJSONField (data : object) (fieldPath streamID key : string) : res object :=
  unsealAt streamID fieldPath key (splitDots fieldPath) data.

(** ** One event *)

(** The loop over the fields: the object and the names sealed so far. *)
Fixpoint sealFields (streamID key keyID : string) (nonces : nat → string) (i : nat) (paths : list string)
    (data : object) (names : list string) : res (object * list string) :=
  match paths with
  | [] => Ok (data, names)
  | p :: paths =>
      match encryptJSONField data p streamID key (nonces i) with
      | Err err => Err (NewEncryptionError keyID p err)
      | Ok (encrypted, data) =>
          sealFields streamID key keyID nonces (S i) paths data (if encrypted then names ++ [p] else names)
      end
  end.

Fixpoint unsealFields (streamID key keyID : string) (paths : list string) (data : object) : res object :=
  match paths with
  | [] => Ok data
  | p :: paths =>
      match decryptJSONField data p streamID key with
      | Err err => Err (NewDecryptionError keyID p err)
      | Ok data => unsealFields streamID key keyID paths data
      end
  end.

Definition stampEnvelope (metadata : Metadata) (names : list string) (dk : DataKey) : Metadata :=
  let metadata := WithCustom metadata encryptedFieldsKey (MarshalStrings names) in
  let metadata := WithCustom metadata encryptionKeyIDKey (dk_KeyID dk) in
  let metadata := WithCustom metadata encryptedDEKKey (base64Encode (dk_Ciphertext dk)) in
  WithCustom metadata encryptionAlgorithmKey encryptionAlgorithm.

(** What follows the data key. *)
Definition sealEvent (ent : Entropy) (streamID keyID : string) (fieldPaths : list string) (data : Bytes)
    (metadata : Metadata) (dk : DataKey) : res (Bytes * Metadata) :=
  match decodeObject data with
  | None => Err (NewEncryptionError keyID "" (Wrapf "field-level encryption requires JSON-encoded event data; failed to parse as JSON (incompatible with non-JSON serializers like MessagePack/Protobuf): %w" (External "json")))
  | Some jsonData =>
      match sealFields streamID (dk_Plaintext dk) keyID (ent_nonce ent) 0 fieldPaths jsonData [] with
      | Err err => Err err
      | Ok (jsonData, names) =>
          match names with
          | [] => Ok (data, metadata)
          | _ =>
              match Marshal (JObject jsonData) with
              | None => Err (NewEncryptionError keyID "" (Wrapf "failed to serialize encrypted data: %w" (External "json")))
              | Some encryptedData => Ok (stringToBytes encryptedData, stampEnvelope metadata names dk)
              end
          end
      end
  end.

Definition encryptFields `{ProviderOps P} (now : Time) (ent : Entropy) (c : FieldEncryptionConfig)
    (streamID eventType : string) (data : Bytes) (metadata : Metadata) : op P error (Bytes * Metadata) := λ p,
  let fieldPaths := sealPaths c eventType in
  match fieldPaths with
  | [] => (p, Ok (data, metadata))
  | _ =>
      match fe_configErr c !! eventType with
      | Some err => (p, Err (NewEncryptionError "" "" err))
      | None =>
          if negb (fe_hasProvider c) then
            (p, Err (NewEncryptionError "" "" (Errorf "encryption provider not configured: use WithEncryptionProvider option")))
          else
            match selectKeyID c eventType metadata with
            | Err err => (p, Err err)
            | Ok keyID =>
                match GenerateDataKey now ent keyID p with
                | (p, Err err) => (p, Err err)
                | (p, Ok dk) => (p, sealEvent ent streamID keyID fieldPaths data metadata dk)
                end
            end
      end
  end.

(** What follows the unwrapped data key. *)
Definition unsealEvent (streamID keyID dek : string) (data : Bytes) (metadata : Metadata) : res Bytes :=
  match GetEncryptedFields metadata with
  | [] => Ok data
  | fieldNames =>
      match decodeObject data with
      | None => Err (NewDecryptionError keyID "" (Wrapf "failed to parse event data: %w" (External "json")))
      | Some jsonData =>
          match unsealFields streamID dek keyID (unsealOrder fieldNames) jsonData with
          | Err err => Err err
          | Ok jsonData =>
              match Marshal (JObject jsonData) with
              | None => Err (NewDecryptionError keyID "" (Wrapf "failed to serialize decrypted data: %w" (External "json")))
              | Some decryptedData => Ok (stringToBytes decryptedData)
              end
          end
      end
  end.

Definition decryptFields `{ProviderOps P} (now : Time) (c : FieldEncryptionConfig)
    (streamID eventType : string) (data : Bytes) (metadata : Metadata) : op P error Bytes := λ p,
  if negb (IsEncrypted metadata) then (p, Ok data)
  else if negb (fe_hasProvider c) then
    (p, Err (NewDecryptionError "" "" (Errorf "encryption provider not configured: use WithEncryptionProvider option")))
  else
    let keyID := GetEncryptionKeyID metadata in
    let alg := GetEncryptionAlgorithm metadata in
    if negb (bool_decide (alg = "")) && negb (bool_decide (alg = encryptionAlgorithm)) then
      (p, Err (NewDecryptionError keyID "" (Errorf "unsupported algorithm %q (only %q is supported)")))
    else
      match base64Decode (default "" (custom_lookup metadata encryptedDEKKey)) with
      | None => (p, Err (NewDecryptionError keyID "" (Wrapf "failed to decode encrypted DEK: %w" (External "base64"))))
      | Some encryptedDEK =>
          match DecryptDataKey now keyID encryptedDEK p with
          | (p, Ok dek) => (p, unsealEvent streamID keyID dek data metadata)
          | (p, Err err) =>
              match fe_onDecryptionError c with
              | None => (p, Err err)
              | Some handler =>
                  match handler err eventType metadata with
                  | None => (p, Ok data)
                  | Some handlerErr => (p, Err handlerErr)
                  end
              end
          end
      end.
End Fields.
