(* ===== verification/FieldTheorems.v ===== *)
(** * Field encryption: properties

    The round trip of [encryptFields] and [decryptFields] for any configuration
    and provider, and what a sealed field is bound to. *)

From Stdlib Require Import Strings.Byte.
From S2P Require Import Prelude.
From S2P Require Import Strconv.
From S2P Require Import Utf8.
From S2P Require Import Json.
From S2P Require Import JsonRoundtrip.
From S2P Require Import Types.
From S2P Require Import Crypto.
From S2P Require Import LocalProvider.
From S2P Require Import Common.
From S2P Require Import Subject.
From S2P Require Import FieldEncryption.

(** ** Objects as maps *)

Lemma objGet_set {A} k k' (v : A) m :
  objGet k (objSet k' v m) = if decide (k = k') then Some v else objGet k m.
Proof.
  induction m as [|[k1 v1] m IH]; cbn.
  { case_bool_decide; by case_decide. }
  destruct (decide (k' = k1)) as [->|Hne].
  - rewrite bool_decide_true by done. cbn. case_bool_decide; by case_decide.
  - rewrite bool_decide_false by done. destruct (String.ltb k' k1); cbn.
    + case_bool_decide as E; [by rewrite decide_True|]. by rewrite decide_False.
    + rewrite IH. case_bool_decide as E; [|done]. subst. by rewrite decide_False.
Qed.

Lemma objGet_elem {A} k (v : A) m : objGet k m = Some v → (k, v) ∈ m.
Proof.
  induction m as [|[k1 v1] m IH]; [done|]. cbn. case_bool_decide as E; [|right; auto].
  intros [= ->]. subst. by left.
Qed.

Lemma objGet_None {A} k (m : list (string * A)) : Forall (keyLess k) m.*1 → objGet k m = None.
Proof.
  induction m as [|[k1 v1] m IH]; [done|]. cbn. intros [Hk Hm]%Forall_cons.
  rewrite bool_decide_false; [auto|]. intros ->. by apply keyLess_irrefl in Hk.
Qed.

(** Sorted entries are determined by what they map. *)
Lemma obj_ext {A} (m1 m2 : list (string * A)) :
  StronglySorted keyLess m1.*1 → StronglySorted keyLess m2.*1 →
  (∀ k, objGet k m1 = objGet k m2) → m1 = m2.
Proof.
  revert m2. induction m1 as [|[k1 v1] m1 IH]; intros [|[k2 v2] m2] H1 H2 Hext; [done|..].
  - specialize (Hext k2). cbn in Hext. by rewrite bool_decide_true in Hext.
  - specialize (Hext k1). cbn in Hext. by rewrite bool_decide_true in Hext.
  - cbn in H1, H2. apply StronglySorted_cons in H1 as [Hk1 H1]. apply StronglySorted_cons in H2 as [Hk2 H2].
    assert (k1 = k2) as ->.
    { destruct (decide (k1 = k2)) as [|Hne]; [done|exfalso].
      destruct (String.ltb k1 k2) eqn:El.
      - specialize (Hext k1). cbn in Hext. rewrite bool_decide_true, bool_decide_false in Hext by done.
        rewrite objGet_None in Hext; [done|]. eapply Forall_impl; [exact Hk2|]. intros x Hx. by transitivity k2.
      - apply keyLess_total in El; [|done]. specialize (Hext k2). cbn in Hext.
        rewrite bool_decide_false, bool_decide_true in Hext by done.
        rewrite objGet_None in Hext; [done|]. eapply Forall_impl; [exact Hk1|]. intros x Hx. by transitivity k1. }
    pose proof (Hext k2) as Hv. cbn in Hv. rewrite !bool_decide_true in Hv by done. injection Hv as ->.
    f_equal. apply IH; [done..|]. intros k. specialize (Hext k). cbn in Hext.
    case_bool_decide as E; [|done]. subst. by rewrite !objGet_None.
Qed.

Lemma objSet_id {A} k (v : A) m : StronglySorted keyLess m.*1 → objGet k m = Some v → objSet k v m = m.
Proof.
  intros Hs Hk. apply obj_ext; [by apply objSet_sorted|done|]. intros k'. rewrite objGet_set. by case_decide; subst.
Qed.

Lemma objSet_set {A} k (v w : A) m : StronglySorted keyLess m.*1 → objSet k v (objSet k w m) = objSet k v m.
Proof.
  intros Hs. apply obj_ext; [by repeat apply objSet_sorted..|]. intros k'. rewrite !objGet_set. by case_decide.
Qed.

Lemma objSet_comm {A} k k' (v w : A) m :
  k ≠ k' → StronglySorted keyLess m.*1 → objSet k v (objSet k' w m) = objSet k' w (objSet k v m).
Proof.
  intros Hne Hs. apply obj_ext; [by repeat apply objSet_sorted..|]. intros x. rewrite !objGet_set.
  repeat case_decide; congruence.
Qed.

(** Well formed at some depth. *)
Definition canon (v : json) : Prop := ∃ d, wf d v.

Lemma canon_sorted m : canon (JObject m) → StronglySorted keyLess m.*1.
Proof. intros [d Hd]. by inversion Hd. Qed.

Lemma wf_get d m k v : wf d (JObject m) → objGet k m = Some v → wf (d + 1) v ∧ utf8 k.
Proof.
  intros Hw Hk%objGet_elem. inversion Hw as [| | | | |? ? _ _ Hu Hm]; subst. rewrite Forall_forall in Hu. rewrite Forall_forall in Hm.
  split; [by apply (Hm (k, v))|]. apply Hu. by apply (list_elem_of_fmap_2 fst) in Hk.
Qed.

Lemma canon_get m k v : canon (JObject m) → objGet k m = Some v → canon v ∧ utf8 k.
Proof. intros [d Hd] Hk. destruct (wf_get _ _ _ _ Hd Hk) as [? ?]. split; [by eexists|done]. Qed.

Lemma wf_set d m k v : wf d (JObject m) → wf (d + 1) v → utf8 k → wf d (JObject (objSet k v m)).
Proof.
  intros Hw Hv Hk. inversion Hw as [| | | | |? ? Hd Hs Hu Hm]; subst. constructor; [done|by apply objSet_sorted| |].
  - apply Forall_forall. rewrite Forall_forall in Hu. intros x [->|Hx]%objSet_keys; auto.
  - by apply (objSet_values (wf (d + 1))).
Qed.

Lemma canon_set m k v : canon (JObject m) → canon v → utf8 k → canon (JObject (objSet k v m)).
Proof.
  intros [d1 H1] [d2 H2] Hk. exists (Z.min d1 (d2 - 1)).
  apply wf_set; [eapply wf_le; [done|lia]|eapply wf_le; [done|lia]|done].
Qed.

(** ** Updates of one path *)

Fixpoint getAt (segs : list string) (m : object) : option json :=
  match segs with
  | [] => None
  | [leaf] => objGet leaf m
  | seg :: rest => match objGet seg m with Some (JObject child) => getAt rest child | _ => None end
  end.

Fixpoint updAt (f : json → option json) (segs : list string) (m : object) : option object :=
  match segs with
  | [] => None
  | [leaf] =>
      match objGet leaf m with
      | Some v => match f v with Some v' => Some (objSet leaf v' m) | None => None end
      | None => None
      end
  | seg :: rest =>
      match objGet seg m with
      | Some (JObject child) =>
          match updAt f rest child with Some child' => Some (objSet seg (JObject child') m) | None => None end
      | _ => None
      end
  end.

Lemma updAt_cons f seg rest m :
  rest ≠ [] →
  updAt f (seg :: rest) m =
  match objGet seg m with
  | Some (JObject child) =>
      match updAt f rest child with Some child' => Some (objSet seg (JObject child') m) | None => None end
  | _ => None
  end.
Proof. by destruct rest. Qed.

(** The two shapes of a successful update. *)
Lemma updAt_Some f segs m m' :
  updAt f segs m = Some m' →
  (∃ leaf v v', segs = [leaf] ∧ objGet leaf m = Some v ∧ f v = Some v' ∧ m' = objSet leaf v' m) ∨
  (∃ seg rest child child', segs = seg :: rest ∧ rest ≠ [] ∧ objGet seg m = Some (JObject child) ∧
     updAt f rest child = Some child' ∧ m' = objSet seg (JObject child') m).
Proof.
  destruct segs as [|seg [|s2 rest]]; [done|..].
  - cbn. destruct (objGet seg m) as [v|] eqn:E; [|done]. destruct (f v) as [v'|] eqn:Ef; [|done].
    intros [= <-]. left. by exists seg, v, v'.
  - rewrite updAt_cons by done. destruct (objGet seg m) as [[| | | | |child]|] eqn:E; try done.
    destruct (updAt f (s2 :: rest) child) as [child'|] eqn:Eu; [|done].
    intros [= <-]. right. by exists seg, (s2 :: rest), child, child'.
Qed.

Lemma updAt_leaf f leaf m v v' :
  objGet leaf m = Some v → f v = Some v' → updAt f [leaf] m = Some (objSet leaf v' m).
Proof. intros Hg Hf. cbn. by rewrite Hg, Hf. Qed.

Lemma updAt_nested f seg rest m child child' :
  rest ≠ [] → objGet seg m = Some (JObject child) → updAt f rest child = Some child' →
  updAt f (seg :: rest) m = Some (objSet seg (JObject child') m).
Proof. intros Hr Hg Hu. by rewrite updAt_cons, Hg, Hu. Qed.

Lemma updAt_canon f segs m m' :
  (∀ v v', canon v → f v = Some v' → canon v') →
  canon (JObject m) → updAt f segs m = Some m' → canon (JObject m').
Proof.
  intros Hf. revert m m'. induction segs as [|seg rest IH]; intros m m' Hm Hu; [done|].
  apply updAt_Some in Hu as [(leaf & v & v' & _ & Hg & Hv & ->)|(? & ? & child & child' & [= <- <-] & _ & Hg & Hu & ->)];
    destruct (canon_get _ _ _ Hm Hg); apply canon_set; eauto.
Qed.

Lemma updAt_wf f segs d m m' :
  (∀ d v v', wf d v → f v = Some v' → wf d v') →
  wf d (JObject m) → updAt f segs m = Some m' → wf d (JObject m').
Proof.
  intros Hf. revert d m m'. induction segs as [|seg rest IH]; intros d m m' Hm Hu; [done|].
  apply updAt_Some in Hu as [(leaf & v & v' & _ & Hg & Hv & ->)|(? & ? & child & child' & [= <- <-] & _ & Hg & Hu & ->)];
    destruct (wf_get _ _ _ _ Hm Hg); apply wf_set; eauto.
Qed.

Lemma updAt_utf8 f segs m m' : canon (JObject m) → updAt f segs m = Some m' → Forall utf8 segs.
Proof.
  revert m m'. induction segs as [|seg rest IH]; intros m m' Hm Hu; [done|].
  apply updAt_Some in Hu as [(leaf & v & v' & [= -> ->] & Hg & _)|(? & ? & child & child' & [= <- <-] & _ & Hg & Hu & _)];
    destruct (canon_get _ _ _ Hm Hg); constructor; eauto.
Qed.

(** An update that another one undoes. *)
Lemma updAt_inverse f g segs d m m' :
  (∀ d v v', 0 ≤ d → wf d v → f v = Some v' → g v' = Some v) →
  0 ≤ d → wf d (JObject m) → updAt f segs m = Some m' → updAt g segs m' = Some m.
Proof.
  intros Hfg. revert d m m'. induction segs as [|seg rest IH]; intros d m m' Hd Hm Hu; [done|].
  pose proof (canon_sorted m (ex_intro _ d Hm)) as Hs.
  apply updAt_Some in Hu as [(leaf & v & v' & [= -> ->] & Hg & Hv & ->)|(? & ? & child & child' & [= <- <-] & Hr & Hg & Hu & ->)];
    destruct (wf_get _ _ _ _ Hm Hg).
  - rewrite (updAt_leaf g leaf _ v' v); [|by rewrite objGet_set, decide_True|eapply (Hfg (d + 1)); eauto; lia].
    by rewrite objSet_set, objSet_id.
  - rewrite (updAt_nested g seg rest _ child' child); [|done|by rewrite objGet_set, decide_True|eapply (IH (d + 1)); eauto; lia].
    by rewrite objSet_set, objSet_id.
Qed.

(** Updates of different paths of the same length commute. *)
Lemma updAt_comm f g s1 s2 m m1 m2 :
  length s1 = length s2 → s1 ≠ s2 → canon (JObject m) →
  updAt f s1 m = Some m1 → updAt g s2 m1 = Some m2 →
  ∃ m1', updAt g s2 m = Some m1' ∧ updAt f s1 m1' = Some m2.
Proof.
  revert s2 m m1 m2. induction s1 as [|a s1 IH]; intros [|b s2] m m1 m2 Hl Hne Hm H1 H2; try done.
  injection Hl as Hl. pose proof (canon_sorted m Hm) as Hs.
  apply updAt_Some in H1 as [(? & v & v' & [= <- ->] & Hg1 & Hv1 & ->)|(? & ? & c & c' & [= <- <-] & Hr1 & Hg1 & Hu1 & ->)];
  apply updAt_Some in H2 as [(? & w & w' & [= <- ->] & Hg2 & Hv2 & ->)|(? & ? & e & e' & [= <- <-] & Hr2 & Hg2 & Hu2 & ->)];
    rewrite objGet_set in Hg2; try (by destruct s1); try (by destruct s2).
  - assert (b ≠ a) as Hab by congruence. rewrite decide_False in Hg2 by done.
    eexists. split; [by eapply updAt_leaf|]. rewrite objSet_comm by done.
    apply (updAt_leaf f a _ v); [by rewrite objGet_set, decide_False|done].
  - destruct (decide (b = a)) as [->|Hab].
    + injection Hg2 as ->. assert (s1 ≠ s2) as Hne' by congruence.
      destruct (canon_get _ _ _ Hm Hg1) as [Hc _].
      destruct (IH s2 c e e' Hl Hne' Hc Hu1 Hu2) as (c1 & Hc1 & Hc2).
      eexists. split; [by eapply updAt_nested|]. rewrite objSet_set by done.
      erewrite updAt_nested; [|done|by rewrite objGet_set, decide_True|done]. by rewrite objSet_set.
    + eexists. split; [by eapply updAt_nested|]. rewrite objSet_comm by done.
      eapply (updAt_nested f a s1 _ c); [done|by rewrite objGet_set, decide_False|done].
Qed.

(** An update leaves the paths that are no longer than its own in place. *)
Lemma updAt_present f segs s m m' :
  (length s ≤ length segs)%nat → updAt f segs m = Some m' → is_Some (getAt s m') ↔ is_Some (getAt s m).
Proof.
  revert s m m'. induction segs as [|a segs IH]; intros s m m' Hl Hu; [done|].
  destruct s as [|b s]; [done|]. cbn [length] in Hl.
  assert (∀ x y, objGet a m = Some x → m' = objSet a y m →
    (match s with [] => True | _ => ∃ c c', x = JObject c ∧ y = JObject c' ∧
       (is_Some (getAt s c') ↔ is_Some (getAt s c)) end) →
    is_Some (getAt (b :: s) m') ↔ is_Some (getAt (b :: s) m)) as Hgen.
  { intros x y Hx -> Hs. destruct (decide (b = a)) as [->|Hne].
    - destruct s as [|s1 s]; cbn [getAt]; rewrite objGet_set, decide_True, Hx by done; [by split|].
      destruct Hs as (c & c' & -> & -> & Hs). exact Hs.
    - destruct s as [|s1 s]; cbn [getAt]; by rewrite objGet_set, decide_False. }
  apply updAt_Some in Hu as [(? & v & v' & [= <- ->] & Hg & _ & ->)|(? & ? & c & c' & [= <- <-] & Hr & Hg & Hu & ->)].
  - eapply Hgen; [done..|]. destruct s; [done|]. cbn in Hl. lia.
  - eapply Hgen; [done..|]. destruct s; [done|]. exists c, c'. split; [done|]. split; [done|]. apply IH; [lia|done].
Qed.

(** ** Paths *)

Lemma splitDots_cons s : ∃ x l, splitDots s = x :: l.
Proof.
  destruct s as [|c s]; cbn; [eauto|]. destruct (splitDots s) as [|x l]; [eauto|]. destruct (Ascii.eqb c "."); eauto.
Qed.

Lemma splitDots_nonempty s : splitDots s ≠ [].
Proof. by destruct (splitDots_cons s) as (x & l & ->). Qed.

Lemma splitDots_depth s : Z.of_nat (length (splitDots s)) = fieldDepth s.
Proof.
  induction s as [|c s IH]; [done|]. cbn. destruct (splitDots_cons s) as (x & l & E). rewrite E in IH |- *.
  destruct (Ascii.eqb c "."); cbn [length] in *; lia.
Qed.

(** The segments, joined, are the path. *)
Lemma splitDots_join s : String.concat "." (splitDots s) = s.
Proof.
  induction s as [|c s IH]; [done|]. cbn. destruct (splitDots_cons s) as (x & l & E). rewrite E in IH |- *.
  destruct (Ascii.eqb_spec c ".") as [->|_].
  - change (String.concat "." ("" :: x :: l)) with ("" +:+ "." +:+ String.concat "." (x :: l)). by rewrite IH.
  - destruct l as [|y l]; cbn [String.concat] in *; rewrite <- IH; by rewrite ?app_String.
Qed.

Lemma splitDots_inj s t : splitDots s = splitDots t → s = t.
Proof. intros E. by rewrite <- (splitDots_join s), E, splitDots_join. Qed.

Lemma splitDots_utf8 s : Forall utf8 (splitDots s) → utf8 s.
Proof.
  intros H. rewrite <- (splitDots_join s). induction H as [|x l Hx Hl IH]; [constructor|].
  destruct l as [|y l]; [done|]. change (String.concat "." (x :: y :: l)) with (x +:+ "." +:+ String.concat "." (y :: l)).
  apply utf8_app; [done|]. apply utf8_app; [by apply utf8_one|done].
Qed.

Definition present (p : string) (m : object) : Prop := is_Some (getAt (splitDots p) m).

#[export] Instance present_dec p m : Decision (present p m).
Proof. unfold present. apply _. Defined.

(** ** Orders *)

Definition deeper (x y : string) : Prop := fieldDepth y ≤ fieldDepth x.
Definition shallower (x y : string) : Prop := fieldDepth x ≤ fieldDepth y.

Lemma fieldDepth_pos s : 1 ≤ fieldDepth s.
Proof. rewrite <- splitDots_depth. destruct (splitDots_cons s) as (x & l & ->). cbn. lia. Qed.

Lemma flat_depth l : existsb nested l = false → Forall (λ p, fieldDepth p = 1) l.
Proof.
  intros H. apply Forall_forall. intros p Hp. destruct (nested p) eqn:E.
  - exfalso. assert (existsb nested l = true) as Ht; [|congruence]. apply existsb_exists. exists p.
    split; [by apply list_elem_of_In|done].
  - unfold nested in E. zbool. pose proof (fieldDepth_pos p). lia.
Qed.

Lemma flat_sorted (R : string → string → Prop) l :
  (∀ x y, fieldDepth x = 1 → fieldDepth y = 1 → R x y) → Forall (λ p, fieldDepth p = 1) l → StronglySorted R l.
Proof.
  intros HR. induction 1 as [|x l Hx Hl IH]; constructor; [done|]. eapply Forall_impl; [exact Hl|]. auto.
Qed.

Lemma orderByDepth_perm l b : orderByDepth l b ≡ₚ l.
Proof. unfold orderByDepth. destruct (negb _); [done|]. apply stableSort_perm. Qed.

Lemma StronglySorted_weaken {A} (R S : A → A → Prop) (l : list A) :
  (∀ x y, R x y → S x y) → StronglySorted R l → StronglySorted S l.
Proof. intros H. induction 1; constructor; [done|]. eapply Forall_impl; eauto. Qed.

Lemma orderByDepth_deeper l : StronglySorted deeper (orderByDepth l true).
Proof.
  unfold orderByDepth. destruct (existsb nested l) eqn:E; cbn [negb].
  - eapply StronglySorted_weaken; [|apply stableSort_sorted]; unfold deeper.
    + intros x y. cbn. intros H. zbool. lia.
    + split; intros *; rewrite ?Z.ltb_lt, ?Z.ltb_ge; lia.
  - apply flat_sorted; [unfold deeper; lia|by apply flat_depth].
Qed.

Lemma orderByDepth_shallower l : StronglySorted shallower (orderByDepth l false).
Proof.
  unfold orderByDepth. destruct (existsb nested l) eqn:E; cbn [negb].
  - eapply StronglySorted_weaken; [|apply stableSort_sorted, weak_order_key]; unfold shallower.
    intros x y. cbn. intros H. zbool. lia.
  - apply flat_sorted; [unfold shallower; lia|by apply flat_depth].
Qed.

(** * Field encryption: properties *)

(** ** Sealing as an update *)

Lemma wf_numbersValid d v : wf d v → numbersValid v = true.
Proof.
  revert d. induction v as [|b|n|s|l IH|m IH] using json_ind'; intros d Hw; try done;
    inversion Hw as [| |? ? [Hn _]| |? ? _ Hl|? ? _ _ _ Hm]; subst; cbn.
  - by rewrite Hn, orb_true_r.
  - apply forallb_forall. intros x Hx%list_elem_of_In. rewrite Forall_forall in IH. rewrite Forall_forall in Hl.
    eapply IH; [done|]. by apply Hl.
  - apply forallb_forall. intros [k x] Hx%list_elem_of_In. rewrite Forall_forall in IH. rewrite Forall_forall in Hm.
    apply (IH (k, x) Hx (d + 1)). by apply (Hm (k, x)).
Qed.

Lemma Marshal_wf d v : wf d v → Marshal v = Some (print v).
Proof. intros Hw. unfold Marshal. by rewrite (wf_numbersValid d). Qed.

Lemma Marshal_canon v : canon v → Marshal v = Some (print v).
Proof. intros [d Hd]. by eapply Marshal_wf. Qed.

Section Sealing.
Context `{AEADLaws}.

Definition sealValue (aad key nonce : string) (v : json) : option json :=
  Some (JString (base64Encode (nonce +:+ gcm_Seal key nonce (print v) aad))).

Definition unsealValue (streamID fullPath leaf key : string) (v : json) : option json :=
  match v with
  | JString encoded =>
      match base64Decode encoded with
      | Some ciphertext =>
          match decryptFieldValue key ciphertext streamID fullPath leaf with
          | Ok plaintext => decode plaintext
          | Err _ => None
          end
      | None => None
      end
  | _ => None
  end.

Lemma base64Encode_utf8 s : utf8 (base64Encode s).
Proof.
  assert (∀ z r, 0 ≤ z < 64 → utf8 r → utf8 (String (sextet z) r)) as Hs.
  { intros z r Hz Hr. apply (utf8_cons (String (sextet z) "")); [|done]. unfold is_rune. cbn [nextRune].
    destruct (Z.ltb_spec (byteZ (sextet z)) 128) as [|Hlt]; [done|exfalso].
    unfold sextet in Hlt. destruct (Z.ltb_spec z 26); [|destruct (Z.ltb_spec z 52); [|destruct (Z.ltb_spec z 62);
      [|destruct (Z.eqb_spec z 62)]]]; rewrite byteZ_byteOf in Hlt by lia; lia. }
  assert (∀ r, utf8 r → utf8 (String padding r)) as Hp by (intros r; by apply (utf8_cons (String padding ""))).
  induction s as [|a|a b|a b c r IH] using string_ind3; [constructor|..]; cbn [base64Encode];
    pose proof (byteZ_range a); try pose proof (byteZ_range b); try pose proof (byteZ_range c);
    repeat (apply Hs; [Z.to_euclidean_division_equations; lia|]); auto; repeat apply Hp; constructor.
Qed.

Lemma sealValue_wf aad key nonce d v v' : wf d v → sealValue aad key nonce v = Some v' → wf d v'.
Proof. intros _ [= <-]. constructor. apply base64Encode_utf8. Qed.

Lemma unsealValue_canon streamID fullPath leaf key v v' :
  canon v → unsealValue streamID fullPath leaf key v = Some v' → canon v'.
Proof.
  intros _. unfold unsealValue. intros Hu. repeat case_match; try done. exists 0. by eapply decode_wf.
Qed.

(** A field opens under the additional data it was sealed with. *)
Lemma unsealValue_sealValue streamID fullPath leaf key nonce d v v' :
  validKeySize key = true → String.length nonce = nonceSize → 0 ≤ d → wf d v →
  sealValue (fieldAAD streamID fullPath) key nonce v = Some v' →
  unsealValue streamID fullPath leaf key v' = Some v.
Proof.
  intros Hk Hn Hd Hv [= <-]. unfold unsealValue. rewrite base64_roundtrip.
  unfold decryptFieldValue, candidateAADs. cbn [tryAADs]. rewrite bool_decide_false by apply not_elem_of_nil.
  rewrite AESGCM_open by done. rewrite bool_decide_true by done. apply decode_print. by eapply wf_le.
Qed.

Lemma getAt_cons seg rest m :
  rest ≠ [] →
  getAt (seg :: rest) m = match objGet seg m with Some (JObject child) => getAt rest child | _ => None end.
Proof. by destruct rest. Qed.

Lemma sealAt_spec aad key nonce segs data b data' :
  validKeySize key = true → segs ≠ [] → canon (JObject data) → sealAt aad key nonce segs data = Ok (b, data') →
  if b then updAt (sealValue aad key nonce) segs data = Some data'
  else data' = data ∧ getAt segs data = None.
Proof.
  intros Hk. revert data b data'. induction segs as [|seg rest IH]; intros data b data' Hne Hc Hs; [done|].
  pose proof (canon_sorted _ Hc) as Hsort.
  destruct (decide (rest = [])) as [->|Hr].
  - cbn in Hs |- *. destruct (objGet seg data) as [v|] eqn:E; [|by injection Hs as <- <-].
    destruct (canon_get _ _ _ Hc E) as [Hv _]. rewrite Marshal_canon in Hs by done.
    unfold AESGCMEncrypt in Hs. rewrite Hk in Hs. by injection Hs as <- <-.
  - assert (sealAt aad key nonce (seg :: rest) data =
      match objGet seg data with
      | None | Some JNull => Ok (false, data)
      | Some (JObject child) =>
          match sealAt aad key nonce rest child with
          | Err err => Err err
          | Ok (sealed, child) => Ok (sealed, objSet seg (JObject child) data)
          end
      | Some _ => Err (Errorf "parent %q of encrypted field %q holds a %T, not a JSON object (the field configuration does not match the event's shape)")
      end) as E by (by destruct rest).
    rewrite E in Hs. clear E. rewrite updAt_cons, getAt_cons by done.
    destruct (objGet seg data) as [[| | | | |child]|] eqn:E; try done; try (by injection Hs as <- <-).
    destruct (canon_get _ _ _ Hc E) as [Hch _].
    destruct (sealAt aad key nonce rest child) as [[b' child']|] eqn:Es; [|done]. injection Hs as <- <-.
    specialize (IH child b' child' Hr Hch Es). destruct b'; [by rewrite IH|].
    destruct IH as [-> ->]. split; [by apply objSet_id|done].
Qed.

Lemma unsealAt_spec streamID fullPath key segs data r :
  updAt (unsealValue streamID fullPath (List.last segs "") key) segs data = Some r →
  unsealAt streamID fullPath key segs data = Ok r.
Proof.
  revert data r. induction segs as [|seg rest IH]; intros data r Hu; [done|].
  destruct (decide (rest = [])) as [->|Hr].
  - cbn [updAt unsealAt List.last] in Hu |- *. destruct (objGet seg data) as [v|]; [|done]. unfold unsealValue in Hu.
    destruct v as [| | |encoded| |]; try done. destruct (base64Decode encoded) as [ct|]; [|done].
    destruct (decryptFieldValue key ct streamID fullPath seg) as [pt|]; [|done]. destruct (decode pt); [|done].
    by injection Hu as <-.
  - assert (List.last (seg :: rest) "" = List.last rest "") as El by (by destruct rest).
    rewrite El, updAt_cons in Hu by done. destruct (objGet seg data) as [[| | | | |child]|] eqn:E; try done.
    destruct (updAt _ rest child) as [child'|] eqn:Ec; [|done]. injection Hu as <-. apply IH in Ec.
    destruct rest as [|s2 rest]; [done|].
    change (unsealAt streamID fullPath key (seg :: s2 :: rest) data) with
      (match objGet seg data with
       | Some (JObject child) =>
           match unsealAt streamID fullPath key (s2 :: rest) child with
           | Err err => Err err
           | Ok child => Ok (objSet seg (JObject child) data)
           end
       | _ => Err tamperedFieldError
       end). by rewrite E, Ec.
Qed.

(** ** Many fields *)

Definition openPath (streamID key p : string) : object → option object :=
  updAt (unsealValue streamID p (List.last (splitDots p) "") key) (splitDots p).

Fixpoint openPaths (streamID key : string) (paths : list string) (m : object) : option object :=
  match paths with
  | [] => Some m
  | p :: paths => match openPath streamID key p m with Some m => openPaths streamID key paths m | None => None end
  end.

Lemma openPaths_unseal streamID key keyID paths m r :
  openPaths streamID key paths m = Some r → unsealFields streamID key keyID paths m = Ok r.
Proof.
  revert m. induction paths as [|p paths IH]; intros m; cbn; [by intros [= ->]|].
  destruct (openPath streamID key p m) as [m1|] eqn:E; [|done]. intros Hr.
  unfold decryptJSONField. by rewrite (unsealAt_spec _ _ _ _ _ _ E), (IH m1).
Qed.

(** Paths of one depth are opened in any order. *)
Lemma openPaths_move streamID key p l l' m r :
  canon (JObject m) → Forall (λ q, fieldDepth q = fieldDepth p ∧ q ≠ p) l →
  openPaths streamID key (p :: l ++ l') m = Some r → openPaths streamID key (l ++ p :: l') m = Some r.
Proof.
  revert m. induction l as [|q l IH]; intros m Hm Hl Ho; [done|]. apply Forall_cons in Hl as [[Hd Hne] Hl].
  cbn [app openPaths] in Ho |- *.
  destruct (openPath streamID key p m) as [m1|] eqn:E1; [|done].
  destruct (openPath streamID key q m1) as [m2|] eqn:E2; [|done].
  assert (length (splitDots p) = length (splitDots q)) as Hlen
    by (pose proof (splitDots_depth p); pose proof (splitDots_depth q); lia).
  assert (splitDots p ≠ splitDots q) as Hsp by (intros E%splitDots_inj; congruence).
  destruct (updAt_comm _ _ _ _ _ _ _ Hlen Hsp Hm E1 E2) as (m1' & Hq & Hp).
  change (openPath streamID key q m = Some m1') in Hq. change (openPath streamID key p m1' = Some m2) in Hp.
  rewrite Hq. apply IH; [|done|by cbn; rewrite Hp].
  eapply updAt_canon; [|exact Hm|exact Hq]. intros v v'. apply unsealValue_canon.
Qed.

(** What sealing paths one after the other makes of an object. *)
Inductive sealedBy (streamID key : string) (m : object) : list string → object → Prop :=
| sealed_none : sealedBy streamID key m [] m
| sealed_snoc paths p nonce m1 m2 :
    sealedBy streamID key m paths m1 → String.length nonce = nonceSize →
    updAt (sealValue (fieldAAD streamID p) key nonce) (splitDots p) m1 = Some m2 →
    sealedBy streamID key m (paths ++ [p]) m2.

Lemma sealedBy_wf streamID key m paths m' d :
  sealedBy streamID key m paths m' → wf d (JObject m) → wf d (JObject m').
Proof.
  induction 1 as [|paths p nonce m1 m2 _ IH _ Hu]; [done|]. intros Hw.
  eapply updAt_wf; [|by apply IH|exact Hu]. intros d' v v'. apply sealValue_wf.
Qed.

Lemma sealedBy_utf8 streamID key m paths m' :
  sealedBy streamID key m paths m' → wf 0 (JObject m) → Forall utf8 paths.
Proof.
  induction 1 as [|paths p nonce m1 m2 Hs IH _ Hu]; [constructor|]. intros Hw. apply Forall_app_2; [by apply IH|].
  repeat constructor. apply splitDots_utf8. eapply updAt_utf8; [|exact Hu]. exists 0. by eapply sealedBy_wf.
Qed.

(** Sealed deepest first, opened shallowest first: the object is back. *)
Lemma sealedBy_open streamID key m paths m' order :
  validKeySize key = true → wf 0 (JObject m) →
  sealedBy streamID key m paths m' → StronglySorted deeper paths → NoDup paths →
  order ≡ₚ paths → StronglySorted shallower order → openPaths streamID key order m' = Some m.
Proof.
  intros Hk Hw Hs. revert order. induction Hs as [|paths p nonce m1 m2 Hs IH Hn Hu]; intros order Hd Hnd Hperm Hsh.
  { by apply Permutation_nil_r in Hperm as ->. }
  assert (p ∈ order) as Hp by (rewrite Hperm; set_solver).
  apply list_elem_of_split in Hp as (l & l' & ->).
  assert (l ++ l' ≡ₚ paths) as Hperm'.
  { apply (Permutation_cons_inv (a:=p)). rewrite Permutation_middle, Hperm. by rewrite Permutation_app_comm. }
  apply NoDup_app in Hnd as (Hnd & Hdisj & _). rewrite StronglySorted_app in Hd. destruct Hd as (Hdeep & Hd & _).
  pose proof (sealedBy_wf _ _ _ _ _ _ Hs Hw) as Hw1.
  apply openPaths_move.
  - exists 0. eapply updAt_wf; [|exact Hw1|exact Hu]. intros d v v'. apply sealValue_wf.
  - apply Forall_forall. intros q Hq.
    assert (q ∈ paths) as Hqp by (rewrite <- Hperm'; set_solver). split.
    + apply Z.le_antisymm.
      * rewrite StronglySorted_app in Hsh. destruct Hsh as (Hsh & _). apply (Hsh q p); set_solver.
      * apply (Hdeep q p); set_solver.
    + intros ->. apply (Hdisj p Hqp). set_solver.
  - cbn [openPaths].
    assert (openPath streamID key p m2 = Some m1) as ->.
    { unfold openPath. eapply (updAt_inverse _ _ _ 0 m1 m2); [|done|done|exact Hu].
      intros d v v'. intros Hd0 Hv. by eapply unsealValue_sealValue. }
    apply IH; [done|done|done|]. rewrite StronglySorted_app in Hsh. destruct Hsh as (Hc & H1 & H2).
    apply StronglySorted_cons in H2 as [_ H2]. rewrite StronglySorted_app. split; [|done].
    intros x y Hx Hy. apply Hc; set_solver.
Qed.
(** The loop seals exactly the fields that are present, in its order. *)
Lemma sealFields_spec streamID key keyID nonces m i paths data names data' names' :
  validKeySize key = true → (∀ n, String.length (nonces n) = nonceSize) → wf 0 (JObject m) →
  StronglySorted deeper paths → (∀ p, p ∈ paths → present p data ↔ present p m) →
  sealedBy streamID key m names data →
  sealFields streamID key keyID nonces i paths data names = Ok (data', names') →
  names' = names ++ filter (λ p, present p m) paths ∧ sealedBy streamID key m names' data'.
Proof.
  intros Hk Hn Hw. revert i data names. induction paths as [|p paths IH]; intros i data names Hd Hp Hs; cbn [sealFields].
  { intros [= <- <-]. by rewrite filter_nil, app_nil_r. }
  destruct (encryptJSONField data p streamID key (nonces i)) as [[b data1]|] eqn:E; [|done].
  assert (canon (JObject data)) as Hc by (exists 0; by eapply sealedBy_wf).
  apply StronglySorted_cons in Hd as [Hdp Hd].
  apply sealAt_spec in E; [|done|apply splitDots_nonempty|done]. destruct b.
  - assert (∀ q, q ∈ p :: paths → present q data1 ↔ present q m) as Hp1.
    { intros q Hq. rewrite <- (Hp q) by done. eapply updAt_present; [|exact E].
      pose proof (splitDots_depth p). pose proof (splitDots_depth q).
      apply elem_of_cons in Hq as [->|Hq]; [lia|]. rewrite Forall_forall in Hdp. specialize (Hdp q Hq).
      unfold deeper in Hdp. lia. }
    intros Hx. apply IH in Hx as [-> Hx]; [|done|intros q Hq; apply Hp1; by right|by econstructor].
    rewrite <- app_assoc in Hx |- *. rewrite filter_cons_True; [by split|].
    apply Hp1; [by left|]. unfold present. apply (updAt_present _ _ _ _ _ (le_n _)) in E as Ei. apply Ei.
    destruct (getAt (splitDots p) data) eqn:Eg; [done|exfalso]. clear -E Eg.
    revert data data1 E Eg. induction (splitDots p) as [|s l IHl]; intros data data1 E Eg; [done|].
    apply updAt_Some in E as [(? & v & v' & [= <- ->] & Hg & _)|(? & ? & c & c' & [= <- <-] & Hr & Hg & Hu & _)].
    + cbn in Eg. congruence.
    + rewrite getAt_cons, Hg in Eg by done. eauto.
  - destruct E as [-> Eg]. intros Hx.
    rewrite filter_cons_False by (rewrite <- Hp by (by left); unfold present; rewrite Eg; by intros []).
    apply IH in Hx; [done|done| |done]. intros q Hq. apply Hp. by right.
Qed.
End Sealing.

(** ** Configurations *)

Lemma NoDup_addFields l l' : NoDup l → NoDup (addFields l l').
Proof.
  unfold addFields. revert l. induction l' as [|f l' IH]; intros l Hl; [done|]. cbn [foldl]. apply IH.
  case_bool_decide; [done|]. apply NoDup_app. split; [done|]. split; [|apply NoDup_singleton]. set_solver.
Qed.

Lemma NewFieldEncryptionConfig_NoDup opts t : NoDup (fieldsOf (NewFieldEncryptionConfig opts) t).
Proof.
  unfold NewFieldEncryptionConfig.
  assert (∀ c t, fieldsOf (finalize c) t = fieldsOf c t) as -> by done.
  assert (∀ c, (∀ t, NoDup (fieldsOf c t)) → ∀ t, NoDup (fieldsOf (foldl applyOption c opts) t)) as Hg.
  { induction opts as [|o opts IH]; intros c Hc; [done|]. cbn [foldl]. apply IH. clear t. intros t.
    destruct c as [pr fs so dk tr oe rk ce], o; try exact (Hc t). cbn [applyOption]. unfold fieldsOf. cbn.
    destruct (decide (eventType = t)) as [->|]; [rewrite lookup_insert_eq|rewrite lookup_insert_ne by done; exact (Hc t)].
    apply NoDup_addFields, (Hc t). }
  apply Hg. intros t'. unfold fieldsOf. cbn. rewrite lookup_empty. constructor.
Qed.

Lemma sealPaths_order opts t :
  let c := NewFieldEncryptionConfig opts in sealPaths c t = orderByDepth (fieldsOf c t) true.
Proof.
  cbn zeta. unfold NewFieldEncryptionConfig. set (c := foldl _ _ _). unfold sealPaths, fieldsOf. cbn [fe_sealOrder fe_fields finalize].
  rewrite map_lookup_imap. destruct (fe_fields c !! t) as [l|]; cbn; [|done].
  destruct (existsb nested l) eqn:E; [done|]. unfold orderByDepth. by rewrite E.
Qed.

Lemma selectKeyID_nonempty c t md keyID : selectKeyID c t md = Ok keyID → keyID ≠ "".
Proof. unfold selectKeyID. intros H. repeat case_match; simplify_eq; zbool; done. Qed.

Lemma bytes_string s : bytesToString (stringToBytes s) = s.
Proof. unfold bytesToString, stringToBytes. apply String.string_of_list_byte_of_string. Qed.

Lemma decodeObject_wf d m : decodeObject d = Some m → wf 0 (JObject m).
Proof.
  unfold decodeObject. destruct (decode (bytesToString d)) as [v|] eqn:E; [|done]. apply decode_wf in E.
  destruct v; try done; intros [= <-]; [|done]. constructor; by constructor.
Qed.

Lemma decodeObject_print m : wf 0 (JObject m) → decodeObject (stringToBytes (print (JObject m))) = Some m.
Proof. intros Hw. unfold decodeObject. by rewrite bytes_string, decode_print. Qed.

Lemma StronglySorted_filter {A} (R : A → A → Prop) (P : A → Prop) `{∀ x, Decision (P x)} (l : list A) :
  StronglySorted R l → StronglySorted R (filter P l).
Proof.
  induction 1 as [|x l Hl IH Hx]; [constructor|]. rewrite filter_cons. case_decide; [|done]. constructor; [done|].
  rewrite Forall_forall in Hx |- *. intros y [_ Hy]%list_elem_of_filter. by apply Hx.
Qed.

(** ** The envelope *)

Lemma stampEnvelope_fields md names dk : Forall utf8 names → GetEncryptedFields (stampEnvelope md names dk) = names.
Proof.
  intros Hn. unfold GetEncryptedFields, stampEnvelope. rewrite !custom_lookup_WithCustom.
  cbn [decide]. repeat (rewrite decide_False by done). rewrite decide_True by done.
  by rewrite UnmarshalStrings_Marshal.
Qed.

Lemma stampEnvelope_lookups md names dk :
  IsEncrypted (stampEnvelope md names dk) = true ∧
  GetEncryptionKeyID (stampEnvelope md names dk) = dk_KeyID dk ∧
  custom_lookup (stampEnvelope md names dk) encryptedDEKKey = Some (base64Encode (dk_Ciphertext dk)) ∧
  GetEncryptionAlgorithm (stampEnvelope md names dk) = encryptionAlgorithm.
Proof.
  unfold IsEncrypted, GetEncryptionKeyID, GetEncryptionAlgorithm, stampEnvelope. rewrite !custom_lookup_WithCustom.
  repeat split; try (repeat (rewrite decide_False by done); by rewrite ?decide_True by done).
Qed.

Lemma base64Encode_nonempty s : s ≠ "" → base64Encode s ≠ "".
Proof. by destruct s as [|a [|b [|c s]]]. Qed.

Section Theorems.
Context `{AEADLaws}.

(** What a sealed event holds: the fields of its envelope, and a payload that
    any provider which unwraps its data key turns back into the object. *)
Definition sealedEvent `{ProviderOps P} (c : FieldEncryptionConfig) (streamID eventType : string) (m : object)
    (fields : list string) (p1 : P) (now : Time) (data' : Bytes) (md' : Metadata) : Prop :=
  GetEncryptedFields md' = fields ∧ HasEncryptionEnvelope md' = true ∧
  ∃ ct dek m', base64Decode (default "" (custom_lookup md' encryptedDEKKey)) = Some ct ∧
    decodeObject data' = Some m' ∧ sealedBy streamID dek m fields m' ∧
    unwraps now p1 (GetEncryptionKeyID md') ct dek ∧
    ∀ now' q, unwraps now' q (GetEncryptionKeyID md') ct dek →
      (decryptFields now' c streamID eventType data' md' q).2 = Ok (stringToBytes (print (JObject m))).

Lemma sealEvent_sound `{ProviderOps P} opts ent streamID eventType keyID data md dk data' md' now (p1 : P) m :
  let c := NewFieldEncryptionConfig opts in
  let sealed := filter (λ f, present f m) (sealPaths c eventType) in
  fe_hasProvider c = true → entropy_ok ent → decodeObject data = Some m →
  String.length (dk_Plaintext dk) = 32%nat → dk_KeyID dk ≠ "" → dk_Ciphertext dk ≠ "" →
  unwraps now p1 (dk_KeyID dk) (dk_Ciphertext dk) (dk_Plaintext dk) →
  sealEvent ent streamID keyID (sealPaths c eventType) data md dk = Ok (data', md') →
  match sealed with
  | [] => data' = data ∧ md' = md
  | _ => sealedEvent c streamID eventType m sealed p1 now data' md' ∧ GetEncryptionKeyID md' = dk_KeyID dk
  end.
Proof.
  intros c sealed Hp (_ & _ & Hn) Hm Hk Hid Hct Hun. unfold sealEvent. rewrite Hm.
  pose proof (decodeObject_wf _ _ Hm) as Hw. apply validKeySize_32 in Hk.
  destruct (sealFields _ _ _ _ _ _ _ _) as [[m' names]|] eqn:Es; [|done].
  apply (sealFields_spec streamID (dk_Plaintext dk) keyID (ent_nonce ent) m) in Es; [|done|done|done| |done|constructor].
  2: { unfold c. rewrite sealPaths_order. apply orderByDepth_deeper. }
  destruct Es as [-> Hs]. cbn [app] in Hs |- *. fold sealed in Hs |- *.
  destruct sealed as [|f fs] eqn:Ef; [by intros [= <- <-]|]. rewrite <- Ef in *.
  pose proof (sealedBy_wf _ _ _ _ _ _ Hs Hw) as Hw'. rewrite (Marshal_wf 0) by done.
  pose proof (decodeObject_print m' Hw') as Hdec. generalize dependent (print (JObject m')). intros text Hdec [= <- <-].
  destruct (stampEnvelope_lookups md sealed dk) as (He & Hkid & Hdek & Halg).
  pose proof (stampEnvelope_fields md sealed dk (sealedBy_utf8 _ _ _ _ _ Hs Hw)) as Hf.
  split; [|done]. split; [done|]. split.
  { unfold HasEncryptionEnvelope. rewrite He, Hkid, Hdek. cbn [default andb].
    rewrite !bool_decide_false; [done| |done]. by apply base64Encode_nonempty. }
  exists (dk_Ciphertext dk), (dk_Plaintext dk), m'. rewrite Hdek, Hkid. cbn [default].
  split; [apply base64_roundtrip|]. split; [done|]. split; [done|]. split; [done|].
  intros now' q Hq. unfold decryptFields. rewrite He, Hp, Halg, Hdek, Hkid. cbn [negb from_option id andb].
  rewrite base64_roundtrip, (bool_decide_true (encryptionAlgorithm = encryptionAlgorithm)) by done.
  cbn [negb]. rewrite andb_false_r.
  unfold unwraps in Hq. destruct (DecryptDataKey now' _ _ q) as [q' r]. cbn in Hq. subst r. cbn [snd].
  unfold unsealEvent. rewrite Hf, Ef. rewrite <- Ef, Hdec.
  erewrite openPaths_unseal; [by rewrite (Marshal_wf 0)|].
  apply (sealedBy_open streamID (dk_Plaintext dk) m sealed); [done|done|done| | |apply orderByDepth_perm|apply orderByDepth_shallower].
  - unfold sealed, c. rewrite sealPaths_order. apply StronglySorted_filter, orderByDepth_deeper.
  - unfold sealed, c. apply NoDup_filter. rewrite sealPaths_order, orderByDepth_perm. apply NewFieldEncryptionConfig_NoDup.
Qed.

(** What a successful encryption went through. *)
Lemma encryptFields_Ok `{ProviderOps P} c now ent streamID eventType data md (p p1 : P) out :
  encryptFields now ent c streamID eventType data md p = (p1, Ok out) →
  (sealPaths c eventType = [] ∧ p1 = p ∧ out = (data, md)) ∨
  ∃ keyID dk, sealPaths c eventType ≠ [] ∧ fe_hasProvider c = true ∧ selectKeyID c eventType md = Ok keyID ∧
    GenerateDataKey now ent keyID p = (p1, Ok dk) ∧
    sealEvent ent streamID keyID (sealPaths c eventType) data md dk = Ok out.
Proof.
  unfold encryptFields. intros He. destruct (sealPaths c eventType) as [|f fs]; [left; by injection He as <- <-|].
  right. destruct (fe_configErr c !! eventType); [done|]. destruct (fe_hasProvider c); [|done]. cbn [negb] in He.
  destruct (selectKeyID c eventType md) as [keyID|]; [|done].
  destruct (GenerateDataKey now ent keyID p) as [p' [dk|]] eqn:Eg; [|done]. injection He as -> He.
  by exists keyID, dk.
Qed.

(** The envelope is stamped with the data key, or nothing changed. *)
Lemma sealEvent_Ok ent streamID keyID paths data md dk data' md' :
  sealEvent ent streamID keyID paths data md dk = Ok (data', md') →
  (data' = data ∧ md' = md) ∨ ∃ names, names ≠ [] ∧ md' = stampEnvelope md names dk.
Proof.
  unfold sealEvent. intros Hs. destruct (decodeObject data); [|done].
  destruct (sealFields _ _ _ _ _ _ _ _) as [[m' names]|]; [|done].
  destruct names as [|n names]; [left; by injection Hs as <- <-|]. destruct (Marshal _) as [text|]; [|done].
  right. exists (n :: names). split; [done|]. revert Hs. generalize (stampEnvelope md (n :: names) dk).
  by intros e [= _ <-].
Qed.

Lemma sealPaths_nil opts t :
  let c := NewFieldEncryptionConfig opts in sealPaths c t = [] → HasEncryptedFields c t = false.
Proof.
  intros c Ep. unfold HasEncryptedFields. pose proof (orderByDepth_perm (fieldsOf c t) true) as Hperm.
  unfold c in Hperm at 1. rewrite <- sealPaths_order in Hperm. fold c in Hperm. rewrite Ep in Hperm.
  apply Permutation_nil_l in Hperm. by rewrite <- Hperm.
Qed.

(** C29: sealing an event seals exactly its configured fields that are present,
    overlapping paths included, under the key its metadata selects, stamps a
    complete envelope, and loses nothing: whenever a provider unwraps the data
    key, decryption returns the same JSON object; an event without such a field
    is left as it is. *)
Theorem field_encryption_roundtrip `{ProviderLaws P} (opts : list EncryptionOption) (now : Time) (ent : Entropy)
    (streamID eventType : string) (data data' : Bytes) (md md' : Metadata) (p p1 : P) :
  let c := NewFieldEncryptionConfig opts in
  entropy_ok ent → encryptFields now ent c streamID eventType data md p = (p1, Ok (data', md')) →
  (HasEncryptedFields c eventType = false ∧ data' = data ∧ md' = md) ∨
  ∃ m, decodeObject data = Some m ∧ decodeObject (stringToBytes (print (JObject m))) = Some m ∧
    match filter (λ f, present f m) (sealPaths c eventType) with
    | [] => data' = data ∧ md' = md
    | sealed =>
        sealedEvent c streamID eventType m sealed p1 now data' md' ∧
        selectKeyID c eventType md = Ok (GetEncryptionKeyID md')
    end.
Proof.
  intros c He Henc. apply encryptFields_Ok in Henc as [(Ep & _ & [= -> ->])|(keyID & dk & _ & Hp & Ek & Eg & Henc)].
  { left. split; [by apply sealPaths_nil|done]. }
  right.
  destruct (generate_sound _ _ _ _ _ _ He Eg) as (Hlen & <- & Hct & Hun).
  assert (∃ m, decodeObject data = Some m) as [m Hm].
  { unfold sealEvent in Henc. destruct (decodeObject data); [by eexists|done]. }
  exists m. split; [done|]. split; [by apply decodeObject_print, (decodeObject_wf data)|].
  apply selectKeyID_nonempty in Ek as Hne.
  pose proof (sealEvent_sound opts ent streamID eventType _ data md dk data' md' now p1 m Hp He Hm Hlen Hne Hct Hun Henc) as Hs.
  cbn zeta in Hs. fold c in Hs. destruct (filter _ _); [done|]. destruct Hs as [Hs ->]. done.
Qed.

(** ** What a field is bound to *)

Definition nulFree (s : string) : Prop := ∀ c, c ∈ String.list_ascii_of_string s → c ≠ "000"%char.

Lemma tryAADs_sealed key nonce pt aad seen e candidates x :
  validKeySize key = true → String.length nonce = nonceSize → (e = None → seen = []) → candidates ≠ [] ∨ e ≠ None →
  aad ∉ seen →
  tryAADs key (nonce +:+ gcm_Seal key nonce pt aad) seen e candidates = Ok x ↔ x = pt ∧ aad ∈ candidates.
Proof.
  intros Hk Hn. revert seen e. induction candidates as [|a candidates IH]; intros seen e Hse Hc Hs; cbn [tryAADs].
  { destruct e; [|by destruct Hc]. split; [done|]. by intros [_ ?%not_elem_of_nil]. }
  case_bool_decide as Ha.
  - rewrite IH; [|done| |done].
    + rewrite elem_of_cons. split; [naive_solver|]. intros [-> [->|?]]; done.
    + right. intros ->. by rewrite Hse in Ha; [apply not_elem_of_nil in Ha|].
  - rewrite AESGCM_open by done. case_bool_decide as Haa.
    + subst. rewrite elem_of_cons. naive_solver.
    + rewrite IH; [rewrite elem_of_cons; naive_solver|by destruct e|right; by destruct e|set_solver].
Qed.

Lemma nul_split a b c d :
  nulFree a → nulFree c → a +:+ String "000" b = c +:+ String "000" d → a = c ∧ b = d.
Proof.
  unfold nulFree. revert c. induction a as [|x a IH]; intros [|y c] Ha Hc.
  - rewrite !app_Empty. by intros [= ->].
  - rewrite app_Empty, app_String. intros [= <- _]. exfalso. by apply (Hc "000"%char); [left|].
  - rewrite app_Empty, app_String. intros [= -> _]. exfalso. by apply (Ha "000"%char); [left|].
  - rewrite !app_String. intros [= -> E]. destruct (IH c) as [-> ->]; [..|done|done].
    + intros z Hz. apply Ha. by right.
    + intros z Hz. apply Hc. by right.
Qed.

(** A sealed field opens only where it was sealed: under the stream and
    path it is bound to, and nowhere in another stream; within its own stream
    the only other place that accepts it is a nested field whose last segment
    is its whole path, through the fallback for older events. *)
Theorem sealed_field_binding (key nonce pt s s' path path' leaf' x : string) :
  validKeySize key = true → String.length nonce = nonceSize → s ≠ "" → s' ≠ "" → nulFree s → nulFree s' →
  nulFree path' → nulFree leaf' →
  decryptFieldValue key (nonce +:+ gcm_Seal key nonce pt (fieldAAD s path)) s' path' leaf' = Ok x ↔
  x = pt ∧ s = s' ∧ (path = path' ∨ path = leaf').
Proof.
  intros Hk Hn Hs Hs' Hf Hf' Hp Hl. unfold decryptFieldValue.
  rewrite tryAADs_sealed; [|done|done|done|by left|apply not_elem_of_nil].
  assert (∀ y, nulFree y → fieldAAD s path ≠ y) as Hno.
  { intros y Hy E. apply (Hy "000"%char); [|done]. rewrite <- E. unfold fieldAAD. rewrite bool_decide_false by done.
    clear. induction s as [|c t IH]; [by left|]. rewrite app_String. by right. }
  assert (∀ y, fieldAAD s path = fieldAAD s' y ↔ s = s' ∧ path = y) as Hyes.
  { intros y. unfold fieldAAD. rewrite !bool_decide_false by done. split; [by apply nul_split|by intros [-> ->]]. }
  unfold candidateAADs. rewrite !elem_of_cons, !Hyes.
  pose proof (Hno path' Hp). pose proof (Hno leaf' Hl). pose proof (not_elem_of_nil (fieldAAD s path)). tauto.
Qed.
End Theorems.

(** ** Witnesses *)

Definition sampleFieldOptions : list EncryptionOption :=
  [WithEncryptionProvider; WithDefaultKeyID "tenant-a";
   WithEncryptedFields "UserRegistered" ["address"; "address.street"; "email"]].
Definition sampleEntropy : Entropy := mkEntropy sampleKey "123456789012" (λ _, "abcdefghijkl").
Definition sampleObject : object :=
  [("address", JObject [("street", JString "Main St")]); ("email", JString "a@b.c"); ("n", JNumber "9007199254740993")].
Definition samplePayload : Bytes := stringToBytes (print (JObject sampleObject)).

Definition sampleSealed : Provider * res (Bytes * Metadata) :=
  @encryptFields toyAEAD Provider (@localProvider toyAEAD) 5 sampleEntropy (NewFieldEncryptionConfig sampleFieldOptions)
    "User-1" "UserRegistered" samplePayload emptyMetadata sampleProvider.

(** Overlapping paths: the street is sealed, then the address that holds it. *)
Lemma field_encryption_roundtrip_witness :
  ∃ p1 data' md', sampleSealed = (p1, Ok (data', md')) ∧
    GetEncryptedFields md' = ["address.street"; "address"; "email"] ∧
    (@decryptFields toyAEAD Provider (@localProvider toyAEAD) 5 (NewFieldEncryptionConfig sampleFieldOptions)
       "User-1" "UserRegistered" data' md' p1).2 = Ok samplePayload.
Proof.
  assert (is_ok sampleSealed.2 = true) as Hok by (vm_compute; reflexivity).
  destruct sampleSealed as [p1 [[data' md']|]] eqn:E; [|discriminate Hok].
  exists p1, data', md'. split; [reflexivity|].
  destruct (@field_encryption_roundtrip toyAEAD toyAEAD_laws Provider (@localProvider toyAEAD)
    (@localProvider_laws toyAEAD toyAEAD_laws) sampleFieldOptions 5 sampleEntropy "User-1" "UserRegistered"
    samplePayload data' emptyMetadata md' sampleProvider p1) as [[Hn _]|(m & Hm & _ & Hs)]; [|exact E|vm_compute in Hn; discriminate Hn|].
  - split; [reflexivity|]. split; [reflexivity|]. intros n. reflexivity.
  - vm_compute in Hm. injection Hm as <-.
    match type of Hs with match ?l with _ => _ end =>
      assert (l = ["address.street"; "address"; "email"]) as Hl by (vm_compute; reflexivity) end.
    rewrite Hl in Hs. destruct Hs as [(Hf & _ & ct & dek & m' & _ & _ & _ & Hu & Hd) _].
    split; [exact Hf|]. exact (Hd 5 p1 Hu).
Defined.

(** A top-level field's ciphertext opens under a nested field of that name. *)
Lemma sealed_field_binding_witness :
  let ct := "123456789012" +:+ @gcm_Seal toyAEAD sampleKey "123456789012" "secret" (fieldAAD "User-1" "email") in
  @decryptFieldValue toyAEAD sampleKey ct "User-1" "contact.email" "email" = Ok "secret" ∧
  @decryptFieldValue toyAEAD sampleKey ct "User-2" "email" "email" ≠ Ok "secret".
Proof.
  assert (∀ s, forallb (λ c, negb (Ascii.eqb c "000")) (String.list_ascii_of_string s) = true → nulFree s) as Hnul.
  { intros s Hs c Hc ->. rewrite forallb_forall in Hs. specialize (Hs _ (proj1 (list_elem_of_In _ _) Hc)). done. }
  pose proof (Hnul "User-1" eq_refl) as N1. pose proof (Hnul "User-2" eq_refl) as N2.
  pose proof (Hnul "email" eq_refl) as N3. pose proof (Hnul "contact.email" eq_refl) as N4.
  split.
  - apply (proj2 (@sealed_field_binding toyAEAD toyAEAD_laws sampleKey "123456789012" "secret" "User-1" "User-1" "email"
      "contact.email" "email" "secret" eq_refl eq_refl ltac:(discriminate) ltac:(discriminate)
      N1 N1 N4 N3)). auto.
  - intros E. apply (proj1 (@sealed_field_binding toyAEAD toyAEAD_laws sampleKey "123456789012" "secret" "User-1" "User-2"
      "email" "email" "email" "secret" eq_refl eq_refl ltac:(discriminate) ltac:(discriminate)
      N1 N2 N3 N3)) in E as (_ & E & _). discriminate E.
Defined.
