(* ===== verification/MemoryAdapter.v ===== *)
(** * The in-memory event store: the event log

    [src/adapters/memory/memory.go] and [src/adapters/memory/rewrite.go]: the
    adapter's state, the append path with optimistic concurrency, the reads of
    the log, snapshots and checkpoints, and the well-formedness invariant of
    the log with its preservation.  The live subscriptions and the operations
    of the command-line tools are in [MemorySubscription] and [MemoryAdmin].

    Every operation of the source runs under the adapter's mutex, so each is
    one atomic transition of the state. *)

From S2P Require Import Prelude.
From S2P Require Import Types.
From S2P Require Import Common.

(** ** State *)

Record streamData := mkStreamData {
  sd_info : StreamInfo;
  sd_events : list StoredEvent;
}.

(** A Go channel is a reference: the adapter and the consumer share the buffer
    behind it, so channels live in a heap [ma_chans] and are named by number.
    [ch_recv] is the history of what the consumer has received. *)
Record chan := mkChan {
  ch_recv : list StoredEvent;
  ch_buf : list StoredEvent;
  ch_cap : Z;
  ch_closed : bool;
}.

Record subscriber := mkSubscriber {
  sub_ch : nat;
  sub_onError : option nat; (* the caller's callback, by number; nil is None *)
}.

Record projectionInfo := mkProjectionInfo {
  pi_name : string;
  pi_position : Z;
  pi_status : string;
  pi_updatedAt : Time;
}.

Record migrationRecord := mkMigrationRecord {
  mr_name : string;
  mr_appliedAt : Time;
}.

Record MemoryAdapter := mkMemoryAdapter {
  ma_streams : gmap string streamData;
  ma_globalEvents : list StoredEvent;
  ma_globalPosition : Z;
  ma_snapshots : gmap string SnapshotRecord;
  ma_checkpoints : gmap string Z;
  ma_closed : bool;
  ma_subscribers : list subscriber;
  ma_projections : gmap string projectionInfo;
  ma_migrations : gmap string migrationRecord;
  ma_chans : gmap nat chan;
  ma_nextChan : nat;
}.

Definition NewAdapter : MemoryAdapter :=
  mkMemoryAdapter ∅ [] 0 ∅ ∅ false [] ∅ ∅ ∅ 0.

(** Field updates. *)
Definition set_log (a : MemoryAdapter) (streams : gmap string streamData)
    (ge : list StoredEvent) (gp : Z) : MemoryAdapter :=
  mkMemoryAdapter streams ge gp (ma_snapshots a) (ma_checkpoints a) (ma_closed a)
    (ma_subscribers a) (ma_projections a) (ma_migrations a) (ma_chans a) (ma_nextChan a).
Definition set_snapshots (a : MemoryAdapter) (m : gmap string SnapshotRecord) : MemoryAdapter :=
  mkMemoryAdapter (ma_streams a) (ma_globalEvents a) (ma_globalPosition a) m
    (ma_checkpoints a) (ma_closed a) (ma_subscribers a) (ma_projections a)
    (ma_migrations a) (ma_chans a) (ma_nextChan a).
Definition set_checkpoints (a : MemoryAdapter) (m : gmap string Z) : MemoryAdapter :=
  mkMemoryAdapter (ma_streams a) (ma_globalEvents a) (ma_globalPosition a) (ma_snapshots a)
    m (ma_closed a) (ma_subscribers a) (ma_projections a)
    (ma_migrations a) (ma_chans a) (ma_nextChan a).
Definition set_subs (a : MemoryAdapter) (closed : bool) (subs : list subscriber)
    (chans : gmap nat chan) (next : nat) : MemoryAdapter :=
  mkMemoryAdapter (ma_streams a) (ma_globalEvents a) (ma_globalPosition a) (ma_snapshots a)
    (ma_checkpoints a) closed subs (ma_projections a) (ma_migrations a) chans next.
Definition set_admin (a : MemoryAdapter) (ps : gmap string projectionInfo)
    (ms : gmap string migrationRecord) : MemoryAdapter :=
  mkMemoryAdapter (ma_streams a) (ma_globalEvents a) (ma_globalPosition a) (ma_snapshots a)
    (ma_checkpoints a) (ma_closed a) (ma_subscribers a) ps ms (ma_chans a) (ma_nextChan a).

(** ** Copies

    The copies the adapter takes of byte slices and maps.  They isolate the log
    from its callers; on values they only preserve nil-ness. *)
Definition copyBytes (b : Bytes) : Bytes :=
  match b with None => None | Some l => Some l end.

Definition copyMetadata (md : Metadata) : Metadata :=
  match md_Custom md with
  | Some c => set_Custom md (Some (list_to_map (map_to_list c)))
  | None => md
  end.

Definition set_Payload (e : StoredEvent) (data : Bytes) (md : Metadata) : StoredEvent :=
  mkStoredEvent (se_ID e) (se_StreamID e) (se_Type e) data md
    (se_Version e) (se_GlobalPosition e) (se_Timestamp e).

Definition cloneStoredEvent (e : StoredEvent) : StoredEvent :=
  set_Payload e (copyBytes (se_Data e)) (copyMetadata (se_Metadata e)).

(** ** Append *)

Definition streamVersion (a : MemoryAdapter) (streamID : string) : Z :=
  match ma_streams a !! streamID with
  | Some st => si_Version (sd_info st)
  | None => 0
  end.

Definition streamExists (a : MemoryAdapter) (streamID : string) : bool :=
  match ma_streams a !! streamID with Some _ => true | None => false end.

Definition checkAppendLocked (streamID : string) (events : list EventRecord)
    (expectedVersion : Z) (a : MemoryAdapter) : res unit :=
  returnIf (ma_closed a) ErrAdapterClosed;;
  returnIf (bool_decide (streamID = "")) ErrEmptyStreamID;;
  returnIf (bool_decide (events = [])) ErrNoEvents;;
  CheckVersion streamID expectedVersion (streamVersion a streamID) (streamExists a streamID).

(** The loop over the events: [cv] and [gp] are [currentVersion] and
    [a.globalPosition], the three lists [stream.events], [a.globalEvents] and
    [storedEvents]. *)
Fixpoint appendLoop (env : Env) (streamID : string) (now : Time) (i : nat)
    (events : list EventRecord) (cv gp : Z) (sEvents gEvents stored : list StoredEvent)
    : Z * Z * list StoredEvent * list StoredEvent * list StoredEvent :=
  match events with
  | [] => (cv, gp, sEvents, gEvents, stored)
  | event :: rest =>
      let gp := u64 (gp + 1) in
      let cv := i64 (cv + 1) in
      let st := mkStoredEvent (uuid_New env i) streamID (er_Type event)
                  (copyBytes (er_Data event)) (copyMetadata (er_Metadata event))
                  cv gp now in
      let returned := set_Payload st (er_Data event) (er_Metadata event) in
      appendLoop env streamID now (S i) rest cv gp
        (sEvents ++ [st]) (gEvents ++ [st]) (stored ++ [returned])
  end.

Definition appendLocked (env : Env) (streamID : string) (events : list EventRecord)
    (expectedVersion : Z) : op MemoryAdapter error (list StoredEvent) :=
  guarded (checkAppendLocked streamID events expectedVersion) (λ a,
    let currentVersion := streamVersion a streamID in
    let '(info, evs, now) :=
      match ma_streams a !! streamID with
      | Some st => (sd_info st, sd_events st, time_Now env 0)
      | None =>
          (mkStreamInfo streamID (ExtractCategory streamID) 0 0 (time_Now env 0) (time_Now env 1),
           [], time_Now env 2)
      end in
    let '(cv, gp, evs', ge', stored) :=
      appendLoop env streamID now 0 events currentVersion (ma_globalPosition a)
        evs (ma_globalEvents a) [] in
    let info' := mkStreamInfo (si_StreamID info) (si_Category info) cv
                   (i64 (Z.of_nat (length evs'))) (si_CreatedAt info) now in
    (set_log a (<[streamID := mkStreamData info' evs']> (ma_streams a)) ge' gp, Ok stored)).

(** ** Reads *)

Definition Load (env : Env) (streamID : string) (fromVersion : Z) (a : MemoryAdapter)
    : res (list StoredEvent) :=
  check_ctx env;;
  returnIf (ma_closed a) ErrAdapterClosed;;
  returnIf (bool_decide (streamID = "")) ErrEmptyStreamID;;
  match ma_streams a !! streamID with
  | None => Ok []
  | Some stream =>
      Ok (cloneStoredEvent <$> filter (λ e, fromVersion < se_Version e) (sd_events stream))
  end.

Definition GetStreamInfo (env : Env) (streamID : string) (a : MemoryAdapter) : res StreamInfo :=
  check_ctx env;;
  returnIf (ma_closed a) ErrAdapterClosed;;
  match ma_streams a !! streamID with
  | None => Err (StreamNotFoundError streamID)
  | Some stream => Ok (sd_info stream)
  end.

Definition GetLastPosition (env : Env) (a : MemoryAdapter) : res Z :=
  check_ctx env;;
  returnIf (ma_closed a) ErrAdapterClosed;;
  Ok (ma_globalPosition a).

(** The scan of the global log: [n] events were kept so far. *)
Fixpoint feedScan (fromPosition limit : Z) (f : FeedFilter) (n : Z)
    (log : list StoredEvent) : list StoredEvent :=
  match log with
  | [] => []
  | event :: rest =>
      if se_GlobalPosition event <=? fromPosition then feedScan fromPosition limit f n rest
      else if negb (FeedFilter_Matches f event) then feedScan fromPosition limit f n rest
      else cloneStoredEvent event ::
           (if limit <=? n + 1 then [] else feedScan fromPosition limit f (n + 1) rest)
  end.

Definition LoadFromPositionFiltered (env : Env) (fromPosition limit : Z) (f : FeedFilter)
    (a : MemoryAdapter) : res (list StoredEvent) :=
  check_ctx env;;
  returnIf (ma_closed a) ErrAdapterClosed;;
  Ok (feedScan fromPosition (DefaultLimit limit 1000) f 0 (ma_globalEvents a)).

Definition LoadFromPosition (env : Env) (fromPosition limit : Z) (a : MemoryAdapter)
    : res (list StoredEvent) :=
  LoadFromPositionFiltered env fromPosition limit emptyFilter a.

(** ** In-place rewrite *)

(** Replace the payload of the first event satisfying [p]; whether one was found. *)
Fixpoint rewriteFirst (p : StoredEvent → bool) (data : Bytes) (md : Metadata)
    (l : list StoredEvent) : list StoredEvent * bool :=
  match l with
  | [] => ([], false)
  | e :: l' =>
      if p e then (set_Payload e data md :: l', true)
      else let '(r, found) := rewriteFirst p data md l' in (e :: r, found)
  end.

Definition ErrNoEventToRewrite : error :=
  Errorf "mink/memory: no event at stream %q version %d to rewrite".

Definition RewriteEventData (env : Env) (streamID : string) (version : Z) (data : Bytes)
    (metadata : Metadata) : op MemoryAdapter error unit :=
  guarded (λ a, check_ctx env;; returnIf (ma_closed a) ErrAdapterClosed) (λ a,
    match ma_streams a !! streamID with
    | None => (a, Err ErrNoEventToRewrite)
    | Some stream =>
        let data := copyBytes data in
        let metadata := copyMetadata metadata in
        let '(evs, found) :=
          rewriteFirst (λ e, se_Version e =? version) data metadata (sd_events stream) in
        if negb found then (a, Err ErrNoEventToRewrite)
        else
          let ge := (rewriteFirst (λ e, bool_decide (se_StreamID e = streamID)
                                        && (se_Version e =? version))
                       data metadata (ma_globalEvents a)).1 in
          (set_log a (<[streamID := mkStreamData (sd_info stream) evs]> (ma_streams a))
             ge (ma_globalPosition a), Ok tt)
    end).

(** ** Snapshots and checkpoints *)

Definition SaveSnapshot (env : Env) (streamID : string) (version : Z) (data : Bytes)
    : op MemoryAdapter error unit :=
  guarded (λ a, check_ctx env;; returnIf (ma_closed a) ErrAdapterClosed) (λ a,
    (set_snapshots a (<[streamID := mkSnapshotRecord streamID version (copyBytes data)]>
                        (ma_snapshots a)), Ok tt)).

Definition LoadSnapshot (env : Env) (streamID : string) (a : MemoryAdapter)
    : res (option SnapshotRecord) :=
  check_ctx env;;
  returnIf (ma_closed a) ErrAdapterClosed;;
  match ma_snapshots a !! streamID with
  | None => Ok None
  | Some s => Ok (Some (mkSnapshotRecord (sn_StreamID s) (sn_Version s) (copyBytes (sn_Data s))))
  end.

Definition DeleteSnapshot (env : Env) (streamID : string) : op MemoryAdapter error unit :=
  guarded (λ a, check_ctx env;; returnIf (ma_closed a) ErrAdapterClosed) (λ a,
    (set_snapshots a (delete streamID (ma_snapshots a)), Ok tt)).

Definition GetCheckpoint (env : Env) (projectionName : string) (a : MemoryAdapter) : res Z :=
  check_ctx env;;
  returnIf (ma_closed a) ErrAdapterClosed;;
  Ok (default 0 (ma_checkpoints a !! projectionName)).

Definition SetCheckpoint (env : Env) (projectionName : string) (position : Z)
    : op MemoryAdapter error unit :=
  guarded (λ a, check_ctx env;; returnIf (ma_closed a) ErrAdapterClosed) (λ a,
    (set_checkpoints a (<[projectionName := position]> (ma_checkpoints a)), Ok tt)).

(** ** Life cycle *)

Definition Ping (env : Env) (a : MemoryAdapter) : res unit :=
  check_ctx env;; returnIf (ma_closed a) ErrAdapterClosed.

Definition Migrate (env : Env) (a : MemoryAdapter) : res unit :=
  check_ctx env;; returnIf (ma_closed a) ErrAdapterClosed.

Definition MigrationVersion (env : Env) (a : MemoryAdapter) : res Z :=
  check_ctx env;; returnIf (ma_closed a) ErrAdapterClosed;; Ok 1.

Definition Reset (a : MemoryAdapter) : MemoryAdapter :=
  mkMemoryAdapter ∅ [] 0 ∅ ∅ (ma_closed a) (ma_subscribers a) ∅ ∅
    (ma_chans a) (ma_nextChan a).

Definition EventCount (a : MemoryAdapter) : Z := Z.of_nat (length (ma_globalEvents a)).
Definition StreamCount (a : MemoryAdapter) : Z := Z.of_nat (size (ma_streams a)).
