(* ===== verification/LogInvariant.v ===== *)
(** * The event log: abstract specification and refinement

    The adapter promises an append-only global log from which every stream is
    read back.  [log_wf] states how the per-stream logs, the stream records and
    the counters of [MemoryAdapter] agree with the global log; [LogSpec] is the
    abstract store (a list of events and a closed flag); the refinement lemmas
    show that the adapter implements it. *)

From S2P Require Import Prelude.
From S2P Require Import Types.
From S2P Require Import Common.
From S2P Require Import MemoryAdapter.

(** ** The abstract store *)

Module LogSpec.
Record state := mkState { log : list StoredEvent; closed : bool }.

(** A stream is what the log holds under its id. *)
Definition stream (sid : string) (l : list StoredEvent) : list StoredEvent :=
  filter (λ e, se_StreamID e = sid) l.

Definition version (sid : string) (l : list StoredEvent) : Z :=
  Z.of_nat (length (stream sid l)).

(** The events an append adds: consecutive versions and positions. *)
Definition newEvents (env : Env) (sid : string) (now : Time) (i : nat) (ver pos : Z)
    (events : list EventRecord) : list StoredEvent :=
  imap (λ k ev, mkStoredEvent (uuid_New env (i + k)) sid (er_Type ev) (er_Data ev)
                  (er_Metadata ev) (ver + Z.of_nat k + 1) (pos + Z.of_nat k + 1) now) events.

Definition appendTime (env : Env) (sid : string) (l : list StoredEvent) : Time :=
  if bool_decide (stream sid l = []) then time_Now env 2 else time_Now env 0.

Definition append (env : Env) (sid : string) (events : list EventRecord) (expected : Z)
    (s : state) : state * res (list StoredEvent) :=
  match (returnIf (closed s) ErrAdapterClosed;;
         returnIf (bool_decide (sid = "")) ErrEmptyStreamID;;
         returnIf (bool_decide (events = [])) ErrNoEvents;;
         CheckVersion sid expected (version sid (log s))
           (negb (bool_decide (stream sid (log s) = [])))) with
  | Err e => (s, Err e)
  | Ok _ =>
      let new := newEvents env sid (appendTime env sid (log s)) 0 (version sid (log s))
                   (Z.of_nat (length (log s))) events in
      (mkState (log s ++ new) (closed s), Ok new)
  end.

Definition load (env : Env) (sid : string) (from : Z) (s : state) : res (list StoredEvent) :=
  check_ctx env;;
  returnIf (closed s) ErrAdapterClosed;;
  returnIf (bool_decide (sid = "")) ErrEmptyStreamID;;
  Ok (filter (λ e, from < se_Version e) (stream sid (log s))).

Definition feed (env : Env) (from limit : Z) (f : FeedFilter) (s : state)
    : res (list StoredEvent) :=
  check_ctx env;;
  returnIf (closed s) ErrAdapterClosed;;
  Ok (take (Z.to_nat (DefaultLimit limit 1000))
        (filter (λ e, from < se_GlobalPosition e ∧ FeedFilter_Matches f e = true) (log s))).
End LogSpec.

#[global] Arguments LogSpec.stream : simpl never.
#[global] Arguments LogSpec.version : simpl never.

Definition abs (a : MemoryAdapter) : LogSpec.state :=
  LogSpec.mkState (ma_globalEvents a) (ma_closed a).

(** ** The invariant *)

Record stream_wf (log : list StoredEvent) (sid : string) (sd : streamData) : Prop := {
  swf_events : sd_events sd = LogSpec.stream sid log;
  swf_nonempty : sd_events sd ≠ [];
  swf_version : si_Version (sd_info sd) = LogSpec.version sid log;
  swf_count : si_EventCount (sd_info sd) = LogSpec.version sid log;
  swf_id : si_StreamID (sd_info sd) = sid;
  swf_category : si_Category (sd_info sd) = ExtractCategory sid;
}.

Record log_wf (a : MemoryAdapter) : Prop := {
  wf_position : ma_globalPosition a = Z.of_nat (length (ma_globalEvents a));
  wf_positions : ∀ i e, ma_globalEvents a !! i = Some e → se_GlobalPosition e = Z.of_nat i + 1;
  wf_versions : ∀ sid i e, LogSpec.stream sid (ma_globalEvents a) !! i = Some e →
                  se_Version e = Z.of_nat i + 1;
  wf_streams : ∀ sid sd, ma_streams a !! sid = Some sd →
                 stream_wf (ma_globalEvents a) sid sd;
  wf_dom : ∀ sid, LogSpec.stream sid (ma_globalEvents a) ≠ [] → is_Some (ma_streams a !! sid);
  wf_noempty : ma_streams a !! "" = None;
  wf_fits : fits (ma_globalEvents a);
}.

(** ** Copies are the identity on values *)

Lemma copyBytes_id b : copyBytes b = b.
Proof. by destruct b. Qed.

Lemma copyMetadata_id m : copyMetadata m = m.
Proof.
  unfold copyMetadata, set_Custom. destruct m as [? ? ? ? [c|]]; cbn; [|done].
  by rewrite list_to_map_to_list.
Qed.

Lemma set_Payload_id e : set_Payload e (se_Data e) (se_Metadata e) = e.
Proof. by destruct e. Qed.

Lemma cloneStoredEvent_id e : cloneStoredEvent e = e.
Proof. unfold cloneStoredEvent. rewrite copyBytes_id, copyMetadata_id. apply set_Payload_id. Qed.

Lemma clone_list_id (l : list StoredEvent) : cloneStoredEvent <$> l = l.
Proof. induction l; cbn; [done|]. by rewrite cloneStoredEvent_id, IHl. Qed.

#[export] Hint Rewrite copyBytes_id copyMetadata_id cloneStoredEvent_id clone_list_id : mink_rw.

(** ** Streams of a log *)

Lemma stream_app sid l1 l2 :
  LogSpec.stream sid (l1 ++ l2) = LogSpec.stream sid l1 ++ LogSpec.stream sid l2.
Proof. apply filter_app. Qed.

Lemma stream_length sid l : (length (LogSpec.stream sid l) ≤ length l)%nat.
Proof. apply length_filter. Qed.

Lemma elem_of_stream sid l e : e ∈ LogSpec.stream sid l ↔ se_StreamID e = sid ∧ e ∈ l.
Proof. unfold LogSpec.stream. by rewrite list_elem_of_filter. Qed.

Lemma newEvents_cons env sid now i ver pos ev evs :
  LogSpec.newEvents env sid now i ver pos (ev :: evs) =
  mkStoredEvent (uuid_New env i) sid (er_Type ev) (er_Data ev) (er_Metadata ev)
    (ver + 1) (pos + 1) now ::
  LogSpec.newEvents env sid now (S i) (ver + 1) (pos + 1) evs.
Proof.
  unfold LogSpec.newEvents. cbn. rewrite Nat.add_0_r. f_equal.
  - f_equal; lia.
  - apply imap_ext. intros k x _. cbn. f_equal; [f_equal; lia|lia|lia].
Qed.

Lemma newEvents_length env sid now i ver pos evs :
  length (LogSpec.newEvents env sid now i ver pos evs) = length evs.
Proof. apply length_imap. Qed.

Lemma newEvents_lookup env sid now i ver pos evs k e :
  LogSpec.newEvents env sid now i ver pos evs !! k = Some e →
  se_StreamID e = sid ∧ se_Version e = ver + Z.of_nat k + 1 ∧
  se_GlobalPosition e = pos + Z.of_nat k + 1 ∧ (k < length evs)%nat.
Proof.
  unfold LogSpec.newEvents. rewrite list_lookup_imap. intros H.
  destruct (evs !! k) eqn:E; cbn in H; [|done]. injection H as <-. cbn.
  apply lookup_lt_Some in E. naive_solver lia.
Qed.

Lemma stream_newEvents env sid now i ver pos evs :
  LogSpec.stream sid (LogSpec.newEvents env sid now i ver pos evs) =
  LogSpec.newEvents env sid now i ver pos evs.
Proof.
  revert i ver pos. induction evs as [|ev evs IH]; intros; [done|].
  rewrite newEvents_cons. unfold LogSpec.stream in *.
  rewrite filter_cons_True by done. by rewrite IH.
Qed.

Lemma stream_newEvents_ne env sid sid' now i ver pos evs :
  sid ≠ sid' → LogSpec.stream sid' (LogSpec.newEvents env sid now i ver pos evs) = [].
Proof.
  intros Hne. revert i ver pos. induction evs as [|ev evs IH]; intros; [done|].
  rewrite newEvents_cons. unfold LogSpec.stream in *.
  rewrite filter_cons_False by done. apply IH.
Qed.

(** ** The append loop computes the specified events *)

Lemma appendLoop_spec env sid now i evs cv gp sE gE st :
  0 ≤ cv → 0 ≤ gp → cv + Z.of_nat (length evs) ≤ MaxInt64 →
  gp + Z.of_nat (length evs) ≤ MaxUint64 →
  let new := LogSpec.newEvents env sid now i cv gp evs in
  appendLoop env sid now i evs cv gp sE gE st =
  (cv + Z.of_nat (length evs), gp + Z.of_nat (length evs), sE ++ new, gE ++ new, st ++ new).
Proof.
  revert i cv gp sE gE st. induction evs as [|ev evs IH]; intros i cv gp sE gE st H1 H2 H3 H4.
  - cbn. rewrite !Z.add_0_r, !app_nil_r. done.
  - cbn [length] in *. cbn [appendLoop].
    rewrite (u64_id (gp + 1)) by (unfold in_u64; lia).
    rewrite (i64_id (cv + 1)) by (unfold in_i64, MinInt64; lia).
    rewrite IH by lia. rewrite copyBytes_id, copyMetadata_id, newEvents_cons.
    unfold set_Payload; cbn [se_ID se_StreamID se_Type se_Version se_GlobalPosition se_Timestamp].
    rewrite <- !app_assoc.
    replace (cv + 1 + Z.of_nat (length evs)) with (cv + Z.of_nat (S (length evs))) by lia.
    by replace (gp + 1 + Z.of_nat (length evs)) with (gp + Z.of_nat (S (length evs))) by lia.
Qed.

(** ** Reads of a well-formed adapter *)

Section Reads.
Context (a : MemoryAdapter) (Hwf : log_wf a).

Lemma wf_stream_events sid :
  match ma_streams a !! sid with
  | Some sd => sd_events sd = LogSpec.stream sid (ma_globalEvents a)
  | None => LogSpec.stream sid (ma_globalEvents a) = []
  end.
Proof.
  destruct (ma_streams a !! sid) as [sd|] eqn:E.
  - by apply (wf_streams _ Hwf).
  - destruct (decide (LogSpec.stream sid (ma_globalEvents a) = [])) as [|Hn]; [done|].
    apply (wf_dom _ Hwf) in Hn. rewrite E in Hn. by destruct Hn.
Qed.

Lemma streamVersion_spec sid :
  streamVersion a sid = LogSpec.version sid (ma_globalEvents a).
Proof.
  unfold streamVersion. pose proof (wf_stream_events sid) as H.
  destruct (ma_streams a !! sid) as [sd|] eqn:E.
  - by apply (wf_streams _ Hwf).
  - unfold LogSpec.version. by rewrite H.
Qed.

Lemma streamExists_spec sid :
  streamExists a sid = negb (bool_decide (LogSpec.stream sid (ma_globalEvents a) = [])).
Proof.
  unfold streamExists. pose proof (wf_stream_events sid) as H.
  destruct (ma_streams a !! sid) as [sd|] eqn:E.
  - rewrite bool_decide_eq_false_2; [done|].
    rewrite <- H. by apply (wf_streams _ Hwf) in E as [].
  - by rewrite bool_decide_eq_true_2.
Qed.

Lemma checkAppendLocked_spec sid events expected :
  checkAppendLocked sid events expected a =
  (returnIf (ma_closed a) ErrAdapterClosed;;
   returnIf (bool_decide (sid = "")) ErrEmptyStreamID;;
   returnIf (bool_decide (events = [])) ErrNoEvents;;
   CheckVersion sid expected (LogSpec.version sid (ma_globalEvents a))
     (negb (bool_decide (LogSpec.stream sid (ma_globalEvents a) = [])))).
Proof. unfold checkAppendLocked. by rewrite streamVersion_spec, streamExists_spec. Qed.

Lemma Load_spec env sid from : Load env sid from a = LogSpec.load env sid from (abs a).
Proof.
  unfold Load, LogSpec.load; cbn.
  destruct (check_ctx env); cbn; [|done].
  destruct (ma_closed a); cbn; [done|].
  destruct (bool_decide (sid = "")); cbn; [done|].
  pose proof (wf_stream_events sid) as H.
  destruct (ma_streams a !! sid) as [sd|]; rewrite H; [|done]. by rewrite clone_list_id.
Qed.
End Reads.

(** ** The feed scan is a bounded filter *)

Lemma feedScan_spec from limit f n log :
  0 ≤ n < limit →
  feedScan from limit f n log =
  take (Z.to_nat (limit - n))
    (filter (λ e, from < se_GlobalPosition e ∧ FeedFilter_Matches f e = true) log).
Proof.
  revert n. induction log as [|e log IH]; intros n Hn; cbn [feedScan]; [by destruct (Z.to_nat (limit - n))|].
  destruct (se_GlobalPosition e <=? from) eqn:E; zbool.
  { rewrite IH by lia. rewrite filter_cons_False by lia. done. }
  destruct (FeedFilter_Matches f e) eqn:M; cbn [negb].
  - rewrite filter_cons_True by (split; [lia|done]).
    replace (Z.to_nat (limit - n)) with (S (Z.to_nat (limit - (n + 1)))) by lia.
    cbn [take]. rewrite cloneStoredEvent_id. f_equal. destruct (limit <=? n + 1) eqn:L; zbool.
    + replace (Z.to_nat (limit - (n + 1))) with 0%nat by lia. done.
    + apply IH. lia.
  - rewrite IH by lia. rewrite filter_cons_False; [done|]. intros [_ ?]; congruence.
Qed.

Lemma DefaultLimit_pos limit d : 0 < d → 0 < DefaultLimit limit d.
Proof. unfold DefaultLimit. case_match; zbool; lia. Qed.

Lemma LoadFromPositionFiltered_spec env from limit f a :
  LoadFromPositionFiltered env from limit f a = LogSpec.feed env from limit f (abs a).
Proof.
  unfold LoadFromPositionFiltered, LogSpec.feed; cbn.
  destruct (check_ctx env); cbn; [|done]. destruct (ma_closed a); cbn; [done|].
  pose proof (DefaultLimit_pos limit 1000).
  rewrite feedScan_spec by lia. by rewrite Z.sub_0_r.
Qed.

(** What a successful abstract append established. *)
Lemma LogSpec_append_Ok env sid evs exp s s' new :
  LogSpec.append env sid evs exp s = (s', Ok new) →
  s' = LogSpec.mkState (LogSpec.log s ++ new) (LogSpec.closed s) ∧
  new = LogSpec.newEvents env sid (LogSpec.appendTime env sid (LogSpec.log s)) 0
          (LogSpec.version sid (LogSpec.log s)) (Z.of_nat (length (LogSpec.log s))) evs ∧
  LogSpec.closed s = false ∧ sid ≠ "" ∧ evs ≠ [] ∧
  CheckVersion sid exp (LogSpec.version sid (LogSpec.log s))
    (negb (bool_decide (LogSpec.stream sid (LogSpec.log s) = []))) = Ok tt.
Proof.
  unfold LogSpec.append. intros H.
  match type of H with context [match ?c with Ok _ => _ | Err _ => _ end] =>
    destruct c as [[]|] eqn:E end; [|done].
  injection H as <- <-. inv_ok. zbool. done.
Qed.

#[export] Hint Resolve wf_position wf_positions wf_versions wf_fits : mink.

(** ** The append path refines the abstract append *)

(** Extending the log of one stream by well-numbered events keeps the invariant. *)
Lemma log_wf_extend a sid sd new gp :
  log_wf a → sid ≠ "" → new ≠ [] →
  fits (ma_globalEvents a ++ new) →
  gp = Z.of_nat (length (ma_globalEvents a ++ new)) →
  LogSpec.stream sid new = new →
  (∀ k e, new !! k = Some e →
     se_GlobalPosition e = Z.of_nat (length (ma_globalEvents a)) + Z.of_nat k + 1 ∧
     se_Version e = LogSpec.version sid (ma_globalEvents a) + Z.of_nat k + 1) →
  stream_wf (ma_globalEvents a ++ new) sid sd →
  log_wf (set_log a (<[sid := sd]> (ma_streams a)) (ma_globalEvents a ++ new) gp).
Proof.
  intros Hwf Hsid Hne Hfits Hgp Hstr Hnum Hsd.
  assert (∀ sid', sid ≠ sid' → LogSpec.stream sid' new = []) as Hoth.
  { intros sid' Hd. apply elem_of_nil_inv. intros e [E He]%elem_of_stream.
    rewrite <- Hstr in He. apply elem_of_stream in He as [? _]. congruence. }
  split; cbn; [done| | | | | |done].
  - intros i e [H|[Hl H]]%lookup_app_Some; [by apply (wf_positions _ Hwf)|].
    apply Hnum in H as [-> _]. lia.
  - intros sid' i e. rewrite stream_app. destruct (decide (sid = sid')) as [<-|Hd].
    + rewrite Hstr. intros [H|[Hl H]]%lookup_app_Some; [by eapply (wf_versions _ Hwf)|].
      apply Hnum in H as [_ ->]. unfold LogSpec.version. lia.
    + rewrite Hoth, app_nil_r by done. apply (wf_versions _ Hwf).
  - intros sid' sd'. destruct (decide (sid = sid')) as [<-|Hd].
    + rewrite lookup_insert_eq. by intros [= <-].
    + rewrite lookup_insert_ne by done. intros H. apply (wf_streams _ Hwf) in H as [].
      split; unfold LogSpec.version in *; rewrite ?stream_app, ?Hoth, ?app_nil_r by done; done.
  - intros sid'. rewrite stream_app. destruct (decide (sid = sid')) as [<-|Hd].
    + rewrite lookup_insert_eq. eauto.
    + rewrite lookup_insert_ne, Hoth, app_nil_r by done. apply (wf_dom _ Hwf).
  - rewrite lookup_insert_ne by done. apply (wf_noempty _ Hwf).
Qed.

(** What an append leaves alone. *)
Definition same_rest (a a' : MemoryAdapter) : Prop :=
  ma_snapshots a' = ma_snapshots a ∧ ma_checkpoints a' = ma_checkpoints a ∧
  ma_closed a' = ma_closed a ∧ ma_subscribers a' = ma_subscribers a ∧
  ma_projections a' = ma_projections a ∧ ma_migrations a' = ma_migrations a ∧
  ma_chans a' = ma_chans a ∧ ma_nextChan a' = ma_nextChan a.

Lemma same_rest_refl a : same_rest a a.
Proof. done. Qed.

Lemma same_rest_set_log a m l gp : same_rest a (set_log a m l gp).
Proof. done. Qed.

#[export] Hint Resolve same_rest_refl same_rest_set_log : mink.

Lemma appendLocked_refines env sid events expected a :
  log_wf a →
  Z.of_nat (length (ma_globalEvents a) + length events) ≤ MaxInt64 →
  let '(a', r) := appendLocked env sid events expected a in
  log_wf a' ∧ same_rest a a' ∧
  (abs a', r) = LogSpec.append env sid events expected (abs a).
Proof.
  intros Hwf Hfits. unfold appendLocked, guarded, LogSpec.append. cbn [abs LogSpec.log LogSpec.closed].
  rewrite (checkAppendLocked_spec a Hwf).
  match goal with |- context [match ?c with Ok _ => _ | Err _ => _ end] => destruct c eqn:Hchk end.
  2: { split; [done|]. split; [auto with mink|done]. }
  inv_ok. zbool. rename H2 into Hcv.
  set (l := ma_globalEvents a) in *.
  set (new := LogSpec.newEvents env sid (LogSpec.appendTime env sid l) 0
                (LogSpec.version sid l) (Z.of_nat (length l)) events).
  pose proof (stream_length sid l) as Hsl.
  assert (length new = length events) as Hlen by apply newEvents_length.
  assert (LogSpec.version sid l + Z.of_nat (length events) =
          Z.of_nat (length (LogSpec.stream sid l ++ new))) as Hver.
  { rewrite length_app, Hlen. unfold LogSpec.version. lia. }
  assert (LogSpec.stream sid new = new) as Hself by apply stream_newEvents.
  pose proof (wf_stream_events a Hwf sid) as Hse. fold l in Hse.
  rewrite (streamVersion_spec a Hwf), (wf_position _ Hwf). fold l.
  assert (∀ info, si_StreamID info = sid → si_Category info = ExtractCategory sid →
    log_wf (set_log a (<[sid := mkStreamData
        (mkStreamInfo (si_StreamID info) (si_Category info)
           (LogSpec.version sid l + Z.of_nat (length events))
           (i64 (Z.of_nat (length (LogSpec.stream sid l ++ new)))) (si_CreatedAt info)
           (LogSpec.appendTime env sid l)) (LogSpec.stream sid l ++ new)]> (ma_streams a))
      (l ++ new) (Z.of_nat (length l) + Z.of_nat (length events)))) as Hgoal.
  { intros info Hid Hcat. apply log_wf_extend; [done|done| | | |done| |].
    - intros E. rewrite E in Hlen. by destruct events.
    - unfold fits. rewrite length_app, Hlen. fold l. lia.
    - rewrite length_app, Hlen. fold l. lia.
    - intros k e Hk. apply newEvents_lookup in Hk as (_ & ? & ? & _). done.
    - assert (i64 (Z.of_nat (length (LogSpec.stream sid l ++ new))) =
              LogSpec.version sid (l ++ new)) as Hc.
      { unfold LogSpec.version. rewrite stream_app, Hself. apply i64_id.
        unfold in_i64, MinInt64. rewrite length_app, Hlen. lia. }
      split; cbn; rewrite ?Hc; [by rewrite stream_app, Hself| | | done | done | done].
      + intros [_ E]%app_nil. rewrite E in Hlen. by destruct events.
      + unfold LogSpec.version at 2. fold l. by rewrite stream_app, Hself. }
  destruct (ma_streams a !! sid) as [sd|] eqn:Esid.
  - pose proof (wf_streams _ Hwf _ _ Esid) as [Hev Hne' _ _ Hid Hcat].
    assert (LogSpec.appendTime env sid l = time_Now env 0) as Ht.
    { unfold LogSpec.appendTime. rewrite bool_decide_eq_false_2; [done|]. by rewrite <- Hse. }
    rewrite appendLoop_spec by (unfold LogSpec.version, MaxUint64, MaxInt64 in *; fold l in Hfits; lia).
    cbn zeta. rewrite <- Ht, Hse. fold new.
    split; [by apply Hgoal|]. split; [auto with mink|done].
  - assert (LogSpec.appendTime env sid l = time_Now env 2) as Ht.
    { unfold LogSpec.appendTime. by rewrite bool_decide_eq_true_2. }
    rewrite appendLoop_spec by (unfold LogSpec.version, MaxUint64, MaxInt64 in *; fold l in Hfits; lia).
    cbn zeta. rewrite <- Ht. fold new. rewrite Hse in Hgoal.
    split; [by apply (Hgoal (mkStreamInfo sid (ExtractCategory sid) 0 0 _ _))|].
    split; [auto with mink|done].
Qed.

(** * In-place rewrite of a stored event *)

(** Two events that differ in their payload at most. *)
Definition same_header (e e' : StoredEvent) : Prop :=
  se_ID e = se_ID e' ∧ se_StreamID e = se_StreamID e' ∧ se_Type e = se_Type e' ∧
  se_Version e = se_Version e' ∧ se_GlobalPosition e = se_GlobalPosition e' ∧
  se_Timestamp e = se_Timestamp e'.

#[export] Instance same_header_equiv : Equivalence same_header.
Proof. split; [done|intros ?; unfold same_header; naive_solver|unfold same_header; intros ???; intuition congruence]. Qed.

Lemma same_header_payload e d m : same_header e (set_Payload e d m).
Proof. done. Qed.

#[export] Hint Resolve same_header_payload : mink.

Lemma rewriteFirst_headers p d m l : Forall2 same_header l (rewriteFirst p d m l).1.
Proof.
  induction l as [|e l IH]; cbn; [constructor|]. destruct (p e).
  - constructor; [done|]. by apply Forall_Forall2_diag, Forall_true.
  - destruct (rewriteFirst p d m l); cbn in *. by constructor.
Qed.

(** The first match is at index [i]; the others keep their value. *)
Lemma rewriteFirst_found p d m l l' :
  rewriteFirst p d m l = (l', true) →
  ∃ i e, l !! i = Some e ∧ p e = true ∧ l' = <[i := set_Payload e d m]> l.
Proof.
  revert l'. induction l as [|e l IH]; intros l'; cbn; [done|].
  destruct (p e) eqn:E.
  - intros [= <-]. by exists 0%nat, e.
  - destruct (rewriteFirst p d m l) as [r b] eqn:R. intros [= <- ->].
    destruct (IH _ eq_refl) as (i & e' & ? & ? & ->). by exists (S i), e'.
Qed.

Lemma rewriteFirst_notfound p d m l l' :
  rewriteFirst p d m l = (l', false) → l' = l ∧ Forall (λ e, p e = false) l.
Proof.
  revert l'. induction l as [|e l IH]; intros l'; cbn.
  - by intros [= <-].
  - destruct (p e) eqn:E; [done|]. destruct (rewriteFirst p d m l) as [r b] eqn:R.
    intros [= <- ->]. destruct (IH _ eq_refl) as [-> ?]. split; [done|]. by constructor.
Qed.

(** Rewriting in the log and in the stream commute with taking the stream. *)
Lemma stream_rewriteFirst sid p d m l :
  let q := λ e, bool_decide (se_StreamID e = sid) && p e in
  LogSpec.stream sid (rewriteFirst q d m l).1 = (rewriteFirst p d m (LogSpec.stream sid l)).1 ∧
  (rewriteFirst q d m l).2 = (rewriteFirst p d m (LogSpec.stream sid l)).2.
Proof.
  unfold LogSpec.stream. induction l as [|e l [IH1 IH2]]; [done|]. cbn [rewriteFirst].
  destruct (decide (se_StreamID e = sid)) as [Hs|Hs].
  - rewrite filter_cons_True by done. rewrite bool_decide_eq_true_2 by done. cbn [andb rewriteFirst].
    destruct (p e); cbn [fst snd].
    + by rewrite filter_cons_True by done.
    + destruct (rewriteFirst _ d m l); destruct (rewriteFirst p d m (filter _ l)); cbn [fst snd] in *.
      rewrite filter_cons_True by done. by subst.
  - rewrite filter_cons_False by done. rewrite bool_decide_eq_false_2 by done. cbn [andb].
    destruct (rewriteFirst _ d m l); cbn [fst snd] in *. by rewrite filter_cons_False.
Qed.

Lemma stream_headers sid l l' :
  Forall2 same_header l l' → Forall2 same_header (LogSpec.stream sid l) (LogSpec.stream sid l').
Proof.
  unfold LogSpec.stream. induction 1 as [|e e' l l' Hh H IH]; [constructor|].
  assert (se_StreamID e' = se_StreamID e) as E by (symmetry; apply Hh).
  destruct (decide (se_StreamID e = sid)).
  - rewrite !filter_cons_True by congruence. by constructor.
  - rewrite !filter_cons_False by congruence. done.
Qed.

Lemma stream_rewrite_other sid sid' p d m l :
  sid ≠ sid' →
  LogSpec.stream sid' (rewriteFirst (λ e, bool_decide (se_StreamID e = sid) && p e) d m l).1 =
  LogSpec.stream sid' l.
Proof.
  intros Hne. unfold LogSpec.stream. induction l as [|e l IH]; [done|]. cbn [rewriteFirst].
  destruct (bool_decide (se_StreamID e = sid) && p e) eqn:E.
  - zbool. cbn [fst]. rewrite !filter_cons_False; [done|congruence|cbn; congruence].
  - destruct (rewriteFirst _ d m l) as [r b]; cbn [fst] in *.
    destruct (decide (se_StreamID e = sid')).
    + rewrite !filter_cons_True by done. by rewrite IH.
    + rewrite !filter_cons_False by done. done.
Qed.

(** A log whose events keep their headers keeps the invariant, when its streams
    are updated accordingly. *)
Lemma log_wf_headers a sid sd log' evs :
  log_wf a → ma_streams a !! sid = Some sd →
  Forall2 same_header (ma_globalEvents a) log' →
  evs = LogSpec.stream sid log' →
  (∀ sid', sid ≠ sid' → LogSpec.stream sid' log' = LogSpec.stream sid' (ma_globalEvents a)) →
  log_wf (set_log a (<[sid := mkStreamData (sd_info sd) evs]> (ma_streams a)) log'
            (ma_globalPosition a)).
Proof.
  intros Hwf Hsd Hh -> Hoth.
  assert (∀ s, length (LogSpec.stream s (ma_globalEvents a)) = length (LogSpec.stream s log')) as Hlen
    by (intros s; by eapply Forall2_length, stream_headers).
  assert (length (ma_globalEvents a) = length log') as Hll by (by eapply Forall2_length).
  pose proof (wf_streams _ Hwf _ _ Hsd) as [Hev Hne Hv Hc Hid Hcat].
  assert (sid ≠ "") as Hs by (intros ->; pose proof (wf_noempty _ Hwf); congruence).
  split; cbn.
  - rewrite <- Hll. apply (wf_position _ Hwf).
  - intros i e' Hi. destruct (Forall2_lookup_r _ _ _ _ _ Hh Hi) as (e & He & Hd).
    apply (wf_positions _ Hwf) in He. by destruct Hd as (_ & _ & _ & _ & <- & _).
  - intros s i e' Hi.
    destruct (Forall2_lookup_r _ _ _ _ _ (stream_headers s _ _ Hh) Hi) as (e & He & Hd).
    apply (wf_versions _ Hwf) in He. by destruct Hd as (_ & _ & _ & <- & _).
  - intros s sd'. destruct (decide (sid = s)) as [<-|Hd].
    + rewrite lookup_insert_eq. intros [= <-]. split; cbn; unfold LogSpec.version in *.
      * done.
      * intros E. apply Hne. rewrite Hev. apply nil_length_inv. rewrite Hlen, E. done.
      * by rewrite <- Hlen.
      * by rewrite <- Hlen.
      * done.
      * done.
    + rewrite lookup_insert_ne by done. intros H. apply (wf_streams _ Hwf) in H as [].
      split; unfold LogSpec.version in *; rewrite ?Hoth by done; done.
  - intros s. destruct (decide (sid = s)) as [<-|Hd].
    + rewrite lookup_insert_eq. eauto.
    + rewrite lookup_insert_ne, Hoth by done. apply (wf_dom _ Hwf).
  - rewrite lookup_insert_ne by done. apply (wf_noempty _ Hwf).
  - unfold fits. rewrite <- Hll. apply (wf_fits _ Hwf).
Qed.

Lemma RewriteEventData_Err env sid v d m a a' e :
  RewriteEventData env sid v d m a = (a', Err e) → a' = a.
Proof. unfold RewriteEventData, guarded. intros H. go_cases; done. Qed.

Lemma RewriteEventData_Ok env sid v d m a a' :
  log_wf a →
  RewriteEventData env sid v d m a = (a', Ok tt) →
  log_wf a' ∧ same_rest a a' ∧
  ∃ i e, ma_globalEvents a !! i = Some e ∧ se_StreamID e = sid ∧ se_Version e = v ∧
         ma_globalEvents a' = <[i := set_Payload e d m]> (ma_globalEvents a).
Proof.
  intros Hwf. unfold RewriteEventData, guarded. rewrite copyBytes_id, copyMetadata_id.
  intros H. destruct (check_ctx env;; _); [|done].
  destruct (ma_streams a !! sid) as [sd|] eqn:Hsd; [|done].
  pose proof (wf_streams _ Hwf _ _ Hsd) as [Hev _ _ _ _ _]. rewrite Hev in H.
  destruct (stream_rewriteFirst sid (λ e, se_Version e =? v) d m (ma_globalEvents a)) as [E1 E2].
  cbn beta zeta in E1, E2.
  destruct (rewriteFirst (λ e, se_Version e =? v) d m (LogSpec.stream sid (ma_globalEvents a)))
    as [evs found]. cbn [fst snd] in *.
  destruct found; cbn [negb] in H; [|done]. injection H as <-.
  destruct (rewriteFirst _ d m (ma_globalEvents a)) as [ge b] eqn:R. cbn [fst snd] in *. subst b.
  split; [|split; [auto with mink|]].
  - apply log_wf_headers; [done|done| | |].
    + pose proof (rewriteFirst_headers (λ e, bool_decide (se_StreamID e = sid) && (se_Version e =? v))
        d m (ma_globalEvents a)) as Hh. by rewrite R in Hh.
    + done.
    + intros s Hne. pose proof (stream_rewrite_other sid s (λ e, se_Version e =? v) d m
        (ma_globalEvents a) Hne) as Ho. cbn beta in Ho. by rewrite R in Ho.
  - apply rewriteFirst_found in R as (i & e & Hi & Hp & ->). zbool. by exists i, e.
Qed.
