(* ===== verification/MemorySubscription.v ===== *)
(** * The in-memory event store: live subscriptions

    The subscription side of [src/adapters/memory/memory.go]: [SubscribeAll] and
    its filtered variants, the non-blocking fan-out of [Append], cancellation and
    [Close].  A consumer receives without the adapter's locks, so the fan-out
    takes an oracle [recv]: how many events the consumer of a channel takes just
    before a given send. *)

From S2P Require Import Prelude.
From S2P Require Import Types.
From S2P Require Import Common.
From S2P Require Import MemoryAdapter.
From S2P Require Import LogInvariant.

Definition defaultSubscriptionBuffer : Z := 100.

Record SubscriptionOptions := mkSubscriptionOptions {
  so_BufferSize : Z;
  so_PollInterval : Duration;
  so_OnError : option nat;
}.

Definition getBufferSize (opts : list SubscriptionOptions) : Z :=
  match opts with
  | o :: _ => if 0 <? so_BufferSize o then so_BufferSize o else defaultSubscriptionBuffer
  | [] => defaultSubscriptionBuffer
  end.

Definition getOnError (opts : list SubscriptionOptions) : option nat :=
  match opts with o :: _ => so_OnError o | [] => None end.

(** ** Channel operations *)

(** The consumer takes up to [n] buffered events. *)
Definition chanRecv (n : nat) (c : chan) : chan :=
  mkChan (ch_recv c ++ take n (ch_buf c)) (drop n (ch_buf c)) (ch_cap c) (ch_closed c).

Definition chanPush (ev : StoredEvent) (c : chan) : chan :=
  mkChan (ch_recv c) (ch_buf c ++ [ev]) (ch_cap c) (ch_closed c).

Definition chanHasRoom (c : chan) : bool := Z.of_nat (length (ch_buf c)) <? ch_cap c.

(** Everything that was ever sent on the channel, in order. *)
Definition chanSent (c : chan) : list StoredEvent := ch_recv c ++ ch_buf c.

(** [select { case ch <- ev: ...; default: ... }]: a send on a closed channel
    panics, a nil channel is never ready. *)
Definition trySend (ev : StoredEvent) (c : nat) (chans : gmap nat chan)
    : res (gmap nat chan * bool) :=
  match chans !! c with
  | None => Ok (chans, false)
  | Some ch =>
      if ch_closed ch then Err (Panic "send on closed channel")
      else if chanHasRoom ch then Ok (<[c := chanPush ev ch]> chans, true)
      else Ok (chans, false)
  end.

Definition closeChan (c : nat) (chans : gmap nat chan) : res (gmap nat chan) :=
  match chans !! c with
  | None => Err (Panic "close of nil channel")
  | Some ch =>
      if ch_closed ch then Err (Panic "close of closed channel")
      else Ok (<[c := mkChan (ch_recv ch) (ch_buf ch) (ch_cap ch) true]> chans)
  end.

(** ** Fan-out *)

(** The callback to invoke and the error to report. *)
Definition pendingDrop : Type := nat * error.

Fixpoint notifyOne (recv : nat → nat → nat) (sub : subscriber) (k : nat)
    (events : list StoredEvent) (chans : gmap nat chan) (drops : list pendingDrop)
    : res (gmap nat chan * list pendingDrop) :=
  match events with
  | [] => Ok (chans, drops)
  | event :: rest =>
      let chans := alter (chanRecv (recv (sub_ch sub) k)) (sub_ch sub) chans in
      '(chans, sent) ← trySend (cloneStoredEvent event) (sub_ch sub) chans;
      let drops :=
        if (sent : bool) then drops
        else match sub_onError sub with
             | Some cb => drops ++ [(cb, SubscriptionDropError (se_StreamID event)
                                          (se_GlobalPosition event))]
             | None => drops
             end in
      notifyOne recv sub (S k) rest chans drops
  end.

Fixpoint notifySubscribers (recv : nat → nat → nat) (subs : list subscriber)
    (events : list StoredEvent) (chans : gmap nat chan) (drops : list pendingDrop)
    : res (gmap nat chan * list pendingDrop) :=
  match subs with
  | [] => Ok (chans, drops)
  | sub :: rest =>
      '(chans, drops) ← notifyOne recv sub 0 events chans drops;
      notifySubscribers recv rest events chans drops
  end.

(** [Append]: the stored events and the drop notifications fired, outside the
    lock, by [fireDrops]. *)
Definition Append (env : Env) (recv : nat → nat → nat) (streamID : string)
    (events : list EventRecord) (expectedVersion : Z)
    : op MemoryAdapter error (list StoredEvent * list pendingDrop) :=
  guarded (λ _, check_ctx env) (λ a,
    match appendLocked env streamID events expectedVersion a with
    | (a1, Err e) => (a1, Err e)
    | (a1, Ok storedEvents) =>
        match notifySubscribers recv (ma_subscribers a1) storedEvents (ma_chans a1) [] with
        | Ok (chans, drops) =>
            (set_subs a1 (ma_closed a1) (ma_subscribers a1) chans (ma_nextChan a1),
             Ok (storedEvents, drops))
        | Err e => (a1, Err e)
        end
    end).

(** ** Subscribing *)

(** Remove the first subscriber of channel [c] and close it; a no-op when it is
    not registered. *)
Fixpoint removeFrom (c : nat) (subs : list subscriber) : option (list subscriber) :=
  match subs with
  | [] => None
  | sub :: rest =>
      if (sub_ch sub =? c)%nat then Some rest
      else match removeFrom c rest with Some r => Some (sub :: r) | None => None end
  end.

Definition removeSubscriber (c : nat) : op MemoryAdapter error unit := λ a,
  match removeFrom c (ma_subscribers a) with
  | None => (a, Ok tt)
  | Some subs =>
      match closeChan c (ma_chans a) with
      | Ok chans => (set_subs a (ma_closed a) subs chans (ma_nextChan a), Ok tt)
      | Err e => (a, Err e)
      end
  end.

(** The historical drain: a send blocks when the buffer is full, unless the
    context is done; the [k]-th [select] may take the cancellation branch. *)
Fixpoint drainHistory (env : Env) (fromPosition : Z) (k : nat) (log : list StoredEvent)
    (c : chan) : chan * res unit :=
  match log with
  | [] => (c, Ok tt)
  | event :: rest =>
      if fromPosition <? se_GlobalPosition event then
        if ctx_Done env k then (c, Err (ctx_DoneErr env))
        else if chanHasRoom c then
          drainHistory env fromPosition (S k) rest (chanPush (cloneStoredEvent event) c)
        else (c, Err Blocked)
      else drainHistory env fromPosition k rest c
  end.

Definition SubscribeAll (env : Env) (fromPosition : Z) (opts : list SubscriptionOptions)
    : op MemoryAdapter error nat :=
  guarded (λ a, check_ctx env;; returnIf (ma_closed a) ErrAdapterClosed) (λ a,
    let bufferSize := getBufferSize opts in
    let historyCount :=
      Z.of_nat (length (filter (λ e, fromPosition < se_GlobalPosition e) (ma_globalEvents a))) in
    let cap := i64 (bufferSize + historyCount) in
    match makechan cap with Err p => (a, Err p) | Ok _ =>
    let ch := ma_nextChan a in
    let subs := ma_subscribers a ++ [mkSubscriber ch (getOnError opts)] in
    let '(c, r) := drainHistory env fromPosition 0 (ma_globalEvents a) (mkChan [] [] cap false) in
    let a1 := set_subs a (ma_closed a) subs (<[ch := c]> (ma_chans a)) (S ch) in
    match r with
    | Ok _ => (a1, Ok ch)
    | Err Blocked => (a1, Err Blocked)
    | Err e =>
        match removeSubscriber ch a1 with
        | (a2, Ok _) => (a2, Err e)
        | (a2, Err p) => (a2, Err p)
        end
    end end).

(** The goroutine of [filterEvents]: it takes the events of the source channel
    in order and forwards those satisfying [filter], until the context is done
    ([stop] of them were forwarded then, if any). *)
Definition filterEvents (stop : option nat) (filter : StoredEvent → bool)
    (source : list StoredEvent) : list StoredEvent :=
  let forwarded := List.filter filter source in
  match stop with Some n => take n forwarded | None => forwarded end.

Definition streamFilter (streamID : string) (fromVersion : Z) (e : StoredEvent) : bool :=
  bool_decide (se_StreamID e = streamID) && (fromVersion <? se_Version e).

Definition categoryFilter (category : string) (e : StoredEvent) : bool :=
  bool_decide (ExtractCategory (se_StreamID e) = category).

(** [SubscribeStream] and [SubscribeCategory] return the channel the goroutine
    reads with the predicate it applies. *)
Definition SubscribeStream (env : Env) (streamID : string) (fromVersion : Z)
    (opts : list SubscriptionOptions) : op MemoryAdapter error (nat * (StoredEvent → bool)) :=
  guarded (λ _, check_ctx env) (λ a,
    match SubscribeAll env 0 opts a with
    | (a1, Ok ch) => (a1, Ok (ch, streamFilter streamID fromVersion))
    | (a1, Err e) => (a1, Err e)
    end).

Definition SubscribeCategory (env : Env) (category : string) (fromPosition : Z)
    (opts : list SubscriptionOptions) : op MemoryAdapter error (nat * (StoredEvent → bool)) :=
  guarded (λ _, check_ctx env) (λ a,
    match SubscribeAll env fromPosition opts a with
    | (a1, Ok ch) => (a1, Ok (ch, categoryFilter category))
    | (a1, Err e) => (a1, Err e)
    end).

(** [Close] closes every subscriber channel and forgets them. *)
Fixpoint closeAll (subs : list subscriber) (chans : gmap nat chan) : res (gmap nat chan) :=
  match subs with
  | [] => Ok chans
  | sub :: rest => chans ← closeChan (sub_ch sub) chans; closeAll rest chans
  end.

Definition Close : op MemoryAdapter error unit := λ a,
  match closeAll (ma_subscribers a) (ma_chans a) with
  | Ok chans => (set_subs a true [] chans (ma_nextChan a), Ok tt)
  | Err e => (a, Err e)
  end.

(** ** The invariant of the subscriptions *)

Definition chan_ok (c : chan) : Prop :=
  ch_closed c = false ∧ Z.of_nat (length (ch_buf c)) ≤ ch_cap c.

Record subs_wf (subs : list subscriber) (chans : gmap nat chan) : Prop := {
  sw_nodup : NoDup (sub_ch <$> subs);
  sw_open : ∀ s, s ∈ subs → ∃ c, chans !! sub_ch s = Some c ∧ chan_ok c;
}.

Record chans_wf (a : MemoryAdapter) : Prop := {
  cw_subs : subs_wf (ma_subscribers a) (ma_chans a);
  cw_fresh : ∀ n c, ma_chans a !! n = Some c → (n < ma_nextChan a)%nat;
  cw_closed : ma_closed a = true → ma_subscribers a = [];
}.

(** The events a mask selects, and the errors reported for the others. *)
Fixpoint keep {A} (mask : list bool) (l : list A) : list A :=
  match mask, l with
  | b :: mask, x :: l => if (b : bool) then x :: keep mask l else keep mask l
  | _, _ => []
  end.

Definition report (s : subscriber) (dropped : list StoredEvent) : list pendingDrop :=
  match sub_onError s with
  | Some cb => (λ e, (cb, SubscriptionDropError (se_StreamID e) (se_GlobalPosition e))) <$> dropped
  | None => []
  end.

Lemma keep_all {A} (l : list A) n : (length l ≤ n)%nat → keep (replicate n true) l = l.
Proof. revert n. induction l; intros [|n]; cbn; try lia; [done..|]. intros. rewrite IHl; [done|lia]. Qed.

Lemma keep_none {A} (l : list A) n : keep (negb <$> replicate n true) l = [].
Proof. revert n. induction l; intros [|n]; cbn; [done..|]. apply IHl. Qed.

Lemma report_app s l1 l2 : report s (l1 ++ l2) = report s l1 ++ report s l2.
Proof. unfold report. destruct (sub_onError s); [by rewrite fmap_app|done]. Qed.

Lemma chanRecv_sent n c : chanSent (chanRecv n c) = chanSent c.
Proof. unfold chanSent; cbn. by rewrite <- app_assoc, take_drop. Qed.

Lemma chanRecv_ok n c : chan_ok c → chan_ok (chanRecv n c).
Proof. intros [? ?]. split; cbn; [done|]. rewrite length_drop. lia. Qed.

Lemma chanPush_ok e c : chan_ok c → chanHasRoom c = true → chan_ok (chanPush e c).
Proof. intros [? ?] ?. unfold chanHasRoom in *. zbool. split; cbn; [done|]. rewrite length_app; cbn. lia. Qed.

Lemma chanPush_sent e c : chanSent (chanPush e c) = chanSent c ++ [e].
Proof. unfold chanSent; cbn. by rewrite app_assoc. Qed.

#[export] Hint Rewrite chanRecv_sent chanPush_sent : mink_rw.
#[export] Hint Resolve chanRecv_ok chanPush_ok : mink.

(** One subscriber: each event is delivered, in order, or reported dropped. *)
Lemma notifyOne_spec recv s k events chans drops c :
  chans !! sub_ch s = Some c → chan_ok c →
  ∃ mask c',
    notifyOne recv s k events chans drops =
      Ok (<[sub_ch s := c']> chans, drops ++ report s (keep (negb <$> mask) events)) ∧
    length mask = length events ∧ chan_ok c' ∧ ch_cap c' = ch_cap c ∧
    chanSent c' = chanSent c ++ keep mask events ∧
    (Z.of_nat (length (ch_buf c)) + Z.of_nat (length events) ≤ ch_cap c →
       mask = replicate (length events) true ∧
       Z.of_nat (length (ch_buf c')) ≤ Z.of_nat (length (ch_buf c)) + Z.of_nat (length events)).
Proof.
  revert k chans drops c. induction events as [|e events IH]; intros k chans drops c Hc Hok.
  - exists [], c. cbn. rewrite !app_nil_r, insert_id by done. unfold report. cbn.
    destruct (sub_onError s); cbn; rewrite ?app_nil_r; repeat split; try done; try apply Hok; lia.
  - cbn [notifyOne]. set (c0 := chanRecv (recv (sub_ch s) k) c).
    assert (alter (chanRecv (recv (sub_ch s) k)) (sub_ch s) chans = <[sub_ch s := c0]> chans) as ->.
    { apply map_eq. intros i. destruct (decide (i = sub_ch s)) as [->|].
      - by rewrite lookup_alter_eq, Hc, lookup_insert_eq.
      - by rewrite lookup_alter_ne, lookup_insert_ne by done. }
    assert (chan_ok c0) as Hok0 by (by apply chanRecv_ok).
    assert (length (ch_buf c0) ≤ length (ch_buf c))%nat as Hlen0
      by (cbn; rewrite length_drop; lia).
    unfold trySend. rewrite lookup_insert_eq. pose proof Hok0 as [Hcl Hcap].
    rewrite Hcl, cloneStoredEvent_id.
    destruct (chanHasRoom c0) eqn:Hroom; cbn [mbind result_bind].
    + rewrite insert_insert_eq.
      destruct (IH (S k) (<[sub_ch s := chanPush e c0]> chans) drops (chanPush e c0))
        as (mask & c' & Heq & Hlm & Hokc & Hcapc & Hsent & Hroomy);
        [by rewrite lookup_insert_eq|by apply chanPush_ok|].
      exists (true :: mask), c'. rewrite Heq, insert_insert_eq. cbn.
      repeat split; try done; try apply Hokc; [by rewrite Hlm| | |].
      * rewrite Hsent, chanPush_sent. unfold c0. by rewrite chanRecv_sent, <- app_assoc.
      * f_equal. apply Hroomy. cbn. rewrite length_app; cbn. unfold c0 in *; cbn in *. lia.
      * destruct Hroomy as [_ Hb]; cbn in *; rewrite length_app in *; cbn in *; lia.
    + destruct (IH (S k) (<[sub_ch s := c0]> chans)
                 (match sub_onError s with
                  | Some cb => drops ++ [(cb, SubscriptionDropError (se_StreamID e) (se_GlobalPosition e))]
                  | None => drops end) c0)
        as (mask & c' & Heq & Hlm & Hokc & Hcapc & Hsent & Hroomy);
        [by rewrite lookup_insert_eq|done|].
      exists (false :: mask), c'. rewrite Heq, insert_insert_eq. cbn.
      repeat split; try done; try apply Hokc.
      * f_equal. f_equal. unfold report. destruct (sub_onError s); cbn; [by rewrite <- app_assoc|done].
      * by rewrite Hlm.
      * rewrite Hsent. unfold c0. by rewrite chanRecv_sent.
      * exfalso. unfold chanHasRoom in Hroom. zbool. unfold c0 in *; cbn in *. lia.
      * exfalso. unfold chanHasRoom in Hroom. zbool. unfold c0 in *; cbn in *. lia.
Qed.

(** The whole fan-out: it never panics, and every subscriber gets its own split. *)
Lemma notifySubscribers_spec recv subs events chans drops :
  subs_wf subs chans →
  ∃ mask chans',
    notifySubscribers recv subs events chans drops =
      Ok (chans', drops ++ (subs ≫= λ s, report s (keep (negb <$> mask (sub_ch s)) events))) ∧
    subs_wf subs chans' ∧
    (∀ n, n ∉ sub_ch <$> subs → chans' !! n = chans !! n) ∧
    (∀ s c, s ∈ subs → chans !! sub_ch s = Some c →
       length (mask (sub_ch s)) = length events ∧
       ∃ c', chans' !! sub_ch s = Some c' ∧ ch_cap c' = ch_cap c ∧
         chanSent c' = chanSent c ++ keep (mask (sub_ch s)) events ∧
         (Z.of_nat (length (ch_buf c)) + Z.of_nat (length events) ≤ ch_cap c →
            mask (sub_ch s) = replicate (length events) true ∧
            Z.of_nat (length (ch_buf c')) ≤
              Z.of_nat (length (ch_buf c)) + Z.of_nat (length events))).
Proof.
  revert chans drops. induction subs as [|s subs IH]; intros chans drops Hwf.
  - exists (λ _, []), chans. cbn. rewrite app_nil_r.
    split; [done|]. split; [done|]. split; [done|].
    intros s c Hs. by apply not_elem_of_nil in Hs.
  - destruct Hwf as [Hnd Hop]. cbn in Hnd. apply NoDup_cons in Hnd as [Hni Hnd].
    destruct (Hop s (list_elem_of_here _ _)) as (c & Hc & Hok).
    destruct (notifyOne_spec recv s 0 events chans drops c Hc Hok)
      as (m0 & c' & Heq & Hlm & Hokc & Hcap & Hsent & Hroom).
    cbn [notifySubscribers]. rewrite Heq. cbn [mbind result_bind].
    assert (∀ s', s' ∈ subs → sub_ch s' ≠ sub_ch s) as Hdiff.
    { intros s' Hs' E. apply Hni. rewrite <- E. by apply list_elem_of_fmap_2. }
    assert (subs_wf subs (<[sub_ch s := c']> chans)) as Hwf'.
    { split; [done|]. intros s' Hs'. rewrite lookup_insert_ne by (symmetry; auto).
      apply Hop. by right. }
    destruct (IH _ (drops ++ report s (keep (negb <$> m0) events)) Hwf')
      as (mask & chans' & Heq' & Hwf'' & Hun & Hper).
    exists (λ n, if decide (n = sub_ch s) then m0 else mask n), chans'.
    assert (chans' !! sub_ch s = Some c') as Hcs by (rewrite Hun by done; apply lookup_insert_eq).
    rewrite Heq'. split; [|split; [|split]].
    + cbn. rewrite decide_True by done. rewrite <- app_assoc. f_equal. f_equal. f_equal. f_equal.
      apply list_bind_ext_in. intros s' Hs'. by rewrite decide_False by auto.
    + split; [by apply NoDup_cons|]. intros s' [->|Hs']%elem_of_cons; [eauto|].
      by apply (sw_open _ _ Hwf'').
    + intros n Hn. cbn in Hn. apply not_elem_of_cons in Hn as [? ?].
      rewrite Hun by done. by rewrite lookup_insert_ne.
    + intros s' cs [->|Hs']%elem_of_cons Hcs'.
      * simplify_eq. rewrite decide_True by done. split; [done|]. by exists c'.
      * rewrite decide_False by auto. apply Hper; [done|].
        by rewrite lookup_insert_ne by (symmetry; auto).
Qed.

(** ** Preservation *)

Lemma chans_wf_same_rest a a' : same_rest a a' → chans_wf a → chans_wf a'.
Proof.
  intros (_ & _ & Hc & Hs & _ & _ & Hch & Hn) [H1 H2 H3].
  split; rewrite ?Hs, ?Hch, ?Hn, ?Hc; done.
Qed.

(** The history goes to the channel whole, unless the context is done. *)
Lemma drainHistory_spec env from k log c :
  chan_ok c →
  Z.of_nat (length (ch_buf c)) +
    Z.of_nat (length (filter (λ e, from < se_GlobalPosition e) log)) ≤ ch_cap c →
  let '(c', r) := drainHistory env from k log c in
  chan_ok c' ∧ ch_cap c' = ch_cap c ∧ ch_recv c' = ch_recv c ∧
  match r with
  | Ok _ => ch_buf c' = ch_buf c ++ filter (λ e, from < se_GlobalPosition e) log
  | Err e => e = ctx_DoneErr env ∧ ∃ k, ctx_Done env k = true
  end.
Proof.
  revert k c. induction log as [|e log IH]; intros k c Hok Hroom; cbn [drainHistory].
  - cbn. rewrite app_nil_r. repeat split; apply Hok.
  - destruct (from <? se_GlobalPosition e) eqn:E; zbool.
    + rewrite filter_cons_True in Hroom |- * by done.
      destruct (ctx_Done env k) eqn:D; [split; [done|]; eauto|].
      assert (chanHasRoom c = true) as Hr
        by (unfold chanHasRoom; apply Z.ltb_lt; cbn in Hroom; lia).
      rewrite Hr, cloneStoredEvent_id. specialize (IH (S k) (chanPush e c)).
      destruct (drainHistory env from (S k) log (chanPush e c)) as [c' r].
      destruct IH as (? & Hcap & Hrecv & Hres); [by apply chanPush_ok| |].
      { cbn in *. rewrite length_app. cbn. lia. }
      split; [done|]. split; [done|]. split; [done|].
      destruct r; [|done]. by rewrite Hres; cbn; rewrite <- app_assoc.
    + rewrite filter_cons_False in Hroom |- * by lia. by apply IH.
Qed.

Lemma subs_wf_snoc subs chans n c h :
  subs_wf subs chans → chans !! n = None → chan_ok c →
  subs_wf (subs ++ [mkSubscriber n h]) (<[n := c]> chans).
Proof.
  intros [Hnd Hop] Hn Hok.
  assert (∀ s, s ∈ subs → sub_ch s ≠ n) as Hd.
  { intros s Hs E. destruct (Hop s Hs) as (? & H & _). congruence. }
  split.
  - rewrite fmap_app. apply NoDup_app. split; [done|]. split; [|apply NoDup_singleton].
    intros x Hx Hx'. cbn in Hx'. apply list_elem_of_singleton in Hx'. subst.
    apply list_elem_of_fmap in Hx as (s & ? & Hs). by eapply Hd.
  - intros s [Hs|Hs]%elem_of_app.
    + rewrite lookup_insert_ne by (symmetry; auto). by apply Hop.
    + apply list_elem_of_singleton in Hs as ->. cbn. rewrite lookup_insert_eq. eauto.
Qed.

Lemma removeFrom_spec c subs :
  match removeFrom c subs with
  | Some r => ∃ l1 s l2, subs = l1 ++ s :: l2 ∧ sub_ch s = c ∧ r = l1 ++ l2
  | None => c ∉ sub_ch <$> subs
  end.
Proof.
  induction subs as [|s subs IH]; cbn; [apply not_elem_of_nil|].
  destruct (Nat.eqb_spec (sub_ch s) c) as [E|E]; [by exists [], s, subs|].
  destruct (removeFrom c subs) as [r|].
  - destruct IH as (l1 & s' & l2 & -> & ? & ->). by exists (s :: l1), s', l2.
  - apply not_elem_of_cons. done.
Qed.

(** Cancelling a subscription closes its channel once and keeps the others. *)
Lemma removeSubscriber_spec c a :
  chans_wf a →
  let '(a', r) := removeSubscriber c a in
  r = Ok tt ∧ chans_wf a' ∧ abs a' = abs a ∧
  (c ∉ (sub_ch <$> ma_subscribers a')) ∧
  (∀ n, n ≠ c → ma_chans a' !! n = ma_chans a !! n) ∧ ma_nextChan a' = ma_nextChan a ∧
  ma_streams a' = ma_streams a ∧ ma_globalPosition a' = ma_globalPosition a.
Proof.
  intros [[Hnd Hop] Hfr Hcl]. unfold removeSubscriber.
  pose proof (removeFrom_spec c (ma_subscribers a)) as H.
  destruct (removeFrom c (ma_subscribers a)) as [r|] eqn:E; [|by repeat split].
  destruct H as (l1 & s & l2 & Hs & <- & ->).
  destruct (Hop s) as (ch & Hch & Hopen & Hcap); [rewrite Hs; apply elem_of_app; right; left|].
  unfold closeChan. rewrite Hch, Hopen.
  rewrite Hs, fmap_app, fmap_cons in Hnd.
  apply NoDup_app in Hnd as (Hnd1 & Hdis & [Hni Hnd2]%NoDup_cons).
  assert (sub_ch s ∉ sub_ch <$> (l1 ++ l2)) as Hfresh.
  { rewrite fmap_app, not_elem_of_app. split; [|done]. intros H. apply (Hdis _ H). left. }
  split; [done|]. split; [|split; [done|split; [done|split; [|done]]]].
  - split; cbn; [split| |].
    + rewrite fmap_app. apply NoDup_app. split; [done|]. split; [|done].
      intros x Hx Hx'. apply (Hdis x Hx). by right.
    + intros s' Hs'. rewrite lookup_insert_ne.
      * apply Hop. rewrite Hs. apply elem_of_app in Hs' as [?|?]; apply elem_of_app; [by left|].
        right. by right.
      * intros E'. apply Hfresh. rewrite E'. by apply list_elem_of_fmap_2.
    + intros n c' Hn. apply lookup_insert_Some in Hn as [[<- _]|[_ Hn]]; eauto.
    + intros Hc. apply Hcl in Hc. rewrite Hc in Hs. by destruct l1.
  - intros n Hn. cbn. by rewrite lookup_insert_ne.
Qed.

Lemma closeAll_spec subs chans :
  subs_wf subs chans →
  ∃ chans', closeAll subs chans = Ok chans' ∧
    (∀ n, is_Some (chans' !! n) ↔ is_Some (chans !! n)) ∧
    (∀ s, s ∈ subs → ∃ c, chans' !! sub_ch s = Some c ∧ ch_closed c = true).
Proof.
  revert chans. induction subs as [|s subs IH]; intros chans [Hnd Hop]; cbn.
  - exists chans. split; [done|]. split; [done|]. intros s Hs. by apply not_elem_of_nil in Hs.
  - cbn in Hnd. apply NoDup_cons in Hnd as [Hni Hnd].
    destruct (Hop s (list_elem_of_here _ _)) as (c & Hc & Hcl & Hcap).
    unfold closeChan. rewrite Hc, Hcl. cbn.
    destruct (IH (<[sub_ch s := mkChan (ch_recv c) (ch_buf c) (ch_cap c) true]> chans))
      as (chans' & Heq & Hdom & Hall).
    { split; [done|]. intros s' Hs'. rewrite lookup_insert_ne; [by apply Hop; right|].
      intros E. apply Hni. rewrite E. by apply list_elem_of_fmap_2. }
    exists chans'. split; [done|]. split.
    + intros n. rewrite Hdom. destruct (decide (n = sub_ch s)) as [->|].
      * rewrite lookup_insert_eq, Hc. split; eauto.
      * by rewrite lookup_insert_ne.
    + intros s' [->|Hs']%elem_of_cons; [|by apply Hall].
      assert (∀ subs cs cs' n c, closeAll subs cs = Ok cs' → n ∉ sub_ch <$> subs →
                cs !! n = Some c → cs' !! n = Some c) as Hkeep.
      { clear. intros subs. induction subs as [|s0 subs IH]; intros cs cs' n c; cbn; [by intros [= ->]|].
        intros (cs1 & H1 & H2)%bind_Ok [Hn1 Hn2]%not_elem_of_cons Hc. eapply IH; [done|done|].
        unfold closeChan in H1. go_cases. by rewrite lookup_insert_ne. }
      eexists. split; [eapply Hkeep; [done|done|apply lookup_insert_eq]|done].
Qed.

(** [Close] closes every subscriber channel and never panics. *)
Lemma Close_spec a :
  chans_wf a →
  ∃ a', Close a = (a', Ok tt) ∧ chans_wf a' ∧ ma_closed a' = true ∧ ma_subscribers a' = [] ∧
    ma_streams a' = ma_streams a ∧ ma_globalEvents a' = ma_globalEvents a ∧
    ma_globalPosition a' = ma_globalPosition a ∧
    (∀ s, s ∈ ma_subscribers a → ∃ c, ma_chans a' !! sub_ch s = Some c ∧ ch_closed c = true).
Proof.
  intros [Hs Hf Hc]. destruct (closeAll_spec _ _ Hs) as (chans' & Heq & Hdom & Hall).
  unfold Close. rewrite Heq. eexists. split; [done|]. split; [|by repeat split].
  split; cbn; [split; [constructor|]| |done].
  - intros s H. by apply not_elem_of_nil in H.
  - intros n c Hn. destruct (proj1 (Hdom n)) as [c' Hc']; eauto.
Qed.

(** Subscribing: the channel holds exactly the history past the position and
    keeps the caller's buffer free; the call never blocks. *)
Lemma SubscribeAll_spec env from opts a :
  log_wf a → chans_wf a →
  0 ≤ getBufferSize opts + Z.of_nat (length (ma_globalEvents a)) ≤ maxChanSize →
  let '(a', r) := SubscribeAll env from opts a in
  chans_wf a' ∧ abs a' = abs a ∧
  ma_streams a' = ma_streams a ∧ ma_globalPosition a' = ma_globalPosition a ∧
  match r with
  | Ok ch =>
      ma_subscribers a' = ma_subscribers a ++ [mkSubscriber ch (getOnError opts)] ∧
      ∃ c, ma_chans a' !! ch = Some c ∧ ch_closed c = false ∧ ch_recv c = [] ∧
        ch_buf c = filter (λ e, from < se_GlobalPosition e) (ma_globalEvents a) ∧
        ch_cap c = getBufferSize opts + Z.of_nat (length (ch_buf c))
  | Err e => (check_ctx env;; returnIf (ma_closed a) ErrAdapterClosed) = Err e ∨
             (e = ctx_DoneErr env ∧ ∃ k, ctx_Done env k = true)
  end.
Proof.
  intros Hwf Hcw Hbound. unfold SubscribeAll, guarded.
  destruct (check_ctx env;; (_ : res unit)) as [[]|e] eqn:Hg; [|by repeat split; auto; apply Hcw].
  assert (0 < getBufferSize opts) as Hbs.
  { unfold getBufferSize, defaultSubscriptionBuffer. destruct opts as [|o ?]; [lia|].
    destruct (0 <? so_BufferSize o) eqn:E; zbool; lia. }
  set (hist := filter (λ e, from < se_GlobalPosition e) (ma_globalEvents a)).
  assert (length hist ≤ length (ma_globalEvents a))%nat by apply length_filter.
  assert (maxChanSize ≤ MaxInt64) by done.
  rewrite i64_id by (unfold in_i64, MinInt64; lia). rewrite makechan_Ok by lia.
  set (n := ma_nextChan a). set (c0 := mkChan [] [] _ false).
  assert (ma_chans a !! n = None) as Hn.
  { destruct (ma_chans a !! n) eqn:E; [|done]. apply (cw_fresh _ Hcw) in E. unfold n in E. lia. }
  pose proof (drainHistory_spec env from 0 (ma_globalEvents a) c0) as Hd.
  destruct (drainHistory env from 0 (ma_globalEvents a) c0) as [c r].
  destruct Hd as (Hok & Hcap & Hrecv & Hr); [split; cbn; [done|lia]|cbn; fold hist; lia|].
  set (a1 := set_subs a _ _ _ _).
  assert (ma_closed a = false) as Hopen by (unfold check_ctx in Hg; inv_ok; done).
  assert (chans_wf a1) as Hcw1.
  { split; cbn; [apply subs_wf_snoc; [apply Hcw|done|done]| |congruence].
    intros m cm Hm. apply lookup_insert_Some in Hm as [[<- _]|[_ Hm]]; [lia|].
    apply (cw_fresh _ Hcw) in Hm. fold n in Hm. lia. }
  destruct r as [u|e].
  - split; [done|]. split; [done|]. split; [done|]. split; [done|]. split; [done|].
    exists c. cbn. rewrite lookup_insert_eq. destruct Hok. repeat split; try done.
    rewrite Hcap, Hr. done.
  - destruct Hr as [-> Hk].
    pose proof (removeSubscriber_spec n a1 Hcw1) as Hrm.
    destruct (removeSubscriber n a1) as [a2 r2].
    destruct Hrm as (-> & ? & Habs & _ & _ & _ & Hst & Hgp).
    destruct (ctx_DoneErr env) eqn:Hde; (split; [done|]); (split; [done|]);
      (split; [done|]); (split; [done|]); auto.
Qed.

#[export] Hint Resolve chans_wf_same_rest : mink.
