(* ===== verification/MemoryAdmin.v ===== *)
(** * The in-memory event store: command-line operations

    The introspection side of [src/adapters/memory/memory.go] used by the CLI:
    stream listings, statistics, projection records, migrations, diagnostics.
    Loops over a map use an arbitrary enumeration ([MapOrder]). *)

From S2P Require Import Prelude.
From S2P Require Import Types.
From S2P Require Import Common.
From S2P Require Import MemoryAdapter.
From S2P Require Import LogInvariant.
From Stdlib Require Import QArith.QArith_base.
Open Scope Z_scope.

Record StreamSummary := mkStreamSummary {
  ss_StreamID : string;
  ss_EventCount : Z;
  ss_LastEventType : string;
  ss_LastUpdated : Time;
}.

Record EventTypeCount := mkEventTypeCount { etc_Type : string; etc_Count : Z }.

(** [AvgEventsPerStream] is kept exact: the rounding of [float64] is not modelled. *)
Record EventStoreStats := mkEventStoreStats {
  es_TotalEvents : Z;
  es_TotalStreams : Z;
  es_EventTypes : Z;
  es_AvgEventsPerStream : Q;
  es_TopEventTypes : list EventTypeCount;
}.

Definition hasPrefix (s prefix : string) : bool := String.prefix prefix s.

Definition sortStreamSummaries : list StreamSummary → list StreamSummary :=
  exchangeSort (λ x y, ss_LastUpdated x <? ss_LastUpdated y).

Definition sortEventTypeCounts : list EventTypeCount → list EventTypeCount :=
  exchangeSort (λ x y, etc_Count x <? etc_Count y).

Definition sortStrings : list string → list string :=
  exchangeSort (λ x y, negb (String.leb x y)).

Section Admin.
Context {MO : MapOrder}.

Definition lastEventType (evs : list StoredEvent) : string :=
  match last evs with Some e => se_Type e | None => "" end.

Definition summarize (sd : streamData) : StreamSummary :=
  mkStreamSummary (si_StreamID (sd_info sd)) (si_EventCount (sd_info sd))
    (lastEventType (sd_events sd)) (si_UpdatedAt (sd_info sd)).

Definition ListStreams (env : Env) (prefix : string) (limit : Z) (a : MemoryAdapter)
    : res (list StreamSummary) :=
  check_ctx env;;
  returnIf (ma_closed a) ErrAdapterClosed;;
  let selected := filter (λ p : string * streamData,
                    prefix = "" ∨ hasPrefix (si_StreamID (sd_info p.2)) prefix = true)
                    (range (ma_streams a)) in
  let summaries := sortStreamSummaries ((λ p, summarize p.2) <$> selected) in
  Ok (if (0 <? limit) && (limit <? Z.of_nat (length summaries))
      then take (Z.to_nat limit) summaries else summaries).

(** The loop of [GetStreamEvents]: [n] events were kept so far. *)
Fixpoint pageEvents (fromVersion limit n : Z) (evs : list StoredEvent) : list StoredEvent :=
  match evs with
  | [] => []
  | e :: rest =>
      if fromVersion <? se_Version e then
        cloneStoredEvent e ::
        (if (0 <? limit) && (limit <=? n + 1) then []
         else pageEvents fromVersion limit (n + 1) rest)
      else pageEvents fromVersion limit n rest
  end.

Definition GetStreamEvents (env : Env) (streamID : string) (fromVersion limit : Z)
    (a : MemoryAdapter) : res (list StoredEvent) :=
  check_ctx env;;
  returnIf (ma_closed a) ErrAdapterClosed;;
  match ma_streams a !! streamID with
  | None => Ok []
  | Some stream => Ok (pageEvents fromVersion limit 0 (sd_events stream))
  end.

(** [typeCount[event.Type]++] over the log. *)
Definition countTypes (evs : list StoredEvent) : gmap string Z :=
  foldl (λ m e, <[se_Type e := i64 (default 0 (m !! se_Type e) + 1)]> m) ∅ evs.

Definition GetEventStoreStats (env : Env) (a : MemoryAdapter) : res EventStoreStats :=
  check_ctx env;;
  returnIf (ma_closed a) ErrAdapterClosed;;
  let total := Z.of_nat (length (ma_globalEvents a)) in
  let streams := Z.of_nat (size (ma_streams a)) in
  let typeCount := countTypes (ma_globalEvents a) in
  let avg := if 0 <? streams then (total # Z.to_pos streams)%Q else 0%Q in
  let top := sortEventTypeCounts ((λ p, mkEventTypeCount p.1 p.2) <$> range typeCount) in
  Ok (mkEventStoreStats total streams (Z.of_nat (size typeCount)) avg (take 5 top)).

Definition ListProjections (env : Env) (a : MemoryAdapter) : res (list projectionInfo) :=
  check_ctx env;;
  returnIf (ma_closed a) ErrAdapterClosed;;
  Ok ((range (ma_projections a)).*2).

Definition GetProjection (env : Env) (name : string) (a : MemoryAdapter)
    : res (option projectionInfo) :=
  check_ctx env;;
  returnIf (ma_closed a) ErrAdapterClosed;;
  Ok (ma_projections a !! name).

Definition SetProjectionStatus (env : Env) (name status : string)
    : op MemoryAdapter error unit :=
  guarded (λ a, check_ctx env;; returnIf (ma_closed a) ErrAdapterClosed) (λ a,
    match ma_projections a !! name with
    | None => (a, Err ErrStreamNotFound)
    | Some p =>
        (set_admin a (<[name := mkProjectionInfo (pi_name p) (pi_position p) status
                                  (time_Now env 0)]> (ma_projections a))
           (ma_migrations a), Ok tt)
    end).

Definition ResetProjectionCheckpoint (env : Env) (name : string)
    : op MemoryAdapter error unit :=
  guarded (λ a, check_ctx env;; returnIf (ma_closed a) ErrAdapterClosed) (λ a,
    let a := set_checkpoints a (<[name := 0]> (ma_checkpoints a)) in
    match ma_projections a !! name with
    | Some p =>
        (set_admin a (<[name := mkProjectionInfo (pi_name p) 0 (pi_status p)
                                  (time_Now env 0)]> (ma_projections a))
           (ma_migrations a), Ok tt)
    | None => (a, Ok tt)
    end).

Definition GetTotalEventCount (env : Env) (a : MemoryAdapter) : res Z :=
  check_ctx env;;
  returnIf (ma_closed a) ErrAdapterClosed;;
  Ok (i64 (ma_globalPosition a)).

Definition GetAppliedMigrations (env : Env) (a : MemoryAdapter) : res (list string) :=
  check_ctx env;;
  returnIf (ma_closed a) ErrAdapterClosed;;
  Ok (sortStrings ((range (ma_migrations a)).*1)).

Definition RecordMigration (env : Env) (name : string) : op MemoryAdapter error unit :=
  guarded (λ a, check_ctx env;; returnIf (ma_closed a) ErrAdapterClosed) (λ a,
    (set_admin a (ma_projections a)
       (<[name := mkMigrationRecord name (time_Now env 0)]> (ma_migrations a)), Ok tt)).

Definition RemoveMigrationRecord (env : Env) (name : string) : op MemoryAdapter error unit :=
  guarded (λ a, check_ctx env;; returnIf (ma_closed a) ErrAdapterClosed) (λ a,
    (set_admin a (ma_projections a) (delete name (ma_migrations a)), Ok tt)).

Definition ExecuteSQL (env : Env) (sql : string) (a : MemoryAdapter) : res unit :=
  check_ctx env;; returnIf (ma_closed a) ErrAdapterClosed.

(** The event count of [CheckSchema], summed over the streams. *)
Definition CheckSchema (env : Env) (tableName : string) (a : MemoryAdapter) : res Z :=
  check_ctx env;;
  returnIf (ma_closed a) ErrAdapterClosed;;
  Ok (foldl (λ n p, i64 (n + Z.of_nat (length (sd_events p.2)))) 0 (range (ma_streams a))).

(** Total, behind and maximum position of [GetProjectionHealth]. *)
Definition GetProjectionHealth (env : Env) (a : MemoryAdapter) : res (Z * Z * Z) :=
  check_ctx env;;
  returnIf (ma_closed a) ErrAdapterClosed;;
  let maxPosition := i64 (ma_globalPosition a) in
  let behind := foldl (λ n p, if pi_position p.2 <? maxPosition then i64 (n + 1) else n) 0
                  (range (ma_projections a)) in
  Ok (Z.of_nat (size (ma_projections a)), behind, maxPosition).
End Admin.
