(* ===== verification/Command.v ===== *)
(** * Commands

    [src/command.go] and the parts of [src/middleware.go] and [src/audit.go]
    that read a [context.Context]: what the bus sees of a command, the base
    commands embed, results, the context of a dispatch, and validation errors. *)

From S2P Require Import Prelude.
From S2P Require Import Types.

(** ** Commands

    A command is user code: what its methods answer.  The optional interfaces
    ([AggregateCommand], [IdempotentCommand] and those [middleware.go] and
    [audit.go] ask for) are [None] when it has no such method; [cmd_json] is what
    [json.Marshal] makes of it. *)
Record Command := mkCommand {
  cmd_CommandType : string;
  cmd_Validate : option error;
  cmd_AggregateID : option string;
  cmd_IdempotencyKey : option string;
  cmd_GetCommandID : option string;
  cmd_GetCorrelationID : option string;
  cmd_GetCausationID : option string;
  cmd_GetMetadataMap : option StringMap;
  cmd_json : res (list Z);
}.

(** ** The base *)

Record CommandBase := mkCommandBase {
  cb_CommandID : string;
  cb_CorrelationID : string;
  cb_CausationID : string;
  cb_Metadata : StringMap;
}.

Definition WithCommandID (id : string) (c : CommandBase) : CommandBase :=
  mkCommandBase id (cb_CorrelationID c) (cb_CausationID c) (cb_Metadata c).
Definition WithCorrelationID (id : string) (c : CommandBase) : CommandBase :=
  mkCommandBase (cb_CommandID c) id (cb_CausationID c) (cb_Metadata c).
Definition CommandBase_WithCausationID (id : string) (c : CommandBase) : CommandBase :=
  mkCommandBase (cb_CommandID c) (cb_CorrelationID c) id (cb_Metadata c).
(** The receiver is a value and the map a fresh one. *)
Definition WithMetadata (key value : string) (c : CommandBase) : CommandBase :=
  mkCommandBase (cb_CommandID c) (cb_CorrelationID c) (cb_CausationID c)
    (Some (<[key := value]> (default ∅ (cb_Metadata c)))).
Definition GetMetadata (key : string) (c : CommandBase) : string :=
  match cb_Metadata c with None => "" | Some m => default "" (m !! key) end.
Definition GetMetadataMap (c : CommandBase) : StringMap :=
  match cb_Metadata c with
  | None => None
  | Some m => if bool_decide (m = ∅) then None else Some m
  end.

(** A type that embeds the base: what is its own, and the base's methods. *)
Definition embedCommand (base : CommandBase) (cmdType : string) (validate : option error)
    (aggregateID idempotencyKey : option string) (json : res (list Z)) : Command :=
  mkCommand cmdType validate aggregateID idempotencyKey (Some (cb_CommandID base)) (Some (cb_CorrelationID base))
    (Some (cb_CausationID base)) (Some (GetMetadataMap base)) json.

(** ** Results *)

Record CommandResult := mkCommandResult {
  cr_Success : bool;
  cr_AggregateID : string;
  cr_Version : Z;
  cr_Data : option string; (* an opaque value; nil is None *)
  cr_Error : option error;
}.

Definition NewSuccessResult (aggregateID : string) (version : Z) : CommandResult :=
  mkCommandResult true aggregateID version None None.
Definition NewSuccessResultWithData (aggregateID : string) (version : Z) (data : option string) : CommandResult :=
  mkCommandResult true aggregateID version data None.
Definition NewErrorResult (err : error) : CommandResult :=
  mkCommandResult false "" 0 None (Some err).

Definition IsSuccess (r : CommandResult) : bool := cr_Success r && bool_decide (cr_Error r = None).
Definition IsError (r : CommandResult) : bool := negb (cr_Success r) || negb (bool_decide (cr_Error r = None)).

Lemma IsError_IsSuccess r : IsError r = negb (IsSuccess r).
Proof. unfold IsError, IsSuccess. by rewrite negb_andb. Qed.

(** ** The context of a dispatch

    [context.WithValue] chains a value in front of those of its parent; the
    library's keys are unexported types, so a user's key is none of them.
    [context.WithTimeout] keeps the earlier deadline. *)
Inductive ctxKey := correlationIDKey | causationIDKey | tenantIDKey | actorKey | userKey (name : string).

#[export] Instance ctxKey_eq_dec : EqDecision ctxKey.
Proof. solve_decision. Defined.

Record Ctx := mkCtx { cx_values : list (ctxKey * string); cx_deadline : option Time }.

Definition Background : Ctx := mkCtx [] None.

Fixpoint firstValue (key : ctxKey) (values : list (ctxKey * string)) : option string :=
  match values with
  | [] => None
  | (k, v) :: values => if bool_decide (k = key) then Some v else firstValue key values
  end.

Definition WithValue (key : ctxKey) (value : string) (ctx : Ctx) : Ctx :=
  mkCtx ((key, value) :: cx_values ctx) (cx_deadline ctx).
Definition Value (key : ctxKey) (ctx : Ctx) : option string := firstValue key (cx_values ctx).

Definition WithTimeout (now : Time) (timeout : Duration) (ctx : Ctx) : Ctx :=
  let deadline := i64 (now + timeout) in
  mkCtx (cx_values ctx)
    (match cx_deadline ctx with Some d => if d <? deadline then Some d else Some deadline | None => Some deadline end).

Definition CorrelationIDFromContext (ctx : Ctx) : string := default "" (Value correlationIDKey ctx).
Definition CausationIDFromContext (ctx : Ctx) : string := default "" (Value causationIDKey ctx).
Definition TenantIDFromContext (ctx : Ctx) : string := default "" (Value tenantIDKey ctx).
Definition ActorFromContext (ctx : Ctx) : string := default "" (Value actorKey ctx).
Definition WithCausationID (ctx : Ctx) (causationID : string) : Ctx := WithValue causationIDKey causationID ctx.
Definition WithTenantID (ctx : Ctx) (tenantID : string) : Ctx := WithValue tenantIDKey tenantID ctx.
Definition WithActor (ctx : Ctx) (actor : string) : Ctx := WithValue actorKey actor ctx.

Lemma Value_WithValue key value ctx : Value key (WithValue key value ctx) = Some value.
Proof. unfold Value, WithValue. cbn. by rewrite bool_decide_true. Qed.

Lemma Value_WithValue_ne key key' value ctx : key ≠ key' → Value key' (WithValue key value ctx) = Value key' ctx.
Proof. intros Hne. unfold Value, WithValue. cbn. by rewrite bool_decide_false. Qed.

Lemma Value_WithTimeout key now t ctx : Value key (WithTimeout now t ctx) = Value key ctx.
Proof. done. Qed.

#[export] Hint Rewrite Value_WithValue Value_WithTimeout : mink_rw.

(** [CommandContext]: a value is a string or something else. *)
Inductive anyValue := AnyString (s : string) | AnyOther (contents : string).

Record CommandContext := mkCommandContext {
  cc_Context : Ctx;
  cc_Command : Command;
  cc_Result : CommandResult;
  cc_Metadata : gmap string anyValue;
}.

Definition NewCommandContext (ctx : Ctx) (cmd : Command) : CommandContext :=
  mkCommandContext ctx cmd (mkCommandResult false "" 0 None None) ∅.
Definition Set_ (key : string) (value : anyValue) (c : CommandContext) : CommandContext :=
  mkCommandContext (cc_Context c) (cc_Command c) (cc_Result c) (<[key := value]> (cc_Metadata c)).
Definition Get (key : string) (c : CommandContext) : option anyValue := cc_Metadata c !! key.
Definition GetString (key : string) (c : CommandContext) : string :=
  match cc_Metadata c !! key with Some (AnyString s) => s | _ => "" end.
Definition SetResult (result : CommandResult) (c : CommandContext) : CommandContext :=
  mkCommandContext (cc_Context c) (cc_Command c) result (cc_Metadata c).
Definition SetSuccess (aggregateID : string) (version : Z) : CommandContext → CommandContext :=
  SetResult (NewSuccessResult aggregateID version).
Definition SetError (err : error) : CommandContext → CommandContext := SetResult (NewErrorResult err).

(** ** Validation errors *)

Definition NewValidationError (cmdType field message : string) : error := ValidationError cmdType field message None.
Definition NewValidationErrorWithCause (cmdType field message : string) (cause : error) : error :=
  ValidationError cmdType field message (Some cause).

(** [MultiValidationError] while it is built: the type, and the errors. *)
Record multiErrors := mkMultiErrors { mv_CommandType : string; mv_Errors : list error }.

Definition NewMultiValidationError (cmdType : string) : multiErrors := mkMultiErrors cmdType [].
Definition Add (err : error) (e : multiErrors) : multiErrors := mkMultiErrors (mv_CommandType e) (mv_Errors e ++ [err]).
Definition AddField (field message : string) (e : multiErrors) : multiErrors :=
  Add (ValidationError (mv_CommandType e) field message None) e.
Definition HasErrors (e : multiErrors) : bool := (0 <? Z.of_nat (length (mv_Errors e))).
Definition asError (e : multiErrors) : error := MultiValidationError (mv_CommandType e) (mv_Errors e).
