(* ===== verification/IdempotencyStore.v ===== *)
(** * The idempotency keys and store

    The records of [src/adapters/adapter.go] and the in-memory store of
    [src/adapters/memory/idempotency.go].  Every operation holds the store's
    mutex and reads the clock while it does; the operations here take the time
    they read.  After it, the keys of [src/idempotency.go]. *)

From S2P Require Import Prelude.
From S2P Require Import Sha256.
From S2P Require Import Strconv.
From S2P Require Import Types.
From S2P Require Import Command.

Record IdempotencyRecord := mkIdempotencyRecord {
  ir_Key : string;
  ir_CommandType : string;
  ir_AggregateID : string;
  ir_Version : Z;
  ir_Response : Bytes;
  ir_Error : string;
  ir_Success : bool;
  ir_ProcessedAt : Time;
  ir_ExpiresAt : Time;
}.

Definition IsExpired (now : Time) (r : IdempotencyRecord) : bool := ir_ExpiresAt r <? now.

Definition CopyIdempotencyRecord (r : IdempotencyRecord) : IdempotencyRecord :=
  mkIdempotencyRecord (ir_Key r) (ir_CommandType r) (ir_AggregateID r) (ir_Version r)
    (match ir_Response r with Some b => Some b | None => None end)
    (ir_Error r) (ir_Success r) (ir_ProcessedAt r) (ir_ExpiresAt r).

Record IdempotencyStore := mkIdempotencyStore { records : gmap string IdempotencyRecord }.

Definition NewIdempotencyStore : IdempotencyStore := mkIdempotencyStore ∅.

Definition Exists (now : Time) (key : string) (s : IdempotencyStore) : bool :=
  match records s !! key with
  | None => false
  | Some record => negb (IsExpired now record)
  end.

Definition Store (record : IdempotencyRecord) (s : IdempotencyStore) : IdempotencyStore :=
  mkIdempotencyStore (<[ir_Key record := CopyIdempotencyRecord record]> (records s)).

Definition StoreIfAbsent (now : Time) (record : IdempotencyRecord) (s : IdempotencyStore)
    : IdempotencyStore * bool :=
  if (match records s !! ir_Key record with Some existing => negb (IsExpired now existing) | None => false end)
  then (s, false)
  else (mkIdempotencyStore (<[ir_Key record := CopyIdempotencyRecord record]> (records s)), true).

Definition Get (now : Time) (key : string) (s : IdempotencyStore) : option IdempotencyRecord :=
  match records s !! key with
  | None => None
  | Some record => if IsExpired now record then None else Some (CopyIdempotencyRecord record)
  end.

Definition Delete (key : string) (s : IdempotencyStore) : IdempotencyStore :=
  mkIdempotencyStore (delete key (records s)).

Definition DeleteIdempotencyBySubject `{MapOrder} (subjectID : string) (s : IdempotencyStore)
    : IdempotencyStore * Z :=
  if bool_decide (subjectID = "") then (s, 0)
  else
    let '(m, count) := rangeDelete (λ rec, bool_decide (ir_AggregateID rec = subjectID)) (records s) in
    (mkIdempotencyStore m, count).

Definition Cleanup `{MapOrder} (now : Time) (olderThan : Duration) (s : IdempotencyStore)
    : IdempotencyStore * Z :=
  let cutoff := now + i64 (- olderThan) in
  let '(m, count) :=
    rangeDelete (λ r, (ir_ProcessedAt r <? cutoff) || IsExpired now r) (records s) in
  (mkIdempotencyStore m, count).

Definition Len (s : IdempotencyStore) : Z := Z.of_nat (size (records s)).

Definition Clear (s : IdempotencyStore) : IdempotencyStore := mkIdempotencyStore ∅.

(** ** Lemmas *)

Lemma CopyIdempotencyRecord_id r : CopyIdempotencyRecord r = r.
Proof. by destruct r as [? ? ? ? [] ? ? ? ?]. Qed.

Lemma StoreIfAbsent_spec now r s :
  StoreIfAbsent now r s =
  if Exists now (ir_Key r) s then (s, false)
  else (mkIdempotencyStore (<[ir_Key r := r]> (records s)), true).
Proof.
  unfold StoreIfAbsent, Exists. rewrite CopyIdempotencyRecord_id.
  destruct (records s !! ir_Key r) as [x|]; [|done]. by destruct (IsExpired now x).
Qed.

Lemma Get_spec now key s :
  Get now key s = if Exists now key s then records s !! key else None.
Proof.
  unfold Get, Exists. destruct (records s !! key) as [x|]; [|done].
  rewrite CopyIdempotencyRecord_id. by destruct (IsExpired now x).
Qed.

#[export] Hint Rewrite CopyIdempotencyRecord_id : mink_rw.

(** * Idempotency keys *)

Definition MaxIdempotencyKeyLength : Z := 255.
Definition MaxIdempotencyFieldLength : Z := 255.

Definition GenerateIdempotencyKey (cmd : Command) : string :=
  match cmd_json cmd with
  | Err _ => ""
  | Ok data => cmd_CommandType cmd +:+ ":" +:+ EncodeToString (take 16 (Sum256 data))
  end.

Definition GetIdempotencyKey (cmd : Command) : string :=
  match cmd_IdempotencyKey cmd with
  | Some key => if bool_decide (key = "") then GenerateIdempotencyKey cmd else key
  | None => GenerateIdempotencyKey cmd
  end.

Definition len (s : string) : Z := Z.of_nat (String.length s).

Definition EffectiveIdempotencyKey (cmdType scope key : string) : string :=
  if bool_decide (key = "") then ""
  else
    let scopePrefix := if bool_decide (scope = "") then "" else Itoa (len scope) +:+ ":" +:+ scope +:+ "|" in
    let scoped := scopePrefix +:+ key in
    if len scoped <=? MaxIdempotencyKeyLength then scoped
    else
      let suffix := ":sha256:" +:+ EncodeToString (Sum256 (bytesOf scoped)) in
      truncateUTF8Bytes (scopePrefix +:+ cmdType) (MaxIdempotencyKeyLength - len suffix) +:+ suffix.

Definition IdempotencyKeyPrefix (prefix : string) (cmd : Command) : string :=
  let key := GetIdempotencyKey cmd in
  if bool_decide (key = "") then "" else prefix +:+ ":" +:+ key.

Definition IdempotencyKeyFromField (fieldGetter : Command → string) (cmd : Command) : string :=
  let key := fieldGetter cmd in
  if bool_decide (key = "") then GenerateIdempotencyKey cmd else cmd_CommandType cmd +:+ ":" +:+ key.

(** ** Lemmas *)

(** The scoped key before it is bounded. *)
Definition scopedKey (scope key : string) : string :=
  (if bool_decide (scope = "") then "" else Itoa (len scope) +:+ ":" +:+ scope +:+ "|") +:+ key.

Lemma EffectiveIdempotencyKey_unfold t scope key :
  key ≠ "" →
  EffectiveIdempotencyKey t scope key =
  if len (scopedKey scope key) <=? MaxIdempotencyKeyLength then scopedKey scope key
  else
    let suffix := ":sha256:" +:+ EncodeToString (Sum256 (bytesOf (scopedKey scope key))) in
    truncateUTF8Bytes ((if bool_decide (scope = "") then "" else Itoa (len scope) +:+ ":" +:+ scope +:+ "|") +:+ t)
      (MaxIdempotencyKeyLength - len suffix) +:+ suffix.
Proof. intros Hk. unfold EffectiveIdempotencyKey. by rewrite bool_decide_false. Qed.

Lemma scopedKey_inj s1 s2 k1 k2 :
  s1 ≠ "" → s2 ≠ "" → scopedKey s1 k1 = scopedKey s2 k2 → s1 = s2 ∧ k1 = k2.
Proof.
  intros H1 H2. unfold scopedKey. rewrite !bool_decide_false by done. rewrite !append_assoc.
  intros [El E]%colon_split; [|apply Itoa_chars..].
  apply Itoa_inj in El. apply append_same_length in E as [-> E]; [|unfold len in El; lia].
  by apply append_cancel_l in E.
Qed.

Lemma suffix_length d : length d = 32%nat → len (":sha256:" +:+ EncodeToString d) = 72.
Proof. intros Hd. unfold len. rewrite length_append, EncodeToString_length, Hd. done. Qed.

Lemma hexDigit_inj x y : 0 ≤ x < 16 → 0 ≤ y < 16 → hexDigit x = hexDigit y → x = y.
Proof.
  intros Hx Hy E. unfold hexDigit in E. apply (f_equal N_of_ascii) in E.
  rewrite !N_ascii_embedding in E by (repeat case_match; zbool; lia).
  repeat case_match; zbool; lia.
Qed.

Lemma EncodeToString_inj d1 d2 :
  Forall (λ b, 0 ≤ b < 256) d1 → Forall (λ b, 0 ≤ b < 256) d2 →
  EncodeToString d1 = EncodeToString d2 → d1 = d2.
Proof.
  intros H1. revert d2. induction H1 as [|b1 d1 Hb1 _ IH]; intros d2 H2; destruct H2 as [|b2 d2 Hb2 H2]; cbn; try done.
  intros [= E1 E2 E3].
  apply hexDigit_inj in E1; [|split; [apply Z.div_pos|apply Z.div_lt_upper_bound]; lia..].
  apply hexDigit_inj in E2; [|apply Z.mod_pos_bound; lia..].
  rewrite (Z.div_mod b1 16), (Z.div_mod b2 16), E1, E2 by lia. by rewrite (IH d2).
Qed.

Lemma Sum256_bytes msg : Forall (λ b, 0 ≤ b < 256) (Sum256 msg).
Proof.
  unfold Sum256. generalize (blocks (length (words (pad msg)) / 16) (words (pad msg)) initialHash).
  intros h. apply Forall_bind. apply Forall_forall. intros x _.
  generalize 4%nat. intros n. induction n as [|n IH]; cbn [bigEndian]; constructor; [|done].
  apply Z.mod_pos_bound. lia.
Qed.

Lemma EffectiveIdempotencyKey_nonempty t scope key :
  key ≠ "" → EffectiveIdempotencyKey t scope key ≠ "".
Proof.
  intros Hk. rewrite EffectiveIdempotencyKey_unfold by done. intros E.
  apply (f_equal String.length) in E. destruct (_ <=? _).
  - unfold scopedKey in E. rewrite length_append in E. destruct key; [done|].
    cbn [String.length] in E. lia.
  - cbn zeta in E. pose proof (suffix_length _ (Sum256_length (bytesOf (scopedKey scope key)))) as Hl.
    unfold len in Hl. rewrite length_append in E. cbn [String.length] in E. lia.
Qed.

(** ** The property of the keys *)

(** The key handed to the store fits its column, is empty exactly when the
    command has no key, and isolates the scopes: two scoped keys that fit are
    equal only for the same scope and client key, and two that were hashed are
    equal only if the digests of their full scoped keys are.  An unscoped
    command, though, may present any scope's key verbatim. *)
Theorem effective_key_isolates_scopes (t1 t2 s1 s2 k1 k2 : string) :
  k1 ≠ "" → k2 ≠ "" → s1 ≠ "" → s2 ≠ "" →
  let e1 := EffectiveIdempotencyKey t1 s1 k1 in
  let e2 := EffectiveIdempotencyKey t2 s2 k2 in
  len e1 ≤ MaxIdempotencyKeyLength ∧ e1 ≠ "" ∧ EffectiveIdempotencyKey t1 s1 "" = "" ∧
  (len (scopedKey s1 k1) ≤ MaxIdempotencyKeyLength → len (scopedKey s2 k2) ≤ MaxIdempotencyKeyLength →
     e1 = e2 → s1 = s2 ∧ k1 = k2) ∧
  (MaxIdempotencyKeyLength < len (scopedKey s1 k1) → MaxIdempotencyKeyLength < len (scopedKey s2 k2) →
     e1 = e2 → Sum256 (bytesOf (scopedKey s1 k1)) = Sum256 (bytesOf (scopedKey s2 k2))) ∧
  (len (scopedKey s1 k1) ≤ MaxIdempotencyKeyLength → EffectiveIdempotencyKey t2 "" (scopedKey s1 k1) = e1).
Proof.
  intros Hk1 Hk2 Hs1 Hs2 e1 e2. unfold e1, e2.
  rewrite (EffectiveIdempotencyKey_unfold t1 s1 k1), (EffectiveIdempotencyKey_unfold t2 s2 k2) by done.
  set (x1 := scopedKey s1 k1). set (x2 := scopedKey s2 k2).
  pose proof (suffix_length _ (Sum256_length (bytesOf x1))) as Hl1.
  pose proof (suffix_length _ (Sum256_length (bytesOf x2))) as Hl2.
  assert (x1 ≠ "") as Hx1.
  { unfold x1, scopedKey. rewrite bool_decide_false by done. intros E.
    apply (f_equal String.length) in E. rewrite !length_append in E. cbn in E. lia. }
  split; [|split; [|split; [done|split; [|split]]]].
  - destruct (Z.leb_spec (len x1) MaxIdempotencyKeyLength); [done|]. cbn zeta.
    unfold len at 1. rewrite length_append, Nat2Z.inj_add. fold (len (":sha256:" +:+ EncodeToString (Sum256 (bytesOf x1)))).
    rewrite Hl1. match goal with |- Z.of_nat (String.length (truncateUTF8Bytes ?s ?n)) + _ ≤ _ =>
      pose proof (truncateUTF8Bytes_length s n ltac:(done)) end. unfold MaxIdempotencyKeyLength in *. lia.
  - pose proof (EffectiveIdempotencyKey_nonempty t1 s1 k1 Hk1) as Hne. by rewrite EffectiveIdempotencyKey_unfold in Hne.
  - intros H1 H2. rewrite !(proj2 (Z.leb_le _ _)) by done. by apply scopedKey_inj.
  - intros H1 H2. rewrite !(proj2 (Z.leb_gt _ _)) by done. cbn zeta. rewrite Hl1, Hl2. intros E.
    apply append_same_tail in E; [|unfold len in Hl1, Hl2; lia]. apply append_cancel_l in E.
    apply EncodeToString_inj in E; auto using Sum256_bytes.
  - intros H1. rewrite EffectiveIdempotencyKey_unfold by done.
    change (scopedKey "" x1) with x1. by rewrite !(proj2 (Z.leb_le _ _)).
Qed.

(** ** Witness *)

Lemma effective_key_isolates_scopes_witness :
  EffectiveIdempotencyKey "CreateOrder" "tenant-a" "req-1" = "8:tenant-a|req-1" ∧
  EffectiveIdempotencyKey "CreateOrder" "a" "b|x" ≠ EffectiveIdempotencyKey "CreateOrder" "a|b" "x" ∧
  EffectiveIdempotencyKey "CreateOrder" "" "8:tenant-a|req-1" =
    EffectiveIdempotencyKey "CreateOrder" "tenant-a" "req-1".
Proof.
  split; [by vm_compute|]. split.
  - intros E. destruct (effective_key_isolates_scopes "CreateOrder" "CreateOrder" "a" "a|b" "b|x" "x")
      as (_ & _ & _ & H & _); [discriminate..|].
    destruct H as [H _]; [by vm_compute|by vm_compute|exact E|discriminate H].
  - destruct (effective_key_isolates_scopes "CreateOrder" "CreateOrder" "tenant-a" "b" "req-1" "x")
      as (_ & _ & _ & _ & _ & H); [discriminate..|]. apply H. by vm_compute.
Defined.
