(* ===== verification/Idempotency.v ===== *)
(** * The idempotency middleware

    [IdempotencyMiddleware] of [src/idempotency.go] as a program over its
    effects: the clock, the store calls, the handler.  One run of the program
    is one command; concurrent commands interleave at the effects, which the
    store makes atomic. *)

From S2P Require Import Prelude.
From S2P Require Import Strconv.
From S2P Require Import Types.
From S2P Require Import Command.
From S2P Require Import IdempotencyStore.

(** ** Results and records *)

Definition idempotencyProcessingMarker : string := "mink:processing".

Definition NewIdempotencyRecord `{ErrorText} (now : Time) (key cmdType : string) (result : CommandResult)
    (ttl : Duration) : IdempotencyRecord :=
  mkIdempotencyRecord key
    (truncateUTF8Bytes cmdType MaxIdempotencyFieldLength)
    (truncateUTF8Bytes (cr_AggregateID result) MaxIdempotencyFieldLength)
    (cr_Version result) None
    (match cr_Error result with Some e => error_Error e | None => "" end)
    (IsSuccess result) now (now + ttl).

Definition IdempotencyRecordToResult (r : IdempotencyRecord) : CommandResult :=
  if ir_Success r then NewSuccessResult (ir_AggregateID r) (ir_Version r)
  else if negb (bool_decide (ir_Error r = "")) then
    NewErrorResult (IdempotencyReplayError (ir_Key r) (ir_Error r))
  else NewErrorResult (IdempotencyReplayError (ir_Key r) "unknown error").

Definition newProcessingRecord (now : Time) (key cmdType : string) (ttl : Duration) : IdempotencyRecord :=
  mkIdempotencyRecord key (truncateUTF8Bytes cmdType MaxIdempotencyFieldLength) "" 0 None
    idempotencyProcessingMarker false now (now + ttl).

Definition isProcessingRecord (r : IdempotencyRecord) : bool :=
  negb (ir_Success r) && bool_decide (ir_Error r = idempotencyProcessingMarker).

(** ** Programs over the middleware's effects *)

Inductive prog :=
| PRet (result : CommandResult) (err : option error)
| PNow (k : Time → prog)
| PGet (key : string) (k : res (option IdempotencyRecord) → prog)
| PStoreIfAbsent (r : IdempotencyRecord) (k : res bool → prog)
| PStore (r : IdempotencyRecord) (k : res unit → prog)
| PDelete (key : string) (k : res unit → prog)
| PNext (k : CommandResult → option error → prog).

Record IdempotencyConfig := mkIdempotencyConfig {
  ic_TTL : Duration;
  ic_StoreErrors : bool;
  ic_FailClosed : bool;
  ic_ReservationTTL : Duration;
  ic_SkipCommands : list string;
}.

Definition Minute : Duration := 60000000000.

(** The defaults the middleware fills in. *)
Definition withDefaults (c : IdempotencyConfig) : IdempotencyConfig :=
  mkIdempotencyConfig
    (if ic_TTL c <=? 0 then 24 * 60 * Minute else ic_TTL c) (ic_StoreErrors c) (ic_FailClosed c)
    (if ic_ReservationTTL c <=? 0 then 5 * Minute else ic_ReservationTTL c) (ic_SkipCommands c).

Section Middleware.
Context `{ErrorText} (config : IdempotencyConfig) (cmdType key : string).

Definition inProgress : prog :=
  PRet (NewErrorResult (IdempotencyReplayError key "command in progress")) None.

(** After the handler: store the result, or release the reservation. *)
Definition mwRelease (reserved : bool) (result : CommandResult) (cmdErr : option error) : prog :=
  if reserved then PDelete key (λ _, PRet result cmdErr) else PRet result cmdErr.

Definition shouldStore (result : CommandResult) (cmdErr : option error) : bool :=
  IsSuccess result || (ic_StoreErrors config && negb (bool_decide (cmdErr = None))).

Definition mwStored (reserved : bool) (result : CommandResult) (cmdErr : option error) (r : res unit) : prog :=
  match r with
  | Err _ => mwRelease reserved result cmdErr
  | Ok _ => PRet result cmdErr
  end.

Definition mwStore (reserved : bool) (result : CommandResult) (cmdErr : option error) (now : Time) : prog :=
  PStore (NewIdempotencyRecord now key cmdType result (ic_TTL config)) (mwStored reserved result cmdErr).

Definition mwFinish (reserved : bool) (result : CommandResult) (cmdErr : option error) : prog :=
  if shouldStore result cmdErr then PNow (mwStore reserved result cmdErr)
  else mwRelease reserved result cmdErr.

Definition mwRun (reserved : bool) : prog := PNext (mwFinish reserved).

(** The reservation. *)
Definition mwLostCheck (existing : IdempotencyRecord) (now : Time) : prog :=
  if negb (IsExpired now existing) && negb (isProcessingRecord existing)
  then PRet (IdempotencyRecordToResult existing) None else inProgress.

Definition mwLost (g : res (option IdempotencyRecord)) : prog :=
  match g with
  | Ok (Some existing) => PNow (mwLostCheck existing)
  | _ => inProgress
  end.

Definition mwReserved (r : res bool) : prog :=
  match r with
  | Err serr => if ic_FailClosed config then PRet (NewErrorResult serr) (Some serr) else mwRun false
  | Ok false => PGet key mwLost
  | Ok true => mwRun true
  end.

Definition mwTry (now : Time) : prog :=
  PStoreIfAbsent (newProcessingRecord now key cmdType (ic_ReservationTTL config)) mwReserved.

Definition mwReserve : prog := PNow mwTry.

(** The look-up of an earlier record. *)
Definition mwCheckLive (record : IdempotencyRecord) (now : Time) : prog :=
  if negb (IsExpired now record) then PRet (IdempotencyRecordToResult record) None
  else PDelete key (λ _, mwReserve).

Definition mwCheckProcessing (record : IdempotencyRecord) (now : Time) : prog :=
  if negb (IsExpired now record) then inProgress else PNow (mwCheckLive record).

Definition mwFound (g : res (option IdempotencyRecord)) : prog :=
  match g with
  | Err err => if ic_FailClosed config then PRet (NewErrorResult err) (Some err) else PNext PRet
  | Ok None => mwReserve
  | Ok (Some record) =>
      if isProcessingRecord record then PNow (mwCheckProcessing record) else PNow (mwCheckLive record)
  end.

Definition mwStart : prog := PGet key mwFound.
End Middleware.

(** The middleware on a command: [Scope] and [KeyGenerator] are functions of the
    configuration, here already applied to the command. *)
Definition IdempotencyMiddleware `{ErrorText} (config : IdempotencyConfig) (cmdType scope key : string) : prog :=
  let config := withDefaults config in
  if bool_decide (cmdType ∈ ic_SkipCommands config) then PNext PRet
  else
    let key := EffectiveIdempotencyKey cmdType scope key in
    if bool_decide (key = "") then PNext PRet else mwStart config cmdType key.

Lemma IdempotencyMiddleware_mwStart `{ErrorText} config cmdType scope key :
  cmdType ∉ ic_SkipCommands config → key ≠ "" →
  IdempotencyMiddleware config cmdType scope key =
    mwStart (withDefaults config) cmdType (EffectiveIdempotencyKey cmdType scope key).
Proof.
  intros Hs Hk. unfold IdempotencyMiddleware. rewrite bool_decide_false by done.
  by rewrite bool_decide_false by by apply EffectiveIdempotencyKey_nonempty.
Qed.

(** ** One command against any store

    An execution with arbitrary answers of the store, the clock and the
    handler, and the calls it made. *)
Inductive event :=
| EGet (r : res (option IdempotencyRecord))
| ETry (r : res bool)
| EStore (rec : IdempotencyRecord) (r : res unit)
| EDelete (r : res unit)
| ERun (result : CommandResult) (err : option error).

Inductive exec : prog → list event → CommandResult → option error → Prop :=
| ex_ret res err : exec (PRet res err) [] res err
| ex_now k t tr res err : exec (k t) tr res err → exec (PNow k) tr res err
| ex_get key k r tr res err : exec (k r) tr res err → exec (PGet key k) (EGet r :: tr) res err
| ex_try rec k r tr res err : exec (k r) tr res err → exec (PStoreIfAbsent rec k) (ETry r :: tr) res err
| ex_store rec k r tr res err : exec (k r) tr res err → exec (PStore rec k) (EStore rec r :: tr) res err
| ex_delete key k r tr res err : exec (k r) tr res err → exec (PDelete key k) (EDelete r :: tr) res err
| ex_next k result e tr res err :
    exec (k result e) tr res err → exec (PNext k) (ERun result e :: tr) res err.

Definition isRun (e : event) : bool := match e with ERun _ _ => true | _ => false end.

Section Execution.
Context `{ErrorText} (config : IdempotencyConfig) (cmdType key : string).

Ltac exec_inv :=
  repeat match goal with
  | H : exec _ _ _ _ |- _ => progress (cbn in H)
  | H : exec (PRet _ _) _ _ _ |- _ => inversion H; clear H; subst
  | H : exec (PNow _) _ _ _ |- _ => inversion H; clear H; subst
  | H : exec (PGet _ _) _ _ _ |- _ => inversion H; clear H; subst
  | H : exec (PStoreIfAbsent _ _) _ _ _ |- _ => inversion H; clear H; subst
  | H : exec (PStore _ _) _ _ _ |- _ => inversion H; clear H; subst
  | H : exec (PDelete _ _) _ _ _ |- _ => inversion H; clear H; subst
  | H : exec (PNext _) _ _ _ |- _ => inversion H; clear H; subst
  end.

(** What follows the handler when the key was reserved. *)
Definition settles (tr : list event) (result : CommandResult) (err : option error) : Prop :=
  (shouldStore config result err = true ∧ ∃ now,
     let rec := NewIdempotencyRecord now key cmdType result (ic_TTL config) in
     tr = [EStore rec (Ok tt)] ∨ ∃ e d, tr = [EStore rec (Err e); EDelete d]) ∨
  (shouldStore config result err = false ∧ ∃ d, tr = [EDelete d]).

Lemma mwFinish_exec result e tr res err :
  exec (mwFinish config cmdType key true result e) tr res err → res = result ∧ err = e ∧ settles tr result e.
Proof.
  unfold mwFinish, settles. destruct (shouldStore config result e) eqn:Es; intros Hex.
  - inversion Hex as [|? t ? ? ? Hex1| | | | |]; subst; clear Hex. unfold mwStore in Hex1.
    inversion Hex1 as [| | | |? ? r ? ? ? Hex2| |]; subst; clear Hex1.
    destruct r as [[]|e']; cbn in Hex2.
    + inversion Hex2; subst. split; [done|]. split; [done|]. left. split; [done|]. exists t. by left.
    + exec_inv. split; [done|]. split; [done|]. left. split; [done|]. exists t. right. by eexists _, _.
  - cbn in Hex. exec_inv. split; [done|]. split; [done|]. right. split; [done|]. by eexists.
Qed.

(** Without a reservation the result is stored when it can be. *)
Lemma mwFinish_unreserved result e tr res err :
  exec (mwFinish config cmdType key false result e) tr res err →
  res = result ∧ err = e ∧ filter (λ x, isRun x = true) tr = [] ∧ (∀ r, ETry r ∉ tr).
Proof.
  unfold mwFinish. destruct (shouldStore config result e); intros Hex.
  - inversion Hex as [|? t ? ? ? Hex1| | | | |]; subst; clear Hex. unfold mwStore in Hex1.
    inversion Hex1 as [| | | |? ? r ? ? ? Hex2| |]; subst; clear Hex1.
    destruct r as [[]|e']; cbn in Hex2; inversion Hex2; subst; (split; [done|]); (split; [done|]); split; [done|set_solver|done|set_solver].
  - cbn in Hex. inversion Hex; subst. split; [done|]. split; [done|]. split; [done|set_solver].
Qed.

(** How one command ends. *)
Inductive ending : list event → CommandResult → option error → Prop :=
| end_answered tr res err :
    filter (λ x, isRun x = true) tr = [] → ETry (Ok true) ∉ tr → ending tr res err
| end_reserved pre post res err :
    filter (λ x, isRun x = true) pre = [] → ETry (Ok true) ∉ pre → settles post res err →
    ending (pre ++ [ETry (Ok true); ERun res err] ++ post) res err
| end_open pre e post res err :
    ic_FailClosed config = false → filter (λ x, isRun x = true) (pre ++ post) = [] →
    ETry (Ok true) ∉ pre ++ post → (∃ pre', pre = pre' ++ [ETry (Err e)] ∨ pre = pre' ++ [EGet (Err e)]) →
    ending (pre ++ [ERun res err] ++ post) res err.

Lemma ending_prefix e tr res err :
  isRun e = false → e ≠ ETry (Ok true) → ending tr res err → ending (e :: tr) res err.
Proof.
  intros Hr He Hend. assert (∀ l, filter (λ x, isRun x = true) l = [] → filter (λ x, isRun x = true) (e :: l) = []) as Hf
    by (intros l Hl; rewrite filter_cons_False; [done|by rewrite Hr]).
  destruct Hend as [tr res err H1 H2|pre post res err H1 H2 H3|pre e' post res err H1 H2 H3 (pre' & H4)].
  - apply end_answered; [by apply Hf|set_solver].
  - apply (end_reserved (e :: pre)); [by apply Hf|set_solver|done].
  - apply (end_open (e :: pre) e'); [done|by apply Hf|set_solver|].
    exists (e :: pre'). destruct H4 as [-> | ->]; auto.
Qed.

Lemma mwReserve_exec tr res err :
  exec (mwReserve config cmdType key) tr res err → ending tr res err.
Proof.
  intros Hex. inversion Hex as [|? t ? ? ? Hex1| | | | |]; subst; clear Hex.
  inversion Hex1 as [| | |? ? r ? ? ? Hex2| | |]; subst; clear Hex1.
  destruct r as [[]|e]; cbn in Hex2.
  - inversion Hex2 as [| | | | | |? result e tr' ? ? Hex3]; subst; clear Hex2.
    apply mwFinish_exec in Hex3 as (-> & -> & Hs). apply (end_reserved [] tr'); [done|set_solver|done].
  - inversion Hex2 as [| |? ? g tr1 ? ? Hex3| | | |]; subst; clear Hex2.
    assert (tr1 = []) as ->.
    { destruct g as [[x|]|]; cbn in Hex3; [|by inversion Hex3..]. inversion Hex3 as [|? t' ? ? ? Hex4| | | | |]; subst.
      unfold mwLostCheck in Hex4. by destruct (_ && _); inversion Hex4. }
    apply end_answered; [done|set_solver].
  - destruct (ic_FailClosed config) eqn:Ef; [inversion Hex2; subst; apply end_answered; [done|set_solver]|].
    inversion Hex2 as [| | | | | |? result e' tr' ? ? Hex3]; subst; clear Hex2.
    apply mwFinish_unreserved in Hex3 as (-> & -> & Hf & Ht).
    apply (end_open [ETry (Err e)] e tr'); [done|by cbn|set_solver|]. exists []. by left.
Qed.

Lemma mwStart_exec tr res err :
  exec (mwStart config cmdType key) tr res err → ending tr res err.
Proof.
  intros Hex. inversion Hex as [| |? ? g tr' ? ? Hex1| | | |]; subst; clear Hex.
  assert (∀ record tr, exec (PNow (mwCheckLive config cmdType key record)) tr res err → ending tr res err) as Hlive.
  { intros record tr Hx. inversion Hx as [|? t ? ? ? Hx1| | | | |]; subst. unfold mwCheckLive in Hx1.
    destruct (negb _); [inversion Hx1; subst; apply end_answered; [done|set_solver]|].
    inversion Hx1 as [| | | | |? ? d ? ? ? Hx2|]; subst. apply ending_prefix; [done..|]. by apply mwReserve_exec. }
  destruct g as [[record|]|e]; cbn in Hex1.
  - apply ending_prefix; [done..|]. destruct (isProcessingRecord record); [|by eapply Hlive].
    inversion Hex1 as [|? t ? ? ? Hx1| | | | |]; subst. unfold mwCheckProcessing in Hx1.
    destruct (negb _); [inversion Hx1; subst; apply end_answered; [done|set_solver]|]. by eapply Hlive.
  - apply ending_prefix; [done..|]. by apply mwReserve_exec.
  - destruct (ic_FailClosed config) eqn:Ef; [inversion Hex1; subst; apply end_answered; [done|set_solver]|].
    inversion Hex1 as [| | | | | |? result e' tr0 ? ? Hex3]; subst; clear Hex1. inversion Hex3; subst.
    apply (end_open [EGet (Err e)] e []); [done|done|set_solver|]. exists []. by right.
Qed.
End Execution.

(** Whatever the store answers, a command runs its handler at most once
    and returns that run's result when it does; a reservation it acquired is
    always settled: replaced by the stored result when it is to be kept and the
    store accepts it, released otherwise; and without a reservation the
    handler runs only under the fail-open policy, right after a store error. *)
Theorem idempotency_reservation_settled `{ErrorText} (config : IdempotencyConfig) (cmdType scope key : string)
    (tr : list event) (res : CommandResult) (err : option error) :
  cmdType ∉ ic_SkipCommands config → key ≠ "" →
  exec (IdempotencyMiddleware config cmdType scope key) tr res err →
  (length (filter (λ x, isRun x = true) tr) ≤ 1)%nat ∧
  (∀ result e, ERun result e ∈ tr → res = result ∧ err = e) ∧
  (ETry (Ok true) ∈ tr → ∃ pre post, tr = pre ++ [ETry (Ok true); ERun res err] ++ post ∧
     settles (withDefaults config) cmdType (EffectiveIdempotencyKey cmdType scope key) post res err) ∧
  (∀ result e, ERun result e ∈ tr → ETry (Ok true) ∉ tr →
     ic_FailClosed config = false ∧ ∃ pre post e', tr = pre ++ [ERun result e] ++ post ∧
       (last pre = Some (ETry (Err e')) ∨ last pre = Some (EGet (Err e')))).
Proof.
  intros Hskip Hkey. rewrite IdempotencyMiddleware_mwStart by done. intros Hex%mwStart_exec.
  assert (∀ l result e, filter (λ x, isRun x = true) l = [] → ERun result e ∉ l) as Hno.
  { intros l result e Hl Hin. assert (ERun result e ∈ filter (λ x, isRun x = true) l) as Hn
      by (by apply list_elem_of_filter). rewrite Hl in Hn. by apply not_elem_of_nil in Hn. }
  destruct Hex as [tr res err H1 H2|pre post res err H1 H2 H3|pre e' post res err H1 H2 H3 (pre' & H4)].
  - rewrite H1. split; [cbn; lia|]. split; [intros result e Hin; by destruct (Hno _ _ _ H1 Hin)|].
    split; [done|]. intros result e Hin; by destruct (Hno _ _ _ H1 Hin).
  - assert (filter (λ x, isRun x = true) post = []) as Hp.
    { destruct H3 as [(_ & now & [->|(? & ? & ->)])|(_ & ? & ->)]; done. }
    split; [|split; [|split]].
    + rewrite !filter_app, H1, Hp. vm_compute. lia.
    + intros result e [Hin|Hin]%elem_of_app; [by destruct (Hno _ _ _ H1 Hin)|].
      apply elem_of_cons in Hin as [?|Hin]; [done|]. apply elem_of_cons in Hin as [[= -> ->]|Hin]; [done|].
      by destruct (Hno _ _ _ Hp Hin).
    + intros _. by exists pre, post.
    + intros result e _ Hn. exfalso. apply Hn. set_solver.
  - rewrite filter_app in H2. apply app_eq_nil in H2 as [H2 H2'].
    assert (∀ result e, ERun result e ∈ pre ++ [ERun res err] ++ post → result = res ∧ e = err) as Hin'.
    { intros result e [Hin|Hin]%elem_of_app; [by destruct (Hno _ _ _ H2 Hin)|].
      apply elem_of_cons in Hin as [[= -> ->]|Hin]; [done|]. by destruct (Hno _ _ _ H2' Hin). }
    split; [|split; [|split]].
    + rewrite !filter_app, H2, H2'. vm_compute. lia.
    + intros result e Hin%Hin'. naive_solver.
    + intros Hin. exfalso. apply H3. set_solver.
    + intros result e Hin%Hin' _. destruct Hin as [-> ->]. split; [done|]. exists pre, post, e'. split; [done|].
      destruct H4 as [-> | ->]; rewrite last_snoc; auto.
Qed.

(** ** Witness *)

Definition sampleConfig : IdempotencyConfig := mkIdempotencyConfig 0 false false 0 [].

Definition sampleResult : CommandResult := NewSuccessResult "Order-1" 3.

(** A first delivery: nothing found, the key reserved, the result stored. *)
Lemma idempotency_reservation_settled_witness :
  let tr := [EGet (Ok None); ETry (Ok true); ERun sampleResult None;
             EStore (@NewIdempotencyRecord (λ _, "") 9 "8:tenant-a|req-1" "CreateOrder" sampleResult
                       (24 * 60 * Minute)) (Ok tt)] in
  length (filter (λ x, isRun x = true) tr) = 1%nat ∧
  @exec (@IdempotencyMiddleware (λ _, "") sampleConfig "CreateOrder" "tenant-a" "req-1") tr sampleResult None ∧
  ∃ pre post, tr = pre ++ [ETry (Ok true); ERun sampleResult None] ++ post ∧
    @settles (λ _, "") (withDefaults sampleConfig) "CreateOrder" "8:tenant-a|req-1" post sampleResult None.
Proof.
  intros tr. assert (@exec (@IdempotencyMiddleware (λ _, "") sampleConfig "CreateOrder" "tenant-a" "req-1")
    tr sampleResult None) as Hex.
  { apply ex_get. apply (ex_now _ 5). apply ex_try, ex_next. apply (ex_now _ 9). apply ex_store, ex_ret. }
  split; [reflexivity|]. split; [exact Hex|].
  refine (proj1 (proj2 (proj2 (@idempotency_reservation_settled (λ _, "") sampleConfig "CreateOrder" "tenant-a"
    "req-1" tr sampleResult None _ _ Hex))) _).
  - by apply not_elem_of_nil.
  - discriminate.
  - right; left.
Defined.
