(* ===== verification/IdempotencyConcurrent.v ===== *)
(** * Concurrent commands under one idempotency key

    Any number of commands that present the same effective key run the
    middleware of [src/idempotency.go] at the same time, over the in-memory
    store: their effects interleave in any order, the clock advances, other
    keys are written, and each handler returns any result.  Within the
    lifetime of the records the handler is never run by two of them at once,
    and never again once a run was kept. *)

From S2P Require Import Prelude.
From S2P Require Import Types.
From S2P Require Import Command.
From S2P Require Import IdempotencyStore.
From S2P Require Import Idempotency.

(** ** Interleaved execution *)

(** A handler run: the command, by number, and what its handler returned. *)
Record run := mkRun { run_cmd : nat; run_result : CommandResult; run_err : option error }.

Record world := mkWorld {
  w_store : IdempotencyStore;
  w_now : Time;
  w_threads : list prog;
  w_runs : list run;
}.

Definition set_thread (w : world) (i : nat) (p : prog) : world :=
  mkWorld (w_store w) (w_now w) (<[i := p]> (w_threads w)) (w_runs w).
Definition set_store (w : world) (s : IdempotencyStore) : world :=
  mkWorld s (w_now w) (w_threads w) (w_runs w).

(** One step before the deadline [T1]: the clock, another key, or one effect of
    one command. *)
Inductive wstep (K : string) (T1 : Time) : world → world → Prop :=
| ws_tick w t :
    w_now w ≤ t ≤ T1 → wstep K T1 w (mkWorld (w_store w) t (w_threads w) (w_runs w))
| ws_other w s :
    records s !! K = records (w_store w) !! K → wstep K T1 w (set_store w s)
| ws_now w i k :
    w_threads w !! i = Some (PNow k) → wstep K T1 w (set_thread w i (k (w_now w)))
| ws_get w i key k :
    w_threads w !! i = Some (PGet key k) →
    wstep K T1 w (set_thread w i (k (Ok (Get (w_now w) key (w_store w)))))
| ws_storeIfAbsent w i r k s b :
    w_threads w !! i = Some (PStoreIfAbsent r k) → StoreIfAbsent (w_now w) r (w_store w) = (s, b) →
    wstep K T1 w (set_thread (set_store w s) i (k (Ok b)))
| ws_store w i r k :
    w_threads w !! i = Some (PStore r k) →
    wstep K T1 w (set_thread (set_store w (Store r (w_store w))) i (k (Ok tt)))
| ws_delete w i key k :
    w_threads w !! i = Some (PDelete key k) →
    wstep K T1 w (set_thread (set_store w (Delete key (w_store w))) i (k (Ok tt)))
| ws_next w i k result err :
    w_threads w !! i = Some (PNext k) →
    wstep K T1 w (mkWorld (w_store w) (w_now w) (<[i := k result err]> (w_threads w))
                    (w_runs w ++ [mkRun i result err])).

(** Commands with their configuration and type, all under the key [K]. *)
Definition commands : Type := list (IdempotencyConfig * string).

Definition initial `{ErrorText} (cmds : commands) (K : string) (T0 : Time) (s : IdempotencyStore) : world :=
  mkWorld s T0 ((λ '(c, ct), mwStart c ct K) <$> cmds) [].

Inductive wreach (K : string) (T1 : Time) (w0 : world) : world → Prop :=
| wr_init : wreach K T1 w0 w0
| wr_step w w' : wreach K T1 w0 w → wstep K T1 w w' → wreach K T1 w0 w'.

(** A run whose result the middleware keeps. *)
Definition kept (cmds : commands) (r : run) : bool :=
  match cmds !! run_cmd r with
  | Some (c, _) => shouldStore c (run_result r) (run_err r)
  | None => false
  end.

Definition keptRuns (cmds : commands) (w : world) : list run :=
  filter (λ r, kept cmds r = true) (w_runs w).

(** ** The points of the program *)

Inductive pc :=
| CStart
| CFoundProcessing (r : IdempotencyRecord)
| CFoundLive (r : IdempotencyRecord)
| CReserve
| CTry (t : Time)
| CLost
| CLostCheck (r : IdempotencyRecord)
| CRun
| CStoreNow (result : CommandResult) (err : option error)
| CStore (t : Time) (result : CommandResult) (err : option error)
| CRelease (result : CommandResult) (err : option error)
| CDone (result : CommandResult) (err : option error).

Definition code `{ErrorText} (K : string) (cmd : IdempotencyConfig * string) (p : pc) : prog :=
  let '(c, ct) := cmd in
  match p with
  | CStart => mwStart c ct K
  | CFoundProcessing r => PNow (mwCheckProcessing c ct K r)
  | CFoundLive r => PNow (mwCheckLive c ct K r)
  | CReserve => mwReserve c ct K
  | CTry t => mwTry c ct K t
  | CLost => PGet K (mwLost K)
  | CLostCheck r => PNow (mwLostCheck K r)
  | CRun => mwRun c ct K true
  | CStoreNow res err => PNow (mwStore c ct K true res err)
  | CStore t res err => mwStore c ct K true res err t
  | CRelease res err => mwRelease K true res err
  | CDone res err => PRet res err
  end.

Section Invariant.
Context `{ErrorText} (cmds : commands) (K : string) (T0 T1 : Time).

(** The window: no record written in it expires in it. *)
Context (Hwin : ∀ c ct, (c, ct) ∈ cmds → T1 ≤ T0 + ic_ReservationTTL c ∧ T1 ≤ T0 + ic_TTL c).

(** A record made from a kept run. *)
Definition from_run (runs : list run) (r : IdempotencyRecord) : Prop :=
  ∃ j c ct t res err, cmds !! j = Some (c, ct) ∧ mkRun j res err ∈ runs ∧ shouldStore c res err = true ∧
    r = NewIdempotencyRecord t K ct res (ic_TTL c).

Definition known (runs : list run) (r : IdempotencyRecord) : Prop :=
  T1 ≤ ir_ExpiresAt r ∧ (isProcessingRecord r = true ∨ from_run runs r).

(** What a finished command returned. *)
Definition outcome (runs : list run) (i : nat) (res : CommandResult) (err : option error) : Prop :=
  mkRun i res err ∈ runs ∨
  (err = None ∧ res = NewErrorResult (IdempotencyReplayError K "command in progress")) ∨
  (err = None ∧ ∃ r, from_run runs r ∧ res = IdempotencyRecordToResult r).

(** A command that does not hold the key. *)
Definition idle (runs : list run) (i : nat) (p : pc) : Prop :=
  match p with
  | CStart | CReserve | CLost => True
  | CFoundProcessing r | CLostCheck r => known runs r
  | CFoundLive r => known runs r ∧ isProcessingRecord r = false
  | CTry t => T0 ≤ t
  | CDone res err => outcome runs i res err
  | _ => False
  end.

(** The command that holds the key, before and after its run is kept. *)
Definition holding (runs : list run) (i : nat) (p : pc) : Prop :=
  match p with
  | CRun => True
  | CRelease res err => mkRun i res err ∈ runs
  | _ => False
  end.

Definition keeping (runs : list run) (i : nat) (p : pc) : Prop :=
  match p with
  | CStoreNow res err => mkRun i res err ∈ runs ∧ ∃ c ct, cmds !! i = Some (c, ct) ∧ shouldStore c res err = true
  | CStore t res err => T0 ≤ t ∧ mkRun i res err ∈ runs ∧
      ∃ c ct, cmds !! i = Some (c, ct) ∧ shouldStore c res err = true
  | _ => False
  end.

Definition others_idle (runs : list run) (pcs : list pc) (i : nat) : Prop :=
  ∀ j p, pcs !! j = Some p → j ≠ i → idle runs j p.

(** The protocol: free, held, being kept, kept. *)
Inductive phase (runs : list run) (n : nat) (stored : option IdempotencyRecord) (pcs : list pc) : Prop :=
| ph_free : stored = None → n = 0%nat → (∀ j p, pcs !! j = Some p → idle runs j p) → phase runs n stored pcs
| ph_held i p r : stored = Some r → known runs r → n = 0%nat →
    pcs !! i = Some p → holding runs i p → others_idle runs pcs i → phase runs n stored pcs
| ph_keeping i p r : stored = Some r → known runs r → n = 1%nat →
    pcs !! i = Some p → keeping runs i p → others_idle runs pcs i → phase runs n stored pcs
| ph_kept r : stored = Some r → known runs r → n = 1%nat →
    (∀ j p, pcs !! j = Some p → idle runs j p) → phase runs n stored pcs.

Definition inv (w : world) : Prop :=
  T0 ≤ w_now w ≤ T1 ∧
  ∃ pcs, length pcs = length cmds ∧ w_threads w = zip_with (code K) cmds pcs ∧
    phase (w_runs w) (length (keptRuns cmds w)) (records (w_store w) !! K) pcs.

(** ** The invariant is preserved *)

Lemma from_run_mono runs runs' r : runs ⊆ runs' → from_run runs r → from_run runs' r.
Proof. intros Hs (j & c & ct & t & res & err & H1 & H2 & H3). exists j, c, ct, t, res, err. auto. Qed.

Lemma known_mono runs runs' r : runs ⊆ runs' → known runs r → known runs' r.
Proof. intros Hs [Ht [Hp|Hr]]; split; [done|by left|done|right; by eapply from_run_mono]. Qed.

Lemma outcome_mono runs runs' i res err : runs ⊆ runs' → outcome runs i res err → outcome runs' i res err.
Proof.
  intros Hs [Hr|[Hr|(He & r & Hr & E)]]; [by left; apply Hs|by right; left|].
  right; right. split; [done|]. exists r. split; [by eapply from_run_mono|done].
Qed.

Lemma idle_mono runs runs' i p : runs ⊆ runs' → idle runs i p → idle runs' i p.
Proof.
  destruct p; cbn; eauto using known_mono, outcome_mono. intros Hs [Hk Hp]. eauto using known_mono.
Qed.

Lemma insert_pcs i p pcs (threads : list prog) cmd :
  length pcs = length cmds → cmds !! i = Some cmd → threads = zip_with (code K) cmds pcs →
  <[i := code K cmd p]> threads = zip_with (code K) cmds (<[i := p]> pcs).
Proof.
  intros Hlen Hc ->. rewrite <- (list_insert_id cmds i cmd Hc) at 2. by rewrite insert_zip_with.
Qed.

Lemma known_live runs r t : known runs r → t ≤ T1 → IsExpired t r = false.
Proof. intros [Hk _] Ht. unfold IsExpired. apply Z.ltb_ge. lia. Qed.

(** Replacing the point of an idle command by another idle one. *)
Lemma phase_idle runs n stored pcs i p p' :
  pcs !! i = Some p → idle runs i p → idle runs i p' → phase runs n stored pcs → phase runs n stored (<[i := p']> pcs).
Proof.
  intros Hi Hp Hp' Hph.
  assert (∀ j q, <[i := p']> pcs !! j = Some q → (j = i ∧ q = p') ∨ (j ≠ i ∧ pcs !! j = Some q)) as Hl.
  { intros j q. destruct (decide (j = i)) as [->|Hne].
    - rewrite list_lookup_insert_eq by (by eapply lookup_lt_Some). intros [= <-]. by left.
    - rewrite list_lookup_insert_ne by done. by right. }
  assert (∀ j q, pcs !! j = Some q → (holding runs j q ∨ keeping runs j q) → j ≠ i) as Hne.
  { intros j q Hj Hq ->. assert (q = p) as -> by congruence. destruct p; cbn in *; tauto. }
  destruct Hph as [Hs Hn Hall|k q r Hs Hk Hn Hq Hh Ho|k q r Hs Hk Hn Hq Hh Ho|r Hs Hk Hn Hall].
  - apply ph_free; [done..|]. intros j q [[-> ->]|[_ Hj]]%Hl; [done|by apply (Hall j)].
  - assert (k ≠ i) by (eapply Hne; eauto).
    apply (ph_held _ _ _ _ k q r); [done..|by rewrite list_lookup_insert_ne|done|].
    intros j q' [[-> ->]|[_ Hj]]%Hl Hjk; [done|by apply (Ho j)].
  - assert (k ≠ i) by (eapply Hne; eauto).
    apply (ph_keeping _ _ _ _ k q r); [done..|by rewrite list_lookup_insert_ne|done|].
    intros j q' [[-> ->]|[_ Hj]]%Hl Hjk; [done|by apply (Ho j)].
  - apply (ph_kept _ _ _ _ r); [done..|]. intros j q [[-> ->]|[_ Hj]]%Hl; [done|by apply (Hall j)].
Qed.

(** The stored record, when there is one, is live. *)
Lemma phase_stored runs n stored pcs r : phase runs n stored pcs → stored = Some r → known runs r.
Proof. by destruct 1; intros; simplify_eq. Qed.

(** A command that is not idle holds the key alone. *)
Lemma phase_busy runs n stored pcs i p :
  phase runs n stored pcs → pcs !! i = Some p → ¬ idle runs i p →
  ∃ r, stored = Some r ∧ known runs r ∧ others_idle runs pcs i ∧
    ((n = 0%nat ∧ holding runs i p) ∨ (n = 1%nat ∧ keeping runs i p)).
Proof.
  intros Hph Hi Hni.
  destruct Hph as [Hs Hn Hall|k q r Hs Hk Hn Hq Hh Ho|k q r Hs Hk Hn Hq Hh Ho|r Hs Hk Hn Hall];
    try (by destruct Hni; apply Hall).
  all: destruct (decide (i = k)) as [->|Hne]; [|by destruct Hni; apply Ho].
  all: assert (q = p) as -> by congruence; exists r; split; [done|split; [done|split; [done|]]].
  - by left.
  - by right.
Qed.

(** One effect of a command that does not hold the key. *)
Lemma inv_idle_step w pcs i p c ct p' :
  length pcs = length cmds → w_threads w = zip_with (code K) cmds pcs → T0 ≤ w_now w ≤ T1 →
  phase (w_runs w) (length (keptRuns cmds w)) (records (w_store w) !! K) pcs →
  cmds !! i = Some (c, ct) → pcs !! i = Some p → idle (w_runs w) i p → idle (w_runs w) i p' →
  inv (set_thread w i (code K (c, ct) p')).
Proof.
  intros Hlen Hth Hnow Hph Hc Hp Hi Hi'. split; [done|]. exists (<[i := p']> pcs).
  split; [by rewrite length_insert|]. split; [by apply insert_pcs|]. by eapply phase_idle.
Qed.

(** What a command reads from the store under its key. *)
Lemma found_idle w c ct pcs i :
  T0 ≤ w_now w ≤ T1 →
  phase (w_runs w) (length (keptRuns cmds w)) (records (w_store w) !! K) pcs →
  cmds !! i = Some (c, ct) →
  ∃ p', mwFound c ct K (Ok (Get (w_now w) K (w_store w))) = code K (c, ct) p' ∧ idle (w_runs w) i p'.
Proof.
  intros Hnow Hph Hc. unfold Get. destruct (records (w_store w) !! K) as [r|] eqn:E.
  - pose proof (phase_stored _ _ _ _ r Hph eq_refl) as Hk.
    rewrite (known_live _ _ (w_now w) Hk), CopyIdempotencyRecord_id by lia. cbn [mwFound].
    destruct (isProcessingRecord r) eqn:Ep; [by exists (CFoundProcessing r)|by exists (CFoundLive r)].
  - by exists CReserve.
Qed.

Lemma lost_idle w c ct pcs i :
  T0 ≤ w_now w ≤ T1 →
  phase (w_runs w) (length (keptRuns cmds w)) (records (w_store w) !! K) pcs →
  cmds !! i = Some (c, ct) →
  ∃ p', mwLost K (Ok (Get (w_now w) K (w_store w))) = code K (c, ct) p' ∧ idle (w_runs w) i p'.
Proof.
  intros Hnow Hph Hc. unfold Get. destruct (records (w_store w) !! K) as [r|] eqn:E.
  - pose proof (phase_stored _ _ _ _ r Hph eq_refl) as Hk.
    rewrite (known_live _ _ (w_now w) Hk), CopyIdempotencyRecord_id by lia. by exists (CLostCheck r).
  - eexists (CDone _ _). split; [done|]. cbn. right; by left.
Qed.

(** The clock steps of a command that does not hold the key. *)
Lemma now_idle runs c ct i p k t :
  T0 ≤ t ≤ T1 → idle runs i p → code K (c, ct) p = PNow k →
  ∃ p', k t = code K (c, ct) p' ∧ idle runs i p'.
Proof.
  intros Ht Hi. destruct p as [|r|r| |t'| |r| |?|?|?|?]; cbn in Hi |- *; try done; intros [= <-].
  - unfold mwCheckProcessing. rewrite (known_live runs r t) by (done || lia). cbn [negb].
    eexists (CDone _ _). split; [done|]. right; by left.
  - destruct Hi as [Hk Hp]. unfold mwCheckLive. rewrite (known_live runs r t) by (done || lia). cbn [negb].
    eexists (CDone _ _). split; [done|]. right; right. split; [done|]. exists r. split; [|done].
    destruct Hk as [_ [Hk|Hk]]; [congruence|done].
  - exists (CTry t). split; [done|]. cbn. lia.
  - unfold mwLostCheck. rewrite (known_live runs r t) by (done || lia). cbn [negb andb].
    destruct (isProcessingRecord r) eqn:Ep; cbn [negb].
    + eexists (CDone _ _). split; [done|]. right; by left.
    + eexists (CDone _ _). split; [done|]. right; right. split; [done|]. exists r. split; [|done].
      destruct Hi as [_ [Hk|Hk]]; [congruence|done].
Qed.

Lemma others_insert runs pcs i p : others_idle runs pcs i → others_idle runs (<[i := p]> pcs) i.
Proof. intros Ho j q Hj Hne. rewrite list_lookup_insert_ne in Hj by done. by apply Ho. Qed.

Lemma others_all runs pcs i p :
  others_idle runs pcs i → idle runs i p → ∀ j q, <[i := p]> pcs !! j = Some q → idle runs j q.
Proof.
  intros Ho Hi j q Hj. destruct (decide (j = i)) as [->|Hne].
  - rewrite list_lookup_insert_eq in Hj; [by injection Hj as <-|].
    apply lookup_lt_Some in Hj. by rewrite length_insert in Hj.
  - rewrite list_lookup_insert_ne in Hj by done. by apply Ho.
Qed.

Lemma others_mono runs runs' pcs i : runs ⊆ runs' → others_idle runs pcs i → others_idle runs' pcs i.
Proof. intros Hs Ho j q Hj Hne. eapply idle_mono; [done|by apply Ho]. Qed.

(** The reservation: a free key is taken, a taken one is lost. *)
Lemma inv_try w pcs i c ct t s b :
  length pcs = length cmds → w_threads w = zip_with (code K) cmds pcs → T0 ≤ w_now w ≤ T1 →
  phase (w_runs w) (length (keptRuns cmds w)) (records (w_store w) !! K) pcs →
  cmds !! i = Some (c, ct) → pcs !! i = Some (CTry t) → T0 ≤ t →
  StoreIfAbsent (w_now w) (newProcessingRecord t K ct (ic_ReservationTTL c)) (w_store w) = (s, b) →
  inv (set_thread (set_store w s) i (mwReserved c ct K (Ok b))).
Proof.
  intros Hlen Hth Hnow Hph Hc Hp Ht Hsia. set (r := newProcessingRecord _ _ _ _) in *.
  rewrite StoreIfAbsent_spec in Hsia. change (ir_Key r) with K in Hsia. unfold Exists in Hsia.
  destruct (records (w_store w) !! K) as [x|] eqn:E.
  - pose proof (phase_stored _ _ _ _ x Hph eq_refl) as Hk.
    rewrite (known_live _ _ (w_now w) Hk) in Hsia by lia. injection Hsia as <- <-.
    split; [done|]. exists (<[i := CLost]> pcs). split; [by rewrite length_insert|].
    split; [by apply (insert_pcs i CLost _ _ (c, ct))|]. cbn. rewrite E. by eapply phase_idle.
  - injection Hsia as <- <-. split; [done|]. exists (<[i := CRun]> pcs). split; [by rewrite length_insert|].
    split; [by apply (insert_pcs i CRun _ _ (c, ct))|]. cbn [set_store set_thread w_store w_runs records].
    rewrite lookup_insert_eq. inversion Hph as [Hs Hn Hall|? ? ? Hs|? ? ? Hs|? Hs]; try done.
    assert (known (w_runs w) r) as Hk.
    { split; [|by left]. cbn. destruct (Hwin c ct) as [Hr _]; [by eapply list_elem_of_lookup_2|]. lia. }
    apply (ph_held _ _ _ _ i CRun r); try done.
    + apply list_lookup_insert_eq. by eapply lookup_lt_Some.
    + apply others_insert. intros j q Hj _. by apply Hall.
Qed.

(** The handler returns: its result is kept or the key is to be released. *)
Lemma inv_next w pcs i c ct result err :
  length pcs = length cmds → w_threads w = zip_with (code K) cmds pcs → T0 ≤ w_now w ≤ T1 →
  phase (w_runs w) (length (keptRuns cmds w)) (records (w_store w) !! K) pcs →
  cmds !! i = Some (c, ct) → pcs !! i = Some CRun →
  inv (mkWorld (w_store w) (w_now w) (<[i := mwFinish c ct K true result err]> (w_threads w))
         (w_runs w ++ [mkRun i result err])).
Proof.
  intros Hlen Hth Hnow Hph Hc Hp. set (runs' := w_runs w ++ [mkRun i result err]).
  destruct (phase_busy _ _ _ _ i CRun Hph Hp) as (r & E & Hk & Ho & [[Hn _]|[_ []]]); [by intros []|].
  assert (w_runs w ⊆ runs') as Hsub by (unfold runs'; set_solver).
  assert (mkRun i result err ∈ runs') as Hin by (unfold runs'; set_solver).
  split; [done|].
  exists (<[i := if shouldStore c result err then CStoreNow result err else CRelease result err]> pcs).
  split; [by rewrite length_insert|]. split.
  { cbn [w_threads]. rewrite <- (insert_pcs i _ pcs (w_threads w) (c, ct)) by done. f_equal.
    unfold mwFinish. by destruct (shouldStore c result err). }
  cbn [w_runs w_store]. unfold keptRuns in *. cbn [w_runs]. unfold runs' at 2. rewrite filter_app, length_app, Hn.
  rewrite (filter_cons _ _ []), filter_nil. cbn [kept run_cmd run_result run_err]. unfold kept; cbn. rewrite Hc.
  assert (i < length pcs)%nat as Hlt by (by eapply lookup_lt_Some).
  destruct (shouldStore c result err) eqn:Es; [rewrite decide_True by done|rewrite decide_False by done].
  - apply (ph_keeping _ _ _ _ i (CStoreNow result err) r); [done|by eapply known_mono|done|..].
    + by apply list_lookup_insert_eq.
    + cbn. split; [done|]. eauto.
    + apply others_insert. by eapply others_mono.
  - apply (ph_held _ _ _ _ i (CRelease result err) r); [done|by eapply known_mono|done|..].
    + by apply list_lookup_insert_eq.
    + done.
    + apply others_insert. by eapply others_mono.
Qed.

(** The clock read before the result is stored. *)
Lemma inv_store_now w pcs i c ct result err :
  length pcs = length cmds → w_threads w = zip_with (code K) cmds pcs → T0 ≤ w_now w ≤ T1 →
  phase (w_runs w) (length (keptRuns cmds w)) (records (w_store w) !! K) pcs →
  cmds !! i = Some (c, ct) → pcs !! i = Some (CStoreNow result err) →
  inv (set_thread w i (mwStore c ct K true result err (w_now w))).
Proof.
  intros Hlen Hth Hnow Hph Hc Hp.
  destruct (phase_busy _ _ _ _ i _ Hph Hp) as (r & E & Hk & Ho & [[_ []]|[Hn Hkeep]]); [by intros []|].
  split; [done|]. exists (<[i := CStore (w_now w) result err]> pcs). split; [by rewrite length_insert|].
  split; [by apply (insert_pcs i (CStore (w_now w) result err) _ _ (c, ct))|].
  apply (ph_keeping _ _ _ _ i (CStore (w_now w) result err) r); [done..| | |by apply others_insert].
  - apply list_lookup_insert_eq. by eapply lookup_lt_Some.
  - cbn. cbn in Hkeep. split; [lia|done].
Qed.

(** The result is stored. *)
Lemma inv_store w pcs i c ct t result err :
  length pcs = length cmds → w_threads w = zip_with (code K) cmds pcs → T0 ≤ w_now w ≤ T1 →
  phase (w_runs w) (length (keptRuns cmds w)) (records (w_store w) !! K) pcs →
  cmds !! i = Some (c, ct) → pcs !! i = Some (CStore t result err) →
  inv (set_thread (set_store w (Store (NewIdempotencyRecord t K ct result (ic_TTL c)) (w_store w))) i
         (PRet result err)).
Proof.
  intros Hlen Hth Hnow Hph Hc Hp.
  destruct (phase_busy _ _ _ _ i _ Hph Hp) as (r & E & Hk & Ho & [[_ []]|[Hn Hkeep]]); [by intros []|].
  destruct Hkeep as (Ht & Hin & c' & ct' & Hc' & Hs). rewrite Hc in Hc'. injection Hc' as <- <-.
  split; [done|]. exists (<[i := CDone result err]> pcs). split; [by rewrite length_insert|].
  split; [by apply (insert_pcs i (CDone result err) _ _ (c, ct))|].
  unfold Store. rewrite CopyIdempotencyRecord_id. cbn [set_thread set_store w_store w_runs records ir_Key NewIdempotencyRecord].
  rewrite lookup_insert_eq. eapply ph_kept; [done| |done|].
  - split; cbn.
    + destruct (Hwin c ct) as [_ Hr]; [by eapply list_elem_of_lookup_2|]. lia.
    + right. exists i, c, ct, t, result, err. done.
  - apply others_all; [done|]. by left.
Qed.

(** The reservation is released. *)
Lemma inv_release w pcs i c ct result err :
  length pcs = length cmds → w_threads w = zip_with (code K) cmds pcs → T0 ≤ w_now w ≤ T1 →
  phase (w_runs w) (length (keptRuns cmds w)) (records (w_store w) !! K) pcs →
  cmds !! i = Some (c, ct) → pcs !! i = Some (CRelease result err) →
  inv (set_thread (set_store w (Delete K (w_store w))) i (PRet result err)).
Proof.
  intros Hlen Hth Hnow Hph Hc Hp.
  destruct (phase_busy _ _ _ _ i _ Hph Hp) as (r & E & Hk & Ho & [[Hn Hin]|[_ []]]); [by intros []|].
  split; [done|]. exists (<[i := CDone result err]> pcs). split; [by rewrite length_insert|].
  split; [by apply (insert_pcs i (CDone result err) _ _ (c, ct))|].
  cbn. rewrite lookup_delete_eq. apply ph_free; [done..|]. apply others_all; [done|]. by left.
Qed.

Lemma phase_cases runs n stored pcs i p :
  phase runs n stored pcs → pcs !! i = Some p → idle runs i p ∨ holding runs i p ∨ keeping runs i p.
Proof.
  intros Hph Hi.
  destruct Hph as [_ _ Hall|k q r _ _ _ Hq Hh Ho|k q r _ _ _ Hq Hh Ho|r _ _ _ Hall]; [left; auto| | |left; auto].
  all: destruct (decide (i = k)) as [->|Hne]; [|left; by apply Ho].
  all: assert (q = p) as -> by congruence; auto.
Qed.

(** Every step. *)
Lemma inv_step w w' : inv w → wstep K T1 w w' → inv w'.
Proof.
  intros (Hnow & pcs & Hlen & Hth & Hph) Hstep.
  assert (∀ i q, w_threads w !! i = Some q → ∃ c ct p, cmds !! i = Some (c, ct) ∧ pcs !! i = Some p ∧
    code K (c, ct) p = q ∧ (idle (w_runs w) i p ∨ holding (w_runs w) i p ∨ keeping (w_runs w) i p)) as Hpt.
  { intros i q Hq. rewrite Hth in Hq. apply lookup_zip_with_Some in Hq as ([c ct] & p & -> & Hc & Hp).
    exists c, ct, p. split; [done|]. split; [done|]. split; [done|]. by eapply phase_cases. }
  destruct Hstep as [w t Ht|w s Hs|w i k Hi|w i key k Hi|w i r k s b Hi Hsia|w i r k Hi|w i key k Hi|w i k result err Hi].
  1: { split; [cbn; lia|]. by exists pcs. }
  1: { split; [done|]. exists pcs. cbn. by rewrite Hs. }
  all: destruct (Hpt _ _ Hi) as (c & ct & p & Hc & Hp & Hcode & Hcase).
  - destruct Hcase as [Hidle|[Hh|Hk]].
    + destruct (now_idle _ c ct i p k (w_now w) Hnow Hidle Hcode) as (p' & -> & Hi').
      by eapply inv_idle_step.
    + destruct p; try done. 
    + destruct p; try done. injection Hcode as <-. by eapply inv_store_now.
  - destruct Hcase as [Hidle|[Hh|Hk]]; destruct p; try done; injection Hcode as <- <-.
    + destruct (found_idle w c ct pcs i Hnow Hph Hc) as (p' & -> & Hi'). by eapply inv_idle_step.
    + destruct (lost_idle w c ct pcs i Hnow Hph Hc) as (p' & -> & Hi'). by eapply inv_idle_step.
  - destruct Hcase as [Hidle|[Hh|Hk]]; destruct p; try done; injection Hcode as <- <-. by eapply inv_try.
  - destruct Hcase as [Hidle|[Hh|Hk]]; destruct p; try done; injection Hcode as <- <-. by eapply inv_store.
  - destruct Hcase as [Hidle|[Hh|Hk]]; destruct p; try done; injection Hcode as <- <-. by eapply inv_release.
  - destruct Hcase as [Hidle|[Hh|Hk]]; destruct p; try done; injection Hcode as <-. by eapply inv_next.
Qed.

Lemma inv_initial s :
  T0 ≤ T1 → records s !! K = None → inv (initial cmds K T0 s).
Proof.
  intros HT Hs. split; [cbn; lia|]. exists ((λ _, CStart) <$> cmds). split; [by rewrite length_fmap|]. split.
  - cbn. clear. induction cmds as [|[c ct] l IH]; cbn; [done|]. by rewrite IH.
  - apply ph_free; [done..|]. intros j p (x & -> & _)%list_lookup_fmap_Some. done.
Qed.

Lemma wreach_inv s w : T0 ≤ T1 → records s !! K = None → wreach K T1 (initial cmds K T0 s) w → inv w.
Proof. intros HT Hs. induction 1; [by apply inv_initial|by eapply inv_step]. Qed.
End Invariant.

(** ** Requests

    A request is a command with its configuration, type, scope and key; its
    program is the middleware's. *)
Record request := mkRequest {
  rq_config : IdempotencyConfig;
  rq_type : string;
  rq_scope : string;
  rq_key : string;
}.

Definition requestProg `{ErrorText} (q : request) : prog :=
  IdempotencyMiddleware (rq_config q) (rq_type q) (rq_scope q) (rq_key q).

Definition requestCommand (q : request) : IdempotencyConfig * string :=
  (withDefaults (rq_config q), rq_type q).

(** The requests that share the effective key [K]. *)
Definition presents (K : string) (q : request) : Prop :=
  rq_key q ≠ "" ∧ ¬ (rq_type q ∈ ic_SkipCommands (rq_config q)) ∧
  EffectiveIdempotencyKey (rq_type q) (rq_scope q) (rq_key q) = K.

Definition start `{ErrorText} (qs : list request) (T0 : Time) (s : IdempotencyStore) : world :=
  mkWorld s T0 (requestProg <$> qs) [].

Lemma start_initial `{ErrorText} qs K T0 s :
  Forall (presents K) qs → start qs T0 s = initial (requestCommand <$> qs) K T0 s.
Proof.
  intros Hq. unfold start, initial. f_equal. induction Hq as [|q qs (Hk & Hs & HK) _ IH]; [done|]. cbn.
  rewrite IH. f_equal. unfold requestProg. by rewrite IdempotencyMiddleware_mwStart, HK.
Qed.

(** ** The property *)

(** C34: concurrent commands with one key never run the handler twice: however
    they interleave, with the clock, other keys and every handler result free,
    before any record of the window expires at most one of them is in its
    handler at any time, at most one run is kept, once it is no command is in
    its handler again, and every finished command returned its own run's
    result, a replay of the kept run's record, or "command in progress". *)
Theorem idempotent_handler_runs_once `{ErrorText} (qs : list request) (K : string) (T0 T1 : Time)
    (s : IdempotencyStore) (w : world) :
  Forall (presents K) qs →
  (∀ q, q ∈ qs → T1 ≤ T0 + ic_ReservationTTL (withDefaults (rq_config q)) ∧
                 T1 ≤ T0 + ic_TTL (withDefaults (rq_config q))) →
  T0 ≤ T1 → records s !! K = None → wreach K T1 (start qs T0 s) w →
  let cmds := requestCommand <$> qs in
  (∀ i j k k', w_threads w !! i = Some (PNext k) → w_threads w !! j = Some (PNext k') → i = j) ∧
  (length (keptRuns cmds w) ≤ 1)%nat ∧
  (keptRuns cmds w ≠ [] → ∀ i k, w_threads w !! i ≠ Some (PNext k)) ∧
  (∀ i res err, w_threads w !! i = Some (PRet res err) → outcome cmds K (w_runs w) i res err).
Proof.
  intros Hpr Hw HT Hs Hr cmds. rewrite (start_initial _ K) in Hr by done. fold cmds in Hr.
  assert (∀ c ct, (c, ct) ∈ cmds → T1 ≤ T0 + ic_ReservationTTL c ∧ T1 ≤ T0 + ic_TTL c) as Hwin.
  { intros c ct (q & [= -> ->] & Hq)%list_elem_of_fmap. by apply Hw. }
  destruct (wreach_inv cmds K T0 T1 Hwin s w HT Hs Hr) as (Hnow & pcs & Hlen & Hth & Hph).
  assert (∀ i q, w_threads w !! i = Some q → ∃ cmd p, pcs !! i = Some p ∧ q = code K cmd p) as Hpt.
  { intros i q Hq. rewrite Hth in Hq. apply lookup_zip_with_Some in Hq as (cmd & p & -> & _ & Hp). eauto. }
  assert (∀ i k, w_threads w !! i = Some (PNext k) → pcs !! i = Some CRun) as Hrun.
  { intros i k Hi. destruct (Hpt _ _ Hi) as ([c ct] & p & Hp & E). by destruct p. }
  assert (∀ i, pcs !! i = Some CRun → length (keptRuns cmds w) = 0%nat ∧
    ∀ j, pcs !! j = Some CRun → j = i) as Hone.
  { intros i Hi. destruct (phase_busy _ _ _ _ _ _ _ _ i CRun Hph Hi) as (r & _ & _ & Ho & [[Hn _]|[_ []]]); [by intros []|].
    split; [done|]. intros j Hj. destruct (decide (j = i)) as [|Hne]; [done|]. destruct (Ho j CRun Hj Hne). }
  split; [|split; [|split]].
  - intros i j k k' Hi%Hrun Hj%Hrun. symmetry. by apply (Hone i Hi).
  - destruct Hph; lia.
  - intros Hk i k Hi%Hrun. destruct (Hone i Hi) as [Hn _]. by apply nil_length_inv in Hn.
  - intros i res err Hi. destruct (Hpt _ _ Hi) as ([c ct] & p & Hp & E).
    destruct p; try done. injection E as <- <-.
    destruct (phase_cases _ _ _ _ _ _ _ _ i _ Hph Hp) as [Hd|[[]|[]]]. exact Hd.
Qed.

(** ** Witness *)

Definition sampleRequest : request := mkRequest sampleConfig "CreateOrder" "tenant-a" "req-1".
Definition sampleRequests : list request := [sampleRequest; sampleRequest].
Definition sampleStart : world := @start (λ _, "") sampleRequests 0 NewIdempotencyStore.

(** The first request reserves the key and enters its handler; the second one
    then finds the reservation. *)
Lemma idempotent_handler_runs_once_witness :
  ∃ w, wreach "8:tenant-a|req-1" 10 sampleStart w ∧ (∃ k, w_threads w !! 0%nat = Some (PNext k)) ∧
    (∀ k, w_threads w !! 1%nat ≠ Some (PNext k)) ∧
    (length (keptRuns (requestCommand <$> sampleRequests) w) ≤ 1)%nat.
Proof.
  assert (∃ w, wreach "8:tenant-a|req-1" 10 sampleStart w ∧ ∃ k, w_threads w !! 0%nat = Some (PNext k)) as (w & Hr & Hk).
  { eexists. split.
    - eapply wr_step; [eapply wr_step; [eapply wr_step; [eapply wr_step; [apply wr_init|]|]|]|].
      + by eapply (ws_get _ _ _ 0).
      + by eapply (ws_now _ _ _ 0).
      + by eapply (ws_storeIfAbsent _ _ _ 0).
      + by eapply (ws_get _ _ _ 1).
    - by eexists. }
  destruct (@idempotent_handler_runs_once (λ _, "") sampleRequests "8:tenant-a|req-1" 0 10 NewIdempotencyStore w)
    as (H1 & H2 & _ & _); [| | |done|exact Hr|].
  - repeat constructor; first [discriminate|by apply not_elem_of_nil|by vm_compute].
  - intros q [->|[->|[]%not_elem_of_nil]%elem_of_cons]%elem_of_cons; split; vm_compute; discriminate.
  - by vm_compute.
  - exists w. split; [exact Hr|]. split; [exact Hk|]. split; [|exact H2].
    intros k' Hk'. destruct Hk as [k Hk]. by specialize (H1 0%nat 1%nat k k' Hk Hk').
Defined.
