(* ===== verification/Versioning.v ===== *)
(** * Event schema versions and upcasting

    [src/versioning.go]: the registry of upcasters, the upcast of stored bytes
    to the latest version, and the schema version kept in the event metadata.
    An upcaster is user code: its accessors are values and its [Upcast] is a
    function whose outcome is bytes, an error, or a panic. *)

From S2P Require Import Prelude.
From S2P Require Import Types.
From S2P Require Import Common.
From S2P Require Import Strconv.
From Stdlib Require Import Strings.Byte.

(** ** The chain *)

Record Upcaster := mkUpcaster {
  EventType : string;
  FromVersion : Z;
  ToVersion : Z;
  up_Upcast : Bytes → Metadata → res Bytes;
}.

Record UpcasterChain := mkUpcasterChain {
  uc_upcasters : gmap string (list Upcaster);
  uc_latest : gmap string Z;
}.

Definition DefaultSchemaVersion : Z := 1.
Definition schemaVersionKey : string := "$schema_version".

Definition NewUpcasterChain : UpcasterChain := mkUpcasterChain ∅ ∅.

Definition upcastersOf (c : UpcasterChain) (t : string) : list Upcaster :=
  default [] (uc_upcasters c !! t).

Definition fromLess (x y : Upcaster) : bool := FromVersion x <? FromVersion y.

Definition Register `{SliceSort} (u : Upcaster) : op UpcasterChain error unit := λ c,
  if negb (ToVersion u =? i64 (FromVersion u + 1)) then
    (c, Err (Errorf "mink: upcaster for %q must have ToVersion (%d) == FromVersion (%d) + 1"))
  else if FromVersion u <? 1 then
    (c, Err (Errorf "mink: upcaster for %q must have FromVersion >= 1, got %d"))
  else
    let eventType := EventType u in
    let existing := upcastersOf c eventType in
    if existsb (λ e, FromVersion e =? FromVersion u) existing then
      (c, Err (Errorf "mink: duplicate upcaster for %q from version %d to %d"))
    else
      let upcasters := <[eventType := sortSlice fromLess (existing ++ [u])]> (uc_upcasters c) in
      let latest :=
        if default 0 (uc_latest c !! eventType) <? ToVersion u
        then <[eventType := ToVersion u]> (uc_latest c) else uc_latest c in
      (mkUpcasterChain upcasters latest, Ok tt).

(** The loop of [Validate] over one event type: each upcaster starts where the
    previous one ended. *)
Fixpoint checkContiguous (eventType : string) (prev : Upcaster) (l : list Upcaster) : res unit :=
  match l with
  | [] => Ok tt
  | u :: l =>
      returnIf (negb (FromVersion u =? ToVersion prev))
        (SchemaVersionGapError eventType (ToVersion prev) (FromVersion u));;
      checkContiguous eventType u l
  end.

Definition Validate `{MapOrder} (c : UpcasterChain) : res unit :=
  forEach (λ '(eventType, upcasters),
    match upcasters with [] => Ok tt | u :: l => checkContiguous eventType u l end)
    (range (uc_upcasters c)).

(** [recover] turns a panic of the upcaster into an error. *)
Definition safeUpcast (u : Upcaster) (data : Bytes) (metadata : Metadata) : res Bytes :=
  match up_Upcast u data metadata with
  | Err (Panic _) => Err (Errorf "mink: upcaster for %q (version %d -> %d) panicked: %s")
  | r => r
  end.

Fixpoint upcastLoop (eventType : string) (metadata : Metadata) (upcasters : list Upcaster)
    (currentVersion : Z) (currentData : Bytes) : Z * res Bytes :=
  match upcasters with
  | [] => (currentVersion, Ok currentData)
  | u :: l =>
      let from := FromVersion u in
      let to := ToVersion u in
      if from <? currentVersion then upcastLoop eventType metadata l currentVersion currentData
      else if currentVersion <? from then
        (currentVersion, Err (SchemaVersionGapError eventType currentVersion from))
      else
        match safeUpcast u currentData metadata with
        | Err e => (currentVersion, Err (UpcastError eventType from to e))
        | Ok result => upcastLoop eventType metadata l to result
        end
  end.

(** The version is returned with the data or with the error. *)
Definition Upcast (c : UpcasterChain) (eventType : string) (fromVersion : Z) (data : Bytes)
    (metadata : Metadata) : Z * res Bytes :=
  match upcastersOf c eventType with
  | [] => (fromVersion, Ok data)
  | l => upcastLoop eventType metadata l fromVersion data
  end.

Definition HasUpcasters (c : UpcasterChain) (eventType : string) : bool :=
  0 <? Z.of_nat (length (upcastersOf c eventType)).

Definition LatestVersion (c : UpcasterChain) (eventType : string) : Z :=
  match uc_latest c !! eventType with Some v => v | None => DefaultSchemaVersion end.

Definition RegisteredEventTypes `{MapOrder} `{SliceSort} (c : UpcasterChain) : list string :=
  sortSlice String.ltb (range (uc_upcasters c)).*1.

(** ** Schema version in the metadata *)

Definition GetSchemaVersion (m : Metadata) : Z :=
  match custom_lookup m schemaVersionKey with
  | None => DefaultSchemaVersion
  | Some v =>
      match Atoi v with
      | None => DefaultSchemaVersion
      | Some version =>
          if version <? DefaultSchemaVersion then DefaultSchemaVersion else version
      end
  end.

Definition SetSchemaVersion (m : Metadata) (version : Z) : Metadata :=
  WithCustom m schemaVersionKey (Itoa version).

Definition hasSchemaVersion (m : Metadata) : bool :=
  match custom_lookup m schemaVersionKey with Some _ => true | None => false end.

(** ** The invariant of a chain *)

(** The upcasters of one event type: strictly increasing one-step transitions,
    the last of which gives the latest version. *)
Definition strictly (x y : Upcaster) : Prop := FromVersion x < FromVersion y.

Definition step_ok (t : string) (u : Upcaster) : Prop :=
  EventType u = t ∧ 1 ≤ FromVersion u ∧ ToVersion u = FromVersion u + 1.

Record chain_ok (c : UpcasterChain) : Prop := {
  chain_sorted : ∀ t l, uc_upcasters c !! t = Some l →
    l ≠ [] ∧ StronglySorted strictly l ∧ Forall (step_ok t) l;
  chain_latest : ∀ t, uc_latest c !! t = ToVersion <$> last (upcastersOf c t);
}.

(** A chain built by a program: the registrations it made, in order, the
    refused ones included. *)
Definition registerAll `{SliceSort} (us : list Upcaster) : UpcasterChain :=
  foldl (λ c u, (Register u c).1) NewUpcasterChain us.

(** ** What an upcast means

    The reference: run the upcaster that starts at the current version until
    none is left at or above it; a missing step below a registered one is a
    gap.  The registered upcasters are a set here. *)
Inductive upcasts (t : string) (md : Metadata) (us : list Upcaster) :
    Z → Bytes → Z * res Bytes → Prop :=
| upcasts_done v d :
    (∀ u, u ∈ us → FromVersion u < v) →
    upcasts t md us v d (v, Ok d)
| upcasts_gap v d w :
    w ∈ us → v < FromVersion w →
    (∀ u, u ∈ us → FromVersion u < v ∨ FromVersion w ≤ FromVersion u) →
    upcasts t md us v d (v, Err (SchemaVersionGapError t v (FromVersion w)))
| upcasts_fail v d u e :
    u ∈ us → FromVersion u = v → safeUpcast u d md = Err e →
    upcasts t md us v d (v, Err (UpcastError t v (v + 1) e))
| upcasts_step v d u d' out :
    u ∈ us → FromVersion u = v → safeUpcast u d md = Ok d' →
    upcasts t md us (v + 1) d' out →
    upcasts t md us v d out.

(** ** Lemmas on the chain *)

Lemma strictly_functional l u u' :
  StronglySorted strictly l → u ∈ l → u' ∈ l →
  FromVersion u = FromVersion u' → u = u'.
Proof.
  induction 1 as [|x l Hl IH Hx]; [set_solver|].
  rewrite Forall_forall in Hx. unfold strictly in Hx.
  intros [->|Hu]%elem_of_cons [->|Hu']%elem_of_cons He; auto.
  - apply Hx in Hu'. lia.
  - apply Hx in Hu. lia.
Qed.

Lemma upcasts_deterministic t md us v d o1 o2 :
  StronglySorted strictly us →
  upcasts t md us v d o1 → upcasts t md us v d o2 → o1 = o2.
Proof.
  intros Hs H1. revert o2.
  induction H1 as [v d H|v d w Hw Hv H|v d u e Hu Hv He|v d u d' out Hu Hv He _ IH];
    intros o2 H2; inversion H2 as [? ? H'|? ? w' Hw' Hv' H'|? ? u' e' Hu' Hv' He'|? ? u' d'' out' Hu' Hv' He' H'];
    subst; try done;
    try (exfalso; use_members; lia);
    try (assert (u' = u) as -> by (by eapply strictly_functional); congruence).
  - pose proof (H _ Hw'). pose proof (H' _ Hw). do 3 f_equal. lia.
  - apply IH. assert (u' = u) as -> by (by eapply strictly_functional). congruence.
Qed.

(** Every run has an outcome, and the loop of the source computes it. *)
Lemma upcastLoop_upcasts t md all pre l v d :
  StronglySorted strictly all → Forall (step_ok t) all → all = pre ++ l →
  (∀ u, u ∈ pre → FromVersion u < v) →
  upcasts t md all v d (upcastLoop t md l v d).
Proof.
  intros Hs Hf. revert pre v d. induction l as [|u l IH]; intros pre v d Hall Hpre; cbn.
  { apply upcasts_done. subst. intros u Hu. rewrite app_nil_r in Hu. auto. }
  assert (u ∈ all) as Hu by (subst; set_solver).
  assert (step_ok t u) as (_ & _ & Hto) by (by eapply Forall_forall in Hf).
  assert (all = (pre ++ [u]) ++ l) as Hall' by (by subst; rewrite <- app_assoc).
  destruct (Z.ltb_spec (FromVersion u) v) as [Hlt|Hge].
  { apply (IH (pre ++ [u])); [done|]. intros x [?| ->%list_elem_of_singleton]%elem_of_app; auto. }
  destruct (Z.ltb_spec v (FromVersion u)) as [Hgt|Hle].
  { apply upcasts_gap; [done..|]. intros x Hx. subst all.
    apply elem_of_app in Hx as [Hx|Hx];
      [left; auto|apply elem_of_cons in Hx as [->|Hx]; right; [lia|]].
    apply StronglySorted_app_1_r in Hs. apply StronglySorted_inv in Hs as [_ Hs].
    rewrite Forall_forall in Hs. apply Hs in Hx. unfold strictly in Hx. lia. }
  assert (FromVersion u = v) as Hv by lia.
  destruct (safeUpcast u d md) as [d'|e] eqn:Es.
  - eapply upcasts_step; [done..|]. rewrite Hto, Hv. apply (IH (pre ++ [u])); [done|].
    intros x [Hx| ->%list_elem_of_singleton]%elem_of_app; [apply Hpre in Hx|]; lia.
  - rewrite Hto, Hv. by eapply upcasts_fail.
Qed.

Lemma Upcast_spec c t md v d :
  chain_ok c → upcasts t md (upcastersOf c t) v d (Upcast c t v d md).
Proof.
  intros [Hc _]. unfold Upcast, upcastersOf.
  destruct (uc_upcasters c !! t) as [l|] eqn:E; cbn [default].
  - destruct (Hc _ _ E) as (_ & Hs & Hf). cbn [from_option id].
    destruct l as [|u l]; [by apply upcasts_done; set_solver|].
    by apply (upcastLoop_upcasts t md (u :: l) []); [..|set_solver].
  - apply upcasts_done. set_solver.
Qed.

Lemma upcastersOf_ok c t :
  chain_ok c → StronglySorted strictly (upcastersOf c t) ∧ Forall (step_ok t) (upcastersOf c t).
Proof.
  intros [Hc _]. unfold upcastersOf.
  destruct (uc_upcasters c !! t) as [l|] eqn:E; cbn; [|split; constructor].
  by destruct (Hc _ _ E).
Qed.

(** The greatest version is the last of a strictly sorted list. *)
Lemma strictly_last l u x :
  StronglySorted strictly l → last l = Some u → x ∈ l → FromVersion x ≤ FromVersion u.
Proof.
  intros Hs Hl Hx. apply last_Some in Hl as [l' ->].
  apply elem_of_app in Hx as [Hx|Hx%list_elem_of_singleton]; [|by subst].
  apply StronglySorted_app_1_elem_of with (x1 := x) (x2 := u) in Hs; [unfold strictly in Hs; lia|done|set_solver].
Qed.

Lemma strictly_head l w x :
  StronglySorted strictly l → head l = Some w → x ∈ l → FromVersion w ≤ FromVersion x.
Proof.
  destruct l as [|y l]; [done|]. intros [_ Hs]%StronglySorted_inv [= ->] Hx.
  apply elem_of_cons in Hx as [->|Hx]; [done|]. rewrite Forall_forall in Hs.
  apply Hs in Hx. unfold strictly in Hx. lia.
Qed.

Lemma fromLess_weak : weak_order fromLess.
Proof. apply weak_order_key. Qed.

(** Sorting distinct versions leaves no ties. *)
Lemma sortSlice_strictly `{SliceSort} l :
  NoDup (FromVersion <$> l) → StronglySorted strictly (sortSlice fromLess l).
Proof.
  intros Hnd. assert (NoDup (FromVersion <$> sortSlice fromLess l)) as Hnd'
    by (by rewrite sortSlice_perm).
  pose proof (sortSlice_sorted fromLess l fromLess_weak) as Hs.
  revert Hnd'. induction Hs as [|x l' Hl IH Hx]; [constructor|].
  cbn. intros [Hn Hnd']%NoDup_cons. constructor; [auto|].
  rewrite Forall_forall in Hx |- *. intros y Hy. specialize (Hx y Hy).
  unfold fromLess in Hx. apply Z.ltb_ge in Hx. unfold strictly.
  assert (FromVersion x ≠ FromVersion y) by (intros E; apply Hn; rewrite E; by apply list_elem_of_fmap_2).
  lia.
Qed.

Lemma existsb_from l v :
  existsb (λ e, FromVersion e =? v) l = false ↔ v ∉ FromVersion <$> l.
Proof.
  induction l as [|x l IH]; cbn; [set_solver|].
  rewrite orb_false_iff, Z.eqb_neq, IH, not_elem_of_cons. split; intros []; auto.
Qed.

Lemma strictly_NoDup l : StronglySorted strictly l → NoDup (FromVersion <$> l).
Proof.
  induction 1 as [|x l Hl IH Hx]; cbn; constructor; [|done].
  intros (y & E & Hy)%list_elem_of_fmap. rewrite Forall_forall in Hx.
  apply Hx in Hy. unfold strictly in Hy. lia.
Qed.

(** Adding a fresh version to a sorted list keeps the greater of it and the
    last one. *)
Lemma last_add l l' u :
  StronglySorted strictly l → StronglySorted strictly l' →
  FromVersion u ∉ FromVersion <$> l → (∀ x, x ∈ l' ↔ x ∈ l ∨ x = u) →
  last l' = match last l with
            | Some z => if FromVersion z <? FromVersion u then Some u else Some z
            | None => Some u
            end.
Proof.
  intros Hs Hs' Hu Hin.
  destruct (last l') as [w|] eqn:Ew.
  2: { apply last_None in Ew. assert (u ∈ l') as H by (apply Hin; auto). rewrite Ew in H. set_solver. }
  assert (∀ x, x ∈ l ∨ x = u → FromVersion x ≤ FromVersion w) as Hmax
    by (intros x Hx; eapply strictly_last; [done..|]; by apply Hin).
  apply last_Some_elem_of, Hin in Ew.
  destruct (last l) as [z|] eqn:Ez.
  - assert (∀ x, x ∈ l → FromVersion x ≤ FromVersion z) as Hz by (intros; by eapply (strictly_last l)).
    apply last_Some_elem_of in Ez.
    assert (FromVersion z ≠ FromVersion u) by (intros E; apply Hu; rewrite <- E; by apply list_elem_of_fmap_2).
    pose proof (Hmax z (or_introl Ez)). pose proof (Hmax u (or_intror eq_refl)).
    destruct Ew as [Hw| ->].
    + specialize (Hz w Hw). rewrite (proj2 (Z.ltb_ge _ _)) by lia. f_equal.
      apply (strictly_functional l); [done..|lia].
    + by rewrite (proj2 (Z.ltb_lt _ _)) by lia.
  - apply last_None in Ez. subst l. destruct Ew as [Hw| ->]; [set_solver|done].
Qed.

(** A registration either refuses and changes nothing, or adds exactly one
    upcaster to its type. *)
Lemma Register_chain `{SliceSort} u c c' r :
  chain_ok c → FromVersion u < MaxInt64 → Register u c = (c', r) → chain_ok c'.
Proof.
  intros [Hc Hl] Hmax. unfold Register.
  destruct (negb _) eqn:E1; [by intros [= <- <-]|].
  destruct (FromVersion u <? 1) eqn:E2; [by intros [= <- <-]|].
  destruct (existsb _ _) eqn:E3; [by intros [= <- <-]|].
  intros [= <- <-]. zbool. apply existsb_from in E3.
  rewrite i64_id in E1 by (unfold in_i64, MinInt64; lia).
  set (t := EventType u) in *. set (l := upcastersOf c t) in *.
  assert (StronglySorted strictly l ∧ Forall (step_ok t) l) as [Hls Hlf]
    by (by apply upcastersOf_ok).
  set (l' := sortSlice fromLess (l ++ [u])).
  assert (StronglySorted strictly l') as Hs'.
  { apply sortSlice_strictly. rewrite fmap_app. apply NoDup_app. split; [by apply strictly_NoDup|].
    split; [|apply NoDup_singleton]. intros v Hv ->%list_elem_of_singleton. done. }
  assert (∀ x, x ∈ l' ↔ x ∈ l ∨ x = u) as Hin.
  { intros x. unfold l'. rewrite elem_of_sortSlice. set_solver. }
  assert (Forall (step_ok t) l') as Hf'.
  { apply Forall_forall. intros x [Hx| ->]%Hin; [by eapply Forall_forall in Hlf|].
    split; [done|lia]. }
  assert (l' ≠ []) as Hne by (intros E; assert (u ∈ l') as Hu by (apply Hin; auto); rewrite E in Hu; set_solver).
  split; cbn.
  - intros t' l0. destruct (decide (t' = t)) as [->|Ht].
    + rewrite lookup_insert_eq. intros [= <-]. done.
    + rewrite lookup_insert_ne by done. apply Hc.
  - intros t'. unfold upcastersOf; cbn. destruct (decide (t' = t)) as [->|Ht].
    2: { rewrite lookup_insert_ne by done. fold (upcastersOf c t'). rewrite <- Hl. by destruct (_ <? _); [rewrite lookup_insert_ne|]. }
    rewrite lookup_insert_eq. cbn. rewrite Hl. fold l.
    rewrite (last_add l l' u) by done.
    destruct (last l) as [z|] eqn:Ez; cbn.
    2: { rewrite (proj2 (Z.ltb_lt _ _)) by lia. by rewrite lookup_insert_eq. }
    assert (step_ok t z) as (_ & _ & Htz) by (apply last_Some_elem_of in Ez; by eapply Forall_forall in Hlf).
    repeat case_match; zbool; rewrite ?lookup_insert_eq; try (exfalso; lia); cbn; try done.
    rewrite Hl. fold l. by rewrite Ez.
Qed.

Lemma NewUpcasterChain_ok : chain_ok NewUpcasterChain.
Proof. split; unfold upcastersOf; cbn; intros *; rewrite lookup_empty; done. Qed.

Lemma registerAll_snoc `{SliceSort} us u :
  registerAll (us ++ [u]) = (Register u (registerAll us)).1.
Proof. unfold registerAll. by rewrite foldl_app. Qed.

Lemma registerAll_ok `{SliceSort} us :
  Forall (λ u, FromVersion u < MaxInt64) us → chain_ok (registerAll us).
Proof.
  induction us as [|u us IH] using rev_ind; [intros _; apply NewUpcasterChain_ok|].
  rewrite registerAll_snoc. intros [Hus [Hu _]%Forall_cons]%Forall_app.
  destruct (Register u (registerAll us)) as [c' r] eqn:E. eapply (Register_chain u); [by apply IH|exact Hu|exact E].
Qed.

(** What one registration does to the set of upcasters of a type. *)
Lemma Register_members `{SliceSort} u c t x :
  x ∈ upcastersOf (Register u c).1 t ↔
  x ∈ upcastersOf c t ∨
  (x = u ∧ t = EventType u ∧ ToVersion u = i64 (FromVersion u + 1) ∧ 1 ≤ FromVersion u ∧
   FromVersion u ∉ FromVersion <$> upcastersOf c t).
Proof.
  unfold Register. destruct (negb _) eqn:E1; cbn [fst].
  { zbool. naive_solver. }
  destruct (FromVersion u <? 1) eqn:E2; cbn [fst]; [zbool; naive_solver lia|].
  destruct (existsb _ _) eqn:E3; cbn [fst].
  { split; [by left|]. intros [?|(-> & -> & _ & _ & Hn)]; [done|].
    apply existsb_from in Hn. congruence. }
  zbool. apply existsb_from in E3. unfold upcastersOf at 1; cbn.
  destruct (decide (t = EventType u)) as [->|Ht].
  - rewrite lookup_insert_eq. cbn. rewrite elem_of_sortSlice. fold (upcastersOf c (EventType u)).
    rewrite elem_of_app, list_elem_of_singleton. naive_solver.
  - rewrite lookup_insert_ne by done. fold (upcastersOf c t). naive_solver.
Qed.

Lemma LatestVersion_last c t :
  chain_ok c →
  LatestVersion c t = default DefaultSchemaVersion (ToVersion <$> last (upcastersOf c t)).
Proof. intros [_ Hl]. unfold LatestVersion. rewrite Hl. by destruct (last _). Qed.

(** The latest version is past every registered step. *)
Lemma LatestVersion_max c t u :
  chain_ok c → u ∈ upcastersOf c t → FromVersion u < LatestVersion c t.
Proof.
  intros Hc Hu. rewrite LatestVersion_last by done.
  destruct (upcastersOf_ok c t Hc) as [Hs Hf].
  destruct (last (upcastersOf c t)) as [w|] eqn:Ew; cbn.
  - pose proof (strictly_last _ _ _ Hs Ew Hu). apply last_Some_elem_of in Ew.
    eapply Forall_forall in Hf as (_ & _ & Hw); [|exact Ew]. lia.
  - apply last_None in Ew. rewrite Ew in Hu. set_solver.
Qed.

Lemma LatestVersion_witness c t u :
  chain_ok c → u ∈ upcastersOf c t → ∃ w, w ∈ upcastersOf c t ∧ ToVersion w = LatestVersion c t.
Proof.
  intros Hc Hu. rewrite LatestVersion_last by done.
  destruct (last (upcastersOf c t)) as [w|] eqn:Ew; cbn.
  - exists w. by apply last_Some_elem_of in Ew.
  - apply last_None in Ew. rewrite Ew in Hu. set_solver.
Qed.

(** ** Validation *)

Lemma checkContiguous_Ok t u l :
  StronglySorted strictly (u :: l) → Forall (step_ok t) (u :: l) →
  checkContiguous t u l = Ok tt ↔
  ∀ x, x ∈ l → ∃ y, y ∈ u :: l ∧ ToVersion y = FromVersion x.
Proof.
  revert u. induction l as [|w l IH]; intros u Hs Hf; cbn [checkContiguous]; [set_solver|].
  apply StronglySorted_inv in Hs as [Hs Hu]. apply Forall_cons in Hf as [Hfu Hf].
  rewrite bind_Ok.
  split.
  - intros ([] & Hw%returnIf_Ok%negb_false_iff%Z.eqb_eq & Hl) x [->|Hx]%elem_of_cons.
    + exists u. split; [by left|done].
    + destruct (proj1 (IH w Hs Hf) Hl x Hx) as (y & Hy & E). exists y. split; [by right|done].
  - intros Hall. exists tt. split.
    + apply returnIf_Ok, negb_false_iff, Z.eqb_eq. destruct (Hall w ltac:(by left)) as (y & Hy & E).
      rewrite Forall_forall in Hf, Hu.
      apply elem_of_cons in Hy as [->|Hy]; [done|].
      assert (FromVersion w ≤ FromVersion y) as Hle.
      { apply elem_of_cons in Hy as [->|Hy]; [done|]. apply StronglySorted_inv in Hs as [_ Hs].
        rewrite Forall_forall in Hs. apply Hs in Hy. unfold strictly in Hy. lia. }
      apply Hf in Hy as (_ & _ & Hy). lia.
    + apply (IH w Hs Hf). intros x Hx. destruct (Hall x ltac:(by right)) as (y & Hy & E).
      apply elem_of_cons in Hy as [->|Hy]; [|by eauto].
      exfalso. apply StronglySorted_inv in Hs as [_ Hs]. rewrite Forall_forall in Hs, Hu.
      apply Hs in Hx. pose proof (Hu w ltac:(by left)) as Huw.
      unfold strictly in *. destruct Hfu as (_ & _ & Hfu). lia.
Qed.

Lemma Validate_Ok `{MapOrder} c :
  chain_ok c →
  Validate c = Ok tt ↔
  ∀ t u w, u ∈ upcastersOf c t → head (upcastersOf c t) = Some w → w ≠ u →
    ∃ y, y ∈ upcastersOf c t ∧ ToVersion y = FromVersion u.
Proof.
  intros Hc. unfold Validate. rewrite forEach_Ok.
  assert (∀ t u l, uc_upcasters c !! t = Some (u :: l) →
    checkContiguous t u l = Ok tt ↔ ∀ x, x ∈ l → ∃ y, y ∈ u :: l ∧ ToVersion y = FromVersion x)
    as Hcc.
  { intros t u l E. destruct (chain_sorted c Hc _ _ E) as (_ & Hs & Hf). by apply checkContiguous_Ok. }
  split.
  - intros Hall t u w. unfold upcastersOf.
    destruct (uc_upcasters c !! t) as [[|w' l]|] eqn:E; cbn; [set_solver| |set_solver].
    intros Hu [= ->] Hne. apply elem_of_cons in Hu as [->|Hu]; [done|].
    apply elem_of_range in E as E'. apply Hall in E'. by apply (Hcc t w l E).
  - intros Hall [t l] E%elem_of_range. destruct l as [|w l]; [done|].
    apply Hcc; [done|]. intros x Hx. specialize (Hall t x w). unfold upcastersOf in Hall.
    rewrite E in Hall. apply Hall; [by right|done|]. intros ->.
    destruct (chain_sorted c Hc _ _ E) as (_ & Hs & _).
    apply StronglySorted_inv in Hs as [_ Hs]. rewrite Forall_forall in Hs.
    apply Hs in Hx. unfold strictly in Hx. lia.
Qed.

(** A validated chain has a step from every version between its first one and
    the latest. *)
Lemma contiguous_step `{MapOrder} c t u v :
  chain_ok c → Validate c = Ok tt → u ∈ upcastersOf c t →
  FromVersion u ≤ v < LatestVersion c t → ∃ y, y ∈ upcastersOf c t ∧ FromVersion y = v.
Proof.
  intros Hc Hval Hu [Huv Hv]. destruct (upcastersOf_ok c t Hc) as [Hs Hf].
  destruct (LatestVersion_witness c t u Hc Hu) as (w & Hw & Hlw).
  assert (step_ok t w) as (_ & _ & Htw) by (by eapply Forall_forall in Hf).
  (* walk down from the last step *)
  assert (∀ n : nat, FromVersion u ≤ FromVersion w - Z.of_nat n →
    ∃ y, y ∈ upcastersOf c t ∧ FromVersion y = FromVersion w - Z.of_nat n) as Hdown.
  { induction n as [|n IH]; intros Hn; [exists w; split; [done|lia]|].
    destruct IH as (y & Hy & Ey); [lia|].
    assert (∃ h, head (upcastersOf c t) = Some h ∧ FromVersion h ≤ FromVersion u) as (h & Hh & Hhu).
    { destruct (head (upcastersOf c t)) as [h|] eqn:Eh.
      - exists h. split; [done|]. by eapply strictly_head.
      - apply head_None in Eh. rewrite Eh in Hu. set_solver. }
    destruct (proj1 (Validate_Ok c Hc) Hval t y h Hy Hh) as (z & Hz & Ez); [intros ->; lia|].
    exists z. split; [done|]. eapply Forall_forall in Hf as (_ & _ & ?); [|exact Hz]. lia. }
  destruct (Hdown (Z.to_nat (FromVersion w - v))) as (y & Hy & Ey); [lia|].
  exists y. split; [done|]. lia.
Qed.

(** ** The properties *)

(** Whatever upcasters a program registers, in whatever order and with
    refused registrations in between, each event type holds strictly increasing
    one-step transitions, the first registration of a version wins and none is
    lost, and [LatestVersion] is the end of the greatest step. *)
Theorem register_keeps_chain `{SliceSort} (us : list Upcaster) :
  Forall (λ u, FromVersion u < MaxInt64) us →
  let c := registerAll us in
  chain_ok c ∧
  (∀ t u, u ∈ upcastersOf c t → u ∈ us ∧ EventType u = t) ∧
  (∀ u, u ∈ us → 1 ≤ FromVersion u → ToVersion u = FromVersion u + 1 →
     ∃ u', u' ∈ upcastersOf c (EventType u) ∧ FromVersion u' = FromVersion u) ∧
  (∀ t u, u ∈ upcastersOf c t → ToVersion u ≤ LatestVersion c t) ∧
  (∀ t, upcastersOf c t = [] → LatestVersion c t = DefaultSchemaVersion).
Proof.
  intros Hus c. assert (chain_ok c) as Hc by (by apply registerAll_ok).
  split; [done|]. split; [|split]; [| |split].
  - clear Hus Hc. induction us as [|u us IH] using rev_ind; cbn in *; [set_solver|].
    intros t x. unfold c. rewrite registerAll_snoc, Register_members, elem_of_app, list_elem_of_singleton.
    intros [Hx|(-> & -> & _)]; [|by auto]. apply IH in Hx. naive_solver.
  - clear Hc. induction us as [|u us IH] using rev_ind; cbn in *; [set_solver|].
    apply Forall_app in Hus as [Hus [Hu _]%Forall_cons]. intros x [Hx| ->%list_elem_of_singleton]%elem_of_app H1 H2.
    + destruct (IH Hus x Hx H1 H2) as (u' & Hu' & E). exists u'. split; [|done].
      unfold c. rewrite registerAll_snoc. apply Register_members. by left.
    + unfold c. rewrite registerAll_snoc. setoid_rewrite Register_members.
      destruct (decide (FromVersion u ∈ FromVersion <$> upcastersOf (registerAll us) (EventType u)))
        as [(y & E & Hy)%list_elem_of_fmap|Hn]; [by eauto|].
      exists u. split; [|done]. right. rewrite i64_id by (unfold in_i64, MinInt64; lia). auto.
  - intros t u Hu. destruct (upcastersOf_ok c t Hc) as [_ Hf].
    pose proof (LatestVersion_max c t u Hc Hu). eapply Forall_forall in Hf as (_ & _ & ?); [|done]. lia.
  - intros t E. rewrite LatestVersion_last by done. by rewrite E.
Qed.

(** C27: [Upcast] runs, from the stored version, exactly the registered steps
    in order of their version until none is left at or above the current one;
    a missing step and a failing upcaster (a panicking one included) are
    reported with the version reached and no data.  The outcome is unique. *)
Theorem upcast_runs_registered_steps `{SliceSort} (us : list Upcaster) (t : string) (md : Metadata)
    (v : Z) (d : Bytes) (out : Z * res Bytes) :
  Forall (λ u, FromVersion u < MaxInt64) us →
  let c := registerAll us in
  Upcast c t v d md = out ↔ upcasts t md (upcastersOf c t) v d out.
Proof.
  intros Hus c. assert (chain_ok c) as Hc by (by apply registerAll_ok).
  destruct (upcastersOf_ok c t Hc) as [Hs _]. split.
  - intros <-. by apply Upcast_spec.
  - intros Hout. eapply upcasts_deterministic; [done|by apply Upcast_spec|done].
Qed.

(** [Validate] accepts a chain, under any map iteration order, exactly
    when every version between the first and the latest of each event type has
    an upcaster starting at it. *)
Theorem validate_iff_contiguous `{MapOrder} `{SliceSort} (us : list Upcaster) :
  Forall (λ u, FromVersion u < MaxInt64) us →
  let c := registerAll us in
  Validate c = Ok tt ↔
  ∀ t u v, u ∈ upcastersOf c t → FromVersion u ≤ v < LatestVersion c t →
    ∃ y, y ∈ upcastersOf c t ∧ FromVersion y = v.
Proof.
  intros Hus c. assert (chain_ok c) as Hc by (by apply registerAll_ok). split.
  - intros Hval t u v Hu Hv. by eapply contiguous_step.
  - intros Hall. apply Validate_Ok; [done|]. intros t u w Hu Hw Hne.
    destruct (upcastersOf_ok c t Hc) as [Hs Hf].
    assert (FromVersion w < FromVersion u) as Hlt.
    { assert (FromVersion w ≠ FromVersion u).
      { intros E. apply Hne. eapply strictly_functional; [done|by apply head_Some_elem_of|done..]. }
      pose proof (strictly_head _ _ _ Hs Hw Hu). lia. }
    assert (w ∈ upcastersOf c t) as Hwin by (by apply head_Some_elem_of).
    pose proof (LatestVersion_max c t u Hc Hu).
    destruct (Hall t w (FromVersion u - 1) Hwin ltac:(lia)) as (y & Hy & E).
    exists y. split; [done|]. eapply Forall_forall in Hf as (_ & _ & ?); [|done]. lia.
Qed.

(** On a validated chain an upcast from a version the chain covers never
    reports a gap: it ends at the latest version, or at the step whose upcaster
    failed, with an error that [errors.Is] recognises as [ErrUpcastFailed]. *)
Theorem validated_upcast_reaches_latest `{MapOrder} `{SliceSort} (us : list Upcaster) (t : string)
    (md : Metadata) (v : Z) (d : Bytes) (u0 : Upcaster) :
  Forall (λ u, FromVersion u < MaxInt64) us →
  let c := registerAll us in
  Validate c = Ok tt → u0 ∈ upcastersOf c t → FromVersion u0 ≤ v →
  match Upcast c t v d md with
  | (v', Ok _) => v' = Z.max v (LatestVersion c t)
  | (v', Err e) => v ≤ v' < LatestVersion c t ∧
      ∃ cause, e = UpcastError t v' (v' + 1) cause ∧ errors_Is e ErrUpcastFailed = true
  end.
Proof.
  intros Hus c Hval Hu0 Hv. assert (chain_ok c) as Hc by (by apply registerAll_ok).
  pose proof (Upcast_spec c t md v d Hc) as Hrun. revert Hrun.
  generalize (Upcast c t v d md) as out. intros out Hrun.
  destruct (LatestVersion_witness c t u0 Hc Hu0) as (w & Hw & Hlw).
  destruct (upcastersOf_ok c t Hc) as [_ Hf]. rewrite Forall_forall in Hf.
  pose proof (Hf _ Hw) as (_ & _ & Htw).
  induction Hrun as [v d Hdone|v d z Hz Hvz Hgap|v d u e Hu Eu He|v d u d' out Hu Eu He Hrun IH]; cbn.
  - apply Hdone in Hw. lia.
  - exfalso. pose proof (LatestVersion_max c t z Hc Hz).
    destruct (contiguous_step c t u0 v Hc Hval Hu0 ltac:(lia)) as (y & Hy & Ey).
    destruct (Hgap y Hy); lia.
  - pose proof (LatestVersion_max c t u Hc Hu). split; [lia|]. by exists e.
  - pose proof (LatestVersion_max c t u Hc Hu). specialize (IH ltac:(lia)).
    destruct out as [v' [d''|e]]; cbn in IH |- *.
    + lia.
    + destruct IH as [IH (cause & E1 & E2)]. split; [lia|]. by exists cause.
Qed.

(** ** Schema version in the metadata, set and read back *)

(** The schema version set on the metadata of an event is the one read
    back (clamped to the default below it), setting it changes nothing else,
    and whatever the metadata holds the version read is a valid [int] of at
    least [DefaultSchemaVersion]. *)
Theorem schema_version_roundtrip (m : Metadata) (v : Z) :
  in_i64 v →
  GetSchemaVersion (SetSchemaVersion m v) = Z.max v DefaultSchemaVersion ∧
  hasSchemaVersion (SetSchemaVersion m v) = true ∧
  (∀ k, k ≠ schemaVersionKey →
     custom_lookup (SetSchemaVersion m v) k = custom_lookup m k) ∧
  set_Custom (SetSchemaVersion m v) (md_Custom m) = m ∧
  (∀ m', DefaultSchemaVersion ≤ GetSchemaVersion m' ≤ MaxInt64) ∧
  (hasSchemaVersion m = false → GetSchemaVersion m = DefaultSchemaVersion).
Proof.
  intros Hv. unfold GetSchemaVersion, hasSchemaVersion, SetSchemaVersion, WithCustom,
    custom_lookup, DefaultSchemaVersion. cbn.
  rewrite lookup_insert_eq, Atoi_Itoa by done. split; [|split; [done|split; [|split; [by destruct m|split]]]].
  - case_match; zbool; lia.
  - intros k Hk. rewrite lookup_insert_ne by done. by destruct (md_Custom m).
  - intros m'. repeat case_match; zbool; unfold MaxInt64; try lia;
    match goal with H : Atoi _ = Some _ |- _ => apply Atoi_range in H; unfold in_i64, MaxInt64 in H end; lia.
  - destruct (md_Custom m) as [c|]; [|done]. by destruct (c !! _).
Qed.

(** ** Witnesses *)

Definition appendByte (b : byte) (d : Bytes) : Bytes := Some (default [] d ++ [b]).

Definition sampleUp (from : Z) (b : byte) : Upcaster :=
  mkUpcaster "OrderPlaced" from (from + 1) (λ d _, Ok (appendByte b d)).

Definition panickingUp (from : Z) : Upcaster :=
  mkUpcaster "OrderPlaced" from (from + 1) (λ _ _, Err (Panic "index out of range")).

(** Registered out of order, with a duplicate and an invalid one. *)
Definition sampleUpcasters : list Upcaster :=
  [sampleUp 2 x02; sampleUp 1 x01; sampleUp 2 x0a; sampleUp 0 x0b; sampleUp 3 x03].

Lemma sampleUpcasters_ok : Forall (λ u, FromVersion u < MaxInt64) sampleUpcasters.
Proof. repeat constructor. Qed.

Lemma register_keeps_chain_witness :
  let c := @registerAll stableSlice sampleUpcasters in
  chain_ok c ∧ FromVersion <$> upcastersOf c "OrderPlaced" = [1; 2; 3] ∧
  LatestVersion c "OrderPlaced" = 4.
Proof.
  split; [|by vm_compute].
  apply (@register_keeps_chain stableSlice sampleUpcasters sampleUpcasters_ok).
Defined.

Lemma upcast_runs_registered_steps_witness :
  let c := @registerAll stableSlice sampleUpcasters in
  upcasts "OrderPlaced" emptyMetadata (upcastersOf c "OrderPlaced") 2 (Some [])
    (4, Ok (Some [x02; x03])) ∧
  upcasts "OrderPlaced" emptyMetadata
    (upcastersOf (@registerAll stableSlice [sampleUp 1 x01; panickingUp 2]) "OrderPlaced") 1 (Some [])
    (2, Err (UpcastError "OrderPlaced" 2 3
      (Errorf "mink: upcaster for %q (version %d -> %d) panicked: %s"))).
Proof.
  split.
  - apply (@upcast_runs_registered_steps stableSlice sampleUpcasters "OrderPlaced" emptyMetadata
      2 (Some []) _ sampleUpcasters_ok). by vm_compute.
  - apply (@upcast_runs_registered_steps stableSlice [sampleUp 1 x01; panickingUp 2]
      "OrderPlaced" emptyMetadata 1 (Some [])); [by repeat constructor|by vm_compute].
Defined.

Lemma validate_iff_contiguous_witness :
  let c := @registerAll stableSlice sampleUpcasters in
  @Validate listOrder c = Ok tt ∧
  ∀ t u v, u ∈ upcastersOf c t → FromVersion u ≤ v < LatestVersion c t →
    ∃ y, y ∈ upcastersOf c t ∧ FromVersion y = v.
Proof.
  split; [by vm_compute|].
  apply (@validate_iff_contiguous listOrder stableSlice sampleUpcasters sampleUpcasters_ok).
  by vm_compute.
Defined.

Lemma validated_upcast_reaches_latest_witness :
  let c := @registerAll stableSlice sampleUpcasters in
  (Upcast c "OrderPlaced" 1 (Some []) emptyMetadata).1 = Z.max 1 (LatestVersion c "OrderPlaced").
Proof.
  pose proof (@validated_upcast_reaches_latest listOrder stableSlice sampleUpcasters "OrderPlaced"
    emptyMetadata 1 (Some []) (sampleUp 1 x01) sampleUpcasters_ok eq_refl) as H.
  assert (sampleUp 1 x01 ∈ upcastersOf (@registerAll stableSlice sampleUpcasters) "OrderPlaced") as Hin
    by (vm_compute; left).
  exact (H Hin ltac:(by vm_compute)).
Defined.

Lemma schema_version_roundtrip_witness :
  GetSchemaVersion (SetSchemaVersion emptyMetadata 42) = 42.
Proof. destruct (schema_version_roundtrip emptyMetadata 42) as [H _]; [by vm_compute|exact H]. Defined.
