(* ===== verification/SchemaRegistry.v ===== *)
(** * The schema registry

    [src/schema_registry.go]: the schemas of each event type by version and the
    compatibility check between two of them.  Field maps are iterated in an
    arbitrary order ([MapOrder]). *)

From S2P Require Import Prelude.
From S2P Require Import Types.
From S2P Require Import Common.

Definition SchemaCompatibility_String (c : SchemaCompatibility) : string :=
  match c with
  | SchemaFullyCompatible => "fully-compatible"
  | SchemaBackwardCompatible => "backward-compatible"
  | SchemaForwardCompatible => "forward-compatible"
  | SchemaBreaking => "breaking"
  end.

Record FieldDefinition := mkField {
  fd_Name : string;
  fd_Type : string;
  fd_Required : bool;
}.

Record SchemaDefinition := mkSchema {
  sc_Version : Z;
  sc_Fields : list FieldDefinition;
  sc_JSONSchema : Bytes;
  sc_RegisteredAt : Time;
}.

Record SchemaRegistry := mkSchemaRegistry {
  sr_schemas : gmap string (gmap Z SchemaDefinition); (* event type → version → schema *)
}.

Definition NewSchemaRegistry : SchemaRegistry := mkSchemaRegistry ∅.

Definition set_RegisteredAt (s : SchemaDefinition) (t : Time) : SchemaDefinition :=
  mkSchema (sc_Version s) (sc_Fields s) (sc_JSONSchema s) t.

Definition Register (env : Env) (eventType : string) (schema : SchemaDefinition)
    : op SchemaRegistry error unit := λ r,
  if sc_Version schema <? 1 then (r, Err (Errorf "mink: schema version must be >= 1, got %d"))
  else
    let versions := default ∅ (sr_schemas r !! eventType) in
    let schemas := <[eventType := versions]> (sr_schemas r) in
    match versions !! sc_Version schema with
    | Some _ => (mkSchemaRegistry schemas, Err (Errorf "mink: schema version %d already registered for event type %q"))
    | None =>
        let s := if sc_RegisteredAt schema =? 0 then set_RegisteredAt schema (time_Now env 0)
                 else schema in
        (mkSchemaRegistry (<[eventType := <[sc_Version schema := s]> versions]> schemas), Ok tt)
    end.

Definition GetSchema (r : SchemaRegistry) (eventType : string) (version : Z) : res SchemaDefinition :=
  match sr_schemas r !! eventType with
  | None => Err (Wrapf "%w: event type %q" ErrSchemaNotFound)
  | Some versions =>
      match versions !! version with
      | None => Err (Wrapf "%w: event type %q version %d" ErrSchemaNotFound)
      | Some schema => Ok schema
      end
  end.

Definition GetLatestVersion `{MapOrder} (r : SchemaRegistry) (eventType : string) : res Z :=
  match sr_schemas r !! eventType with
  | None => Err (Wrapf "%w: event type %q" ErrSchemaNotFound)
  | Some versions => Ok (foldl (λ latest v, if latest <? v then v else latest) 0 (range versions).*1)
  end.

(** [oldFields[f.Name] = f] over the slice: the last definition of a name wins. *)
Definition fieldMap (fields : list FieldDefinition) : gmap string FieldDefinition :=
  foldl (λ m f, <[fd_Name f := f]> m) ∅ fields.

Record changes := mkChanges {
  hasAddedFields : bool;
  hasRemovedFields : bool;
  hasChangedFields : bool;
  hasBreakingAddition : bool;
}.

(** The body of the loop over the old fields. *)
Definition compareOld (newFields : gmap string FieldDefinition) (ch : changes)
    (kv : string * FieldDefinition) : changes :=
  let '(name, oldField) := kv in
  match newFields !! name with
  | None => mkChanges (hasAddedFields ch) true (hasChangedFields ch) (hasBreakingAddition ch)
  | Some newField =>
      let changed :=
        if negb (bool_decide (fd_Type oldField = fd_Type newField)) then true
        else hasChangedFields ch in
      let changed :=
        if fd_Required newField && negb (fd_Required oldField) then true else changed in
      mkChanges (hasAddedFields ch) (hasRemovedFields ch) changed (hasBreakingAddition ch)
  end.

(** The body of the loop over the new fields. *)
Definition compareNew (oldFields : gmap string FieldDefinition) (ch : changes)
    (kv : string * FieldDefinition) : changes :=
  let '(name, newField) := kv in
  match oldFields !! name with
  | Some _ => ch
  | None =>
      mkChanges true (hasRemovedFields ch) (hasChangedFields ch)
        (if fd_Required newField then true else hasBreakingAddition ch)
  end.

Definition CheckCompatibility `{MapOrder} (r : SchemaRegistry) (eventType : string)
    (oldVersion newVersion : Z) : res SchemaCompatibility :=
  if newVersion <=? oldVersion then
    Err (Errorf "mink: newVersion (%d) must be greater than oldVersion (%d)")
  else
    oldSchema ← GetSchema r eventType oldVersion;
    newSchema ← GetSchema r eventType newVersion;
    let oldFields := fieldMap (sc_Fields oldSchema) in
    let newFields := fieldMap (sc_Fields newSchema) in
    let ch := mkChanges false false false false in
    let ch := foldl (compareOld newFields) ch (range oldFields) in
    let ch := foldl (compareNew oldFields) ch (range newFields) in
    Ok (if hasChangedFields ch || hasBreakingAddition ch then SchemaBreaking
        else if hasRemovedFields ch && hasAddedFields ch then SchemaBreaking
        else if hasRemovedFields ch then SchemaForwardCompatible
        else if hasAddedFields ch then SchemaBackwardCompatible
        else SchemaFullyCompatible).

Definition RequireBackwardCompatible `{MapOrder} (r : SchemaRegistry) (eventType : string)
    (oldVersion newVersion : Z) : res unit :=
  compat ← CheckCompatibility r eventType oldVersion newVersion;
  if bool_decide (compat = SchemaFullyCompatible) || bool_decide (compat = SchemaBackwardCompatible)
  then Ok tt
  else Err (IncompatibleSchemaError eventType oldVersion newVersion compat
         ("change is " +:+ SchemaCompatibility_String compat +:+ ", which is not backward compatible")).

Definition RegisteredEventTypes `{MapOrder} `{SliceSort} (r : SchemaRegistry) : list string :=
  sortSlice String.ltb (range (sr_schemas r)).*1.

(** ** The documents of a schema

    What a schema promises a reader: a document maps the names of the schema's
    fields to the type of their value, with every required field present. *)
Abbreviation document := (gmap string string).

Definition conforms (fields : gmap string FieldDefinition) (doc : document) : Prop :=
  (∀ name ty, doc !! name = Some ty → ∃ f, fields !! name = Some f ∧ fd_Type f = ty) ∧
  (∀ name f, fields !! name = Some f → fd_Required f = true → is_Some (doc !! name)).

(** ** The loops *)

Definition is_removed (newF : gmap string FieldDefinition) (kv : string * FieldDefinition) : Prop :=
  newF !! kv.1 = None.
Definition is_changed (newF : gmap string FieldDefinition) (kv : string * FieldDefinition) : Prop :=
  ∃ f', newF !! kv.1 = Some f' ∧
    (fd_Type kv.2 ≠ fd_Type f' ∨ (fd_Required f' = true ∧ fd_Required kv.2 = false)).
Definition is_breaking (oldF : gmap string FieldDefinition) (kv : string * FieldDefinition) : Prop :=
  oldF !! kv.1 = None ∧ fd_Required kv.2 = true.

Lemma is_changed_Some newF name f f' :
  newF !! name = Some f' →
  is_changed newF (name, f) ↔
  fd_Type f ≠ fd_Type f' ∨ (fd_Required f' = true ∧ fd_Required f = false).
Proof.
  intros E. unfold is_changed; cbn. split; [intros (? & ? & ?)|intros ?; exists f'; done].
  by simplify_eq.
Qed.

(** One step of each loop, flag by flag. *)
Lemma compareOld_spec newF ch kv :
  let ch' := compareOld newF ch kv in
  hasAddedFields ch' = hasAddedFields ch ∧ hasBreakingAddition ch' = hasBreakingAddition ch ∧
  (hasRemovedFields ch' = true ↔ hasRemovedFields ch = true ∨ is_removed newF kv) ∧
  (hasChangedFields ch' = true ↔ hasChangedFields ch = true ∨ is_changed newF kv).
Proof.
  destruct kv as [name f]. unfold compareOld, is_removed.
  destruct (newF !! name) as [f'|] eqn:E; cbn; rewrite E.
  - rewrite (is_changed_Some newF name f f') by done.
    case_bool_decide; destruct (fd_Required f'), (fd_Required f); cbn; intuition congruence.
  - assert (¬ is_changed newF (name, f)) by (intros (? & ? & _); cbn in *; congruence). tauto.
Qed.

Lemma compareNew_spec oldF ch kv :
  let ch' := compareNew oldF ch kv in
  hasRemovedFields ch' = hasRemovedFields ch ∧ hasChangedFields ch' = hasChangedFields ch ∧
  (hasAddedFields ch' = true ↔ hasAddedFields ch = true ∨ oldF !! kv.1 = None) ∧
  (hasBreakingAddition ch' = true ↔ hasBreakingAddition ch = true ∨ is_breaking oldF kv).
Proof.
  destruct kv as [name f]. unfold compareNew, is_breaking; cbn.
  destruct (oldF !! name) as [f'|] eqn:E; cbn; [naive_solver|].
  destruct (fd_Required f) eqn:?; naive_solver.
Qed.

Lemma compareOld_loop newF l ch :
  let ch' := foldl (compareOld newF) ch l in
  hasAddedFields ch' = hasAddedFields ch ∧ hasBreakingAddition ch' = hasBreakingAddition ch ∧
  (hasRemovedFields ch' = true ↔ hasRemovedFields ch = true ∨ ∃ kv, kv ∈ l ∧ is_removed newF kv) ∧
  (hasChangedFields ch' = true ↔ hasChangedFields ch = true ∨ ∃ kv, kv ∈ l ∧ is_changed newF kv).
Proof.
  revert ch. induction l as [|kv l IH]; intros ch; cbn [foldl]; [set_solver|].
  destruct (IH (compareOld newF ch kv)) as (-> & -> & -> & ->).
  destruct (compareOld_spec newF ch kv) as (-> & -> & -> & ->).
  setoid_rewrite elem_of_cons. naive_solver.
Qed.

Lemma compareNew_loop oldF l ch :
  let ch' := foldl (compareNew oldF) ch l in
  hasRemovedFields ch' = hasRemovedFields ch ∧ hasChangedFields ch' = hasChangedFields ch ∧
  (hasAddedFields ch' = true ↔ hasAddedFields ch = true ∨ ∃ kv, kv ∈ l ∧ oldF !! kv.1 = None) ∧
  (hasBreakingAddition ch' = true ↔ hasBreakingAddition ch = true ∨ ∃ kv, kv ∈ l ∧ is_breaking oldF kv).
Proof.
  revert ch. induction l as [|kv l IH]; intros ch; cbn [foldl]; [set_solver|].
  destruct (IH (compareNew oldF ch kv)) as (-> & -> & -> & ->).
  destruct (compareNew_spec oldF ch kv) as (-> & -> & -> & ->).
  setoid_rewrite elem_of_cons. naive_solver.
Qed.

(** The acceptable evolutions, by field. *)
Definition evolves (oldF newF : gmap string FieldDefinition) : Prop :=
  (∀ name f, oldF !! name = Some f → ∃ f', newF !! name = Some f' ∧
     fd_Type f = fd_Type f' ∧ (fd_Required f' = true → fd_Required f = true)) ∧
  (∀ name f', newF !! name = Some f' → oldF !! name = None → fd_Required f' = false).

Lemma evolves_flags `{MapOrder} oldF newF :
  evolves oldF newF ↔
  ¬ (∃ kv, kv ∈ range oldF ∧ is_removed newF kv) ∧
  ¬ (∃ kv, kv ∈ range oldF ∧ is_changed newF kv) ∧
  ¬ (∃ kv, kv ∈ range newF ∧ is_breaking oldF kv).
Proof.
  unfold evolves, is_removed, is_breaking. split.
  - intros [H1 H2]. repeat split.
    + intros ([k f] & Hin%elem_of_range & Hk). cbn in Hk.
      destruct (H1 _ _ Hin) as (? & ? & _). congruence.
    + intros ([k f] & Hin%elem_of_range & Hk). destruct (H1 _ _ Hin) as (f' & Hf' & ? & Hr).
      rewrite (is_changed_Some _ _ _ f') in Hk by done.
      destruct Hk as [?|[Hr1 Hr2]]; [done|]. by rewrite Hr in Hr2.
    + intros ([k f] & Hin%elem_of_range & Hk & Hr). cbn in *. by rewrite (H2 _ _ Hin Hk) in Hr.
  - intros (H1 & H2 & H3). split.
    + intros k f Hk. apply elem_of_range in Hk as Hk'. destruct (newF !! k) as [f'|] eqn:E.
      2: { exfalso. apply H1. by exists (k, f). }
      exists f'. split; [done|].
      assert (¬ is_changed newF (k, f)) as Hc by (intros ?; apply H2; by exists (k, f)).
      rewrite (is_changed_Some _ _ _ f') in Hc by done.
      destruct (decide (fd_Type f = fd_Type f')), (fd_Required f'), (fd_Required f); tauto.
    + intros k f' Hk Ho'. destruct (fd_Required f') eqn:Er; [|done]. exfalso. apply H3.
      exists (k, f'). by rewrite elem_of_range.
Qed.

Lemma RequireBackwardCompatible_evolves `{MapOrder} r t o n so sn :
  o < n → GetSchema r t o = Ok so → GetSchema r t n = Ok sn →
  RequireBackwardCompatible r t o n = Ok tt ↔
  evolves (fieldMap (sc_Fields so)) (fieldMap (sc_Fields sn)).
Proof.
  intros Hlt Ho Hn. unfold RequireBackwardCompatible, CheckCompatibility.
  rewrite (proj2 (Z.leb_gt _ _)) by done. rewrite Ho, Hn. cbn [mbind result_bind].
  set (oldF := fieldMap (sc_Fields so)). set (newF := fieldMap (sc_Fields sn)).
  set (ch1 := foldl (compareOld newF) _ _). set (ch2 := foldl (compareNew oldF) ch1 _).
  destruct (compareOld_loop newF (range oldF) (mkChanges false false false false)) as (E1 & E2 & R1 & C1).
  destruct (compareNew_loop oldF (range newF) ch1) as (R2 & C2 & A2 & B2).
  fold ch1 in E1, E2, R1, C1. fold ch2 in R2, C2, A2, B2. cbn in E1, E2, R1, C1.
  rewrite evolves_flags, R2, C2. rewrite E2 in B2.
  revert R1 C1 B2. generalize (∃ kv, kv ∈ range oldF ∧ is_removed newF kv).
  generalize (∃ kv, kv ∈ range oldF ∧ is_changed newF kv).
  generalize (∃ kv, kv ∈ range newF ∧ is_breaking oldF kv). clear.
  destruct (hasRemovedFields ch1), (hasChangedFields ch1), (hasBreakingAddition ch2), (hasAddedFields ch2);
    intros P Q R HP HQ HR; cbn [orb andb]; repeat case_bool_decide; try done; cbn [orb];
    assert (false ≠ true) by done; (split; [intros [=]; tauto|intros (? & ? & ?); try done; tauto]).
Qed.

(** An evolution is acceptable exactly when it keeps every document readable. *)
Lemma evolves_conforms oldF newF :
  evolves oldF newF ↔ ∀ doc, conforms oldF doc → conforms newF doc.
Proof.
  split.
  - intros [H1 H2] doc [Hty Hreq]. split.
    + intros name ty Hd. destruct (Hty _ _ Hd) as (f & Hf & <-).
      destruct (H1 _ _ Hf) as (f' & Hf' & E & _). eauto.
    + intros name f' Hf' Hr. destruct (oldF !! name) as [f|] eqn:E.
      * destruct (H1 _ _ E) as (f'' & Hf'' & _ & Hr'). simplify_eq. eauto.
      * by rewrite (H2 _ _ Hf' E) in Hr.
  - intros Hall.
    (* the document that has every old field *)
    set (full := fd_Type <$> oldF).
    assert (conforms oldF full) as Hfull.
    { split; unfold full; intros name x; rewrite lookup_fmap.
      - destruct (oldF !! name) as [f|]; cbn; [|done]. intros [= <-]. eauto.
      - intros ->. by eexists. }
    split.
    + intros name f Hf. destruct (Hall _ Hfull) as [Hty Hreq].
      destruct (Hty name (fd_Type f)) as (f' & Hf' & E); [unfold full; by rewrite lookup_fmap, Hf|].
      exists f'. split; [done|split; [done|]]. intros Hr.
      destruct (fd_Required f) eqn:Er; [done|]. exfalso.
      assert (conforms oldF (delete name full)) as Hdel.
      { destruct Hfull as [Ht Hq]. split.
        - intros k ty [_ Hk]%lookup_delete_Some. eauto.
        - intros k g Hk Hg. rewrite lookup_delete_ne; [eauto|]. intros ->. congruence. }
      apply Hall in Hdel as [_ Hq]. destruct (Hq _ _ Hf' Hr) as [? Hx].
      by rewrite lookup_delete_eq in Hx.
    + intros name f' Hf' Ho. destruct (fd_Required f') eqn:Er; [|done].
      destruct (Hall _ Hfull) as [_ Hq]. destruct (Hq _ _ Hf' Er) as [? Hx].
      unfold full in Hx. by rewrite lookup_fmap, Ho in Hx.
Qed.

(** ** Registrations *)

Record registration := mkRegistration {
  rg_env : Env;
  rg_type : string;
  rg_schema : SchemaDefinition;
}.

Definition registerAll (l : list registration) : SchemaRegistry :=
  foldl (λ r g, (Register (rg_env g) (rg_type g) (rg_schema g) r).1) NewSchemaRegistry l.

(** What a registration stores. *)
Definition stamped (g : registration) : SchemaDefinition :=
  if sc_RegisteredAt (rg_schema g) =? 0
  then set_RegisteredAt (rg_schema g) (time_Now (rg_env g) 0) else rg_schema g.

Definition registers (t : string) (v : Z) (g : registration) : Prop :=
  rg_type g = t ∧ sc_Version (rg_schema g) = v ∧ 1 ≤ v.

#[export] Instance registers_dec t v g : Decision (registers t v g).
Proof. unfold registers. apply _. Defined.

Definition schemaAt (r : SchemaRegistry) (t : string) (v : Z) : option SchemaDefinition :=
  sr_schemas r !! t ≫= (.!! v).

Lemma GetSchema_schemaAt r t v :
  match schemaAt r t v with
  | Some s => GetSchema r t v = Ok s
  | None => ∃ e, GetSchema r t v = Err e ∧ errors_Is e ErrSchemaNotFound = true
  end.
Proof.
  unfold schemaAt, GetSchema. destruct (sr_schemas r !! t) as [m|]; cbn; [destruct (m !! v)|]; eauto.
Qed.

Lemma Register_schemaAt g r t v :
  schemaAt (Register (rg_env g) (rg_type g) (rg_schema g) r).1 t v =
  match schemaAt r t v with
  | Some s => Some s
  | None => if decide (registers t v g) then Some (stamped g) else None
  end.
Proof.
  unfold Register, registers, stamped, schemaAt.
  destruct (sc_Version (rg_schema g) <? 1) eqn:E1; zbool.
  { cbn. destruct (sr_schemas r !! t ≫= _); [done|]. rewrite decide_False; [done|]. lia. }
  destruct (default ∅ (sr_schemas r !! rg_type g) !! sc_Version (rg_schema g)) as [s|] eqn:E2; cbn.
  - destruct (decide (t = rg_type g)) as [->|Ht].
    + rewrite lookup_insert_eq; cbn. destruct (sr_schemas r !! rg_type g) as [m|] eqn:E; cbn in *; [|by rewrite lookup_empty in E2].
      destruct (m !! v) eqn:Em; [done|]. rewrite decide_False; [done|]. intros (_ & <- & _). congruence.
    + rewrite lookup_insert_ne by done. destruct (sr_schemas r !! t ≫= _); [done|]. rewrite decide_False; [done|]. naive_solver.
  - rewrite insert_insert_eq. destruct (decide (t = rg_type g)) as [->|Ht].
    + rewrite lookup_insert_eq; cbn. destruct (decide (v = sc_Version (rg_schema g))) as [->|Hv].
      * rewrite lookup_insert_eq, decide_True by done.
        destruct (sr_schemas r !! rg_type g) as [m|] eqn:E; cbn in *; [by rewrite E2|done].
      * rewrite lookup_insert_ne, decide_False by naive_solver.
        destruct (sr_schemas r !! rg_type g) as [m|] eqn:E; cbn; [by destruct (m !! v)|by rewrite lookup_empty].
    + rewrite lookup_insert_ne, decide_False by naive_solver. by destruct (sr_schemas r !! t ≫= _).
Qed.

Lemma registerAll_schemaAt l t v :
  schemaAt (registerAll l) t v = stamped <$> head (filter (registers t v) l).
Proof.
  unfold registerAll. induction l as [|g l IH] using rev_ind; [done|].
  rewrite foldl_app. cbn [foldl]. rewrite Register_schemaAt, IH, filter_app, head_app.
  rewrite (filter_cons _ g). destruct (head (filter (registers t v) l)); [done|]. by case_decide.
Qed.

Lemma foldl_max_spec l (acc : Z) :
  let m := foldl (λ latest v, if latest <? v then v else latest) acc l in
  (m = acc ∨ m ∈ l) ∧ acc ≤ m ∧ ∀ v, v ∈ l → v ≤ m.
Proof.
  revert acc. induction l as [|x l IH]; intros acc; cbn; [split; [auto|split; [lia|set_solver]]|].
  destruct (IH (if acc <? x then x else acc)) as (H1 & H2 & H3).
  set (m := foldl _ _ _) in *. clearbody m.
  split; [|split].
  - destruct H1 as [->|]; [|set_solver]. destruct (acc <? x); [right; left|by left].
  - destruct (Z.ltb_spec acc x); lia.
  - intros v [->|Hv]%elem_of_cons; [|auto]. destruct (Z.ltb_spec acc x); lia.
Qed.

(** ** The properties *)

(** C28: [RequireBackwardCompatible] accepts an evolution, under any map
    iteration order, exactly when every document of the old schema is a
    document of the new one. *)
Theorem backward_compatible_iff_readable `{MapOrder} (r : SchemaRegistry) (t : string) (o n : Z)
    (so sn : SchemaDefinition) :
  o < n → GetSchema r t o = Ok so → GetSchema r t n = Ok sn →
  RequireBackwardCompatible r t o n = Ok tt ↔
  ∀ doc, conforms (fieldMap (sc_Fields so)) doc → conforms (fieldMap (sc_Fields sn)) doc.
Proof.
  intros Hlt Ho Hn. rewrite (RequireBackwardCompatible_evolves r t o n so sn) by done.
  apply evolves_conforms.
Qed.

(** After any sequence of registrations a version is the first valid
    schema registered for it, never overwritten, every other version is
    reported as [ErrSchemaNotFound], and [GetLatestVersion] is the greatest one
    registered. *)
Theorem registry_first_registration_wins `{MapOrder} (l : list registration) (t : string) :
  let r := registerAll l in
  (∀ v, match head (filter (registers t v) l) with
        | Some g => GetSchema r t v = Ok (stamped g)
        | None => ∃ e, GetSchema r t v = Err e ∧ errors_Is e ErrSchemaNotFound = true
        end) ∧
  (∀ n g v, GetLatestVersion r t = Ok n → g ∈ l → registers t v g →
     v ≤ n ∧ ∃ g', g' ∈ l ∧ registers t n g').
Proof.
  intros r. assert (∀ v, schemaAt r t v = stamped <$> head (filter (registers t v) l)) as Hat
    by (intros; apply registerAll_schemaAt).
  split.
  - intros v. pose proof (GetSchema_schemaAt r t v) as Hg. rewrite Hat in Hg.
    by destruct (head (filter (registers t v) l)).
  - intros n g v Hlat Hg Hv.
    assert (∀ v, (∃ g, g ∈ l ∧ registers t v g) ↔ is_Some (schemaAt r t v)) as Hsome.
    { intros v'. rewrite Hat, fmap_is_Some.
      destruct (filter (registers t v') l) as [|h f] eqn:E; cbn.
      - split; [|by intros [? [=]]]. intros (g' & Hg' & Hr).
        assert (g' ∈ filter (registers t v') l) as Hin by (by apply list_elem_of_filter).
        rewrite E in Hin. by apply not_elem_of_nil in Hin.
      - split; [by eauto|]. intros _. exists h.
        apply and_comm, (list_elem_of_filter (registers t v')). rewrite E. by left. }
    unfold GetLatestVersion in Hlat. unfold schemaAt in Hsome.
    destruct (sr_schemas r !! t) as [m|] eqn:Em; [|done]. injection Hlat as Hlat.
    destruct (foldl_max_spec (range m).*1 0) as (H1 & H2 & H3). rewrite Hlat in H1, H2, H3.
    assert (∀ v, v ∈ (range m).*1 ↔ is_Some (m !! v)) as Hkeys.
    { intros v'. rewrite list_elem_of_fmap. split.
      - intros ([k s] & -> & Hin%elem_of_range). by eexists.
      - intros [s Hs]. exists (v', s). by rewrite elem_of_range. }
    assert (v ≤ n) as Hvn by (apply H3, Hkeys, Hsome; eauto).
    split; [done|]. apply Hsome. cbn. apply Hkeys.
    destruct H1 as [->|]; [|done]. destruct Hv as (_ & _ & Hv). lia.
Qed.

(** ** Witnesses *)

Definition orderV1 : SchemaDefinition :=
  mkSchema 1 [mkField "id" "string" true; mkField "note" "string" true] None 0.
Definition orderV2 : SchemaDefinition :=
  mkSchema 2 [mkField "id" "string" true; mkField "note" "string" false;
              mkField "total" "int" false] None 7.
Definition orderV3 : SchemaDefinition :=
  mkSchema 3 [mkField "id" "string" true; mkField "note" "string" false] None 0.

Definition sampleRegistrations : list registration :=
  [mkRegistration sampleEnv "OrderPlaced" orderV1; mkRegistration sampleEnv "OrderPlaced" orderV2;
   mkRegistration sampleEnv "OrderPlaced" (set_RegisteredAt orderV1 5);
   mkRegistration sampleEnv "OrderPlaced" orderV3].

Lemma backward_compatible_iff_readable_witness :
  (1 < 2) ∧ ∀ doc, conforms (fieldMap (sc_Fields orderV1)) doc → conforms (fieldMap (sc_Fields orderV2)) doc.
Proof.
  split; [reflexivity|].
  apply (@backward_compatible_iff_readable listOrder (registerAll sampleRegistrations) "OrderPlaced" 1 2
    (set_RegisteredAt orderV1 1000) orderV2); [lia|by vm_compute..].
Defined.

Lemma registry_first_registration_wins_witness :
  GetSchema (registerAll sampleRegistrations) "OrderPlaced" 1 = Ok (set_RegisteredAt orderV1 1000) ∧
  1 ≤ 3.
Proof.
  pose proof (@registry_first_registration_wins listOrder sampleRegistrations "OrderPlaced") as [H1 H2].
  split; [exact (H1 1)|].
  refine (proj1 (H2 3 (mkRegistration sampleEnv "OrderPlaced" orderV1) 1 _ _ _)).
  - by vm_compute.
  - by left.
  - by vm_compute.
Defined.

(** A schema change that only relaxes a required field is classified as
    [SchemaFullyCompatible], yet the old schema does not read the new one's
    documents: the level is not "backward and forward compatible". *)
Lemma relaxing_is_called_fully_compatible :
  @CheckCompatibility listOrder (registerAll sampleRegistrations) "OrderPlaced" 1 3 =
    Ok SchemaFullyCompatible ∧
  ∃ doc, conforms (fieldMap (sc_Fields orderV3)) doc ∧ ¬ conforms (fieldMap (sc_Fields orderV1)) doc.
Proof.
  split; [by vm_compute|]. exists {["id" := "string"]}. split.
  - split.
    + intros name ty [<- <-]%lookup_singleton_Some. eexists. split; by vm_compute.
    + intros name f Hf Hr. assert (name = "id") as -> ; [|by eexists].
      destruct (decide (name = "id")) as [|H1]; [done|].
      destruct (decide (name = "note")) as [->|H2]; [vm_compute in Hf; by simplify_eq|].
      unfold fieldMap in Hf; cbn in Hf. rewrite !lookup_insert_ne in Hf by done. by rewrite lookup_empty in Hf.
  - intros [_ H]. destruct (H "note" (mkField "note" "string" true) eq_refl eq_refl) as [? Hx].
    by vm_compute in Hx.
Qed.
