(* ===== verification/SagaStore.v ===== *)
(** * The saga store

    The saga records of [src/adapters/adapter.go] and the in-memory store of
    [src/adapters/memory/saga_store.go]: saves under optimistic concurrency,
    loads, the queries by correlation id, type and status, deletion and the
    erasure of a data subject's sagas.  Every operation holds the store's mutex,
    so each is one atomic transition; loops over the store's map use an
    arbitrary enumeration ([MapOrder]). *)

From S2P Require Import Prelude.
From S2P Require Import Types.

(** ** Data *)

Inductive SagaStepStatus :=
| SagaStepPending | SagaStepRunning | SagaStepCompleted | SagaStepFailed | SagaStepCompensated.

Definition SagaStepStatus_String (s : SagaStepStatus) : string :=
  match s with
  | SagaStepPending => "pending"
  | SagaStepRunning => "running"
  | SagaStepCompleted => "completed"
  | SagaStepFailed => "failed"
  | SagaStepCompensated => "compensated"
  end.

(** An [interface{}] of a saga's data: nil, a map, a slice, a [StoredEvent] (the
    saga manager puts one there), or a value of any other type, named by its
    printed form. *)
#[warnings="-register-all"]
Inductive value :=
| VNil
| VAtom (repr : string)
| VEvent (e : StoredEvent)
| VMap (m : option (gmap string value))
| VSlice (l : option (list value)).

Record SagaStep := mkSagaStep {
  st_Name : string;
  st_Index : Z;
  st_Status : SagaStepStatus;
  st_Command : string;
  st_CompletedAt : option Time;
  st_Error : string;
}.

Record SagaState := mkSagaState {
  sg_ID : string;
  sg_Type : string;
  sg_CorrelationID : string;
  sg_Status : SagaStatus;
  sg_CurrentStep : Z;
  sg_Data : option (gmap string value);
  sg_ProcessedEvents : option (list string);
  sg_Steps : option (list SagaStep);
  sg_StartedAt : Time;
  sg_UpdatedAt : Time;
  sg_CompletedAt : option Time;
  sg_FailureReason : string;
  sg_Version : Z;
}.

Definition SagaState_IsTerminal (s : SagaState) : bool :=
  bool_decide (sg_Status s = SagaStatusCompleted) || bool_decide (sg_Status s = SagaStatusFailed)
  || bool_decide (sg_Status s = SagaStatusCompensated)
  || bool_decide (sg_Status s = SagaStatusCompensationFailed).

Definition SagaState_IsRetryable (s : SagaState) : bool := SagaStatus_IsRetryable (sg_Status s).

Definition set_Version (s : SagaState) (v : Z) : SagaState :=
  mkSagaState (sg_ID s) (sg_Type s) (sg_CorrelationID s) (sg_Status s) (sg_CurrentStep s)
    (sg_Data s) (sg_ProcessedEvents s) (sg_Steps s) (sg_StartedAt s) (sg_UpdatedAt s)
    (sg_CompletedAt s) (sg_FailureReason s) v.

Definition set_UpdatedAt (s : SagaState) (t : Time) : SagaState :=
  mkSagaState (sg_ID s) (sg_Type s) (sg_CorrelationID s) (sg_Status s) (sg_CurrentStep s)
    (sg_Data s) (sg_ProcessedEvents s) (sg_Steps s) (sg_StartedAt s) t
    (sg_CompletedAt s) (sg_FailureReason s) (sg_Version s).

(** ** The store *)

Record SagaStore := mkSagaStore { sagas : gmap string SagaState }.

Definition NewSagaStore : SagaStore := mkSagaStore ∅.

(** The recursive copies of the saga's data, on values. *)
Fixpoint deepCopyValue (v : value) : value :=
  match v with
  | VNil => VNil
  | VMap m => VMap (match m with None => None | Some m => Some (deepCopyValue <$> m) end)
  | VSlice l => VSlice (match l with None => None | Some l => Some (deepCopyValue <$> l) end)
  | VAtom r => VAtom r
  | VEvent e => VEvent e
  end.

Definition deepCopyMap (m : option (gmap string value)) : option (gmap string value) :=
  match m with None => None | Some m => Some (deepCopyValue <$> m) end.

Definition deepCopySlice (l : option (list value)) : option (list value) :=
  match l with None => None | Some l => Some (deepCopyValue <$> l) end.

Definition copyState (state : SagaState) : SagaState :=
  mkSagaState (sg_ID state) (sg_Type state) (sg_CorrelationID state) (sg_Status state)
    (sg_CurrentStep state) (deepCopyMap (sg_Data state))
    (match sg_ProcessedEvents state with None => None | Some l => Some l end)
    (match sg_Steps state with None => None | Some l => Some l end)
    (sg_StartedAt state) (sg_UpdatedAt state)
    (match sg_CompletedAt state with None => None | Some t => Some t end)
    (sg_FailureReason state) (sg_Version state).

(** [Save] stores a copy and writes the new version into the caller's state,
    which it returns. *)
Definition Save (env : Env) (state : option SagaState) : op SagaStore error SagaState := λ s,
  match state with
  | None => (s, Err ErrNilAggregate)
  | Some state =>
      if bool_decide (sg_ID state = "") then (s, Err ErrEmptyStreamID)
      else match check_ctx env with
      | Err e => (s, Err e)
      | Ok _ =>
          let conflict :=
            match sagas s !! sg_ID state with
            | Some existing =>
                returnIf (negb (sg_Version state =? sg_Version existing))
                  (ConcurrencyError (sg_ID state) (sg_Version state) (sg_Version existing))
            | None =>
                returnIf (0 <? sg_Version state) (SagaNotFoundError (sg_ID state) "")
            end in
          match conflict with
          | Err e => (s, Err e)
          | Ok _ =>
              let savedState :=
                set_Version (set_UpdatedAt (copyState state) (time_Now env 0))
                  (i64 (sg_Version state + 1)) in
              (mkSagaStore (<[sg_ID state := savedState]> (sagas s)),
               Ok (set_Version state (sg_Version savedState)))
          end
      end
  end.

Definition Load (env : Env) (sagaID : string) (s : SagaStore) : res SagaState :=
  returnIf (bool_decide (sagaID = "")) ErrEmptyStreamID;;
  check_ctx env;;
  match sagas s !! sagaID with
  | None => Err (SagaNotFoundError sagaID "")
  | Some state => Ok (copyState state)
  end.

(** [t.After(u)] *)
Definition After (t u : Time) : bool := u <? t.

Definition laterSaga (correlationID : string) (latest : option SagaState) (kv : string * SagaState)
    : option SagaState :=
  let state := kv.2 in
  if bool_decide (sg_CorrelationID state = correlationID) then
    match latest with
    | None => Some state
    | Some l => if After (sg_StartedAt state) (sg_StartedAt l) then Some state else latest
    end
  else latest.

Definition FindByCorrelationID `{MapOrder} (env : Env) (correlationID : string) (s : SagaStore)
    : res SagaState :=
  returnIf (bool_decide (correlationID = "")) ErrEmptyStreamID;;
  check_ctx env;;
  match foldl (laterSaga correlationID) None (range (sagas s)) with
  | None => Err (SagaNotFoundError "" correlationID)
  | Some state => Ok (copyState state)
  end.

Definition FindByType `{MapOrder} (env : Env) (sagaType : string) (statuses : list SagaStatus)
    (s : SagaStore) : res (list SagaState) :=
  returnIf (bool_decide (sagaType = "")) ErrEmptyStreamID;;
  check_ctx env;;
  Ok (foldl (λ result '(_, state),
        if negb (bool_decide (sg_Type state = sagaType)) then result
        else if bool_decide (length statuses = 0%nat) || bool_decide (sg_Status state ∈ statuses)
        then result ++ [copyState state] else result) [] (range (sagas s))).

Definition Delete (env : Env) (sagaID : string) : op SagaStore error unit := λ s,
  if bool_decide (sagaID = "") then (s, Err ErrEmptyStreamID)
  else match check_ctx env with
  | Err e => (s, Err e)
  | Ok _ =>
      match sagas s !! sagaID with
      | None => (s, Err (SagaNotFoundError sagaID ""))
      | Some _ => (mkSagaStore (delete sagaID (sagas s)), Ok tt)
      end
  end.

Definition DeleteSagasBySubject `{MapOrder} (env : Env) (subjectID : string)
    : op SagaStore error Z := λ s,
  if bool_decide (subjectID = "") then (s, Ok 0)
  else match check_ctx env with
  | Err e => (s, Err e)
  | Ok _ =>
      let '(m, removed) :=
        rangeDelete (λ state, bool_decide (sg_CorrelationID state = subjectID)) (sagas s) in
      (mkSagaStore m, Ok removed)
  end.

Definition Clear (s : SagaStore) : SagaStore := mkSagaStore ∅.

Definition Count (s : SagaStore) : Z := Z.of_nat (size (sagas s)).

(** [counts[state.Status]++]: the count of a status that never occurred reads 0. *)
Definition CountByStatus `{MapOrder} (env : Env) (s : SagaStore) : res (SagaStatus → Z) :=
  check_ctx env;;
  Ok (foldl (λ counts '(_, state), λ st,
        if bool_decide (sg_Status state = st) then i64 (counts st + 1) else counts st)
      (λ _, 0) (range (sagas s))).

Definition All `{MapOrder} (s : SagaStore) : list SagaState :=
  foldl (λ result '(_, state), result ++ [copyState state]) [] (range (sagas s)).

(** ** The copies are the values they copy *)

Fixpoint vsize (v : value) : nat :=
  match v with
  | VNil | VAtom _ | VEvent _ => 0
  | VMap None | VSlice None => 0
  | VMap (Some m) => S (map_fold (λ _ x n, vsize x + n)%nat 0%nat m)
  | VSlice (Some l) => S (foldr (λ x n, vsize x + n)%nat 0%nat l)
  end.

Lemma vsize_map (m : gmap string value) k x :
  m !! k = Some x → (vsize x ≤ map_fold (λ _ x n, vsize x + n)%nat 0%nat m)%nat.
Proof.
  intros Hk. rewrite <- (insert_delete_id m k x Hk).
  rewrite map_fold_insert_L; [lia| |by rewrite lookup_delete_eq].
  intros. lia.
Qed.

Lemma vsize_slice (l : list value) x : x ∈ l → (vsize x ≤ foldr (λ x n, vsize x + n)%nat 0%nat l)%nat.
Proof. induction 1; cbn; lia. Qed.

Lemma deepCopyValue_id v : deepCopyValue v = v.
Proof.
  induction v as [v IH] using (induction_ltof1 _ vsize). unfold ltof in IH.
  destruct v as [|r|e|[m|]|[l|]]; try done; cbn; do 2 f_equal.
  - apply map_eq. intros k. rewrite lookup_fmap. destruct (m !! k) as [x|] eqn:E; cbn; [|done].
    f_equal. apply IH. apply vsize_map in E. cbn. lia.
  - rewrite <- (list_fmap_id l) at 2. apply list_fmap_ext. intros i x Hx%list_elem_of_lookup_2.
    apply IH. apply vsize_slice in Hx. cbn. lia.
Qed.

Lemma deepCopyMap_id m : deepCopyMap m = m.
Proof.
  destruct m as [m|]; cbn; [|done]. f_equal. apply map_eq. intros k. rewrite lookup_fmap.
  destruct (m !! k); cbn; [by rewrite deepCopyValue_id|done].
Qed.

Lemma copyState_id s : copyState s = s.
Proof. destruct s as [? ? ? ? ? ? [] [] ? ? [] ? ?]; unfold copyState; cbn; by rewrite deepCopyMap_id. Qed.

#[export] Hint Rewrite deepCopyValue_id deepCopyMap_id copyState_id : mink_rw.

(** ** Histories of a store *)

Inductive storeLabel :=
| LSave (env : Env) (state : option SagaState)
| LDelete (env : Env) (sagaID : string)
| LDeleteSubject (env : Env) (subjectID : string)
| LClear.

Definition storeStep `{MapOrder} (l : storeLabel) (s : SagaStore) : SagaStore :=
  match l with
  | LSave env state => (Save env state s).1
  | LDelete env id => (Delete env id s).1
  | LDeleteSubject env id => (DeleteSagasBySubject env id s).1
  | LClear => Clear s
  end.

(** A step that keeps the saga [id] in the store; a save below the greatest
    version. *)
Definition keeps (id : string) (l : storeLabel) (s : SagaStore) : Prop :=
  match l with
  | LSave _ (Some state) => sg_Version state < MaxInt64
  | LSave _ None => True
  | LDelete _ id' => id' ≠ id
  | LDeleteSubject _ subject =>
      Z.of_nat (size (sagas s)) ≤ MaxInt64 ∧
      ∀ st, sagas s !! id = Some st → sg_CorrelationID st ≠ subject
  | LClear => False
  end.

Inductive storeRuns `{MapOrder} (id : string) : SagaStore → SagaStore → Prop :=
| storeRuns_refl s : storeRuns id s s
| storeRuns_step l s s' : keeps id l s → storeRuns id (storeStep l s) s' → storeRuns id s s'.

(** ** Lemmas on the operations *)

Definition saved (env : Env) (state : SagaState) : SagaState :=
  set_Version (set_UpdatedAt state (time_Now env 0)) (i64 (sg_Version state + 1)).

Lemma Save_Ok env state s s' r :
  Save env (Some state) s = (s', Ok r) →
  sg_ID state ≠ "" ∧ r = set_Version state (i64 (sg_Version state + 1)) ∧
  sagas s' = <[sg_ID state := saved env state]> (sagas s) ∧
  match sagas s !! sg_ID state with
  | Some cur => sg_Version cur = sg_Version state
  | None => sg_Version state ≤ 0
  end.
Proof.
  unfold Save. case_bool_decide as Hid; [done|].
  destruct (check_ctx env); [|done].
  destruct (sagas s !! sg_ID state) as [cur|] eqn:E;
    destruct (returnIf _ _) eqn:Er; intros [= <- <-]; apply returnIf_Ok in Er; zbool; cbn;
    rewrite copyState_id; done.
Qed.

Lemma Save_Err env state s s' e : Save env state s = (s', Err e) → s' = s.
Proof.
  unfold Save. intros H. repeat case_match; by simplify_eq.
Qed.

Lemma Save_conflict env state s cur :
  sg_ID state ≠ "" → ctx_Err env = None → sagas s !! sg_ID state = Some cur →
  sg_Version state ≠ sg_Version cur →
  Save env (Some state) s =
    (s, Err (ConcurrencyError (sg_ID state) (sg_Version state) (sg_Version cur))).
Proof.
  intros Hid Hctx Hcur Hv. unfold Save, check_ctx. rewrite bool_decide_false, Hctx, Hcur by done.
  cbn. by rewrite (proj2 (Z.eqb_neq _ _)) by done.
Qed.

Lemma DeleteSagasBySubject_spec `{MapOrder} env subject s :
  subject ≠ "" → ctx_Err env = None → Z.of_nat (size (sagas s)) ≤ MaxInt64 →
  DeleteSagasBySubject env subject s =
    (mkSagaStore (filter (λ kv, bool_decide (sg_CorrelationID kv.2 = subject) = false) (sagas s)),
     Ok (countWhere (λ state, bool_decide (sg_CorrelationID state = subject)) (sagas s))).
Proof.
  intros Hs Hctx Hb. unfold DeleteSagasBySubject, check_ctx. rewrite bool_decide_false, Hctx by done. cbn.
  by rewrite rangeDelete_spec.
Qed.

(** A step that keeps a saga keeps its record or replaces it by the next
    version. *)
Lemma storeStep_keeps `{MapOrder} id l s cur :
  sagas s !! id = Some cur → sg_Version cur ≤ MaxInt64 → keeps id l s →
  ∃ cur', sagas (storeStep l s) !! id = Some cur' ∧ sg_Version cur ≤ sg_Version cur' ≤ MaxInt64 ∧
    (cur' = cur ∨ ∃ env st, l = LSave env (Some st) ∧ sg_ID st = id).
Proof.
  intros Hcur Hmax Hk. destruct l as [env st|env id'|env subject|]; cbn in *; [| | |done].
  - destruct (Save env st s) as [s' [r|e]] eqn:E; cbn; [|apply Save_Err in E as ->; eauto with lia].
    destruct st as [st|]; [|by unfold Save in E].
    apply Save_Ok in E as (Hne & _ & -> & Hm).
    destruct (decide (sg_ID st = id)) as [Hid|Hid].
    + rewrite Hid, lookup_insert_eq in *. rewrite Hcur in Hm. eexists. split; [done|]. cbn.
      destruct (decide (MinInt64 ≤ sg_Version st + 1)).
      * rewrite i64_id by (unfold in_i64; lia). split; [lia|]. right. eauto.
      * pose proof (i64_range (sg_Version st + 1)) as Hr. unfold in_i64 in Hr. split; [lia|]. right. eauto.
    + rewrite lookup_insert_ne by done. eauto with lia.
  - unfold Delete. repeat case_match; cbn; eauto with lia.
    rewrite lookup_delete_ne by done. eauto with lia.
  - unfold DeleteSagasBySubject at 1. destruct Hk as [Hsz Hk].
    pose proof (DeleteSagasBySubject_spec env subject s) as Hspec. unfold DeleteSagasBySubject in *.
    case_bool_decide; [cbn; eauto with lia|]. unfold check_ctx, returnErr in *.
    destruct (ctx_Err env) eqn:Ec; [cbn; eauto with lia|]. rewrite Hspec by done. cbn.
    exists cur. split; [|auto with lia]. apply map_lookup_filter_Some. split; [done|]. cbn. apply bool_decide_eq_false. auto.
Qed.

Lemma storeRuns_version `{MapOrder} id s s' cur :
  storeRuns id s s' → sagas s !! id = Some cur → sg_Version cur ≤ MaxInt64 →
  ∃ cur', sagas s' !! id = Some cur' ∧ sg_Version cur ≤ sg_Version cur' ≤ MaxInt64.
Proof.
  intros Hr. revert cur. induction Hr as [s|l s s' Hk _ IH]; intros cur Hcur Hmax; [eauto with lia|].
  destruct (storeStep_keeps id l s cur Hcur Hmax Hk) as (c1 & H1 & H2 & _).
  destruct (IH c1 H1) as (c2 & H3 & H4); [lia|]. exists c2. split; [done|lia].
Qed.

(** The scan of [FindByCorrelationID]. *)
Lemma laterSaga_loop cid l acc :
  (∀ a, acc = Some a → sg_CorrelationID a = cid) →
  match foldl (laterSaga cid) acc l with
  | None => acc = None ∧ ∀ kv, kv ∈ l → sg_CorrelationID kv.2 ≠ cid
  | Some st =>
      sg_CorrelationID st = cid ∧ (acc = Some st ∨ ∃ k, (k, st) ∈ l) ∧
      (∀ a, acc = Some a → sg_StartedAt a ≤ sg_StartedAt st) ∧
      ∀ kv, kv ∈ l → sg_CorrelationID kv.2 = cid → sg_StartedAt kv.2 ≤ sg_StartedAt st
  end.
Proof.
  revert acc. induction l as [|[k x] l IH]; intros acc Hacc; cbn [foldl].
  - destruct acc as [a|]; [|split; [done|]; intros kv Hkv; by apply not_elem_of_nil in Hkv].
    split; [auto|]. split; [auto|]. split; [intros ? [= ->]; lia|].
    intros kv Hkv; by apply not_elem_of_nil in Hkv.
  - specialize (IH (laterSaga cid acc (k, x))).
    assert (∀ a, laterSaga cid acc (k, x) = Some a → sg_CorrelationID a = cid) as Hn.
    { unfold laterSaga; cbn. intros a. case_bool_decide as Hx; [|auto].
      destruct acc as [b|]; [destruct (After _ _)|]; intros [= <-]; auto. }
    specialize (IH Hn). unfold laterSaga, After in *; cbn [snd] in *.
    destruct (foldl _ _ l) as [st|].
    + destruct IH as (H1 & H2 & H3 & H4). split; [done|].
      case_bool_decide as Hx; [destruct acc as [b|]; [destruct (sg_StartedAt b <? sg_StartedAt x) eqn:Eb|]|]; zbool.
      all: split; [destruct H2 as [[= ->]|[k' ?]]; [auto; right; exists k; left|right; exists k'; by right]|].
      all: split; [intros a [= ->]; try (pose proof (H3 _ eq_refl)); lia|].
      all: intros kv [->|Hkv]%elem_of_cons Hc; [|by auto]; cbn in *.
      all: try (pose proof (H3 _ eq_refl)); try lia; done.
    + destruct IH as [H1 H2].
      case_bool_decide as Hx; [destruct acc; [destruct (_ <? _)|]; done|].
      split; [done|]. intros kv [->|Hkv]%elem_of_cons; auto.
Qed.

(** ** The properties *)

(** C26: no saga update is lost: after a save has succeeded, any later save of
    the same saga from that version or an older one, whatever happened in
    between as long as the saga was not deleted, changes nothing and returns an
    error that [errors.Is] recognises as [ErrConcurrencyConflict], with the
    stored version. *)
Theorem saga_save_never_lost `{MapOrder} (env env' : Env) (a b a' : SagaState) (s0 s1 s2 : SagaStore) :
  Save env (Some a) s0 = (s1, Ok a') → in_i64 (sg_Version a) → sg_Version a < MaxInt64 →
  storeRuns (sg_ID a) s1 s2 →
  sg_ID b = sg_ID a → sg_Version b ≤ sg_Version a → ctx_Err env' = None →
  ∃ current, sg_Version a < current ∧
    Save env' (Some b) s2 = (s2, Err (ConcurrencyError (sg_ID a) (sg_Version b) current)) ∧
    errors_Is (ConcurrencyError (sg_ID a) (sg_Version b) current) ErrConcurrencyConflict = true.
Proof.
  intros Hs Hr Hmax Hruns Hid Hv Hctx. apply Save_Ok in Hs as (Hne & _ & Hs1 & _).
  destruct (storeRuns_version (sg_ID a) s1 s2 (saved env a) Hruns) as (cur & Hcur & Hle).
  - by rewrite Hs1, lookup_insert_eq.
  - cbn. rewrite i64_id; unfold in_i64 in *; lia.
  - cbn in Hle. rewrite i64_id in Hle by (unfold in_i64 in *; lia).
    exists (sg_Version cur). split; [lia|]. split; [|done]. rewrite <- Hid in *.
    apply Save_conflict; [done..|lia].
Qed.

(** A saved saga is read back: [Load] returns the caller's state with the
    new version and the time of the save, every later step of the store that
    is not about this saga leaves it so, and the other sagas are untouched by
    the save. *)
Theorem saga_save_load_roundtrip `{MapOrder} (env env' : Env) (a a' : SagaState) (s0 s1 s2 : SagaStore)
    (ls : list storeLabel) :
  Save env (Some a) s0 = (s1, Ok a') → ctx_Err env' = None →
  s2 = foldl (λ s l, storeStep l s) s1 ls →
  (∀ n l, ls !! n = Some l →
     keeps (sg_ID a) l (foldl (λ s l, storeStep l s) s1 (take n ls)) ∧
     ∀ e st, l = LSave e (Some st) → sg_ID st ≠ sg_ID a) →
  sg_Version a < MaxInt64 →
  Load env' (sg_ID a) s2 = Ok (set_UpdatedAt a' (time_Now env 0)) ∧
  sg_Version a' = i64 (sg_Version a + 1) ∧
  ∀ id, id ≠ sg_ID a → Load env' id s1 = Load env' id s0.
Proof.
  intros Hs Hctx -> Hls Hmax. apply Save_Ok in Hs as (Hne & -> & Hs1 & _).
  split; [|split; [done|]].
  - assert (sagas s1 !! sg_ID a = Some (saved env a)) as H1 by (by rewrite Hs1, lookup_insert_eq).
    assert (sagas (foldl (λ s l, storeStep l s) s1 ls) !! sg_ID a = Some (saved env a)) as Hl.
    { clear Hs1. revert s1 H1 Hls. induction ls as [|l ls IH]; intros s1 H1 Hls; [done|]. cbn.
      destruct (Hls 0%nat l eq_refl) as [Hk Hn]. cbn in Hk.
      destruct (storeStep_keeps _ l s1 (saved env a) H1) as (c & Hc & _ & [->|(e & st & E1 & E2)]); [|done| | ].
      - cbn. pose proof (i64_range (sg_Version a + 1)) as Hr. unfold in_i64 in Hr. lia.
      - apply IH; [done|]. intros n l' Hl'. destruct (Hls (S n) l' Hl') as [Hk' Hn']. done.
      - by destruct (Hn _ _ E1). }
    unfold Load, check_ctx. rewrite bool_decide_false, Hctx, Hl by done. cbn. by rewrite copyState_id.
  - intros id Hid. unfold Load. by rewrite Hs1, lookup_insert_ne by done.
Qed.

(** [FindByCorrelationID] returns, under any map iteration order, a saga
    with that correlation id started no earlier than any other one, and
    [ErrSagaNotFound] exactly when the store holds none. *)
Theorem saga_find_latest_started `{MapOrder} (env : Env) (cid : string) (s : SagaStore) :
  cid ≠ "" → ctx_Err env = None →
  match FindByCorrelationID env cid s with
  | Ok st => sg_CorrelationID st = cid ∧ (∃ id, sagas s !! id = Some st) ∧
      ∀ id st', sagas s !! id = Some st' → sg_CorrelationID st' = cid →
        sg_StartedAt st' ≤ sg_StartedAt st
  | Err e => errors_Is e ErrSagaNotFound = true ∧
      ∀ id st', sagas s !! id = Some st' → sg_CorrelationID st' ≠ cid
  end.
Proof.
  intros Hcid Hctx. unfold FindByCorrelationID, check_ctx. rewrite bool_decide_false, Hctx by done. cbn.
  pose proof (laterSaga_loop cid (range (sagas s)) None ltac:(done)) as Hl.
  destruct (foldl _ _ _) as [st|].
  - rewrite copyState_id. destruct Hl as (H1 & [?|[k H2]] & _ & H4); [done|].
    apply elem_of_range in H2. split; [done|]. split; [by eauto|].
    intros id st' Hst'. apply (H4 (id, st')). by apply elem_of_range.
  - destruct Hl as [_ Hl]. split; [done|]. intros id st' Hst'. apply (Hl (id, st')). by apply elem_of_range.
Qed.

Lemma foldl_append_filter {A B} (f : A → bool) (g : A → B) l acc :
  foldl (λ r x, if f x then r ++ [g x] else r) acc l = acc ++ (g <$> filter (λ x, f x = true) l).
Proof.
  revert acc. induction l as [|x l IH]; intros acc; cbn [foldl]; [by rewrite app_nil_r|].
  rewrite IH, filter_cons. destruct (f x); [rewrite decide_True by done|by rewrite decide_False].
  by rewrite <- app_assoc.
Qed.

Lemma count_loop (l : list (string * SagaState)) st c :
  0 ≤ c st → c st + Z.of_nat (length l) ≤ MaxInt64 →
  foldl (λ counts '(_, state), λ st,
      if bool_decide (sg_Status state = st) then i64 (counts st + 1) else counts st) c l st =
  c st + Z.of_nat (length (filter (λ kv, sg_Status kv.2 = st) l)).
Proof.
  revert c. induction l as [|[k x] l IH]; intros c H0 Hb; cbn [foldl]; [cbn; lia|].
  cbn [length] in Hb. rewrite filter_cons. cbn [snd].
  destruct (decide (sg_Status x = st)) as [E|E]; rewrite IH;
    rewrite ?bool_decide_true, ?bool_decide_false by done;
    rewrite ?(i64_id (c st + 1)) by (unfold in_i64, MinInt64; lia); cbn [length]; lia.
Qed.

(** The queries and the erasure see the store exactly, under any map
    iteration order: [FindByType] returns each saga of the type with one of the
    statuses (all of them when none is given) once, [CountByStatus] counts
    them, and [DeleteSagasBySubject] removes the subject's sagas, all of them
    and nothing else, and returns their number. *)
Theorem saga_queries_exact `{MapOrder} (env : Env) (s : SagaStore) (t : string)
    (statuses : list SagaStatus) (st : SagaStatus) (subject : string) :
  ctx_Err env = None → t ≠ "" → subject ≠ "" → Z.of_nat (size (sagas s)) ≤ MaxInt64 →
  let entries := (map_to_list (sagas s)).*2 in
  (∃ l, FindByType env t statuses s = Ok l ∧
     l ≡ₚ filter (λ x, sg_Type x = t ∧ (statuses = [] ∨ sg_Status x ∈ statuses)) entries) ∧
  (∃ counts, CountByStatus env s = Ok counts ∧
     counts st = Z.of_nat (length (filter (λ x, sg_Status x = st) entries))) ∧
  (∃ s' n, DeleteSagasBySubject env subject s = (s', Ok n) ∧
     (∀ id x, sagas s' !! id = Some x ↔ sagas s !! id = Some x ∧ sg_CorrelationID x ≠ subject) ∧
     n = Z.of_nat (length (filter (λ x, sg_CorrelationID x = subject) entries))).
Proof.
  intros Hctx Ht Hsub Hb entries.
  assert (∀ (P : SagaState → Prop) `{∀ x, Decision (P x)} (l : list (string * SagaState)),
    filter P l.*2 = (filter (λ kv, P kv.2) l).*2) as Hf.
  { intros P ? l. induction l as [|x l IH]; [done|]. cbn [fmap list_fmap]. rewrite !filter_cons, IH.
    by case_decide. }
  split; [|split].
  - unfold FindByType, check_ctx. rewrite (bool_decide_false (t = "")), Hctx by done. cbn. eexists. split; [done|].
    unfold entries. rewrite <- (range_perm (sagas s)), Hf.
    set (f := λ kv : string * SagaState, bool_decide (sg_Type kv.2 = t) &&
      (bool_decide (length statuses = 0%nat) || bool_decide (sg_Status kv.2 ∈ statuses))).
    transitivity ([] ++ (snd <$> filter (λ x, f x = true) (range (sagas s)))).
    + rewrite <- foldl_append_filter. apply reflexive_eq, foldl_ext.
      intros acc [k x]. unfold f; cbn [snd]. rewrite copyState_id. by repeat case_bool_decide.
    + cbn [app]. apply reflexive_eq. f_equal. apply list_filter_iff. intros [k x]. unfold f; cbn [snd].
      rewrite andb_true_iff, orb_true_iff, !bool_decide_eq_true, length_zero_iff_nil. done.
  - unfold CountByStatus, check_ctx. rewrite Hctx. cbn. eexists. split; [done|].
    rewrite count_loop; [|done|rewrite range_perm, length_map_to_list; lia].
    unfold entries. by rewrite Hf, length_fmap, range_perm.
  - rewrite DeleteSagasBySubject_spec by done. do 2 eexists. split; [done|]. split; cbn.
    + intros id x. rewrite map_lookup_filter_Some. cbn. by rewrite bool_decide_eq_false.
    + unfold entries, countWhere. rewrite Hf, length_fmap. do 2 f_equal. apply list_filter_iff.
      intros kv. by rewrite bool_decide_eq_true.
Qed.

(** ** Witnesses *)

Definition sampleSaga (id cid : string) (started v : Z) : SagaState :=
  mkSagaState id "OrderSaga" cid SagaStatusRunning 1
    (Some {["total" := VSlice (Some [VAtom "42"; VNil])]}) (Some ["ev-1:1"]) None
    started 0 None "" v.

Definition sampleSaved : SagaStore := (Save sampleEnv (Some (sampleSaga "s1" "order-1" 5 0)) NewSagaStore).1.
Definition sampleSaved2 : SagaStore := (Save sampleEnv (Some (sampleSaga "s2" "order-1" 9 0)) sampleSaved).1.

Lemma saga_save_never_lost_witness :
  ∃ current, 0 < current ∧
    Save sampleEnv (Some (sampleSaga "s1" "order-1" 6 0)) sampleSaved2 =
      (sampleSaved2, Err (ConcurrencyError "s1" 0 current)) ∧
    errors_Is (ConcurrencyError "s1" 0 current) ErrConcurrencyConflict = true.
Proof.
  apply (@saga_save_never_lost listOrder sampleEnv sampleEnv (sampleSaga "s1" "order-1" 5 0)
    (sampleSaga "s1" "order-1" 6 0) (sampleSaga "s1" "order-1" 5 1) NewSagaStore sampleSaved sampleSaved2);
    [reflexivity|by vm_compute..| |reflexivity|done|reflexivity].
  apply (@storeRuns_step listOrder "s1" (LSave sampleEnv (Some (sampleSaga "s2" "order-1" 9 0))));
    [by vm_compute|]. apply storeRuns_refl.
Defined.

Lemma saga_save_load_roundtrip_witness :
  Load sampleEnv "s1" sampleSaved2 = Ok (set_UpdatedAt (sampleSaga "s1" "order-1" 5 1) 1000).
Proof.
  apply (@saga_save_load_roundtrip listOrder sampleEnv sampleEnv (sampleSaga "s1" "order-1" 5 0)
    (sampleSaga "s1" "order-1" 5 1) NewSagaStore sampleSaved sampleSaved2
    [LSave sampleEnv (Some (sampleSaga "s2" "order-1" 9 0))]);
    [reflexivity..| |by vm_compute].
  intros [|n] l Hl; cbn in Hl; simplify_eq.
  split; [by vm_compute|]. intros e st [= _ <-]. by vm_compute.
Defined.

Lemma saga_find_latest_started_witness :
  @FindByCorrelationID listOrder sampleEnv "order-1" sampleSaved2 =
    Ok (set_UpdatedAt (sampleSaga "s2" "order-1" 9 1) 1000) ∧
  ∀ id st', sagas sampleSaved2 !! id = Some st' → sg_CorrelationID st' = "order-1" → sg_StartedAt st' ≤ 9.
Proof.
  split; [by vm_compute|].
  apply (@saga_find_latest_started listOrder sampleEnv "order-1" sampleSaved2); by vm_compute.
Defined.

Lemma saga_queries_exact_witness :
  ∃ s' n, @DeleteSagasBySubject listOrder sampleEnv "order-1" sampleSaved2 = (s', Ok n) ∧
    n = 2 ∧ sagas s' !! "s1" = None.
Proof.
  destruct (@saga_queries_exact listOrder sampleEnv sampleSaved2 "OrderSaga" [] SagaStatusRunning
    "order-1") as (_ & _ & s' & n & H1 & H2 & H3); [by vm_compute..|].
  exists s', n. split; [exact H1|]. split; [by rewrite H3|].
  destruct (sagas s' !! "s1") as [x|] eqn:E; [|done]. apply H2 in E as [E Hn].
  vm_compute in E. injection E as <-. by destruct Hn.
Defined.
