(* ===== verification/Saga.v ===== *)
(** * Sagas

    [src/saga.go]: the interface the saga manager drives, and [SagaBase], which
    user types embed.  Handling an event and compensating are user code. *)

From S2P Require Import Prelude.
From S2P Require Import Types.
From S2P Require Import SagaStore.

(** ** The base *)

Record SagaBase := mkSagaBase {
  sb_id : string;
  sb_sagaType : string;
  sb_status : SagaStatus;
  sb_currentStep : Z;
  sb_correlationID : string;
  sb_startedAt : Time;
  sb_completedAt : option Time;
  sb_version : Z;
  sb_steps : option (list SagaStep);
  sb_lastEvent : option StoredEvent;
}.

Definition NewSagaBase (now : Time) (id sagaType : string) : SagaBase :=
  mkSagaBase id sagaType SagaStatusStarted 0 "" now None 0 None None.

Definition SetStatus (v : SagaStatus) (s : SagaBase) : SagaBase :=
  mkSagaBase (sb_id s) (sb_sagaType s) v (sb_currentStep s) (sb_correlationID s) (sb_startedAt s)
    (sb_completedAt s) (sb_version s) (sb_steps s) (sb_lastEvent s).
Definition SetCurrentStep (v : Z) (s : SagaBase) : SagaBase :=
  mkSagaBase (sb_id s) (sb_sagaType s) (sb_status s) v (sb_correlationID s) (sb_startedAt s)
    (sb_completedAt s) (sb_version s) (sb_steps s) (sb_lastEvent s).
Definition SetCorrelationID (v : string) (s : SagaBase) : SagaBase :=
  mkSagaBase (sb_id s) (sb_sagaType s) (sb_status s) (sb_currentStep s) v (sb_startedAt s)
    (sb_completedAt s) (sb_version s) (sb_steps s) (sb_lastEvent s).
Definition SetStartedAt (v : Time) (s : SagaBase) : SagaBase :=
  mkSagaBase (sb_id s) (sb_sagaType s) (sb_status s) (sb_currentStep s) (sb_correlationID s) v
    (sb_completedAt s) (sb_version s) (sb_steps s) (sb_lastEvent s).
Definition SetCompletedAt (v : option Time) (s : SagaBase) : SagaBase :=
  mkSagaBase (sb_id s) (sb_sagaType s) (sb_status s) (sb_currentStep s) (sb_correlationID s) (sb_startedAt s)
    v (sb_version s) (sb_steps s) (sb_lastEvent s).
Definition SetVersion (v : Z) (s : SagaBase) : SagaBase :=
  mkSagaBase (sb_id s) (sb_sagaType s) (sb_status s) (sb_currentStep s) (sb_correlationID s) (sb_startedAt s)
    (sb_completedAt s) v (sb_steps s) (sb_lastEvent s).
Definition SetSteps (v : option (list SagaStep)) (s : SagaBase) : SagaBase :=
  mkSagaBase (sb_id s) (sb_sagaType s) (sb_status s) (sb_currentStep s) (sb_correlationID s) (sb_startedAt s)
    (sb_completedAt s) (sb_version s) v (sb_lastEvent s).
Definition setLastTriggerEvent (e : StoredEvent) (s : SagaBase) : SagaBase :=
  mkSagaBase (sb_id s) (sb_sagaType s) (sb_status s) (sb_currentStep s) (sb_correlationID s) (sb_startedAt s)
    (sb_completedAt s) (sb_version s) (sb_steps s) (Some e).
Definition lastTriggerEvent (s : SagaBase) : option StoredEvent := sb_lastEvent s.
Definition IncrementVersion (s : SagaBase) : SagaBase := SetVersion (i64 (sb_version s + 1)) s.
Definition RecordStep (step : SagaStep) (s : SagaBase) : SagaBase :=
  SetSteps (Some (default [] (sb_steps s) ++ [step])) s.
Definition Complete (now : Time) (s : SagaBase) : SagaBase :=
  SetCompletedAt (Some now) (SetStatus SagaStatusCompleted s).
Definition Fail (now : Time) (s : SagaBase) : SagaBase := SetCompletedAt (Some now) (SetStatus SagaStatusFailed s).
Definition StartCompensation (s : SagaBase) : SagaBase := SetStatus SagaStatusCompensating s.
Definition MarkCompensated (now : Time) (s : SagaBase) : SagaBase :=
  SetCompletedAt (Some now) (SetStatus SagaStatusCompensated s).

(** ** The interface

    A saga exposes the fields of its base through its methods; every type that
    embeds [SagaBase] is one that has a base, which also gives it the step
    history and the trigger-event carrier.  [HandleEvent] and [Compensate] see
    the context.  [G] is the type of all the program's sagas, [C] that of its
    commands. *)
Class SagaOps (G C : Type) := {
  sagaBase : G → SagaBase;
  withBase : SagaBase → G → G;
  HandledEvents : G → list string;
  HandleEvent : Env → StoredEvent → op G error (list C);
  Compensate : Env → Z → error → op G error (list C);
  IsComplete : G → bool;
  Data : G → option (gmap string value);
  SetData : option (gmap string value) → G → G;
}.

(** Embedding is lawful, and user code leaves the identity of a saga alone: its
    id, type, correlation id and version, which only the manager sets. *)
Definition identity (b : SagaBase) : string * string * string * Z :=
  (sb_id b, sb_sagaType b, sb_correlationID b, sb_version b).

Class SagaLaws (G C : Type) `{SagaOps G C} := {
  base_with : ∀ b g, sagaBase (withBase b g) = b;
  base_SetData : ∀ d g, sagaBase (SetData d g) = sagaBase g;
  handle_identity : ∀ env e g, identity (sagaBase (HandleEvent env e g).1) = identity (sagaBase g);
  compensate_identity : ∀ env n err g, identity (sagaBase (Compensate env n err g).1) = identity (sagaBase g);
}.

(** Changing the base of a saga. *)
Definition upd `{SagaOps G C} (f : SagaBase → SagaBase) (g : G) : G := withBase (f (sagaBase g)) g.

(** ** Correlation *)

Record SagaCorrelation := mkSagaCorrelation {
  co_SagaType : string;
  co_StartingEvents : list string;
  co_CorrelationIDFunc : StoredEvent → string;
}.

Definition isStartingEvent (startingEvents : list string) (eventType : string) : bool :=
  existsb (λ e, bool_decide (e = eventType)) startingEvents.
