(* ===== verification/OutboxStore.v ===== *)
(** * The outbox store

    The outbox message of [src/adapters/adapter.go] and the in-memory store of
    [src/adapters/memory/outbox_store.go]: scheduling, the atomic claim of due
    messages, the outcome marks, retry, reclaim, dead-lettering, clean-up and
    erasure.  Every operation holds the store's mutex.  A stored message is
    named by its key in the map; the messages a caller passes are distinct
    objects, as those the library builds are. *)

From S2P Require Import Prelude.
From S2P Require Import Types.

(** ** Data *)

Definition OutboxStatus_String (s : OutboxStatus) : string :=
  match s with
  | OutboxPending => "pending"
  | OutboxProcessing => "processing"
  | OutboxCompleted => "completed"
  | OutboxFailed => "failed"
  | OutboxDeadLetter => "dead_letter"
  end.

Record OutboxMessage := mkOutboxMessage {
  om_ID : string;
  om_AggregateID : string;
  om_EventType : string;
  om_Destination : string;
  om_Payload : Bytes;
  om_Headers : StringMap;
  om_Status : OutboxStatus;
  om_Attempts : Z;
  om_MaxAttempts : Z;
  om_LastError : string;
  om_ScheduledAt : Time;
  om_LastAttemptAt : option Time;
  om_ProcessedAt : option Time;
  om_CreatedAt : Time;
}.

#[export] Instance OutboxMessage_eq_dec : EqDecision OutboxMessage.
Proof. solve_decision. Defined.

(** What the store writes into a message. *)
Definition set_Progress (m : OutboxMessage) (st : OutboxStatus) (attempts : Z) (err : string)
    (last processed : option Time) : OutboxMessage :=
  mkOutboxMessage (om_ID m) (om_AggregateID m) (om_EventType m) (om_Destination m) (om_Payload m)
    (om_Headers m) st attempts (om_MaxAttempts m) err (om_ScheduledAt m) last processed
    (om_CreatedAt m).

Definition set_Status (m : OutboxMessage) (st : OutboxStatus) : OutboxMessage :=
  set_Progress m st (om_Attempts m) (om_LastError m) (om_LastAttemptAt m) (om_ProcessedAt m).

Definition set_Header (m : OutboxMessage) (k v : string) : OutboxMessage :=
  mkOutboxMessage (om_ID m) (om_AggregateID m) (om_EventType m) (om_Destination m) (om_Payload m)
    (Some (<[k := v]> (default ∅ (om_Headers m)))) (om_Status m) (om_Attempts m)
    (om_MaxAttempts m) (om_LastError m) (om_ScheduledAt m) (om_LastAttemptAt m)
    (om_ProcessedAt m) (om_CreatedAt m).

Record OutboxStore := mkOutboxStore { messages : gmap string OutboxMessage }.

Definition NewOutboxStore : OutboxStore := mkOutboxStore ∅.

Definition copyMessage (m : OutboxMessage) : OutboxMessage :=
  mkOutboxMessage (om_ID m) (om_AggregateID m) (om_EventType m) (om_Destination m)
    (match om_Payload m with Some l => Some l | None => None end)
    (match om_Headers m with Some h => Some (list_to_map (map_to_list h)) | None => None end)
    (om_Status m) (om_Attempts m) (om_MaxAttempts m) (om_LastError m) (om_ScheduledAt m)
    (match om_LastAttemptAt m with Some t => Some t | None => None end)
    (match om_ProcessedAt m with Some t => Some t | None => None end)
    (om_CreatedAt m).

(** ** Scheduling *)

(** The defaults [Schedule] writes into the caller's message; [k] ids have been
    generated before it. *)
Definition scheduleOne (env : Env) (now : Time) (k : nat) (m : OutboxMessage) : nat * OutboxMessage :=
  let '(k, id) := if bool_decide (om_ID m = "") then (S k, uuid_New env k) else (k, om_ID m) in
  (k, mkOutboxMessage id (om_AggregateID m) (om_EventType m) (om_Destination m) (om_Payload m)
        (om_Headers m) OutboxPending (om_Attempts m)
        (if om_MaxAttempts m =? 0 then 5 else om_MaxAttempts m) (om_LastError m)
        (if om_ScheduledAt m =? 0 then now else om_ScheduledAt m)
        (om_LastAttemptAt m) (om_ProcessedAt m)
        (if om_CreatedAt m =? 0 then now else om_CreatedAt m)).

Fixpoint scheduleLoop (env : Env) (now : Time) (k : nat) (msgs : list OutboxMessage)
    (s : gmap string OutboxMessage) : gmap string OutboxMessage * list OutboxMessage :=
  match msgs with
  | [] => (s, [])
  | m :: msgs =>
      let '(k, m) := scheduleOne env now k m in
      let copied := copyMessage m in
      let '(s, ms) := scheduleLoop env now k msgs (<[om_ID copied := copied]> s) in
      (s, m :: ms)
  end.

(** The result is the caller's messages with the fields written. *)
Definition Schedule (env : Env) (msgs : list OutboxMessage)
    : op OutboxStore error (list OutboxMessage) := λ s,
  match check_ctx env with
  | Err e => (s, Err e)
  | Ok _ =>
      let now := time_Now env 0 in
      let '(m, msgs) := scheduleLoop env now 0 msgs (messages s) in
      (mkOutboxStore m, Ok msgs)
  end.

Definition ScheduleInTx (env : Env) (msgs : list OutboxMessage)
    : op OutboxStore error (list OutboxMessage) := Schedule env msgs.

(** ** Claiming *)

Definition isDue (now : Time) (m : OutboxMessage) : bool :=
  bool_decide (om_Status m = OutboxPending) && negb (now <? om_ScheduledAt m).

Definition scheduledBefore (x y : string * OutboxMessage) : bool :=
  om_ScheduledAt x.2 <? om_ScheduledAt y.2.

Definition claim (now : Time) (m : OutboxMessage) : OutboxMessage :=
  set_Progress m OutboxProcessing (i64 (om_Attempts m + 1)) (om_LastError m) (Some now)
    (om_ProcessedAt m).

Definition FetchPending `{MapOrder} `{SliceSort} (env : Env) (limit : Z)
    : op OutboxStore error (list OutboxMessage) := λ s,
  match check_ctx env with
  | Err e => (s, Err e)
  | Ok _ =>
      let now := time_Now env 0 in
      let pending := foldl (λ pending kv, if isDue now kv.2 then pending ++ [kv] else pending)
        [] (range (messages s)) in
      let pending := sortSlice scheduledBefore pending in
      let pending :=
        if (0 <? limit) && (limit <? Z.of_nat (length pending))
        then take (Z.to_nat limit) pending else pending in
      let '(m, result) := foldl (λ '(m, result) '(k, msg),
        let msg := claim now msg in
        (<[k := msg]> m, result ++ [copyMessage msg])) (messages s, []) pending in
      (mkOutboxStore m, Ok result)
  end.

(** ** Outcomes *)

Definition complete (now : Time) (m : OutboxMessage) : OutboxMessage :=
  set_Progress m OutboxCompleted (om_Attempts m) (om_LastError m) (om_LastAttemptAt m) (Some now).

Definition MarkCompleted (env : Env) (ids : list string) : op OutboxStore error unit := λ s,
  match check_ctx env with
  | Err e => (s, Err e)
  | Ok _ =>
      let now := time_Now env 0 in
      (mkOutboxStore (foldl (λ m id,
         match m !! id with
         | None => m
         | Some msg => <[id := complete now msg]> m
         end) (messages s) ids), Ok tt)
  end.

Definition fail `{ErrorText} (lastErr : option error) (m : OutboxMessage) : OutboxMessage :=
  set_Progress m OutboxFailed (om_Attempts m)
    (match lastErr with Some e => error_Error e | None => "" end)
    (om_LastAttemptAt m) (om_ProcessedAt m).

Definition MarkFailed `{ErrorText} (env : Env) (id : string) (lastErr : option error)
    : op OutboxStore error unit := λ s,
  match check_ctx env with
  | Err e => (s, Err e)
  | Ok _ =>
      match messages s !! id with
      | None => (s, Err ErrOutboxMessageNotFound)
      | Some msg => (mkOutboxStore (<[id := fail lastErr msg]> (messages s)), Ok tt)
      end
  end.

(** ** Maintenance *)

(** An operation that updates, or deletes, the messages it selects and returns
    their number. *)
Definition sweep (env : Env) (f : gmap string OutboxMessage → gmap string OutboxMessage * Z)
    : op OutboxStore error Z := λ s,
  match check_ctx env with
  | Err e => (s, Err e)
  | Ok _ => let '(m, count) := f (messages s) in (mkOutboxStore m, Ok count)
  end.

Definition attemptLimit (maxAttempts : Z) (m : OutboxMessage) : Z :=
  Z.min maxAttempts (om_MaxAttempts m).

Definition retryable (maxAttempts : Z) (m : OutboxMessage) : bool :=
  bool_decide (om_Status m = OutboxFailed) && (om_Attempts m <? attemptLimit maxAttempts m).

Definition RetryFailed `{MapOrder} (env : Env) (maxAttempts : Z) : op OutboxStore error Z :=
  sweep env (rangeUpdate (retryable maxAttempts) (λ m, set_Status m OutboxPending)).

(** [time.Now().Add(-d)] *)
Definition cutoff (env : Env) (d : Duration) : Time := time_Now env 0 + i64 (- d).

Definition stale (t : Time) (m : OutboxMessage) : bool :=
  bool_decide (om_Status m = OutboxProcessing) &&
  match om_LastAttemptAt m with Some l => l <? t | None => false end.

Definition ReclaimStale `{MapOrder} (env : Env) (olderThan : Duration) : op OutboxStore error Z :=
  sweep env (rangeUpdate (stale (cutoff env olderThan)) (λ m, set_Status m OutboxPending)).

Definition exhausted (maxAttempts : Z) (m : OutboxMessage) : bool :=
  bool_decide (om_Status m = OutboxFailed) && (attemptLimit maxAttempts m <=? om_Attempts m).

Definition MoveToDeadLetter `{MapOrder} (env : Env) (maxAttempts : Z) : op OutboxStore error Z :=
  sweep env (rangeUpdate (exhausted maxAttempts) (λ m, set_Status m OutboxDeadLetter)).

(** The scan of [GetDeadLetterMessages], which stops at the limit. *)
Fixpoint deadLetterLoop (limit : Z) (l : list (string * OutboxMessage)) (result : list OutboxMessage)
    : list OutboxMessage :=
  match l with
  | [] => result
  | (_, msg) :: l =>
      if bool_decide (om_Status msg = OutboxDeadLetter) then
        let result := result ++ [copyMessage msg] in
        if (0 <? limit) && (limit <=? Z.of_nat (length result)) then result
        else deadLetterLoop limit l result
      else deadLetterLoop limit l result
  end.

Definition GetDeadLetterMessages `{MapOrder} (env : Env) (limit : Z) (s : OutboxStore)
    : res (list OutboxMessage) :=
  check_ctx env;; Ok (deadLetterLoop limit (range (messages s)) []).

Definition cleanable (t : Time) (m : OutboxMessage) : bool :=
  bool_decide (om_Status m = OutboxCompleted) &&
  match om_ProcessedAt m with Some p => negb (t <? p) | None => false end.

Definition Cleanup `{MapOrder} (env : Env) (olderThan : Duration) : op OutboxStore error Z :=
  sweep env (rangeDelete (cleanable (cutoff env olderThan))).

Definition DeleteOutboxBySubject `{MapOrder} (env : Env) (subjectID : string)
    : op OutboxStore error Z := λ s,
  if bool_decide (subjectID = "") then (s, Ok 0)
  else sweep env (rangeDelete (λ m, bool_decide (om_AggregateID m = subjectID))) s.

Definition Clear (s : OutboxStore) : OutboxStore := mkOutboxStore ∅.

Definition Count (s : OutboxStore) : Z := Z.of_nat (size (messages s)).

Definition CountByStatus `{MapOrder} (s : OutboxStore) : OutboxStatus → Z :=
  foldl (λ counts '(_, m), λ st,
    if bool_decide (om_Status m = st) then i64 (counts st + 1) else counts st)
    (λ _, 0) (range (messages s)).

(** ** Copies, well-formedness, histories *)

Lemma copyMessage_id m : copyMessage m = m.
Proof.
  destruct m as [? ? ? ? [] [] ? ? ? ? ? [] [] ?]; unfold copyMessage; cbn;
    by rewrite ?list_to_map_to_list.
Qed.

#[export] Hint Rewrite copyMessage_id : mink_rw.

(** A message is stored under its id, and its counter is an [int]. *)
Definition store_wf (m : gmap string OutboxMessage) : Prop :=
  ∀ id msg, m !! id = Some msg → om_ID msg = id ∧ in_i64 (om_Attempts msg).

Inductive outboxLabel :=
| OSchedule (env : Env) (msgs : list OutboxMessage)
| OFetch (env : Env) (limit : Z)
| OComplete (env : Env) (ids : list string)
| OFail (env : Env) (id : string) (lastErr : option error)
| ORetry (env : Env) (maxAttempts : Z)
| OReclaim (env : Env) (olderThan : Duration)
| ODeadLetter (env : Env) (maxAttempts : Z)
| OCleanup (env : Env) (olderThan : Duration)
| ODeleteSubject (env : Env) (subjectID : string)
| OClear.

Definition outboxStep `{MapOrder} `{SliceSort} `{ErrorText} (l : outboxLabel) (s : OutboxStore)
    : OutboxStore :=
  match l with
  | OSchedule env msgs => (Schedule env msgs s).1
  | OFetch env limit => (FetchPending env limit s).1
  | OComplete env ids => (MarkCompleted env ids s).1
  | OFail env id e => (MarkFailed env id e s).1
  | ORetry env n => (RetryFailed env n s).1
  | OReclaim env d => (ReclaimStale env d s).1
  | ODeadLetter env n => (MoveToDeadLetter env n s).1
  | OCleanup env d => (Cleanup env d s).1
  | ODeleteSubject env subject => (DeleteOutboxBySubject env subject s).1
  | OClear => Clear s
  end.

Definition outboxRun `{MapOrder} `{SliceSort} `{ErrorText} (ls : list outboxLabel) (s : OutboxStore)
    : OutboxStore := foldl (λ s l, outboxStep l s) s ls.

(** ** Lemmas on the operations *)

(** The messages a [Schedule] call stores, with their ids and defaults. *)
Fixpoint scheduled (env : Env) (now : Time) (k : nat) (msgs : list OutboxMessage) : list OutboxMessage :=
  match msgs with
  | [] => []
  | m :: msgs => let '(k, m) := scheduleOne env now k m in m :: scheduled env now k msgs
  end.

Lemma scheduleLoop_spec env now k msgs s :
  scheduleLoop env now k msgs s =
  (foldl (λ s m, <[om_ID m := m]> s) s (scheduled env now k msgs), scheduled env now k msgs).
Proof.
  revert k s. induction msgs as [|m msgs IH]; intros k s; [done|].
  cbn [scheduleLoop scheduled]. destruct (scheduleOne env now k m) as [k' m'].
  rewrite copyMessage_id, IH. done.
Qed.

Lemma foldl_insert_lookup (l : list OutboxMessage) (s : gmap string OutboxMessage) id :
  foldl (λ s m, <[om_ID m := m]> s) s l !! id =
  match last (filter (λ m, om_ID m = id) l) with Some m => Some m | None => s !! id end.
Proof.
  induction l as [|m l IH] using rev_ind; [done|].
  rewrite foldl_app, filter_app. cbn [foldl]. rewrite (filter_cons _ m []), filter_nil.
  case_decide as Hm; [subst; by rewrite lookup_insert_eq, last_snoc|].
  by rewrite lookup_insert_ne, IH, app_nil_r.
Qed.

Lemma Schedule_live env msgs s :
  ctx_Err env = None →
  Schedule env msgs s =
    (mkOutboxStore (foldl (λ s m, <[om_ID m := m]> s) (messages s)
       (scheduled env (time_Now env 0) 0 msgs)), Ok (scheduled env (time_Now env 0) 0 msgs)).
Proof. intros Hc. unfold Schedule, check_ctx. rewrite Hc. cbn. by rewrite scheduleLoop_spec. Qed.

Lemma scheduled_status env now k msgs m :
  m ∈ scheduled env now k msgs → om_Status m = OutboxPending ∧
  ∃ m0, m0 ∈ msgs ∧ om_Attempts m = om_Attempts m0 ∧
    (om_MaxAttempts m = om_MaxAttempts m0 ∨ (om_MaxAttempts m0 = 0 ∧ om_MaxAttempts m = 5)).
Proof.
  revert k. induction msgs as [|m0 msgs IH]; intros k; cbn [scheduled]; [by intros ?%not_elem_of_nil|].
  unfold scheduleOne. destruct (bool_decide (om_ID m0 = "")); intros [->|Hm]%elem_of_cons;
    try (apply IH in Hm as (? & m1 & ? & ?); split; [done|]; exists m1; split; [by right|done]).
  all: cbn; split; [done|]; exists m0; split; [by left|]; split; [done|].
  all: destruct (Z.eqb_spec (om_MaxAttempts m0) 0); auto.
Qed.

(** The claim loop of [FetchPending]. *)
Lemma claim_loop now (l : list (string * OutboxMessage)) (m : gmap string OutboxMessage) result :
  foldl (λ '(m, result) '(k, msg),
      let msg := claim now msg in (<[k := msg]> m, result ++ [copyMessage msg])) (m, result) l =
  (foldl (λ m '(k, msg), <[k := claim now msg]> m) m l, result ++ (claim now <$> l.*2)).
Proof.
  revert m result. induction l as [|[k x] l IH]; intros m result; cbn [foldl]; [by rewrite app_nil_r|].
  rewrite IH, copyMessage_id, <- app_assoc. done.
Qed.

Lemma foldl_claim_lookup now (l : list (string * OutboxMessage)) (m : gmap string OutboxMessage) id :
  NoDup l.*1 →
  foldl (λ m '(k, msg), <[k := claim now msg]> m) m l !! id =
  match list_to_map (M := gmap string OutboxMessage) l !! id with
  | Some msg => Some (claim now msg)
  | None => m !! id
  end.
Proof.
  revert m. induction l as [|[k x] l IH]; intros m Hnd; [cbn; by rewrite lookup_empty|]. cbn [foldl].
  cbn [fmap list_fmap fst] in Hnd. apply NoDup_cons in Hnd as [Hk Hnd]. rewrite IH by done. cbn.
  destruct (decide (k = id)) as [->|Hne].
  - rewrite not_elem_of_list_to_map_1 by done. by rewrite !lookup_insert_eq.
  - by rewrite !lookup_insert_ne.
Qed.

(** The messages a fetch claims, with their keys, before they are claimed. *)
Definition due_entries `{MapOrder} `{SliceSort} (now : Time) (limit : Z) (m : gmap string OutboxMessage)
    : list (string * OutboxMessage) :=
  let pending := sortSlice scheduledBefore (filter (λ kv, isDue now kv.2 = true) (range m)) in
  if (0 <? limit) && (limit <? Z.of_nat (length pending)) then take (Z.to_nat limit) pending else pending.

Lemma FetchPending_live `{MapOrder} `{SliceSort} env limit s :
  ctx_Err env = None →
  let l := due_entries (time_Now env 0) limit (messages s) in
  FetchPending env limit s =
    (mkOutboxStore (foldl (λ m '(k, msg), <[k := claim (time_Now env 0) msg]> m) (messages s) l),
     Ok (claim (time_Now env 0) <$> l.*2)).
Proof.
  intros Hc l. unfold FetchPending, check_ctx. rewrite Hc. cbn [returnErr].
  assert (foldl (λ pending kv, if isDue (time_Now env 0) kv.2 then pending ++ [kv] else pending) []
    (range (messages s)) = filter (λ kv, isDue (time_Now env 0) kv.2 = true) (range (messages s))) as ->.
  { generalize (range (messages s)). intros r.
    enough (∀ acc, foldl (λ pending kv, if isDue (time_Now env 0) kv.2 then pending ++ [kv] else pending) acc r
      = acc ++ filter (λ kv, isDue (time_Now env 0) kv.2 = true) r) as H' by apply H'.
    induction r as [|kv r IH]; intros acc; cbn [foldl]; [by rewrite filter_nil, app_nil_r|].
    rewrite IH, filter_cons. destruct (isDue _ _); [rewrite decide_True by done|by rewrite decide_False].
    by rewrite <- app_assoc. }
  fold (due_entries (time_Now env 0) limit (messages s)). fold l. by rewrite claim_loop.
Qed.

Lemma scheduledBefore_weak : weak_order scheduledBefore.
Proof. apply (weak_order_key (λ kv : string * OutboxMessage, om_ScheduledAt kv.2)). Qed.

(** What a fetch takes: a prefix of the due messages in order of schedule. *)
Lemma due_entries_spec `{MapOrder} `{SliceSort} now limit m :
  let l := due_entries now limit m in
  NoDup l.*1 ∧
  (∀ k x, (k, x) ∈ l → m !! k = Some x ∧ isDue now x = true) ∧
  StronglySorted (λ x y, om_ScheduledAt x.2 ≤ om_ScheduledAt y.2) l ∧
  (0 < limit → Z.of_nat (length l) ≤ limit) ∧
  (∀ k x, m !! k = Some x → isDue now x = true → k ∉ l.*1 →
     0 < limit ∧ Z.of_nat (length l) = limit ∧
     ∀ k' x', (k', x') ∈ l → om_ScheduledAt x' ≤ om_ScheduledAt x).
Proof.
  unfold due_entries. set (p := sortSlice _ _).
  assert (StronglySorted (λ x y, om_ScheduledAt x.2 ≤ om_ScheduledAt y.2) p) as Hs.
  { pose proof (sortSlice_sorted scheduledBefore (filter (λ kv, isDue now kv.2 = true) (range m))
      scheduledBefore_weak) as Hs. fold p in Hs.
    induction Hs as [|x l Hl IH Hx]; constructor; [done|]. eapply Forall_impl; [done|].
    intros y Hy. unfold scheduledBefore in Hy. by apply Z.ltb_ge in Hy. }
  assert (∀ k x, (k, x) ∈ p ↔ m !! k = Some x ∧ isDue now x = true) as Hin.
  { intros k x. unfold p. rewrite elem_of_sortSlice, list_elem_of_filter, elem_of_range. cbn. tauto. }
  assert (NoDup p.*1) as Hnd.
  { unfold p. rewrite sortSlice_perm. apply NoDup_fst_filter, NoDup_range_keys. }
  clearbody p.
  destruct ((0 <? limit) && (limit <? Z.of_nat (length p))) eqn:E.
  - zbool. rewrite <- (take_drop (Z.to_nat limit) p) in Hs, Hin, Hnd.
    rewrite fmap_app in Hnd. apply NoDup_app in Hnd as (Hnd & _ & _).
    split; [done|]. split; [intros k x Hx; apply Hin, elem_of_app; by left|].
    split; [by eapply StronglySorted_app_1_l|].
    assert (Z.of_nat (length (take (Z.to_nat limit) p)) = limit) as Hlen by (rewrite length_take; lia).
    split; [lia|]. intros k x Hk Hd Hn. split; [done|]. split; [done|]. intros k' x' Hx'.
    assert ((k, x) ∈ take (Z.to_nat limit) p ++ drop (Z.to_nat limit) p) as [Hx|Hx]%elem_of_app
      by (by apply Hin); [exfalso; apply Hn; by apply (list_elem_of_fmap_2 fst) in Hx|].
    by eapply (StronglySorted_app_1_elem_of _ _ _ (k', x') (k, x) Hs).
  - split; [done|]. split; [intros k x Hx; by apply Hin|]. split; [done|]. split.
    + intros Hl. apply andb_false_iff in E as [E|E]; zbool; lia.
    + intros k x Hk Hd Hn. exfalso. apply Hn. apply list_elem_of_fmap. exists (k, x).
      split; [done|]. by apply Hin.
Qed.

(** ** The state machine of a message

    One message under one operation: what each may do to it, and when. *)
Inductive evolves `{ErrorText} : outboxLabel → OutboxMessage → OutboxMessage → Prop :=
| ev_same l m : evolves l m m
| ev_fetch env limit m :
    isDue (time_Now env 0) m = true → evolves (OFetch env limit) m (claim (time_Now env 0) m)
| ev_complete env ids m :
    om_ID m ∈ ids → evolves (OComplete env ids) m (complete (time_Now env 0) m)
| ev_fail env e m : evolves (OFail env (om_ID m) e) m (fail e m)
| ev_retry env n m :
    retryable n m = true → evolves (ORetry env n) m (set_Status m OutboxPending)
| ev_reclaim env d m :
    stale (cutoff env d) m = true → evolves (OReclaim env d) m (set_Status m OutboxPending)
| ev_dead env n m :
    exhausted n m = true → evolves (ODeadLetter env n) m (set_Status m OutboxDeadLetter).

(** The operations that take a message out of the store. *)
Definition removes (l : outboxLabel) (m : OutboxMessage) : Prop :=
  match l with
  | OCleanup env d => cleanable (cutoff env d) m = true
  | ODeleteSubject _ subject => om_AggregateID m = subject
  | OClear => True
  | _ => False
  end.

(** The operations that store a message under an id. *)
Definition stores (l : outboxLabel) (id : string) (m : OutboxMessage) : Prop :=
  match l with
  | OSchedule env msgs => m ∈ scheduled env (time_Now env 0) 0 msgs ∧ om_ID m = id
  | _ => False
  end.

Lemma sweep_lookup env f s :
  (sweep env f s).1 = s ∨ messages (sweep env f s).1 = (f (messages s)).1.
Proof.
  unfold sweep. destruct (check_ctx env); [right|by left]. by destruct (f (messages s)).
Qed.

Lemma complete_loop now ids (m : gmap string OutboxMessage) id :
  let m' := foldl (λ m id, match m !! id with
              | None => m | Some msg => <[id := complete now msg]> m end) m ids in
  m' !! id = if decide (id ∈ ids) then complete now <$> m !! id else m !! id.
Proof.
  cbn zeta. revert m. induction ids as [|id' ids IH]; intros m; cbn [foldl]; [done|].
  rewrite IH. destruct (decide (id = id')) as [->|Hne].
  - rewrite (decide_True (P := id' ∈ id' :: ids)) by left.
    destruct (m !! id') as [x|] eqn:E; [rewrite lookup_insert_eq|rewrite E]; by case_decide.
  - rewrite (decide_ext (id ∈ id' :: ids) (id ∈ ids)) by set_solver.
    destruct (m !! id') as [x|] eqn:E; [by rewrite lookup_insert_ne|done].
Qed.

Lemma due_entries_key `{MapOrder} `{SliceSort} now limit m id :
  list_to_map (M := gmap string OutboxMessage) (due_entries now limit m) !! id =
  match m !! id with
  | Some x => if decide (id ∈ (due_entries now limit m).*1) then Some x else None
  | None => None
  end.
Proof.
  destruct (due_entries_spec now limit m) as (Hnd & Hin & _).
  destruct (list_to_map _ !! id) as [x|] eqn:E.
  - apply elem_of_list_to_map in E; [|done]. rewrite (proj1 (Hin _ _ E)).
    by rewrite decide_True by (by apply (list_elem_of_fmap_2 fst) in E).
  - apply not_elem_of_list_to_map_2 in E. destruct (m !! id); [|done]. by rewrite decide_False.
Qed.

(** What one operation does to the entry of one id. *)
Definition entry_step `{ErrorText} (l : outboxLabel) (id : string)
    (before after : option OutboxMessage) : Prop :=
  match before, after with
  | None, None => True
  | None, Some m' => stores l id m'
  | Some m, Some m' => stores l id m' ∨ evolves l m m'
  | Some m, None => removes l m
  end.

Lemma entry_same `{ErrorText} l id x : entry_step l id x x.
Proof. destruct x; cbn; [right; constructor|done]. Qed.

Lemma entry_update `{MapOrder} `{ErrorText} l id s env p f :
  Z.of_nat (size (messages s)) ≤ MaxInt64 → (∀ m, p m = true → evolves l m (f m)) →
  entry_step l id (messages s !! id) (messages (sweep env (rangeUpdate p f) s).1 !! id).
Proof.
  intros Hb Hev. destruct (sweep_lookup env (rangeUpdate p f) s) as [->| ->]; [apply entry_same|].
  rewrite rangeUpdate_spec by done. cbn [fst]. rewrite lookup_fmap.
  destruct (messages s !! id) as [m|]; cbn; [|done]. right.
  destruct (p m) eqn:E; [by apply Hev|constructor].
Qed.

Lemma entry_delete `{MapOrder} `{ErrorText} l id s env p :
  Z.of_nat (size (messages s)) ≤ MaxInt64 → (∀ m, p m = true → removes l m) →
  entry_step l id (messages s !! id) (messages (sweep env (rangeDelete p) s).1 !! id).
Proof.
  intros Hb Hrm. destruct (sweep_lookup env (rangeDelete p) s) as [->| ->]; [apply entry_same|].
  rewrite rangeDelete_spec by done. cbn [fst]. rewrite map_lookup_filter.
  destruct (messages s !! id) as [m|]; cbn; [|done].
  destruct (p m) eqn:E; cbn; [by apply Hrm|right; constructor].
Qed.

Lemma outboxStep_entry `{MapOrder} `{SliceSort} `{ErrorText} l s id :
  store_wf (messages s) → Z.of_nat (size (messages s)) ≤ MaxInt64 →
  entry_step l id (messages s !! id) (messages (outboxStep l s) !! id).
Proof.
  intros Hwf Hb. destruct l as [env msgs|env limit|env ids|env id' e|env n|env d|env n|env d|env subject|];
    cbn [outboxStep].
  - destruct (ctx_Err env) eqn:Hc; [unfold Schedule, check_ctx; rewrite Hc; apply entry_same|].
    rewrite Schedule_live by done. cbn [fst messages]. rewrite foldl_insert_lookup.
    destruct (last _) as [m|] eqn:E; [|apply entry_same].
    apply last_Some_elem_of, list_elem_of_filter in E as [E1 E2].
    destruct (messages s !! id); cbn; [left|]; done.
  - destruct (ctx_Err env) eqn:Hc; [unfold FetchPending, check_ctx; rewrite Hc; apply entry_same|].
    rewrite FetchPending_live by done. cbn [fst messages].
    destruct (due_entries_spec (time_Now env 0) limit (messages s)) as (Hnd & Hin & _).
    rewrite foldl_claim_lookup by done. rewrite due_entries_key.
    destruct (messages s !! id) as [m|] eqn:E; [|done].
    case_decide as Hk; cbn; [|right; constructor]. right.
    apply list_elem_of_fmap in Hk as ([k x] & -> & Hx). apply Hin in Hx as [Hx Hd].
    cbn in E. simplify_eq. by constructor.
  - destruct (ctx_Err env) eqn:Hc; unfold MarkCompleted, check_ctx; rewrite Hc; [apply entry_same|].
    cbn [returnErr fst messages]. rewrite complete_loop. case_decide; [|apply entry_same].
    destruct (messages s !! id) as [m|] eqn:E; cbn; [|done]. right. constructor.
    apply Hwf in E as [-> _]. done.
  - destruct (ctx_Err env) eqn:Hc; unfold MarkFailed, check_ctx; rewrite Hc; [apply entry_same|].
    cbn [returnErr]. destruct (messages s !! id') as [m|] eqn:E; [|apply entry_same]. cbn [fst messages].
    destruct (decide (id = id')) as [->|Hne]; [|rewrite lookup_insert_ne by done; apply entry_same].
    rewrite lookup_insert_eq, E. cbn. right. apply Hwf in E as [<- _]. constructor.
  - apply entry_update; [done|]. intros m Hm. by constructor.
  - apply entry_update; [done|]. intros m Hm. by constructor.
  - apply entry_update; [done|]. intros m Hm. by constructor.
  - apply entry_delete; [done|]. done.
  - unfold DeleteOutboxBySubject. case_bool_decide; [apply entry_same|].
    apply entry_delete; [done|]. intros m Hm. by apply bool_decide_eq_true in Hm.
  - cbn. rewrite lookup_empty. by destruct (messages s !! id).
Qed.

(** What the caller scheduled: everything but the delivery progress. *)
Definition same_content (m m' : OutboxMessage) : Prop :=
  m' = set_Progress m (om_Status m') (om_Attempts m') (om_LastError m') (om_LastAttemptAt m')
         (om_ProcessedAt m').

Lemma same_content_refl m : same_content m m.
Proof. by destruct m. Qed.

Lemma same_content_trans m1 m2 m3 : same_content m1 m2 → same_content m2 m3 → same_content m1 m3.
Proof. unfold same_content. intros -> ->. by destruct m1. Qed.

Lemma evolves_content `{ErrorText} l m m' : evolves l m m' → same_content m m'.
Proof. destruct 1; try done. apply same_content_refl. Qed.

Lemma evolves_attempts `{ErrorText} l m m' :
  evolves l m m' → in_i64 (om_Attempts m) → in_i64 (om_Attempts m').
Proof. destruct 1; cbn; auto using i64_range. Qed.

Lemma outboxStep_wf `{MapOrder} `{SliceSort} `{ErrorText} l s :
  store_wf (messages s) → Z.of_nat (size (messages s)) ≤ MaxInt64 →
  (∀ env msgs, l = OSchedule env msgs → Forall (λ m, in_i64 (om_Attempts m)) msgs) →
  store_wf (messages (outboxStep l s)).
Proof.
  intros Hwf Hb Hsch id m' Hm'. pose proof (outboxStep_entry l s id Hwf Hb) as He. rewrite Hm' in He.
  assert (∀ m', stores l id m' → om_ID m' = id ∧ in_i64 (om_Attempts m')) as Hst.
  { intros x Hx. destruct l; try done. destruct Hx as [Hx Hid]. split; [done|].
    apply scheduled_status in Hx as (_ & m0 & Hm0 & -> & _).
    by eapply Forall_forall in Hsch; [|done|done]. }
  destruct (messages s !! id) as [m|] eqn:E; cbn in He; [|by apply Hst].
  destruct He as [He|He]; [by apply Hst|]. apply Hwf in E as [E1 E2].
  split; [|by eapply evolves_attempts]. by rewrite (evolves_content _ _ _ He).
Qed.

Lemma outboxRun_snoc `{MapOrder} `{SliceSort} `{ErrorText} ls l s :
  outboxRun (ls ++ [l]) s = outboxStep l (outboxRun ls s).
Proof. unfold outboxRun. by rewrite foldl_app. Qed.

(** A history whose calls can happen: no map outgrows an [int], and the
    attempt counters scheduled are [int]s. *)
Definition admissible_run `{MapOrder} `{SliceSort} `{ErrorText} (ls : list outboxLabel) (s : OutboxStore)
    : Prop :=
  ∀ n l, ls !! n = Some l →
    Z.of_nat (size (messages (outboxRun (take n ls) s))) ≤ MaxInt64 ∧
    ∀ env msgs, l = OSchedule env msgs → Forall (λ m, in_i64 (om_Attempts m)) msgs.

Lemma admissible_snoc `{MapOrder} `{SliceSort} `{ErrorText} ls l s :
  admissible_run (ls ++ [l]) s →
  admissible_run ls s ∧ Z.of_nat (size (messages (outboxRun ls s))) ≤ MaxInt64 ∧
  ∀ env msgs, l = OSchedule env msgs → Forall (λ m, in_i64 (om_Attempts m)) msgs.
Proof.
  intros Ha. split.
  - intros n l' Hl'. pose proof (lookup_lt_Some _ _ _ Hl').
    destruct (Ha n l') as [Hb Hs]; [by rewrite lookup_app_l|].
    by rewrite take_app_le in Hb by lia.
  - destruct (Ha (length ls) l) as [Hb Hs]; [by apply list_lookup_middle|].
    by rewrite take_app_length in Hb.
Qed.

Lemma outboxRun_wf `{MapOrder} `{SliceSort} `{ErrorText} ls s :
  store_wf (messages s) → admissible_run ls s → store_wf (messages (outboxRun ls s)).
Proof.
  intros Hwf. induction ls as [|l ls IH] using rev_ind; [done|]. intros Ha.
  apply admissible_snoc in Ha as (Ha & Hb & Hs). rewrite outboxRun_snoc.
  by apply outboxStep_wf; [apply IH| |].
Qed.

(** ** The properties *)

(** The operations move a stored message only along the message state
    machine: a claim takes a due pending message, marks name the message, retry
    and dead-lettering split the failed ones at the attempt limit, a reclaim
    takes an overdue claim, clean-up takes old completed messages, and nothing
    else changes, stores or removes an entry. *)
Theorem outbox_step_follows_machine `{MapOrder} `{SliceSort} `{ErrorText} (l : outboxLabel) (s : OutboxStore)
    (id : string) :
  store_wf (messages s) → Z.of_nat (size (messages s)) ≤ MaxInt64 →
  match messages s !! id, messages (outboxStep l s) !! id with
  | None, None => True
  | None, Some m' => stores l id m'
  | Some m, Some m' => stores l id m' ∨ (evolves l m m' ∧ same_content m m')
  | Some m, None => removes l m
  end.
Proof.
  intros Hwf Hb. pose proof (outboxStep_entry l s id Hwf Hb) as He.
  destruct (messages s !! id), (messages (outboxStep l s) !! id); cbn in *; try done.
  destruct He as [|He]; [by left|right]. split; [done|by eapply evolves_content].
Qed.

(** C21: no outbox message is lost: through any history of the store in which
    the subject erasure, [Clear] and a [Schedule] under the same id do not hit
    it, a scheduled message is still stored with its content, unless it had
    been marked completed before. *)
Theorem outbox_no_message_lost `{MapOrder} `{SliceSort} `{ErrorText} (ls : list outboxLabel) (s : OutboxStore)
    (id : string) (m : OutboxMessage) :
  store_wf (messages s) → admissible_run ls s → messages s !! id = Some m →
  (∀ n l x, ls !! n = Some l → ¬ stores l id x ∧
     (messages (outboxRun (take n ls) s) !! id = Some x → removes l x → ∃ env d, l = OCleanup env d)) →
  (∃ m', messages (outboxRun ls s) !! id = Some m' ∧ same_content m m') ∨
  (∃ n m', messages (outboxRun (take n ls) s) !! id = Some m' ∧ same_content m m' ∧
     om_Status m' = OutboxCompleted).
Proof.
  intros Hwf Ha Hm Hls. induction ls as [|l ls IH] using rev_ind.
  { left. exists m. split; [done|apply same_content_refl]. }
  pose proof (admissible_snoc _ _ _ Ha) as (Ha' & Hb & Hs).
  destruct (IH Ha') as [(m1 & Hm1 & Hc1)|(n & m1 & Hm1 & Hc1 & Hst)].
  - intros n l' x Hl'. pose proof (lookup_lt_Some _ _ _ Hl').
    destruct (Hls n l' x) as [Hr1 Hr2]; [by rewrite lookup_app_l|].
    by rewrite take_app_le in Hr2 by lia.
  - pose proof (outboxStep_entry l _ id (outboxRun_wf ls s Hwf Ha') Hb) as He.
    destruct (Hls (length ls) l m1) as [_ Hrm]; [by apply list_lookup_middle|].
    rewrite take_app_length in Hrm.
    rewrite outboxRun_snoc, Hm1 in *. destruct (messages (outboxStep l _) !! id) as [m'|] eqn:E; cbn in He.
    + left. exists m'. split; [done|]. destruct He as [He|He].
      * destruct (Hls (length ls) l m') as [Hn _]; [by apply list_lookup_middle|done].
      * eapply same_content_trans; [done|by eapply evolves_content].
    + right. exists (length ls), m1. rewrite take_app_length. split; [done|]. split; [done|].
      destruct (Hrm eq_refl He) as (env & d & ->). cbn in He. unfold cleanable in He. by zbool.
  - right. exists (min n (length ls)), m1. rewrite take_app_le by lia.
    destruct (decide (n ≤ length ls)%nat) as [Hle|Hgt].
    + by rewrite Nat.min_l.
    + rewrite Nat.min_r, firstn_all by lia. by rewrite take_ge in Hm1 by lia.
Qed.

(** What a fetch claims. *)
Lemma FetchPending_claims `{MapOrder} `{SliceSort} (env : Env) (limit : Z) (s : OutboxStore) :
  store_wf (messages s) → ctx_Err env = None →
  ∃ s' claimed, FetchPending env limit s = (s', Ok claimed) ∧
    NoDup (om_ID <$> claimed) ∧
    (0 < limit → Z.of_nat (length claimed) ≤ limit) ∧
    StronglySorted (λ x y, om_ScheduledAt x ≤ om_ScheduledAt y) claimed ∧
    (∀ c, c ∈ claimed → om_Status c = OutboxProcessing ∧ messages s' !! om_ID c = Some c ∧
       ∃ m, messages s !! om_ID c = Some m ∧ isDue (time_Now env 0) m = true ∧
         c = claim (time_Now env 0) m) ∧
    (∀ id, id ∉ om_ID <$> claimed → messages s' !! id = messages s !! id) ∧
    (∀ id m, messages s !! id = Some m → isDue (time_Now env 0) m = true → id ∉ om_ID <$> claimed →
       0 < limit ∧ Z.of_nat (length claimed) = limit ∧
       ∀ c, c ∈ claimed → om_ScheduledAt c ≤ om_ScheduledAt m).
Proof.
  intros Hwf Hctx. rewrite FetchPending_live by done.
  destruct (due_entries_spec (time_Now env 0) limit (messages s)) as (Hnd & Hin & Hsort & Hlim & Hrest).
  pose proof (due_entries_key (time_Now env 0) limit (messages s)) as Hkey.
  set (l := due_entries _ _ _) in *. clearbody l. set (now := time_Now env 0) in *.
  assert (om_ID <$> (claim now <$> l.*2) = l.*1) as Hids.
  { assert (∀ kv, kv ∈ l → om_ID kv.2 = kv.1) as Hk by (intros [k x] Hx; by apply Hin in Hx as [[? _]%Hwf _]).
    clear -Hk. induction l as [|[k x] l IH]; [done|]. cbn. f_equal; [apply (Hk (k, x)); left|].
    apply IH. intros kv Hkv. apply Hk. by right. }
  do 2 eexists. split; [done|]. rewrite Hids, !length_fmap. split; [done|]. split; [done|].
  split; [|split; [|split]].
  - clear -Hsort. induction Hsort as [|x l Hl IH Hx]; [constructor|]. cbn. constructor; [done|].
    rewrite Forall_forall in Hx. apply Forall_forall. intros c (m & -> & (kv & -> & Hkv)%list_elem_of_fmap)%list_elem_of_fmap.
    by apply Hx.
  - intros c (m & -> & ([k x] & -> & Hkv)%list_elem_of_fmap)%list_elem_of_fmap. cbn [snd].
    pose proof (Hin _ _ Hkv) as [Hk Hd]. apply Hwf in Hk as Hk'. destruct Hk' as [Hk' _].
    split; [done|]. cbn [messages om_ID claim set_Progress]. rewrite Hk'. split; [|by eauto].
    rewrite foldl_claim_lookup, Hkey, Hk by done.
    by rewrite decide_True by (by apply (list_elem_of_fmap_2 fst) in Hkv).
  - intros id Hid. cbn [messages]. rewrite foldl_claim_lookup, Hkey by done.
    destruct (messages s !! id); [|done]. by rewrite decide_False.
  - intros id m Hm Hd Hid. destruct (Hrest id m Hm Hd Hid) as (Hr1 & Hr2 & Hr3).
    split; [done|]. split; [done|].
    intros c (x & -> & ([k y] & -> & Hkv)%list_elem_of_fmap)%list_elem_of_fmap. by apply (Hr3 k y).
Qed.

(** A fetch claims exclusively and in order, under any map iteration and
    any sort of the ties: the claimed messages are distinct, at most [limit],
    were pending and due, come out in order of their schedule with the attempt
    counted, and are no longer pending; a due message it leaves out is not
    scheduled before any it took, and only when the limit is reached; every
    other message is untouched. *)
Theorem fetch_claims_earliest_due `{MapOrder} `{SliceSort} (env : Env) (limit : Z) (s : OutboxStore) :
  store_wf (messages s) → ctx_Err env = None →
  ∃ s' claimed, FetchPending env limit s = (s', Ok claimed) ∧
    NoDup (om_ID <$> claimed) ∧
    (0 < limit → Z.of_nat (length claimed) ≤ limit) ∧
    StronglySorted (λ x y, om_ScheduledAt x ≤ om_ScheduledAt y) claimed ∧
    (∀ c, c ∈ claimed → om_Status c = OutboxProcessing ∧ messages s' !! om_ID c = Some c ∧
       ∃ m, messages s !! om_ID c = Some m ∧ isDue (time_Now env 0) m = true ∧
         c = claim (time_Now env 0) m) ∧
    (∀ id, id ∉ om_ID <$> claimed → messages s' !! id = messages s !! id) ∧
    (∀ id m, messages s !! id = Some m → isDue (time_Now env 0) m = true → id ∉ om_ID <$> claimed →
       0 < limit ∧ Z.of_nat (length claimed) = limit ∧
       ∀ c, c ∈ claimed → om_ScheduledAt c ≤ om_ScheduledAt m).
Proof. apply FetchPending_claims. Qed.

(** ** Attempts *)

Definition isReclaim (l : outboxLabel) : bool := match l with OReclaim _ _ => true | _ => false end.

(** The number of reclaims of a history. *)
Definition reclaims (ls : list outboxLabel) : Z := Z.of_nat (length (filter (λ l, isReclaim l = true) ls)).

(** A message that may still be claimed has an attempt left, [r] reclaims
    apart. *)
Definition attempts_ok (r : Z) (m : OutboxMessage) : Prop :=
  om_Attempts m ≤ Z.max 1 (om_MaxAttempts m) + r ∧
  (om_Status m = OutboxPending → om_Attempts m < Z.max 1 (om_MaxAttempts m) + r).

Lemma attempts_ok_step `{ErrorText} l m m' r :
  in_i64 (om_Attempts m) → 0 ≤ r → attempts_ok r m → evolves l m m' →
  attempts_ok (if isReclaim l then r + 1 else r) m'.
Proof.
  unfold attempts_ok. intros Hi Hr [H1 H2] He.
  destruct He as [l m|env limit m Hd|env ids m Hid|env e m|env n m Hn|env d m Hd|env n m Hn]; cbn;
    try (split; [lia|done]).
  - destruct (isReclaim l); split; try lia; intros Hp; apply H2 in Hp; lia.
  - unfold isDue in Hd. zbool. specialize (H2 ltac:(done)). split; [|done].
    destruct (decide (om_Attempts m = MaxInt64)) as [E|E].
    + rewrite E. change (i64 (MaxInt64 + 1)) with MinInt64. unfold MinInt64. lia.
    + rewrite i64_id; unfold in_i64 in *; lia.
  - unfold retryable, attemptLimit in Hn. zbool. lia.
  - lia.
Qed.

(** A message scheduled with a fresh counter is never attempted more often
    than its [MaxAttempts] allows, counting at least one attempt, plus one for
    each reclaim sweep of the history: only [ReclaimStale] lets a message
    exceed its limit. *)
Theorem attempts_bounded_up_to_reclaims `{MapOrder} `{SliceSort} `{ErrorText} (ls : list outboxLabel)
    (id : string) (m : OutboxMessage) :
  admissible_run ls NewOutboxStore →
  (∀ env msgs, OSchedule env msgs ∈ ls → Forall (λ m, om_Attempts m = 0) msgs) →
  messages (outboxRun ls NewOutboxStore) !! id = Some m →
  om_Attempts m ≤ Z.max 1 (om_MaxAttempts m) + reclaims ls.
Proof.
  intros Ha Hsch Hm.
  enough (∀ id m, messages (outboxRun ls NewOutboxStore) !! id = Some m → attempts_ok (reclaims ls) m)
    as Hok by (by destruct (Hok _ _ Hm)).
  clear Hm id m. induction ls as [|l ls IH] using rev_ind; [done|].
  apply admissible_snoc in Ha as (Ha & Hb & Hs). rewrite outboxRun_snoc. intros id m' Hm'.
  assert (store_wf (messages (outboxRun ls NewOutboxStore))) as Hwf by (by apply outboxRun_wf).
  assert (reclaims (ls ++ [l]) = if isReclaim l then reclaims ls + 1 else reclaims ls) as ->.
  { unfold reclaims. rewrite filter_app, (filter_cons _ l []), filter_nil, length_app.
    destruct (isReclaim l); [rewrite decide_True by done|rewrite decide_False by done]; cbn; lia. }
  assert (0 ≤ reclaims ls) as Hr by (unfold reclaims; lia).
  pose proof (outboxStep_entry l _ id Hwf Hb) as He. rewrite Hm' in He.
  assert (∀ x, stores l id x → attempts_ok (if isReclaim l then reclaims ls + 1 else reclaims ls) x) as Hst.
  { intros x Hx. destruct l as [env msgs| | | | | | | | |]; try done. destruct Hx as [Hx _]. cbn.
    apply scheduled_status in Hx as (_ & m0 & Hm0 & Ea & _).
    assert (om_Attempts x = 0) as E0.
    { rewrite Ea. specialize (Hsch env msgs ltac:(set_solver)). by eapply Forall_forall in Hsch. }
    unfold attempts_ok. lia. }
  destruct (messages (outboxRun ls NewOutboxStore) !! id) as [m|] eqn:E; cbn in He; [|by apply Hst].
  destruct He as [He|He]; [by apply Hst|]. apply Hwf in E as E'. destruct E' as [_ Hi].
  eapply attempts_ok_step; [done..| |done]. eapply IH; [done| |done].
  intros env msgs Hin. apply (Hsch env). apply elem_of_app. by left.
Qed.

(** ** Witnesses *)

Definition sampleText : ErrorText := λ e, match e with ErrPublisherNotFound => "mink: publisher not found" | _ => "error" end.

Definition sampleMessage (id : string) (at_ maxA : Z) : OutboxMessage :=
  mkOutboxMessage id "Order-1" "OrderPlaced" "kafka:orders" (Some []) None OutboxPending 0 maxA "" at_
    None None 1.

Definition sampleOutbox : OutboxStore :=
  (Schedule sampleEnv [sampleMessage "m1" 30 3; sampleMessage "m2" 10 3; sampleMessage "" 20 0;
                       sampleMessage "late" 5000 3] NewOutboxStore).1.

Definition wf_entry (id : string) (msg : OutboxMessage) : Prop :=
  om_ID msg = id ∧ in_i64 (om_Attempts msg).

#[export] Instance wf_entry_dec id msg : Decision (wf_entry id msg).
Proof. unfold wf_entry. apply _. Defined.

Lemma sampleOutbox_wf : store_wf (messages sampleOutbox).
Proof. exact (bool_decide_unpack (map_Forall wf_entry (messages sampleOutbox)) I). Qed.

Lemma outbox_step_follows_machine_witness :
  @evolves sampleText (OFetch sampleEnv 1) (sampleMessage "m2" 10 3) (claim 1000 (sampleMessage "m2" 10 3)).
Proof.
  pose proof (@outbox_step_follows_machine listOrder stableSlice sampleText (OFetch sampleEnv 1) sampleOutbox
    "m2" sampleOutbox_wf ltac:(by vm_compute)) as H.
  assert (messages sampleOutbox !! "m2" = Some (sampleMessage "m2" 10 3)) as E1 by (by vm_compute).
  assert (messages (@outboxStep listOrder stableSlice sampleText (OFetch sampleEnv 1) sampleOutbox) !! "m2"
    = Some (claim 1000 (sampleMessage "m2" 10 3))) as E2 by (by vm_compute).
  rewrite E1, E2 in H. destruct H as [[]|[H _]]. exact H.
Defined.

(** A history that claims the message, fails it, retries it and dead-letters
    another one. *)
Definition sampleHistory : list outboxLabel :=
  [OFetch sampleEnv 1; OFail sampleEnv "m2" (Some ErrPublisherNotFound); ORetry sampleEnv 3;
   ODeadLetter sampleEnv 3; OCleanup sampleEnv 10].

Lemma sampleHistory_admissible :
  @admissible_run listOrder stableSlice sampleText sampleHistory sampleOutbox.
Proof.
  intros n l Hl. split.
  - do 5 (destruct n as [|n]; [by vm_compute|]). exfalso. by cbn in Hl.
  - intros env msgs ->. do 5 (destruct n as [|n]; [done|]). exfalso. by cbn in Hl.
Qed.

Lemma outbox_no_message_lost_witness :
  ∃ m', messages (@outboxRun listOrder stableSlice sampleText sampleHistory sampleOutbox) !! "m2" = Some m' ∧
    same_content (sampleMessage "m2" 10 3) m'.
Proof.
  destruct (@outbox_no_message_lost listOrder stableSlice sampleText sampleHistory sampleOutbox "m2"
    (sampleMessage "m2" 10 3) sampleOutbox_wf sampleHistory_admissible ltac:(by vm_compute))
    as [H|(n & m' & H1 & _ & H3)].
  - intros n l x Hl. do 5 (destruct n as [|n]; [injection Hl as <-; split; [intros []|intros _ Hr; first [destruct Hr; fail|do 2 eexists; reflexivity]]|]).
    exfalso. by cbn in Hl.
  - exact H.
  - exfalso. do 6 (destruct n as [|n]; [vm_compute in H1; injection H1 as <-; by vm_compute in H3|]).
    vm_compute in H1. injection H1 as <-. by vm_compute in H3.
Defined.

Lemma fetch_claims_earliest_due_witness :
  ∃ s' claimed, @FetchPending listOrder stableSlice sampleEnv 2 sampleOutbox = (s', Ok claimed) ∧
    (om_ScheduledAt <$> claimed) = [10; 20] ∧ NoDup (om_ID <$> claimed).
Proof.
  destruct (@fetch_claims_earliest_due listOrder stableSlice sampleEnv 2 sampleOutbox sampleOutbox_wf eq_refl)
    as (s' & claimed & H1 & H2 & _).
  exists s', claimed. split; [exact H1|]. split; [|exact H2].
  vm_compute in H1. by injection H1 as _ <-.
Defined.

(** A message whose processor crashes on every attempt: it allows one attempt,
    and each reclaim makes it due again. *)
Definition crashHistory : list outboxLabel :=
  [OSchedule sampleEnv [sampleMessage "m1" 10 1]; OFetch sampleEnv 1; OReclaim sampleEnv (-1);
   OFetch sampleEnv 1; OReclaim sampleEnv (-1); OFetch sampleEnv 1].

Lemma crashHistory_admissible :
  @admissible_run listOrder stableSlice sampleText crashHistory NewOutboxStore.
Proof.
  intros n l Hl. split.
  - do 6 (destruct n as [|n]; [by vm_compute|]). exfalso. by cbn in Hl.
  - intros env msgs ->. destruct n as [|n]; [injection Hl as _ <-; by repeat constructor|].
    do 5 (destruct n as [|n]; [done|]). exfalso. by cbn in Hl.
Qed.

Lemma attempts_bounded_up_to_reclaims_witness :
  ∃ m, messages (@outboxRun listOrder stableSlice sampleText crashHistory NewOutboxStore) !! "m1" = Some m ∧
    om_MaxAttempts m = 1 ∧ om_Attempts m ≤ 1 + 2.
Proof.
  assert (∀ env msgs, OSchedule env msgs ∈ crashHistory → Forall (λ m, om_Attempts m = 0) msgs) as Hs.
  { intros env msgs Hin. repeat (apply elem_of_cons in Hin as [Hin|Hin]; [try discriminate Hin|]).
    - injection Hin as _ ->. apply Forall_singleton. reflexivity.
    - destruct (not_elem_of_nil _ Hin). }
  destruct (messages (@outboxRun listOrder stableSlice sampleText crashHistory NewOutboxStore) !! "m1")
    as [m|] eqn:E; [|by vm_compute in E].
  pose proof (@attempts_bounded_up_to_reclaims listOrder stableSlice sampleText crashHistory "m1" m
    crashHistory_admissible Hs E) as H.
  exists m. assert (om_MaxAttempts m = 1) as Em by (vm_compute in E; by injection E as <-).
  split; [reflexivity|]. split; [exact Em|]. rewrite Em in H. exact H.
Defined.

(** The limit is exceeded: three deliveries of a message that allows one. *)
Lemma reclaim_exceeds_max_attempts :
  om_Attempts <$> messages (@outboxRun listOrder stableSlice sampleText crashHistory NewOutboxStore) !! "m1"
  = Some 3.
Proof. by vm_compute. Qed.
