(* ===== verification/AuditStore.v ===== *)
(** * The audit store

    [src/adapters/audit.go] and the in-memory store of
    [src/adapters/memory/audit.go]: an append-only list of entries, queried by
    exact criteria, ordered by time and id, and paged. *)

From S2P Require Import Prelude.
From S2P Require Import Types.

Record AuditEntry := mkAuditEntry {
  ae_ID : string;
  ae_CommandType : string;
  ae_CommandID : string;
  ae_AggregateID : string;
  ae_Actor : string;
  ae_TenantID : string;
  ae_CorrelationID : string;
  ae_CausationID : string;
  ae_Error : string;
  ae_Version : Z;
  ae_DurationMs : Z;
  ae_Timestamp : Time;
  ae_Success : bool;
  ae_Metadata : StringMap;
}.

Inductive AuditOrder := AuditOrderTimestampDesc | AuditOrderTimestampAsc.

#[export] Instance AuditOrder_eq_dec : EqDecision AuditOrder.
Proof. solve_decision. Defined.

(** The zero time is 0. *)
Record AuditQuery := mkAuditQuery {
  aq_CommandType : string;
  aq_Actor : string;
  aq_TenantID : string;
  aq_AggregateID : string;
  aq_CorrelationID : string;
  aq_From : Time;
  aq_To : Time;
  aq_Success : option bool;
  aq_Limit : Z;
  aq_Offset : Z;
  aq_Order : AuditOrder;
}.

Record AuditStore := mkAuditStore { entries : list AuditEntry }.

Definition NewAuditStore : AuditStore := mkAuditStore [].

Definition CopyAuditEntry (e : AuditEntry) : AuditEntry :=
  mkAuditEntry (ae_ID e) (ae_CommandType e) (ae_CommandID e) (ae_AggregateID e) (ae_Actor e) (ae_TenantID e)
    (ae_CorrelationID e) (ae_CausationID e) (ae_Error e) (ae_Version e) (ae_DurationMs e) (ae_Timestamp e)
    (ae_Success e) (match ae_Metadata e with None => None | Some m => Some m end).

(** The context is looked at before and after the lock is taken. *)
Definition Append (env : Env) (entry : option AuditEntry) : op AuditStore error unit := λ s,
  match entry with
  | None => (s, Err ErrNilAuditEntry)
  | Some entry =>
      if ctx_Done env 0 then (s, Err (ctx_DoneErr env))
      else if ctx_Done env 1 then (s, Err (ctx_DoneErr env))
      else (mkAuditStore (entries s ++ [CopyAuditEntry entry]), Ok tt)
  end.

(** A criterion that is unset matches everything. *)
Definition differs (want have : string) : bool :=
  negb (bool_decide (want = "")) && negb (bool_decide (have = want)).

Definition matchesAuditQuery (entry : AuditEntry) (q : AuditQuery) : bool :=
  if differs (aq_CommandType q) (ae_CommandType entry) then false
  else if differs (aq_Actor q) (ae_Actor entry) then false
  else if differs (aq_TenantID q) (ae_TenantID entry) then false
  else if differs (aq_AggregateID q) (ae_AggregateID entry) then false
  else if differs (aq_CorrelationID q) (ae_CorrelationID entry) then false
  else if negb (aq_From q =? 0) && (ae_Timestamp entry <? aq_From q) then false
  else if negb (aq_To q =? 0) && negb (ae_Timestamp entry <? aq_To q) then false
  else match aq_Success q with Some b => bool_decide (ae_Success entry = b) | None => true end.

Definition filterEntries (q : AuditQuery) (s : AuditStore) : list AuditEntry :=
  CopyAuditEntry <$> filter (λ e, matchesAuditQuery e q = true) (entries s).

(** Newest first, or oldest first, then by id the same way. *)
Definition auditLess (order : AuditOrder) (x y : AuditEntry) : bool :=
  match order with
  | AuditOrderTimestampAsc =>
      if ae_Timestamp x =? ae_Timestamp y then String.ltb (ae_ID x) (ae_ID y) else ae_Timestamp x <? ae_Timestamp y
  | AuditOrderTimestampDesc =>
      if ae_Timestamp x =? ae_Timestamp y then String.ltb (ae_ID y) (ae_ID x) else ae_Timestamp y <? ae_Timestamp x
  end.

Definition Find (q : AuditQuery) (s : AuditStore) : res (list AuditEntry) :=
  let matched := stableSort (auditLess (aq_Order q)) (filterEntries q s) in
  let len := Z.of_nat (length matched) in
  if (0 <? aq_Offset q) && (len <=? aq_Offset q) then Ok []
  else
    let matched := if 0 <? aq_Offset q then drop (Z.to_nat (aq_Offset q)) matched else matched in
    Ok (if (0 <? aq_Limit q) && (aq_Limit q <? Z.of_nat (length matched))
        then take (Z.to_nat (aq_Limit q)) matched else matched).

Definition Count (q : AuditQuery) (s : AuditStore) : res Z :=
  Ok (Z.of_nat (length (filter (λ e, matchesAuditQuery e q = true) (entries s)))).

(** The loop of the removals: the entries kept, and how many were dropped. *)
Definition removeWhere (drop : AuditEntry → bool) (s : AuditStore) : AuditStore * Z :=
  let '(kept, removed) :=
    foldl (λ '(kept, removed) e, if drop e then (kept, i64 (removed + 1)) else (kept ++ [e], removed))
      ([], 0) (entries s) in
  (mkAuditStore kept, removed).

Definition Cleanup (env : Env) (olderThan : Duration) : op AuditStore error Z := λ s,
  let cutoff := i64 (time_Now env 0 - olderThan) in
  let '(s, n) := removeWhere (λ e, ae_Timestamp e <? cutoff) s in (s, Ok n).

Definition DeleteAuditBySubject (subjectID : string) : op AuditStore error Z := λ s,
  if bool_decide (subjectID = "") then (s, Ok 0)
  else
    let '(s, n) :=
      removeWhere (λ e, bool_decide (ae_Actor e = subjectID) || bool_decide (ae_AggregateID e = subjectID)) s in
    (s, Ok n).

Definition Len (s : AuditStore) : Z := Z.of_nat (length (entries s)).
Definition Clear (s : AuditStore) : AuditStore := mkAuditStore [].

(** ** Lemmas *)

Lemma CopyAuditEntry_id e : CopyAuditEntry e = e.
Proof. destruct e as [? ? ? ? ? ? ? ? ? ? ? ? ? [m|]]; done. Qed.

Lemma removeWhere_spec d s :
  Z.of_nat (length (entries s)) ≤ MaxInt64 →
  removeWhere d s = (mkAuditStore (filter (λ e, d e = false) (entries s)),
                     Z.of_nat (length (filter (λ e, d e = true) (entries s)))).
Proof.
  unfold removeWhere. intros Hb.
  enough (∀ l kept n, 0 ≤ n → n + Z.of_nat (length l) ≤ MaxInt64 →
    foldl (λ '(kept, removed) e, if d e then (kept, i64 (removed + 1)) else (kept ++ [e], removed)) (kept, n) l =
    (kept ++ filter (λ e, d e = false) l, n + Z.of_nat (length (filter (λ e, d e = true) l)))) as H.
  { by rewrite H. }
  induction l as [|e l IH]; intros kept n Hn Hl; cbn [foldl]; [by rewrite app_nil_r, Z.add_0_r|].
  cbn [length] in Hl. rewrite !filter_cons. destruct (d e).
  - rewrite i64_id by (unfold in_i64, MinInt64; lia). rewrite IH by lia.
    rewrite decide_False by done. rewrite decide_True by done. cbn [length]. f_equal. lia.
  - rewrite IH by lia. rewrite decide_True by done. rewrite decide_False by done. by rewrite <- app_assoc.
Qed.

(** What a query without paging returns, whatever the order. *)
Lemma Find_perm q s :
  aq_Offset q ≤ 0 → aq_Limit q ≤ 0 →
  ∃ l, Find q s = Ok l ∧ l ≡ₚ filter (λ e, matchesAuditQuery e q = true) (entries s).
Proof.
  intros Ho Hl. unfold Find. rewrite (proj2 (Z.ltb_ge 0 (aq_Offset q))), (proj2 (Z.ltb_ge 0 (aq_Limit q))) by lia.
  cbn [andb]. eexists. split; [done|]. rewrite stableSort_perm. unfold filterEntries.
  rewrite (list_fmap_ext _ id) by (intros; by rewrite CopyAuditEntry_id). by rewrite list_fmap_id.
Qed.
