(* ===== verification/CommandBus.v ===== *)
(** * The command bus

    [src/bus.go] and [src/handler.go]: handlers, their registry, the bus and its
    middleware chain.  What handlers and middleware share, stores, clocks of
    their own, the application's data, is a state [U] they pass along; a handler
    that panics is an outcome. *)

From S2P Require Import Prelude.
From S2P Require Import Types.
From S2P Require Import Command.

Abbreviation outcome := (panics (CommandResult * option error)).

(** [return NewErrorResult(err), err] *)
Definition failed (err : error) : outcome := Returned (NewErrorResult err, Some err).

(** The calls made outside so far, the waits between attempts, and [U]. *)
Record World (U : Type) := mkWorld { bw_calls : nat; bw_waits : list Duration; bw_state : U }.
Arguments mkWorld {U} _ _ _.
Arguments bw_calls {U} _.
Arguments bw_waits {U} _.
Arguments bw_state {U} _.

Definition set_state {U} (u : U) (w : World U) : World U := mkWorld (bw_calls w) (bw_waits w) u.
Definition tick {U} (w : World U) : World U := mkWorld (S (bw_calls w)) (bw_waits w) (bw_state w).

Section Bus.
Context {U : Type}.
Implicit Types w : World U.

Definition MiddlewareFunc : Type := Ctx → Command → World U → World U * outcome.
Definition Middleware : Type := MiddlewareFunc → MiddlewareFunc.

(** ** Handlers *)

Record CommandHandler := mkCommandHandler { ch_CommandType : string; ch_Handle : MiddlewareFunc }.

Definition NewCommandHandlerFunc (cmdType : string) (fn : MiddlewareFunc) : CommandHandler := mkCommandHandler cmdType fn.

(** [C] is the type of the commands: [cast] is the type assertion, and [zero]
    the type name the zero value of [C] gives itself. *)
Definition NewGenericHandler {C : Type} (zero : string) (cast : Command → option C)
    (handler : Ctx → C → World U → World U * outcome) : CommandHandler :=
  mkCommandHandler zero (λ ctx cmd w,
    match cast cmd with
    | None => (w, Returned (NewErrorResult (Errorf "mink: expected command type %T, got %T"), None))
    | Some typedCmd => handler ctx typedCmd w
    end).

(** *** The registry *)

Record HandlerRegistry := mkHandlerRegistry { handlers : gmap string CommandHandler }.

Definition NewHandlerRegistry : HandlerRegistry := mkHandlerRegistry ∅.
Definition HandlerRegistry_Register (handler : CommandHandler) (r : HandlerRegistry) : HandlerRegistry :=
  mkHandlerRegistry (<[ch_CommandType handler := handler]> (handlers r)).
Definition HandlerRegistry_RegisterFunc (cmdType : string) (fn : MiddlewareFunc) : HandlerRegistry → HandlerRegistry :=
  HandlerRegistry_Register (NewCommandHandlerFunc cmdType fn).
Definition HandlerRegistry_Get (cmdType : string) (r : HandlerRegistry) : option CommandHandler := handlers r !! cmdType.
Definition Has (cmdType : string) (r : HandlerRegistry) : bool :=
  match handlers r !! cmdType with Some _ => true | None => false end.
Definition Remove (cmdType : string) (r : HandlerRegistry) : HandlerRegistry :=
  mkHandlerRegistry (delete cmdType (handlers r)).
Definition HandlerRegistry_Clear (r : HandlerRegistry) : HandlerRegistry := mkHandlerRegistry ∅.
Definition Count (r : HandlerRegistry) : Z := Z.of_nat (size (handlers r)).
Definition CommandTypes `{MapOrder} (r : HandlerRegistry) : list string := (range (handlers r)).*1.
Definition RegisterGenericHandler {C : Type} (registry : HandlerRegistry) (zero : string) (cast : Command → option C)
    (handler : Ctx → C → World U → World U * outcome) : HandlerRegistry :=
  HandlerRegistry_Register (NewGenericHandler zero cast handler) registry.

(** [SimpleDispatcher.Dispatch] *)
Definition SimpleDispatcher_Dispatch (registry : HandlerRegistry) (ctx : Ctx) (cmd : option Command) w
    : World U * outcome :=
  match cmd with
  | None => (w, failed ErrNilCommand)
  | Some cmd =>
      match HandlerRegistry_Get (cmd_CommandType cmd) registry with
      | None => (w, failed (HandlerNotFoundError (cmd_CommandType cmd)))
      | Some handler => ch_Handle handler ctx cmd w
      end
  end.

(** ** Middleware chains *)

(** [for i := len(middleware) - 1; i >= 0; i-- { next = middleware[i](next) }] *)
Fixpoint chainFrom (i : nat) (middleware : list Middleware) (next : MiddlewareFunc) : MiddlewareFunc :=
  match i with
  | 0%nat => next
  | S i => chainFrom i middleware (match middleware !! i with Some m => m next | None => next end)
  end.

Definition ChainMiddleware (middleware : list Middleware) : Middleware := λ next,
  chainFrom (length middleware) middleware next.

(** ** The bus *)

Record CommandBus := mkCommandBus {
  cb_registry : HandlerRegistry;
  cb_middleware : list Middleware;
  cb_closed : bool;
}.

Inductive CommandBusOption :=
| WithMiddleware (middleware : list Middleware)
| WithHandlerRegistry (registry : HandlerRegistry).

Definition applyBusOption (b : CommandBus) (o : CommandBusOption) : CommandBus :=
  match o with
  | WithMiddleware middleware => mkCommandBus (cb_registry b) (cb_middleware b ++ middleware) (cb_closed b)
  | WithHandlerRegistry registry => mkCommandBus registry (cb_middleware b) (cb_closed b)
  end.

Definition NewCommandBus (opts : list CommandBusOption) : CommandBus :=
  foldl applyBusOption (mkCommandBus NewHandlerRegistry [] false) opts.

Definition Register (handler : CommandHandler) (b : CommandBus) : CommandBus :=
  mkCommandBus (HandlerRegistry_Register handler (cb_registry b)) (cb_middleware b) (cb_closed b).
Definition RegisterFunc (cmdType : string) (fn : MiddlewareFunc) : CommandBus → CommandBus :=
  Register (NewCommandHandlerFunc cmdType fn).
Definition Use (middleware : list Middleware) (b : CommandBus) : CommandBus :=
  mkCommandBus (cb_registry b) (cb_middleware b ++ middleware) (cb_closed b).
Definition HasHandler (cmdType : string) (b : CommandBus) : bool := Has cmdType (cb_registry b).
Definition HandlerCount (b : CommandBus) : Z := Count (cb_registry b).
Definition MiddlewareCount (b : CommandBus) : Z := Z.of_nat (length (cb_middleware b)).
Definition IsClosed (b : CommandBus) : bool := cb_closed b.

(** The chain is built from what the bus held when the command arrived. *)
Definition Dispatch (b : CommandBus) (ctx : Ctx) (cmd : option Command) w : World U * outcome :=
  match cmd with
  | None => (w, failed ErrNilCommand)
  | Some cmd =>
      if cb_closed b then (w, failed ErrCommandBusClosed)
      else
        match HandlerRegistry_Get (cmd_CommandType cmd) (cb_registry b) with
        | None => (w, failed (HandlerNotFoundError (cmd_CommandType cmd)))
        | Some handler => ChainMiddleware (cb_middleware b) (ch_Handle handler) ctx cmd w
        end
  end.

Record DispatchResult := mkDispatchResult { dr_CommandResult : CommandResult; dr_Error : option error }.

Definition DispatchResult_IsSuccess (r : DispatchResult) : bool :=
  bool_decide (dr_Error r = None) && IsSuccess (dr_CommandResult r).

(** One after the other; a context that is done stops the rest. *)
Fixpoint dispatchEach (envs : Ctx → nat → Env) (b : CommandBus) (ctx : Ctx) (cmds : list (option Command))
    (results : list DispatchResult) w : World U * panics (list DispatchResult * option error) :=
  match cmds with
  | [] => (w, Returned (results, None))
  | cmd :: cmds =>
      match Dispatch b ctx cmd w with
      | (w, Panicked v) => (w, Panicked v)
      | (w, Returned (result, err)) =>
          let results := results ++ [mkDispatchResult result err] in
          match ctx_Err (envs ctx (bw_calls w)) with
          | Some err => (tick w, Returned (results, Some err))
          | None => dispatchEach envs b ctx cmds results (tick w)
          end
      end
  end.

Definition DispatchAll (envs : Ctx → nat → Env) (b : CommandBus) (ctx : Ctx) (cmds : list (option Command)) w
    : World U * panics (list DispatchResult * option error) :=
  dispatchEach envs b ctx cmds [] w.
End Bus.

Arguments MiddlewareFunc : clear implicits.
Arguments Middleware : clear implicits.
Arguments CommandHandler : clear implicits.
Arguments HandlerRegistry : clear implicits.
Arguments CommandBus : clear implicits.
Arguments CommandBusOption : clear implicits.

(** ** Lemmas *)

Section Chain.
Context {U : Type}.
Implicit Types (ms : list (Middleware U)) (next : MiddlewareFunc U).

Lemma chainFrom_S i ms next :
  chainFrom (S i) ms next = chainFrom i ms (match ms !! i with Some m => m next | None => next end).
Proof. reflexivity. Qed.

Lemma chainFrom_app ms ms' i next :
  (i ≤ length ms)%nat → chainFrom i (ms ++ ms') next = chainFrom i ms next.
Proof.
  revert next. induction i as [|i IH]; intros next Hi; [done|]. rewrite !chainFrom_S, lookup_app_l by exact Hi. apply IH. by apply Nat.lt_le_incl.
Qed.

(** The first middleware is the outermost. *)
Lemma ChainMiddleware_foldr ms next : ChainMiddleware ms next = foldr (λ m next, m next) next ms.
Proof.
  unfold ChainMiddleware. revert next. induction ms as [|m ms IH] using rev_ind; intros next; [done|].
  rewrite length_app, foldr_app, Nat.add_1_r, chainFrom_S, lookup_app_r, Nat.sub_diag by done.
  rewrite chainFrom_app by done. apply IH.
Qed.

Lemma ChainMiddleware_app ms ms' next :
  ChainMiddleware (ms ++ ms') next = ChainMiddleware ms (ChainMiddleware ms' next).
Proof. by rewrite !ChainMiddleware_foldr, foldr_app. Qed.

Lemma ChainMiddleware_cons m ms next : ChainMiddleware (m :: ms) next = m (ChainMiddleware ms next).
Proof. by rewrite !ChainMiddleware_foldr. Qed.
End Chain.

#[export] Hint Rewrite @ChainMiddleware_cons : mink_rw.
