(* ===== verification/BusClose.v ===== *)
(** * Closing a bus that is in use

    [CommandBus.Dispatch] and [CommandBus.Close] of [src/bus.go] from any number
    of goroutines: the read-write lock, the closed flag and the wait group, one
    step per operation on them.  What a handler does while it runs is left open. *)

From S2P Require Import Prelude.
From S2P Require Import Types.
From S2P Require Import Command.
From S2P Require Import CommandBus.

(** Where a goroutine is in [Dispatch], [Close], or a registration. *)
Inductive pc :=
| DStart              (* before b.mu.RLock *)
| DLocked             (* holding the read lock *)
| DChecked            (* saw that the bus is open *)
| DCounted            (* after b.inFlight.Add(1), still locked *)
| DRunning            (* unlocked, in the chain *)
| DDone               (* after b.inFlight.Done *)
| DClosed             (* saw that the bus is closed, still locked *)
| DRejected           (* returned ErrCommandBusClosed *)
| CStart              (* before b.mu.Lock *)
| CLocked
| CStored             (* after b.closed.Store(true) *)
| CWaiting            (* unlocked, in b.inFlight.Wait *)
| CReturned
| RStart | RLocked | RDone. (* Register, Use *)

#[export] Instance pc_eq_dec : EqDecision pc.
Proof. solve_decision. Defined.

Record busState := mkBusState { bs_closed : bool; bs_inFlight : Z; bs_threads : list pc }.

Definition reading (p : pc) : bool :=
  match p with DLocked | DChecked | DCounted | DClosed => true | _ => false end.
Definition writing (p : pc) : bool := match p with CLocked | CStored | RLocked => true | _ => false end.
(** Counted by the wait group. *)
Definition counted (p : pc) : bool := match p with DCounted | DRunning => true | _ => false end.
(** Past the store of [Close]. *)
Definition stored (p : pc) : bool := match p with CStored | CWaiting | CReturned => true | _ => false end.

Definition mayRLock (s : busState) : bool := forallb (λ p, negb (writing p)) (bs_threads s).
Definition mayLock (s : busState) : bool := forallb (λ p, negb (writing p) && negb (reading p)) (bs_threads s).

(** The next step of a goroutine, when it is not blocked: the flag, the count
    and where it goes. *)
Definition next (s : busState) (p : pc) : option (bool * Z * pc) :=
  let stay p := Some (bs_closed s, bs_inFlight s, p) in
  match p with
  | DStart => if mayRLock s then stay DLocked else None
  | DLocked => stay (if bs_closed s then DClosed else DChecked)
  | DChecked => Some (bs_closed s, bs_inFlight s + 1, DCounted)
  | DCounted => stay DRunning
  | DRunning => Some (bs_closed s, bs_inFlight s - 1, DDone)
  | DClosed => stay DRejected
  | CStart => if mayLock s then stay CLocked else None
  | CLocked => Some (true, bs_inFlight s, CStored)
  | CStored => stay CWaiting
  | CWaiting => if bs_inFlight s =? 0 then stay CReturned else None
  | RStart => if mayLock s then stay RLocked else None
  | RLocked => stay RDone
  | DDone | DRejected | CReturned | RDone => None
  end.

(** Goroutines may start at any time. *)
Inductive step : busState → busState → Prop :=
| step_start s p : p = DStart ∨ p = CStart ∨ p = RStart →
    step s (mkBusState (bs_closed s) (bs_inFlight s) (bs_threads s ++ [p]))
| step_next s i p closed n p' : bs_threads s !! i = Some p → next s p = Some (closed, n, p') →
    step s (mkBusState closed n (<[i := p']> (bs_threads s))).

Definition initial : busState := mkBusState false 0 [].

Inductive reachable : busState → Prop :=
| reach_initial : reachable initial
| reach_step s s' : reachable s → step s s' → reachable s'.

(** ** The invariant *)

Definition tally (f : pc → bool) (l : list pc) : Z := Z.of_nat (length (filter (λ p, f p = true) l)).

Lemma tally_cons f p l : tally f (p :: l) = Z.b2z (f p) + tally f l.
Proof. unfold tally. rewrite filter_cons. destruct (f p); case_decide; cbn [length Z.b2z]; done || lia. Qed.

Lemma tally_snoc f l p : tally f (l ++ [p]) = tally f l + Z.b2z (f p).
Proof. induction l as [|q l IH]; cbn [app]; rewrite !tally_cons, ?IH; unfold tally; cbn; lia. Qed.

Lemma tally_nonneg f l : 0 ≤ tally f l.
Proof. unfold tally. lia. Qed.

Lemma tally_insert f l i p p' : l !! i = Some p →
  tally f (<[i := p']> l) = tally f l - Z.b2z (f p) + Z.b2z (f p').
Proof.
  revert i. induction l as [|q l IH]; intros [|i] Hi; [done|done|injection Hi as ->; cbn [insert list_insert]|].
  - rewrite !tally_cons. lia.
  - change (<[S i := p']> (q :: l)) with (q :: <[i := p']> l). rewrite !tally_cons, (IH i) by exact Hi. lia.
Qed.

Lemma tally_pos f l i p : l !! i = Some p → Z.b2z (f p) ≤ tally f l.
Proof.
  revert i. induction l as [|q l IH]; intros [|i] Hi; [done|done|..]; rewrite tally_cons; pose proof (tally_nonneg f l).
  - injection Hi as ->. lia.
  - specialize (IH i Hi). destruct (f q); cbn [Z.b2z] in *; lia.
Qed.

Lemma tally_zero f l : tally f l = 0 → ∀ i p, l !! i = Some p → f p = false.
Proof. intros H i p Hi. pose proof (tally_pos f l i p Hi). destruct (f p); [cbn in *; lia|done]. Qed.

Record bus_wf (s : busState) : Prop := mkBusWf {
  bw_count : bs_inFlight s = tally counted (bs_threads s);
  bw_open : bs_closed s = false → tally stored (bs_threads s) = 0;
  bw_excl : 0 < tally writing (bs_threads s) → tally reading (bs_threads s) = 0 ∧ tally writing (bs_threads s) = 1;
  bw_checked : bs_closed s = true → ∀ i, bs_threads s !! i ≠ Some DChecked;
  bw_drained : ∀ i, bs_threads s !! i = Some CReturned → bs_closed s = true ∧ bs_inFlight s = 0;
}.

Lemma mayLock_tally s : mayLock s = true → tally writing (bs_threads s) = 0 ∧ tally reading (bs_threads s) = 0.
Proof.
  unfold mayLock. induction (bs_threads s) as [|p l IH]; [done|]. cbn [forallb].
  rewrite !andb_true_iff, !negb_true_iff, !tally_cons. intros [[-> ->] Hl]. apply IH in Hl. cbn. lia.
Qed.

Lemma mayRLock_tally s : mayRLock s = true → tally writing (bs_threads s) = 0.
Proof.
  unfold mayRLock. induction (bs_threads s) as [|p l IH]; [done|]. cbn [forallb].
  rewrite andb_true_iff, negb_true_iff, tally_cons. intros [-> Hl]. apply IH in Hl. cbn. lia.
Qed.

Lemma lookup_snoc_old {A} (l : list A) x y i : y ≠ x → (l ++ [x]) !! i = Some y → l !! i = Some y.
Proof.
  intros Hne Hl. apply lookup_app_Some in Hl as [Hl|[_ Hl]]; [done|].
  apply list_lookup_singleton_Some in Hl as [_ ->]. done.
Qed.

Lemma lookup_insert_old {A} (l : list A) i j x y : y ≠ x → <[i := x]> l !! j = Some y → l !! j = Some y.
Proof. intros Hne Hl. by apply list_lookup_insert_Some in Hl as [(_ & -> & _)|[_ Hl]]. Qed.

Lemma start_wf s p : p = DStart ∨ p = CStart ∨ p = RStart → bus_wf s →
  bus_wf (mkBusState (bs_closed s) (bs_inFlight s) (bs_threads s ++ [p])).
Proof.
  intros Hp [Hc Ho He Hk Hd].
  assert (counted p = false ∧ stored p = false ∧ writing p = false ∧ reading p = false ∧ p ≠ DChecked ∧ p ≠ CReturned)
    as (E1 & E2 & E3 & E4 & E5 & E6) by (destruct Hp as [->|[->| ->]]; done).
  split; cbn; rewrite ?tally_snoc, ?E1, ?E2, ?E3, ?E4; cbn [Z.b2z]; rewrite ?Z.add_0_r; try done.
  - intros Hcl i Hi. eapply (Hk Hcl i), lookup_snoc_old; [|exact Hi]. done.
  - intros i Hi. apply (Hd i). eapply lookup_snoc_old; [|exact Hi]. done.
Qed.

(** What every step leaves to show once the tallies are computed. *)
Ltac tallies Hi :=
  rewrite ?(tally_insert _ _ _ _ _ Hi); cbn [counted stored writing reading Z.b2z].

Lemma next_wf s i p closed n p' :
  bs_threads s !! i = Some p → next s p = Some (closed, n, p') → bus_wf s →
  bus_wf (mkBusState closed n (<[i := p']> (bs_threads s))).
Proof.
  intros Hi Hn [Hc Ho He Hk Hd].
  pose proof (tally_pos counted _ _ _ Hi) as Pc. pose proof (tally_pos stored _ _ _ Hi) as Ps.
  pose proof (tally_pos writing _ _ _ Hi) as Pw. pose proof (tally_pos reading _ _ _ Hi) as Pr.
  pose proof (tally_nonneg writing (bs_threads s)) as Nw.
  assert (p' ≠ DChecked → ∀ cl, cl = bs_closed s ∨ p = CLocked → cl = true → ∀ j, <[i := p']> (bs_threads s) !! j ≠ Some DChecked) as Hkeep.
  { intros Hne cl Hcl E j Hj. apply lookup_insert_old in Hj; [|done]. destruct Hcl as [->| ->]; [by eapply Hk|].
    cbn [writing Z.b2z] in Pw. destruct He as [He _]; [lia|]. by pose proof (tally_zero reading _ He j _ Hj). }
  assert (p' ≠ CReturned → p ≠ DChecked → p ≠ DRunning → n = bs_inFlight s → closed = bs_closed s ∨ closed = true →
    ∀ j, <[i := p']> (bs_threads s) !! j = Some CReturned → closed = true ∧ n = 0) as Hret.
  { intros Hne Hp1 Hp2 -> Hcl j Hj. apply lookup_insert_old in Hj; [|done]. destruct (Hd j Hj) as [? ?].
    destruct Hcl as [->| ->]; by split. }
  destruct p; cbn in Hn; try discriminate Hn;
    repeat match type of Hn with context [if ?b then _ else _] => destruct b eqn:? end; try discriminate Hn;
    injection Hn as <- <- <-;
    try match goal with H : mayRLock _ = true |- _ => apply mayRLock_tally in H end;
    try match goal with H : mayLock _ = true |- _ => apply mayLock_tally in H as [? ?] end;
    cbn [counted stored writing reading Z.b2z] in *;
    (split; cbn [bs_closed bs_inFlight bs_threads]; tallies Hi;
      [lia
      |intros Hcl; try discriminate Hcl; specialize (Ho Hcl); lia
      |lia
      |try (apply Hkeep; [done|]; first [by left|by right]); try congruence
      |try (apply Hret; [done|done|done|done|first [by left|by right]])]).
  all: try (intros j Hj; destruct (bs_closed s) eqn:Ecl; [|specialize (Ho eq_refl); lia]; zbool; by split).
  all: intros j Hj; apply lookup_insert_old in Hj; [|done]; destruct (Hd j Hj) as [Ecl Hz]; exfalso; first [by eapply Hk|lia].
Qed.

Lemma bus_reachable_wf s : reachable s → bus_wf s.
Proof.
  induction 1 as [|s s' _ IH Hs]; [by split|].
  destruct Hs as [s p Hp|s i p closed n p' Hi Hn]; [by apply start_wf|by eapply next_wf].
Qed.

(** ** The guarantee *)

(** Some goroutine can go on, or all are done. *)
Definition finished (p : pc) : bool := match p with DDone | DRejected | CReturned | RDone => true | _ => false end.
Definition canStep (s : busState) : Prop := ∃ i p, bs_threads s !! i = Some p ∧ next s p ≠ None.

Lemma tally_exists f l : 0 < tally f l → ∃ i p, l !! i = Some p ∧ f p = true.
Proof.
  unfold tally. intros H. destruct (filter (λ p, f p = true) l) as [|p k] eqn:E; [cbn in H; lia|].
  assert (p ∈ filter (λ p, f p = true) l) as Hin by (rewrite E; left).
  apply list_elem_of_filter in Hin as [Hf Hin]. apply list_elem_of_lookup in Hin as [i Hi]. by exists i, p.
Qed.

Lemma mayLock_false s : mayLock s = false → ∃ i p, bs_threads s !! i = Some p ∧ writing p || reading p = true.
Proof.
  unfold mayLock. intros H. apply (tally_exists (λ p, writing p || reading p)). revert H.
  induction (bs_threads s) as [|p l IH]; [done|]. cbn [forallb]. rewrite tally_cons.
  pose proof (tally_nonneg (λ p, writing p || reading p) l). destruct (writing p), (reading p); cbn; try lia. exact IH.
Qed.

Lemma mayRLock_false s : mayRLock s = false → ∃ i p, bs_threads s !! i = Some p ∧ writing p = true.
Proof.
  unfold mayRLock. intros H. apply (tally_exists writing). revert H.
  induction (bs_threads s) as [|p l IH]; [done|]. cbn [forallb]. rewrite tally_cons.
  pose proof (tally_nonneg writing l). destruct (writing p); cbn; try lia. exact IH.
Qed.

(** Who holds the lock can go on. *)
Lemma holder_steps s i p : bs_threads s !! i = Some p → writing p || reading p = true → canStep s.
Proof. intros Hi Hp. exists i, p. split; [done|]. by destruct p; cbn in *. Qed.

Lemma progress s : bus_wf s → (∀ i p, bs_threads s !! i = Some p → finished p = true) ∨ canStep s.
Proof.
  intros [Hc _ _ _ _]. destruct (decide (tally (λ p, negb (finished p)) (bs_threads s) = 0)) as [Hz|Hz].
  { left. intros i p Hi. pose proof (tally_zero _ _ Hz i p Hi) as Hf. cbn in Hf. by apply negb_false_iff. }
  right. pose proof (tally_nonneg (λ p, negb (finished p)) (bs_threads s)).
  destruct (tally_exists (λ p, negb (finished p)) (bs_threads s) ltac:(lia)) as (i & p & Hi & Hp).
  destruct (next s p) eqn:En; [by exists i, p; rewrite En|].
  destruct p; cbn in Hp, En; try discriminate;
    repeat match type of En with context [if ?b then _ else _] => destruct b eqn:? end; try discriminate.
  - destruct (mayRLock_false s) as (j & q & Hj & Hq); [done|]. eapply holder_steps; [exact Hj|]. by rewrite Hq.
  - destruct (mayLock_false s) as (j & q & Hj & Hq); [done|]. by eapply holder_steps.
  - zbool. pose proof (tally_nonneg counted (bs_threads s)).
    destruct (tally_exists counted (bs_threads s) ltac:(lia)) as (j & q & Hj & Hq).
    exists j, q. split; [done|]. by destruct q; cbn in *.
  - destruct (mayLock_false s) as (j & q & Hj & Hq); [done|]. by eapply holder_steps.
Qed.

(** C32: closing drains the bus.  Whatever the interleaving of dispatches,
    registrations and closes, once a [Close] has returned no dispatch is in its
    chain and none ever enters it again, so a handler never runs after
    [Close]; a dispatch that starts then is rejected; and the goroutines never
    block one another for ever. *)
Theorem bus_close_drains (s : busState) :
  reachable s →
  ((∃ i, bs_threads s !! i = Some CReturned) →
     ∀ s', rtc step s s' → bs_inFlight s' = 0 ∧
       (∀ j p, bs_threads s' !! j = Some p → counted p = false ∧ p ≠ DChecked) ∧
       ∀ j closed n p', bs_threads s' !! j = Some DLocked → next s' DLocked = Some (closed, n, p') → p' = DClosed) ∧
  ((∀ i p, bs_threads s !! i = Some p → finished p = true) ∨ canStep s).
Proof.
  intros Hr. split.
  - intros [i Hi] s' Hs.
    assert (reachable s' ∧ bs_threads s' !! i = Some CReturned) as [Hr' Hi'].
    { induction Hs as [s|s s1 s' Hstep _ IH]; [by split|]. apply IH; [by eapply reach_step|].
      destruct Hstep as [s p _|s j p c n p' Hj Hn]; cbn; [by apply lookup_app_l_Some|].
      rewrite list_lookup_insert_ne; [done|]. intros ->. rewrite Hi in Hj. by injection Hj as <-. }
    pose proof (bus_reachable_wf s' Hr') as [Hc Ho He Hk Hd]. destruct (Hd i Hi') as [Hcl Hz]. split; [done|]. split.
    + intros j p Hj. split; [|intros ->; by eapply Hk]. apply (tally_zero counted (bs_threads s') ltac:(lia) j p Hj).
    + intros j c n p' _ Hn. cbn in Hn. rewrite Hcl in Hn. by injection Hn.
  - by apply progress, bus_reachable_wf.
Qed.

(** ** Witness *)

(** A schedule: who starts or goes on. *)
Inductive turn := StartDispatch | StartClose | GoOn (i : nat).

Definition take_turn (t : turn) (s : busState) : option busState :=
  let start p := Some (mkBusState (bs_closed s) (bs_inFlight s) (bs_threads s ++ [p])) in
  match t with
  | StartDispatch => start DStart
  | StartClose => start CStart
  | GoOn i =>
      p ← bs_threads s !! i;
      '(closed, n, p') ← next s p;
      Some (mkBusState closed n (<[i := p']> (bs_threads s)))
  end.

Definition schedule (l : list turn) : option busState := foldl (λ s t, s ≫= take_turn t) (Some initial) l.

Lemma schedule_reachable l s : schedule l = Some s → reachable s.
Proof.
  unfold schedule. revert s. induction l as [|t l IH] using rev_ind; intros s Hs.
  - injection Hs as <-. constructor.
  - rewrite foldl_app in Hs. cbn in Hs. apply bind_Some in Hs as (s1 & H1 & Ht).
    apply (reach_step s1); [by apply IH|]. destruct t as [| |i]; cbn in Ht.
    1, 2: injection Ht as <-; apply step_start; tauto.
    apply bind_Some in Ht as (p & Hp & Ht). apply bind_Some in Ht as ([[c n] p'] & Hn & Ht).
    injection Ht as <-. by eapply step_next.
Qed.

(** Two dispatches race with a [Close]: one is drained, the other is refused. *)
Definition race : list turn :=
  [StartDispatch; StartClose; StartDispatch; GoOn 0; GoOn 0; GoOn 0; GoOn 0; GoOn 1; GoOn 1; GoOn 1; GoOn 0; GoOn 1].

Lemma race_reachable : reachable (mkBusState true 0 [DDone; CReturned; DStart]).
Proof. apply (schedule_reachable race). vm_compute. reflexivity. Qed.

Lemma bus_close_drains_witness :
  let s := mkBusState true 0 [DDone; CReturned; DStart] in
  bs_inFlight s = 0 ∧ canStep s.
Proof.
  intros s. destruct (bus_close_drains s race_reachable) as [H Hp]. split.
  - apply (H (ex_intro _ 1%nat eq_refl) s (rtc_refl _ _)).
  - destruct Hp as [Hp|Hp]; [|exact Hp]. specialize (Hp 2%nat DStart eq_refl). discriminate Hp.
Defined.
