(* ===== verification/Middleware.v ===== *)
(** * Middleware

    [src/middleware.go], with the panic errors of [src/errors.go]: validation,
    recovery, logging, timeouts, retries, metrics, the context identifiers and
    the conditional combinators.  [envs ctx n] is what the [n]-th outside call
    sees through [ctx]. *)

From S2P Require Import Prelude.
From S2P Require Import Types.
From S2P Require Import Json.
From S2P Require Import Strconv.
From S2P Require Import Command.
From S2P Require Import CommandBus.

(** ** Panics *)

Definition redacted (type : string) : string := "redacted panic value of type " +:+ type.

(** [PanicValueSummary]: the message of a runtime error, only the type of
    anything else. *)
Definition PanicValueSummary (v : panicValue) : string :=
  match v with
  | PanicNil => "nil panic value"
  | PanicNilPointer type => redacted type +:+ " (nil)"
  | PanicRuntimeError type (Some msg) => type +:+ ": " +:+ msg
  | PanicRuntimeError type None => redacted type
  | PanicString _ => redacted "string"
  | PanicOther type _ => redacted type
  end.

Record recoveryConfig := mkRecoveryConfig { rc_captureCommand : bool; rc_captureValue : bool }.

Inductive RecoveryOption := WithPanicCommandCapture | WithPanicValueCapture.

Definition applyRecoveryOption (c : recoveryConfig) (o : RecoveryOption) : recoveryConfig :=
  match o with
  | WithPanicCommandCapture => mkRecoveryConfig true (rc_captureValue c)
  | WithPanicValueCapture => mkRecoveryConfig (rc_captureCommand c) true
  end.

(** [string(data)] *)
Definition stringOf (bytes : list Z) : string := String.concat "" (str1 <$> bytes).

Definition panicCommandData (cmd : Command) (full : bool) : string :=
  if full then match cmd_json cmd with Err _ => "" | Ok data => stringOf data end
  else
    let aggregateID := default "" (cmd_AggregateID cmd) in
    print (JObject (("commandType", JString (cmd_CommandType cmd)) ::
      (if bool_decide (aggregateID = "") then [] else [("aggregateId", JString aggregateID)]))).

Definition newRecoveredPanicError (cmd : Command) (r : panicValue) (stack : string) (cfg : recoveryConfig) : error :=
  let summary := PanicValueSummary r in
  PanicError (cmd_CommandType cmd) (if rc_captureValue cfg then r else PanicString summary)
    (if rc_captureValue cfg then summary else "") stack (panicCommandData cmd (rc_captureCommand cfg)).

(** [PanicError.Error] prints the type of the command and this. *)
Definition valueSummary (value : panicValue) (summary : string) : string :=
  if negb (bool_decide (summary = "")) then summary
  else match value with PanicString s => s | _ => PanicValueSummary value end.

(** ** Configuration *)

Record RetryConfig := mkRetryConfig {
  rt_MaxAttempts : Z;
  rt_InitialDelay : Duration;
  rt_MaxDelay : Duration;
  rt_Multiplier : float64;
  rt_ShouldRetry : option (option error → bool);
}.

Definition Millisecond : Duration := 1000000.

Definition DefaultRetryConfig : RetryConfig :=
  mkRetryConfig 3 (100 * Millisecond) (5000 * Millisecond) (float64OfInt 2) None.

Definition retryDefaults (c : RetryConfig) : RetryConfig :=
  mkRetryConfig
    (if rt_MaxAttempts c <=? 0 then 1 else rt_MaxAttempts c)
    (if rt_InitialDelay c <=? 0 then 100 * Millisecond else rt_InitialDelay c)
    (if rt_MaxDelay c <=? 0 then 5000 * Millisecond else rt_MaxDelay c)
    (if float64NonPositive (rt_Multiplier c) then float64OfInt 1 else rt_Multiplier c)
    (rt_ShouldRetry c).

Definition nextDelay `{FloatConversion} (c : RetryConfig) (delay : Duration) : Duration :=
  let delay := int64OfFloat (float64Mul (float64OfInt delay) (rt_Multiplier c)) in
  if rt_MaxDelay c <? delay then rt_MaxDelay c else delay.

(** The error the retry policy is asked about, and the recorder told. *)
Definition resultError (result : CommandResult) (err : option error) : option error :=
  match err with Some _ => err | None => cr_Error result end.

Inductive logValue := LogString (s : string) | LogDuration (d : Duration) | LogError (e : option error) | LogInt (z : Z).

(** [Logger]: what its methods do to the state. *)
Record Logger (U : Type) := mkLogger {
  lg_Debug : string → list (string * logValue) → U → U;
  lg_Info : string → list (string * logValue) → U → U;
  lg_Warn : string → list (string * logValue) → U → U;
  lg_Error : string → list (string * logValue) → U → U;
}.
Arguments mkLogger {U} _ _ _ _.
Arguments lg_Debug {U} _.
Arguments lg_Info {U} _.
Arguments lg_Warn {U} _.
Arguments lg_Error {U} _.

(** ** The middleware *)

Section Middleware.
Context {U : Type} `{FloatConversion} (envs : Ctx → nat → Env) (debug_Stack : nat → string).
Implicit Types (w : World U) (next : MiddlewareFunc U).

Definition here (ctx : Ctx) w : Env := envs ctx (bw_calls w).
Definition now (ctx : Ctx) w : Time := time_Now (here ctx w) 0.
Definition update (f : U → U) w : World U := set_state (f (bw_state w)) w.

Definition ValidationMiddleware : Middleware U := λ next ctx cmd w,
  match cmd_Validate cmd with
  | Some err => (w, failed err)
  | None => next ctx cmd w
  end.

(** A recovered panic replaces the named results; [recover] reports none for a
    nil value, which the runtime does not produce. *)
Definition RecoveryMiddlewareWithOptions (opts : list RecoveryOption) : Middleware U :=
  let cfg := foldl applyRecoveryOption (mkRecoveryConfig false false) opts in
  λ next ctx cmd w,
    match next ctx cmd w with
    | (w, Panicked PanicNil) => (w, Returned (mkCommandResult false "" 0 None None, None))
    | (w, Panicked r) => (tick w, failed (newRecoveredPanicError cmd r (debug_Stack (bw_calls w)) cfg))
    | (w, Returned r) => (w, Returned r)
    end.

Definition RecoveryMiddleware : Middleware U := RecoveryMiddlewareWithOptions [].

Definition LoggingMiddleware (logger : Logger U) : Middleware U := λ next ctx cmd w,
  let start := now ctx w in
  let w := update (lg_Info logger "Dispatching command" [("type", LogString (cmd_CommandType cmd))]) (tick w) in
  match next ctx cmd w with
  | (w, Panicked v) => (w, Panicked v)
  | (w, Returned (result, err)) =>
      let duration := i64 (now ctx w - start) in
      let fields := [("type", LogString (cmd_CommandType cmd)); ("duration", LogDuration duration)] in
      let log :=
        match err with
        | Some _ => lg_Error logger "Command failed" (fields ++ [("error", LogError err)])
        | None =>
            if IsError result then
              lg_Warn logger "Command returned error result" (fields ++ [("error", LogError (cr_Error result))])
            else
              lg_Info logger "Command completed"
                (fields ++ [("aggregateId", LogString (cr_AggregateID result)); ("version", LogInt (cr_Version result))])
        end in
      (update log (tick w), Returned (result, err))
  end.

Definition TimeoutMiddleware (timeout : Duration) : Middleware U := λ next ctx cmd w,
  next (WithTimeout (now ctx w) timeout ctx) cmd (tick w).

(** The loop: the attempts remaining, the attempt, the delay and the last outcome. *)
Fixpoint retryLoop (config : RetryConfig) next (ctx : Ctx) (cmd : Command) (remaining : nat) (attempt : Z) (delay : Duration)
    (last : CommandResult * option error) w : World U * outcome :=
  match remaining with
  | 0%nat => (w, Returned last)
  | S remaining =>
      match next ctx cmd w with
      | (w, Panicked v) => (w, Panicked v)
      | (w, Returned (result, err)) =>
          if bool_decide (err = None) && IsSuccess result then (w, Returned (result, None))
          else if attempt =? rt_MaxAttempts config then (w, Returned (result, err))
          else if negb (match rt_ShouldRetry config with Some retry => retry (resultError result err) | None => true end)
          then (w, Returned (result, err))
          else if ctx_Done (here ctx w) 0 then (tick w, failed (ctx_DoneErr (here ctx w)))
          else
            retryLoop config next ctx cmd remaining (attempt + 1) (nextDelay config delay) (result, err)
              (mkWorld (S (bw_calls w)) (bw_waits w ++ [delay]) (bw_state w))
      end
  end.

Definition RetryMiddleware (config : RetryConfig) : Middleware U :=
  let config := retryDefaults config in
  λ next ctx cmd w,
    retryLoop config next ctx cmd (Z.to_nat (rt_MaxAttempts config)) 1 (rt_InitialDelay config)
      (mkCommandResult false "" 0 None None, None) w.

(** [RecordCommand]: the type, the duration, the success, the error. *)
Definition MetricsMiddleware (record : string → Duration → bool → option error → U → U) : Middleware U := λ next ctx cmd w,
  let start := now ctx w in
  match next ctx cmd (tick w) with
  | (w, Panicked v) => (w, Panicked v)
  | (w, Returned (result, err)) =>
      let duration := i64 (now ctx w - start) in
      (update (record (cmd_CommandType cmd) duration (bool_decide (err = None) && IsSuccess result) (resultError result err))
         (tick w), Returned (result, err))
  end.

Definition ContextValueMiddleware (key : ctxKey) (value : string) : Middleware U := λ next ctx cmd w,
  next (WithValue key value ctx) cmd w.

(** The generator, or a random uuid. *)
Definition CorrelationIDMiddleware (generator : option (U → U * string)) : Middleware U := λ next ctx cmd w,
  if negb (bool_decide (CorrelationIDFromContext ctx = "")) then next ctx cmd w
  else
    let correlationID := default "" (cmd_GetCorrelationID cmd) in
    if negb (bool_decide (correlationID = "")) then next (WithValue correlationIDKey correlationID ctx) cmd w
    else
      match generator with
      | Some generate =>
          let '(u, id) := generate (bw_state w) in next (WithValue correlationIDKey id ctx) cmd (set_state u w)
      | None => next (WithValue correlationIDKey (uuid_New (here ctx w) 0) ctx) cmd (tick w)
      end.

Definition CausationIDMiddleware : Middleware U := λ next ctx cmd w,
  if negb (bool_decide (CausationIDFromContext ctx = "")) then next ctx cmd w
  else
    let causationID := default "" (cmd_GetCausationID cmd) in
    let causationID := if bool_decide (causationID = "") then default "" (cmd_GetCommandID cmd) else causationID in
    next (if bool_decide (causationID = "") then ctx else WithCausationID ctx causationID) cmd w.

Definition TenantMiddleware (extractor : option (Command → string)) (required : bool) : Middleware U := λ next ctx cmd w,
  if negb (bool_decide (TenantIDFromContext ctx = "")) then next ctx cmd w
  else
    let tenantID := match extractor with Some extract => extract cmd | None => "" end in
    if bool_decide (tenantID = "") && required then
      (w, failed (NewValidationError (cmd_CommandType cmd) "tenantId" "tenant ID is required"))
    else next (if bool_decide (tenantID = "") then ctx else WithTenantID ctx tenantID) cmd w.

Definition ConditionalMiddleware (condition : Command → bool) (middleware : Middleware U) : Middleware U := λ next ctx cmd w,
  if condition cmd then middleware next ctx cmd w else next ctx cmd w.

Definition CommandTypeMiddleware (types : list string) (middleware : Middleware U) : Middleware U :=
  ConditionalMiddleware (λ cmd, bool_decide (cmd_CommandType cmd ∈ types)) middleware.
End Middleware.
