(* ===== verification/IdempotentBus.v ===== *)
(** * Idempotent commands on the bus

    [IdempotencyMiddleware] of [src/idempotency.go] as one middleware among the
    others: its program ([Idempotency.prog]) run over a store in the state of the
    bus, the handler being the rest of the chain. *)

From S2P Require Import Prelude.
From S2P Require Import Types.
From S2P Require Import Strconv.
From S2P Require Import Command.
From S2P Require Import IdempotencyStore.
From S2P Require Import Idempotency.
From S2P Require Import CommandBus.
From S2P Require Import Middleware.

(** [IdempotencyStore], the interface. *)
Record IdempotencyOps (U : Type) := mkIdempotencyOps {
  io_Get : Env → string → U → U * res (option IdempotencyRecord);
  io_StoreIfAbsent : Env → IdempotencyRecord → U → U * res bool;
  io_Store : Env → IdempotencyRecord → U → U * res unit;
  io_Delete : Env → string → U → U * res unit;
}.
Arguments mkIdempotencyOps {U} _ _ _ _.
Arguments io_Get {U} _.
Arguments io_StoreIfAbsent {U} _.
Arguments io_Store {U} _.
Arguments io_Delete {U} _.

Definition DefaultIdempotencyScope (ctx : Ctx) (cmd : Command) : string := TenantIDFromContext ctx.

Section Middleware.
Context {U : Type} `{ErrorText} (envs : Ctx → nat → Env) (store : IdempotencyOps U).
Implicit Types (w : World U) (next : MiddlewareFunc U).

(** A call of the store. *)
Definition call {R} (f : Env → U → U * R) (ctx : Ctx) w : World U * R :=
  let '(u, r) := f (here envs ctx w) (bw_state w) in (tick (set_state u w), r).

Fixpoint runProg next (ctx : Ctx) (cmd : Command) (p : prog) w : World U * outcome :=
  match p with
  | PRet result err => (w, Returned (result, err))
  | PNow k => runProg next ctx cmd (k (now envs ctx w)) (tick w)
  | PGet key k => let '(w, r) := call (λ env, io_Get store env key) ctx w in runProg next ctx cmd (k r) w
  | PStoreIfAbsent rec k => let '(w, r) := call (λ env, io_StoreIfAbsent store env rec) ctx w in runProg next ctx cmd (k r) w
  | PStore rec k => let '(w, r) := call (λ env, io_Store store env rec) ctx w in runProg next ctx cmd (k r) w
  | PDelete key k => let '(w, r) := call (λ env, io_Delete store env key) ctx w in runProg next ctx cmd (k r) w
  | PNext k =>
      match next ctx cmd w with
      | (w, Panicked v) => (w, Panicked v)
      | (w, Returned (result, err)) => runProg next ctx cmd (k result err) w
      end
  end.

Definition IdempotentMiddleware (config : IdempotencyConfig) (scope : Ctx → Command → string)
    (keyGenerator : Command → string) : Middleware U := λ next ctx cmd w,
  runProg next ctx cmd (IdempotencyMiddleware config (cmd_CommandType cmd) (scope ctx cmd) (keyGenerator cmd)) w.
End Middleware.

(** The in-memory store, beside the rest of the state. *)
Definition memoryIdempotency {T} : IdempotencyOps (IdempotencyStore * T) :=
  mkIdempotencyOps
    (λ env key u, (u, Ok (IdempotencyStore.Get (time_Now env 0) key u.1)))
    (λ env rec u, let '(s, b) := StoreIfAbsent (time_Now env 0) rec u.1 in ((s, u.2), Ok b))
    (λ env rec u, ((Store rec u.1, u.2), Ok tt))
    (λ env key u, ((IdempotencyStore.Delete key u.1, u.2), Ok tt)).

(** ** A duplicate is answered with the first outcome *)

Section Theorems.
Context {T : Type} `{ErrorText} (envs : Ctx → nat → Env) (config : IdempotencyConfig) (scope : Ctx → Command → string)
  (keyGenerator : Command → string).
Implicit Types (w : World (IdempotencyStore * T)) (next : MiddlewareFunc (IdempotencyStore * T)).

Definition held w : gmap string IdempotencyRecord := records (bw_state w).1.
Definition keyOf (ctx : Ctx) (cmd : Command) : string :=
  EffectiveIdempotencyKey (cmd_CommandType cmd) (scope ctx cmd) (keyGenerator cmd).

(** The rest of the chain leaves the records alone. *)
Definition leavesRecords next : Prop := ∀ ctx cmd w w' o, next ctx cmd w = (w', o) → held w' = held w.

Abbreviation middleware := (IdempotentMiddleware envs memoryIdempotency config scope keyGenerator).

Lemma middleware_mwStart next ctx cmd w :
  cmd_CommandType cmd ∉ ic_SkipCommands config → keyOf ctx cmd ≠ "" →
  middleware next ctx cmd w =
  runProg envs memoryIdempotency next ctx cmd (mwStart (withDefaults config) (cmd_CommandType cmd) (keyOf ctx cmd)) w.
Proof.
  intros Hs Hk. unfold IdempotentMiddleware. rewrite IdempotencyMiddleware_mwStart; [done|done|].
  intros E. apply Hk. unfold keyOf. by rewrite E.
Qed.

(** A first command runs the handler, and its record is what its result makes. *)
Lemma first_run next ctx cmd w w' result :
  cmd_CommandType cmd ∉ ic_SkipCommands config → keyOf ctx cmd ≠ "" → leavesRecords next →
  held w !! keyOf ctx cmd = None → IsSuccess result = true →
  middleware next ctx cmd w = (w', Returned (result, None)) →
  ∃ t, held w' !! keyOf ctx cmd =
    Some (NewIdempotencyRecord t (keyOf ctx cmd) (cmd_CommandType cmd) result (ic_TTL (withDefaults config))).
Proof.
  intros Hs Hk Hn Hnone Hok. rewrite middleware_mwStart by done. unfold mwStart. cbn [runProg].
  unfold call at 1. cbn [memoryIdempotency io_Get]. rewrite Get_spec. unfold held in Hnone.
  unfold Exists. rewrite Hnone. cbn [mwFound mwReserve runProg]. unfold mwTry. cbn [runProg].
  unfold call at 1. cbn [memoryIdempotency io_StoreIfAbsent tick set_state bw_state fst snd].
  rewrite StoreIfAbsent_spec. unfold Exists. cbn [newProcessingRecord ir_Key]. rewrite Hnone.
  cbn [mwReserved mwRun runProg].
  match goal with |- context [next ctx cmd ?w1] => destruct (next ctx cmd w1) as [w2 [[r e]|v]] eqn:En end; [|discriminate].
  unfold mwFinish, shouldStore. destruct (IsSuccess r) eqn:Er; cbn [orb].
  - cbn [runProg mwStore mwStored]. unfold call. cbn. intros [= <- -> ->]. exists (now envs ctx w2).
    unfold held. cbn. rewrite CopyIdempotencyRecord_id. by rewrite lookup_insert_eq.
  - destruct (ic_StoreErrors (withDefaults config) && negb (bool_decide (e = None))); cbn; intros [= _ E _]; subst r; congruence.
Qed.

(** A duplicate of a command is answered with what the first was told, and
    runs nothing.  When a command succeeded under a key no record held, then as
    long as its record is there and has not expired, every later command with
    the same effective key, from any state of the application, is answered with
    the first one's version and its aggregate id, cut to the column; the
    application's state is untouched. *)
Theorem duplicate_command_replayed (b : CommandBus (IdempotencyStore * T)) ms h ctx cmd w w1 result :
  cb_middleware b = middleware :: ms → cb_closed b = false →
  HandlerRegistry_Get (cmd_CommandType cmd) (cb_registry b) = Some h → leavesRecords (ChainMiddleware ms (ch_Handle h)) →
  cmd_CommandType cmd ∉ ic_SkipCommands config → keyOf ctx cmd ≠ "" → held w !! keyOf ctx cmd = None →
  IsSuccess result = true → Dispatch b ctx (Some cmd) w = (w1, Returned (result, None)) →
  ∃ rec, held w1 !! keyOf ctx cmd = Some rec ∧
    ∀ ctx' cmd' w', keyOf ctx' cmd' = keyOf ctx cmd → cmd_CommandType cmd' = cmd_CommandType cmd →
      held w' !! keyOf ctx cmd = Some rec → (∀ n, time_Now (envs ctx' n) 0 ≤ ir_ExpiresAt rec) →
      ∃ w2, Dispatch b ctx' (Some cmd') w' =
          (w2, Returned (NewSuccessResult (truncateUTF8Bytes (cr_AggregateID result) MaxIdempotencyFieldLength) (cr_Version result), None)) ∧
        bw_state w2 = bw_state w'.
Proof.
  intros Hm Hc Hh Hl Hs Hk Hnone Hok.
  assert (∀ ctx' cmd' w', cmd_CommandType cmd' = cmd_CommandType cmd →
    Dispatch b ctx' (Some cmd') w' = middleware (ChainMiddleware ms (ch_Handle h)) ctx' cmd' w') as HD.
  { intros ctx' cmd' w' Ht. unfold Dispatch. by rewrite Hc, Ht, Hh, Hm, ChainMiddleware_cons. }
  rewrite HD by done. intros E. destruct (first_run _ _ _ _ _ _ Hs Hk Hl Hnone Hok E) as [t Ht].
  eexists. split; [exact Ht|]. intros ctx' cmd' w' Hkey Hty Hrec Hlive.
  rewrite HD by done. rewrite middleware_mwStart by (rewrite ?Hkey, ?Hty; done). rewrite Hkey, Hty.
  set (rec := NewIdempotencyRecord _ _ _ _ _) in *. unfold mwStart. cbn [runProg]. unfold call at 1.
  cbn [memoryIdempotency io_Get]. rewrite Get_spec. unfold Exists. unfold held in Hrec. rewrite Hrec.
  assert (∀ n, IsExpired (time_Now (envs ctx' n) 0) rec = false) as Hexp.
  { intros n. unfold IsExpired. apply Z.ltb_ge, Hlive. }
  unfold here. rewrite Hexp. cbn [negb mwFound].
  assert (isProcessingRecord rec = false) as ->.
  { unfold isProcessingRecord, rec. cbn. by rewrite Hok. }
  cbn [runProg]. unfold mwCheckLive, now, here. rewrite Hexp. cbn [negb runProg].
  eexists. split.
  - unfold IdempotencyRecordToResult, rec. cbn. rewrite Hok. reflexivity.
  - cbn. by destruct (bw_state w').
Qed.
End Theorems.

(** ** Witness *)

Definition idempotentBus : CommandBus (IdempotencyStore * Z) :=
  Use [@IdempotentMiddleware _ (λ _, "") (λ _ _, sampleEnv) memoryIdempotency
         (mkIdempotencyConfig 0 false false 0 []) DefaultIdempotencyScope GetIdempotencyKey]
    (RegisterFunc "CreateOrder" (λ ctx cmd w,
       (set_state ((bw_state w).1, (bw_state w).2 + 1) w, Returned (NewSuccessResult "order-1" (bw_state w).2, None)))
       (NewCommandBus [])).

Definition createOrder : Command := mkCommand "CreateOrder" None None (Some "req-1") None None None None (Ok []).
Definition firstCreate := Dispatch idempotentBus (WithTenantID Background "tenant-a") (Some createOrder) (mkWorld 0 [] (NewIdempotencyStore, 7)).

Lemma duplicate_command_replayed_witness :
  ∃ w2, Dispatch idempotentBus (WithTenantID Background "tenant-a") (Some createOrder) firstCreate.1 =
    (w2, Returned (NewSuccessResult "order-1" 7, None)) ∧ (bw_state w2).2 = 8.
Proof.
  destruct (@duplicate_command_replayed Z (λ _, "") (λ _ _, sampleEnv) (mkIdempotencyConfig 0 false false 0 [])
    DefaultIdempotencyScope GetIdempotencyKey idempotentBus [] _ (WithTenantID Background "tenant-a") createOrder
    (mkWorld 0 [] (NewIdempotencyStore, 7)) firstCreate.1 (NewSuccessResult "order-1" 7) eq_refl eq_refl eq_refl)
    as (rec & Hrec & H); [by intros ctx cmd w w' o [= <- _]|set_solver|by vm_compute|by vm_compute|done|by vm_compute|].
  vm_compute in Hrec. injection Hrec as <-.
  destruct (H (WithTenantID Background "tenant-a") createOrder firstCreate.1 eq_refl eq_refl) as (w2 & Hw & Hst);
    [by vm_compute|by intros n; vm_compute|].
  exists w2. split; [rewrite Hw; by vm_compute|]. rewrite Hst. by vm_compute.
Defined.
