(* ===== verification/AuditMiddleware.v ===== *)
(** * The audit middleware

    [AuditMiddleware] of [src/audit.go]: one entry for every command that is not
    skipped, written after the command ran. *)

From S2P Require Import Prelude.
From S2P Require Import Types.
From S2P Require Import Sha256.
From S2P Require Import Strconv.
From S2P Require Import Command.
From S2P Require Import AuditStore.
From S2P Require Import CommandBus.
From S2P Require Import Middleware.

Definition MaxAuditFieldLength : Z := 255.

(** ** The id of an entry *)

Definition bigEndian64 (x : Z) : list Z :=
  (λ shift, Z.land (Z.shiftr x shift) 255) <$> [56; 48; 40; 32; 24; 16; 8; 0].

(** What [rand.Read] delivered, or none if it failed. *)
Definition newAuditID (random : option (list Z)) (now : Time) : string :=
  let b := match random with
           | Some b => b
           | None => bigEndian64 (u64 now) ++ bigEndian64 (Z.lxor (u64 now) 11400714819323198485)
           end in
  let b := alter (λ x, Z.lor (Z.land x 15) 64) 6%nat b in
  let b := alter (λ x, Z.lor (Z.land x 63) 128) 8%nat b in
  let hex first last := EncodeToString (take (last - first) (drop first b)) in
  hex 0%nat 4%nat +:+ "-" +:+ hex 4%nat 6%nat +:+ "-" +:+ hex 6%nat 8%nat +:+ "-" +:+ hex 8%nat 10%nat +:+ "-"
    +:+ hex 10%nat 16%nat.

(** ** Entries *)

Definition copyMetadataMap (m : StringMap) : StringMap :=
  match m with
  | None => None
  | Some c => if bool_decide (c = ∅) then None else Some c
  end.

Definition boundAuditEntry (e : AuditEntry) : AuditEntry :=
  let bound s := truncateUTF8Bytes s MaxAuditFieldLength in
  mkAuditEntry (ae_ID e) (bound (ae_CommandType e)) (bound (ae_CommandID e)) (bound (ae_AggregateID e)) (bound (ae_Actor e))
    (bound (ae_TenantID e)) (bound (ae_CorrelationID e)) (bound (ae_CausationID e)) (ae_Error e) (ae_Version e)
    (ae_DurationMs e) (ae_Timestamp e) (ae_Success e) (ae_Metadata e).

(** The command failed already, or the audit failure is its failure. *)
Definition foldAuditFailure (result : CommandResult) (err : option error) (auditErr : error) : CommandResult * option error :=
  match err with
  | Some err => (result, Some (Join err auditErr))
  | None =>
      if IsError result then
        match cr_Error result with
        | Some err => (result, Some (Join err auditErr))
        | None => (result, Some auditErr)
        end
      else (NewErrorResult auditErr, Some auditErr)
  end.

(** [t.Sub(u)] saturates; [Milliseconds] rounds toward zero. *)
Definition timeSub (t u : Time) : Duration := Z.max MinInt64 (Z.min MaxInt64 (t - u)).
Definition Milliseconds (d : Duration) : Z := Z.quot d Millisecond.

Record AuditConfig (U : Type) := mkAuditConfig {
  au_Store : option (Env → option AuditEntry → U → U * res unit);
  au_ActorFunc : option (Ctx → Command → string);
  au_SkipCommands : list string;
  au_FailClosed : bool;
  au_IncludeMetadata : bool;
  au_MetadataFilter : option (gmap string string → StringMap);
  au_Logger : Logger U;
  au_OnError : option (Ctx → AuditEntry → error → U → U);
}.
Arguments mkAuditConfig {U} _ _ _ _ _ _ _ _.
Arguments au_Store {U} _.
Arguments au_ActorFunc {U} _.
Arguments au_SkipCommands {U} _.
Arguments au_FailClosed {U} _.
Arguments au_IncludeMetadata {U} _.
Arguments au_MetadataFilter {U} _.
Arguments au_Logger {U} _.
Arguments au_OnError {U} _.

Definition defaultActorFunc (ctx : Ctx) (cmd : Command) : string := ActorFromContext ctx.

Definition actorOf {U} (config : AuditConfig U) : Ctx → Command → string := default defaultActorFunc (au_ActorFunc config).

(** The metadata of the command, when it is asked for. *)
Definition auditMetadata {U} (config : AuditConfig U) (cmd : Command) : StringMap :=
  if au_IncludeMetadata config then
    match cmd_GetMetadataMap cmd with
    | None => None
    | Some m =>
        match copyMetadataMap m, au_MetadataFilter config with
        | Some copy, Some filter => copyMetadataMap (filter copy)
        | m, _ => m
        end
    end
  else None.

Section Middleware.
Context {U : Type} `{ErrorText} (envs : Ctx → nat → Env) (rand_Read : nat → option (list Z)).
Implicit Types (w : World U) (next : MiddlewareFunc U).

Definition auditEntry (config : AuditConfig U) (id : string) (start stop : Time) (ctx : Ctx) (cmd : Command)
    (result : CommandResult) (err : option error) : AuditEntry :=
  boundAuditEntry (mkAuditEntry id (cmd_CommandType cmd) (default "" (cmd_GetCommandID cmd))
    (if bool_decide (cr_AggregateID result = "") then default "" (cmd_AggregateID cmd) else cr_AggregateID result)
    (actorOf config ctx cmd) (TenantIDFromContext ctx) (CorrelationIDFromContext ctx) (CausationIDFromContext ctx)
    (match resultError result err with Some e => error_Error e | None => "" end)
    (cr_Version result) (Milliseconds (timeSub stop start)) stop
    (bool_decide (err = None) && IsSuccess result) (auditMetadata config cmd)).

Definition droppedFields (entry : AuditEntry) (err : error) : list (string * logValue) :=
  [("auditId", LogString (ae_ID entry)); ("commandType", LogString (ae_CommandType entry));
   ("commandId", LogString (ae_CommandID entry)); ("aggregateId", LogString (ae_AggregateID entry));
   ("tenantId", LogString (ae_TenantID entry)); ("error", LogError (Some err))].

(** The entry is written; a failure is reported, and returned when closed. *)
Definition writeAudit (config : AuditConfig U) (append : Env → option AuditEntry → U → U * res unit) (ctx : Ctx)
    (entry : AuditEntry) (result : CommandResult) (err : option error) w : World U * outcome :=
  match append (here envs ctx w) (Some entry) (bw_state w) with
  | (u, Ok _) => (tick (set_state u w), Returned (result, err))
  | (u, Err appendErr) =>
      let w := tick (set_state u w) in
      let w := match au_OnError config with Some report => update (report ctx entry appendErr) w | None => w end in
      if au_FailClosed config then (w, Returned (foldAuditFailure result err appendErr))
      else
        (update (lg_Warn (au_Logger config) "mink: audit entry dropped: store write failed (fail-open)"
           (droppedFields entry appendErr)) w, Returned (result, err))
  end.

Definition AuditMiddleware (config : AuditConfig U) : Middleware U := λ next,
  match au_Store config with
  | None =>
      if negb (au_FailClosed config) then next
      else λ ctx cmd w,
        match next ctx cmd w with
        | (w, Panicked v) => (w, Panicked v)
        | (w, Returned (result, err)) =>
            if bool_decide (cmd_CommandType cmd ∈ au_SkipCommands config) then (w, Returned (result, err))
            else (w, Returned (foldAuditFailure result err ErrNilAuditStore))
        end
  | Some append => λ ctx cmd w,
      if bool_decide (cmd_CommandType cmd ∈ au_SkipCommands config) then next ctx cmd w
      else
        let start := now envs ctx w in
        match next ctx cmd (tick w) with
        | (w, Panicked v) => (w, Panicked v)
        | (w, Returned (result, err)) =>
            let stop := now envs ctx w in
            let w := tick w in
            let id := newAuditID (rand_Read (bw_calls w)) (now envs ctx w) in
            writeAudit config append ctx (auditEntry config id start stop ctx cmd result err) result err (tick w)
        end
  end.
End Middleware.
