(* ===== verification/CommandTheorems.v ===== *)
(** * Commands: the guarantees of the middleware

    What a recovered panic discloses, how often a command is retried, and what
    the audit trail holds. *)

From S2P Require Import Prelude.
From S2P Require Import Types.
From S2P Require Import Strconv.
From S2P Require Import Command.
From S2P Require Import AuditStore.
From S2P Require Import CommandBus.
From S2P Require Import Middleware.
From S2P Require Import AuditMiddleware.

(** ** Recovery *)

(** Two values a handler may panic with that differ only in what they carry:
    the errors of the runtime carry a message of its own. *)
Definition sameKind (v v' : panicValue) : Prop :=
  match v, v' with
  | PanicOther t _, PanicOther t' _ => t = t'
  | PanicString _, PanicString _ => True
  | _, _ => v = v'
  end.

Lemma sameKind_summary v v' : sameKind v v' → PanicValueSummary v = PanicValueSummary v'.
Proof. destruct v, v'; cbn; intros Hk; by simplify_eq. Qed.

(** A bus whose outermost middleware recovers never panics, and what it
    returns for a panic discloses nothing the handler worked on: it is a
    [PanicError], recognised by [errors.Is], that is the same whatever the fields
    of the command other than its type and aggregate id, and whatever the value
    panicked with other than its type and a message of the runtime. *)
Theorem recovered_panic_discloses_nothing {U} stack (b : CommandBus U) ms :
  cb_middleware b = RecoveryMiddleware stack :: ms → cb_closed b = false →
  ∀ ctx cmd h w, HandlerRegistry_Get (cmd_CommandType cmd) (cb_registry b) = Some h →
    let inner cmd w := ChainMiddleware ms (ch_Handle h) ctx cmd w in
    (∃ w' result err, Dispatch b ctx (Some cmd) w = (w', Returned (result, err))) ∧
    (∀ w' r, inner cmd w = (w', Returned r) → Dispatch b ctx (Some cmd) w = (w', Returned r)) ∧
    (∀ w1 v, inner cmd w = (w1, Panicked v) → v ≠ PanicNil →
       (∃ e, (Dispatch b ctx (Some cmd) w).2 = failed e ∧ errors_Is e ErrHandlerPanicked = true) ∧
       ∀ cmd' w' w2 v', cmd_CommandType cmd' = cmd_CommandType cmd → cmd_AggregateID cmd' = cmd_AggregateID cmd →
         inner cmd' w' = (w2, Panicked v') → sameKind v v' → stack (bw_calls w2) = stack (bw_calls w1) →
         (Dispatch b ctx (Some cmd') w').2 = (Dispatch b ctx (Some cmd) w).2).
Proof.
  intros Hm Hc ctx cmd h w Hh inner.
  assert (∀ cmd' w', cmd_CommandType cmd' = cmd_CommandType cmd →
    Dispatch b ctx (Some cmd') w' = RecoveryMiddleware stack (ChainMiddleware ms (ch_Handle h)) ctx cmd' w') as HD.
  { intros cmd' w' Ht. unfold Dispatch. by rewrite Hc, Ht, Hh, Hm, ChainMiddleware_cons. }
  unfold RecoveryMiddleware, RecoveryMiddlewareWithOptions in HD. cbn [foldl] in HD.
  split; [|split].
  - rewrite HD by done. destruct (ChainMiddleware ms (ch_Handle h) ctx cmd w) as [w1 [[result err]|[]]]; by eexists _, _, _.
  - intros w' r E. rewrite HD by done. by fold (inner cmd w); rewrite E.
  - intros w1 v E Hv. split.
    + rewrite HD by done. fold (inner cmd w). rewrite E. destruct v; [done|..]; by eexists.
    + intros cmd' w' w2 v' Ht Ha E' Hk Hs. rewrite !HD by done. fold (inner cmd w) (inner cmd' w'). rewrite E, E'.
      pose proof (sameKind_summary v v' Hk) as Hsum.
      assert (newRecoveredPanicError cmd' v' (stack (bw_calls w2)) (mkRecoveryConfig false false) =
              newRecoveredPanicError cmd v (stack (bw_calls w1)) (mkRecoveryConfig false false)) as He.
      { unfold newRecoveredPanicError, panicCommandData. cbn [rc_captureValue rc_captureCommand]. by rewrite Ht, Ha, Hs, Hsum. }
      destruct v, v'; cbn in Hk; try done; by rewrite ?He.
Qed.

(** ** Retries *)

Section Retry.
Context {U : Type} `{FloatConversion} (envs : Ctx → nat → Env).
Implicit Types next : MiddlewareFunc U.

Definition succeeded (r : CommandResult * option error) : bool := bool_decide (r.2 = None) && IsSuccess r.1.
Definition retryable (config : RetryConfig) (r : CommandResult * option error) : bool :=
  match rt_ShouldRetry config with Some retry => retry (resultError r.1 r.2) | None => true end.

(** A log of the outcomes [next] had, kept by the state. *)
Definition logs (log : U → list (CommandResult * option error)) (next : MiddlewareFunc U) : Prop :=
  ∀ ctx cmd w w' o, next ctx cmd w = (w', o) →
    bw_waits w' = bw_waits w ∧ ∃ r, o = Returned r ∧ log (bw_state w') = log (bw_state w) ++ [r].

(** How a run of retries ends after [n] attempts: with the last one, or because
    the context, read at the last of the [calls], was done while it waited. *)
Inductive ended (config : RetryConfig) (ctx : Ctx) (calls : nat) (last : CommandResult * option error) (n : Z) : outcome → Prop :=
| ended_settled : succeeded last = true ∨ n = rt_MaxAttempts config ∨ retryable config last = false →
    ended config ctx calls last n (Returned last)
| ended_cancelled k : succeeded last = false → retryable config last = true → n < rt_MaxAttempts config →
    calls = S k → ctx_Done (envs ctx k) 0 = true →
    ended config ctx calls last n (failed (ctx_DoneErr (envs ctx k))).

(** The waits: the first is the initial delay, each other one its predecessor
    times the multiplier, and never longer than the maximum. *)
Fixpoint backoff (config : RetryConfig) (delay : Duration) (delays : list Duration) : Prop :=
  match delays with
  | [] => True
  | d :: delays => d = delay ∧
      backoff config (Z.min (rt_MaxDelay config)
        (int64OfFloat (float64Mul (float64OfInt delay) (rt_Multiplier config)))) delays
  end.

Lemma retryLoop_S config next ctx cmd k attempt delay prev w :
  retryLoop envs config next ctx cmd (S k) attempt delay prev w =
  match next ctx cmd w with
  | (w, Panicked v) => (w, Panicked v)
  | (w, Returned (result, err)) =>
      if bool_decide (err = None) && IsSuccess result then (w, Returned (result, None))
      else if attempt =? rt_MaxAttempts config then (w, Returned (result, err))
      else if negb (retryable config (result, err)) then (w, Returned (result, err))
      else if ctx_Done (here envs ctx w) 0 then (tick w, failed (ctx_DoneErr (here envs ctx w)))
      else
        retryLoop envs config next ctx cmd k (attempt + 1) (nextDelay config delay) (result, err)
          (mkWorld (S (bw_calls w)) (bw_waits w ++ [delay]) (bw_state w))
  end.
Proof. reflexivity. Qed.

Lemma retryLoop_spec config (log : U → list (CommandResult * option error)) next ctx cmd k attempt delay prev w :
  logs log next → 1 ≤ attempt → attempt + Z.of_nat k = rt_MaxAttempts config →
  let '(w', o) := retryLoop envs config next ctx cmd (S k) attempt delay prev w in
  ∃ tries last delays,
    log (bw_state w') = log (bw_state w) ++ tries ++ [last] ∧
    bw_waits w' = bw_waits w ++ delays ∧
    (length tries ≤ k)%nat ∧ length delays = length tries ∧
    (∀ r, r ∈ tries → succeeded r = false ∧ retryable config r = true) ∧
    backoff config delay delays ∧
    ended config ctx (bw_calls w') last (attempt + Z.of_nat (length tries)) o.
Proof.
  intros Hlog. revert attempt delay prev w. induction k as [|k IH]; intros attempt delay prev w Ha Hk;
    rewrite retryLoop_S; destruct (next ctx cmd w) as [w1 o1] eqn:E; destruct (Hlog _ _ _ _ _ E) as (Hw & [result err] & -> & Hl).
  all: destruct (bool_decide (err = None) && IsSuccess result) eqn:Es.
  1, 3: exists [], (result, err), []; apply andb_true_iff in Es as [Es1 Es2]; apply bool_decide_eq_true in Es1 as ->;
    rewrite Hl, Hw, !app_nil_r; split_and!; [done|done|cbn; lia|done|by intros ? ?%not_elem_of_nil|done|];
    constructor; left; unfold succeeded; cbn; by rewrite Es2.
  all: destruct (Z.eqb_spec attempt (rt_MaxAttempts config)) as [Hm|Hm]; [|try lia].
  1, 2: exists [], (result, err), []; rewrite Hl, Hw, !app_nil_r; split_and!;
    [done|done|cbn; lia|done|by intros ? ?%not_elem_of_nil|done|]; constructor; right; left; cbn; lia.
  destruct (negb _) eqn:Er.
  { exists [], (result, err), []. rewrite Hl, Hw, !app_nil_r. split_and!;
      [done|done|cbn; lia|done|by intros ? ?%not_elem_of_nil|done|]. constructor. right. right. by apply negb_true_iff. }
  destruct (ctx_Done _ _) eqn:Edone.
  { exists [], (result, err), []. cbn [tick bw_state bw_waits]. rewrite Hl, Hw, !app_nil_r. split_and!;
      [done|done|cbn; lia|done|by intros ? ?%not_elem_of_nil|done|].
    apply ended_cancelled; [done|by apply negb_false_iff in Er|cbn; lia|done|done]. }
  specialize (IH (attempt + 1) (nextDelay config delay) (result, err)
    (mkWorld (S (bw_calls w1)) (bw_waits w1 ++ [delay]) (bw_state w1)) ltac:(lia) ltac:(lia)).
  destruct (retryLoop _ _ _ _ _ _ _ _ _ _) as [w' o].
  destruct IH as (tries & last & delays & H1 & H2 & H3 & H4 & H5 & H6 & H7). cbn [bw_state bw_waits] in H1, H2.
  exists ((result, err) :: tries), last, (delay :: delays). split_and!.
  - by rewrite H1, Hl, <- !app_assoc.
  - by rewrite H2, Hw, <- !app_assoc.
  - cbn. lia.
  - cbn. by rewrite H4.
  - intros r [->|Hr]%elem_of_cons; [|by apply H5]. split; [done|]. by apply negb_false_iff in Er.
  - split; [done|]. replace (Z.min _ _) with (nextDelay config delay); [done|]. unfold nextDelay.
    destruct (Z.ltb_spec (rt_MaxDelay config) (int64OfFloat (float64Mul (float64OfInt delay) (rt_Multiplier config)))); lia.
  - replace (attempt + Z.of_nat (length ((result, err) :: tries))) with (attempt + 1 + Z.of_nat (length tries)) by (cbn; lia). done.
Qed.

(** C33: a retried command is attempted at least once and at most
    [MaxAttempts] times, whatever the handler does: every attempt but the last
    failed and may be retried, and each but the last is followed by one wait, the
    first of the initial delay, each other one of the delay before it times the
    multiplier, cut at the maximum.  The outcome is the last attempt's, and then
    it succeeded, was the last allowed or may not be retried; or, where it
    failed and may be retried, the error of the context, which was done.  A
    policy without attempts makes one. *)
Theorem retry_attempts_bounded config (log : U → list (CommandResult * option error)) next ctx cmd w :
  logs log next →
  let c := retryDefaults config in
  let '(w', o) := RetryMiddleware envs config next ctx cmd w in
  ∃ tries last delays,
    log (bw_state w') = log (bw_state w) ++ tries ++ [last] ∧ bw_waits w' = bw_waits w ++ delays ∧
    Z.of_nat (length tries) < Z.max 1 (rt_MaxAttempts config) ∧ length delays = length tries ∧
    (∀ r, r ∈ tries → succeeded r = false ∧ retryable config r = true) ∧
    backoff c (rt_InitialDelay c) delays ∧
    ended c ctx (bw_calls w') last (1 + Z.of_nat (length tries)) o.
Proof.
  intros Hlog c. unfold RetryMiddleware. fold c.
  assert (rt_MaxAttempts c = Z.max 1 (rt_MaxAttempts config)) as Hc.
  { unfold c, retryDefaults. cbn. destruct (Z.leb_spec (rt_MaxAttempts config) 0); lia. }
  destruct (Z.to_nat (rt_MaxAttempts c)) as [|k] eqn:Ek; [lia|].
  pose proof (retryLoop_spec c log next ctx cmd k 1 (rt_InitialDelay c) (mkCommandResult false "" 0 None None, None) w
    Hlog ltac:(lia) ltac:(lia)) as Hloop.
  destruct (retryLoop _ _ _ _ _ _ _ _ _ _) as [w' o].
  destruct Hloop as (tries & last & delays & H1 & H2 & H3 & H4 & H5 & H6 & H7).
  exists tries, last, delays. split_and!; try done. lia.
Qed.
End Retry.

(** A handler that fails twice and then succeeds. *)
Definition flakyHandler : MiddlewareFunc (list (CommandResult * option error)) := λ ctx cmd w,
  let r := if (length (bw_state w) <? 2)%nat then (NewErrorResult (Errorf "busy"), Some (Errorf "busy"))
           else (NewSuccessResult "order-1" 3, None) in
  (set_state (bw_state w ++ [r]) w, Returned r).

Definition sampleCommand : Command := mkCommand "CreateOrder" None (Some "order-1") None None None None None (Ok []).

Lemma flaky_logs : logs id flakyHandler.
Proof. intros ctx cmd w w' o [= <- <-]. split; [done|]. by eexists. Qed.

Lemma retry_attempts_bounded_witness :
  let '(w, o) := RetryMiddleware (λ _ _, sampleEnv) DefaultRetryConfig flakyHandler Background sampleCommand (mkWorld 0 [] []) in
  length (bw_state w) = 3%nat ∧ bw_waits w = [100 * Millisecond; 200 * Millisecond] ∧
  Z.of_nat (length (bw_state w)) ≤ 3 ∧ o = Returned (NewSuccessResult "order-1" 3, None).
Proof.
  pose proof (retry_attempts_bounded (λ _ _, sampleEnv) DefaultRetryConfig id flakyHandler Background sampleCommand
    (mkWorld 0 [] []) flaky_logs) as H.
  destruct (RetryMiddleware _ _ _ _ _ _) as [w o] eqn:E. vm_compute in E. injection E as <- <-.
  destruct H as (tries & last & delays & Hl & _ & Hn & _). split; [reflexivity|]. split; [reflexivity|]. split; [|reflexivity].
  cbn [bw_state id app] in Hl |- *. rewrite Hl, length_app. cbn [length rt_MaxAttempts DefaultRetryConfig] in *. lia.
Defined.

(** A handler that panics with the command it was given. *)
Definition panickingBus : CommandBus unit :=
  Use [RecoveryMiddleware (λ _, "stack")]
    (RegisterFunc "CreateOrder" (λ ctx cmd w, (w, Panicked (PanicOther "*main.Order" (default "" (cmd_GetCommandID cmd)))))
       (NewCommandBus [])).

Lemma recovered_panic_discloses_nothing_witness :
  let secret id := mkCommand "CreateOrder" None (Some "order-1") None (Some id) None None None (Ok [1]) in
  let w := mkWorld 0 [] tt in
  (Dispatch panickingBus Background (Some (secret "card 4111")) w).2 =
  (Dispatch panickingBus Background (Some (secret "card 5500")) w).2 ∧
  ∃ e, (Dispatch panickingBus Background (Some (secret "card 4111")) w).2 = failed e ∧ errors_Is e ErrHandlerPanicked = true.
Proof.
  intros secret w.
  destruct (recovered_panic_discloses_nothing (λ _, "stack") panickingBus [] eq_refl eq_refl Background (secret "card 5500")
    _ w eq_refl) as (_ & _ & H).
  destruct (H w _ eq_refl ltac:(discriminate)) as [_ Hsame].
  destruct (recovered_panic_discloses_nothing (λ _, "stack") panickingBus [] eq_refl eq_refl Background (secret "card 4111")
    _ w eq_refl) as (_ & _ & H').
  destruct (H' w _ eq_refl ltac:(discriminate)) as [He _].
  split; [|exact He]. apply (Hsame (secret "card 4111") w w _ eq_refl eq_refl eq_refl eq_refl eq_refl).
Defined.

(** ** The audit trail *)

Section Audit.
Context {T : Type} `{ErrorText} (envs : Ctx → nat → Env) (rand_Read : nat → option (list Z)).
Implicit Types (w : World (AuditStore * T)) (next : MiddlewareFunc (AuditStore * T)).

(** The in-memory store as the store of the middleware. *)
Definition memoryAuditAppend (env : Env) (entry : option AuditEntry) (u : AuditStore * T) : (AuditStore * T) * res unit :=
  let '(s, r) := AuditStore.Append env entry u.1 in ((s, u.2), r).

Definition trail w : list AuditEntry := entries (bw_state w).1.

(** What the middleware runs does not write the trail and does not panic: the
    recovery middleware is inside. *)
Definition quietInside next : Prop :=
  ∀ ctx cmd w w' o, next ctx cmd w = (w', o) → trail w' = trail w ∧ ∃ r, o = Returned r.

(** The entry tells the command, and what its caller was told. *)
Definition records (e : AuditEntry) (cmd : Command) (r : DispatchResult) : Prop :=
  ae_CommandType e = truncateUTF8Bytes (cmd_CommandType cmd) MaxAuditFieldLength ∧
  ae_Success e = DispatchResult_IsSuccess r ∧
  ae_Version e = cr_Version (dr_CommandResult r) ∧
  ae_Error e = (match resultError (dr_CommandResult r) (dr_Error r) with Some err => error_Error err | None => "" end) ∧
  Forall (λ s, Z.of_nat (String.length s) ≤ MaxAuditFieldLength)
    [ae_CommandType e; ae_CommandID e; ae_AggregateID e; ae_Actor e; ae_TenantID e; ae_CorrelationID e; ae_CausationID e].

Lemma auditEntry_records (config : AuditConfig (AuditStore * T)) id start stop ctx cmd result err :
  records (auditEntry config id start stop ctx cmd result err) cmd (mkDispatchResult result err).
Proof.
  unfold auditEntry, boundAuditEntry, records, DispatchResult_IsSuccess. cbn. split_and!; try done.
  repeat (apply Forall_cons; split; [by apply truncateUTF8Bytes_length|]). by apply Forall_nil.
Qed.

Lemma audited_dispatch (b : CommandBus (AuditStore * T)) ms config ctx cmd h w :
  cb_middleware b = AuditMiddleware envs rand_Read config :: ms → cb_closed b = false →
  au_Store config = Some memoryAuditAppend → (∀ n k, ctx_Done (envs ctx n) k = false) →
  HandlerRegistry_Get (cmd_CommandType cmd) (cb_registry b) = Some h → quietInside (ChainMiddleware ms (ch_Handle h)) →
  cmd_CommandType cmd ∉ au_SkipCommands config →
  ∃ w' result err e, Dispatch b ctx (Some cmd) w = (w', Returned (result, err)) ∧
    trail w' = trail w ++ [e] ∧ records e cmd (mkDispatchResult result err).
Proof.
  intros Hm Hc Hs Hlive Hh Hq Hskip. unfold Dispatch. rewrite Hc, Hh, Hm, ChainMiddleware_cons.
  unfold AuditMiddleware. rewrite Hs, bool_decide_false by done.
  destruct (ChainMiddleware ms (ch_Handle h) ctx cmd (tick w)) as [w1 o] eqn:E.
  destruct (Hq _ _ _ _ _ E) as [Ht [[result err] ->]]. unfold writeAudit, memoryAuditAppend, AuditStore.Append, here.
  rewrite !Hlive. eexists _, result, err, _. split; [reflexivity|]. split.
  - unfold trail in *. cbn. rewrite CopyAuditEntry_id. f_equal. exact Ht.
  - apply auditEntry_records.
Qed.

(** The trail is complete.  With the audit middleware outermost over the
    in-memory store, and panics recovered inside, every command dispatched that
    is not excluded adds exactly one entry, in the order they were dispatched,
    whether it succeeded or failed: the entry bears the command's type, is marked
    a success exactly when the caller was told so, has the error the caller was
    given, and fits the columns of the audit table whatever the command's ids. *)
Theorem audit_trail_complete (b : CommandBus (AuditStore * T)) ms config ctx cmds w w' rs stopped :
  cb_middleware b = AuditMiddleware envs rand_Read config :: ms → cb_closed b = false →
  au_Store config = Some memoryAuditAppend → (∀ n k, ctx_Done (envs ctx n) k = false) →
  (∀ cmd, cmd ∈ cmds → cmd_CommandType cmd ∉ au_SkipCommands config ∧
     ∃ h, HandlerRegistry_Get (cmd_CommandType cmd) (cb_registry b) = Some h ∧ quietInside (ChainMiddleware ms (ch_Handle h))) →
  DispatchAll envs b ctx (Some <$> cmds) w = (w', Returned (rs, stopped)) →
  ∃ es, trail w' = trail w ++ es ∧ length es = length rs ∧ (stopped = None → length rs = length cmds) ∧
    ∀ i e r, es !! i = Some e → rs !! i = Some r → ∃ cmd, cmds !! i = Some cmd ∧ records e cmd r.
Proof.
  intros Hm Hc Hs Hlive. unfold DispatchAll.
  enough (∀ rs0, (∀ cmd, cmd ∈ cmds → cmd_CommandType cmd ∉ au_SkipCommands config ∧
     ∃ h, HandlerRegistry_Get (cmd_CommandType cmd) (cb_registry b) = Some h ∧ quietInside (ChainMiddleware ms (ch_Handle h))) →
    dispatchEach envs b ctx (Some <$> cmds) rs0 w = (w', Returned (rs, stopped)) →
    ∃ es rs1, rs = rs0 ++ rs1 ∧ trail w' = trail w ++ es ∧ length es = length rs1 ∧
      (stopped = None → length rs1 = length cmds) ∧
      ∀ i e r, es !! i = Some e → rs1 !! i = Some r → ∃ cmd, cmds !! i = Some cmd ∧ records e cmd r) as Hgen.
  { intros Hall E. destruct (Hgen [] Hall E) as (es & rs1 & -> & ?). by exists es. }
  revert w. induction cmds as [|cmd cmds IH]; intros w rs0 Hall E.
  { injection E as <- <- <-. exists [], []. rewrite !app_nil_r. split_and!; try done. }
  cbn [fmap list_fmap dispatchEach] in E.
  destruct (Hall cmd ltac:(left)) as (Hskip & h & Hh & Hq).
  destruct (audited_dispatch b ms config ctx cmd h w Hm Hc Hs Hlive Hh Hq Hskip) as (w1 & result & err & e & E1 & Ht & Hrec).
  rewrite E1 in E.
  assert (∀ i e' r, [e] !! i = Some e' → [mkDispatchResult result err] !! i = Some r →
    ∃ c, (cmd :: cmds) !! i = Some c ∧ records e' c r) as H1.
  { intros [|i] e' r He Hr; [|done]. injection He as <-. injection Hr as <-. by exists cmd. }
  destruct (ctx_Err (envs ctx (bw_calls w1))) as [cerr|].
  - injection E as <- <- <-. exists [e], [mkDispatchResult result err]. by split_and!.
  - destruct (IH (tick w1) (rs0 ++ [mkDispatchResult result err])) as (es & rs1 & -> & Ht' & Hlen & Hst & Hi);
      [intros c Hin; apply Hall; by right|exact E|].
    exists (e :: es), (mkDispatchResult result err :: rs1). split_and!.
    + by rewrite <- app_assoc.
    + rewrite Ht'. change (trail (tick w1)) with (trail w1). by rewrite Ht, <- app_assoc.
    + cbn. by rewrite Hlen.
    + intros Hn. cbn. by rewrite (Hst Hn).
    + intros [|i] e' r He Hr; [by apply (H1 0%nat)|]. by apply (Hi i).
Qed.
End Audit.

(** One command succeeds and one fails; both are in the trail. *)
Definition auditedBus : CommandBus (AuditStore * unit) :=
  Use [@AuditMiddleware _ (λ _, "declined") (λ _ _, sampleEnv) (λ n, Some (List.repeat (Z.of_nat n) 16))
         (mkAuditConfig (Some memoryAuditAppend) None ["Ping"] false false None
            (mkLogger (λ _ _ u, u) (λ _ _ u, u) (λ _ _ u, u) (λ _ _ u, u)) None)]
    (RegisterFunc "CreateOrder" (λ ctx cmd w,
       (w, Returned (if bool_decide (cmd_AggregateID cmd = Some "order-1") then (NewSuccessResult "order-1" 1, None)
                     else (NewErrorResult (Errorf "declined"), Some (Errorf "declined")))))
       (NewCommandBus [])).

Lemma audit_trail_complete_witness :
  let cmds := [sampleCommand; mkCommand "CreateOrder" None (Some "order-2") None None None None None (Ok [])] in
  let '(w, o) := DispatchAll (λ _ _, sampleEnv) auditedBus (WithActor Background "alice") (Some <$> cmds)
                   (mkWorld 0 [] (NewAuditStore, tt)) in
  length (trail w) = 2%nat ∧ ae_Success <$> trail w = [true; false] ∧ ae_Actor <$> trail w = ["alice"; "alice"].
Proof.
  intros cmds.
  pose proof (@audit_trail_complete unit (λ _, "declined") (λ _ _, sampleEnv) (λ n, Some (List.repeat (Z.of_nat n) 16)) auditedBus []
    (mkAuditConfig (Some memoryAuditAppend) None ["Ping"] false false None
       (mkLogger (λ _ _ u, u) (λ _ _ u, u) (λ _ _ u, u) (λ _ _ u, u)) None)
    (WithActor Background "alice") cmds (mkWorld 0 [] (NewAuditStore, tt))) as H.
  assert (∀ cmd, cmd ∈ cmds → cmd_CommandType cmd ∉ ["Ping"] ∧ ∃ h,
    HandlerRegistry_Get (cmd_CommandType cmd) (cb_registry auditedBus) = Some h ∧ quietInside (ChainMiddleware [] (ch_Handle h))) as Hall.
  { intros cmd Hin. assert (cmd_CommandType cmd = "CreateOrder") as -> by (unfold cmds in Hin; set_solver). split; [set_solver|].
    eexists. split; [reflexivity|]. intros ctx cmd' w w' o [= <- <-]. split; [done|]. by eexists. }
  destruct (DispatchAll _ _ _ _ _) as [w o] eqn:E. pose proof E as E0. vm_compute in E0. injection E0 as Hw Ho. subst o.
  destruct (H _ _ _ eq_refl eq_refl eq_refl (λ _ _, eq_refl) Hall eq_refl) as (es & Ht & Hlen & _ & _).
  split; [rewrite Ht; exact Hlen|]. subst w. split; reflexivity.
Defined.
