(* ===== verification/SubjectFootprint.v ===== *)
(** * A subject's footprint in the in-memory stores

    [src/adapters/memory/subject_footprint.go]: the deletions and counts of the
    rows that belong to a set of aggregates or correlations, and the
    type-scoped saga lookup. *)

From S2P Require Import Prelude.
From S2P Require Import Types.
From S2P Require Import IdempotencyStore.
From S2P Require Import SagaStore.
From S2P Require Import OutboxStore.
From S2P Require Import AuditStore.

(** [idSet]: nil when no id is named. *)
Definition idSet (ids : list string) : option (gset string) :=
  let set := list_to_set (filter (λ id, id ≠ "") ids) : gset string in
  if bool_decide (set = ∅) then None else Some set.

Definition inSet (set : gset string) (id : string) : bool := bool_decide (id ∈ set).

Definition DeleteOutboxByAggregateIDs `{MapOrder} (env : Env) (aggregateIDs : list string)
    : op OutboxStore error Z := λ s,
  match idSet aggregateIDs with
  | None => (s, Ok 0)
  | Some set =>
      match check_ctx env with
      | Err e => (s, Err e)
      | Ok _ =>
          let '(m, count) := rangeDelete (λ msg, inSet set (om_AggregateID msg)) (messages s) in
          (mkOutboxStore m, Ok count)
      end
  end.

Definition CountOutboxByAggregateIDs (env : Env) (aggregateIDs : list string) (s : OutboxStore) : res Z :=
  match idSet aggregateIDs with
  | None => Ok 0
  | Some set => check_ctx env;; Ok (countWhere (λ msg, inSet set (om_AggregateID msg)) (messages s))
  end.

Definition DeleteAuditByAggregateIDs (env : Env) (aggregateIDs : list string) : op AuditStore error Z := λ s,
  match idSet aggregateIDs with
  | None => (s, Ok 0)
  | Some set =>
      match check_ctx env with
      | Err e => (s, Err e)
      | Ok _ => let '(s, n) := removeWhere (λ e, inSet set (ae_AggregateID e)) s in (s, Ok n)
      end
  end.

Definition CountAuditBySubject (env : Env) (subjectID : string) (aggregateIDs : list string) (s : AuditStore) : res Z :=
  let set := idSet aggregateIDs in
  if bool_decide (subjectID = "") && bool_decide (set = None) then Ok 0
  else
    check_ctx env;;
    Ok (Z.of_nat (length (filter (λ e,
          (negb (bool_decide (subjectID = "")) && bool_decide (ae_Actor e = subjectID))
          || inSet (default ∅ set) (ae_AggregateID e) = true) (entries s)))).

Definition DeleteIdempotencyByAggregateIDs `{MapOrder} (env : Env) (aggregateIDs : list string)
    : op IdempotencyStore error Z := λ s,
  match idSet aggregateIDs with
  | None => (s, Ok 0)
  | Some set =>
      match check_ctx env with
      | Err e => (s, Err e)
      | Ok _ =>
          let '(m, count) := rangeDelete (λ rec, inSet set (ir_AggregateID rec)) (records s) in
          (mkIdempotencyStore m, Ok count)
      end
  end.

Definition CountIdempotencyByAggregateIDs (env : Env) (aggregateIDs : list string) (s : IdempotencyStore) : res Z :=
  match idSet aggregateIDs with
  | None => Ok 0
  | Some set => check_ctx env;; Ok (countWhere (λ rec, inSet set (ir_AggregateID rec)) (records s))
  end.

Definition DeleteSagasByCorrelationIDs `{MapOrder} (env : Env) (correlationIDs : list string)
    : op SagaStore error Z := λ s,
  match idSet correlationIDs with
  | None => (s, Ok 0)
  | Some set =>
      match check_ctx env with
      | Err e => (s, Err e)
      | Ok _ =>
          let '(m, removed) := rangeDelete (λ st, inSet set (sg_CorrelationID st)) (sagas s) in
          (mkSagaStore m, Ok removed)
      end
  end.

Definition CountSagasByCorrelationIDs (env : Env) (correlationIDs : list string) (s : SagaStore) : res Z :=
  match idSet correlationIDs with
  | None => Ok 0
  | Some set => check_ctx env;; Ok (countWhere (λ st, inSet set (sg_CorrelationID st)) (sagas s))
  end.

(** The loop keeps the most recently started match. *)
Definition laterOfType (correlationID sagaType : string) (latest : option SagaState) (kv : string * SagaState)
    : option SagaState :=
  let state := kv.2 in
  if negb (bool_decide (sg_CorrelationID state = correlationID)) || negb (bool_decide (sg_Type state = sagaType))
  then latest
  else
    match latest with
    | None => Some state
    | Some l => if After (sg_StartedAt state) (sg_StartedAt l) then Some state else latest
    end.

Definition FindByCorrelationIDAndType `{MapOrder} (env : Env) (correlationID sagaType : string) (s : SagaStore)
    : res SagaState :=
  returnIf (bool_decide (correlationID = "") || bool_decide (sagaType = "")) ErrEmptyStreamID;;
  check_ctx env;;
  match foldl (laterOfType correlationID sagaType) None (range (sagas s)) with
  | None => Err (SagaNotFoundError "" correlationID)
  | Some state => Ok (copyState state)
  end.

(** ** The lookup finds a saga of the type and correlation, if there is one *)

Lemma laterOfType_loop cid t l acc :
  (∀ a, acc = Some a → sg_CorrelationID a = cid ∧ sg_Type a = t) →
  match foldl (laterOfType cid t) acc l with
  | None => acc = None ∧ ∀ kv, kv ∈ l → ¬ (sg_CorrelationID kv.2 = cid ∧ sg_Type kv.2 = t)
  | Some st => sg_CorrelationID st = cid ∧ sg_Type st = t ∧ (acc = Some st ∨ ∃ k, (k, st) ∈ l)
  end.
Proof.
  revert acc. induction l as [|[k x] l IH]; intros acc Ha; cbn [foldl].
  { destruct acc as [a|]; [destruct (Ha a eq_refl); auto|]. split; [done|]. by intros kv Hk%not_elem_of_nil. }
  assert (∀ a, laterOfType cid t acc (k, x) = Some a → sg_CorrelationID a = cid ∧ sg_Type a = t) as Hn.
  { unfold laterOfType. cbn [snd]. intros a. repeat case_bool_decide; cbn [negb orb]; auto. repeat case_match; intros; simplify_eq; auto. }
  specialize (IH _ Hn). destruct (foldl _ _ l) as [st|].
  - destruct IH as (H1 & H2 & [H3|[k' H3]]); [|by repeat split; try done; right; exists k'; right].
    split; [done|]. split; [done|]. revert H3. unfold laterOfType. cbn [snd].
    repeat case_bool_decide; cbn [negb orb]; try (by left). repeat case_match; intros; simplify_eq;
      try (by left); right; eexists; by left.
  - destruct IH as [H1 H2]. assert (acc = None ∧ ¬ (sg_CorrelationID x = cid ∧ sg_Type x = t)) as [-> Hx].
    { revert H1. unfold laterOfType. cbn [snd]. repeat case_bool_decide; cbn [negb orb]; try naive_solver.
      by destruct acc; [case_match|]. }
    split; [done|]. intros kv [->|Hk]%elem_of_cons; [done|]. by apply H2.
Qed.

Lemma FindByCorrelationIDAndType_spec `{MapOrder} env cid t s :
  cid ≠ "" → t ≠ "" → ctx_Err env = None →
  match FindByCorrelationIDAndType env cid t s with
  | Ok st => sg_CorrelationID st = cid ∧ sg_Type st = t ∧ ∃ id, sagas s !! id = Some st
  | Err e => e = SagaNotFoundError "" cid ∧
      ∀ id st, sagas s !! id = Some st → ¬ (sg_CorrelationID st = cid ∧ sg_Type st = t)
  end.
Proof.
  intros Hc Ht Hctx. unfold FindByCorrelationIDAndType, check_ctx. rewrite !bool_decide_false, Hctx by done. cbn.
  pose proof (laterOfType_loop cid t (range (sagas s)) None ltac:(done)) as Hl.
  destruct (foldl _ None _) as [st|].
  - destruct Hl as (H1 & H2 & [H3|[k H3]]); [done|]. rewrite copyState_id. apply elem_of_range in H3. eauto.
  - destruct Hl as [_ Hl]. split; [done|]. intros id st Hid. apply (Hl (id, st)). by apply elem_of_range.
Qed.
