(* ===== verification/OutboxInterface.v ===== *)
(** * The outbox store interface

    [adapters.OutboxStore] of [src/adapters/adapter.go] as a type class: the
    operations its clients call and what they promise, which the clients'
    theorems rely on, with the in-memory store as an instance of both, and the
    memory adapter's [AppendWithOutbox] over it. *)

From S2P Require Import Prelude.
From S2P Require Import Types.
From S2P Require Import Common.
From S2P Require Import MemoryAdapter.
From S2P Require Import MemorySubscription.
From S2P Require Import OutboxStore.

Class OutboxStoreOps (S : Type) := {
  os_Schedule : Env → list OutboxMessage → op S error (list OutboxMessage);
  os_FetchPending : Env → Z → op S error (list OutboxMessage);
  os_MarkCompleted : Env → list string → op S error unit;
  os_MarkFailed : Env → string → option error → op S error unit;
  os_RetryFailed : Env → Z → op S error Z;
  os_ReclaimStale : Env → Z → op S error Z;
  os_MoveToDeadLetter : Env → Z → op S error Z;
  os_Cleanup : Env → Z → op S error Z;
}.

(** The contract, over the messages the store holds: an operation that fails
    changes nothing, and one that succeeds does what the message machine says.
    Under a live context the store is available. *)
Class OutboxStoreLaws (S : Type) `{OutboxStoreOps S} `{ErrorText} := {
  os_view : S → gmap string OutboxMessage;
  os_schedule_live : ∀ env ms s, ctx_Err env = None → ∃ s' ms', os_Schedule env ms s = (s', Ok ms');
  os_schedule_ok : ∀ env ms s s' ms', os_Schedule env ms s = (s', Ok ms') →
    ms' = scheduled env (time_Now env 0) 0 ms ∧
    os_view s' = foldl (λ m x, <[om_ID x := x]> m) (os_view s) ms';
  os_schedule_err : ∀ env ms s s' e, os_Schedule env ms s = (s', Err e) → s' = s;
  os_fetch_ok : ∀ env n s, ctx_Err env = None → store_wf (os_view s) → ∃ s' ms,
    os_FetchPending env n s = (s', Ok ms) ∧ NoDup (om_ID <$> ms) ∧ store_wf (os_view s') ∧
    (∀ c, c ∈ ms → os_view s' !! om_ID c = Some c ∧
       ∃ m, os_view s !! om_ID c = Some m ∧ isDue (time_Now env 0) m = true ∧ c = claim (time_Now env 0) m) ∧
    (∀ id, id ∉ om_ID <$> ms → os_view s' !! id = os_view s !! id) ∧
    (∀ id m, os_view s !! id = Some m → isDue (time_Now env 0) m = true → id ∉ om_ID <$> ms →
       0 < n ∧ Z.of_nat (length ms) = n);
  os_complete_ok : ∀ env ids s, ctx_Err env = None → ∃ s',
    os_MarkCompleted env ids s = (s', Ok tt) ∧
    ∀ id, os_view s' !! id =
      if decide (id ∈ ids) then complete (time_Now env 0) <$> os_view s !! id else os_view s !! id;
  os_fail_ok : ∀ env id e s m, ctx_Err env = None → os_view s !! id = Some m → ∃ s',
    os_MarkFailed env id e s = (s', Ok tt) ∧ os_view s' = <[id := fail e m]> (os_view s);
  os_retry_ok : ∀ env n s, ctx_Err env = None → Z.of_nat (size (os_view s)) ≤ MaxInt64 → ∃ s' c,
    os_RetryFailed env n s = (s', Ok c) ∧
    os_view s' = (λ m, if retryable n m then set_Status m OutboxPending else m) <$> os_view s;
  os_reclaim_ok : ∀ env d s, ctx_Err env = None → Z.of_nat (size (os_view s)) ≤ MaxInt64 → ∃ s' c,
    os_ReclaimStale env d s = (s', Ok c) ∧
    os_view s' = (λ m, if stale (cutoff env d) m then set_Status m OutboxPending else m) <$> os_view s;
  os_dead_ok : ∀ env n s, ctx_Err env = None → Z.of_nat (size (os_view s)) ≤ MaxInt64 → ∃ s' c,
    os_MoveToDeadLetter env n s = (s', Ok c) ∧
    os_view s' = (λ m, if exhausted n m then set_Status m OutboxDeadLetter else m) <$> os_view s;
}.

(** ** The in-memory store *)

#[export] Instance memory_outbox_ops `{MapOrder} `{SliceSort} `{ErrorText} : OutboxStoreOps OutboxStore := {|
  os_Schedule := Schedule;
  os_FetchPending := FetchPending;
  os_MarkCompleted := MarkCompleted;
  os_MarkFailed := MarkFailed;
  os_RetryFailed := RetryFailed;
  os_ReclaimStale := ReclaimStale;
  os_MoveToDeadLetter := MoveToDeadLetter;
  os_Cleanup := Cleanup;
|}.

Lemma sweep_update_live `{MapOrder} env p f s :
  ctx_Err env = None → Z.of_nat (size (messages s)) ≤ MaxInt64 →
  sweep env (rangeUpdate p f) s =
    (mkOutboxStore ((λ m, if p m then f m else m) <$> messages s), Ok (countWhere p (messages s))).
Proof. intros Hc Hb. unfold sweep, check_ctx. rewrite Hc, rangeUpdate_spec by done. done. Qed.

Lemma memory_fetch_ok `{MapOrder} `{SliceSort} env n s :
  ctx_Err env = None → store_wf (messages s) → ∃ s' ms,
    FetchPending env n s = (s', Ok ms) ∧ NoDup (om_ID <$> ms) ∧ store_wf (messages s') ∧
    (∀ c, c ∈ ms → messages s' !! om_ID c = Some c ∧
       ∃ m, messages s !! om_ID c = Some m ∧ isDue (time_Now env 0) m = true ∧ c = claim (time_Now env 0) m) ∧
    (∀ id, id ∉ om_ID <$> ms → messages s' !! id = messages s !! id) ∧
    (∀ id m, messages s !! id = Some m → isDue (time_Now env 0) m = true → id ∉ om_ID <$> ms →
       0 < n ∧ Z.of_nat (length ms) = n).
Proof.
  intros Hc Hwf. destruct (FetchPending_claims env n s Hwf Hc) as (s' & ms & E & Hnd & _ & _ & Hcl & Hfr & Hrest).
  exists s', ms. split; [done|]. split; [done|]. split; [|split; [|split]].
  - intros id m Hm. destruct (decide (id ∈ om_ID <$> ms)) as [Hin|Hn].
    + apply list_elem_of_fmap in Hin as (c & -> & Hin). destruct (Hcl c Hin) as (_ & Hs' & m0 & _ & _ & Ec).
      simplify_eq. split; [done|]. cbn. apply i64_range.
    + rewrite Hfr in Hm by done. by apply Hwf.
  - intros c Hin. destruct (Hcl c Hin) as (_ & Hs' & Hm). done.
  - done.
  - intros id m Hm Hd Hn. destruct (Hrest id m Hm Hd Hn) as (H1 & H2 & _). done.
Qed.

#[export] Instance memory_outbox_laws `{MapOrder} `{SliceSort} `{ErrorText} : OutboxStoreLaws OutboxStore.
Proof.
  refine {| os_view := messages |}; cbn.
  - intros env ms s Hc. rewrite Schedule_live by done. eauto.
  - intros env ms s s' ms'. destruct (ctx_Err env) eqn:Hc; [unfold Schedule, check_ctx; by rewrite Hc|].
    rewrite Schedule_live by done. by intros [= <- <-].
  - intros env ms s s' e. unfold Schedule. destruct (check_ctx env); [|by intros [= <- _]].
    by destruct (scheduleLoop _ _ _ _ _).
  - intros env n s. apply memory_fetch_ok.
  - intros env ids s Hc. unfold MarkCompleted, check_ctx. rewrite Hc. cbn. eexists. split; [done|].
    intros id. cbn. apply complete_loop.
  - intros env id e s m Hc Hm. unfold MarkFailed, check_ctx. rewrite Hc. cbn. rewrite Hm. eauto.
  - intros env n s Hc Hb. unfold RetryFailed. rewrite sweep_update_live by done. eauto.
  - intros env n s Hc Hb. unfold ReclaimStale. rewrite sweep_update_live by done. eauto.
  - intros env n s Hc Hb. unfold MoveToDeadLetter. rewrite sweep_update_live by done. eauto.
Defined.

(** ** Atomic append with the outbox

    [AppendWithOutbox] of [src/adapters/memory/memory.go]: the events and the
    outbox messages are written in one critical section, the messages into the
    store the caller configured. *)

(** The outbox store is an interface value, [None] when it is nil; [envS] is
    the environment of its [Schedule] call. *)
Definition AppendWithOutbox {S} `{OutboxStoreOps S} (env envS : Env) (recv : nat → nat → nat)
    (streamID : string) (events : list EventRecord) (expectedVersion : Z)
    (outboxMessages : list OutboxMessage)
    : op (MemoryAdapter * option S) error (list StoredEvent * list pendingDrop) := λ '(a, outbox),
  match check_ctx env with
  | Err e => ((a, outbox), Err e)
  | Ok _ =>
      let some := 0 <? Z.of_nat (length outboxMessages) in
      if some && bool_decide (outbox = None) then ((a, outbox), Err ErrNilOutboxStore)
      else match checkAppendLocked streamID events expectedVersion a with
      | Err e => ((a, outbox), Err e)
      | Ok _ =>
          let '(outbox, r) :=
            match some, outbox with
            | true, Some o =>
                let '(o, r) := os_Schedule envS outboxMessages o in
                (Some o, match r with Ok _ => Ok tt | Err e => Err e end)
            | _, _ => (outbox, Ok tt)
            end in
          match r with
          | Err e => ((a, outbox), Err e)
          | Ok _ =>
              match appendLocked env streamID events expectedVersion a with
              | (a, Err e) => ((a, outbox), Err e)
              | (a, Ok storedEvents) =>
                  match notifySubscribers recv (ma_subscribers a) storedEvents (ma_chans a) [] with
                  | Ok (chans, drops) =>
                      ((set_subs a (ma_closed a) (ma_subscribers a) chans (ma_nextChan a), outbox),
                       Ok (storedEvents, drops))
                  | Err e => ((a, outbox), Err e)
                  end
              end
          end
      end
  end.
