(* ===== verification/OutboxProcessor.v ===== *)
(** * The outbox processor

    [src/outbox_processor.go]: the batch that claims, routes and publishes
    messages and records their outcome, the maintenance and clean-up sweeps,
    and the processor's options.  The store is any one that meets
    [OutboxStoreLaws]; a publisher is user code, a function from the messages
    it is given to the error it returns.  Logs and metrics have no effect on
    the outcome and are left out.  The store calls of an operation each run in
    an environment of their own: [envs k] is that of the [k]-th call. *)

From S2P Require Import Prelude.
From S2P Require Import Sha256.
From S2P Require Import Types.
From S2P Require Import OutboxStore.
From S2P Require Import OutboxInterface.

#[local] Arguments Ascii.eqb : simpl never.

(** ** Destinations *)

(** [strings.Index(s, ":")]: what precedes and what follows the first colon. *)
Fixpoint splitColon (s : string) : string * option string :=
  match s with
  | EmptyString => ("", None)
  | String c s' =>
      if Ascii.eqb c ":"%char then ("", Some s')
      else let '(a, b) := splitColon s' in (String c a, b)
  end.

Definition destinationPrefix (destination : string) : string :=
  match splitColon destination with
  | (a, Some _) => if bool_decide (a = "") then destination else a
  | (_, None) => destination
  end.

Definition destinationDigestHexLen : nat := 12.

Definition destinationDigest (dest : string) : string :=
  String.substring 0 destinationDigestHexLen (EncodeToString (Sum256 (bytesOf dest))).

(** [fmt.Errorf("%w: destination digest %s", ErrPublisherNotFound, digest)] *)
Definition unroutable (dest : string) : error :=
  Wrapf ("%w: destination digest " +:+ destinationDigest dest) ErrPublisherNotFound.

(** ** The processor *)

Definition Publisher : Type := list OutboxMessage → option error.

Record OutboxProcessor := mkOutboxProcessor {
  publishers : gmap string Publisher;
  batchSize : Z;
  pollInterval : Duration;
  maxRetries : Z;
  retryBackoff : Duration;
  cleanupInterval : Duration;
  cleanupAge : Duration;
  processingTimeout : Duration;
}.

Definition Second : Duration := 1000000000.

Definition defaultProcessor : OutboxProcessor :=
  mkOutboxProcessor ∅ 100 Second 5 (5 * Second) (3600 * Second) (7 * 24 * 3600 * Second) (5 * 60 * Second).

Definition ProcessorOption : Type := OutboxProcessor → OutboxProcessor.

Definition WithBatchSize (n : Z) : ProcessorOption := λ p,
  if 0 <? n then mkOutboxProcessor (publishers p) n (pollInterval p) (maxRetries p) (retryBackoff p)
    (cleanupInterval p) (cleanupAge p) (processingTimeout p) else p.
Definition WithPollInterval (d : Duration) : ProcessorOption := λ p,
  if 0 <? d then mkOutboxProcessor (publishers p) (batchSize p) d (maxRetries p) (retryBackoff p)
    (cleanupInterval p) (cleanupAge p) (processingTimeout p) else p.
Definition WithMaxRetries (n : Z) : ProcessorOption := λ p,
  if 0 <? n then mkOutboxProcessor (publishers p) (batchSize p) (pollInterval p) n (retryBackoff p)
    (cleanupInterval p) (cleanupAge p) (processingTimeout p) else p.
Definition WithRetryBackoff (d : Duration) : ProcessorOption := λ p,
  if 0 <? d then mkOutboxProcessor (publishers p) (batchSize p) (pollInterval p) (maxRetries p) d
    (cleanupInterval p) (cleanupAge p) (processingTimeout p) else p.
Definition WithCleanupInterval (d : Duration) : ProcessorOption := λ p,
  if 0 <? d then mkOutboxProcessor (publishers p) (batchSize p) (pollInterval p) (maxRetries p)
    (retryBackoff p) d (cleanupAge p) (processingTimeout p) else p.
Definition WithCleanupAge (d : Duration) : ProcessorOption := λ p,
  if 0 <? d then mkOutboxProcessor (publishers p) (batchSize p) (pollInterval p) (maxRetries p)
    (retryBackoff p) (cleanupInterval p) d (processingTimeout p) else p.
Definition WithProcessingTimeout (d : Duration) : ProcessorOption := λ p,
  if 0 <? d then mkOutboxProcessor (publishers p) (batchSize p) (pollInterval p) (maxRetries p)
    (retryBackoff p) (cleanupInterval p) (cleanupAge p) d else p.
(** A publisher registers under its own destination. *)
Definition WithPublisher (destination : string) (publisher : Publisher) : ProcessorOption := λ p,
  mkOutboxProcessor (<[destination := publisher]> (publishers p)) (batchSize p) (pollInterval p)
    (maxRetries p) (retryBackoff p) (cleanupInterval p) (cleanupAge p) (processingTimeout p).

Definition NewOutboxProcessor (opts : list ProcessorOption) : OutboxProcessor :=
  foldl (λ p opt, opt p) defaultProcessor opts.

(** ** A batch

    The store, the number of store calls made, and the groups handed to a
    publisher, in order. *)
Record batch (S : Type) := mkBatch {
  b_store : S;
  b_calls : nat;
  b_published : list (string * list OutboxMessage);
}.
Arguments mkBatch {S}.
Arguments b_store {S}.
Arguments b_calls {S}.
Arguments b_published {S}.

(** One store call. *)
Definition call {S A} (envs : nat → Env) (f : Env → op S error A) (b : batch S) : batch S * res A :=
  let '(s, r) := f (envs (b_calls b)) (b_store b) in
  (mkBatch s (1 + b_calls b)%nat (b_published b), r).

(** [for _, msg := range msgs { store.MarkFailed(ctx, msg.ID, err) }]: an error
    is logged only. *)
Definition markAllFailed {S} `{OutboxStoreOps S} (envs : nat → Env) (err : OutboxMessage → error)
    (msgs : list OutboxMessage) (b : batch S) : batch S :=
  foldl (λ b msg, (call envs (λ env, os_MarkFailed env (om_ID msg) (Some (err msg))) b).1) b msgs.

(** Messages by destination prefix, in the order claimed. *)
Definition groupByPrefix (msgs : list OutboxMessage) : gmap string (list OutboxMessage) :=
  foldl (λ m msg, let prefix := destinationPrefix (om_Destination msg) in
    <[prefix := default [] (m !! prefix) ++ [msg]]> m) ∅ msgs.

Definition publishGroup {S} `{OutboxStoreOps S} (envs : nat → Env) (p : OutboxProcessor)
    (prefix : string) (msgs : list OutboxMessage) (b : batch S) : batch S * res unit :=
  match publishers p !! prefix with
  | None => (markAllFailed envs (λ msg, unroutable (om_Destination msg)) msgs b, Ok tt)
  | Some publisher =>
      let b := mkBatch (b_store b) (b_calls b) (b_published b ++ [(prefix, msgs)]) in
      match publisher msgs with
      | Some err => (markAllFailed envs (λ _, err) msgs b, Ok tt)
      | None =>
          match call envs (λ env, os_MarkCompleted env (om_ID <$> msgs)) b with
          | (b, Err e) => (b, Err (Wrapf "failed to mark messages as completed: %w" e))
          | (b, Ok _) => (b, Ok tt)
          end
      end
  end.

Fixpoint publishLoop {S} `{OutboxStoreOps S} (envs : nat → Env) (p : OutboxProcessor)
    (groups : list (string * list OutboxMessage)) (b : batch S) : batch S * res unit :=
  match groups with
  | [] => (b, Ok tt)
  | (prefix, msgs) :: groups =>
      match publishGroup envs p prefix msgs b with
      | (b, Err e) => (b, Err e)
      | (b, Ok _) => publishLoop envs p groups b
      end
  end.

Definition processBatch {S} `{OutboxStoreOps S} `{MapOrder} (envs : nat → Env) (p : OutboxProcessor)
    (s : S) : batch S * res unit :=
  match call envs (λ env, os_FetchPending env (batchSize p)) (mkBatch s 0 []) with
  | (b, Err e) => (b, Err (Wrapf "failed to fetch pending messages: %w" e))
  | (b, Ok messages) =>
      if bool_decide (length messages = 0%nat) then (b, Ok tt)
      else publishLoop envs p (range (groupByPrefix messages)) b
  end.

(** ** Maintenance *)

Definition runMaintenance {S} `{OutboxStoreOps S} (envs : nat → Env) (p : OutboxProcessor) (s : S) : S :=
  let b := mkBatch s 0 [] in
  let b :=
    if 0 <? processingTimeout p
    then (call envs (λ env, os_ReclaimStale env (processingTimeout p)) b).1 else b in
  let b := (call envs (λ env, os_RetryFailed env (maxRetries p)) b).1 in
  let b := (call envs (λ env, os_MoveToDeadLetter env (maxRetries p)) b).1 in
  b_store b.

Definition runCleanup {S} `{OutboxStoreOps S} (env : Env) (p : OutboxProcessor) (s : S) : S :=
  (os_Cleanup env (cleanupAge p) s).1.

(** ** Lemmas *)

Lemma groupByPrefix_lookup msgs prefix :
  default [] (groupByPrefix msgs !! prefix) =
  filter (λ m, destinationPrefix (om_Destination m) = prefix) msgs.
Proof.
  unfold groupByPrefix. induction msgs as [|m msgs IH] using rev_ind; [done|].
  rewrite foldl_app, filter_app. cbn [foldl]. rewrite (filter_cons _ m []), filter_nil.
  case_decide as Hp.
  - subst. rewrite lookup_insert_eq. cbn. by rewrite IH.
  - rewrite lookup_insert_ne by done. by rewrite IH, app_nil_r.
Qed.

Lemma groupByPrefix_Some msgs prefix g :
  groupByPrefix msgs !! prefix = Some g →
  g = filter (λ m, destinationPrefix (om_Destination m) = prefix) msgs.
Proof. intros E. rewrite <- groupByPrefix_lookup, E. done. Qed.

Lemma groupByPrefix_elem msgs m :
  m ∈ msgs → is_Some (groupByPrefix msgs !! destinationPrefix (om_Destination m)).
Proof.
  intros Hm. destruct (groupByPrefix msgs !! _) eqn:E; [by eexists|].
  pose proof (groupByPrefix_lookup msgs (destinationPrefix (om_Destination m))) as Hl.
  rewrite E in Hl. cbn in Hl. assert (m ∈ @nil OutboxMessage) as Hn; [|by apply not_elem_of_nil in Hn].
  rewrite Hl. by apply list_elem_of_filter.
Qed.

Lemma bind_map_insert {A} (m : gmap string (list A)) k (g : list A) :
  (map_to_list (<[k := g]> m) ≫= snd) ≡ₚ g ++ (map_to_list (delete k m) ≫= snd).
Proof.
  rewrite <- insert_delete_eq, map_to_list_insert by apply lookup_delete_eq. done.
Qed.

Lemma bind_map_delete {A} (m : gmap string (list A)) k :
  (map_to_list m ≫= snd) ≡ₚ default [] (m !! k) ++ (map_to_list (delete k m) ≫= snd).
Proof.
  destruct (m !! k) as [g|] eqn:E; cbn.
  - rewrite <- (insert_id m k g E) at 1. by rewrite bind_map_insert.
  - by rewrite delete_id.
Qed.

Lemma groupByPrefix_perm `{MapOrder} msgs : (range (groupByPrefix msgs) ≫= snd) ≡ₚ msgs.
Proof.
  rewrite range_perm. unfold groupByPrefix. induction msgs as [|m msgs IH] using rev_ind; [done|].
  rewrite foldl_app. cbn [foldl]. set (M := foldl _ _ _) in *. set (p := destinationPrefix _).
  rewrite bind_map_insert. rewrite <- IH, (bind_map_delete M p), <- !app_assoc.
  apply Permutation_app_head, Permutation_app_comm.
Qed.

Lemma groupByPrefix_nonempty msgs prefix g : groupByPrefix msgs !! prefix = Some g → g ≠ [].
Proof.
  unfold groupByPrefix. revert g. induction msgs as [|m msgs IH] using rev_ind; intros g; [done|].
  rewrite foldl_app. cbn [foldl]. destruct (decide (prefix = destinationPrefix (om_Destination m))) as [->|Hne].
  - rewrite lookup_insert_eq. intros [= <-] E. by destruct (app_cons_not_nil _ _ _ (eq_sym E)).
  - rewrite lookup_insert_ne by done. apply IH.
Qed.

Section Processor.
Context {S : Type} `{Hops : OutboxStoreOps S} `{Htext : ErrorText} {Hlaws : OutboxStoreLaws S}.
Context `{Hord : MapOrder} (envs : nat → Env) (p : OutboxProcessor).
Context (Hlive : ∀ k, ctx_Err (envs k) = None).

Abbreviation view b := (os_view (b_store b)).

(** The messages of a group are stored, under distinct ids. *)
Definition stored_group (msgs : list OutboxMessage) (b : batch S) : Prop :=
  NoDup (om_ID <$> msgs) ∧ ∀ m, m ∈ msgs → is_Some (view b !! om_ID m).

Lemma markAllFailed_spec err msgs b :
  stored_group msgs b →
  let b' := markAllFailed envs err msgs b in
  b_published b' = b_published b ∧
  (∀ id, id ∉ om_ID <$> msgs → view b' !! id = view b !! id) ∧
  ∀ m, m ∈ msgs → view b' !! om_ID m = fail (Some (err m)) <$> view b !! om_ID m.
Proof.
  intros [Hnd Hst]. revert b Hst. unfold markAllFailed.
  induction msgs as [|m msgs IH]; intros b Hst; cbn [foldl]; [split; [done|split; [done|]]; intros m Hm; by apply not_elem_of_nil in Hm|].
  cbn [fmap list_fmap] in Hnd. apply NoDup_cons in Hnd as [Hm Hnd].
  destruct (Hst m ltac:(by left)) as [m0 Hm0].
  destruct (os_fail_ok (envs (b_calls b)) (om_ID m) (Some (err m)) (b_store b) m0) as (s' & E & Hs'); [done..|].
  unfold call at 2 4 6. rewrite E. cbn [fst].
  set (b1 := mkBatch s' _ _).
  assert (∀ x, x ∈ msgs → om_ID x ≠ om_ID m) as Hne.
  { intros x Hx E'. apply Hm. rewrite <- E'. by apply list_elem_of_fmap_2. }
  destruct (IH Hnd b1) as (H1 & H2 & H3).
  { intros x Hx. unfold b1; cbn. rewrite Hs', lookup_insert_ne by (apply not_eq_sym; auto).
    apply Hst. by right. }
  split; [done|]. unfold b1 in H2, H3; cbn in H2, H3. rewrite Hs' in H2, H3. split.
  - intros id Hid. cbn [fmap list_fmap] in Hid. apply not_elem_of_cons in Hid as [Hid1 Hid2].
    rewrite H2 by done. by rewrite lookup_insert_ne.
  - intros x [->|Hx]%elem_of_cons.
    + rewrite H2, lookup_insert_eq, Hm0 by done. done.
    + rewrite H3 by done. rewrite lookup_insert_ne by (apply not_eq_sym; auto). done.
Qed.

(** What the publishing of its group makes of a claimed message. *)
Definition settled (prefix : string) (group : list OutboxMessage) (m m' : OutboxMessage) : Prop :=
  match publishers p !! prefix with
  | None => m' = fail (Some (unroutable (om_Destination m))) m
  | Some publisher =>
      match publisher group with
      | Some e => m' = fail (Some e) m
      | None => ∃ t, m' = complete t m
      end
  end.

Definition publishes (prefix : string) (group : list OutboxMessage) : list (string * list OutboxMessage) :=
  match publishers p !! prefix with None => [] | Some _ => [(prefix, group)] end.

Lemma publishGroup_spec prefix msgs b :
  stored_group msgs b → (∀ m, m ∈ msgs → view b !! om_ID m = Some m) →
  let '(b', r) := publishGroup envs p prefix msgs b in
  r = Ok tt ∧ b_published b' = b_published b ++ publishes prefix msgs ∧
  (∀ id, id ∉ om_ID <$> msgs → view b' !! id = view b !! id) ∧
  ∀ m, m ∈ msgs → ∃ m', view b' !! om_ID m = Some m' ∧ settled prefix msgs m m'.
Proof.
  intros Hg Hv. unfold publishGroup, publishes, settled.
  destruct (publishers p !! prefix) as [pub|].
  2: { destruct (markAllFailed_spec (λ msg, unroutable (om_Destination msg)) msgs b Hg) as (H1 & H2 & H3).
       split; [done|]. rewrite app_nil_r. split; [done|]. split; [done|].
       intros m Hm. rewrite H3, Hv by done. by eexists. }
  set (b1 := mkBatch (b_store b) (b_calls b) _).
  destruct (pub msgs) as [e|] eqn:Ep.
  - destruct (markAllFailed_spec (λ _, e) msgs b1 Hg) as (H1 & H2 & H3).
    split; [done|]. split; [done|]. split; [done|].
    intros m Hm. rewrite H3 by done. unfold b1; cbn. rewrite Hv by done. by eexists.
  - destruct (os_complete_ok (envs (b_calls b1)) (om_ID <$> msgs) (b_store b1)) as (s' & E & Hs'); [done|].
    unfold call. rewrite E. cbn. split; [done|]. split; [done|]. split.
    + intros id Hid. rewrite Hs'. by rewrite decide_False.
    + intros m Hm. rewrite Hs', decide_True by (by apply list_elem_of_fmap_2).
      unfold b1; cbn. rewrite Hv by done. cbn. eexists. split; [done|]. by eexists.
Qed.

Lemma publishLoop_spec groups b :
  NoDup (om_ID <$> (groups ≫= snd)) →
  (∀ prefix g m, (prefix, g) ∈ groups → m ∈ g → view b !! om_ID m = Some m) →
  let '(b', r) := publishLoop envs p groups b in
  r = Ok tt ∧ b_published b' = b_published b ++ (groups ≫= λ '(prefix, g), publishes prefix g) ∧
  (∀ id, id ∉ om_ID <$> (groups ≫= snd) → view b' !! id = view b !! id) ∧
  ∀ prefix g m, (prefix, g) ∈ groups → m ∈ g →
    ∃ m', view b' !! om_ID m = Some m' ∧ settled prefix g m m'.
Proof.
  revert b. induction groups as [|[prefix g] groups IH]; intros b Hnd Hv.
  { cbn. rewrite app_nil_r. split; [done|split; [done|split; [done|]]].
    intros ? ? ? Hn. by apply not_elem_of_nil in Hn. }
  cbn [mbind list_bind] in Hnd. rewrite fmap_app in Hnd. apply NoDup_app in Hnd as (Hnd1 & Hdis & Hnd2).
  cbn [publishLoop]. pose proof (publishGroup_spec prefix g b) as Hg.
  destruct (publishGroup envs p prefix g b) as [b1 r1].
  destruct Hg as (-> & Hp1 & Hf1 & Hs1).
  { split; [done|]. intros m Hm. rewrite (Hv prefix g) by (done || by left). by eexists. }
  { intros m Hm. by apply (Hv prefix g); [left|]. }
  assert (∀ m, m ∈ (groups ≫= snd) → om_ID m ∉ om_ID <$> g) as Hm'
    by (intros m Hm Hin; by apply (Hdis _ Hin), list_elem_of_fmap_2).
  assert (∀ prefix' g' m, (prefix', g') ∈ groups → m ∈ g' → m ∈ (groups ≫= snd)) as Hin
    by (intros prefix' g' m Hg Hm; apply list_elem_of_bind; by exists (prefix', g')).
  specialize (IH b1 Hnd2).
  destruct (publishLoop envs p groups b1) as [b2 r2].
  destruct IH as (-> & Hp2 & Hf2 & Hs2).
  { intros prefix' g' m Hg' Hm. rewrite Hf1 by (eapply Hm', Hin; done).
    apply (Hv prefix' g'); [by right|done]. }
  split; [done|]. split; [by rewrite Hp2, Hp1, <- app_assoc|]. split.
  - intros id Hid. cbn [mbind list_bind] in Hid. rewrite fmap_app in Hid.
    apply not_elem_of_app in Hid as [Hi1 Hi2]. by rewrite Hf2, Hf1.
  - intros prefix' g' m [[= -> ->]|Hg']%elem_of_cons Hm; [|by eapply Hs2].
    destruct (Hs1 m Hm) as (m' & Hl & Hset). exists m'. split; [|done].
    rewrite Hf2; [done|]. intros Hn. by apply (Hdis (om_ID m)); [apply list_elem_of_fmap_2|].
Qed.

Lemma published_groups claimed :
  let l := range (groupByPrefix claimed) ≫= λ '(prefix, g), publishes prefix g in
  NoDup l.*1 ∧
  ∀ prefix g, (prefix, g) ∈ l ↔
    is_Some (publishers p !! prefix) ∧ g ≠ [] ∧
    g = filter (λ m, destinationPrefix (om_Destination m) = prefix) claimed.
Proof.
  cbn zeta. set (r := range (groupByPrefix claimed)).
  assert ((r ≫= λ '(prefix, g), publishes prefix g) = filter (λ kv, is_Some (publishers p !! kv.1)) r) as ->.
  { generalize r. clear r. intros r. induction r as [|[k g] r IH]; [done|]. cbn [mbind list_bind].
    rewrite IH, filter_cons. unfold publishes; cbn [fst].
    destruct (publishers p !! k); [by rewrite decide_True by (by eexists)|].
    rewrite decide_False; [done|]. by intros [? [=]]. }
  split; [apply NoDup_fst_filter, NoDup_range_keys|]. intros prefix g.
  rewrite list_elem_of_filter. unfold r. rewrite elem_of_range. cbn [fst]. split.
  - intros [Hp Hg]. split; [done|]. split; [by eapply groupByPrefix_nonempty|].
    by apply groupByPrefix_Some.
  - intros (Hp & Hne & Hg). split; [done|]. pose proof (groupByPrefix_lookup claimed prefix) as Hl.
    rewrite <- Hg in Hl. destruct (groupByPrefix claimed !! prefix); cbn in Hl; by subst.
Qed.

(** ** A batch settles what it claims *)

Lemma processBatch_spec s :
  store_wf (os_view s) →
  ∃ s1 claimed, os_FetchPending (envs 0%nat) (batchSize p) s = (s1, Ok claimed) ∧
  let '(b, r) := processBatch envs p s in
  r = Ok tt ∧
  (∀ id, id ∉ om_ID <$> claimed → view b !! id = os_view s !! id) ∧
  (∀ c, c ∈ claimed → ∃ m', view b !! om_ID c = Some m' ∧
     let prefix := destinationPrefix (om_Destination c) in
     settled prefix (filter (λ m, destinationPrefix (om_Destination m) = prefix) claimed) c m') ∧
  NoDup (b_published b).*1 ∧
  (∀ prefix g, (prefix, g) ∈ b_published b ↔
     is_Some (publishers p !! prefix) ∧ g ≠ [] ∧
     g = filter (λ m, destinationPrefix (om_Destination m) = prefix) claimed).
Proof.
  intros Hwf.
  destruct (os_fetch_ok (envs 0%nat) (batchSize p) s) as (s1 & claimed & E & Hnd & Hwf1 & Hcl & Hfr & _); [done..|].
  exists s1, claimed. split; [done|]. unfold processBatch, call. cbn [b_calls b_store]. rewrite E.
  case_bool_decide as Hlen.
  { apply nil_length_inv in Hlen. subst. cbn. split; [done|]. split; [|split; [|split]].
    - intros id Hid. by apply Hfr.
    - intros c Hc. by apply not_elem_of_nil in Hc.
    - constructor.
    - intros prefix g. split; [intros Hn; by apply not_elem_of_nil in Hn|]. intros (_ & Hne & ->). done. }
  cbn [b_published]. set (b0 := mkBatch s1 _ _).
  pose proof (groupByPrefix_perm claimed) as Hperm.
  pose proof (publishLoop_spec (range (groupByPrefix claimed)) b0) as Hl.
  destruct (publishLoop envs p _ b0) as [b r].
  destruct Hl as (-> & Hp & Hf & Hs).
  { by rewrite Hperm. }
  { intros prefix g m Hg Hm. unfold b0; cbn. apply Hcl. rewrite <- Hperm.
    apply list_elem_of_bind. by exists (prefix, g). }
  split; [done|]. split; [|split; [|]].
  - intros id Hid. rewrite Hf by (by rewrite Hperm). by apply Hfr.
  - intros c Hc. destruct (groupByPrefix_elem claimed c Hc) as [g Hg].
    rewrite <- (groupByPrefix_Some _ _ _ Hg). apply (Hs _ g).
    + by apply elem_of_range.
    + rewrite (groupByPrefix_Some _ _ _ Hg). by apply list_elem_of_filter.
  - rewrite Hp. unfold b0; cbn [b_published]. rewrite app_nil_l. apply published_groups.
Qed.

(** ** Maintenance *)

(** What one maintenance run makes of a message. *)
Definition maintained (e0 : Env) (m : OutboxMessage) : OutboxMessage :=
  let m := if (0 <? processingTimeout p) && stale (cutoff e0 (processingTimeout p)) m
           then set_Status m OutboxPending else m in
  let m := if retryable (maxRetries p) m then set_Status m OutboxPending else m in
  if exhausted (maxRetries p) m then set_Status m OutboxDeadLetter else m.

Lemma runMaintenance_spec s :
  Z.of_nat (size (os_view s)) ≤ MaxInt64 →
  os_view (runMaintenance envs p s) = maintained (envs 0%nat) <$> os_view s.
Proof.
  intros Hb. unfold runMaintenance, maintained.
  assert (∀ (b : batch S), Z.of_nat (size (view b)) ≤ MaxInt64 →
    let b1 := (call envs (λ env, os_RetryFailed env (maxRetries p)) b).1 in
    let b2 := (call envs (λ env, os_MoveToDeadLetter env (maxRetries p)) b1).1 in
    view b2 = (λ m, let m := if retryable (maxRetries p) m then set_Status m OutboxPending else m in
                    if exhausted (maxRetries p) m then set_Status m OutboxDeadLetter else m) <$> view b)
    as Htail.
  { intros b Hsz. cbn zeta. unfold call at 2.
    destruct (os_retry_ok (envs (b_calls b)) (maxRetries p) (b_store b)) as (s1 & c1 & -> & E1); [done..|].
    cbn [fst]. unfold call; cbn [b_calls b_store].
    destruct (os_dead_ok (envs (1 + b_calls b)%nat) (maxRetries p) s1) as (s2 & c2 & -> & E2);
      [done|by rewrite E1, map_size_fmap|].
    cbn [fst b_store]. rewrite E2, E1, <- map_fmap_compose. done. }
  destruct (0 <? processingTimeout p); cbn [andb].
  - unfold call at 3.
    destruct (os_reclaim_ok (envs 0%nat) (processingTimeout p) s) as (s1 & c & E & Es1); [done..|].
    cbn [b_calls b_store]. rewrite E. cbn [fst]. rewrite Htail; cbn [b_store].
    + rewrite Es1, <- map_fmap_compose. done.
    + by rewrite Es1, map_size_fmap.
  - by rewrite Htail.
Qed.
(** ** One cycle: a batch and a maintenance run *)

Definition unpublishable (prefix : string) : Prop :=
  match publishers p !! prefix with
  | None => True
  | Some publisher => ∀ group, publisher group ≠ None
  end.

Lemma settled_progress prefix g m m' :
  settled prefix g m m' →
  om_ID m' = om_ID m ∧ om_Attempts m' = om_Attempts m ∧ om_MaxAttempts m' = om_MaxAttempts m ∧
  om_ScheduledAt m' = om_ScheduledAt m ∧ om_Destination m' = om_Destination m ∧
  (unpublishable prefix → om_Status m' = OutboxFailed).
Proof.
  unfold settled, unpublishable. destruct (publishers p !! prefix) as [pub|]; [|by intros ->].
  destruct (pub g) as [e|] eqn:E; [by intros ->|]. intros [t ->]. cbn. repeat split; try done.
  intros Hu. by destruct (Hu g).
Qed.

(** A batch that is large enough takes every due message. *)
Lemma processBatch_due s id m :
  store_wf (os_view s) → Z.of_nat (size (os_view s)) ≤ MaxInt64 →
  (batchSize p ≤ 0 ∨ Z.of_nat (size (os_view s)) < batchSize p) →
  os_view s !! id = Some m → isDue (time_Now (envs 0%nat) 0) m = true →
  let b := (processBatch envs p s).1 in
  store_wf (view b) ∧ dom (view b) = dom (os_view s) ∧
  ∃ m', view b !! id = Some m' ∧
    om_Attempts m' = i64 (om_Attempts m + 1) ∧ om_MaxAttempts m' = om_MaxAttempts m ∧
    om_ScheduledAt m' = om_ScheduledAt m ∧ om_Destination m' = om_Destination m ∧
    (unpublishable (destinationPrefix (om_Destination m)) → om_Status m' = OutboxFailed).
Proof.
  intros Hwf Hb Hsize Hm Hdue.
  destruct (processBatch_spec s Hwf) as (s1 & claimed & E & Hspec).
  destruct (os_fetch_ok (envs 0%nat) (batchSize p) s) as (s1' & claimed' & E' & Hnd & Hwf1 & Hcl & Hfr & Hall);
    [done..|]. rewrite E in E'. injection E' as <- <-.
  destruct (processBatch envs p s) as [b r]. cbn [fst].
  destruct Hspec as (_ & Hother & Hset & _).
  assert (∀ c, c ∈ claimed → ∃ m0, os_view s !! om_ID c = Some m0 ∧ c = claim (time_Now (envs 0%nat) 0) m0) as Hcm
    by (intros c Hc; destruct (Hcl c Hc) as (_ & m0 & H1 & _ & H3); eauto).
  assert (∀ k, is_Some (view b !! k) ↔ is_Some (os_view s !! k)) as Hdom.
  { intros k. destruct (decide (k ∈ om_ID <$> claimed)) as [Hin|Hn]; [|by rewrite Hother].
    apply list_elem_of_fmap in Hin as (c & -> & Hc).
    destruct (Hset c Hc) as (m' & -> & _). destruct (Hcm c Hc) as (m0 & -> & _). split; by eexists. }
  split; [|split].
  - intros k x Hx. destruct (decide (k ∈ om_ID <$> claimed)) as [Hin|Hn].
    + apply list_elem_of_fmap in Hin as (c & -> & Hc). destruct (Hset c Hc) as (m' & Hm' & Hs).
      simplify_eq. apply settled_progress in Hs as (H1 & H2 & _). rewrite H1, H2. split; [done|].
      destruct (Hcm c Hc) as (m0 & _ & ->). apply i64_range.
    + rewrite Hother in Hx by done. by apply Hwf.
  - apply set_eq. intros k. rewrite !elem_of_dom. apply Hdom.
  - assert (id ∈ om_ID <$> claimed) as Hin.
    { destruct (decide (id ∈ om_ID <$> claimed)) as [|Hn]; [done|exfalso].
      destruct (Hall id m Hm Hdue Hn) as [H1 H2].
      assert (length claimed ≤ size (os_view s))%nat; [|lia].
      rewrite <- (length_fmap om_ID), <- (length_map_to_list (os_view s)), <- (length_fmap fst).
      apply NoDup_incl_length; [by apply NoDup_ListNoDup|]. intros k Hk%list_elem_of_In.
      apply list_elem_of_In. apply list_elem_of_fmap in Hk as (c & -> & Hc).
      destruct (Hcm c Hc) as (m0 & Hm0 & _). apply list_elem_of_fmap. exists (om_ID c, m0).
      split; [done|]. by apply elem_of_map_to_list. }
    apply list_elem_of_fmap in Hin as (c & -> & Hc). destruct (Hset c Hc) as (m' & Hm' & Hs).
    destruct (Hcm c Hc) as (m0 & Hm0 & Ec). rewrite Hm in Hm0. injection Hm0 as <-.
    apply settled_progress in Hs as (_ & H2 & H3 & H4 & H5 & H6). exists m'. split; [done|].
    rewrite H2, H3, H4, H5. rewrite Ec in H6 |- *. done.
Qed.
End Processor.

(** A batch followed by a maintenance run. *)
Definition cycle {S} `{OutboxStoreOps S} `{MapOrder} (batchEnvs maintEnvs : nat → Env)
    (p : OutboxProcessor) (s : S) : S :=
  runMaintenance maintEnvs p (b_store (processBatch batchEnvs p s).1).

(** [n] cycles; the environments of cycle [i] are [be i] and [me i]. *)
Fixpoint cycles {S} `{OutboxStoreOps S} `{MapOrder} (be me : nat → nat → Env) (p : OutboxProcessor)
    (i n : nat) (s : S) : S :=
  match n with
  | O => s
  | Datatypes.S n => cycles be me p (Datatypes.S i) n (cycle (be i) (me i) p s)
  end.

Lemma maintained_failed e0 p m :
  om_Status m = OutboxFailed →
  maintained p e0 m =
    set_Status m (if om_Attempts m <? attemptLimit (maxRetries p) m then OutboxPending else OutboxDeadLetter).
Proof.
  intros Hst. unfold maintained, stale, retryable, exhausted.
  rewrite Hst, (bool_decide_false (OutboxFailed = OutboxProcessing)) by done.
  rewrite andb_false_l, andb_false_r, Hst, (bool_decide_true (OutboxFailed = OutboxFailed)) by done. cbn [andb].
  destruct (om_Attempts m <? attemptLimit (maxRetries p) m) eqn:E; cbn [om_Status set_Status set_Progress].
  - by rewrite bool_decide_false.
  - rewrite Hst, bool_decide_true by done. cbn [andb]. zbool. by rewrite (proj2 (Z.leb_le _ _)).
Qed.

Lemma maintained_dead e0 p m : om_Status m = OutboxDeadLetter → maintained p e0 m = m.
Proof.
  intros Hst. unfold maintained.
  assert (∀ c, stale c m = false) as Hs by (intros; unfold stale; by rewrite Hst).
  assert (∀ n, retryable n m = false) as Hr by (intros; unfold retryable; by rewrite Hst).
  assert (∀ n, exhausted n m = false) as He by (intros; unfold exhausted; by rewrite Hst).
  by rewrite Hs, andb_false_r, Hr, He.
Qed.

Lemma maintained_wf e0 p v : store_wf v → store_wf (maintained p e0 <$> v).
Proof.
  intros Hwf id m'. rewrite lookup_fmap. destruct (v !! id) as [m|] eqn:E; cbn; [|done].
  intros [= <-]. apply Hwf in E as [E1 E2]. unfold maintained. by repeat case_match; cbn.
Qed.

(** ** The properties *)

(** C22: a batch settles every message it claims and touches no other: under a
    live context, for any store that meets its contract and any map order, it
    returns without an error; each claimed message ends completed when the
    publisher of its destination prefix accepted its group, and otherwise
    failed with the publisher's error, or, without a publisher, with an error
    that names the destination only by its digest; and each publisher that is
    registered received its group, the claimed messages of its prefix in claim
    order, exactly once. *)
Theorem process_batch_settles {S} `{OutboxStoreLaws S} `{MapOrder} (envs : nat → Env)
    (p : OutboxProcessor) (s : S) :
  (∀ k, ctx_Err (envs k) = None) → store_wf (os_view s) →
  ∃ s1 claimed, os_FetchPending (envs 0%nat) (batchSize p) s = (s1, Ok claimed) ∧
  let '(b, r) := processBatch envs p s in
  r = Ok tt ∧
  (∀ id, id ∉ om_ID <$> claimed → os_view (b_store b) !! id = os_view s !! id) ∧
  (∀ c, c ∈ claimed → ∃ m', os_view (b_store b) !! om_ID c = Some m' ∧
     let prefix := destinationPrefix (om_Destination c) in
     settled p prefix (filter (λ m, destinationPrefix (om_Destination m) = prefix) claimed) c m') ∧
  NoDup (b_published b).*1 ∧
  (∀ prefix g, (prefix, g) ∈ b_published b ↔
     is_Some (publishers p !! prefix) ∧ g ≠ [] ∧
     g = filter (λ m, destinationPrefix (om_Destination m) = prefix) claimed).
Proof. intros Hlive Hwf. by apply processBatch_spec. Qed.

(** A maintenance run leaves no failed message behind: each one becomes
    pending when its attempts are below the limit (the lower of the
    processor's and its own) and dead-lettered otherwise; completed, pending
    and dead-lettered messages are untouched, and a claimed one is either
    untouched or, when overdue, pending again. *)
Theorem maintenance_resolves_failed {S} `{OutboxStoreLaws S} (envs : nat → Env) (p : OutboxProcessor)
    (s : S) (id : string) (m : OutboxMessage) :
  (∀ k, ctx_Err (envs k) = None) → Z.of_nat (size (os_view s)) ≤ MaxInt64 →
  os_view s !! id = Some m →
  ∃ m', os_view (runMaintenance envs p s) !! id = Some m' ∧ same_content m m' ∧
    om_Attempts m' = om_Attempts m ∧ om_Status m' ≠ OutboxFailed ∧
    match om_Status m with
    | OutboxFailed =>
        om_Status m' = (if om_Attempts m <? Z.min (maxRetries p) (om_MaxAttempts m)
                        then OutboxPending else OutboxDeadLetter)
    | OutboxProcessing =>
        m' = m ∨ (stale (cutoff (envs 0%nat) (processingTimeout p)) m = true ∧ om_Status m' = OutboxPending)
    | _ => m' = m
    end.
Proof.
  intros Hlive Hb Hm. rewrite runMaintenance_spec by done. rewrite lookup_fmap, Hm. cbn [fmap option_fmap option_map].
  eexists. split; [done|]. destruct (decide (om_Status m = OutboxFailed)) as [Hf|Hf].
  { rewrite maintained_failed by done. rewrite Hf. unfold attemptLimit.
    destruct (_ <? _); (split; [done|]); (split; [done|]); by split. }
  assert (∀ x, om_Status x ≠ OutboxFailed → retryable (maxRetries p) x = false) as Hr
    by (intros x Hx; unfold retryable; by rewrite bool_decide_false).
  assert (∀ x, om_Status x ≠ OutboxFailed → exhausted (maxRetries p) x = false) as He
    by (intros x Hx; unfold exhausted; by rewrite bool_decide_false).
  unfold maintained. destruct ((0 <? _) && stale _ m) eqn:Es.
  - rewrite Hr, He by done. cbn. split; [done|]. split; [done|]. split; [done|].
    apply andb_true_iff in Es as [_ Es]. pose proof Es as Es'. unfold stale in Es. zbool.
    replace (om_Status m) with OutboxProcessing. by right.
  - rewrite Hr, He by done. split; [apply same_content_refl|]. split; [done|]. split; [done|].
    destruct (om_Status m); try done; by left.
Qed.

(** C23: a poison message ends in the dead-letter state: if no publisher ever
    accepts the messages of its destination (or there is none), and each cycle
    of batch and maintenance finds it due and has room for it, then after
    exactly as many cycles as it has attempts left it is dead-lettered with
    its attempts at the limit. *)
Theorem poison_message_dead_lettered {S} `{OutboxStoreLaws S} `{MapOrder} (be me : nat → nat → Env)
    (p : OutboxProcessor) (n i : nat) (s : S) (id : string) (m : OutboxMessage) :
  (∀ j k, ctx_Err (be j k) = None ∧ ctx_Err (me j k) = None ∧ om_ScheduledAt m ≤ time_Now (be j k) 0) →
  store_wf (os_view s) → Z.of_nat (size (os_view s)) ≤ MaxInt64 →
  (batchSize p ≤ 0 ∨ Z.of_nat (size (os_view s)) < batchSize p) →
  os_view s !! id = Some m → om_Status m = OutboxPending →
  Z.min (maxRetries p) (om_MaxAttempts m) ≤ MaxInt64 →
  om_Attempts m < Z.min (maxRetries p) (om_MaxAttempts m) →
  unpublishable p (destinationPrefix (om_Destination m)) →
  n = Z.to_nat (Z.min (maxRetries p) (om_MaxAttempts m) - om_Attempts m) →
  ∃ m', os_view (cycles be me p i n s) !! id = Some m' ∧ om_Status m' = OutboxDeadLetter ∧
    om_Attempts m' = Z.min (maxRetries p) (om_MaxAttempts m).
Proof.
  intros Henv Hwf Hb Hsize Hm Hst Hlim Hatt Hun Hn.
  revert i s m Henv Hwf Hb Hsize Hm Hst Hlim Hatt Hun Hn. induction n as [|n IH]; intros; [lia|].
  cbn [cycles]. unfold cycle.
  assert (isDue (time_Now (be i 0%nat) 0) m = true) as Hdue.
  { unfold isDue. rewrite Hst, bool_decide_true by done. cbn. apply negb_true_iff, Z.ltb_ge. apply Henv. }
  destruct (processBatch_due (be i) p ltac:(apply Henv) s id m Hwf Hb Hsize Hm Hdue)
    as (Hwf1 & Hdom & m1 & Hm1 & Ha1 & Hx1 & Hsc1 & Hd1 & Hs1).
  specialize (Hs1 Hun). set (b := (processBatch (be i) p s).1) in *.
  apply Hwf in Hm as Hi. destruct Hi as [_ Hi].
  rewrite i64_id in Ha1 by (unfold in_i64 in *; lia).
  assert (size (os_view (b_store b)) = size (os_view s)) as Hsz by (by rewrite <- !size_dom, Hdom).
  pose proof (runMaintenance_spec (me i) p ltac:(apply Henv) (b_store b) ltac:(by rewrite Hsz)) as Hmt.
  set (s2 := runMaintenance (me i) p (b_store b)) in *.
  assert (os_view s2 !! id = Some (maintained p (me i 0%nat) m1)) as Hm2 by (by rewrite Hmt, lookup_fmap, Hm1).
  rewrite maintained_failed in Hm2 by done. unfold attemptLimit in Hm2. rewrite Hx1, Ha1 in Hm2.
  assert (size (os_view s2) = size (os_view s)) as Hsz2 by (by rewrite Hmt, map_size_fmap).
  assert (store_wf (os_view s2)) as Hwf2 by (rewrite Hmt; by apply maintained_wf).
  destruct (Z.ltb_spec (om_Attempts m + 1) (Z.min (maxRetries p) (om_MaxAttempts m))) as [Hlt|Hge].
  - destruct (IH (Datatypes.S i) s2 (set_Status m1 OutboxPending)) as (m' & Hd1' & Hd2 & Hd3);
      rewrite ?Hsz2; cbn; rewrite ?Hx1, ?Ha1, ?Hsc1, ?Hd1; try done; [lia|].
    exists m'. cbn in Hd3. by rewrite Hx1 in Hd3.
  - assert (n = 0%nat) as -> by lia. eexists. split; [exact Hm2|]. cbn. rewrite Ha1. split; [done|lia].
Qed.

(** ** Witnesses *)

Definition rejecting : Publisher := λ _, Some (External "broker down").
Definition accepting : Publisher := λ _, None.

Definition sampleProcessor (pub : Publisher) : OutboxProcessor :=
  NewOutboxProcessor [WithPublisher "kafka" pub; WithMaxRetries 2; WithBatchSize 10].

Lemma process_batch_settles_witness :
  let b := (@processBatch OutboxStore (@memory_outbox_ops listOrder stableSlice sampleText) listOrder
    (λ _, sampleEnv) (sampleProcessor accepting) sampleOutbox).1 in
  om_Status <$> messages (b_store b) !! "m2" = Some OutboxCompleted ∧ NoDup (b_published b).*1.
Proof.
  destruct (@process_batch_settles OutboxStore (@memory_outbox_ops listOrder stableSlice sampleText) sampleText
    (@memory_outbox_laws listOrder stableSlice sampleText) listOrder (λ _, sampleEnv) (sampleProcessor accepting)
    sampleOutbox (λ _, eq_refl) sampleOutbox_wf) as (s1 & claimed & _ & Hspec).
  split; [by vm_compute|].
  destruct (processBatch _ _ sampleOutbox) as [b r]. cbn [fst]. exact (proj1 (proj2 (proj2 (proj2 Hspec)))).
Defined.

(** The message after a failed delivery. *)
Definition sampleFailed : OutboxStore :=
  b_store (@processBatch OutboxStore (@memory_outbox_ops listOrder stableSlice sampleText) listOrder
    (λ _, sampleEnv) (sampleProcessor rejecting) sampleOutbox).1.

Lemma maintenance_resolves_failed_witness :
  ∃ m m', messages sampleFailed !! "m2" = Some m ∧ om_Status m = OutboxFailed ∧
    messages (@runMaintenance OutboxStore (@memory_outbox_ops listOrder stableSlice sampleText)
      (λ _, sampleEnv) (sampleProcessor rejecting) sampleFailed) !! "m2" = Some m' ∧
    om_Status m' = OutboxPending.
Proof.
  destruct (messages sampleFailed !! "m2") as [m|] eqn:E; [|by vm_compute in E].
  destruct (@maintenance_resolves_failed OutboxStore (@memory_outbox_ops listOrder stableSlice sampleText)
    sampleText (@memory_outbox_laws listOrder stableSlice sampleText) (λ _, sampleEnv) (sampleProcessor rejecting)
    sampleFailed "m2" m (λ _, eq_refl) ltac:(by vm_compute) E) as (m' & H1 & _ & _ & _ & H5).
  exists m, m'. assert (om_Status m = OutboxFailed) as Hf by (vm_compute in E; by injection E as <-).
  split; [done|]. split; [exact Hf|]. split; [exact H1|]. rewrite Hf in H5. rewrite H5.
  vm_compute in E. by injection E as <-.
Defined.

Lemma poison_message_dead_lettered_witness :
  ∃ m', messages (@cycles OutboxStore (@memory_outbox_ops listOrder stableSlice sampleText) listOrder
      (λ _ _, sampleEnv) (λ _ _, sampleEnv) (sampleProcessor rejecting) 0 2 sampleOutbox) !! "m2" = Some m' ∧
    om_Status m' = OutboxDeadLetter ∧ om_Attempts m' = 2.
Proof.
  apply (@poison_message_dead_lettered OutboxStore (@memory_outbox_ops listOrder stableSlice sampleText)
    sampleText (@memory_outbox_laws listOrder stableSlice sampleText) listOrder (λ _ _, sampleEnv) (λ _ _, sampleEnv)
    (sampleProcessor rejecting) 2 0 sampleOutbox "m2" (sampleMessage "m2" 10 3)).
  - intros _ _. split; [reflexivity|]. split; [reflexivity|]. by vm_compute.
  - exact sampleOutbox_wf.
  - by vm_compute.
  - right. by vm_compute.
  - by vm_compute.
  - reflexivity.
  - by vm_compute.
  - by vm_compute.
  - change (∀ group, rejecting group ≠ None). intros group. discriminate.
  - reflexivity.
Defined.
