(* ===== verification/MemoryTheorems.v ===== *)
(** * The in-memory event store: its operations as a transition system

    [label] names every operation that changes the adapter and [runLabel] runs
    it; a state is reachable when a sequence of them leads to it from
    [NewAdapter].  The theorems are the guarantees of the event store: the log
    invariant holds in every reachable state and nothing panics or blocks,
    optimistic concurrency admits one writer per version, catch-up paging and
    subscriptions miss nothing. *)

From S2P Require Import Prelude.
From S2P Require Import Types.
From S2P Require Import Common.
From S2P Require Import OutboxStore.
From S2P Require Import OutboxInterface.
From S2P Require Import MemoryAdapter.
From S2P Require Import LogInvariant.
From S2P Require Import MemorySubscription.
From S2P Require Import MemoryAdmin.

(** ** Operations as labels *)

Inductive label :=
| LAppend (env : Env) (recv : nat → nat → nat) (sid : string) (evs : list EventRecord) (exp : Z)
| LAppendWithOutbox {S} `{OutboxStoreOps S} (env envS : Env) (recv : nat → nat → nat) (sid : string)
    (evs : list EventRecord) (exp : Z) (msgs : list OutboxMessage) (outbox : option S)
| LRewrite (env : Env) (sid : string) (version : Z) (data : Bytes) (md : Metadata)
| LSaveSnapshot (env : Env) (sid : string) (version : Z) (data : Bytes)
| LDeleteSnapshot (env : Env) (sid : string)
| LSetCheckpoint (env : Env) (name : string) (position : Z)
| LSubscribe (env : Env) (from : Z) (opts : list SubscriptionOptions)
| LSubscribeStream (env : Env) (sid : string) (fromVersion : Z) (opts : list SubscriptionOptions)
| LSubscribeCategory (env : Env) (category : string) (from : Z) (opts : list SubscriptionOptions)
| LReceive (ch n : nat)
| LCancel (ch : nat)
| LSetProjectionStatus (env : Env) (name status : string)
| LResetProjection (env : Env) (name : string)
| LRecordMigration (env : Env) (name : string)
| LRemoveMigration (env : Env) (name : string)
| LClose
| LReset.

Definition void {A} (x : MemoryAdapter * res A) : MemoryAdapter * res unit :=
  (x.1, match x.2 with Ok _ => Ok tt | Err e => Err e end).

Definition receive (ch n : nat) (a : MemoryAdapter) : MemoryAdapter :=
  set_subs a (ma_closed a) (ma_subscribers a) (alter (chanRecv n) ch (ma_chans a)) (ma_nextChan a).

Definition runLabel (l : label) (a : MemoryAdapter) : MemoryAdapter * res unit :=
  match l with
  | LAppend env recv sid evs exp => void (Append env recv sid evs exp a)
  | LAppendWithOutbox env envS recv sid evs exp msgs outbox =>
      let '((a', _), r) := AppendWithOutbox env envS recv sid evs exp msgs (a, outbox) in void (a', r)
  | LRewrite env sid v d m => RewriteEventData env sid v d m a
  | LSaveSnapshot env sid v d => SaveSnapshot env sid v d a
  | LDeleteSnapshot env sid => DeleteSnapshot env sid a
  | LSetCheckpoint env n p => SetCheckpoint env n p a
  | LSubscribe env from opts => void (SubscribeAll env from opts a)
  | LSubscribeStream env sid from opts => void (SubscribeStream env sid from opts a)
  | LSubscribeCategory env category from opts => void (SubscribeCategory env category from opts a)
  | LReceive ch n => (receive ch n a, Ok tt)
  | LCancel ch => removeSubscriber ch a
  | LSetProjectionStatus env n s => SetProjectionStatus env n s a
  | LResetProjection env n => ResetProjectionCheckpoint env n a
  | LRecordMigration env n => RecordMigration env n a
  | LRemoveMigration env n => RemoveMigrationRecord env n a
  | LClose => Close a
  | LReset => (Reset a, Ok tt)
  end.

(** What the platform guarantees of a call: slices stay within [int], the
    buffer a subscription asks for can be allocated, a context error is neither a
    panic nor a blocked channel, and an outbox store the adapter is given does
    not panic or block. *)
Definition runtime_error (e : error) : Prop :=
  e = Blocked ∨ ∃ w, e = Panic w.

Definition env_ok (env : Env) : Prop :=
  (∀ e, ctx_Err env = Some e → ¬ runtime_error e) ∧ ¬ runtime_error (ctx_DoneErr env).

Definition admissible (l : label) (a : MemoryAdapter) : Prop :=
  match l with
  | LAppend env _ _ evs _ =>
      env_ok env ∧ Z.of_nat (length (ma_globalEvents a) + length evs) ≤ MaxInt64
  | LAppendWithOutbox env envS _ _ evs _ msgs outbox =>
      env_ok env ∧ Z.of_nat (length (ma_globalEvents a) + length evs) ≤ MaxInt64 ∧
      ∀ o o' e, outbox = Some o → os_Schedule envS msgs o = (o', Err e) → ¬ runtime_error e
  | LSubscribe env _ opts | LSubscribeStream env _ _ opts | LSubscribeCategory env _ _ opts =>
      env_ok env ∧ getBufferSize opts + Z.of_nat (length (ma_globalEvents a)) ≤ maxChanSize
  | LRewrite env _ _ _ _ | LSaveSnapshot env _ _ _ | LDeleteSnapshot env _
  | LSetCheckpoint env _ _ | LSetProjectionStatus env _ _ | LResetProjection env _
  | LRecordMigration env _ | LRemoveMigration env _ => env_ok env
  | _ => True
  end.

Inductive reachable : MemoryAdapter → Prop :=
| reachable_new : reachable NewAdapter
| reachable_step a l : reachable a → admissible l a → reachable (runLabel l a).1.

Record adapter_wf (a : MemoryAdapter) : Prop := {
  aw_log : log_wf a;
  aw_chans : chans_wf a;
}.

(** ** Preservation, operation by operation *)

Lemma NewAdapter_wf : adapter_wf NewAdapter.
Proof.
  split; split; cbn; try done.
  - split; [constructor|]. intros s Hs. by apply not_elem_of_nil in Hs.
Qed.

(** A state that keeps the log and the channels keeps the invariant. *)
Lemma adapter_wf_same a a' :
  ma_streams a' = ma_streams a → ma_globalEvents a' = ma_globalEvents a →
  ma_globalPosition a' = ma_globalPosition a →
  ma_subscribers a' = ma_subscribers a → ma_chans a' = ma_chans a →
  ma_nextChan a' = ma_nextChan a → ma_closed a' = ma_closed a →
  adapter_wf a → adapter_wf a'.
Proof.
  intros E1 E2 E3 E4 E5 E6 E7 [[] []]. split; split; rewrite ?E1, ?E2, ?E3, ?E4, ?E5, ?E6, ?E7; done.
Qed.

(** The log invariant only reads the streams, the log and the position. *)
Lemma log_wf_same a a' :
  ma_streams a' = ma_streams a → ma_globalEvents a' = ma_globalEvents a →
  ma_globalPosition a' = ma_globalPosition a → log_wf a → log_wf a'.
Proof. intros E1 E2 E3 []. split; rewrite ?E1, ?E2, ?E3; done. Qed.

Lemma log_wf_set_subs a c s ch n : log_wf a → log_wf (set_subs a c s ch n).
Proof. intros []. by split. Qed.

Lemma receive_wf ch n a : adapter_wf a → adapter_wf (receive ch n a).
Proof.
  intros [Hl [[Hnd Hop] Hf Hc]]. split; [by apply log_wf_set_subs|]. split; cbn; [split; [done|]| |done].
  - intros s Hs. destruct (Hop s Hs) as (c & Hc' & Hok).
    destruct (decide (sub_ch s = ch)) as [<-|].
    + exists (chanRecv n c). rewrite lookup_alter_eq, Hc'. split; [done|auto with mink].
    + rewrite lookup_alter_ne by done. eauto.
  - intros m c. destruct (decide (m = ch)) as [->|].
    + rewrite lookup_alter_eq. destruct (ma_chans a !! ch) eqn:E; [|done]. cbn. eauto.
    + rewrite lookup_alter_ne by done. apply Hf.
Qed.

(** The append with its fan-out: the log refines, the fan-out is total. *)
Lemma Append_spec env recv sid evs exp a :
  adapter_wf a → check_ctx env = Ok tt →
  Z.of_nat (length (ma_globalEvents a) + length evs) ≤ MaxInt64 →
  let '(a', r) := Append env recv sid evs exp a in
  adapter_wf a' ∧ ma_subscribers a' = ma_subscribers a ∧
  match r with
  | Ok (stored, drops) =>
      LogSpec.append env sid evs exp (abs a) = (abs a', Ok stored) ∧
      ∃ mask,
        drops = (ma_subscribers a ≫= λ s, report s (keep (negb <$> mask (sub_ch s)) stored)) ∧
        ∀ s c, s ∈ ma_subscribers a → ma_chans a !! sub_ch s = Some c →
          length (mask (sub_ch s)) = length stored ∧
          ∃ c', ma_chans a' !! sub_ch s = Some c' ∧ ch_cap c' = ch_cap c ∧
            chanSent c' = chanSent c ++ keep (mask (sub_ch s)) stored ∧
            (Z.of_nat (length (ch_buf c)) + Z.of_nat (length stored) ≤ ch_cap c →
               mask (sub_ch s) = replicate (length stored) true ∧
               Z.of_nat (length (ch_buf c')) ≤
                 Z.of_nat (length (ch_buf c)) + Z.of_nat (length stored))
  | Err e => a' = a ∧ LogSpec.append env sid evs exp (abs a) = (abs a, Err e)
  end.
Proof.
  intros [Hl Hc] Hctx Hfits. unfold Append, guarded. rewrite Hctx.
  pose proof (appendLocked_refines env sid evs exp a Hl Hfits) as H.
  destruct (appendLocked env sid evs exp a) as [a1 [stored|e]] eqn:E; destruct H as (Hl1 & Hs & Href).
  - pose proof (chans_wf_same_rest _ _ Hs Hc) as Hc1.
    destruct (notifySubscribers_spec recv (ma_subscribers a1) stored (ma_chans a1) [] (cw_subs _ Hc1))
      as (mask & chans' & -> & Hsw & Hun & Hper).
    destruct Hs as (_ & _ & Hcl & Hsub & _ & _ & Hch & Hnx).
    split; [split; [by apply log_wf_set_subs|split; cbn; [done| |apply Hc1]]|].
    + intros n c Hn. destruct (decide (n ∈ sub_ch <$> ma_subscribers a1)) as [Hin|Hni].
      * apply list_elem_of_fmap in Hin as (s & -> & Hin).
        destruct (sw_open _ _ (cw_subs _ Hc1) s Hin) as (c' & Hc' & _). by eapply (cw_fresh _ Hc1).
      * rewrite Hun in Hn by done. by eapply (cw_fresh _ Hc1).
    + cbn. split; [done|]. split; [done|]. exists mask. rewrite <- Hsub, <- Hch. by split.
  - assert (a1 = a) as ->.
    { unfold appendLocked, guarded in E. go_cases. done. }
    split; [by split|]. split; [done|]. split; [done|]. done.
Qed.

Lemma Append_ctx env recv sid evs exp a e :
  check_ctx env = Err e → Append env recv sid evs exp a = (a, Err e).
Proof. intros H. unfold Append. by apply guarded_Err. Qed.

Lemma appendLocked_Ok env sid evs exp a u :
  checkAppendLocked sid evs exp a = Ok u → ∃ a' stored, appendLocked env sid evs exp a = (a', Ok stored).
Proof.
  intros Hc. unfold appendLocked. rewrite (guarded_Ok _ _ _ u Hc).
  repeat match goal with |- context [let '_ := ?x in _] => destruct x end. eauto.
Qed.

(** Once the checks pass, [Append] is the locked append and the fan-out. *)
Lemma Append_factors env recv sid evs exp a u :
  adapter_wf a → check_ctx env = Ok tt →
  Z.of_nat (length (ma_globalEvents a) + length evs) ≤ MaxInt64 →
  checkAppendLocked sid evs exp a = Ok u →
  ∃ a' out, Append env recv sid evs exp a = (a', Ok out) ∧
    match appendLocked env sid evs exp a with
    | (a1, Ok stored) =>
        match notifySubscribers recv (ma_subscribers a1) stored (ma_chans a1) [] with
        | Ok (chans, drops) =>
            a' = set_subs a1 (ma_closed a1) (ma_subscribers a1) chans (ma_nextChan a1) ∧ out = (stored, drops)
        | Err _ => False
        end
    | (_, Err _) => False
    end.
Proof.
  intros Hwf Hctx Hfits Hchk.
  pose proof (Append_spec env recv sid evs exp a Hwf Hctx Hfits) as Hspec.
  destruct (appendLocked_Ok env sid evs exp a u Hchk) as (a1 & stored & E).
  unfold Append, guarded in *. rewrite Hctx, E in *.
  destruct (notifySubscribers _ _ _ _ _) as [[chans drops]|e]; [by eauto|].
  destruct Hspec as (_ & _ & Ha1 & Hs). exfalso.
  pose proof (appendLocked_refines env sid evs exp a (aw_log _ Hwf) Hfits) as Href.
  rewrite E in Href. destruct Href as (_ & _ & Href). congruence.
Qed.

(** With an outbox it is the plain append, unless the messages have no store or
    the store does not take them: then nothing happened. *)
Lemma AppendWithOutbox_adapter {S} `{OutboxStoreOps S} env envS recv sid evs exp msgs a (o : option S) :
  adapter_wf a → Z.of_nat (length (ma_globalEvents a) + length evs) ≤ MaxInt64 →
  let '((a', o'), r) := AppendWithOutbox env envS recv sid evs exp msgs (a, o) in
  (a', r) = Append env recv sid evs exp a ∨
  a' = a ∧ ∃ e, r = Err e ∧ (e = ErrNilOutboxStore ∨ ∃ s s', o = Some s ∧ os_Schedule envS msgs s = (s', Err e)).
Proof.
  intros Hwf Hfits. unfold AppendWithOutbox.
  destruct (check_ctx env) as [[]|e] eqn:Hctx; [|left; by rewrite (Append_ctx _ _ _ _ _ _ e)].
  destruct ((0 <? Z.of_nat (length msgs)) && bool_decide (o = None)); [by right; eauto|].
  destruct (checkAppendLocked sid evs exp a) as [u|e] eqn:Hchk.
  2: { left. unfold Append, guarded. rewrite Hctx. unfold appendLocked. by rewrite (guarded_Err _ _ _ e Hchk). }
  assert (∀ o' : option S,
    let '((a', _), r) :=
      match appendLocked env sid evs exp a with
      | (a, Err e) => ((a, o'), Err e)
      | (a, Ok storedEvents) =>
          match notifySubscribers recv (ma_subscribers a) storedEvents (ma_chans a) [] with
          | Ok (chans, drops) =>
              ((set_subs a (ma_closed a) (ma_subscribers a) chans (ma_nextChan a), o'), Ok (storedEvents, drops))
          | Err e => ((a, o'), Err e)
          end
      end in
    (a', r) = Append env recv sid evs exp a ∨
    a' = a ∧ ∃ e, r = Err e ∧ (e = ErrNilOutboxStore ∨ ∃ s s', o = Some s ∧ os_Schedule envS msgs s = (s', Err e))) as Hend.
  { intros o'. unfold Append, guarded. rewrite Hctx. destruct (appendLocked _ _ _ _ _) as [a1 [stored|e]].
    - destruct (notifySubscribers _ _ _ _ _) as [[chans drops]|e]; by left.
    - by left. }
  destruct (0 <? Z.of_nat (length msgs)), o as [s|]; try apply Hend.
  destruct (os_Schedule envS msgs s) as [s' [ms'|e]] eqn:Es; [apply Hend|]. right. eauto 8.
Qed.

(** ** Helpers for the guarantees *)

Lemma check_ctx_runtime env e :
  env_ok env → check_ctx env = Err e → ¬ runtime_error e.
Proof.
  intros [H _]. unfold check_ctx, returnErr. destruct (ctx_Err env) eqn:E; [|done].
  intros [= <-]. by apply H.
Qed.

(** The guard every operation starts with only fails with ordinary errors. *)
Lemma open_guard_runtime env a e :
  env_ok env → (check_ctx env;; returnIf (ma_closed a) ErrAdapterClosed) = Err e →
  ¬ runtime_error e.
Proof.
  intros Hok [H|(? & _ & H)]%bind_Err; [by eapply check_ctx_runtime|].
  unfold returnIf in H. destruct (ma_closed a); [|done]. injection H as <-.
  intros [|[? ?]]; done.
Qed.

Lemma LogSpec_append_runtime env sid evs exp s s' e :
  LogSpec.append env sid evs exp s = (s', Err e) → ¬ runtime_error e.
Proof.
  unfold LogSpec.append, returnIf, CheckVersion. intros H Hr.
  go_cases; destruct Hr as [|[? ?]]; simplify_eq/=;
    unfold returnIf in *; go_cases.
Qed.

Definition safe_outcome (x : MemoryAdapter * res unit) : Prop :=
  adapter_wf x.1 ∧ ∀ e, x.2 = Err e → ¬ runtime_error e.

(** An operation behind the common guard is safe when its body is. *)
Lemma guarded_safe env (body : op MemoryAdapter error unit) a :
  env_ok env → adapter_wf a → safe_outcome (body a) →
  safe_outcome (guarded (λ a, check_ctx env;; returnIf (ma_closed a) ErrAdapterClosed) body a).
Proof.
  intros Hok Hwf Hb. unfold guarded.
  destruct (check_ctx env;; returnIf (ma_closed a) ErrAdapterClosed) eqn:E; [done|].
  split; [done|]. cbn. intros e' [= <-]. by eapply open_guard_runtime.
Qed.

Lemma safe_Ok a a' :
  adapter_wf a → ma_streams a' = ma_streams a → ma_globalEvents a' = ma_globalEvents a →
  ma_globalPosition a' = ma_globalPosition a → ma_subscribers a' = ma_subscribers a →
  ma_chans a' = ma_chans a → ma_nextChan a' = ma_nextChan a → ma_closed a' = ma_closed a →
  safe_outcome (a', Ok tt).
Proof. intros. split; [by eapply adapter_wf_same|done]. Qed.

Lemma RewriteEventData_safe env sid v d m a :
  env_ok env → adapter_wf a → safe_outcome (RewriteEventData env sid v d m a).
Proof.
  intros Hok Hwf. destruct (RewriteEventData env sid v d m a) as [a' [[]|e]] eqn:E.
  - destruct (RewriteEventData_Ok _ _ _ _ _ _ _ (aw_log _ Hwf) E) as (Hl & Hs & _).
    split; [|done]. split; [done|]. eapply chans_wf_same_rest; [done|apply Hwf].
  - pose proof (RewriteEventData_Err _ _ _ _ _ _ _ _ E) as ->. split; [done|]. cbn.
    intros e' [= <-]. unfold RewriteEventData, guarded in E.
    destruct (check_ctx env;; returnIf (ma_closed a) ErrAdapterClosed) eqn:G.
    + go_cases; intros [|[? ?]]; done.
    + injection E as <-. by eapply open_guard_runtime.
Qed.

Lemma Append_safe env recv sid evs exp a :
  adapter_wf a → admissible (LAppend env recv sid evs exp) a →
  safe_outcome (runLabel (LAppend env recv sid evs exp) a).
Proof.
  intros Hwf [Hok Hfits]. cbn. destruct (check_ctx env) as [[]|e] eqn:G.
  - pose proof (Append_spec env recv sid evs exp a Hwf G Hfits) as H.
    destruct (Append env recv sid evs exp a) as [a' [[stored drops]|e]]; destruct H as (? & _ & H);
      split; cbn; try done.
    intros e' [= <-]. destruct H as [_ H]. by eapply LogSpec_append_runtime.
  - rewrite (Append_ctx _ _ _ _ _ _ e) by done. split; [done|]. cbn. intros e' [= <-].
    by eapply check_ctx_runtime.
Qed.

Lemma AppendWithOutbox_safe {S} `{OutboxStoreOps S} env envS recv sid evs exp msgs (o : option S) a :
  adapter_wf a → admissible (LAppendWithOutbox env envS recv sid evs exp msgs o) a →
  safe_outcome (runLabel (LAppendWithOutbox env envS recv sid evs exp msgs o) a).
Proof.
  intros Hwf (Hok & Hfits & Hout). cbn [runLabel].
  pose proof (AppendWithOutbox_adapter env envS recv sid evs exp msgs a o Hwf Hfits) as Hx.
  destruct (AppendWithOutbox _ _ _ _ _ _ _ _) as [[a' o'] r].
  destruct Hx as [->|(-> & e & -> & He)]; [by apply Append_safe|]. split; [done|]. cbn.
  intros e' [= <-]. destruct He as [->|(s & s' & -> & Hs)]; [by intros [|[? ?]]|by eapply Hout].
Qed.

Lemma SubscribeAll_safe env from opts a :
  adapter_wf a → admissible (LSubscribe env from opts) a →
  safe_outcome (runLabel (LSubscribe env from opts) a).
Proof.
  intros Hwf [Hok Hfits]. cbn.
  pose proof (SubscribeAll_spec env from opts a (aw_log _ Hwf) (aw_chans _ Hwf)) as H.
  destruct (SubscribeAll env from opts a) as [a' r]. destruct H as (Hc & Habs & Hs & Hg & Hr).
  { split; [|done]. unfold getBufferSize, defaultSubscriptionBuffer.
    destruct opts as [|o ?]; [lia|]. destruct (0 <? so_BufferSize o) eqn:E; zbool; lia. }
  split; cbn.
  - split; [|done]. injection Habs as Hge Hcl. apply (log_wf_same a); [done..|apply Hwf].
  - intros e. destruct r as [|e']; [done|]. intros [= ->].
    destruct Hr as [Hr|[-> _]]; [by eapply open_guard_runtime|apply Hok].
Qed.

(** The filtered subscriptions check the context first. *)
Lemma subscription_safe {T} env (out : nat → T) from opts a :
  adapter_wf a → admissible (LSubscribe env from opts) a →
  safe_outcome (void (guarded (λ _, check_ctx env) (λ a,
    match SubscribeAll env from opts a with (a1, Ok ch) => (a1, Ok (out ch)) | (a1, Err e) => (a1, Err e) end) a)).
Proof.
  intros Hwf Hadm. unfold guarded. destruct (check_ctx env) as [[]|e] eqn:E.
  - pose proof (SubscribeAll_safe env from opts a Hwf Hadm) as Hs. cbn [runLabel] in Hs.
    by destruct (SubscribeAll env from opts a) as [a1 [ch|e]].
  - split; [done|]. cbn. intros e' [= <-]. destruct Hadm. by eapply check_ctx_runtime.
Qed.

Lemma Reset_wf a : adapter_wf a → adapter_wf (Reset a).
Proof.
  intros [_ [H1 H2 H3]]. split; split; cbn; try done.
Qed.

Lemma runLabel_safe l a : adapter_wf a → admissible l a → safe_outcome (runLabel l a).
Proof.
  intros Hwf Hadm. destruct l; cbn [runLabel]; cbn [admissible] in Hadm.
  - by apply Append_safe.
  - by apply AppendWithOutbox_safe.
  - by apply RewriteEventData_safe.
  - apply guarded_safe; [done|done|]. by apply (safe_Ok a).
  - apply guarded_safe; [done|done|]. by apply (safe_Ok a).
  - apply guarded_safe; [done|done|]. by apply (safe_Ok a).
  - by apply SubscribeAll_safe.
  - by apply subscription_safe.
  - by apply subscription_safe.
  - split; [by apply receive_wf|done].
  - pose proof (removeSubscriber_spec ch a (aw_chans _ Hwf)) as H.
    destruct (removeSubscriber ch a) as [a' r].
    destruct H as (-> & Hc & Habs & _ & _ & _ & Hs & Hg). split; [|done]. split; [|done].
    injection Habs as Hge Hcl. apply (log_wf_same a); [done..|apply Hwf].
  - apply guarded_safe; [done|done|]. destruct (ma_projections a !! name); [by apply (safe_Ok a)|].
    split; [done|]. intros e [= <-] [|[? ?]]; done.
  - apply guarded_safe; [done|done|]. cbn.
    destruct (ma_projections a !! name); by apply (safe_Ok a).
  - apply guarded_safe; [done|done|]. by apply (safe_Ok a).
  - apply guarded_safe; [done|done|]. by apply (safe_Ok a).
  - destruct (Close_spec a (aw_chans _ Hwf)) as (a' & -> & Hc & _ & _ & Hs & Hge & Hg & _).
    split; [|done]. split; [|done]. apply (log_wf_same a); [done..|apply Hwf].
  - split; [by apply Reset_wf|done].
Qed.

Lemma reachable_wf a : reachable a → adapter_wf a.
Proof.
  induction 1 as [|a l _ IH Hadm]; [apply NewAdapter_wf|]. by apply runLabel_safe.
Qed.

#[export] Hint Resolve NewAdapter_wf reachable_wf aw_log aw_chans : mink.

(** ** Runs without [Reset] *)

(** What happens between two states when nobody resets the adapter. *)
Inductive runs : MemoryAdapter → MemoryAdapter → Prop :=
| runs_refl a : runs a a
| runs_step a l a' : l ≠ LReset → admissible l a → runs (runLabel l a).1 a' → runs a a'.

(** Every operation but [Reset] extends the log, up to rewritten payloads. *)
Definition log_extends (l l' : list StoredEvent) : Prop :=
  ∃ l1 l2, l' = l1 ++ l2 ∧ Forall2 same_header l l1.

Lemma log_extends_refl l : log_extends l l.
Proof. exists l, []. rewrite app_nil_r. split; [done|]. by apply Forall_Forall2_diag, Forall_true. Qed.

Lemma log_extends_trans l1 l2 l3 : log_extends l1 l2 → log_extends l2 l3 → log_extends l1 l3.
Proof.
  intros (p & q & -> & H1) (p' & q' & -> & H2).
  apply Forall2_app_inv_l in H2 as (m1 & m2 & Hm1 & Hm2 & ->).
  exists m1, (m2 ++ q'). rewrite <- app_assoc. split; [done|]. by etrans.
Qed.

Lemma log_extends_version sid l l' :
  log_extends l l' → LogSpec.version sid l ≤ LogSpec.version sid l'.
Proof.
  intros (l1 & l2 & -> & H). unfold LogSpec.version. rewrite stream_app, length_app.
  pose proof (Forall2_length _ _ _ (stream_headers sid _ _ H)). lia.
Qed.

Lemma Forall2_same_header_insert i e d m (l : list StoredEvent) :
  l !! i = Some e → Forall2 same_header l (<[i := set_Payload e d m]> l).
Proof.
  intros Hi. rewrite <- (list_insert_id l i e) at 1 by done.
  apply Forall2_insert; [|done]. by apply Forall_Forall2_diag, Forall_true.
Qed.

Lemma Append_extends env recv sid evs exp a :
  adapter_wf a → Z.of_nat (length (ma_globalEvents a) + length evs) ≤ MaxInt64 →
  log_extends (ma_globalEvents a) (ma_globalEvents (Append env recv sid evs exp a).1).
Proof.
  intros Hwf Hfits. destruct (check_ctx env) as [[]|e] eqn:G.
  - pose proof (Append_spec env recv sid evs exp a Hwf G Hfits) as H.
    destruct (Append env recv sid evs exp a) as [a' [[stored drops]|e]]; destruct H as (? & _ & H).
    + destruct H as [H _]. apply LogSpec_append_Ok in H as [H _]. injection H as H _. cbn. rewrite H.
      exists (ma_globalEvents a). eexists. split; [done|]. by apply Forall_Forall2_diag, Forall_true.
    + destruct H as [-> _]. apply log_extends_refl.
  - rewrite (Append_ctx _ _ _ _ _ _ e) by done. apply log_extends_refl.
Qed.

Lemma SubscribeAll_same_log env from opts a :
  adapter_wf a → getBufferSize opts + Z.of_nat (length (ma_globalEvents a)) ≤ maxChanSize →
  ma_globalEvents (SubscribeAll env from opts a).1 = ma_globalEvents a.
Proof.
  intros Hwf Hfits. pose proof (SubscribeAll_spec env from opts a (aw_log _ Hwf) (aw_chans _ Hwf)) as H.
  destruct (SubscribeAll env from opts a) as [a' r]. destruct H as (_ & Habs & _); [|by injection Habs].
  split; [|done]. unfold getBufferSize, defaultSubscriptionBuffer.
  destruct opts as [|o ?]; [lia|]. destruct (0 <? so_BufferSize o) eqn:E; zbool; lia.
Qed.

Lemma runLabel_extends l a :
  adapter_wf a → admissible l a → l ≠ LReset →
  log_extends (ma_globalEvents a) (ma_globalEvents (runLabel l a).1).
Proof.
  intros Hwf Hadm Hnr.
  assert (∀ a' : MemoryAdapter, ma_globalEvents a' = ma_globalEvents a →
            log_extends (ma_globalEvents a) (ma_globalEvents a')) as Hsame
    by (intros a' ->; apply log_extends_refl).
  destruct l; cbn [runLabel]; cbn [admissible] in Hadm; try done;
    try (unfold SaveSnapshot, DeleteSnapshot, SetCheckpoint, SetProjectionStatus,
           ResetProjectionCheckpoint, RecordMigration, RemoveMigrationRecord, guarded;
         apply Hsame; go_cases; done).
  - destruct Hadm. by apply Append_extends.
  - destruct Hadm as (_ & Hfits & _). pose proof (AppendWithOutbox_adapter env envS recv sid evs exp msgs a outbox Hwf Hfits) as Hx.
    destruct (AppendWithOutbox _ _ _ _ _ _ _ _) as [[a' o'] r]. cbn.
    destruct Hx as [Hx|(-> & _)]; [|by apply Hsame]. pose proof (Append_extends env recv sid evs exp a Hwf Hfits) as Hl.
    by rewrite <- Hx in Hl.
  - destruct (RewriteEventData env sid version data md a) as [a' [[]|e]] eqn:E; cbn.
    + destruct (RewriteEventData_Ok _ _ _ _ _ _ _ (aw_log _ Hwf) E) as (_ & _ & i & e & Hi & _ & _ & ->).
      eexists _, []. rewrite app_nil_r. split; [done|]. by apply Forall2_same_header_insert.
    + apply RewriteEventData_Err in E as ->. by apply Hsame.
  - destruct Hadm. by apply Hsame, SubscribeAll_same_log.
  - destruct Hadm. unfold SubscribeStream, guarded. destruct (check_ctx env); [|by apply Hsame].
    pose proof (SubscribeAll_same_log env 0 opts a Hwf ltac:(done)). destruct (SubscribeAll _ _ _ _) as [? []]; by apply Hsame.
  - destruct Hadm. unfold SubscribeCategory, guarded. destruct (check_ctx env); [|by apply Hsame].
    pose proof (SubscribeAll_same_log env from opts a Hwf ltac:(done)). destruct (SubscribeAll _ _ _ _) as [? []]; by apply Hsame.
  - pose proof (removeSubscriber_spec ch a (aw_chans _ Hwf)) as H.
    destruct (removeSubscriber ch a) as [a' r]. destruct H as (_ & _ & Habs & _).
    apply Hsame. by injection Habs.
  - destruct (Close_spec a (aw_chans _ Hwf)) as (a' & -> & _ & _ & _ & _ & Hge & _). by apply Hsame.
Qed.

Lemma runs_wf a a' : adapter_wf a → runs a a' → adapter_wf a' ∧
  log_extends (ma_globalEvents a) (ma_globalEvents a').
Proof.
  intros Hwf H. induction H as [a|a l a' Hl Hadm Hr IH]; [split; [done|apply log_extends_refl]|].
  destruct (runLabel_safe l a Hwf Hadm) as [Hwf' _]. destruct (IH Hwf') as [? ?].
  split; [done|]. eapply log_extends_trans; [by apply runLabel_extends|done].
Qed.

(** ** Catch-up paging *)

Definition strictly_increasing {A} (key : A → Z) (l : list A) : Prop :=
  ∀ i j x y, l !! i = Some x → l !! j = Some y → (i < j)%nat → key x < key y.

Lemma strictly_increasing_cons {A} (key : A → Z) x l :
  strictly_increasing key (x :: l) →
  strictly_increasing key l ∧ ∀ y, y ∈ l → key x < key y.
Proof.
  intros H. split.
  - intros i j a b Ha Hb Hij. apply (H (S i) (S j)); [done|done|lia].
  - intros y [j Hj]%list_elem_of_lookup. apply (H 0%nat (S j)); [done|done|lia].
Qed.

Lemma strictly_increasing_filter {A} (key : A → Z) (P : A → Prop) `{∀ x, Decision (P x)} l :
  strictly_increasing key l → strictly_increasing key (filter P l).
Proof.
  induction l as [|x l IH]; [done|]. intros [Hl Hx]%strictly_increasing_cons.
  destruct (decide (P x)).
  - rewrite filter_cons_True by done. intros [|i] [|j] a b Ha Hb Hij; cbn in *; try lia; simplify_eq.
    + apply Hx. apply list_elem_of_lookup_2 in Hb. by apply list_elem_of_filter in Hb as [_ ?].
    + apply (IH Hl i j); [done|done|lia].
  - rewrite filter_cons_False by done. by apply IH.
Qed.

(** Past the last element of a page, what is left is the rest of the list. *)
Lemma filter_past_page {A} (key : A → Z) (l : list A) n x :
  strictly_increasing key l → last (take n l) = Some x →
  filter (λ y, key x < key y) l = drop n l.
Proof.
  revert n. induction l as [|y l IH]; intros n Hs Hx; [by rewrite drop_nil|].
  apply strictly_increasing_cons in Hs as [Hs Hy].
  destruct n as [|n]; [done|]. cbn [take drop] in *.
  destruct (last (take n l)) as [z|] eqn:E.
  - rewrite last_cons, E in Hx. injection Hx as ->.
    rewrite filter_cons_False; [by apply IH|].
    assert (x ∈ l) as Hin.
    { apply last_Some_elem_of in E. eapply subseteq_take; done. }
    apply Hy in Hin. lia.
  - rewrite last_cons, E in Hx. injection Hx as <-. apply last_None in E.
    rewrite filter_cons_False by lia.
    destruct l as [|z l]; [by rewrite drop_nil|]. destruct n as [|n]; [|by cbn in E]. cbn [drop].
    clear -Hy. induction (z :: l) as [|w m IHm]; [done|].
    rewrite filter_cons_True by (apply Hy; left). rewrite IHm; [done|]. intros v Hv. apply Hy. by right.
Qed.

Lemma page_covers {E} (key : E → Z) (l : list E) n x y :
  strictly_increasing key l → last (take n l) = Some x → y ∈ l → key y ≤ key x → y ∈ take n l.
Proof.
  intros Hs Hx Hy Hle. rewrite <- (take_drop n l) in Hy. apply elem_of_app in Hy as [Hy|Hy]; [done|].
  rewrite <- (filter_past_page key l n x Hs Hx) in Hy. apply list_elem_of_filter in Hy as [? _]. lia.
Qed.

Lemma log_increasing a : log_wf a → strictly_increasing se_GlobalPosition (ma_globalEvents a).
Proof.
  intros Hwf i j x y Hx Hy Hij. apply (wf_positions _ Hwf) in Hx, Hy. lia.
Qed.

Lemma log_numbered a e : log_wf a → e ∈ ma_globalEvents a →
  se_StreamID e ≠ "" ∧ 0 < se_Version e ∧ 0 < se_GlobalPosition e.
Proof.
  intros Hwf He. assert (e ∈ LogSpec.stream (se_StreamID e) (ma_globalEvents a)) as Hs by by apply elem_of_stream.
  split; [|split].
  - intros E. destruct (wf_dom _ Hwf "") as [sd Hd]; [|by rewrite (wf_noempty _ Hwf) in Hd].
    rewrite E in Hs. intros E'. rewrite E' in Hs. by apply not_elem_of_nil in Hs.
  - apply list_elem_of_lookup in Hs as [i Hi]. apply (wf_versions _ Hwf) in Hi. lia.
  - apply list_elem_of_lookup in He as [i Hi]. apply (wf_positions _ Hwf) in Hi. lia.
Qed.

(** The events a filter selects past a position. *)
Definition selected (from : Z) (f : FeedFilter) (l : list StoredEvent) : list StoredEvent :=
  filter (λ e, from < se_GlobalPosition e ∧ FeedFilter_Matches f e = true) l.

(** A reader that asks for pages until one comes back empty, each from the
    position of the last event it saw, as the projection rebuild does. *)
Fixpoint readPages (env : Env) (fuel : nat) (from limit : Z) (f : FeedFilter)
    (a : MemoryAdapter) : res (list (list StoredEvent)) :=
  match fuel with
  | O => Ok []
  | S fuel =>
      page ← LoadFromPositionFiltered env from limit f a;
      match last page with
      | None => Ok []
      | Some e =>
          pages ← readPages env fuel (se_GlobalPosition e) limit f a;
          Ok (page :: pages)
      end
  end.

Lemma selected_past from f l n e :
  strictly_increasing se_GlobalPosition l →
  last (take n (selected from f l)) = Some e →
  selected (se_GlobalPosition e) f l = drop n (selected from f l).
Proof.
  intros Hs He. rewrite <- (filter_past_page se_GlobalPosition _ _ e) by
    (done || by apply strictly_increasing_filter).
  unfold selected. rewrite list_filter_filter. apply list_filter_iff.
  assert (from < se_GlobalPosition e) as Hf.
  { apply last_Some_elem_of in He. assert (e ∈ selected from f l) as Hin by (eapply subseteq_take; done).
    unfold selected in Hin. by apply list_elem_of_filter in Hin as [[? _] _]. }
  intros x. split; [intros []; split; [done|split; [lia|done]]|naive_solver].
Qed.

Lemma readPages_spec env fuel from limit f a :
  log_wf a → check_ctx env = Ok tt → ma_closed a = false →
  (length (selected from f (ma_globalEvents a)) < fuel)%nat →
  ∃ pages, readPages env fuel from limit f a = Ok pages ∧
    concat pages = selected from f (ma_globalEvents a).
Proof.
  intros Hwf Hctx Hopen. revert from. induction fuel as [|fuel IH]; intros from Hf; [lia|].
  cbn [readPages]. rewrite LoadFromPositionFiltered_spec. unfold LogSpec.feed.
  rewrite Hctx. cbn [mbind result_bind abs LogSpec.closed LogSpec.log]. rewrite Hopen.
  cbn [mbind result_bind returnIf].
  pose proof (DefaultLimit_pos limit 1000) as Hpos.
  set (n := Z.to_nat (DefaultLimit limit 1000)). fold (selected from f (ma_globalEvents a)).
  destruct (last (take n (selected from f (ma_globalEvents a)))) as [e|] eqn:El.
  - pose proof (selected_past from f _ n e (log_increasing _ Hwf) El) as Hrest.
    destruct (IH (se_GlobalPosition e)) as (pages & Hp & Hc).
    { rewrite Hrest, length_drop. destruct (selected from f (ma_globalEvents a)) eqn:Es; cbn in *.
      - by rewrite take_nil in El.
      - unfold n. lia. }
    rewrite Hp. cbn. eexists. split; [done|]. cbn. rewrite Hc, Hrest. apply take_drop.
  - exists []. split; [done|]. apply last_None in El. cbn.
    destruct (selected from f (ma_globalEvents a)); [done|].
    destruct n eqn:En; [unfold n in En; lia|done].
Qed.

(** ** The guarantees *)

(** C1: in every state the adapter can reach, each operation that changes it,
    the append with an outbox and the subscriptions included, keeps the log and
    subscription invariants, never panics (no send on or close of a closed
    channel) and never blocks, as long as the run-time system can allocate the
    buffer a subscription asks for ([admissible]). *)
Theorem adapter_invariant_safe a l :
  reachable a → admissible l a →
  let '(a', r) := runLabel l a in
  adapter_wf a' ∧ ∀ e, r = Err e → ¬ runtime_error e.
Proof.
  intros Hr Hadm. pose proof (runLabel_safe l a (reachable_wf _ Hr) Hadm) as H.
  by destruct (runLabel l a).
Qed.

(** C2: [appendLocked] implements the abstract append: it succeeds exactly when
    the store is open, the stream id and the batch are not empty and the expected
    version is met, and then the log grows by the batch, numbered from the stream's
    version and the log's last position; on an error the store is unchanged. *)
Theorem append_implements_log_spec env sid events expected a :
  reachable a →
  Z.of_nat (length (ma_globalEvents a) + length events) ≤ MaxInt64 →
  let '(a', r) := appendLocked env sid events expected a in
  LogSpec.append env sid events expected (abs a) = (abs a', r) ∧ adapter_wf a' ∧
  (∀ e, r = Err e → a' = a).
Proof.
  intros Hr Hfits. pose proof (reachable_wf _ Hr) as [Hl Hc].
  pose proof (appendLocked_refines env sid events expected a Hl Hfits) as H.
  destruct (appendLocked env sid events expected a) as [a' r] eqn:E. destruct H as (Hl' & Hs & Heq).
  split; [done|]. split; [split; [done|by eapply chans_wf_same_rest]|].
  intros e ->. unfold appendLocked, guarded in E. go_cases. done.
Qed.

(** C3: of two writers that expect the same version of a stream, only one
    succeeds: once an append at an exact version (or [NoStream]) is accepted, any
    later append of that stream expecting the same version is refused with a
    [ConcurrencyError], whatever operations other than [Reset] run in between. *)
Theorem one_writer_per_version env1 recv1 sid evs1 v a stored drops a1 a2 env2 recv2 evs2 :
  reachable a → 0 ≤ v →
  admissible (LAppend env1 recv1 sid evs1 v) a → check_ctx env1 = Ok tt →
  Append env1 recv1 sid evs1 v a = (a1, Ok (stored, drops)) →
  runs a1 a2 →
  admissible (LAppend env2 recv2 sid evs2 v) a2 → check_ctx env2 = Ok tt →
  ma_closed a2 = false → evs2 ≠ [] →
  ∃ current, v < current ∧
    Append env2 recv2 sid evs2 v a2 = (a2, Err (ConcurrencyError sid v current)).
Proof.
  intros Hr Hv [_ Hf1] Hc1 Happ Hruns [_ Hf2] Hc2 Hopen Hne.
  pose proof (Append_spec env1 recv1 sid evs1 v a (reachable_wf _ Hr) Hc1 Hf1) as H1.
  rewrite Happ in H1. destruct H1 as (Hwf1 & _ & Habs & _).
  apply LogSpec_append_Ok in Habs as (Hlog & Hnew & _ & Hsid & Hne1 & Hchk). cbn in Hlog, Hnew, Hchk.
  injection Hlog as Hlog _.
  destruct (runs_wf _ _ Hwf1 Hruns) as [Hwf2 Hext].
  apply (log_extends_version sid) in Hext. rewrite Hlog in Hext.
  assert (v < LogSpec.version sid (ma_globalEvents a2)) as Hlt.
  { unfold LogSpec.version in Hext at 1. rewrite stream_app, length_app, Hnew in Hext.
    rewrite stream_newEvents, newEvents_length in Hext.
    assert (0 < length evs1)%nat by (destruct evs1; cbn; [done|lia]).
    apply CheckVersion_Ok in Hchk. unfold AnyVersion, NoStream, StreamExists, LogSpec.version in *. lia. }
  pose proof (Append_spec env2 recv2 sid evs2 v a2 Hwf2 Hc2 Hf2) as H2.
  assert (LogSpec.append env2 sid evs2 v (abs a2) =
    (abs a2, Err (ConcurrencyError sid v (LogSpec.version sid (ma_globalEvents a2))))) as Hs.
  { unfold LogSpec.append; cbn. rewrite Hopen. rewrite !bool_decide_eq_false_2 by
      (try done; intros E; unfold LogSpec.version in Hlt; rewrite E in Hlt; cbn in Hlt; lia).
    cbn. by rewrite CheckVersion_conflict. }
  exists (LogSpec.version sid (ma_globalEvents a2)). split; [done|].
  destruct (Append env2 recv2 sid evs2 v a2) as [a3 [[st dr]|e]]; destruct H2 as (_ & _ & H2).
  - destruct H2 as [H2 _]. by rewrite Hs in H2.
  - destruct H2 as [-> H2]. rewrite Hs in H2. by injection H2 as ->.
Qed.

(** An accepted batch is read back: loading the stream past the version it
    had returns exactly the returned events, loading it from the start returns
    the old events followed by them, and their versions and global positions are
    consecutive. *)
Theorem append_load_roundtrip env env' recv sid evs exp a stored drops a' :
  reachable a → admissible (LAppend env recv sid evs exp) a →
  check_ctx env = Ok tt → check_ctx env' = Ok tt →
  Append env recv sid evs exp a = (a', Ok (stored, drops)) →
  let v := streamVersion a sid in
  length stored = length evs ∧
  Load env' sid v a' = Ok stored ∧
  (∃ old, Load env' sid 0 a = Ok old ∧ Load env' sid 0 a' = Ok (old ++ stored)) ∧
  (∀ k e, stored !! k = Some e →
     se_Version e = v + Z.of_nat k + 1 ∧
     se_GlobalPosition e = ma_globalPosition a + Z.of_nat k + 1).
Proof.
  intros Hr [_ Hfits] Hc Hc' Happ. pose proof (reachable_wf _ Hr) as Hwf.
  pose proof (Append_spec env recv sid evs exp a Hwf Hc Hfits) as H. rewrite Happ in H.
  destruct H as ([Hl' _] & _ & Habs & _).
  apply LogSpec_append_Ok in Habs as (Hlog & Hnew & Hopen & Hsid & _). cbn in Hlog, Hnew, Hopen.
  injection Hlog as Hlog Hcl. cbn zeta.
  rewrite (streamVersion_spec a (aw_log _ Hwf)), (wf_position _ (aw_log _ Hwf)).
  rewrite !(Load_spec _ Hl'), (Load_spec a (aw_log _ Hwf)). unfold LogSpec.load. rewrite Hc'.
  cbn. rewrite Hcl, Hopen, bool_decide_eq_false_2 by done. cbn. rewrite Hlog, stream_app, !filter_app.
  assert (LogSpec.stream sid stored = stored) as Hself by (rewrite Hnew; apply stream_newEvents).
  rewrite Hself.
  assert (∀ k e, stored !! k = Some e → se_Version e = LogSpec.version sid (ma_globalEvents a) + Z.of_nat k + 1 ∧
     se_GlobalPosition e = Z.of_nat (length (ma_globalEvents a)) + Z.of_nat k + 1) as Hnum.
  { intros k e Hk. rewrite Hnew in Hk. apply newEvents_lookup in Hk as (_ & ? & ? & _). done. }
  assert (∀ from, 0 ≤ from ≤ LogSpec.version sid (ma_globalEvents a) →
    filter (λ e, from < se_Version e) stored = stored) as Hall.
  { intros from Hfrom. apply list_filter_all. intros e [k Hk]%list_elem_of_lookup.
    destruct (Hnum _ _ Hk). lia. }
  split; [rewrite Hnew; apply newEvents_length|]. split; [|split; [|done]].
  - rewrite Hall by (unfold LogSpec.version; lia). rewrite list_filter_none; [done|].
    intros e [k Hk]%list_elem_of_lookup.
    pose proof (wf_versions _ (aw_log _ Hwf) _ _ _ Hk). apply lookup_lt_Some in Hk.
    unfold LogSpec.version. lia.
  - eexists. split; [done|]. by rewrite (Hall 0) by (unfold LogSpec.version; lia).
Qed.

(** Reading the feed page by page, each page from the position of the last
    event of the previous one, returns every matching event past the starting
    position exactly once and in order, whatever the page size. *)
Theorem feed_paging_complete env from limit f a :
  reachable a → check_ctx env = Ok tt → ma_closed a = false →
  ∃ pages, readPages env (S (length (ma_globalEvents a))) from limit f a = Ok pages ∧
    concat pages = selected from f (ma_globalEvents a).
Proof.
  intros Hr Hc Hopen. apply readPages_spec; [by apply reachable_wf|done|done|].
  pose proof (length_filter (λ e, from < se_GlobalPosition e ∧ FeedFilter_Matches f e = true)
    (ma_globalEvents a)). unfold selected. lia.
Qed.

(** The fan-out of an append splits the batch for every subscriber: the
    events its channel receives are a subsequence in order, each of the others is
    reported to its [OnError] callback, and nothing is dropped while the channel
    has room for the batch, whatever the consumers receive meanwhile. *)
Theorem append_fanout_accounts env recv sid evs exp a stored drops a' :
  reachable a → admissible (LAppend env recv sid evs exp) a → check_ctx env = Ok tt →
  Append env recv sid evs exp a = (a', Ok (stored, drops)) →
  ∃ mask,
    drops = (ma_subscribers a ≫= λ s, report s (keep (negb <$> mask (sub_ch s)) stored)) ∧
    ∀ s, s ∈ ma_subscribers a →
      length (mask (sub_ch s)) = length stored ∧
      ∃ c c', ma_chans a !! sub_ch s = Some c ∧ ma_chans a' !! sub_ch s = Some c' ∧
        chanSent c' = chanSent c ++ keep (mask (sub_ch s)) stored ∧
        (Z.of_nat (length (ch_buf c) + length stored) ≤ ch_cap c →
         chanSent c' = chanSent c ++ stored ∧ report s (keep (negb <$> mask (sub_ch s)) stored) = []).
Proof.
  intros Hr [_ Hf] Hc Happ. pose proof (reachable_wf _ Hr) as Hwf.
  pose proof (Append_spec env recv sid evs exp a Hwf Hc Hf) as H. rewrite Happ in H.
  destruct H as (_ & _ & _ & mask & Hd & Hper). exists mask. split; [done|].
  intros s Hs. destruct (sw_open _ _ (cw_subs _ (aw_chans _ Hwf)) s Hs) as (c & Hcc & _).
  destruct (Hper s c Hs Hcc) as (Hlen & c' & Hc' & _ & Hsent & Hroom).
  split; [done|]. exists c, c'. split; [done|]. split; [done|]. split; [done|].
  intros Hr'. destruct Hroom as [Hm _]; [lia|]. rewrite Hsent, Hm, keep_all by done.
  split; [done|]. rewrite keep_none. unfold report. by destruct (sub_onError s).
Qed.

(** ** From history to live delivery *)

(** Appends and receptions after a subscription, [n] new events at most. *)
Inductive live : nat → MemoryAdapter → MemoryAdapter → Prop :=
| live_done n a : live n a a
| live_append n env recv sid evs exp a a' :
    (length evs ≤ n)%nat → admissible (LAppend env recv sid evs exp) a →
    live (n - length evs) (runLabel (LAppend env recv sid evs exp) a).1 a' → live n a a'
| live_append_outbox {S} `{OutboxStoreOps S} n env envS recv sid evs exp msgs (o : option S) a a' :
    (length evs ≤ n)%nat → admissible (LAppendWithOutbox env envS recv sid evs exp msgs o) a →
    live (n - length evs) (runLabel (LAppendWithOutbox env envS recv sid evs exp msgs o) a).1 a' → live n a a'
| live_receive n ch k a a' :
    live n (runLabel (LReceive ch k) a).1 a' → live n a a'.

(** The subscriber of [ch] has been sent the log past [from], and its channel
    has room for [n] more events. *)
Record caught_up (ch : nat) (from : Z) (n : nat) (a : MemoryAdapter) : Prop := {
  cu_wf : adapter_wf a;
  cu_from : from ≤ Z.of_nat (length (ma_globalEvents a));
  cu_sub : ch ∈ (sub_ch <$> ma_subscribers a);
  cu_chan : ∃ c, ma_chans a !! ch = Some c ∧
    chanSent c = filter (λ e, from < se_GlobalPosition e) (ma_globalEvents a) ∧
    Z.of_nat (length (ch_buf c)) + Z.of_nat n ≤ ch_cap c;
}.

Lemma caught_up_append ch from n env recv sid evs exp a :
  (length evs ≤ n)%nat → admissible (LAppend env recv sid evs exp) a →
  caught_up ch from n a →
  caught_up ch from (n - length evs) (runLabel (LAppend env recv sid evs exp) a).1.
Proof.
  intros Hn [Hok Hfits] [Hwf Hfrom Hsub (c & Hc & Hsent & Hroom)]. cbn.
  destruct (check_ctx env) as [[]|e] eqn:G.
  2: { rewrite (Append_ctx _ _ _ _ _ _ e) by done. split; try done. exists c. split; [done|]. split; [done|lia]. }
  pose proof (Append_spec env recv sid evs exp a Hwf G Hfits) as H.
  destruct (Append env recv sid evs exp a) as [a' [[stored drops]|e]]; destruct H as (Hwf' & Hsubs & H); cbn.
  2: { destruct H as [-> _]. split; try done. exists c. split; [done|]. split; [done|lia]. }
  destruct H as [Habs (mask & _ & Hper)].
  apply LogSpec_append_Ok in Habs as (Hlog & Hnew & _). cbn in Hlog, Hnew. injection Hlog as Hlog _.
  assert (length stored = length evs) as Hlen by (rewrite Hnew; apply newEvents_length).
  apply list_elem_of_fmap in Hsub as (s & -> & Hs).
  destruct (Hper s c Hs Hc) as (_ & c' & Hc' & Hcap & Hs' & Hall).
  destruct Hall as [Hm Hb]; [lia|].
  split; [done| | |].
  - rewrite Hlog, length_app. lia.
  - rewrite Hsubs. by apply list_elem_of_fmap_2.
  - exists c'. split; [done|]. split; [|lia].
    rewrite Hs', Hm, keep_all, Hsent, Hlog, filter_app by done. f_equal. symmetry.
    apply list_filter_all. intros e [k Hk]%list_elem_of_lookup. rewrite Hnew in Hk.
    apply newEvents_lookup in Hk as (_ & _ & -> & _). lia.
Qed.

Lemma caught_up_append_outbox {S} `{OutboxStoreOps S} ch from n env envS recv sid evs exp msgs (o : option S) a :
  (length evs ≤ n)%nat → admissible (LAppendWithOutbox env envS recv sid evs exp msgs o) a →
  caught_up ch from n a →
  caught_up ch from (n - length evs) (runLabel (LAppendWithOutbox env envS recv sid evs exp msgs o) a).1.
Proof.
  intros Hn (Hok & Hfits & _) Hcu. cbn [runLabel].
  pose proof (AppendWithOutbox_adapter env envS recv sid evs exp msgs a o (cu_wf _ _ _ _ Hcu) Hfits) as Hx.
  destruct (AppendWithOutbox _ _ _ _ _ _ _ _) as [[a' o'] r]. cbn.
  destruct Hx as [Hx|(-> & _)].
  - pose proof (caught_up_append ch from n env recv sid evs exp a Hn (conj Hok Hfits) Hcu) as Hc. cbn in Hc.
    by rewrite <- Hx in Hc.
  - destruct Hcu as [Hwf Hfrom Hsub (c & Hc & Hs & Hroom)]. split; [done..|]. exists c. split; [done|]. split; [done|lia].
Qed.

Lemma caught_up_receive ch from n ch' k a :
  caught_up ch from n a → caught_up ch from n (receive ch' k a).
Proof.
  intros [Hwf Hfrom Hsub (c & Hc & Hsent & Hroom)]. split; [by apply receive_wf|done|done|]. cbn.
  destruct (decide (ch = ch')) as [->|].
  - exists (chanRecv k c). rewrite lookup_alter_eq, Hc. split; [done|].
    rewrite chanRecv_sent. split; [done|]. cbn. rewrite length_drop. lia.
  - exists c. by rewrite lookup_alter_ne.
Qed.

(** C4: a subscription from a position the log has reached misses nothing and
    repeats nothing between history and live delivery as long as no more events
    are appended than the caller's buffer holds (past that, live delivery may
    drop): the channel has been sent exactly the log past the requested position,
    in order. *)
Theorem subscription_gapless env from opts a a1 ch a2 :
  reachable a → admissible (LSubscribe env from opts) a →
  from ≤ ma_globalPosition a →
  SubscribeAll env from opts a = (a1, Ok ch) →
  live (Z.to_nat (getBufferSize opts)) a1 a2 →
  ∃ c, ma_chans a2 !! ch = Some c ∧
    chanSent c = filter (λ e, from < se_GlobalPosition e) (ma_globalEvents a2).
Proof.
  intros Hr Hadm Hfrom Hsub Hlive. pose proof (reachable_wf _ Hr) as Hwf.
  pose proof (SubscribeAll_safe env from opts a Hwf Hadm) as [Hwf1 _]. cbn in Hwf1.
  rewrite Hsub in Hwf1. cbn in Hwf1.
  assert (0 < getBufferSize opts) as Hb.
  { unfold getBufferSize, defaultSubscriptionBuffer. destruct opts as [|o ?]; [lia|].
    destruct (0 <? so_BufferSize o) eqn:E; zbool; lia. }
  pose proof (SubscribeAll_spec env from opts a (aw_log _ Hwf) (aw_chans _ Hwf)) as H.
  rewrite Hsub in H. destruct H as (_ & Habs & _ & _ & Hsubs & c & Hc & _ & Hrecv & Hbuf & Hcap);
    [cbn in Hadm; lia|]. injection Habs as Hge Hcl.
  assert (caught_up ch from (Z.to_nat (getBufferSize opts)) a1) as Hcu.
  { split; [done| | |].
    - rewrite Hge, <- (wf_position _ (aw_log _ Hwf)). done.
    - rewrite Hsubs, fmap_app. apply elem_of_app. right. left.
    - exists c. split; [done|]. split; [|lia]. unfold chanSent. by rewrite Hrecv, Hbuf, Hge. }
  clear -Hlive Hcu.
  induction Hlive as [n a|n env' recv sid evs exp a a' Hn Hadm _ IH|S ? n env' envS recv sid evs exp msgs o a a' Hn Hadm _ IH|n ch' k a a' _ IH].
  - destruct Hcu as [_ _ _ (c & ? & ? & _)]. by exists c.
  - apply IH. by apply caught_up_append.
  - apply IH. by apply caught_up_append_outbox.
  - apply IH. by apply caught_up_receive.
Qed.

(** Rewriting a stored event replaces the payload of that one event in the
    log and in its stream, keeps its identity, order, position and time, and
    fails without any change when there is no such event. *)
Theorem rewrite_touches_one_event env sid v d m a :
  reachable a → env_ok env →
  let '(a', r) := RewriteEventData env sid v d m a in
  adapter_wf a' ∧
  match r with
  | Ok _ => ∃ i e, ma_globalEvents a !! i = Some e ∧ se_StreamID e = sid ∧ se_Version e = v ∧
              ma_globalEvents a' = <[i := set_Payload e d m]> (ma_globalEvents a)
  | Err _ => a' = a
  end.
Proof.
  intros Hr Hok. pose proof (reachable_wf _ Hr) as Hwf.
  pose proof (RewriteEventData_safe env sid v d m a Hok Hwf) as [Hwf' _].
  destruct (RewriteEventData env sid v d m a) as [a' [[]|e]] eqn:E; (split; [done|]).
  - by destruct (RewriteEventData_Ok _ _ _ _ _ _ _ (aw_log _ Hwf) E) as (_ & _ & ?).
  - by eapply RewriteEventData_Err.
Qed.

(** ** Concrete instances *)

Definition sampleRecord : EventRecord :=
  mkEventRecord "Created" (Some [Byte.x01]) emptyMetadata.
Definition noRecv : nat → nat → nat := λ _ _, 0%nat.
Definition sampleBatch : list EventRecord := [sampleRecord; sampleRecord].
Definition sampleAppend (sid : string) (exp : Z) : label :=
  LAppend sampleEnv noRecv sid sampleBatch exp.
Definition sampleAdapter : MemoryAdapter := (runLabel (sampleAppend "Order-1" 0) NewAdapter).1.
Definition sampleOptions : list SubscriptionOptions := [mkSubscriptionOptions 2 0 (Some 7%nat)].

Lemma sampleEnv_ok : env_ok sampleEnv.
Proof. split; [done|]. intros [|[? ?]]; done. Qed.

Lemma sampleAppend_admissible sid exp a :
  Z.of_nat (length (ma_globalEvents a) + 2) ≤ MaxInt64 → admissible (sampleAppend sid exp) a.
Proof. split; [apply sampleEnv_ok|done]. Qed.

Lemma sampleAdapter_reachable : reachable sampleAdapter.
Proof.
  apply reachable_step; [constructor|]. by apply sampleAppend_admissible.
Qed.

#[local] Hint Resolve sampleEnv_ok sampleAdapter_reachable : mink.

Lemma adapter_invariant_safe_witness :
  let '(a', r) := runLabel (sampleAppend "Order-2" (-1)) sampleAdapter in
  adapter_wf a' ∧ ∀ e, r = Err e → ¬ runtime_error e.
Proof.
  apply (adapter_invariant_safe sampleAdapter (sampleAppend "Order-2" (-1))).
  - apply sampleAdapter_reachable.
  - apply sampleAppend_admissible. by vm_compute.
Defined.

Lemma append_implements_log_spec_witness :
  let '(a', r) := appendLocked sampleEnv "Order-1" sampleBatch 2 sampleAdapter in
  LogSpec.append sampleEnv "Order-1" sampleBatch 2 (abs sampleAdapter) = (abs a', r) ∧
  adapter_wf a' ∧ (∀ e, r = Err e → a' = sampleAdapter).
Proof.
  apply (append_implements_log_spec sampleEnv "Order-1" sampleBatch 2 sampleAdapter).
  - apply sampleAdapter_reachable.
  - by vm_compute.
Defined.

Definition sampleFirst := Append sampleEnv noRecv "Order-1" sampleBatch 2 sampleAdapter.

Lemma one_writer_per_version_witness :
  ∃ current, 2 < current ∧
    Append sampleEnv noRecv "Order-1" sampleBatch 2 sampleFirst.1 =
      (sampleFirst.1, Err (ConcurrencyError "Order-1" 2 current)).
Proof.
  destruct sampleFirst as [a1 [[stored drops]|e]] eqn:E; [|by vm_compute in E].
  eapply (one_writer_per_version sampleEnv noRecv "Order-1" sampleBatch 2 sampleAdapter
            stored drops a1 a1 sampleEnv noRecv sampleBatch).
  - apply sampleAdapter_reachable.
  - lia.
  - apply sampleAppend_admissible. by vm_compute.
  - reflexivity.
  - exact E.
  - apply runs_refl.
  - apply sampleAppend_admissible. vm_compute in E. injection E as <- _ _. by vm_compute.
  - reflexivity.
  - vm_compute in E. by injection E as <- _ _.
  - done.
Defined.

Lemma append_load_roundtrip_witness :
  ∃ stored a', Append sampleEnv noRecv "Order-1" sampleBatch 2 sampleAdapter = (a', Ok (stored, [])) ∧
    Load sampleEnv "Order-1" 2 a' = Ok stored ∧ length stored = 2%nat.
Proof.
  destruct sampleFirst as [a1 [[stored drops]|e]] eqn:E; [|by vm_compute in E].
  assert (drops = []) as -> by (vm_compute in E; by injection E).
  destruct (append_load_roundtrip sampleEnv sampleEnv noRecv "Order-1" sampleBatch 2 sampleAdapter
              stored [] a1) as (Hlen & Hload & _).
  - apply sampleAdapter_reachable.
  - apply sampleAppend_admissible. by vm_compute.
  - reflexivity.
  - reflexivity.
  - exact E.
  - exists stored, a1. split; [exact E|]. by split.
Defined.

Lemma feed_paging_complete_witness :
  ∃ pages, readPages sampleEnv 3 0 1 emptyFilter sampleAdapter = Ok pages ∧
    concat pages = selected 0 emptyFilter (ma_globalEvents sampleAdapter) ∧ length pages = 2%nat.
Proof.
  destruct (feed_paging_complete sampleEnv 0 1 emptyFilter sampleAdapter) as (pages & Hp & Hc).
  - apply sampleAdapter_reachable.
  - reflexivity.
  - reflexivity.
  - exists pages. split; [exact Hp|]. split; [exact Hc|].
    vm_compute in Hp. by injection Hp as <-.
Defined.

Definition sampleSubscribed := SubscribeAll sampleEnv 1 sampleOptions sampleAdapter.

Lemma sampleSubscribe_admissible : admissible (LSubscribe sampleEnv 1 sampleOptions) sampleAdapter.
Proof. split; [apply sampleEnv_ok|by vm_compute]. Qed.

Lemma sampleSubscribed_reachable : reachable sampleSubscribed.1.
Proof.
  apply (reachable_step _ (LSubscribe sampleEnv 1 sampleOptions)); [apply sampleAdapter_reachable|].
  apply sampleSubscribe_admissible.
Qed.

Lemma append_fanout_accounts_witness :
  ∃ a' stored drops mask,
    Append sampleEnv noRecv "Order-1" (sampleBatch ++ sampleBatch) 2 sampleSubscribed.1 =
      (a', Ok (stored, drops)) ∧
    length drops = 2%nat ∧
    drops = (ma_subscribers sampleSubscribed.1 ≫= λ s,
               report s (keep (negb <$> mask (sub_ch s)) stored)).
Proof.
  destruct (Append sampleEnv noRecv "Order-1" (sampleBatch ++ sampleBatch) 2 sampleSubscribed.1)
    as [a' [[stored drops]|e]] eqn:E; [|by vm_compute in E].
  destruct (append_fanout_accounts sampleEnv noRecv "Order-1" (sampleBatch ++ sampleBatch) 2
              sampleSubscribed.1 stored drops a') as (mask & Hd & _).
  - apply sampleSubscribed_reachable.
  - split; [apply sampleEnv_ok|by vm_compute].
  - reflexivity.
  - exact E.
  - exists a', stored, drops, mask. split; [done|]. split; [|exact Hd].
    vm_compute in E. by injection E as _ _ <-.
Defined.

Lemma subscription_gapless_witness :
  ∃ ch c, SubscribeAll sampleEnv 1 sampleOptions sampleAdapter = (sampleSubscribed.1, Ok ch) ∧
    let a2 := (runLabel (sampleAppend "Order-9" 0) sampleSubscribed.1).1 in
    ma_chans a2 !! ch = Some c ∧
    chanSent c = filter (λ e, 1 < se_GlobalPosition e) (ma_globalEvents a2) ∧
    length (chanSent c) = 3%nat.
Proof.
  destruct sampleSubscribed as [a1 [ch|e]] eqn:E; [|by vm_compute in E].
  destruct (subscription_gapless sampleEnv 1 sampleOptions sampleAdapter a1 ch
              (runLabel (sampleAppend "Order-9" 0) a1).1) as (c & Hc & Hs).
  - apply sampleAdapter_reachable.
  - apply sampleSubscribe_admissible.
  - by vm_compute.
  - exact E.
  - eapply (live_append 2); [|apply sampleAppend_admissible|apply live_done]; [done|].
    vm_compute in E. injection E as <- _. by vm_compute.
  - exists ch, c. split; [exact E|]. split; [exact Hc|]. split; [exact Hs|].
    rewrite Hs. vm_compute in E. injection E as <- _. by vm_compute.
Defined.

Lemma rewrite_touches_one_event_witness :
  let '(a', r) := RewriteEventData sampleEnv "Order-1" 2 None emptyMetadata sampleAdapter in
  adapter_wf a' ∧
  match r with
  | Ok _ => ∃ i e, ma_globalEvents sampleAdapter !! i = Some e ∧ se_StreamID e = "Order-1" ∧
              se_Version e = 2 ∧
              ma_globalEvents a' = <[i := set_Payload e None emptyMetadata]> (ma_globalEvents sampleAdapter)
  | Err _ => a' = sampleAdapter
  end.
Proof.
  apply (rewrite_touches_one_event sampleEnv "Order-1" 2 None emptyMetadata sampleAdapter).
  - apply sampleAdapter_reachable.
  - apply sampleEnv_ok.
Defined.
