(* ===== verification/EventLog.v ===== *)
(** * The event log interface

    The part of [adapters.EventStoreAdapter], [SubscriptionAdapter] and
    [EventRewriteAdapter] ([src/adapters/adapter.go]) that the event store
    calls, as a type class with the contract it relies on: an append-only log
    whose operations are those of [LogSpec].  The in-memory adapter is an
    instance of both. *)

From S2P Require Import Prelude.
From S2P Require Import Types.
From S2P Require Import Common.
From S2P Require Import MemoryAdapter.
From S2P Require Import LogInvariant.
From S2P Require Import MemorySubscription.
From S2P Require Import MemoryTheorems.

Class EventLogOps (A : Type) := {
  el_Append : Env → string → list EventRecord → Z → op A error (list StoredEvent);
  el_Load : Env → string → Z → A → res (list StoredEvent);
  el_GetStreamInfo : Env → string → A → res StreamInfo;
  el_GetLastPosition : Env → A → res Z;
  el_LoadFromPosition : Env → Z → Z → A → res (list StoredEvent);
  el_LoadFromPositionFiltered : Env → Z → Z → FeedFilter → A → res (list StoredEvent);
  el_RewriteEventData : Env → string → Z → Bytes → Metadata → op A error unit;
}.

Class EventLogLaws (A : Type) `{EventLogOps A} := {
  el_wf : A → Prop;
  el_view : A → LogSpec.state;
  el_append_wf : ∀ env sid evs exp a a' r,
    el_wf a → Z.of_nat (length (LogSpec.log (el_view a)) + length evs) ≤ MaxInt64 →
    el_Append env sid evs exp a = (a', r) → el_wf a';
  el_append_spec : ∀ env sid evs exp a a' r,
    el_wf a → Z.of_nat (length (LogSpec.log (el_view a)) + length evs) ≤ MaxInt64 →
    el_Append env sid evs exp a = (a', r) →
    match check_ctx env with
    | Err e => a' = a ∧ r = Err e
    | Ok _ => LogSpec.append env sid evs exp (el_view a) = (el_view a', r)
    end ∧ (∀ e, r = Err e → a' = a);
  el_load_spec : ∀ env sid from a,
    el_wf a → el_Load env sid from a = LogSpec.load env sid from (el_view a);
  el_feed_spec : ∀ env from limit a,
    el_wf a → el_LoadFromPosition env from limit a = LogSpec.feed env from limit emptyFilter (el_view a);
  el_positions : ∀ a, el_wf a → strictly_increasing se_GlobalPosition (LogSpec.log (el_view a));
  el_numbered : ∀ a e, el_wf a → e ∈ LogSpec.log (el_view a) →
    se_StreamID e ≠ "" ∧ 0 < se_Version e ∧ 0 < se_GlobalPosition e;
}.

(** ** The in-memory adapter

    [recv] is what the subscribers' goroutines consume while an append runs. *)
Section Memory.
Context (recv : nat → nat → nat).

Definition memoryAppend (env : Env) (sid : string) (evs : list EventRecord) (exp : Z)
    : op MemoryAdapter error (list StoredEvent) := λ a,
  match Append env recv sid evs exp a with
  | (a, Ok (stored, _)) => (a, Ok stored)
  | (a, Err e) => (a, Err e)
  end.

#[export] Instance memory_log_ops : EventLogOps MemoryAdapter := {|
  el_Append := memoryAppend;
  el_Load := Load;
  el_GetStreamInfo := GetStreamInfo;
  el_GetLastPosition := GetLastPosition;
  el_LoadFromPosition := LoadFromPosition;
  el_LoadFromPositionFiltered := LoadFromPositionFiltered;
  el_RewriteEventData := RewriteEventData;
|}.

#[export] Instance memory_log_laws : EventLogLaws MemoryAdapter.
Proof.
  refine {| el_wf := adapter_wf; el_view := abs |}; cbn.
  - intros env sid evs exp a a' r Hwf Hf. unfold memoryAppend. destruct (check_ctx env) as [[]|e] eqn:Hc.
    + pose proof (Append_spec env recv sid evs exp a Hwf Hc Hf) as H.
      destruct (Append env recv sid evs exp a) as [a1 [[stored drops]|e]]; intros [= <- _]; apply H.
    + rewrite (Append_ctx _ _ _ _ _ _ _ Hc). by intros [= <- _].
  - intros env sid evs exp a a' r Hwf Hf. unfold memoryAppend. destruct (check_ctx env) as [[]|e] eqn:Hc.
    + pose proof (Append_spec env recv sid evs exp a Hwf Hc Hf) as H.
      destruct (Append env recv sid evs exp a) as [a1 [[stored drops]|e]]; intros [= <- <-];
        destruct H as (_ & _ & H); [by destruct H as [-> _]|]. destruct H as [-> ->]. by split.
    + rewrite (Append_ctx _ _ _ _ _ _ _ Hc). by intros [= <- <-].
  - intros env sid from a Hwf. by apply Load_spec, aw_log.
  - intros env from limit a _. apply LoadFromPositionFiltered_spec.
  - intros a Hwf. by apply log_increasing, aw_log.
  - intros a e Hwf He. apply (log_numbered a); [by apply aw_log|done].
Defined.
End Memory.
