(* ===== verification/Aggregate.v ===== *)
(** * Aggregates

    [src/aggregate.go]: what the event store asks of an aggregate, and
    [AggregateBase], which user types embed.  Applying an event is user code. *)

From S2P Require Import Prelude.
From S2P Require Import Types.

(** [V] is the type of events ([interface{}]), [G] the aggregate's state.
    [SetVersion] and [setOriginalVersion] are optional interfaces. *)
Class Aggregate (V G : Type) := {
  agg_AggregateID : G → string;
  agg_AggregateType : G → string;
  agg_Version : G → Z;
  agg_ApplyEvent : V → op G error unit;
  agg_UncommittedEvents : G → list V;
  agg_ClearUncommittedEvents : G → G;
  agg_SetVersion : option (Z → G → G);
  agg_setOriginalVersion : option (Z → G → G);
}.

(** ** The base *)

Record AggregateBase (V : Type) := mkAggregateBase {
  ab_id : string;
  ab_aggregateType : string;
  ab_version : Z;
  ab_originalVersion : Z;
  ab_uncommittedEvents : list V;
}.
Arguments mkAggregateBase {V} _ _ _ _ _.
Arguments ab_id {V} _.
Arguments ab_aggregateType {V} _.
Arguments ab_version {V} _.
Arguments ab_originalVersion {V} _.
Arguments ab_uncommittedEvents {V} _.

Section Base.
Context {V : Type}.
Implicit Types a : AggregateBase V.

Definition NewAggregateBase (id aggregateType : string) : AggregateBase V := mkAggregateBase id aggregateType 0 0 [].

Definition SetVersion (v : Z) a : AggregateBase V :=
  mkAggregateBase (ab_id a) (ab_aggregateType a) v (ab_originalVersion a) (ab_uncommittedEvents a).
Definition setOriginalVersion (v : Z) a : AggregateBase V :=
  mkAggregateBase (ab_id a) (ab_aggregateType a) (ab_version a) v (ab_uncommittedEvents a).
Definition IncrementVersion a : AggregateBase V := SetVersion (i64 (ab_version a + 1)) a.
Definition ClearUncommittedEvents a : AggregateBase V :=
  mkAggregateBase (ab_id a) (ab_aggregateType a) (ab_version a) (ab_originalVersion a) [].
Definition Apply (event : V) a : AggregateBase V :=
  mkAggregateBase (ab_id a) (ab_aggregateType a) (ab_version a) (ab_originalVersion a)
    (ab_uncommittedEvents a ++ [event]).
Definition HasUncommittedEvents a : bool := 0 <? Z.of_nat (length (ab_uncommittedEvents a)).
End Base.

(** A user type: the embedded base, its own state, and its [ApplyEvent], which
    sees both. *)
Record embedded (V U : Type) := mkEmbedded { em_base : AggregateBase V; em_state : U }.
Arguments mkEmbedded {V U} _ _.
Arguments em_base {V U} _.
Arguments em_state {V U} _.

Definition embeddedAggregate {V U} (applyEvent : V → op (embedded V U) error unit) : Aggregate V (embedded V U) := {|
  agg_AggregateID g := ab_id (em_base g);
  agg_AggregateType g := ab_aggregateType (em_base g);
  agg_Version g := ab_version (em_base g);
  agg_ApplyEvent := applyEvent;
  agg_UncommittedEvents g := ab_uncommittedEvents (em_base g);
  agg_ClearUncommittedEvents g := mkEmbedded (ClearUncommittedEvents (em_base g)) (em_state g);
  agg_SetVersion := Some (λ v g, mkEmbedded (SetVersion v (em_base g)) (em_state g));
  agg_setOriginalVersion := Some (λ v g, mkEmbedded (setOriginalVersion v (em_base g)) (em_state g));
|}.

(** ** Replay *)

(** [ReplayEvents]: stop at the first error. *)
Fixpoint ReplayEvents {V T} (applier : V → op T error unit) (events : list V) : op T error unit := λ target,
  match events with
  | [] => (target, Ok tt)
  | e :: events =>
      match applier e target with
      | (target, Ok _) => ReplayEvents applier events target
      | (target, Err err) => (target, Err err)
      end
  end.

(** ** The registry of factories *)

Record AggregateRegistry (G : Type) := mkAggregateRegistry { factories : gmap string (string → G) }.
Arguments mkAggregateRegistry {G} _.
Arguments factories {G} _.

Definition NewAggregateRegistry {G} : AggregateRegistry G := mkAggregateRegistry ∅.

Definition RegisterFactory {G} (aggregateType : string) (factory : string → G) (r : AggregateRegistry G)
    : AggregateRegistry G :=
  mkAggregateRegistry (<[aggregateType := factory]> (factories r)).

Definition Create {G} (aggregateType id : string) (r : AggregateRegistry G) : res G :=
  match factories r !! aggregateType with
  | None => Err (Wrapf "%w: %s" ErrAggregateTypeNotRegistered)
  | Some factory => Ok (factory id)
  end.
