(* ===== verification/EventStore.v ===== *)
(** * The event store

    [src/store.go], with the serialization helpers of [src/serializer.go] it
    uses: appending and loading events and aggregates over any event log, key
    provider, serializer and subject index.  The functional options are the
    fields of a record.  Logging is left out, except the deduplication of the
    replay warning, which is state. *)

From S2P Require Import Prelude.
From S2P Require Import Types.
From S2P Require Import Common.
From S2P Require Import Strconv.
From S2P Require Import Crypto.
From S2P Require Import Subject.
From S2P Require Import FieldEncryption.
From S2P Require Import Versioning.
From S2P Require Import EventLog.
From S2P Require Import Aggregate.
From Stdlib Require Import Strings.Byte.

(** ** Serializers and indexes *)

(** [Serializer] with its optional interfaces: [V] is the type of events.
    [ser_RegisterAll] does nothing for a serializer that is no
    [JSONSerializer], whose own may panic; [ser_IsRegistered] is
    [EventTypeRegistrar]. *)
Class SerializerOps (V S : Type) := {
  ser_GetEventType : V → string;
  ser_Serialize : V → S → res Bytes;
  ser_Deserialize : Bytes → string → S → res V;
  ser_RegisterAll : list V → op S error unit;
  ser_IsRegistered : option (string → S → bool);
  ser_isMap : V → bool;
  ser_BinaryFormat : bool;
}.

Class SubjectIndexWriter (X : Type) := IndexSubjects : Env → string → list string → op X error unit.

Record EventData := mkEventData { ed_Type : string; ed_Data : Bytes; ed_Metadata : Metadata }.

Record Event (V : Type) := mkEvent {
  ev_ID : string;
  ev_StreamID : string;
  ev_Type : string;
  ev_Data : V;
  ev_Metadata : Metadata;
  ev_Version : Z;
  ev_GlobalPosition : Z;
  ev_Timestamp : Time;
}.
Arguments mkEvent {V} _ _ _ _ _ _ _ _.
Arguments ev_ID {V} _.
Arguments ev_StreamID {V} _.
Arguments ev_Type {V} _.
Arguments ev_Data {V} _.
Arguments ev_Metadata {V} _.
Arguments ev_Version {V} _.
Arguments ev_GlobalPosition {V} _.
Arguments ev_Timestamp {V} _.

Definition EventFromStored {V} (stored : StoredEvent) (data : V) : Event V :=
  mkEvent (se_ID stored) (se_StreamID stored) (se_Type stored) data (se_Metadata stored)
    (se_Version stored) (se_GlobalPosition stored) (se_Timestamp stored).

(** ** Configuration and state *)

Record EventStore := mkEventStore {
  es_encryption : option FieldEncryptionConfig;
  es_maxEventSize : Z;
  es_subjectTagger : option SubjectTagger;
  es_hasIndex : bool; (* subjectIndex != nil *)
  es_callerSubjectTags : bool;
  es_callerSchemaVersion : bool;
  es_strictReplay : bool;
  es_autoRegister : bool;
  es_serializerErr : option error;
}.

Record Store (A P S X : Type) := mkStore {
  st_adapter : A;
  st_provider : P;
  st_serializer : S;
  st_index : X;
  st_upcasters : option UpcasterChain;
  st_replayWarned : gset string;
}.
Arguments mkStore {A P S X} _ _ _ _ _ _.
Arguments st_adapter {A P S X} _.
Arguments st_provider {A P S X} _.
Arguments st_serializer {A P S X} _.
Arguments st_index {A P S X} _.
Arguments st_upcasters {A P S X} _.
Arguments st_replayWarned {A P S X} _.

(** The environment of a call: that of the adapter, and the clock and random
    bytes of the provider at its [k]-th event. *)
Record StoreEnv := mkStoreEnv { se_env : Env; se_now : nat → Time; se_entropy : nat → Entropy }.

Record appendConfig := mkAppendConfig {
  ac_metadata : Metadata;
  ac_expectedVersion : Z;
  ac_trustedMetadata : bool;
}.

(** [checkSerializerAdapterCompatible]: [requiresJSON] is what the adapter's
    [RequiresJSONData] reports, false when it has none. *)
Definition checkSerializerAdapterCompatible {V Ser} `{SerializerOps V Ser} (requiresJSON : bool) : option error :=
  if negb requiresJSON then None
  else if negb ser_BinaryFormat then None
  else Some (Wrapf "%w: this serializer emits binary (non-JSON) event data that the adapter's JSON/JSONB data column cannot store; use the default JSON serializer, or an event-store adapter with a BYTEA data column" ErrBinarySerializerUnsupported).

(** ** Metadata policies *)

Definition reservedEncryptionMetadataKeys : list string :=
  [encryptedFieldsKey; encryptionKeyIDKey; encryptedDEKKey; encryptionAlgorithmKey].

Definition SanitizeReservedMetadata (m : Metadata) : Metadata := withoutCustomKeys m reservedEncryptionMetadataKeys.

Definition explicitSchemaVersionValid (m : Metadata) (latest : Z) : bool :=
  if negb (hasSchemaVersion m) then false
  else
    match Atoi (default "" (custom_lookup m schemaVersionKey)) with
    | None => false
    | Some v => (DefaultSchemaVersion <=? v) && (v <=? latest)
    end.

Definition applySchemaVersionPolicy (c : EventStore) (upcasters : option UpcasterChain) (eventType : string)
    (m : Metadata) : Metadata :=
  match upcasters with
  | None => if hasSchemaVersion m then withoutCustomKeys m [schemaVersionKey] else m
  | Some upcasters =>
      let latest := LatestVersion upcasters eventType in
      if es_callerSchemaVersion c && HasUpcasters upcasters eventType && explicitSchemaVersionValid m latest
      then m else SetSchemaVersion m latest
  end.

Definition applySubjectTagPolicy (c : EventStore) (eventType : string) (data : Bytes) (m : Metadata) : Metadata :=
  match es_subjectTagger c with
  | None => m
  | Some tagger =>
      let subjects := tagger eventType data m in
      if es_callerSubjectTags c then
        if 0 <? Z.of_nat (length subjects) then setSubjectTags m subjects else m
      else replaceSubjectTags m subjects
  end.

Section Prepare.
Context {P : Type} `{AEAD} `{ProviderOps P}.

(** Encryption, when it is configured for the type. *)
Definition encryptEventData (c : EventStore) (now : Time) (ent : Entropy) (streamID : string) (ed : EventData)
    : op P error EventData := λ p,
  match es_encryption c with
  | Some enc =>
      if HasEncryptedFields enc (ed_Type ed) then
        match encryptFields now ent enc streamID (ed_Type ed) (ed_Data ed) (ed_Metadata ed) p with
        | (p, Ok (encData, encMeta)) => (p, Ok (mkEventData (ed_Type ed) encData encMeta))
        | (p, Err err) => (p, Err err)
        end
      else (p, Ok ed)
  | None => (p, Ok ed)
  end.

Definition dataLength (d : Bytes) : Z := Z.of_nat (length (default [] d)).

(** The metadata before encryption. *)
Definition stampMetadata (c : EventStore) (upcasters : option UpcasterChain) (trusted : bool) (ed : EventData)
    : Metadata :=
  let m := SanitizeReservedMetadata (ed_Metadata ed) in
  let m := if negb trusted then applySchemaVersionPolicy c upcasters (ed_Type ed) m else m in
  applySubjectTagPolicy c (ed_Type ed) (ed_Data ed) m.

Definition prepareEventDataWith (c : EventStore) (upcasters : option UpcasterChain) (now : Time) (ent : Entropy)
    (streamID : string) (ed : EventData) (trusted : bool) : op P error EventData := λ p,
  match encryptEventData c now ent streamID
          (mkEventData (ed_Type ed) (ed_Data ed) (stampMetadata c upcasters trusted ed)) p with
  | (p, Err err) => (p, Err err)
  | (p, Ok ed) =>
      if (0 <? es_maxEventSize c) && (es_maxEventSize c <? dataLength (ed_Data ed)) then
        (p, Err (Wrapf "%w: event type %q is %d bytes (limit %d)" ErrEventTooLarge))
      else (p, Ok ed)
  end.
End Prepare.

Definition RegisterUpcasters `{SliceSort} {A P S X} (us : list Upcaster) : op (Store A P S X) error unit := λ s,
  let chain := default NewUpcasterChain (st_upcasters s) in
  let '(chain, r) :=
    (fix go us chain :=
       match us with
       | [] => (chain, Ok tt)
       | u :: us =>
           match Register u chain with
           | (chain, Ok _) => go us chain
           | (chain, Err err) => (chain, Err err)
           end
       end) us chain in
  (mkStore (st_adapter s) (st_provider s) (st_serializer s) (st_index s) (Some chain) (st_replayWarned s), r).

Section EventStore.
Context {A P V Ser X : Type}.
Context `{AEAD} `{EventLogOps A} `{ProviderOps P} `{SerializerOps V Ser} `{SubjectIndexWriter X} `{MapOrder}.
Implicit Types s : Store A P Ser X.
Implicit Types c : EventStore.

Definition set_provider s (p : P) : Store A P Ser X :=
  mkStore (st_adapter s) p (st_serializer s) (st_index s) (st_upcasters s) (st_replayWarned s).
Definition set_adapter s (a : A) : Store A P Ser X :=
  mkStore a (st_provider s) (st_serializer s) (st_index s) (st_upcasters s) (st_replayWarned s).
Definition set_serializer s (ser : Ser) : Store A P Ser X :=
  mkStore (st_adapter s) (st_provider s) ser (st_index s) (st_upcasters s) (st_replayWarned s).
Definition set_index s (x : X) : Store A P Ser X :=
  mkStore (st_adapter s) (st_provider s) (st_serializer s) x (st_upcasters s) (st_replayWarned s).
Definition set_warned s (w : gset string) : Store A P Ser X :=
  mkStore (st_adapter s) (st_provider s) (st_serializer s) (st_index s) (st_upcasters s) w.

(** ** Serialization *)

Definition SerializeEvent (ser : Ser) (event : V) (metadata : Metadata) : res EventData :=
  let eventType := ser_GetEventType event in
  if bool_decide (eventType = "") then
    Err (SerializationError "" "serialize" (Errorf "cannot determine event type"))
  else
    data ← ser_Serialize event ser;
    Ok (mkEventData eventType data metadata).

Definition DeserializeEvent (ser : Ser) (stored : StoredEvent) : res (Event V) :=
  data ← ser_Deserialize (se_Data stored) (se_Type stored) ser;
  Ok (EventFromStored stored data).

(** [RegisterEvents]; a panic of the serializer is one of the caller. *)
Definition RegisterEvents (events : list V) : op (Store A P Ser X) error unit := λ s,
  let '(ser, r) := ser_RegisterAll events (st_serializer s) in (set_serializer s ser, r).

Definition autoRegisterEvents c (events : list V) : op (Store A P Ser X) error unit := λ s,
  if es_autoRegister c then RegisterEvents events s else (s, Ok tt).

(** *** Subjects *)

Definition collectSubjects c (md : Metadata) (set : gmap string unit) : gmap string unit :=
  if es_hasIndex c then foldl (λ set sub, <[sub := tt]> set) set (GetSubjectTags md) else set.

(** A failed write is only logged. *)
Definition writeSubjectIndex c (env : Env) (streamID : string) (set : gmap string unit) s : Store A P Ser X :=
  if negb (es_hasIndex c) || bool_decide (set = ∅) then s
  else set_index s (IndexSubjects env streamID (range set).*1 (st_index s)).1.

(** *** The records of a batch *)

Record batchFormats := mkBatchFormats { bf_serialize : string; bf_prepare : string }.

(** The loop over the events: the provider, and the records and subjects or the
    first error. *)
Fixpoint prepareRecords c (env : StoreEnv) (fmt : batchFormats) (upcasters : option UpcasterChain) (ser : Ser)
    (streamID : string) (metadata : Metadata) (trusted : bool) (i : nat) (events : list V)
    (records : list EventRecord) (subjects : gmap string unit) (p : P)
    : P * res (list EventRecord * gmap string unit) :=
  match events with
  | [] => (p, Ok (records, subjects))
  | event :: events =>
      match SerializeEvent ser event metadata with
      | Err err => (p, Err (Wrapf (bf_serialize fmt) err))
      | Ok ed =>
          match prepareEventDataWith c upcasters (se_now env i) (se_entropy env i) streamID ed trusted p with
          | (p, Err err) => (p, Err (Wrapf (bf_prepare fmt) err))
          | (p, Ok ed) =>
              prepareRecords c env fmt upcasters ser streamID metadata trusted (S i) events
                (records ++ [mkEventRecord (ed_Type ed) (ed_Data ed) (ed_Metadata ed)])
                (collectSubjects c (ed_Metadata ed) subjects) p
          end
      end
  end.

(** From the events to the log and the index. *)
Definition writeEvents c (env : StoreEnv) (fmt : batchFormats) (streamID : string) (events : list V)
    (metadata : Metadata) (trusted : bool) (expectedVersion : Z) : op (Store A P Ser X) error unit := λ s,
  match prepareRecords c env fmt (st_upcasters s) (st_serializer s) streamID metadata trusted 0 events [] ∅
          (st_provider s) with
  | (p, Err err) => (set_provider s p, Err err)
  | (p, Ok (records, subjects)) =>
      let s := set_provider s p in
      match el_Append (se_env env) streamID records expectedVersion (st_adapter s) with
      | (a, Err err) => (set_adapter s a, Err err)
      | (a, Ok _) => (writeSubjectIndex c (se_env env) streamID subjects (set_adapter s a), Ok tt)
      end
  end.

Definition appendFormats : batchFormats :=
  mkBatchFormats "mink: failed to serialize event %d: %w" "mink: failed to prepare event %d: %w".
Definition aggregateFormats : batchFormats :=
  mkBatchFormats "mink: failed to serialize aggregate event %d: %w" "mink: failed to prepare aggregate event %d: %w".

Definition Append c (env : StoreEnv) (streamID : string) (events : list V) (config : appendConfig)
    : op (Store A P Ser X) error unit := λ s,
  match es_serializerErr c with
  | Some err => (s, Err err)
  | None =>
      if bool_decide (streamID = "") then (s, Err ErrEmptyStreamID)
      else if bool_decide (length events = 0%nat) then (s, Err ErrNoEvents)
      else
        match autoRegisterEvents c events s with
        | (s, Err panic) => (s, Err panic)
        | (s, Ok _) =>
            if ac_expectedVersion config <? StreamExists then (s, Err ErrInvalidVersion)
            else writeEvents c env appendFormats streamID events (ac_metadata config) (ac_trustedMetadata config)
                   (ac_expectedVersion config) s
        end
  end.

(** ** Reading *)

(** Decryption, then upcasting, then the serializer. *)
Definition deserializeWithUpcast c (now : Time) (upcasters : option UpcasterChain) (ser : Ser) (stored : StoredEvent)
    : op P error (Event V) := λ p,
  let needsDecryption :=
    match es_encryption c with Some _ => IsEncrypted (se_Metadata stored) | None => false end in
  let needsUpcast := match upcasters with Some chain => HasUpcasters chain (se_Type stored) | None => false end in
  if negb needsDecryption && negb needsUpcast then (p, DeserializeEvent ser stored)
  else
    let '(p, decrypted) :=
      match es_encryption c with
      | Some enc =>
          if needsDecryption then
            decryptFields now enc (se_StreamID stored) (se_Type stored) (se_Data stored) (se_Metadata stored) p
          else (p, Ok (se_Data stored))
      | None => (p, Ok (se_Data stored))
      end in
    (p,
     eventData ← decrypted;
     eventData ←
       match upcasters with
       | Some chain =>
           if needsUpcast then
             (Upcast chain (se_Type stored) (GetSchemaVersion (se_Metadata stored)) eventData (se_Metadata stored)).2
           else Ok eventData
       | None => Ok eventData
       end;
     data ← ser_Deserialize eventData (se_Type stored) ser;
     Ok (EventFromStored stored data)).

Fixpoint deserializeAll c (env : StoreEnv) (upcasters : option UpcasterChain) (ser : Ser) (i : nat)
    (stored : list StoredEvent) (acc : list (Event V)) (p : P) : P * res (list (Event V)) :=
  match stored with
  | [] => (p, Ok acc)
  | e :: stored =>
      match deserializeWithUpcast c (se_now env i) upcasters ser e p with
      | (p, Err err) => (p, Err (Wrapf "mink: failed to deserialize event %d: %w" err))
      | (p, Ok event) => deserializeAll c env upcasters ser (S i) stored (acc ++ [event]) p
      end
  end.

Definition LoadFrom c (env : StoreEnv) (streamID : string) (fromVersion : Z)
    : op (Store A P Ser X) error (list (Event V)) := λ s,
  if bool_decide (streamID = "") then (s, Err ErrEmptyStreamID)
  else
    match el_Load (se_env env) streamID fromVersion (st_adapter s) with
    | Err err => (s, Err err)
    | Ok stored =>
        let '(p, r) := deserializeAll c env (st_upcasters s) (st_serializer s) 0 stored [] (st_provider s) in
        (set_provider s p, r)
    end.

Definition Load c (env : StoreEnv) (streamID : string) : op (Store A P Ser X) error (list (Event V)) :=
  LoadFrom c env streamID 0.

Definition LoadRaw (env : Env) (streamID : string) (fromVersion : Z) s : res (list StoredEvent) :=
  if bool_decide (streamID = "") then Err ErrEmptyStreamID
  else el_Load env streamID fromVersion (st_adapter s).

Definition GetStreamInfo (env : Env) (streamID : string) s : res StreamInfo :=
  if bool_decide (streamID = "") then Err ErrEmptyStreamID else el_GetStreamInfo env streamID (st_adapter s).

Definition GetLastPosition (env : Env) s : res Z := el_GetLastPosition env (st_adapter s).

Definition LoadEventsFromPosition (env : Env) (fromPosition limit : Z) s : res (list StoredEvent) :=
  el_LoadFromPosition env fromPosition limit (st_adapter s).

Definition LoadEventsFromPositionFiltered (env : Env) (fromPosition limit : Z) (filter : FeedFilter) s
    : res (list StoredEvent) :=
  el_LoadFromPositionFiltered env fromPosition limit filter (st_adapter s).

(** ** Aggregates *)

Definition aggregateStream {G} `{Aggregate V G} (g : G) : string :=
  agg_AggregateType g +:+ "-" +:+ agg_AggregateID g.

(** The optional interfaces. *)
Definition recordVersion {G} `{Aggregate V G} (v : Z) (g : G) : G :=
  let g := match agg_SetVersion with Some f => f v g | None => g end in
  match agg_setOriginalVersion with Some f => f v g | None => g end.

Definition SaveAggregate {G} `{Aggregate V G} c (env : StoreEnv) : op (Store A P Ser X * G) error unit := λ '(s, g),
  match es_serializerErr c with
  | Some err => ((s, g), Err err)
  | None =>
      let events := agg_UncommittedEvents g in
      if bool_decide (length events = 0%nat) then ((s, g), Ok tt)
      else
        match autoRegisterEvents c events s with
        | (s, Err panic) => ((s, g), Err panic)
        | (s, Ok _) =>
            let expectedVersion := agg_Version g in
            match writeEvents c env aggregateFormats (aggregateStream g) events emptyMetadata false expectedVersion s with
            | (s, Err err) => ((s, g), Err err)
            | (s, Ok _) =>
                let newVersion := i64 (expectedVersion + Z.of_nat (length events)) in
                ((s, agg_ClearUncommittedEvents (recordVersion newVersion g)), Ok tt)
            end
        end
  end.

Definition isUnresolvedReplayType (ser : Ser) (stored : StoredEvent) (data : V) : bool :=
  match ser_IsRegistered with
  | Some registered => negb (registered (se_Type stored) ser)
  | None => ser_isMap data
  end.

Definition warnUnresolvedReplayType (streamID eventType : string) (version : Z) (w : gset string) : gset string :=
  {[ streamID +:+ "|" +:+ eventType +:+ "|" +:+ Itoa version ]} ∪ w.

(** The replay loop: the provider, the warnings and the aggregate change as it
    goes. *)
Fixpoint replay {G} `{Aggregate V G} c (env : StoreEnv) (upcasters : option UpcasterChain) (ser : Ser)
    (streamID : string) (i : nat) (stored : list StoredEvent) : op (P * gset string * G) error unit := λ '(p, w, g),
  match stored with
  | [] => ((p, w, g), Ok tt)
  | e :: stored =>
      match deserializeWithUpcast c (se_now env i) upcasters ser e p with
      | (p, Err err) => ((p, w, g), Err (Wrapf "mink: failed to deserialize event %d: %w" err))
      | (p, Ok event) =>
          let unresolved := isUnresolvedReplayType ser e (ev_Data event) in
          if unresolved && es_strictReplay c then
            ((p, w, g), Err (UnregisteredEventTypeError streamID (se_Type e) (se_Version e)))
          else
            let w := if unresolved then warnUnresolvedReplayType streamID (se_Type e) (se_Version e) w else w in
            match agg_ApplyEvent (ev_Data event) g with
            | (g, Err err) => ((p, w, g), Err (Wrapf "mink: failed to apply event %d: %w" err))
            | (g, Ok _) => replay c env upcasters ser streamID (S i) stored (p, w, g)
            end
      end
  end.

Definition LoadAggregate {G} `{Aggregate V G} c (env : StoreEnv) : op (Store A P Ser X * G) error unit := λ '(s, g),
  let streamID := aggregateStream g in
  match el_Load (se_env env) streamID 0 (st_adapter s) with
  | Err err => ((s, g), Err err)
  | Ok stored =>
      match replay c env (st_upcasters s) (st_serializer s) streamID 0 stored (st_provider s, st_replayWarned s, g) with
      | ((p, w, g), Err err) => ((set_warned (set_provider s p) w, g), Err err)
      | ((p, w, g), Ok _) =>
          ((set_warned (set_provider s p) w, recordVersion (Z.of_nat (length stored)) g), Ok tt)
      end
  end.

(** ** Decryption and re-encryption of stored events *)

Definition DecryptStoredEvent c (now : Time) (stored : StoredEvent) : op P error StoredEvent := λ p,
  match es_encryption c with
  | None => (p, Ok stored)
  | Some enc =>
      if negb (IsEncrypted (se_Metadata stored)) then (p, Ok stored)
      else
        match decryptFields now enc (se_StreamID stored) (se_Type stored) (se_Data stored) (se_Metadata stored) p with
        | (p, Err err) => (p, Err err)
        | (p, Ok dec) =>
            let md :=
              if negb (bool_decide (default [] dec = default [] (se_Data stored)))
              then SanitizeReservedMetadata (se_Metadata stored) else se_Metadata stored in
            (p, Ok (mkStoredEvent (se_ID stored) (se_StreamID stored) (se_Type stored) dec md
                      (se_Version stored) (se_GlobalPosition stored) (se_Timestamp stored)))
        end
  end.

Fixpoint decryptStoredEvents c (now : nat → Time) (i : nat) (events : list StoredEvent) (acc : list StoredEvent)
    (p : P) : P * res (list StoredEvent) :=
  match events with
  | [] => (p, Ok acc)
  | e :: events =>
      match DecryptStoredEvent c (now i) e p with
      | (p, Err err) => (p, Err (Wrapf "decrypt event at position %d: %w" err))
      | (p, Ok dec) => decryptStoredEvents c now (S i) events (acc ++ [dec]) p
      end
  end.

Definition EncryptStoredEvent c (now : Time) (ent : Entropy) (stored : StoredEvent) : op P error StoredEvent := λ p,
  match es_encryption c with
  | None => (p, Ok stored)
  | Some enc =>
      if IsEncrypted (se_Metadata stored) || negb (HasEncryptedFields enc (se_Type stored)) then (p, Ok stored)
      else
        let md := SanitizeReservedMetadata (se_Metadata stored) in
        let md := applySubjectTagPolicy c (se_Type stored) (se_Data stored) md in
        match encryptFields now ent enc (se_StreamID stored) (se_Type stored) (se_Data stored) md p with
        | (p, Err err) => (p, Err err)
        | (p, Ok (encData, encMeta)) =>
            (p, Ok (mkStoredEvent (se_ID stored) (se_StreamID stored) (se_Type stored) encData encMeta
                      (se_Version stored) (se_GlobalPosition stored) (se_Timestamp stored)))
        end
  end.

(** The loop of [ReEncryptStreamInPlace]: how many events were rewritten, the
    keys they are under, and the error that stopped it. *)
Fixpoint reEncryptLoop c (enc : FieldEncryptionConfig) (env : StoreEnv) (streamID : string) (i : nat)
    (events : list StoredEvent) (n : Z) (keySet : gset string) s : Store A P Ser X * (Z * gset string * option error) :=
  match events with
  | [] => (s, (n, keySet, None))
  | ev :: events =>
      if IsEncrypted (se_Metadata ev) || negb (HasEncryptedFields enc (se_Type ev)) then
        reEncryptLoop c enc env streamID (S i) events n keySet s
      else
        match EncryptStoredEvent c (se_now env i) (se_entropy env i) ev (st_provider s) with
        | (p, Err err) => (set_provider s p, (n, keySet, Some err))
        | (p, Ok sealed) =>
            let s := set_provider s p in
            if negb (IsEncrypted (se_Metadata sealed)) then
              reEncryptLoop c enc env streamID (S i) events n keySet s
            else
              match el_RewriteEventData (se_env env) streamID (se_Version ev) (se_Data sealed) (se_Metadata sealed)
                      (st_adapter s) with
              | (a, Err err) => (set_adapter s a, (n, keySet, Some err))
              | (a, Ok _) =>
                  let k := GetEncryptionKeyID (se_Metadata sealed) in
                  let keySet := if bool_decide (k = "") then keySet else {[ k ]} ∪ keySet in
                  reEncryptLoop c enc env streamID (S i) events (i64 (n + 1)) keySet (set_adapter s a)
              end
        end
  end.

Definition ReEncryptStreamInPlace c (env : StoreEnv) (streamID : string) s
    : Store A P Ser X * (Z * gset string * option error) :=
  match es_encryption c with
  | None => (s, (0, ∅, None))
  | Some enc =>
      match LoadRaw (se_env env) streamID 0 s with
      | Err err => (s, (0, ∅, Some err))
      | Ok events => reEncryptLoop c enc env streamID 0 events 0 ∅ s
      end
  end.
End EventStore.
