(* ===== verification/SagaManager.v ===== *)
(** * The saga manager

    [src/saga_manager.go]: routing of events to sagas, the drive of one saga by
    one event (handle, dispatch, complete or compensate, save), operator retries
    and the timeout sweep, over any saga store, command bus, key provider, event
    log and sagas.  Per-saga locks make each drive of a saga exclusive within a
    process; what other processes and other sagas' goroutines do to the store
    between two of its calls is [others].  Logging and the waits of the backoff
    are left out. *)

From S2P Require Import Prelude.
From S2P Require Import Types.
From S2P Require Import Common.
From S2P Require Import Strconv.
From S2P Require Import Crypto.
From S2P Require Import FieldEncryption.
From S2P Require Import Command.
From S2P Require Import SagaStore.
From S2P Require Import Saga.
From S2P Require Import EventLog.
From S2P Require Import EventStore.

Definition maxProcessedEventsToTrack : nat := 100.
Definition reservedLastEventKey : string := "__mink_last_event".
Definition sagaTriggerLocatorKey : string := "$saga_trigger_locator".

(** ** What the manager calls *)

(** [adapters.SagaStore] and its optional type-scoped lookup.  [Save] returns
    the caller's state with the version it was given; a nil state is [None]. *)
Class SagaStoreOps (S : Type) := {
  ss_Save : Env → SagaState → op S error SagaState;
  ss_Load : Env → string → S → res (option SagaState);
  ss_FindByCorrelationID : Env → string → S → res (option SagaState);
  ss_FindByCorrelationIDAndType : option (Env → string → string → S → res (option SagaState));
  ss_FindByType : Env → string → list SagaStatus → S → res (list SagaState);
}.

(** [CommandBus.Dispatch] and [Command.CommandType]. *)
Class BusOps (B C : Type) := {
  Dispatch : Env → C → B → B * (CommandResult * option error);
  CommandType : C → string;
}.

(** A value marshalled to JSON and back into a [StoredEvent]. *)
Class EventJSON := eventFromJSON : value → option StoredEvent.

Record RetryEvent := mkRetryEvent {
  re_SagaID : string;
  re_SagaType : string;
  re_FromStatus : SagaStatus;
  re_ResultStatus : SagaStatus;
  re_At : Time;
  re_Err : option error;
}.

Inductive RetryOutcome := RetrySucceeded | RetryFailedAgain | RetryConflicted | RetrySkipped.

Definition RetryOutcome_String (o : RetryOutcome) : string :=
  match o with
  | RetrySucceeded => "succeeded"
  | RetryFailedAgain => "failed_again"
  | RetryConflicted => "conflicted"
  | RetrySkipped => "skipped"
  end.

Record SagaRetryResult := mkSagaRetryResult { sr_SagaID : string; sr_Outcome : RetryOutcome; sr_Err : option error }.

#[export] Instance RetryOutcome_eq_dec : EqDecision RetryOutcome.
Proof. solve_decision. Defined.

Definition RetryReport_Count (o : RetryOutcome) (results : list SagaRetryResult) : Z :=
  Z.of_nat (length (filter (λ r, sr_Outcome r = o) results)).

(** ** The manager and the world it acts on *)

Record SagaManager (A G : Type) := mkSagaManager {
  m_eventStore : option EventStore;
  m_streamQuery : option (Env → string → Z → Z → A → res (list StoredEvent)); (* StreamQueryAdapter *)
  m_registry : gmap string (string → G);
  m_correlations : gmap string (list SagaCorrelation);
  m_eventHandlers : gmap string (list string);
  m_retryAttempts : Z;
  m_sagaTimeout : Duration;
  m_captureLastEvent : bool;
  m_retryObserver : bool; (* retryObserver != nil *)
}.
Arguments mkSagaManager {A G} _ _ _ _ _ _ _ _ _.
Arguments m_eventStore {A G} _.
Arguments m_streamQuery {A G} _.
Arguments m_registry {A G} _.
Arguments m_correlations {A G} _.
Arguments m_eventHandlers {A G} _.
Arguments m_retryAttempts {A G} _.
Arguments m_sagaTimeout {A G} _.
Arguments m_captureLastEvent {A G} _.
Arguments m_retryObserver {A G} _.

(** The store, the bus, the provider and the log it calls, its cache of
    processed events and its position, what it told the observer, and how many
    outside calls it made. *)
Record World (S B P A : Type) := mkWorld {
  w_store : S;
  w_bus : B;
  w_provider : P;
  w_log : A;
  w_processed : gmap string (option (list string));
  w_position : Z;
  w_retries : list RetryEvent;
  w_calls : nat;
}.
Arguments mkWorld {S B P A} _ _ _ _ _ _ _ _.
Arguments w_store {S B P A} _.
Arguments w_bus {S B P A} _.
Arguments w_provider {S B P A} _.
Arguments w_log {S B P A} _.
Arguments w_processed {S B P A} _.
Arguments w_position {S B P A} _.
Arguments w_retries {S B P A} _.
Arguments w_calls {S B P A} _.

(** *** Options and registration *)

Definition NewSagaManager {A G} (es : option EventStore)
    (sq : option (Env → string → Z → Z → A → res (list StoredEvent))) : SagaManager A G :=
  mkSagaManager es sq ∅ ∅ ∅ 3 0 false false.

Definition WithSagaRetryAttempts {A G} (attempts : Z) (m : SagaManager A G) : SagaManager A G :=
  mkSagaManager (m_eventStore m) (m_streamQuery m) (m_registry m) (m_correlations m) (m_eventHandlers m)
    (if attempts <? 1 then 1 else attempts) (m_sagaTimeout m) (m_captureLastEvent m) (m_retryObserver m).
Definition WithSagaTimeout {A G} (d : Duration) (m : SagaManager A G) : SagaManager A G :=
  mkSagaManager (m_eventStore m) (m_streamQuery m) (m_registry m) (m_correlations m) (m_eventHandlers m)
    (m_retryAttempts m) d (m_captureLastEvent m) (m_retryObserver m).
Definition WithSagaRetryCapture {A G} (m : SagaManager A G) : SagaManager A G :=
  mkSagaManager (m_eventStore m) (m_streamQuery m) (m_registry m) (m_correlations m) (m_eventHandlers m)
    (m_retryAttempts m) (m_sagaTimeout m) true (m_retryObserver m).
Definition WithSagaRetryObserver {A G} (m : SagaManager A G) : SagaManager A G :=
  mkSagaManager (m_eventStore m) (m_streamQuery m) (m_registry m) (m_correlations m) (m_eventHandlers m)
    (m_retryAttempts m) (m_sagaTimeout m) (m_captureLastEvent m) true.

(** The handled events are those of a saga made for the purpose. *)
Definition Register {A G C} `{SagaOps G C} (sagaType : string) (factory : string → G)
    (correlation : SagaCorrelation) (m : SagaManager A G) : SagaManager A G :=
  mkSagaManager (m_eventStore m) (m_streamQuery m) (<[sagaType := factory]> (m_registry m))
    (<[sagaType := default [] (m_correlations m !! sagaType) ++ [correlation]]> (m_correlations m))
    (foldl (λ h t, <[t := default [] (h !! t) ++ [sagaType]]> h) (m_eventHandlers m) (HandledEvents (factory "")))
    (m_retryAttempts m) (m_sagaTimeout m) (m_captureLastEvent m) (m_retryObserver m).

Definition RegisterSimple {A G C} `{SagaOps G C} (sagaType : string) (factory : string → G)
    (startingEvents : list string) (m : SagaManager A G) : SagaManager A G :=
  Register sagaType factory (mkSagaCorrelation sagaType startingEvents se_StreamID) m.

(** ** Values *)

(** [fmt.Sprintf("%s:%d", event.ID, event.GlobalPosition)] *)
Definition eventKey (e : StoredEvent) : string := se_ID e +:+ ":" +:+ Itoa (se_GlobalPosition e).

Definition captureCandidate (raw : StoredEvent) : StoredEvent :=
  if negb (IsEncrypted (se_Metadata raw)) then raw
  else
    mkStoredEvent (se_ID raw) (se_StreamID raw) (se_Type raw) None
      (mkMetadata "" "" "" "" (Some {[ sagaTriggerLocatorKey := "true" ]}))
      (se_Version raw) (se_GlobalPosition raw) (se_Timestamp raw).

Definition isTriggerLocator (captured : StoredEvent) : bool :=
  bool_decide (default "" (custom_lookup (se_Metadata captured) sagaTriggerLocatorKey) = "true").

Definition matchTriggerLocator (ev loc : StoredEvent) : res unit :=
  let mismatch := Errorf "mink: captured trigger event locator (stream %q, version %d) does not match the stored event: %s %v, found %v" in
  if negb (bool_decide (se_ID loc = "")) && negb (bool_decide (se_ID ev = se_ID loc)) then Err mismatch
  else if negb (bool_decide (se_Type loc = "")) && negb (bool_decide (se_Type ev = se_Type loc)) then Err mismatch
  else if (0 <? se_Version loc) && negb (se_Version ev =? se_Version loc) then Err mismatch
  else if (0 <? se_GlobalPosition loc) && negb (se_GlobalPosition ev =? se_GlobalPosition loc) then Err mismatch
  else Ok tt.

Definition cloneSagaData (data : option (gmap string value)) : gmap string value := default ∅ data.

Definition cloneSagaDataWithout (data : option (gmap string value)) (key : string) : option (gmap string value) :=
  let data := default ∅ data in
  if Z.of_nat (size data) <=? 1 then None else Some (delete key data).

Definition decodeLastEvent `{EventJSON} (raw : value) : option StoredEvent :=
  match raw with
  | VEvent e => Some e
  | _ =>
      match eventFromJSON raw with
      | None => None
      | Some ev => if bool_decide (se_ID ev = "") && bool_decide (se_Type ev = "") then None else Some ev
      end
  end.

Definition removeProcessedEventKey (events : option (list string)) (key : string) : option (list string) :=
  if bool_decide (length (default [] events) = 0%nat) then events
  else Some (filter (λ e, e ≠ key) (default [] events)).

(** The most recent events. *)
Definition truncateProcessed (events : option (list string)) : option (list string) :=
  match events with
  | Some l => if (maxProcessedEventsToTrack <? length l)%nat
              then Some (drop (length l - maxProcessedEventsToTrack) l) else events
  | None => None
  end.

Section Manager.
Context {S B P A G C : Type}.
Context `{SagaStoreOps S} `{BusOps B C} `{AEAD} `{ProviderOps P} `{EventLogOps A} `{SagaOps G C} `{EventJSON}.
Context (envs : nat → Env) (others : nat → S → S).
Implicit Types w : World S B P A.
Implicit Types m : SagaManager A G.

Definition set_processed w (p : gmap string (option (list string))) : World S B P A :=
  mkWorld (w_store w) (w_bus w) (w_provider w) (w_log w) p (w_position w) (w_retries w) (w_calls w).
Definition set_wprovider w (p : P) : World S B P A :=
  mkWorld (w_store w) (w_bus w) p (w_log w) (w_processed w) (w_position w) (w_retries w) (w_calls w).

(** One outside call. *)
Definition tick w : World S B P A :=
  mkWorld (w_store w) (w_bus w) (w_provider w) (w_log w) (w_processed w) (w_position w) (w_retries w)
    (Datatypes.S (w_calls w)).
Definition env w : Env := envs (w_calls w).

(** A call of the store, after what others did to it. *)
Definition withStore {R} (f : Env → S → S * R) w : World S B P A * R :=
  let '(s, r) := f (env w) (others (w_calls w) (w_store w)) in
  (mkWorld s (w_bus w) (w_provider w) (w_log w) (w_processed w) (w_position w) (w_retries w)
     (Datatypes.S (w_calls w)), r).

Definition readStore {R} (f : Env → S → R) : World S B P A → World S B P A * R := withStore (λ e s, (s, f e s)).

(** ** Finding a saga *)

Definition findSagaByCorrelation (sagaType correlationID : string) w : World S B P A * res SagaState :=
  let '(w, r) :=
    match ss_FindByCorrelationIDAndType with
    | Some find => readStore (λ e, find e correlationID sagaType) w
    | None => readStore (λ e, ss_FindByCorrelationID e correlationID) w
    end in
  (w,
   match r with
   | Err err => Err err
   | Ok None => Err (SagaNotFoundError "" correlationID)
   | Ok (Some state) =>
       if negb (bool_decide (sg_Type state = sagaType))
       then Err (SagaTypeMismatchError correlationID (sg_ID state) sagaType (sg_Type state))
       else Ok state
   end).

(** The saga's id, the correlation id, and whether to attempt without one. *)
Fixpoint resolveSagaID (sagaType : string) (event : StoredEvent) (correlations : list SagaCorrelation) w
    : World S B P A * (string * string * bool) :=
  match correlations with
  | [] => (w, ("", "", false))
  | correlation :: correlations =>
      let corrID := co_CorrelationIDFunc correlation event in
      if bool_decide (corrID = "") then resolveSagaID sagaType event correlations w
      else
        match findSagaByCorrelation sagaType corrID w with
        | (w, Ok loaded) => (w, (sg_ID loaded, corrID, false))
        | (w, Err err) =>
            if errors_Is err ErrSagaTypeMismatch then (w, ("", corrID, true))
            else if isStartingEvent (co_StartingEvents correlation) (se_Type event) then (w, ("", corrID, true))
            else resolveSagaID sagaType event correlations w
        end
  end.

(** ** Saving and restoring *)

Definition captureTriggerEvent m (event : StoredEvent) (saga : G) : G :=
  if negb (m_captureLastEvent m) then saga
  else if bool_decide (se_ID event = "") && bool_decide (se_Type event = "") then saga
  else upd (setLastTriggerEvent event) saga.

Definition persistedData m (saga : G) : option (gmap string value) :=
  match lastTriggerEvent (sagaBase saga) with
  | Some ev =>
      if m_captureLastEvent m then Some (<[reservedLastEventKey := VEvent ev]> (cloneSagaData (Data saga)))
      else Data saga
  | None => Data saga
  end.

Definition saveSaga m (currentEvent : option StoredEvent) (saga : G) w : World S B P A * G * res unit :=
  let b := sagaBase saga in
  let processed := match w_processed w !! sb_id b with Some events => Some (default [] events) | None => None end in
  let processed :=
    match currentEvent with Some e => Some (default [] processed ++ [eventKey e]) | None => processed end in
  let processed := truncateProcessed processed in
  let state :=
    mkSagaState (sb_id b) (sb_sagaType b) (sb_correlationID b) (sb_status b) (sb_currentStep b)
      (persistedData m saga) processed (sb_steps b) (sb_startedAt b) (time_Now (env w) 0) (sb_completedAt b) ""
      (sb_version b) in
  match withStore (λ e, ss_Save e state) (tick w) with
  | (w, Err err) => (w, saga, Err err)
  | (w, Ok state) =>
      let saga := upd (SetVersion (sg_Version state)) saga in
      let cache := <[sb_id b := processed]> (w_processed w) in
      let cache := if SagaStatus_IsTerminal (sb_status b) then delete (sb_id b) cache else cache in
      (set_processed w cache, saga, Ok tt)
  end.

Definition hydrateSaga (state : SagaState) (saga : G) w : World S B P A * G :=
  let saga := upd (λ b, SetVersion (sg_Version state) (SetCompletedAt (sg_CompletedAt state)
    (SetStartedAt (sg_StartedAt state) (SetCorrelationID (sg_CorrelationID state)
      (SetCurrentStep (sg_CurrentStep state) (SetStatus (sg_Status state) b)))))) saga in
  let '(saga, data) :=
    match default ∅ (sg_Data state) !! reservedLastEventKey with
    | Some raw =>
        (match decodeLastEvent raw with Some ev => upd (setLastTriggerEvent ev) saga | None => saga end,
         cloneSagaDataWithout (sg_Data state) reservedLastEventKey)
    | None => (saga, sg_Data state)
    end in
  let saga := upd (SetSteps (sg_Steps state)) (SetData data saga) in
  let w :=
    if bool_decide (length (default [] (sg_ProcessedEvents state)) = 0%nat) then w
    else set_processed w (<[sb_id (sagaBase saga) := sg_ProcessedEvents state]> (w_processed w)) in
  (w, saga).

Definition eventAlreadyProcessed (saga : G) (event : StoredEvent) w : bool :=
  match w_processed w !! sb_id (sagaBase saga) with
  | None => false
  | Some events => existsb (λ pe, bool_decide (pe = eventKey event)) (default [] events)
  end.

(** ** Driving a saga *)

(** [time.After] against the context. *)
Definition waitRetry w : World S B P A * res unit :=
  (tick w, if ctx_Done (env w) 0 then Err (ctx_DoneErr (env w)) else Ok tt).

(** The retry loop of [dispatchCommand]: [fuel] attempts are left. *)
Fixpoint dispatchLoop (cmd : C) (first : bool) (fuel : nat) (lastErr : option error) w : World S B P A * res unit :=
  match fuel with
  | O => (w, Err (Wrapf "mink: command %q failed after %d attempts: %w"
                    (default (Errorf "%!w(<nil>)") lastErr)))
  | Datatypes.S fuel =>
      let '(w, waited) := if first then (w, Ok tt) else waitRetry w in
      match waited with
      | Err err => (w, Err err)
      | Ok _ =>
          let '(bus, (result, err)) := Dispatch (env w) cmd (w_bus w) in
          let w := mkWorld (w_store w) bus (w_provider w) (w_log w) (w_processed w) (w_position w) (w_retries w)
                     (Datatypes.S (w_calls w)) in
          if bool_decide (err = None) && cr_Success result then (w, Ok tt)
          else
            let lastErr :=
              match err, cr_Error result with
              | Some err, _ => err
              | None, Some err => err
              | None, None => ErrCommandUnsuccessful
              end in
            dispatchLoop cmd false fuel (Some lastErr) w
      end
  end.

Definition dispatchCommand m (cmd : C) : World S B P A → World S B P A * res unit :=
  dispatchLoop cmd true (Z.to_nat (m_retryAttempts m)) None.

(** All the compensation commands, and whether one failed. *)
Fixpoint compensateLoop m (cmds : list C) (failed : bool) w : World S B P A * bool :=
  match cmds with
  | [] => (w, failed)
  | cmd :: cmds =>
      match dispatchCommand m cmd w with
      | (w, Ok _) => compensateLoop m cmds failed w
      | (w, Err _) => compensateLoop m cmds true w
      end
  end.

Definition handleSagaFailure m (originalErr : error) (saga : G) w : World S B P A * G * res unit :=
  let saga := upd (SetStatus SagaStatusCompensating) saga in
  match Compensate (env w) (sb_currentStep (sagaBase saga)) originalErr saga with
  | (saga, Err _) => saveSaga m None (upd (SetStatus SagaStatusFailed) saga) (tick w)
  | (saga, Ok cmds) =>
      let '(w, failed) := compensateLoop m cmds false (tick w) in
      let saga := upd (SetStatus (if failed : bool then SagaStatusCompensationFailed else SagaStatusCompensated)) saga in
      let saga := upd (SetCompletedAt (Some (time_Now (env w) 0))) saga in
      saveSaga m None saga (tick w)
  end.

(** The commands in order, a step counted for each that succeeded. *)
Fixpoint dispatchLoopSteps m (cmds : list C) (saga : G) w : World S B P A * G * res unit :=
  match cmds with
  | [] => (w, saga, Ok tt)
  | cmd :: cmds =>
      match dispatchCommand m cmd w with
      | (w, Err err) => (w, saga, Err err)
      | (w, Ok _) =>
          dispatchLoopSteps m cmds (upd (λ b, SetCurrentStep (i64 (sb_currentStep b + 1)) b) saga) w
      end
  end.

Definition redrive m (event : StoredEvent) (saga : G) w : World S B P A * G * res unit :=
  let saga := upd (SetStatus SagaStatusRunning) saga in
  match HandleEvent (env w) event saga with
  | (saga, Err err) =>
      if isShutdownError err then (tick w, saga, Err err) else handleSagaFailure m err saga (tick w)
  | (saga, Ok cmds) =>
      match dispatchLoopSteps m cmds saga (tick w) with
      | (w, saga, Err err) =>
          if isShutdownError err then (w, saga, Err err) else handleSagaFailure m err saga w
      | (w, saga, Ok _) =>
          let '(w, saga) :=
            if IsComplete saga
            then (tick w, upd (SetCompletedAt (Some (time_Now (env w) 0))) (upd (SetStatus SagaStatusCompleted) saga))
            else (w, saga) in
          saveSaga m (Some event) saga w
      end
  end.

(** ** Processing an event *)

(** The saga an event is for: one that exists, or a new one. *)
Fixpoint findOrCreate m (sagaType : string) (event : StoredEvent) (factory : string → G)
    (correlations : list SagaCorrelation) w : World S B P A * res (option (G * bool)) :=
  match correlations with
  | [] => (w, Ok None)
  | correlation :: correlations =>
      let correlationID := co_CorrelationIDFunc correlation event in
      if bool_decide (correlationID = "") then findOrCreate m sagaType event factory correlations w
      else
        match findSagaByCorrelation sagaType correlationID w with
        | (w, Ok state) =>
            let '(w, saga) := hydrateSaga state (factory (sg_ID state)) w in (w, Ok (Some (saga, false)))
        | (w, Err err) =>
            if negb (errors_Is err ErrSagaNotFound) then (w, Err (Wrapf "mink: failed to find saga: %w" err))
            else if isStartingEvent (co_StartingEvents correlation) (se_Type event) then
              let id := sagaType +:+ "-" +:+ correlationID in
              let saga := factory id in
              let got := sb_sagaType (sagaBase saga) in
              if negb (bool_decide (got = sagaType))
              then (w, Err (SagaTypeMismatchError correlationID id sagaType got))
              else
                let now := time_Now (env w) 0 in
                (tick w, Ok (Some (upd (λ b, SetStartedAt now (SetStatus SagaStatusStarted
                                               (SetCorrelationID correlationID b))) saga, true)))
            else findOrCreate m sagaType event factory correlations w
        end
  end.

(** The preloaded state is always nil: every attempt loads afresh. *)
Definition attemptProcessSagaEvent m (sagaType : string) (event capture : StoredEvent)
    (correlations : list SagaCorrelation) (factory : string → G) w : World S B P A * res unit :=
  match findOrCreate m sagaType event factory correlations w with
  | (w, Err err) => (w, Err err)
  | (w, Ok None) => (w, Ok tt)
  | (w, Ok (Some (saga, isNew))) =>
      if negb isNew && SagaStatus_IsTerminal (sb_status (sagaBase saga)) then (w, Ok tt)
      else if eventAlreadyProcessed saga event w then (w, Ok tt)
      else
        let '(w, _, r) := redrive m event (captureTriggerEvent m capture saga) w in (w, r)
  end.

(** The retries on a concurrency conflict: [fuel] attempts are left. *)
Fixpoint attemptLoop m (sagaType : string) (event capture : StoredEvent) (correlations : list SagaCorrelation)
    (factory : string → G) (first : bool) (fuel : nat) (lastErr : option error) w : World S B P A * res unit :=
  match fuel with
  | O => (w, Err (Wrapf "mink: saga event processing failed after %d retries: %w"
                    (default (Errorf "%!w(<nil>)") lastErr)))
  | Datatypes.S fuel =>
      let '(w, waited) := if first then (w, Ok tt) else waitRetry w in
      match waited with
      | Err err => (w, Err err)
      | Ok _ =>
          match attemptProcessSagaEvent m sagaType event capture correlations factory w with
          | (w, Ok _) => (w, Ok tt)
          | (w, Err err) =>
              if errors_Is err ErrConcurrencyConflict
              then attemptLoop m sagaType event capture correlations factory false fuel (Some err) w
              else (w, Err err)
          end
      end
  end.

Definition processSagaEvent m (sagaType : string) (event capture : StoredEvent) w : World S B P A * res unit :=
  let correlations := default [] (m_correlations m !! sagaType) in
  match m_registry m !! sagaType with
  | None => (w, Err (Errorf "mink: saga factory not found for type %q"))
  | Some factory =>
      let '(w, (id, correlationID, isStarting)) := resolveSagaID sagaType event correlations w in
      if bool_decide (id = "") && negb isStarting then (w, Ok tt)
      else attemptLoop m sagaType event capture correlations factory true (Z.to_nat (m_retryAttempts m)) None w
  end.

Definition decryptEvent m (event : StoredEvent) w : World S B P A * res StoredEvent :=
  match m_eventStore m with
  | None => (w, Ok event)
  | Some es =>
      let '(p, r) := DecryptStoredEvent es (time_Now (env w) 0) event (w_provider w) in (set_wprovider (tick w) p, r)
  end.

(** The error of one saga type does not stop the others. *)
Definition processEvent m (event : StoredEvent) w : World S B P A * res unit :=
  match default [] (m_eventHandlers m !! se_Type event) with
  | [] => (w, Ok tt)
  | sagaTypes =>
      match decryptEvent m event w with
      | (w, Err err) => (w, Err (Wrapf "mink: decrypt event at position %d for saga delivery: %w" err))
      | (w, Ok decrypted) =>
          (foldl (λ w sagaType, (processSagaEvent m sagaType decrypted (captureCandidate event) w).1) w sagaTypes, Ok tt)
      end
  end.

(** One event of the loop of [Start]: the error is [ctx.Err()] after it. *)
Definition handleLive m (event : StoredEvent) w : World S B P A * option error :=
  let w := (processEvent m event w).1 in
  match ctx_Err (env w) with
  | Some err => (tick w, Some err)
  | None =>
      (mkWorld (w_store w) (w_bus w) (w_provider w) (w_log w) (w_processed w)
         (u64 (se_GlobalPosition event + 1)) (w_retries w) (Datatypes.S (w_calls w)), None)
  end.

Definition StartSaga m (sagaType : string) (triggerEvent : StoredEvent) w : World S B P A * res unit :=
  match m_registry m !! sagaType with
  | None => (w, Err (Errorf "mink: saga type %q not registered"))
  | Some _ =>
      match default [] (m_correlations m !! sagaType) with
      | [] => (w, Err (Errorf "mink: no correlations defined for saga type %q"))
      | correlations =>
          if existsb (λ c, isStartingEvent (co_StartingEvents c) (se_Type triggerEvent)) correlations
          then processSagaEvent m sagaType triggerEvent (captureCandidate triggerEvent) w
          else (w, Err (Errorf "mink: event type %q is not a starting event for saga %q"))
      end
  end.

(** ** The timeout sweep *)

Definition timeoutSaga m (sagaType : string) (state : SagaState) w : World S B P A :=
  match m_registry m !! sagaType with
  | None => w
  | Some factory =>
      match readStore (λ e, ss_Load e (sg_ID state)) w with
      | (w, Ok (Some fresh)) =>
          if SagaStatus_IsTerminal (sg_Status fresh) then w
          else
            let '(w, saga) := hydrateSaga fresh (factory (sg_ID fresh)) w in
            (handleSagaFailure m ErrSagaTimedOut saga w).1.1
      | (w, _) => w
      end
  end.

Definition sweepTimeouts `{MapOrder} m w : World S B P A :=
  if m_sagaTimeout m <=? 0 then w
  else
    let cutoff := i64 (time_Now (env w) 0 - m_sagaTimeout m) in
    foldl (λ w sagaType,
      match readStore (λ e, ss_FindByType e sagaType [SagaStatusRunning]) w with
      | (w, Err _) => w
      | (w, Ok states) =>
          foldl (λ w state, if After (sg_UpdatedAt state) cutoff then w else timeoutSaga m sagaType state w) w states
      end) (tick w) (range (m_registry m)).*1.

(** ** Operator retries *)

Definition loadTriggerEventRaw (loc : StoredEvent) m w : World S B P A * res (option StoredEvent) :=
  let from := if i64 (se_Version loc - 1) <? 0 then 0 else i64 (se_Version loc - 1) in
  let matches (ev : StoredEvent) :=
    ((0 <? se_Version loc) && (se_Version ev =? se_Version loc))
    || ((se_Version loc <=? 0) && negb (bool_decide (se_ID loc = "")) && bool_decide (se_ID ev = se_ID loc)) in
  (tick w,
   match (if 0 <? se_Version loc then m_streamQuery m else None) with
   | Some query =>
       events ← query (env w) (se_StreamID loc) from 1 (w_log w);
       Ok (match events with
           | ev :: _ => if se_Version ev =? se_Version loc then Some ev else None
           | [] => None
           end)
   | None =>
       events ← (if bool_decide (se_StreamID loc = "") then Err ErrEmptyStreamID
                 else el_Load (env w) (se_StreamID loc) from (w_log w));
       Ok (head (filter (λ ev, matches ev = true) events))
   end).

Definition reloadTriggerEvent m (loc : StoredEvent) w : World S B P A * res StoredEvent :=
  match m_eventStore m with
  | None => (w, Err (Errorf "mink: captured trigger event is a locator but the saga manager has no event store to reload it from"))
  | Some _ =>
      if bool_decide (se_StreamID loc = "")
      then (w, Err (Errorf "mink: captured trigger event locator has no stream id"))
      else
        match loadTriggerEventRaw loc m w with
        | (w, Err err) => (w, Err (Wrapf "mink: reload captured trigger event from stream %q: %w" err))
        | (w, Ok None) => (w, Err (Errorf "mink: captured trigger event (stream %q, version %d, id %q) not found in event store"))
        | (w, Ok (Some raw)) =>
            match matchTriggerLocator raw loc with
            | Err err => (w, Err err)
            | Ok _ => decryptEvent m raw w
            end
        end
  end.

Definition recordRetryStep (now : Time) (fromStatus : SagaStatus) (saga : G) : G :=
  upd (λ b, RecordStep (mkSagaStep ("operator re-drive (from " +:+ SagaStatus_String fromStatus +:+ ")")
    (sb_currentStep b) SagaStepCompleted "" (Some now) "") b) saga.

(** Refused with [Err] before the drive; else the saga, the status it was driven
    from and the outcome of the drive. *)
Definition driveLocked m (id : string) (accept : Time → SagaState → res unit) w
    : World S B P A * res (G * SagaStatus * res unit) :=
  match readStore (λ e, ss_Load e id) w with
  | (w, Err err) => (w, Err err)
  | (w, Ok None) => (w, Err (SagaNotFoundError id ""))
  | (w, Ok (Some state)) =>
      match accept (time_Now (env w) 0) state with
      | Err err => (tick w, Err err)
      | Ok _ =>
          let w := tick w in
          match default ∅ (sg_Data state) !! reservedLastEventKey with
          | None => (w, Err (SagaNotRetryableError id (sg_Status state) "no captured trigger event to re-drive (enable WithSagaRetryCapture, or the saga last ran before it was enabled)"))
          | Some raw =>
              match decodeLastEvent raw with
              | None => (w, Err (SagaNotRetryableError id (sg_Status state) "captured trigger event could not be decoded"))
              | Some captured =>
                  let '(w, r) := if isTriggerLocator captured then reloadTriggerEvent m captured w else decryptEvent m captured w in
                  match r with
                  | Err err =>
                      (w, Err (Wrapf (if isTriggerLocator captured then "mink: reload captured trigger event for saga %q: %w"
                                      else "mink: decrypt captured trigger event for saga %q: %w") err))
                  | Ok event =>
                      let processed := removeProcessedEventKey (sg_ProcessedEvents state) (eventKey event) in
                      let reset :=
                        mkSagaState (sg_ID state) (sg_Type state) (sg_CorrelationID state) SagaStatusRunning
                          (sg_CurrentStep state) (sg_Data state) processed (sg_Steps state) (sg_StartedAt state)
                          (sg_UpdatedAt state) None "" (sg_Version state) in
                      match m_registry m !! sg_Type state with
                      | None => (w, Err (Errorf "mink: saga factory not found for type %q"))
                      | Some factory =>
                          let '(w, saga) := hydrateSaga reset (factory (sg_ID state)) w in
                          let w := if bool_decide (length (default [] processed) = 0%nat)
                                   then set_processed w (<[id := processed]> (w_processed w)) else w in
                          let saga := recordRetryStep (time_Now (env w) 0) (sg_Status state) saga in
                          let '(w, saga, r) := redrive m event (captureTriggerEvent m captured saga) (tick w) in
                          (w, Ok (saga, sg_Status state, r))
                      end
                  end
              end
          end
      end
  end.

Definition notifyRetry m (ev : RetryEvent) w : World S B P A :=
  if m_retryObserver m then
    mkWorld (w_store w) (w_bus w) (w_provider w) (w_log w) (w_processed w) (w_position w) (w_retries w ++ [ev])
      (w_calls w)
  else w.

(** The status reached, or the error with the status. *)
Definition reDriveUnderLock m (id : string) (accept : Time → SagaState → res unit) w
    : World S B P A * SagaStatus * res unit :=
  match driveLocked m id accept w with
  | (w, Err err) => (w, SagaStatusStarted, Err err)
  | (w, Ok (saga, fromStatus, driveErr)) =>
      let b := sagaBase saga in
      let err := match driveErr with Err err => Some err | Ok _ => None end in
      (notifyRetry m (mkRetryEvent id (sb_sagaType b) fromStatus (sb_status b) (time_Now (env w) 0) err) (tick w),
       sb_status b, driveErr)
  end.

Definition notRetryable (id : string) (state : SagaState) : error :=
  SagaNotRetryableError id (sg_Status state) "status is not retryable (expected Failed, Compensated, or CompensationFailed)".

Definition acceptRetry (id : string) (now : Time) (state : SagaState) : res unit :=
  returnIf (negb (SagaStatus_IsRetryable (sg_Status state))) (notRetryable id state).

(** [retrySaga]: the pre-check outside the lock, then the drive under it. *)
Definition retrySaga m (id : string) w : World S B P A * SagaStatus * res unit :=
  match readStore (λ e, ss_Load e id) w with
  | (w, Err err) => (w, SagaStatusStarted, Err err)
  | (w, Ok None) => (w, SagaStatusStarted, Err (SagaNotFoundError id ""))
  | (w, Ok (Some pre)) =>
      if negb (SagaStatus_IsRetryable (sg_Status pre)) then (w, SagaStatusStarted, Err (notRetryable id pre))
      else reDriveUnderLock m id (acceptRetry id) w
  end.

Definition RetrySaga m (id : string) w : World S B P A * res unit :=
  let '(w, _, r) := retrySaga m id w in (w, r).

Definition acceptResume m (id : string) (now : Time) (state : SagaState) : res unit :=
  returnIf (negb (bool_decide (sg_Status state = SagaStatusRunning)))
    (SagaNotRetryableError id (sg_Status state) "only a Running saga can be resumed");;
  returnIf (m_sagaTimeout m <=? 0)
    (SagaNotRetryableError id (sg_Status state) "ResumeStalled requires a configured saga timeout (WithSagaTimeout) to judge staleness");;
  returnIf (now - sg_UpdatedAt state <? m_sagaTimeout m)
    (SagaNotRetryableError id (sg_Status state) "saga was updated more recently than the timeout; it is not stalled").

Definition ResumeStalled m (id : string) w : World S B P A * res unit :=
  match readStore (λ e, ss_Load e id) w with
  | (w, Err err) => (w, Err err)
  | (w, Ok None) => (w, Err (SagaNotFoundError id ""))
  | (w, Ok (Some pre)) =>
      if negb (bool_decide (sg_Status pre = SagaStatusRunning))
      then (w, Err (SagaNotRetryableError id (sg_Status pre) "only a Running saga can be resumed"))
      else let '(w, _, r) := reDriveUnderLock m id (acceptResume m id) w in (w, r)
  end.

Definition classifyRetry (id : string) (status : SagaStatus) (r : res unit) : SagaRetryResult :=
  match r with
  | Ok _ => mkSagaRetryResult id (if bool_decide (status = SagaStatusCompleted) then RetrySucceeded else RetryFailedAgain) None
  | Err err =>
      mkSagaRetryResult id
        (if errors_Is err ErrConcurrencyConflict then RetryConflicted
         else if errors_Is err ErrSagaNotRetryable then RetrySkipped else RetryFailedAgain) (Some err)
  end.

Definition RetrySagasByType m (sagaType : string) (statuses : list SagaStatus) w
    : World S B P A * res (list SagaRetryResult) :=
  match readStore (λ e, ss_FindByType e sagaType statuses) w with
  | (w, Err err) => (w, Err err)
  | (w, Ok found) =>
      let '(w, results) :=
        foldl (λ '(w, results) s,
          let '(w, status, r) := retrySaga m (sg_ID s) w in (w, results ++ [classifyRetry (sg_ID s) status r]))
          (w, []) found in
      (w, Ok results)
  end.
End Manager.
