(* ===== verification/SagaDrive.v ===== *)
(** * The effect of a drive

    The contract of a saga store as a class, and what the parts of a drive ([dispatchCommand], [saveSaga],
    [handleSagaFailure], [redrive] of [src/saga_manager.go]) do to the store, the
    cache, the bus and the identity of the saga, over any store that keeps its
    laws.  The theorems on sagas are built from these lemmas. *)

From S2P Require EventStore.
From S2P Require SubjectFootprint.
From S2P Require Import Prelude.
From S2P Require Import Types.
From S2P Require Import Crypto.
From S2P Require Import Command.
From S2P Require Import SagaStore.
From S2P Require Import Saga.
From S2P Require Import EventLog.
From S2P Require Import SagaManager.

(** ** The interface *)

(** A row holds what was saved, its time and version apart. *)
Definition stored_as (state row : SagaState) : Prop := ∃ t v, row = set_Version (set_UpdatedAt state t) v.

Class SagaStoreLaws (S : Type) `{SagaStoreOps S} := {
  rows : S → gmap string SagaState;
  find_scoped : Env → string → string → S → res (option SagaState);
  scoped_eq : ss_FindByCorrelationIDAndType = Some find_scoped;
  save_Ok : ∀ env state s s' state', ss_Save env state s = (s', Ok state') →
    (∃ row, rows s' = <[sg_ID state := row]> (rows s) ∧ stored_as state row) ∧
    ∀ cur, rows s !! sg_ID state = Some cur → sg_Version cur = sg_Version state;
  save_Err : ∀ env state s s' err, ss_Save env state s = (s', Err err) → s' = s;
  load_hit : ∀ env id s row, ss_Load env id s = Ok (Some row) → rows s !! id = Some row;
  find_hit : ∀ env cid t s row, find_scoped env cid t s = Ok (Some row) →
    sg_CorrelationID row = cid ∧ sg_Type row = t ∧ ∃ id, rows s !! id = Some row;
  find_miss : ∀ env cid t s, ctx_law env →
    match find_scoped env cid t s with
    | Ok None => True
    | Err err => cid ≠ "" ∧ errors_Is err ErrSagaNotFound = true
    | _ => False
    end → ∀ id row, rows s !! id = Some row → ¬ (sg_CorrelationID row = cid ∧ sg_Type row = t);
}.

(** *** The in-memory store *)

Definition found (r : res SagaState) : res (option SagaState) :=
  match r with Ok s => Ok (Some s) | Err err => Err err end.

(** The scoped lookup of the in-memory store, whatever it is asked. *)
Lemma scoped_lookup `{MapOrder} env cid t s r :
  SubjectFootprint.FindByCorrelationIDAndType env cid t s = r →
  match r with
  | Ok st => sg_CorrelationID st = cid ∧ sg_Type st = t ∧ ∃ id, sagas s !! id = Some st
  | Err err => ctx_law env → errors_Is err ErrSagaNotFound = true →
      ∀ id st, sagas s !! id = Some st → ¬ (sg_CorrelationID st = cid ∧ sg_Type st = t)
  end.
Proof.
  intros <-.
  destruct (decide (cid ≠ "" ∧ t ≠ "")) as [[Hc Ht]|Hn].
  - destruct (ctx_Err env) as [err|] eqn:Hctx.
    + unfold SubjectFootprint.FindByCorrelationIDAndType, check_ctx. rewrite !bool_decide_false, Hctx by done. cbn.
      intros Hl He. by destruct (Hl err Hctx) as [-> | ->].
    + pose proof (SubjectFootprint.FindByCorrelationIDAndType_spec env cid t s Hc Ht Hctx) as Hs.
      destruct (SubjectFootprint.FindByCorrelationIDAndType env cid t s); [done|]. by intros _ _; apply Hs.
  - assert (SubjectFootprint.FindByCorrelationIDAndType env cid t s = Err ErrEmptyStreamID) as ->; [|done].
    unfold SubjectFootprint.FindByCorrelationIDAndType.
    destruct (bool_decide_reflect (cid = "")), (bool_decide_reflect (t = "")); try done. by destruct Hn.
Qed.

#[export] Instance memorySagaStore `{MapOrder} : SagaStoreOps SagaStore := {
  ss_Save env state := Save env (Some state);
  ss_Load env id s := found (Load env id s);
  ss_FindByCorrelationID env cid s := found (FindByCorrelationID env cid s);
  ss_FindByCorrelationIDAndType :=
    Some (λ env cid t s, found (SubjectFootprint.FindByCorrelationIDAndType env cid t s));
  ss_FindByType := FindByType;
}.

#[export] Program Instance memorySagaStore_laws `{MapOrder} : SagaStoreLaws SagaStore := {
  rows := sagas;
  find_scoped := λ env cid t s, found (SubjectFootprint.FindByCorrelationIDAndType env cid t s);
}.
Next Obligation. done. Qed.
Next Obligation.
  intros ? env st s s' st' Hs. apply (Save_Ok env st) in Hs as (_ & _ & Hm & Hv). split.
  - exists (saved env st). split; [done|]. by eexists _, _.
  - intros cur Hc. rewrite Hc in Hv. done.
Qed.
Next Obligation. intros ? env st s s' err Hs. by apply (Save_Err env (Some st)) in Hs. Qed.
Next Obligation.
  intros ? env id s row. cbn. unfold Load. destruct (returnIf _ _); [cbn|done]. destruct (check_ctx env); [cbn|done].
  destruct (sagas s !! id); [|done]. cbn. rewrite copyState_id. congruence.
Qed.
Next Obligation.
  intros ? env cid t s row. cbn. destruct (SubjectFootprint.FindByCorrelationIDAndType env cid t s) as [st|err] eqn:E; cbn;
    [|done]. intros [= ->]. by apply scoped_lookup in E.
Qed.
Next Obligation.
  intros ? env cid t s Hctx. cbn. destruct (SubjectFootprint.FindByCorrelationIDAndType env cid t s) as [st|err] eqn:E; cbn;
    [done|]. intros [Hc He]. by apply (scoped_lookup env cid t s _ E).
Qed.

(** * The effect of a drive *)

(** A row that holds what the base of a saga says. *)
Definition saved_as (b : SagaBase) (row : SagaState) : Prop :=
  sg_ID row = sb_id b ∧ sg_Type row = sb_sagaType b ∧ sg_CorrelationID row = sb_correlationID b ∧
  sg_Status row = sb_status b ∧ sg_CurrentStep row = sb_currentStep b.

(** The event is done for this row: a new delivery of it must not run. *)
Definition settled_row (e : StoredEvent) (row : SagaState) : Prop :=
  SagaStatus_IsTerminal (sg_Status row) = true ∨ eventKey e ∈ default [] (sg_ProcessedEvents row).

(** It is among the last [k] events the row remembers. *)
Definition within_row (k : nat) (e : StoredEvent) (row : SagaState) : Prop :=
  SagaStatus_IsTerminal (sg_Status row) = true ∨
  ∃ l1 l2, default [] (sg_ProcessedEvents row) = l1 ++ eventKey e :: l2 ∧ (length l2 < k)%nat.

Lemma within_row_settled k e row : within_row k e row → settled_row e row.
Proof. intros [?|(l1 & l2 & E & _)]; [by left|right]. rewrite E. apply elem_of_app. right. by left. Qed.

Section Drive.
Context {S B P A G C : Type}.
Context `{SagaStoreLaws S} `{BusOps B C} `{AEAD} `{ProviderOps P} `{EventLogOps A} `{SagaLaws G C} `{EventJSON}.
Context (envs : nat → Env) (others : nat → S → S).
Implicit Types w : World S B P A.
Implicit Types m : SagaManager A G.

(** The store as others left it: no write of the manager's. *)
Definition moved : S → S → Prop := rtc (λ s s', ∃ n, s' = others n s).

(** A stretch of calls that wrote neither the store nor the bus. *)
Definition quiet w w' : Prop :=
  moved (w_store w) (w_store w') ∧ w_bus w' = w_bus w ∧ w_retries w' = w_retries w.

(** A stretch of calls of the bus alone. *)
Definition only_bus w w' : Prop :=
  w_store w' = w_store w ∧ w_processed w' = w_processed w ∧ w_retries w' = w_retries w.

#[global] Instance moved_preorder : PreOrder moved.
Proof. unfold moved. apply _. Qed.
#[global] Instance quiet_preorder : PreOrder quiet.
Proof.
  split; [by intros w; split|]. intros w1 w2 w3 (M1 & B1 & R1) (M2 & B2 & R2).
  split; [by etransitivity|]. split; congruence.
Qed.
#[global] Instance only_bus_preorder : PreOrder only_bus.
Proof. split; [by intros w|]. intros w1 w2 w3 (? & ? & ?) (? & ? & ?). split_and!; congruence. Qed.

Lemma moved_others n s : moved s (others n s).
Proof. apply rtc_once. by exists n. Qed.
Hint Resolve moved_others : core.

Lemma quiet_tick w : quiet w (tick w).
Proof. by split. Qed.
Lemma only_bus_tick w : only_bus w (tick w).
Proof. done. Qed.
Hint Resolve quiet_tick only_bus_tick : core.

Lemma readStore_quiet {R} (f : Env → S → R) w w' r :
  readStore envs others f w = (w', r) →
  quiet w w' ∧ w_processed w' = w_processed w ∧ r = f (envs (w_calls w)) (w_store w').
Proof.
  unfold readStore, withStore, env. intros [= <- <-]. split; [|done]. split; [apply moved_others|done].
Qed.

(** ** Commands *)

Lemma dispatchLoop_frame cmd first fuel lastErr w w' r :
  dispatchLoop envs cmd first fuel lastErr w = (w', r) → only_bus w w'.
Proof.
  revert first lastErr w. induction fuel as [|fuel IH]; intros first lastErr w; cbn [dispatchLoop]; [intros [= <- <-]; reflexivity|].
  assert (∀ w1 waited, (if first then (w, Ok tt) else waitRetry envs w) = (w1, waited) → only_bus w w1) as Hw.
  { intros w1 waited. unfold waitRetry. destruct first; intros [= <- <-]; done. }
  destruct (if first then _ else _) as [w1 [u|err]]; specialize (Hw _ _ eq_refl); [|by intros [= <- <-]].
  destruct (Dispatch _ _ _) as [bus [result err]]. destruct (bool_decide _ && _).
  - by intros [= <- <-].
  - intros Hr%IH. etransitivity; [exact Hw|]. by etransitivity; [|exact Hr].
Qed.

Lemma dispatchCommand_frame m cmd w w' r : dispatchCommand envs m cmd w = (w', r) → only_bus w w'.
Proof. apply dispatchLoop_frame. Qed.

Lemma compensateLoop_frame m cmds failed w w' r : compensateLoop envs m cmds failed w = (w', r) → only_bus w w'.
Proof.
  revert failed w. induction cmds as [|cmd cmds IH]; intros failed w; cbn [compensateLoop]; [by intros [= <- <-]|].
  destruct (dispatchCommand envs m cmd w) as [w1 [u|err]] eqn:E; apply dispatchCommand_frame in E;
    intros Hr%IH; by etransitivity.
Qed.

(** The steps of a drive change the saga's step only. *)
Lemma dispatchLoopSteps_frame m cmds saga w w' saga' r :
  dispatchLoopSteps envs m cmds saga w = (w', saga', r) →
  only_bus w w' ∧ identity (sagaBase saga') = identity (sagaBase saga) ∧
  sb_status (sagaBase saga') = sb_status (sagaBase saga).
Proof.
  revert saga w. induction cmds as [|cmd cmds IH]; intros saga w; cbn [dispatchLoopSteps]; [intros [= <- <- <-]; by split|].
  destruct (dispatchCommand envs m cmd w) as [w1 [u|err]] eqn:E; apply dispatchCommand_frame in E;
    [|intros [= <- <- <-]; by split].
  intros (Hb & Hi & Hs)%IH. split; [by etransitivity|]. unfold upd in *. rewrite base_with in Hi, Hs. done.
Qed.

(** ** Saving *)

Definition processedAfter (currentEvent : option StoredEvent) (before : option (option (list string))) : list string :=
  let l := default [] (default None before) ++
    match currentEvent with Some e => [eventKey e] | None => [] end in
  drop (length l - maxProcessedEventsToTrack) l.

Lemma truncate_default events :
  default [] (truncateProcessed events) = drop (length (default [] events) - maxProcessedEventsToTrack) (default [] events).
Proof.
  destruct events as [l|]; [|done]. unfold truncateProcessed. cbn [from_option id].
  destruct (Nat.ltb_spec maxProcessedEventsToTrack (length l)); [done|].
  cbn [from_option id]. by replace (length l - maxProcessedEventsToTrack)%nat with 0%nat by lia.
Qed.

(** A key that less than [maxProcessedEventsToTrack] others follow is kept. *)
Lemma processedAfter_keeps e key before l1 l2 :
  default [] (default None before) ++ [eventKey e] = l1 ++ key :: l2 → (length l2 < maxProcessedEventsToTrack)%nat →
  ∃ l1', processedAfter (Some e) before = l1' ++ key :: l2.
Proof.
  unfold processedAfter. intros -> Hl. rewrite length_app. cbn [length]. set (d := (_ - _)%nat). exists (drop d l1).
  rewrite drop_app. by replace (d - length l1)%nat with 0%nat by (unfold d; lia).
Qed.

(** The last key saved is among those kept. *)
Lemma processedAfter_last e before : ∃ l, processedAfter (Some e) before = l ++ [eventKey e].
Proof. eapply processedAfter_keeps; [done|]. unfold maxProcessedEventsToTrack. cbn. lia. Qed.

Lemma processedAfter_event e before : eventKey e ∈ processedAfter (Some e) before.
Proof. destruct (processedAfter_last e before) as [l ->]. apply elem_of_app. right. by left. Qed.

Lemma saveSaga_spec m cur saga w w' saga' r :
  saveSaga envs others m cur saga w = (w', saga', r) →
  w_bus w' = w_bus w ∧ w_retries w' = w_retries w ∧
  match r with
  | Ok _ => ∃ s row v, moved (w_store w) s ∧
      rows (w_store w') = <[sb_id (sagaBase saga) := row]> (rows s) ∧ saved_as (sagaBase saga) row ∧
      default [] (sg_ProcessedEvents row) = processedAfter cur (w_processed w !! sb_id (sagaBase saga)) ∧
      (∀ old, rows s !! sb_id (sagaBase saga) = Some old → sg_Version old = sb_version (sagaBase saga)) ∧
      sagaBase saga' = SetVersion v (sagaBase saga)
  | Err _ => moved (w_store w) (w_store w') ∧ w_processed w' = w_processed w ∧ saga' = saga
  end.
Proof.
  unfold saveSaga, withStore. cbn [w_store w_calls tick]. set (b := sagaBase saga).
  set (state := mkSagaState (sb_id b) _ _ _ _ _ _ _ _ _ _ _ _).
  destruct (ss_Save _ state _) as [s' [state'|err]] eqn:E; intros [= <- <- <-]; cbn.
  - apply save_Ok in E as [(row & Hrows & t & v & ->) Hold]. split; [done|]. split; [done|].
    eexists _, _, _. split; [apply moved_others|]. split; [exact Hrows|]. split; [done|].
    split; [|split; [exact Hold|unfold upd; by rewrite base_with]].
    cbn [sg_ProcessedEvents set_Version set_UpdatedAt state]. rewrite truncate_default. unfold processedAfter.
    destruct cur; destruct (w_processed w !! sb_id b) as [[l|]|]; cbn; rewrite ?app_nil_r; done.
  - apply save_Err in E as ->. by split_and!; try apply moved_others.
Qed.

(** ** The drive

    A drive of a saga with base [b] that reports success wrote one row, the
    saga's, over the version the saga was based on; one that reports an error
    wrote nothing and left the cache alone. *)
Definition wrote (b : SagaBase) (saga : G) (row : SagaState) w w' : Prop :=
  ∃ s, moved (w_store w) s ∧ rows (w_store w') = <[sb_id b := row]> (rows s) ∧
    sg_ID row = sb_id b ∧ sg_Type row = sb_sagaType b ∧ sg_CorrelationID row = sb_correlationID b ∧
    sg_Status row = sb_status (sagaBase saga) ∧
    (∀ old, rows s !! sb_id b = Some old → sg_Version old = sb_version b).

Definition drove (b : SagaBase) (Q : SagaState → Prop) (saga : G) (r : res unit) w w' : Prop :=
  w_retries w' = w_retries w ∧
  match r with
  | Ok _ => ∃ row, wrote b saga row w w' ∧ Q row
  | Err _ => moved (w_store w) (w_store w') ∧ w_processed w' = w_processed w
  end.

Lemma saveSaga_drove m cur b (Q : SagaState → Prop) saga w1 w w' saga' r :
  saveSaga envs others m cur saga w = (w', saga', r) → only_bus w1 w →
  identity (sagaBase saga) = identity b →
  (∀ row, saved_as (sagaBase saga) row →
     default [] (sg_ProcessedEvents row) = processedAfter cur (w_processed w !! sb_id b) → Q row) →
  drove b Q saga' r w1 w'.
Proof.
  intros Hs%saveSaga_spec (Hst & Hp & Hr) Hi HQ. injection Hi as Hid Hty Hc Hv. destruct Hs as (_ & Hr' & Hs).
  split; [congruence|]. rewrite Hst in Hs.
  destruct r; [|destruct Hs as (? & ? & _); split; congruence].
  destruct Hs as (s & row & v & Hm & Hrow & Hsv & Hpr & Hold & Hb). exists row.
  rewrite Hid in *. pose proof Hsv as (? & ? & ? & ? & ?). split; [|by apply HQ]. exists s.
  split; [done|]. split; [done|]. split_and!; [congruence..|rewrite Hb; done|]. intros old Ho. rewrite <- Hv. by apply Hold.
Qed.

Lemma handleSagaFailure_drove m err b saga w1 w w' saga' r :
  handleSagaFailure envs others m err saga w = (w', saga', r) → only_bus w1 w →
  identity (sagaBase saga) = identity b →
  drove b (λ row, SagaStatus_IsTerminal (sg_Status row) = true) saga' r w1 w'.
Proof.
  unfold handleSagaFailure. intros Hh Hw Hi. set (g := upd (SetStatus SagaStatusCompensating) saga) in Hh.
  assert (identity (sagaBase g) = identity b) as Hg by (by unfold g, upd; rewrite base_with).
  pose proof (compensate_identity (env envs w) (sb_currentStep (sagaBase g)) err g) as Hc.
  destruct (Compensate _ _ _ g) as [g' [cmds|e]]; cbn in Hc; rewrite Hg in Hc.
  - destruct (compensateLoop envs m cmds false (tick w)) as [w2 failed] eqn:El. apply compensateLoop_frame in El.
    eapply saveSaga_drove; [exact Hh|..].
    + etransitivity; [exact Hw|]. exact El.
    + unfold upd. by rewrite !base_with.
    + intros row (_ & _ & _ & Hst & _) _. unfold upd in Hst. rewrite Hst, !base_with. by destruct failed.
  - eapply saveSaga_drove; [exact Hh|done|by unfold upd; rewrite base_with|].
    intros row (_ & _ & _ & Hst & _) _. unfold upd in Hst. by rewrite Hst, base_with.
Qed.

Lemma drove_weaken b (Q Q' : SagaState → Prop) saga r w w' :
  drove b Q saga r w w' → (∀ row, Q row → Q' row) → drove b Q' saga r w w'.
Proof. intros [Hr Hd] HQ. split; [done|]. destruct r; [|done]. destruct Hd as (row & ? & ?). eauto. Qed.

(** The row of a drive that ran from the processed events [before]. *)
Definition ran_row (event : StoredEvent) (before : option (option (list string))) (row : SagaState) : Prop :=
  SagaStatus_IsTerminal (sg_Status row) = true ∨
  default [] (sg_ProcessedEvents row) = processedAfter (Some event) before.

Lemma ran_within event before row : ran_row event before row → within_row 1 event row.
Proof.
  intros [?|E]; [by left|right]. destruct (processedAfter_last event before) as [l El].
  exists l, []. rewrite E, El. split; [done|cbn; lia].
Qed.

(** Another event moves one further back. *)
Lemma ran_moves_back k e e' l row :
  ran_row e' (Some l) row → (∃ l1 l2, default [] l = l1 ++ eventKey e :: l2 ∧ (length l2 < k)%nat) →
  (k < maxProcessedEventsToTrack)%nat → within_row (Datatypes.S k) e row.
Proof.
  intros [?|E] (l1 & l2 & El & Hl) Hk; [by left|right].
  destruct (processedAfter_keeps e' (eventKey e) (Some l) l1 (l2 ++ [eventKey e'])) as [l1' E'].
  - cbn. by rewrite El, <- app_assoc.
  - rewrite length_app. cbn. lia.
  - exists l1', (l2 ++ [eventKey e']). rewrite E, E'. split; [done|]. rewrite length_app. cbn. lia.
Qed.

Lemma redrive_drove m event saga w w' saga' r :
  redrive envs others m event saga w = (w', saga', r) →
  drove (sagaBase saga) (ran_row event (w_processed w !! sb_id (sagaBase saga))) saga' r w w'.
Proof.
  unfold redrive. intros Hr. set (g := upd (SetStatus SagaStatusRunning) saga) in Hr.
  assert (identity (sagaBase g) = identity (sagaBase saga)) as Hg by (by unfold g, upd; rewrite base_with).
  pose proof (handle_identity (env envs w) event g) as Hh.
  destruct (HandleEvent _ event g) as [g1 [cmds|err]]; cbn in Hh; rewrite Hg in Hh.
  2:{ destruct (isShutdownError err); [by injection Hr as <- <- <-|].
      eapply drove_weaken; [eapply handleSagaFailure_drove; [exact Hr|done|done]|]. by left. }
  destruct (dispatchLoopSteps envs m cmds g1 (tick w)) as [[w2 g2] [u|err]] eqn:El;
    apply dispatchLoopSteps_frame in El as (Hb & Hi & _); rewrite Hh in Hi.
  2:{ destruct Hb as (Hs & Hp & Hrt).
      destruct (isShutdownError err).
      - injection Hr as <- <- <-. split; [done|]. rewrite Hs, Hp. by split.
      - eapply drove_weaken; [eapply handleSagaFailure_drove; [exact Hr| |done]|by left]. by split_and!. }
  assert (∀ w3 g3, (if IsComplete g2
            then (tick w2, upd (SetCompletedAt (Some (time_Now (env envs w2) 0))) (upd (SetStatus SagaStatusCompleted) g2))
            else (w2, g2)) = (w3, g3) → only_bus w w3 ∧ identity (sagaBase g3) = identity (sagaBase saga)) as Hf.
  { intros w3 g3. destruct (IsComplete g2); intros [= <- <-]; [|by split]. split; [by etransitivity|].
    unfold upd. by rewrite !base_with. }
  destruct (if IsComplete g2 then _ else _) as [w3 g3]. destruct (Hf _ _ eq_refl) as [Hw3 Hg3].
  eapply saveSaga_drove; [exact Hr|done|done|]. intros row _ Hpr. right. rewrite Hpr. by destruct Hw3 as (_ & -> & _).
Qed.

(** ** What a drive dispatches

    The commands dispatched one after the other, each with its outcome. *)
Fixpoint dispatches m (l : list (C * bool)) w w' : Prop :=
  match l with
  | [] => w' = w
  | (cmd, ok) :: l => ∃ w1 r, dispatchCommand envs m cmd w = (w1, r) ∧ ok = match r with Ok _ => true | Err _ => false end ∧
      dispatches m l w1 w'
  end.

Lemma dispatches_only_bus m l w w' : dispatches m l w w' → only_bus w w'.
Proof.
  revert w. induction l as [|[cmd ok] l IH]; intros w; cbn; [by intros ->|].
  intros (w1 & r & Hd%dispatchCommand_frame & _ & Hl%IH). by etransitivity.
Qed.

Lemma compensateLoop_dispatches m cmds failed w w' failed' :
  compensateLoop envs m cmds failed w = (w', failed') →
  ∃ oks, length oks = length cmds ∧ dispatches m (zip cmds oks) w w' ∧ failed' = failed || negb (forallb id oks).
Proof.
  revert failed w. induction cmds as [|cmd cmds IH]; intros failed w; cbn [compensateLoop].
  { intros [= <- <-]. exists []. by rewrite orb_false_r. }
  destruct (dispatchCommand envs m cmd w) as [w1 [u|err]] eqn:E; intros (oks & Hlen & Hd & ->)%IH.
  - exists (true :: oks). cbn. split_and!; [by rewrite Hlen| |done]. by exists w1, (Ok u).
  - exists (false :: oks). cbn. split_and!; [by rewrite Hlen| |by rewrite orb_true_r]. by exists w1, (Err err).
Qed.

(** The saga after [n] of its commands succeeded. *)
Definition advanced (g : G) (n : nat) (g' : G) : Prop :=
  g' = Nat.iter n (upd (λ b, SetCurrentStep (i64 (sb_currentStep b + 1)) b)) g.

Lemma advanced_base g n g' :
  advanced g n g' → 0 ≤ sb_currentStep (sagaBase g) → sb_currentStep (sagaBase g) + Z.of_nat n ≤ MaxInt64 →
  sb_currentStep (sagaBase g') = sb_currentStep (sagaBase g) + Z.of_nat n ∧
  sb_status (sagaBase g') = sb_status (sagaBase g) ∧ identity (sagaBase g') = identity (sagaBase g).
Proof.
  intros ->. induction n as [|n IH]; intros H0' Hb; cbn [Nat.iter nat_rect]; [split_and!; [lia|done..]|].
  destruct IH as (IH1 & IH2 & IH3); [done|lia|]. unfold upd at 1 3 5. rewrite base_with. cbn. unfold Nat.iter in IH1.
  rewrite IH1, i64_id by (unfold in_i64, MinInt64; lia). split; [lia|]. split; [exact IH2|exact IH3].
Qed.

Lemma dispatchLoopSteps_dispatches m cmds saga w w' saga' r :
  dispatchLoopSteps envs m cmds saga w = (w', saga', r) →
  match r with
  | Ok _ => dispatches m ((λ c, (c, true)) <$> cmds) w w' ∧ advanced saga (length cmds) saga'
  | Err err => ∃ k cmd wk, cmds !! k = Some cmd ∧ dispatches m ((λ c, (c, true)) <$> take k cmds) w wk ∧
      dispatchCommand envs m cmd wk = (w', Err err) ∧ advanced saga k saga'
  end.
Proof.
  revert saga w. induction cmds as [|cmd cmds IH]; intros saga w; cbn [dispatchLoopSteps]; [by intros [= <- <- <-]|].
  destruct (dispatchCommand envs m cmd w) as [w1 [u|err]] eqn:E.
  2:{ intros [= <- <- <-]. exists 0%nat, cmd, w. by split_and!. }
  intros Hl%IH. destruct r as [v|err].
  - destruct Hl as [Hd Ha]. split; [by exists w1, (Ok u)|]. unfold advanced in *. cbn [length]. by rewrite Nat.iter_succ_r.
  - destruct Hl as (k & c & wk & Hc & Hd & Hf & Ha). exists (Datatypes.S k), c, wk. split; [done|].
    split; [by exists w1, (Ok u)|]. split; [done|]. unfold advanced in *. by rewrite Nat.iter_succ_r.
Qed.

Lemma saveSaga_wrote m cur b saga w1 w w' saga' r :
  saveSaga envs others m cur saga w = (w', saga', r) → only_bus w1 w → identity (sagaBase saga) = identity b →
  w_bus w' = w_bus w ∧ ∀ u, r = Ok u → ∃ row, wrote b saga' row w1 w' ∧ saved_as (sagaBase saga) row ∧
    default [] (sg_ProcessedEvents row) = processedAfter cur (w_processed w !! sb_id b).
Proof.
  intros Hs Hw Hi. split; [by apply saveSaga_spec in Hs as (? & _)|]. intros u ->.
  eapply (saveSaga_drove m cur b (λ row, saved_as (sagaBase saga) row ∧
    default [] (sg_ProcessedEvents row) = processedAfter cur (w_processed w !! sb_id b))) in Hs as (_ & Hs); eauto.
Qed.

(** A failed saga is compensated: the commands of [Compensate] are all
    dispatched, whatever becomes of each, and the saga is stored settled. *)
Definition compensates m (b : SagaBase) (g1 : G) (err : error) w1 (saga' : G) (r : res unit) w' : Prop :=
  match (Compensate (env envs w1) (sb_currentStep (sagaBase g1)) err (upd (SetStatus SagaStatusCompensating) g1)).2 with
  | Err _ =>
      w_bus w' = w_bus w1 ∧
      ∀ u, r = Ok u → ∃ row, wrote b saga' row w1 w' ∧ sg_Status row = SagaStatusFailed
  | Ok comps => ∃ oks w2,
      length oks = length comps ∧ dispatches m (zip comps oks) (tick w1) w2 ∧ w_bus w' = w_bus w2 ∧
      ∀ u, r = Ok u → ∃ row, wrote b saga' row w2 w' ∧
        sg_Status row = if forallb id oks then SagaStatusCompensated else SagaStatusCompensationFailed
  end.

Lemma handleSagaFailure_compensates m err b g1 w1 w' saga' r :
  handleSagaFailure envs others m err g1 w1 = (w', saga', r) → identity (sagaBase g1) = identity b →
  compensates m b g1 err w1 saga' r w'.
Proof.
  unfold handleSagaFailure, compensates. intros Hh Hi. set (g := upd (SetStatus SagaStatusCompensating) g1) in *.
  assert (identity (sagaBase g) = identity b) as Hg by (by unfold g, upd; rewrite base_with).
  assert (sb_currentStep (sagaBase g) = sb_currentStep (sagaBase g1)) as Hstep by (by unfold g, upd; rewrite base_with).
  rewrite Hstep in Hh. pose proof (compensate_identity (env envs w1) (sb_currentStep (sagaBase g1)) err g) as Hc.
  destruct (Compensate _ _ _ g) as [g' [cmds|e]]; cbn [fst snd] in Hc |- *; rewrite Hg in Hc.
  - destruct (compensateLoop envs m cmds false (tick w1)) as [w2 failed] eqn:El.
    apply compensateLoop_dispatches in El as (oks & Hlen & Hd & ->). exists oks, w2. split; [done|]. split; [done|].
    eapply (saveSaga_wrote _ _ b _ w2) in Hh as [Hbus Hok]; [|done|by unfold upd; rewrite !base_with].
    split; [exact Hbus|]. intros u Hu. destruct (Hok u Hu) as (row & Hw & (_ & _ & _ & Hst & _) & _). exists row.
    split; [done|]. unfold upd in Hst. rewrite Hst, !base_with. cbn. by destruct (forallb id oks).
  - eapply (saveSaga_wrote _ _ b _ w1) in Hh as [Hbus Hok]; [|done|by unfold upd; rewrite !base_with].
    split; [exact Hbus|]. intros u Hu. destruct (Hok u Hu) as (row & Hw & (_ & _ & _ & Hst & _) & _). exists row.
    split; [done|]. unfold upd in Hst. by rewrite Hst, base_with.
Qed.

(** Where a drive fails: in [HandleEvent], or at the [k]-th command. *)
Definition fails m (handled : res (list C)) (g : G) (k : nat) (err : error) (g1 : G) w w1 : Prop :=
  match handled with
  | Err e => e = err ∧ k = 0%nat ∧ g1 = g ∧ w1 = tick w
  | Ok cmds => ∃ cmd wk, cmds !! k = Some cmd ∧ dispatches m ((λ c, (c, true)) <$> take k cmds) (tick w) wk ∧
      dispatchCommand envs m cmd wk = (w1, Err err) ∧ advanced g k g1
  end.

(** ** Restoring a saga from its row *)

Lemma hydrateSaga_base row g0 w w' saga :
  hydrateSaga row g0 w = (w', saga) →
  let b := sagaBase saga in
  sb_id b = sb_id (sagaBase g0) ∧ sb_sagaType b = sb_sagaType (sagaBase g0) ∧ sb_correlationID b = sg_CorrelationID row ∧
  sb_status b = sg_Status row ∧ sb_version b = sg_Version row ∧
  quiet w w' ∧ w_store w' = w_store w ∧
  w_processed w' =
    if bool_decide (length (default [] (sg_ProcessedEvents row)) = 0%nat) then w_processed w
    else <[sb_id (sagaBase g0) := sg_ProcessedEvents row]> (w_processed w).
Proof.
  unfold hydrateSaga. intros Hh. set (b := sagaBase g0) in *. set (g1 := upd _ g0) in Hh.
  assert (∀ g data, (match default ∅ (sg_Data row) !! reservedLastEventKey with
    | Some raw =>
        (match decodeLastEvent raw with Some ev => upd (setLastTriggerEvent ev) g1 | None => g1 end,
         cloneSagaDataWithout (sg_Data row) reservedLastEventKey)
    | None => (g1, sg_Data row)
    end) = (g, data) →
    sb_id (sagaBase g) = sb_id b ∧ sb_sagaType (sagaBase g) = sb_sagaType b ∧ sb_correlationID (sagaBase g) = sg_CorrelationID row ∧
    sb_status (sagaBase g) = sg_Status row ∧ sb_version (sagaBase g) = sg_Version row) as Hg.
  { intros g data. destruct (_ !! _) as [raw|]; [destruct (decodeLastEvent raw)|]; intros [= <- <-];
      unfold g1, upd; by rewrite ?base_with. }
  destruct (match _ !! _ with Some _ => _ | None => _ end) as [g data].
  destruct (Hg g data eq_refl) as (G1 & G2 & G3 & G4 & G5).
  set (saga1 := upd (SetSteps (sg_Steps row)) (SetData data g)) in Hh.
  assert (sagaBase saga1 = SetSteps (sg_Steps row) (sagaBase g)) as Hb.
  { unfold saga1, upd. by rewrite base_with, base_SetData. }
  rewrite Hb in Hh. cbn [sb_id SetSteps] in Hh. rewrite G1 in Hh. clear Hg g1. injection Hh as <- <-. cbv zeta.
  rewrite Hb. cbn [sb_id sb_sagaType sb_correlationID sb_status sb_version SetSteps].
  split_and!; try done; by destruct (bool_decide _).
Qed.
End Drive.

(** * Delivering an event to a saga *)

(** [fmt.Sprintf("%s-%s", sagaType, correlationID)] *)
Definition sagaID (sagaType correlationID : string) : string := sagaType +:+ "-" +:+ correlationID.

Section Routing.
Context {S : Type} `{SagaStoreLaws S}.

(** Rows are stored under their own id, the one the manager makes. *)
Definition well_keyed (s : S) : Prop :=
  ∀ id row, rows s !! id = Some row → sg_ID row = id ∧ id = sagaID (sg_Type row) (sg_CorrelationID row).

(** There is a saga of this type and correlation id. *)
Definition holds (t cid : string) (s : S) : bool :=
  match rows s !! sagaID t cid with
  | Some row => bool_decide (sg_Type row = t) && bool_decide (sg_CorrelationID row = cid)
  | None => false
  end.

(** The event is for a saga by this correlation: there is one, or it starts one. *)
Definition live (t : string) (e : StoredEvent) (s : S) (c : SagaCorrelation) : bool :=
  negb (bool_decide (co_CorrelationIDFunc c e = "")) &&
  (holds t (co_CorrelationIDFunc c e) s || isStartingEvent (co_StartingEvents c) (se_Type e)).

(** The correlation id of the saga an event is for: the first that is live. *)
Fixpoint route (t : string) (e : StoredEvent) (cs : list SagaCorrelation) (s : S) : option string :=
  match cs with
  | [] => None
  | c :: cs => if live t e s c then Some (co_CorrelationIDFunc c e) else route t e cs s
  end.

(** The saga of the event was stored as done with it. *)
Definition settled (t : string) (e : StoredEvent) (cid : string) (s : S) : Prop :=
  ∃ row, rows s !! sagaID t cid = Some row ∧ sg_Type row = t ∧ sg_CorrelationID row = cid ∧ settled_row e row.

(** It was, and at most [k - 1] other events since. *)
Definition within (t : string) (k : nat) (e : StoredEvent) (cid : string) (s : S) : Prop :=
  ∃ row, rows s !! sagaID t cid = Some row ∧ sg_Type row = t ∧ sg_CorrelationID row = cid ∧ within_row k e row.

Lemma within_settled t k e cid s : within t k e cid s → settled t e cid s.
Proof. intros (row & ? & ? & ? & ?%within_row_settled). by exists row. Qed.

Lemma within_le t k k' e cid s : (k ≤ k')%nat → within t k e cid s → within t k' e cid s.
Proof.
  intros Hk (row & Hr & Ht & Hc & Hw). exists row. split_and!; try done.
  destruct Hw as [?|(l1 & l2 & ? & ?)]; [by left|right]. exists l1, l2. split; [done|lia].
Qed.

(** Interference that goes through the manager as well: other processes keep
    rows under their ids, do not undo what is settled, and neither delete a saga
    the event is for nor create one that a non-starting event would find. *)
Record benign (t : string) (e : StoredEvent) (cs : list SagaCorrelation) (others : nat → S → S) : Prop := {
  benign_keyed n s : well_keyed s → well_keyed (others n s);
  benign_live n s c : well_keyed s → c ∈ cs → live t e (others n s) c = live t e s c;
  benign_settled n s cid : well_keyed s → settled t e cid s → settled t e cid (others n s);
}.

(** No other process stores a saga as done with the event. *)
Definition alone (t : string) (e : StoredEvent) (others : nat → S → S) : Prop :=
  ∀ n s cid, well_keyed s → settled t e cid (others n s) → settled t e cid s.

(** Other processes deliver no event to the sagas that are done with [e]. *)
Record bystanders (t : string) (e : StoredEvent) (cs : list SagaCorrelation) (others : nat → S → S) : Prop := {
  bystanders_benign e' : benign t e' cs others;
  bystanders_within k n s cid : well_keyed s → within t k e cid s → within t k e cid (others n s);
}.

Lemma moved_alone t e cs others s s' cid :
  benign t e cs others → alone t e others → moved others s s' → well_keyed s →
  settled t e cid s' → settled t e cid s.
Proof.
  intros Hb Ha. induction 1 as [s|s s1 s' [n ->] _ IH]; intros Hk Hs; [done|]. apply (Ha n); [done|].
  apply IH; [by apply (benign_keyed _ _ _ _ Hb)|done].
Qed.

Lemma moved_within t e cs others k cid s s' :
  bystanders t e cs others → moved others s s' → well_keyed s → within t k e cid s → within t k e cid s'.
Proof.
  intros Hb. induction 1 as [s|s s1 s' [n ->] _ IH]; intros Hk Hs; [done|].
  apply IH; [by apply (benign_keyed _ _ _ _ (bystanders_benign _ _ _ _ Hb e))|by apply (bystanders_within _ _ _ _ Hb)].
Qed.

Lemma sagaID_inj t x y : sagaID t x = sagaID t y → x = y.
Proof.
  unfold sagaID. intros Hx. by apply (inj _), (inj _) in Hx.
Qed.

Lemma holds_true t cid s :
  holds t cid s = true ↔ ∃ row, rows s !! sagaID t cid = Some row ∧ sg_Type row = t ∧ sg_CorrelationID row = cid.
Proof.
  unfold holds. destruct (rows s !! sagaID t cid) as [row|]; [|naive_solver].
  rewrite andb_true_iff, !bool_decide_eq_true. naive_solver.
Qed.

Lemma settled_holds t e cid s : settled t e cid s → holds t cid s = true.
Proof. intros (row & ? & ? & ? & _). apply holds_true. eauto. Qed.

Lemma route_ext t e cs s s' :
  (∀ c, c ∈ cs → live t e s' c = live t e s c) → route t e cs s' = route t e cs s.
Proof.
  induction cs as [|c cs IH]; intros Hl; cbn; [done|]. rewrite Hl by (by left).
  rewrite IH; [done|]. intros c' Hc. apply Hl. by right.
Qed.

Lemma route_nonempty t e cs s cid : route t e cs s = Some cid → cid ≠ "".
Proof.
  induction cs as [|c cs IH]; cbn; [done|]. destruct (live t e s c) eqn:El; [|done]. intros [= <-].
  unfold live in El. apply andb_prop in El as [El _]. zbool. done.
Qed.

(** Saving the saga an event is for changes the route of no event to it. *)
Lemma route_insert t e cs s s' cid row :
  rows s' = <[sagaID t cid := row]> (rows s) → sg_Type row = t → sg_CorrelationID row = cid →
  route t e cs s = Some cid → route t e cs s' = Some cid.
Proof.
  intros Hr Ht Hc. induction cs as [|c cs IH]; [done|]. intros Hs. pose proof (route_nonempty _ _ _ _ _ Hs) as Hn.
  cbn in Hs |- *. destruct (decide (co_CorrelationIDFunc c e = cid)) as [Hcid|Hcid].
  - assert (live t e s' c = true) as ->; [|by rewrite Hcid].
    assert (holds t cid s' = true) as Hh.
    { apply holds_true. exists row. by rewrite Hr, lookup_insert_eq. }
    unfold live. rewrite Hcid, Hh. by rewrite bool_decide_false.
  - assert (live t e s' c = live t e s c) as ->.
    { unfold live, holds. rewrite Hr, lookup_insert_ne; [done|]. intros Hi%sagaID_inj. by symmetry in Hi. }
    destruct (live t e s c); [done|]. by apply IH.
Qed.

Lemma well_keyed_insert s s' row :
  well_keyed s → rows s' = <[sg_ID row := row]> (rows s) → sg_ID row = sagaID (sg_Type row) (sg_CorrelationID row) →
  well_keyed s'.
Proof.
  intros Hs Hr Hid id row'. rewrite Hr. intros [[<- <-]|[_ Hl]]%lookup_insert_Some; [done|by apply Hs].
Qed.

Context (t : string) (e : StoredEvent) (cs : list SagaCorrelation) (others : nat → S → S).
Hypothesis Hb : benign t e cs others.

Lemma moved_benign s s' :
  moved others s s' → well_keyed s →
  well_keyed s' ∧ (∀ c, c ∈ cs → live t e s' c = live t e s c) ∧ (∀ cid, settled t e cid s → settled t e cid s').
Proof.
  induction 1 as [s|s s1 s' [n ->] _ IH]; intros Hk; [done|]. destruct IH as (Hk' & Hl & Hs).
  { by apply (benign_keyed _ _ _ _ Hb). }
  split; [done|]. split; [|intros cid Hc; apply Hs; by apply (benign_settled _ _ _ _ Hb)].
  intros c Hc. rewrite Hl by done. by apply (benign_live _ _ _ _ Hb).
Qed.
End Routing.

Section Delivery.
Context {S B P A G C : Type}.
Context `{SagaStoreLaws S} `{BusOps B C} `{AEAD} `{ProviderOps P} `{EventLogOps A} `{SagaLaws G C} `{EventJSON}.
Context (envs : nat → Env) (others : nat → S → S).
Context (t : string) (event : StoredEvent) (factory : string → G).
Hypothesis Henvs : ∀ n, ctx_law (envs n).
Hypothesis Hfactory : ∀ id, sb_id (sagaBase (factory id)) = id ∧ sb_sagaType (sagaBase (factory id)) = t.
Implicit Types w : World S B P A.
Implicit Types m : SagaManager A G.

(** The cache does not name the event for this saga. *)
Definition lacks (cid : string) w : Prop := eventKey event ∉ default [] (default None (w_processed w !! sagaID t cid)).

Lemma eventAlreadyProcessed_false saga cid w :
  sb_id (sagaBase saga) = sagaID t cid → eventAlreadyProcessed saga event w = false ↔ lacks cid w.
Proof.
  intros Hid. unfold eventAlreadyProcessed, lacks. rewrite Hid. destruct (w_processed w !! sagaID t cid) as [l|]; cbn.
  - rewrite <- not_true_iff_false, existsb_exists. split; intros Hn Hin; apply Hn.
    + exists (eventKey event). rewrite <- list_elem_of_In. by rewrite bool_decide_true.
    + destruct Hin as (x & Hx & Hd). zbool. subst. by rewrite list_elem_of_In.
  - split; [|done]. intros _ ?%not_elem_of_nil. done.
Qed.

Lemma findSaga_spec cid w w' r :
  findSagaByCorrelation envs others t cid w = (w', r) → well_keyed (w_store w') →
  quiet others w w' ∧ w_processed w' = w_processed w ∧
  match r with
  | Ok row => rows (w_store w') !! sagaID t cid = Some row ∧ sg_ID row = sagaID t cid ∧ sg_Type row = t ∧
      sg_CorrelationID row = cid
  | Err err => errors_Is err ErrSagaNotFound = true → cid ≠ "" → holds t cid (w_store w') = false
  end.
Proof.
  unfold findSagaByCorrelation. rewrite scoped_eq. intros Hf Hk.
  destruct (readStore _ _ _ w) as [w1 r1] eqn:E. injection Hf as <- <-.
  apply readStore_quiet in E as (Hq & Hp & Hr). split; [done|]. split; [done|].
  assert (∀ row, r1 = Ok (Some row) → rows (w_store w1) !! sagaID t cid = Some row ∧ sg_ID row = sagaID t cid ∧
    sg_Type row = t ∧ sg_CorrelationID row = cid) as Hhit.
  { intros row ->. symmetry in Hr. apply find_hit in Hr as (Hc & Ht & id & Hl). destruct (Hk _ _ Hl) as [Hi Hi'].
    rewrite Ht, Hc in Hi'. split_and!; congruence. }
  assert ((r1 = Ok None ∨ ∃ err, r1 = Err err ∧ errors_Is err ErrSagaNotFound = true) → cid ≠ "" →
    holds t cid (w_store w1) = false) as Hmiss.
  { intros Hm Hc. apply not_true_iff_false. intros (row & Hl & Ht & Hcid)%holds_true.
    apply (find_miss (envs (w_calls w)) cid t (w_store w1) (Henvs _)) in Hl; [by destruct Hl|]. rewrite <- Hr.
    by destruct Hm as [-> | (err & -> & ?)]. }
  destruct r1 as [[row|]|err]; [|by intros; apply Hmiss; [left|]|by intros; apply Hmiss; [right; eauto|]].
  destruct (Hhit row eq_refl) as (H1' & H2' & H3' & H4'). by rewrite bool_decide_true.
Qed.

(** The saga found or made for the event is the one the event is for. *)
Definition chosen (cid : string) (saga : G) (isNew : bool) w w' : Prop :=
  let b := sagaBase saga in
  sb_id b = sagaID t cid ∧ sb_sagaType b = t ∧ sb_correlationID b = cid ∧
  if isNew then holds t cid (w_store w') = false ∧ w_processed w' = w_processed w
  else ∃ row, rows (w_store w') !! sagaID t cid = Some row ∧ sg_Type row = t ∧ sg_CorrelationID row = cid ∧
    sb_status b = sg_Status row ∧ sb_version b = sg_Version row ∧
    w_processed w' !! sagaID t cid =
      if bool_decide (length (default [] (sg_ProcessedEvents row)) = 0%nat) then w_processed w !! sagaID t cid
      else Some (sg_ProcessedEvents row).

Lemma hydrate_chosen cid row w w1 w' saga :
  hydrateSaga row (factory (sg_ID row)) w1 = (w', saga) → w_processed w1 = w_processed w →
  rows (w_store w1) !! sagaID t cid = Some row → sg_ID row = sagaID t cid → sg_Type row = t → sg_CorrelationID row = cid →
  quiet others w1 w' ∧ chosen cid saga false w w'.
Proof.
  intros Hh Hp Hl Hi Ht Hc. destruct (Hfactory (sg_ID row)) as [Hfi Hft].
  apply (hydrateSaga_base others) in Hh as (G1 & G2 & G3 & G4 & G5 & Hq & Hs & Hcache).
  split; [done|]. unfold chosen. cbv zeta. split_and!; [congruence..|].
  exists row. rewrite Hs. split_and!; try done. rewrite Hcache, Hp, Hfi, Hi.
  destruct (bool_decide _); [done|]. by rewrite lookup_insert_eq.
Qed.

Context (cs : list SagaCorrelation).
Hypothesis Hb : benign t event cs others.

Lemma quiet_keyed w w' : quiet others w w' → well_keyed (w_store w) → well_keyed (w_store w').
Proof. intros (Hm & _) Hk. by apply (moved_benign t event cs others Hb) in Hm as (? & _). Qed.

Lemma moved_route l s s' : l ⊆ cs → moved others s s' → well_keyed s → route t event l s' = route t event l s.
Proof.
  intros Hl Hm Hk. apply (moved_benign t event cs others Hb) in Hm as (_ & Hlive & _); [|done].
  apply route_ext. intros c Hc. apply Hlive. by apply Hl.
Qed.

Lemma findSaga_keyed cid w w' r :
  findSagaByCorrelation envs others t cid w = (w', r) → well_keyed (w_store w) → well_keyed (w_store w').
Proof.
  unfold findSagaByCorrelation. rewrite scoped_eq. destruct (readStore _ _ _ w) as [w1 r1] eqn:E. intros [= <- <-] Hk.
  apply readStore_quiet in E as (Hq & _). by eapply quiet_keyed.
Qed.

Lemma findOrCreate_spec m l w w' r :
  findOrCreate envs others m t event factory l w = (w', r) → l ⊆ cs → well_keyed (w_store w) →
  quiet others w w' ∧
  match r with
  | Ok (Some (saga, isNew)) => ∃ cid, route t event l (w_store w') = Some cid ∧ chosen cid saga isNew w w'
  | Ok None => w_processed w' = w_processed w ∧ route t event l (w_store w') = None
  | Err _ => w_processed w' = w_processed w
  end.
Proof.
  revert w. induction l as [|c l IH]; intros w; cbn [findOrCreate route]; [by intros [= <- <-]|]. intros Hf Hl Hk.
  assert (l ⊆ cs) as Hl' by set_solver.
  destruct (bool_decide_reflect (co_CorrelationIDFunc c event = "")) as [He|Hne].
  { apply IH in Hf as (Hq & Hr); [|done..]. split; [done|].
    assert (∀ s, live t event s c = false) as Hlive by (intros s; unfold live; by rewrite bool_decide_true).
    by rewrite Hlive. }
  set (cid := co_CorrelationIDFunc c event) in *.
  destruct (findSagaByCorrelation envs others t cid w) as [w1 [row|err]] eqn:Es;
    pose proof (findSaga_keyed _ _ _ _ Es Hk) as Hk1; apply findSaga_spec in Es as (Hq1 & Hp1 & Hr1); try done.
  - destruct Hr1 as (Hrow & Hi & Ht & Hc).
    destruct (hydrateSaga row (factory (sg_ID row)) w1) as [w2 saga] eqn:Eh. injection Hf as <- <-.
    eapply (hydrate_chosen cid row w w1) in Eh as [Hq2 Hch]; [|done..]. split; [by etransitivity|].
    exists cid. split; [|done]. assert (holds t cid (w_store w2) = true) as Hh.
    { destruct Hch as (_ & _ & _ & row' & ? & ? & ? & _). apply holds_true. eauto. }
    unfold live. fold cid. by rewrite Hh, bool_decide_false.
  - destruct (errors_Is err ErrSagaNotFound) eqn:Enf; cbn [negb] in Hf; [|by injection Hf as <- <-].
    specialize (Hr1 eq_refl Hne).
    destruct (isStartingEvent (co_StartingEvents c) (se_Type event)) eqn:Est.
    + destruct (Hfactory (sagaID t cid)) as [Hfi Hft]. unfold sagaID in Hfi, Hft, Hf.
      rewrite Hft, bool_decide_true in Hf by done. cbn [negb] in Hf. injection Hf as <- <-.
      split; [etransitivity; [exact Hq1|apply quiet_tick]|]. exists cid. split.
      { unfold live. fold cid. by rewrite Est, orb_true_r, bool_decide_false. }
      unfold chosen, upd. rewrite base_with. by split_and!.
    + apply IH in Hf as (Hq & Hr); [|done..]. split; [by etransitivity|].
      assert (live t event (w_store w') c = false) as ->.
      { assert (live t event (w_store w1) c = false) as Hl1 by (unfold live; fold cid; by rewrite Hr1, Est, andb_false_r).
        rewrite <- Hl1. destruct Hq as (Hm & _). apply (moved_benign t event cs others Hb) in Hm as (_ & Hm & _); [|done].
        apply Hm. set_solver. }
      destruct r as [[[saga isNew]|]|]; [|by rewrite <- Hp1|by rewrite <- Hp1].
      destruct Hr as (cid' & Hroute & Hch). exists cid'. split; [done|]. unfold chosen in *. by rewrite <- Hp1.
Qed.

Lemma capture_identity m e saga : identity (sagaBase (captureTriggerEvent m e saga)) = identity (sagaBase saga).
Proof. unfold captureTriggerEvent. repeat case_match; try done. unfold upd. by rewrite base_with. Qed.

(** One attempt: it runs nothing, or it drives the saga the event is for. *)
Lemma attempt_spec m capture w w' r :
  attemptProcessSagaEvent envs others m t event capture cs factory w = (w', r) → well_keyed (w_store w) →
  well_keyed (w_store w') ∧
  (quiet others w w' ∧
     (∀ cid, route t event cs (w_store w') = Some cid → lacks cid w →
        match r with Ok _ => settled t event cid (w_store w') | Err _ => lacks cid w' end)
   ∨ (∃ cid, route t event cs (w_store w) = Some cid ∧ route t event cs (w_store w') = Some cid ∧
        ¬ settled t event cid (w_store w) ∧
        match r with
        | Ok _ => within t 1 event cid (w_store w')
        | Err _ => lacks cid w' ∧ moved others (w_store w) (w_store w')
        end)).
Proof.
  unfold attemptProcessSagaEvent. destruct (findOrCreate _ _ _ _ _ _ _ _) as [w1 o] eqn:Ef. intros Ha Hk.
  apply findOrCreate_spec in Ef as (Hq & Ho); [|done..]. pose proof (quiet_keyed _ _ Hq Hk) as Hk1.
  destruct o as [[[saga isNew]|]|err].
  2:{ injection Ha as <- <-. split; [done|]. left. split; [done|]. destruct Ho as [_ ->]. done. }
  2:{ injection Ha as <- <-. split; [done|]. left. split; [done|]. intros cid _. unfold lacks. by rewrite Ho. }
  destruct Ho as (cid & Hroute & Hid & Hty & Hcid & Hch).
  (* either the event is settled and not run, or it is not settled *)
  assert (settled t event cid (w_store w1) → isNew = false ∧
    (SagaStatus_IsTerminal (sb_status (sagaBase saga)) = true ∨ eventAlreadyProcessed saga event w1 = true)) as Hsettled.
  { intros Hset. destruct isNew; [destruct Hch as [Hn _]; by rewrite (settled_holds _ _ _ _ Hset) in Hn|].
    split; [done|]. destruct Hch as (row & Hrow & _ & _ & -> & _ & Hcache).
    destruct Hset as (row' & Hrow' & _ & _ & Hset). assert (row' = row) as -> by congruence.
    destruct Hset as [Hterm|Hin]; [by left|]. right.
    apply not_false_iff_true. rewrite (eventAlreadyProcessed_false _ cid) by done. unfold lacks. rewrite Hcache.
    destruct (bool_decide_reflect (length (default [] (sg_ProcessedEvents row)) = 0%nat)) as [He|_]; [|auto].
    apply nil_length_inv in He. rewrite He in Hin. by apply not_elem_of_nil in Hin. }
  assert (lacks cid w → settled t event cid (w_store w1) ∨
    (negb isNew && SagaStatus_IsTerminal (sb_status (sagaBase saga)) = false ∧ eventAlreadyProcessed saga event w1 = false)) as Hrun.
  { intros Hlk. destruct isNew; cbn [negb andb].
    - right. split; [done|]. apply (eventAlreadyProcessed_false _ cid); [done|]. unfold lacks. by destruct Hch as [_ ->].
    - destruct Hch as (row & Hrow & Ht & Hc & Hs & _ & Hcache). rewrite Hs.
      destruct (SagaStatus_IsTerminal (sg_Status row)) eqn:Eterm; [left; exists row; split_and!; try done; by left|].
      destruct (eventAlreadyProcessed saga event w1) eqn:Ep; [left|by right].
      apply not_false_iff_true in Ep. rewrite (eventAlreadyProcessed_false _ cid) in Ep by done. unfold lacks in Ep, Hlk.
      rewrite Hcache in Ep. destruct (bool_decide _); [done|]. cbn in Ep. apply dec_stable in Ep.
      exists row. split_and!; try done. by right. }
  destruct (negb isNew && SagaStatus_IsTerminal (sb_status (sagaBase saga))) eqn:E1.
  { injection Ha as <- <-. split; [done|]. left. split; [done|]. intros cid'. rewrite Hroute. intros [= <-] Hl.
    by destruct (Hrun Hl) as [|[? _]]. }
  destruct (eventAlreadyProcessed saga event w1) eqn:E2.
  { injection Ha as <- <-. split; [done|]. left. split; [done|]. intros cid'. rewrite Hroute. intros [= <-] Hl.
    by destruct (Hrun Hl) as [|[_ ?]]. }
  assert (¬ settled t event cid (w_store w)) as Hns.
  { intros Hset. destruct Hq as (Hm & _). apply (moved_benign t event cs others Hb) in Hm as (_ & _ & Hm); [|done].
    destruct (Hsettled (Hm _ Hset)) as [-> [Hx|Hx]]; [by rewrite Hx in E1|done]. }
  destruct (redrive envs others m event _ w1) as [[w2 saga2] r2] eqn:Er. injection Ha as <- <-.
  apply redrive_drove in Er as (_ & Hd). pose proof (capture_identity m capture saga) as Hi.
  unfold identity in Hi. injection Hi as Hi1 Hi2 Hi3 Hi4.
  apply (eventAlreadyProcessed_false _ cid) in E2; [|done].
  assert (route t event cs (w_store w) = Some cid) as Hroute0.
  { rewrite <- Hroute. destruct Hq as (Hm & _). symmetry. by apply moved_route. }
  destruct r2 as [u|err].
  - destruct Hd as (row & (s & Hm & Hrows & R1 & R2 & R3 & _ & _) & Hsr).
    rewrite Hi1, Hid in Hrows. rewrite Hi1, Hid in R1. rewrite Hi2, Hty in R2. rewrite Hi3, Hcid in R3.
    pose proof (moved_route cs _ _ ltac:(done) Hm Hk1) as Hrs. rewrite Hroute in Hrs.
    apply (moved_benign t event cs others Hb) in Hm as (Hks & _ & _); [|done]. split.
    + eapply (well_keyed_insert s); [done|by rewrite R1|by rewrite R1, R2, R3].
    + right. exists cid. split; [done|]. split; [by eapply route_insert|]. split; [done|].
      exists row. rewrite Hrows, lookup_insert_eq. split_and!; try done. by eapply ran_within.
  - destruct Hd as (Hm & Hp). assert (moved others (w_store w) (w_store w2)) as Hm02 by (by etransitivity; [apply Hq|]).
    pose proof (moved_route cs _ _ ltac:(done) Hm Hk1) as Hrs.
    apply (moved_benign t event cs others Hb) in Hm as (Hks & _ & _); [|done]. split; [done|].
    right. exists cid. split; [done|]. split; [congruence|]. split; [done|]. split; [|done]. unfold lacks. by rewrite Hp.
Qed.

Lemma waitRetry_frame w w' r : waitRetry envs w = (w', r) → quiet others w w' ∧ w_processed w' = w_processed w ∧ w_store w' = w_store w.
Proof. unfold waitRetry. by intros [= <- <-]. Qed.

Lemma resolve_quiet l w w' r :
  resolveSagaID envs others t event l w = (w', r) → well_keyed (w_store w) → quiet others w w'.
Proof.
  revert w. induction l as [|c l IH]; intros w; cbn [resolveSagaID]; [by intros [= <- <-]|]. intros Hf Hk.
  destruct (bool_decide _); [by apply IH in Hf|].
  destruct (findSagaByCorrelation envs others t _ w) as [w1 [row|err]] eqn:Es;
    pose proof (findSaga_keyed _ _ _ _ Es Hk) as Hk1; apply findSaga_spec in Es as (Hq1 & _); try done.
  - by injection Hf as <- <-.
  - destruct (errors_Is err ErrSagaTypeMismatch); [by injection Hf as <- <-|].
    destruct (isStartingEvent _ _); [by injection Hf as <- <-|]. apply IH in Hf; [|done]. by etransitivity.
Qed.

(** The event was handled, or nothing was run for it. *)
Definition done_or_quiet w0 w : Prop :=
  quiet others w0 w ∨ ∃ cid, route t event cs (w_store w) = Some cid ∧ settled t event cid (w_store w) ∧
    (alone t event others → within t 1 event cid (w_store w)).

(** It was run for its saga, and the saga could not be stored. *)
Definition open cid w : Prop :=
  route t event cs (w_store w) = Some cid ∧ lacks cid w ∧ (alone t event others → ¬ settled t event cid (w_store w)).

Lemma attemptLoop_spec m capture first fuel lastErr w0 w w' u :
  attemptLoop envs others m t event capture cs factory first fuel lastErr w = (w', Ok u) → well_keyed (w_store w) →
  quiet others w0 w ∨ (∃ cid, open cid w) →
  well_keyed (w_store w') ∧ done_or_quiet w0 w'.
Proof.
  revert first lastErr w. induction fuel as [|fuel IH]; intros first lastErr w; cbn [attemptLoop]; [done|]. intros Hf Hk Hinv.
  assert (∀ w1 waited, (if first then (w, Ok tt) else waitRetry envs w) = (w1, waited) →
    quiet others w w1 ∧ w_processed w1 = w_processed w ∧ w_store w1 = w_store w) as Hw.
  { intros w1 waited. destruct first; [by intros [= <- <-]|apply waitRetry_frame]. }
  destruct (if first then _ else _) as [w1 [v|err]]; specialize (Hw _ _ eq_refl) as (Hq1 & Hp1 & Hs1); [|done].
  assert (quiet others w0 w1 ∨ ∃ cid, open cid w1) as Hinv1.
  { destruct Hinv as [Hq|(cid & Hr)]; [left; by etransitivity|right]. exists cid. unfold open, lacks. by rewrite Hs1, Hp1. }
  destruct (attemptProcessSagaEvent _ _ _ _ _ _ _ _ w1) as [w2 r2] eqn:Ea.
  apply attempt_spec in Ea as (Hk2 & Ha); [|by rewrite Hs1].
  assert (match r2 with
    | Ok _ => done_or_quiet w0 w2
    | Err _ => quiet others w0 w2 ∨ ∃ cid, open cid w2 end) as Hnext.
  { assert (∀ cid, moved others (w_store w1) (w_store w2) → (alone t event others → ¬ settled t event cid (w_store w1)) →
      alone t event others → ¬ settled t event cid (w_store w2)) as Hns.
    { intros cid Hm Hn Hal Hs. apply (Hn Hal). eapply moved_alone; [exact Hb|done|done|by rewrite Hs1|done]. }
    destruct Ha as [[Hq2 Ha]|(cid & _ & Hr2 & Hn & Ha)].
    2:{ destruct r2 as [v'|err]; right; exists cid.
        - split; [done|]. split; [by eapply within_settled|done].
        - destruct Ha as [Hl Hm]. split; [done|]. split; [done|]. by apply Hns. }
    destruct Hinv1 as [Hq|(cid & Hr & Hl & Hn)]; [destruct r2; left; by etransitivity|]. pose proof Hq2 as (Hm & _).
    assert (route t event cs (w_store w2) = Some cid) as Hr2 by (by rewrite (moved_route cs (w_store w1)) by (done || by rewrite Hs1)).
    specialize (Ha cid Hr2 Hl). specialize (Hns cid Hm Hn).
    destruct r2; right; exists cid; (split; [done|]); (split; [done|]); [|done]. intros Hal. by destruct (Hns Hal). }
  destruct r2 as [|err]; [by injection Hf as <- <-|].
  destruct (errors_Is err ErrConcurrencyConflict); [|done]. by eapply IH.
Qed.

Lemma attemptLoop_settled m capture first fuel lastErr cid w w' r :
  attemptLoop envs others m t event capture cs factory first fuel lastErr w = (w', r) → well_keyed (w_store w) →
  route t event cs (w_store w) = Some cid → settled t event cid (w_store w) → quiet others w w'.
Proof.
  revert first lastErr w. induction fuel as [|fuel IH]; intros first lastErr w; cbn [attemptLoop]; [by intros [= <- <-]|].
  intros Hf Hk Hr Hs.
  assert (∀ w1 waited, (if first then (w, Ok tt) else waitRetry envs w) = (w1, waited) →
    quiet others w w1 ∧ w_store w1 = w_store w) as Hw.
  { intros w1 waited. destruct first; [by intros [= <- <-]|]. by intros (? & _ & ?)%waitRetry_frame. }
  destruct (if first then _ else _) as [w1 [v|err]]; specialize (Hw _ _ eq_refl) as (Hq1 & Hs1); [|by injection Hf as <- <-].
  destruct (attemptProcessSagaEvent _ _ _ _ _ _ _ _ w1) as [w2 r2] eqn:Ea. rewrite <- Hs1 in Hk, Hr, Hs.
  apply attempt_spec in Ea as (Hk2 & [[Hq2 _]|(cid' & Hr' & _ & Hns & _)]); [|congruence|done].
  destruct r2 as [|err]; [injection Hf as <- <-; by etransitivity|].
  destruct (errors_Is err ErrConcurrencyConflict); [|injection Hf as <- <-; by etransitivity].
  destruct Hq2 as (Hm & Hq2). pose proof (moved_route cs _ _ ltac:(done) Hm Hk) as Hr2.
  pose proof (proj2 (proj2 (moved_benign t event cs others Hb _ _ Hm Hk)) _ Hs) as Hs2.
  apply IH in Hf; [|done|congruence|done]. etransitivity; [exact Hq1|]. by etransitivity; [|exact Hf].
Qed.
(** ** Another event

    What a delivery of [event] makes of the place of an earlier event [e]. *)
Context (e : StoredEvent).
Hypothesis Hby : bystanders t e cs others.

(** A drive of the saga itself moves the earlier event one further back. *)
Lemma ran_within_saga k cid saga w w1 row :
  chosen cid saga false w w1 → within t k e cid (w_store w1) → SagaStatus_IsTerminal (sb_status (sagaBase saga)) = false →
  (k < maxProcessedEventsToTrack)%nat → ran_row event (w_processed w1 !! sagaID t cid) row → within_row (Datatypes.S k) e row.
Proof.
  intros (_ & _ & _ & row0 & Hr0 & _ & _ & Hst & _ & Hcache) (row1 & Hr1 & _ & _ & Hw) Hterm Hk Hran.
  assert (row1 = row0) as -> by congruence. destruct Hw as [Ht|(l1 & l2 & El & Hl)]; [by rewrite <- Hst, Hterm in Ht|].
  rewrite bool_decide_false in Hcache by (rewrite El, length_app; cbn; lia). rewrite Hcache in Hran.
  eapply ran_moves_back; [exact Hran| |done]. by exists l1, l2.
Qed.

Lemma attempt_within m capture k cid w w' r :
  attemptProcessSagaEvent envs others m t event capture cs factory w = (w', r) → well_keyed (w_store w) →
  within t k e cid (w_store w) → (k < maxProcessedEventsToTrack)%nat →
  within t (match r with Ok _ => Datatypes.S k | Err _ => k end) e cid (w_store w').
Proof.
  unfold attemptProcessSagaEvent. destruct (findOrCreate _ _ _ _ _ _ _ _) as [w1 o] eqn:Ef. intros Ha Hk Hw Hkm.
  apply findOrCreate_spec in Ef as (Hq & Ho); [|done..]. pose proof (quiet_keyed _ _ Hq Hk) as Hk1.
  assert (within t k e cid (w_store w1)) as Hw1 by (eapply moved_within; [exact Hby|apply Hq|done|done]).
  assert (within t (Datatypes.S k) e cid (w_store w1)) as Hw1' by (eapply within_le; [|exact Hw1]; lia).
  destruct o as [[[saga isNew]|]|err]; [|by injection Ha as <- <-..].
  destruct Ho as (cid' & _ & Hch). destruct (negb isNew && _) eqn:E1; [by injection Ha as <- <-|].
  destruct (eventAlreadyProcessed saga event w1); [by injection Ha as <- <-|].
  destruct (redrive envs others m event _ w1) as [[w2 saga2] r2] eqn:Er. injection Ha as <- <-.
  apply redrive_drove in Er as (_ & Hd). pose proof (capture_identity m capture saga) as Hi.
  unfold identity in Hi. injection Hi as Hi1 Hi2 Hi3 Hi4. pose proof Hch as (Hid & _ & _ & Hnew).
  destruct r2 as [u|err]; [|destruct Hd as (Hm & _); by eapply moved_within].
  destruct Hd as (row & (s & Hm & Hrows & R1 & R2 & R3 & _ & _) & Hran). rewrite Hi1, Hid in Hrows, Hran.
  destruct (decide (cid' = cid)) as [->|Hne].
  - destruct isNew.
    { destruct Hnew as [Hn _]. apply within_settled, settled_holds in Hw1. by rewrite Hw1 in Hn. }
    destruct Hch as (_ & Hty & Hcid & _). exists row. rewrite Hrows, lookup_insert_eq.
    split; [done|]. split; [congruence|]. split; [congruence|]. cbn [negb andb] in E1.
    by eapply (ran_within_saga k cid saga w w1).
  - assert (within t k e cid s) as Hs by (eapply moved_within; [exact Hby|exact Hm|done|done]).
    destruct Hs as (row0 & Hr0 & Hrest). assert (within t k e cid (w_store w2)) as Hw2.
    { exists row0. rewrite Hrows, lookup_insert_ne; [done|]. by intros ?%sagaID_inj. }
    eapply within_le; [|exact Hw2]. lia.
Qed.

Lemma attemptLoop_within m capture first fuel lastErr k cid w w' r :
  attemptLoop envs others m t event capture cs factory first fuel lastErr w = (w', r) → well_keyed (w_store w) →
  within t k e cid (w_store w) → (k < maxProcessedEventsToTrack)%nat →
  well_keyed (w_store w') ∧ within t (Datatypes.S k) e cid (w_store w').
Proof.
  revert first lastErr w. induction fuel as [|fuel IH]; intros first lastErr w; cbn [attemptLoop]; intros Hf Hk Hw Hkm.
  { injection Hf as <- <-. split; [done|]. eapply within_le; [|exact Hw]. lia. }
  assert (∀ w1 waited, (if first then (w, Ok tt) else waitRetry envs w) = (w1, waited) → w_store w1 = w_store w) as Hs.
  { intros w1 waited. destruct first; [by intros [= <- <-]|]. by intros (_ & _ & ?)%waitRetry_frame. }
  destruct (if first then _ else _) as [w1 [v|err]]; specialize (Hs _ _ eq_refl); rewrite <- Hs in Hk, Hw.
  2:{ injection Hf as <- <-. split; [done|]. eapply within_le; [|exact Hw]. lia. }
  destruct (attemptProcessSagaEvent _ _ _ _ _ _ _ _ w1) as [w2 r2] eqn:Ea.
  pose proof (proj1 (attempt_spec _ _ _ _ _ Ea Hk)) as Hk2. eapply attempt_within in Ea; [|done..].
  destruct r2 as [|err]; [by injection Hf as <- <-|].
  destruct (errors_Is err ErrConcurrencyConflict); [by eapply IH|].
  injection Hf as <- <-. split; [done|]. eapply within_le; [|exact Ea]. lia.
Qed.
End Delivery.
