(* ===== verification/SagaTheorems.v ===== *)
(** * The saga manager's guarantees

    Redelivery is harmless, the outcome of a drive, and operator retries, for
    [src/saga_manager.go]; with the instances on the in-memory store. *)

From S2P Require Import Prelude.
From S2P Require Import Types.
From S2P Require Import Crypto.
From S2P Require Import LocalProvider.
From S2P Require Import MemoryAdapter.
From S2P Require Import Command.
From S2P Require Import SagaStore.
From S2P Require Import Saga.
From S2P Require Import EventLog.
From S2P Require Import SagaManager.
From S2P Require Import SagaDrive.

Record OrderSaga := mkOrderSaga { os_base : SagaBase; os_paid : bool }.

(** An order reserves stock and is shipped when paid; a declined payment fails
    after the card was charged. *)
#[export] Instance orderSaga : SagaOps OrderSaga string := {
  sagaBase := os_base;
  withBase b g := mkOrderSaga b (os_paid g);
  HandledEvents _ := ["OrderPlaced"; "OrderPaid"; "OrderDeclined"];
  HandleEvent _ e g :=
    if bool_decide (se_Type e = "OrderPlaced") then (g, Ok ["reserve"])
    else if bool_decide (se_Type e = "OrderPaid") then (mkOrderSaga (os_base g) true, Ok ["ship"; "invoice"])
    else (g, Ok ["notify"; "charge"; "ship"]);
  Compensate _ step _ g := (g, Ok (if 0 <? step then ["release"] else []));
  IsComplete := os_paid;
  Data g := Some {[ "paid" := VAtom (if os_paid g then "true" else "false") ]};
  SetData d g :=
    mkOrderSaga (os_base g)
      match default ∅ d !! "paid" with Some (VAtom repr) => bool_decide (repr = "true") | _ => false end;
}.

#[export] Instance orderSaga_laws : SagaLaws OrderSaga string.
Proof.
  split; try done. intros env e g. unfold HandleEvent, orderSaga. cbn. by repeat case_match.
Qed.

#[export] Instance logBus : BusOps (list string) string := {
  Dispatch _ cmd bus :=
    (bus ++ [cmd], if bool_decide (cmd = "charge") then (NewErrorResult (Errorf "declined"), None) else (NewSuccessResult "" 0, None));
  CommandType cmd := cmd;
}.

#[export] Instance noJSON : EventJSON := λ _, None.

#[export] Existing Instance toyAEAD.
#[export] Existing Instance listOrder.
#[export] Instance sampleLogOps : EventLogOps MemoryAdapter := memory_log_ops (λ _ _, 0%nat).

Definition orderFactory (id : string) : OrderSaga := mkOrderSaga (NewSagaBase 0 id "Order") false.

(** Three attempts by default; the payment events carry the order's id as their
    correlation id. *)
Definition orderManager : SagaManager MemoryAdapter OrderSaga :=
  Register "Order" orderFactory (mkSagaCorrelation "Order" ["OrderPlaced"] se_StreamID)
    (WithSagaRetryCapture (WithSagaRetryObserver (NewSagaManager None None))).

Definition orderEvent (id type : string) (pos : Z) : StoredEvent :=
  mkStoredEvent id "order-7" type None emptyMetadata pos pos 0.

Definition orderWorld : World SagaStore (list string) Provider MemoryAdapter :=
  mkWorld NewSagaStore [] New NewAdapter ∅ 0 [] 0.

Definition calm (n : nat) : Env := sampleEnv.
Definition nobody (n : nat) (s : SagaStore) : SagaStore := s.

(** An event delivered to the order saga. *)
Definition deliver (e : StoredEvent) (w : World SagaStore (list string) Provider MemoryAdapter) :=
  processSagaEvent calm nobody orderManager "Order" e e w.

Definition placed : World SagaStore (list string) Provider MemoryAdapter :=
  (deliver (orderEvent "e1" "OrderPlaced" 1) orderWorld).1.
Definition declined : World SagaStore (list string) Provider MemoryAdapter :=
  (deliver (orderEvent "e2" "OrderDeclined" 2) placed).1.

Lemma pair_with_snd {X Y} (p : X * Y) y : p.2 = y → p = (p.1, y).
Proof. by destruct p as [? ?]; cbn; intros ->. Qed.

Lemma order_registry t factory :
  m_registry orderManager !! t = Some factory → t = "Order" ∧ factory = orderFactory.
Proof.
  change (<["Order" := orderFactory]> (∅ : gmap string (string → OrderSaga)) !! t = Some factory → t = "Order" ∧ factory = orderFactory).
  intros [[<- <-]|[_ Hf]]%lookup_insert_Some; [done|]. by rewrite lookup_empty in Hf.
Qed.

(** * Operator retries *)

Section Retry.
Context {S B P A G C : Type}.
Context `{SagaStoreLaws S} `{BusOps B C} `{AEAD} `{ProviderOps P} `{EventLogOps A} `{SagaLaws G C} `{EventJSON}.
Context (envs : nat → Env) (others : nat → S → S).
Implicit Types w : World S B P A.
Implicit Types m : SagaManager A G.

(** Every factory makes sagas of its type with the id it is given. *)
Definition lawful m : Prop :=
  ∀ t factory id, m_registry m !! t = Some factory →
    sb_id (sagaBase (factory id)) = id ∧ sb_sagaType (sagaBase (factory id)) = t.

(** The captured event of a row. *)
Definition captured (row : SagaState) : option StoredEvent :=
  raw ← default ∅ (sg_Data row) !! reservedLastEventKey; decodeLastEvent raw.

(** A re-drive of the saga [id] from a row with [Q], reported to the observer. *)
Definition redriven m (id : string) (Q : SagaState → Prop) w (r : res unit) w' : Prop :=
  ∃ s row ev, moved others (w_store w) s ∧ rows s !! id = Some row ∧ Q row ∧ is_Some (captured row) ∧
    re_SagaID ev = id ∧ re_FromStatus ev = sg_Status row ∧
    re_Err ev = match r with Ok _ => None | Err err => Some err end ∧
    w_retries w' = w_retries w ++ (if m_retryObserver m then [ev] else []) ∧
    match r with
    | Ok _ => ∃ s' row', moved others s s' ∧ rows (w_store w') = <[id := row']> (rows s') ∧
        (∀ old, rows s' !! id = Some old → sg_Version old = sg_Version row) ∧
        sg_ID row' = id ∧ sg_Type row' = sg_Type row ∧ sg_CorrelationID row' = sg_CorrelationID row ∧
        sg_Status row' = re_ResultStatus ev
    | Err _ => moved others s (w_store w')
    end.

Lemma decryptEvent_quiet m e w w' r : decryptEvent envs m e w = (w', r) → quiet others w w' ∧ w_store w' = w_store w.
Proof.
  unfold decryptEvent. destruct (m_eventStore m); [|by intros [= <- <-]].
  destruct (EventStore.DecryptStoredEvent _ _ _ _). by intros [= <- <-].
Qed.

Lemma reload_quiet m loc w w' r :
  reloadTriggerEvent envs m loc w = (w', r) → quiet others w w' ∧ w_store w' = w_store w.
Proof.
  unfold reloadTriggerEvent. destruct (m_eventStore m); [|by intros [= <- <-]].
  destruct (bool_decide _); [by intros [= <- <-]|].
  destruct (loadTriggerEventRaw _ _ _ _) as [w1 o] eqn:E. assert (w1 = tick w) as ->.
  { unfold loadTriggerEventRaw in E. by injection E. }
  destruct o as [[raw|]|]; [|by intros [= <- <-]..]. destruct (matchTriggerLocator raw loc); [|by intros [= <- <-]].
  intros Hd%decryptEvent_quiet. exact Hd.
Qed.

Hypothesis Hkeyed : ∀ n s, well_keyed s → well_keyed (others n s).

Lemma moved_keyed s s' : moved others s s' → well_keyed s → well_keyed s'.
Proof. induction 1 as [s|s s1 s' [n ->] _ IH]; auto. Qed.

Lemma driveLocked_spec m id accept w w' o :
  lawful m → well_keyed (w_store w) → driveLocked envs others m id accept w = (w', o) →
  match o with
  | Err _ => quiet others w w'
  | Ok (saga, fromStatus, r) => ∃ s row n, moved others (w_store w) s ∧ rows s !! id = Some row ∧
      accept (time_Now (envs n) 0) row = Ok tt ∧ is_Some (captured row) ∧ fromStatus = sg_Status row ∧
      w_retries w' = w_retries w ∧
      match r with
      | Ok _ => ∃ s' row', moved others s s' ∧ rows (w_store w') = <[id := row']> (rows s') ∧
          (∀ old, rows s' !! id = Some old → sg_Version old = sg_Version row) ∧
          sg_ID row' = id ∧ sg_Type row' = sg_Type row ∧ sg_CorrelationID row' = sg_CorrelationID row ∧
          sg_Status row' = sb_status (sagaBase saga)
      | Err _ => moved others s (w_store w')
      end
  end.
Proof.
  intros Hlaw Hk. unfold driveLocked. destruct (readStore _ _ _ w) as [w1 l] eqn:El.
  apply readStore_quiet in El as (Hq1 & Hp1 & Hl).
  destruct l as [[row|]|err]; [|by intros [= <- <-]..]. symmetry in Hl. apply load_hit in Hl.
  pose proof (moved_keyed _ _ (proj1 Hq1) Hk) as Hk1. destruct (Hk1 _ _ Hl) as [Hid _].
  destruct (accept _ row) as [[]|err] eqn:Ea; [|intros [= <- <-]; etransitivity; [exact Hq1|apply quiet_tick]].
  assert (quiet others w (tick w1)) as Hqt by (etransitivity; [exact Hq1|apply quiet_tick]).
  destruct (_ !! reservedLastEventKey) as [raw|] eqn:Eraw; [|by intros [= <- <-]].
  destruct (decodeLastEvent raw) as [cap|] eqn:Ecap; [|by intros [= <- <-]].
  destruct (if isTriggerLocator cap then _ else _) as [w2 l2] eqn:E2.
  assert (quiet others (tick w1) w2 ∧ w_store w2 = w_store w1) as [Hq2 Hs2].
  { destruct (isTriggerLocator cap); [by apply reload_quiet in E2|by apply decryptEvent_quiet in E2]. }
  assert (quiet others w w2) as Hq by (by etransitivity).
  destruct l2 as [event|err]; [|by intros [= <- <-]].
  destruct (m_registry m !! sg_Type row) as [factory|] eqn:Ef; [|by intros [= <- <-]].
  destruct (Hlaw _ _ (sg_ID row) Ef) as [Hfi Hft].
  set (reset := mkSagaState _ _ _ _ _ _ _ _ _ _ _ _ _).
  destruct (hydrateSaga reset _ w2) as [w3 saga] eqn:Eh.
  apply (hydrateSaga_base others) in Eh as (G1 & G2 & G3 & G4 & G5 & Hq3 & Hs3 & _). cbn [sg_CorrelationID sg_Status sg_Version reset] in *.
  set (w4 := if bool_decide _ then _ else w3).
  assert (w_store w4 = w_store w1 ∧ w_retries w4 = w_retries w) as [Hs4 Hr4].
  { destruct Hq as (_ & _ & Hrt), Hq3 as (_ & _ & Hrt3). unfold w4. destruct (bool_decide _); cbn; split; congruence. }
  set (saga1 := captureTriggerEvent m cap _).
  assert (identity (sagaBase saga1) = (id, sg_Type row, sg_CorrelationID row, sg_Version row)) as Hi.
  { unfold saga1. rewrite capture_identity. unfold recordRetryStep, upd. rewrite base_with. unfold identity. cbn.
    rewrite Hid in *. congruence. }
  destruct (redrive _ _ m event saga1 _) as [[w5 saga2] r] eqn:Er. intros [= <- <-].
  apply redrive_drove in Er as (Hr5 & Hd). exists (w_store w1), row, (w_calls w1).
  unfold identity in Hi. injection Hi as I1 I2 I3 I4.
  split; [by destruct Hq1|]. split; [done|]. split; [done|].
  split; [unfold captured; rewrite Eraw; by exists cap|]. split; [done|]. split; [rewrite Hr5; exact Hr4|].
  assert (w_store (tick w4) = w_store w1) as Hs4' by done.
  destruct r as [u|err]; [|destruct Hd as [Hd _]; by rewrite Hs4' in Hd].
  destruct Hd as (row' & (s' & Hm & Hrows & R1 & R2 & R3 & R4 & R5) & _). exists s', row'.
  rewrite Hs4' in Hm. rewrite I1 in Hrows, R1, R5. split; [done|]. split; [done|].
  split; [intros old Ho; rewrite <- I4; auto|]. split_and!; congruence.
Qed.

Lemma reDrive_spec m id accept w w' st r :
  lawful m → well_keyed (w_store w) → reDriveUnderLock envs others m id accept w = (w', st, r) →
  (quiet others w w' ∧ ∃ err, r = Err err) ∨
  redriven m id (λ row, ∃ n, accept (time_Now (envs n) 0) row = Ok tt) w r w'.
Proof.
  intros Hlaw Hk. unfold reDriveUnderLock. destruct (driveLocked _ _ m id accept w) as [w1 o] eqn:Ed.
  apply driveLocked_spec in Ed; [|done..]. destruct o as [[[saga from] r1]|err]; [|intros [= <- <- <-]; left; eauto].
  destruct Ed as (s & row & n & Hm & Hrow & Ha & Hc & -> & Hr & Hd). intros [= <- <- <-]. right.
  set (ev := mkRetryEvent _ _ _ _ _ _). exists s, row, ev. split; [done|]. split; [done|]. split; [by exists n|].
  split; [done|]. split; [done|]. split; [done|]. split; [by destruct r1|]. split.
  { unfold notifyRetry. destruct (m_retryObserver m); cbn; rewrite Hr; [done|by rewrite app_nil_r]. }
  unfold notifyRetry. by destruct (m_retryObserver m), r1.
Qed.

Lemma redriven_after m id Q w w1 r w' :
  quiet others w w1 → redriven m id Q w1 r w' → redriven m id Q w r w'.
Proof.
  intros (Hm & _ & Hr) (s & row & ev & Hm' & Hrest). exists s, row, ev. rewrite Hr in Hrest.
  split; [by etransitivity|done].
Qed.

(** C40: an operator's [RetrySaga] or [ResumeStalled] either is refused with an
    error, dispatching and writing nothing and reporting nothing to the
    observer, or re-drives the saga from a row in an accepted status (for
    [RetrySaga] failed, compensated or compensation-failed; for [ResumeStalled]
    running and not updated for the configured timeout) with a captured event.
    A re-drive is reported to the observer once, with the status it started
    from and its error; if it succeeds, one row was written for the saga, over
    the version it was loaded at, in the status reported; if it fails, the store
    was not written, so that it can be issued again. *)
Theorem operator_redrive m id w w' r :
  lawful m → well_keyed (w_store w) →
  let refused := quiet others w w' ∧ ∃ err, r = Err err in
  (RetrySaga envs others m id w = (w', r) →
     refused ∨ redriven m id (λ row, SagaStatus_IsRetryable (sg_Status row) = true) w r w') ∧
  (ResumeStalled envs others m id w = (w', r) →
     refused ∨ redriven m id (λ row, sg_Status row = SagaStatusRunning ∧ 0 < m_sagaTimeout m ∧
       ∃ n, m_sagaTimeout m ≤ time_Now (envs n) 0 - sg_UpdatedAt row) w r w').
Proof.
  intros Hlaw Hk refused.
  assert (∀ w1 (l : res (option SagaState)) accept (Q : SagaState → Prop) st,
    readStore envs others (λ e, ss_Load e id) w = (w1, l) → reDriveUnderLock envs others m id accept w1 = (w', st, r) →
    (∀ n row, accept (time_Now (envs n) 0) row = Ok tt → Q row) → refused ∨ redriven m id Q w r w') as Hdrive.
  { intros w1 l accept Q st (Hq & _)%readStore_quiet Hd HQ.
    apply reDrive_spec in Hd as [[Hq' He]|Hd]; [left; split; [by etransitivity|done]| |done|by eapply moved_keyed; [apply Hq|]].
    right. eapply redriven_after; [exact Hq|]. destruct Hd as (s & row & ev & ? & ? & [n Ha] & Hrest).
    exists s, row, ev. split; [done|]. split; [done|]. split; [by eapply HQ|done]. }
  assert (∀ w1 l err, readStore envs others (λ e, ss_Load e id) w = (w1, l) → (w1, Err err) = (w', r) → refused) as Hrefuse.
  { intros w1 l err (Hq & _)%readStore_quiet [= <- <-]. split; [done|by exists err]. }
  split.
  - unfold RetrySaga, retrySaga. destruct (readStore _ _ _ w) as [w1 l] eqn:El. destruct l as [[pre|]|err].
    2-3: intros Hr; left; by eapply Hrefuse; [reflexivity|exact Hr]. destruct (negb _); [intros Hr; left; by eapply Hrefuse; [reflexivity|exact Hr]|].
    destruct (reDriveUnderLock _ _ m id _ w1) as [[w2 st] r2] eqn:Ed. intros [= <- <-].
    eapply Hdrive; [reflexivity|exact Ed|]. intros n row Ha. unfold acceptRetry in Ha. apply returnIf_Ok in Ha.
    by apply negb_false_iff in Ha.
  - unfold ResumeStalled. destruct (readStore _ _ _ w) as [w1 l] eqn:El. destruct l as [[pre|]|err].
    2-3: intros Hr; left; by eapply Hrefuse; [reflexivity|exact Hr]. destruct (negb _); [intros Hr; left; by eapply Hrefuse; [reflexivity|exact Hr]|].
    destruct (reDriveUnderLock _ _ m id _ w1) as [[w2 st] r2] eqn:Ed. intros [= <- <-].
    eapply Hdrive; [reflexivity|exact Ed|]. intros n row Ha. unfold acceptResume in Ha.
    destruct (returnIf (negb _) _) as [[]|] eqn:E1; [|done]. destruct (returnIf (m_sagaTimeout m <=? 0) _) as [[]|] eqn:E2; [|done].
    apply returnIf_Ok in E1, E2, Ha. zbool. split; [done|]. split; [lia|]. exists n. lia.
Qed.
End Retry.

(** ** The concrete instance *)

Lemma order_lawful : lawful orderManager.
Proof. intros t factory id [-> ->]%order_registry. by split. Qed.

Lemma declined_keyed : well_keyed (w_store declined).
Proof. apply map_Forall_to_list. vm_compute. repeat constructor. Qed.

Lemma declined_retried :
  ∃ w' ev, RetrySaga calm nobody orderManager "Order-order-7" declined = (w', Ok tt) ∧
    w_retries w' = [ev] ∧ re_FromStatus ev = SagaStatusCompensated ∧ w_retries declined = [].
Proof.
  exists (RetrySaga calm nobody orderManager "Order-order-7" declined).1. eexists.
  split; [apply pair_with_snd; by vm_compute|split; [by vm_compute|split; by vm_compute]].
Qed.

Lemma operator_redrive_witness :
  ∃ w' ev, RetrySaga calm nobody orderManager "Order-order-7" declined = (w', Ok tt) ∧
    w_retries w' = [ev] ∧ re_FromStatus ev = SagaStatusCompensated ∧ re_SagaID ev = "Order-order-7".
Proof.
  destruct declined_retried as (w' & ev & E & Hev & Hfrom & Hr0).
  destruct (proj1 (operator_redrive calm nobody (λ _ _ Hs, Hs) orderManager "Order-order-7" declined w' (Ok tt)
    order_lawful declined_keyed) E) as [[_ [err He]]|(s & row & ev' & _ & _ & _ & _ & Hid & _ & _ & Hrep & _)];
    [discriminate He|].
  exists w', ev. split; [exact E|]. split; [exact Hev|]. split; [exact Hfrom|].
  rewrite Hev, Hr0 in Hrep. change (m_retryObserver orderManager) with true in Hrep. injection Hrep as ->. exact Hid.
Defined.

(** * The saga manager's guarantees *)

Section Guarantees.
Context {S B P A G C : Type}.
Context `{SagaStoreLaws S} `{BusOps B C} `{AEAD} `{ProviderOps P} `{EventLogOps A} `{SagaLaws G C} `{EventJSON}.
Context (envs : nat → Env) (others : nat → S → S).
Implicit Types w : World S B P A.
Implicit Types m : SagaManager A G.

(** A registered type: its factory makes sagas of that type with the given id. *)
Definition registered m (t : string) (factory : string → G) : Prop :=
  m_registry m !! t = Some factory ∧
  ∀ id, sb_id (sagaBase (factory id)) = id ∧ sb_sagaType (sagaBase (factory id)) = t.

Definition correlationsOf m (t : string) : list SagaCorrelation := default [] (m_correlations m !! t).

(** [n] deliveries of events to the sagas of type [t], one after the other, by
    any processes: whatever caches they have, and with the interference of others
    between them. *)
Inductive deliveries m (t : string) : nat → World S B P A → World S B P A → Prop :=
| deliveries_none w w' : moved others (w_store w) (w_store w') → deliveries m t 0 w w'
| deliveries_next n w w1 e capture w2 r w' :
    moved others (w_store w) (w_store w1) → processSagaEvent envs others m t e capture w1 = (w2, r) →
    deliveries m t n w2 w' → deliveries m t (Datatypes.S n) w w'.

Lemma processSagaEvent_within m t factory e0 event capture k cid w w' r :
  registered m t factory → (∀ n, ctx_law (envs n)) → bystanders t e0 (correlationsOf m t) others →
  well_keyed (w_store w) → within t k e0 cid (w_store w) → (k < maxProcessedEventsToTrack)%nat →
  processSagaEvent envs others m t event capture w = (w', r) →
  well_keyed (w_store w') ∧ within t (Datatypes.S k) e0 cid (w_store w').
Proof.
  intros [Hreg Hf] Hctx Hby Hk Hw Hkm. unfold processSagaEvent. rewrite Hreg. fold (correlationsOf m t).
  pose proof (bystanders_benign _ _ _ _ Hby event) as Hb.
  destruct (resolveSagaID envs others t event (correlationsOf m t) w) as [w1 [[id corr] starting]] eqn:Er.
  eapply resolve_quiet in Er; [|done..]. pose proof (quiet_keyed _ _ _ _ Hb _ _ Er Hk) as Hk1.
  assert (within t k e0 cid (w_store w1)) as Hw1 by (eapply moved_within; [exact Hby|apply Er|done|done]).
  destruct (bool_decide _ && _).
  - intros [= <- <-]. split; [done|]. eapply within_le; [|exact Hw1]. lia.
  - intros Hl. by eapply (attemptLoop_within envs others t event factory Hctx Hf _ Hb e0 Hby) in Hl.
Qed.

Lemma deliveries_within m t factory e0 k cid n w w' :
  registered m t factory → (∀ n, ctx_law (envs n)) → bystanders t e0 (correlationsOf m t) others →
  deliveries m t n w w' → well_keyed (w_store w) → within t k e0 cid (w_store w) →
  (k + n ≤ maxProcessedEventsToTrack)%nat → well_keyed (w_store w') ∧ within t (k + n) e0 cid (w_store w').
Proof.
  intros Hreg Hctx Hby Hd. pose proof (bystanders_benign _ _ _ _ Hby e0) as Hb. revert k.
  induction Hd as [w w' Hm|n w w1 e capture w2 r w' Hm Hp _ IH]; intros k Hk Hw Hkn.
  - rewrite Nat.add_0_r. split; [by eapply (moved_benign t e0)|by eapply moved_within].
  - apply (moved_benign t e0 _ _ Hb) in Hm as Hk1; [|done]. destruct Hk1 as [Hk1 _].
    assert (within t k e0 cid (w_store w1)) as Hw1 by by eapply moved_within.
    eapply processSagaEvent_within in Hp as [Hk2 Hw2]; [|done..|lia].
    replace (k + Datatypes.S n)%nat with (Datatypes.S k + n)%nat by lia. apply IH; [done|done|lia].
Qed.

(** C38: once [processSagaEvent] has reported success for an event, either
    nothing was dispatched or stored for it, or the saga it is for is stored as
    done with it (settled, or with the event among its processed events, of which
    it is the last unless another process stored it); and an event its saga is
    done with, delivered again, to any process (with any cache, after any
    restart), dispatches no command and writes nothing.  This holds under retries
    on conflicts and under any benign interference of other processes between any
    two calls of the store.  The manager remembers the last 100 events of a saga:
    an event with less than [k] others after it still dispatches nothing and
    writes nothing when it is delivered again after [n] further deliveries of any
    events of that saga type, as long as [k + n ≤ 100] and it is still for that
    saga, if other processes deliver none to it. *)
Theorem saga_redelivery_harmless m (t : string) (factory : string → G) (event capture : StoredEvent) w w' :
  registered m t factory → (∀ n, ctx_law (envs n)) → benign t event (correlationsOf m t) others →
  well_keyed (w_store w) → processSagaEvent envs others m t event capture w = (w', Ok tt) →
  let done (s : S) := ∃ cid, route t event (correlationsOf m t) s = Some cid ∧ settled t event cid s in
  well_keyed (w_store w') ∧ (quiet others w w' ∨ done (w_store w')) ∧
  (alone t event others → quiet others w w' ∨
     ∃ cid, route t event (correlationsOf m t) (w_store w') = Some cid ∧ within t 1 event cid (w_store w')) ∧
  (bystanders t event (correlationsOf m t) others →
     ∀ cid k n w1 w2 w3 capture' r, well_keyed (w_store w1) → within t k event cid (w_store w1) →
     deliveries m t n w1 w2 → (k + n ≤ 100)%nat → route t event (correlationsOf m t) (w_store w2) = Some cid →
     processSagaEvent envs others m t event capture' w2 = (w3, r) → quiet others w2 w3) ∧
  (∀ w2 w3 capture' r, well_keyed (w_store w2) → done (w_store w2) →
     processSagaEvent envs others m t event capture' w2 = (w3, r) → quiet others w2 w3).
Proof.
  intros Hregd Hctx Hb Hk Hp done. pose proof Hregd as [Hreg Hf].
  assert (∀ w2 w3 capture' r, well_keyed (w_store w2) → done (w_store w2) →
    processSagaEvent envs others m t event capture' w2 = (w3, r) → quiet others w2 w3) as Hagain.
  { intros w2 w3 capture' r Hk2 (cid & Hr & Hs). unfold processSagaEvent. rewrite Hreg. fold (correlationsOf m t).
      destruct (resolveSagaID envs others t event (correlationsOf m t) w2) as [w4 [[id corr] starting]] eqn:Er.
      eapply resolve_quiet in Er; [|done..]. destruct (bool_decide _ && _); [by intros [= <- _]|]. intros Hl.
      destruct Er as (Hm & Er). pose proof (moved_benign _ _ _ _ Hb _ _ Hm Hk2) as (Hk4 & _ & Hs4).
      assert (route t event (correlationsOf m t) (w_store w4) = Some cid) as Hr4.
      { rewrite <- Hr. by eapply moved_route. }
      etransitivity; [by split|]. by apply (attemptLoop_settled _ _ _ _ _ Hctx Hf _ Hb _ _ _ _ _ cid) in Hl; [|..|apply Hs4]. }
  assert (well_keyed (w_store w') ∧ done_or_quiet others t event (correlationsOf m t) w w') as [Hk' Hd].
  { unfold processSagaEvent in Hp. rewrite Hreg in Hp. fold (correlationsOf m t) in Hp.
    destruct (resolveSagaID envs others t event (correlationsOf m t) w) as [w4 [[id corr] starting]] eqn:Er.
    eapply resolve_quiet in Er; [|done..]. pose proof (quiet_keyed _ _ _ _ Hb _ _ Er Hk) as Hk4.
    destruct (bool_decide _ && _); [injection Hp as <-; by split; [|left]|].
    by eapply (attemptLoop_spec _ _ _ _ _ Hctx Hf _ Hb _ _ _ _ _ w) in Hp; [|done|left]. }
  split; [done|]. split; [|split; [|split; [|done]]].
  - destruct Hd as [?|(cid & ? & ? & _)]; [by left|right; by exists cid].
  - intros Ha. destruct Hd as [?|(cid & ? & _ & Hw)]; [by left|right; eauto].
  - intros Hby cid k n w1 w2 w3 capture' r Hk1 Hw Hdel Hkn Hr.
    destruct (deliveries_within m t factory event k cid n w1 w2 Hregd Hctx Hby Hdel Hk1 Hw Hkn) as [Hk2 Hw2].
    apply Hagain; [done|]. exists cid. split; [done|]. by eapply within_settled.
Qed.

(** All the commands succeeded and the saga was stored, or the drive failed and
    was stopped or compensated. *)
Definition drive_outcome m (event : StoredEvent) (saga : G) w w' (saga' : G) (r : res unit) (g : G)
    (handled : res (list C)) : Prop :=
  let b := sagaBase saga in
  let step := sb_currentStep (sagaBase g) in
  (∃ cmds g1 w1, handled = Ok cmds ∧ dispatches envs m ((λ c, (c, true)) <$> cmds) (tick w) w1 ∧
     advanced g (length cmds) g1 ∧ w_bus w' = w_bus w1 ∧
     ∀ u, r = Ok u → ∃ row, wrote others b saga' row w1 w' ∧
       sg_Status row = (if IsComplete g1 then SagaStatusCompleted else sb_status (sagaBase g)) ∧
       sg_CurrentStep row = step + Z.of_nat (length cmds) ∧ eventKey event ∈ default [] (sg_ProcessedEvents row)) ∨
  (∃ k err g1 w1, fails envs m handled g k err g1 w w1 ∧
     sb_currentStep (sagaBase g1) = step + Z.of_nat k ∧
     if isShutdownError err then r = Err err ∧ w' = w1 ∧ w_store w' = w_store w
     else compensates envs others m b g1 err w1 saga' r w').

(** C39: the outcome of driving a saga with an event.  The commands of
    [HandleEvent] are dispatched in order.  If all succeed, the row stored has
    the step advanced by their number, the event among the processed ones, and
    status Completed if the saga says it is complete, else the one [HandleEvent]
    left.  At the first
    failure (of [HandleEvent], or of the [k]-th command after its retries) no
    further command is dispatched; a failure that is a shutdown stops there and
    stores nothing, any other calls [Compensate] with the saga's step advanced
    by the number of commands that succeeded and dispatches all its commands, and the row stored is
    Compensated if they all succeeded, CompensationFailed if one did not, and
    Failed if [Compensate] itself failed.  One row is written, over the version
    the saga was loaded at. *)
Theorem saga_drive_outcome m (event : StoredEvent) (saga : G) w w' saga' r (g : G) (handled : res (list C)) :
  redrive envs others m event saga w = (w', saga', r) →
  HandleEvent (env envs w) event (upd (SetStatus SagaStatusRunning) saga) = (g, handled) →
  0 ≤ sb_currentStep (sagaBase g) →
  sb_currentStep (sagaBase g) + match handled with Ok cmds => Z.of_nat (length cmds) | Err _ => 0 end ≤ MaxInt64 →
  drive_outcome m event saga w w' saga' r g handled.
Proof.
  intros Hr Hh H0s Hmax. unfold drive_outcome. set (b := sagaBase saga). set (step := sb_currentStep (sagaBase g)).
  unfold redrive in Hr. rewrite Hh in Hr.
  pose proof (handle_identity (env envs w) event (upd (SetStatus SagaStatusRunning) saga)) as Hi.
  rewrite Hh in Hi. cbn in Hi. unfold upd at 1 in Hi. rewrite base_with in Hi.
  assert (identity (sagaBase g) = identity b) as Hg by done. clear Hi.
  destruct handled as [cmds|err].
  2:{ right. exists 0%nat, err, g, (tick w). split; [done|]. split; [unfold step; lia|].
      destruct (isShutdownError err); [by injection Hr as <- <- <-|]. by eapply handleSagaFailure_compensates. }
  destruct (dispatchLoopSteps envs m cmds g (tick w)) as [[w2 g2] r2] eqn:El.
  pose proof (dispatchLoopSteps_frame _ _ _ _ _ _ _ _ El) as (Hb2 & Hi2 & Hs2).
  apply dispatchLoopSteps_dispatches in El. destruct r2 as [u2|err].
  2:{ destruct El as (k & cmd & wk & Hc & Hd & Hf & Ha). pose proof (lookup_lt_Some _ _ _ Hc) as Hlt.
      right. exists k, err, g2, w2. split; [by exists cmd, wk|].
      destruct (advanced_base g k g2 Ha) as (Hst & _); [done|lia|]. split; [done|].
      destruct (isShutdownError err); [injection Hr as <- <- <-; split_and!; try done; by destruct Hb2|].
      eapply handleSagaFailure_compensates; [exact Hr|congruence]. }
  destruct El as [Hd Ha]. destruct (advanced_base g _ g2 Ha) as (Hst & Hss & _); [done|done|].
  left. exists cmds, g2, w2. split; [done|]. split; [done|]. split; [done|]. destruct (IsComplete g2).
  - eapply (saveSaga_wrote _ _ _ _ b _ w2) in Hr as [Hbus Hok]; [|done|unfold upd; rewrite !base_with; exact (eq_trans Hi2 Hg)].
    split; [exact Hbus|]. intros u Hu. destruct (Hok u Hu) as (row & Hw & (_ & _ & _ & H1' & H2') & Hp). exists row.
    unfold upd in H1', H2'. rewrite !base_with in H1', H2'. rewrite H1', H2', Hp. split_and!; try done.
    apply processedAfter_event.
  - eapply (saveSaga_wrote _ _ _ _ b _ w2) in Hr as [Hbus Hok]; [|done|congruence].
    split; [exact Hbus|]. intros u Hu. destruct (Hok u Hu) as (row & Hw & (_ & _ & _ & H1' & H2') & Hp). exists row.
    rewrite H1', H2', Hp, Hst, Hss. split_and!; try done. apply processedAfter_event.
Qed.
End Guarantees.

(** ** The concrete instances *)

Definition firstEvent : StoredEvent := orderEvent "e1" "OrderPlaced" 1.

Lemma order_registered : registered orderManager "Order" orderFactory.
Proof. by split. Qed.

Lemma calm_ctx n : ctx_law (calm n).
Proof. done. Qed.

Lemma nobody_benign t e cs : benign t e cs nobody.
Proof. by split. Qed.

Lemma nobody_bystanders t e cs : bystanders t e cs nobody.
Proof. split; [intros e'; apply nobody_benign|done]. Qed.

Lemma empty_keyed : well_keyed (w_store orderWorld).
Proof. done. Qed.

Lemma forget_store (w : World SagaStore (list string) Provider MemoryAdapter) :
  w_store (set_processed w ∅) = w_store w.
Proof. done. Qed.

(** After a restart (an empty cache) the order is placed once more by another
    event, and then the first event is delivered again: nothing is reserved a
    third time. *)
Definition placedAgain : World SagaStore (list string) Provider MemoryAdapter :=
  (deliver (orderEvent "e9" "OrderPlaced" 2) (set_processed placed ∅)).1.

Lemma placedAgain_delivered : deliveries calm nobody orderManager "Order" 1 placed (set_processed placedAgain ∅).
Proof.
  eapply (deliveries_next _ _ _ _ 0 placed (set_processed placed ∅) (orderEvent "e9" "OrderPlaced" 2) (orderEvent "e9" "OrderPlaced" 2)
    placedAgain); [rewrite forget_store; apply rtc_refl|exact (surjective_pairing _)|].
  apply deliveries_none. rewrite forget_store. apply rtc_refl.
Qed.

Lemma saga_redelivery_harmless_witness :
  w_bus placedAgain = ["reserve"; "reserve"] ∧
  quiet nobody (set_processed placedAgain ∅) (deliver firstEvent (set_processed placedAgain ∅)).1.
Proof.
  destruct (saga_redelivery_harmless calm nobody orderManager "Order" orderFactory firstEvent firstEvent orderWorld placed
    order_registered calm_ctx (nobody_benign _ _ _) empty_keyed (pair_with_snd _ _ ltac:(vm_compute; reflexivity)))
    as (Hk & _ & Hd & Hagain & _).
  split; [vm_compute; reflexivity|].
  assert (w_bus placed ≠ w_bus orderWorld) as Hne by (vm_compute; discriminate).
  destruct (Hd (λ _ _ _ _ Hs, Hs)) as [(_ & Hq & _)|(cid & Hr & Hw)]; [destruct (Hne Hq)|].
  apply (Hagain (nobody_bystanders _ _ _) cid 1%nat 1%nat placed (set_processed placedAgain ∅) _ firstEvent
    (deliver firstEvent (set_processed placedAgain ∅)).2); [exact Hk|exact Hw|exact placedAgain_delivered|lia| |exact (surjective_pairing _)].
  rewrite forget_store. assert (cid = "order-7") as -> by (revert Hr; vm_compute; congruence). vm_compute. reflexivity.
Defined.

Definition sampleOrder : OrderSaga := orderFactory "Order-order-7".

Lemma saga_drive_outcome_witness :
  let e := orderEvent "e2" "OrderDeclined" 2 in
  let '(w', saga', r) := redrive calm nobody orderManager e sampleOrder orderWorld in
  w_bus w' = ["notify"; "charge"; "charge"; "charge"; "release"] ∧ sb_status (os_base saga') = SagaStatusCompensated ∧
  drive_outcome calm nobody orderManager e sampleOrder orderWorld w' saga' r
    (upd (SetStatus SagaStatusRunning) sampleOrder) (Ok ["notify"; "charge"; "ship"]).
Proof.
  cbv zeta. set (e := orderEvent "e2" "OrderDeclined" 2).
  pose proof (saga_drive_outcome calm nobody orderManager e sampleOrder orderWorld
    (redrive calm nobody orderManager e sampleOrder orderWorld).1.1 (redrive calm nobody orderManager e sampleOrder orderWorld).1.2
    (redrive calm nobody orderManager e sampleOrder orderWorld).2 (upd (SetStatus SagaStatusRunning) sampleOrder)
    (Ok ["notify"; "charge"; "ship"])) as Hout.
  assert ((w_bus (redrive calm nobody orderManager e sampleOrder orderWorld).1.1,
    sb_status (os_base (redrive calm nobody orderManager e sampleOrder orderWorld).1.2)) =
    (["notify"; "charge"; "charge"; "charge"; "release"], SagaStatusCompensated)) as Hv by (vm_compute; reflexivity).
  destruct (redrive calm nobody orderManager e sampleOrder orderWorld) as [[w' saga'] r]. injection Hv as Hv1 Hv2.
  split; [exact Hv1|]. split; [exact Hv2|]. apply Hout; [reflexivity|reflexivity|by vm_compute|by vm_compute].
Defined.
