(* ===== verification/StoreRefinement.v ===== *)
(** * The event store as streams of typed events

    What [EventStore] promises, over any event log, key provider and
    serializer: each stream holds the events that were appended to it, in
    order, whatever is sealed, stamped and upcast in between. *)

From Stdlib Require Import Strings.Byte.
From S2P Require Import Prelude.
From S2P Require Import Strconv.
From S2P Require Import Json.
From S2P Require Import JsonRoundtrip.
From S2P Require Import Utf8.
From S2P Require Import Types.
From S2P Require Import Crypto.
From S2P Require Import LocalProvider.
From S2P Require Import Common.
From S2P Require Import Subject.
From S2P Require Import FieldEncryption.
From S2P Require Import FieldTheorems.
From S2P Require Import LogInvariant.
From S2P Require Import Versioning.
From S2P Require Import EventLog.
From S2P Require Import Aggregate.
From S2P Require Import EventStore.

(** The fields of the metadata that are no custom keys. *)
Definition header (m : Metadata) : string * string * string * string :=
  (md_CorrelationID m, md_CausationID m, md_UserID m, md_TenantID m).

(** The custom keys of the library. *)
Definition libraryKeys : list string := schemaVersionKey :: SubjectTagsKey :: reservedEncryptionMetadataKeys.

(** ** Lookups *)

Lemma header_WithCustom m k v : header (WithCustom m k v) = header m.
Proof. done. Qed.

Lemma header_without m keys : header (withoutCustomKeys m keys) = header m.
Proof. unfold withoutCustomKeys, header. repeat case_match; done. Qed.

Lemma header_setSubjectTags m l : header (setSubjectTags m l) = header m.
Proof. unfold setSubjectTags. by case_match. Qed.

Lemma header_stampEnvelope m names dk : header (stampEnvelope m names dk) = header m.
Proof. done. Qed.

Lemma header_schemaPolicy c up t m : header (applySchemaVersionPolicy c up t m) = header m.
Proof. unfold applySchemaVersionPolicy. repeat case_match; auto using header_without. Qed.

Lemma header_subjectPolicy c t d m : header (applySubjectTagPolicy c t d m) = header m.
Proof.
  unfold applySubjectTagPolicy, replaceSubjectTags.
  repeat case_match; auto using header_setSubjectTags, header_without.
  by rewrite header_setSubjectTags, header_without.
Qed.

#[export] Hint Rewrite header_WithCustom header_without header_setSubjectTags header_stampEnvelope
  header_schemaPolicy header_subjectPolicy : mink_rw.

Lemma without_one m k k' :
  custom_lookup (withoutCustomKeys m [k]) k' = if decide (k' = k) then None else custom_lookup m k'.
Proof. rewrite withoutCustomKeys_lookup. do 2 case_decide; set_solver. Qed.

Lemma setSubjectTags_lookup m l k :
  k ≠ SubjectTagsKey → custom_lookup (setSubjectTags m l) k = custom_lookup m k.
Proof. intros Hk. unfold setSubjectTags. case_match; [done|]. by rewrite custom_lookup_WithCustom, decide_False. Qed.

Lemma subjectPolicy_lookup c t d m k :
  k ≠ SubjectTagsKey → custom_lookup (applySubjectTagPolicy c t d m) k = custom_lookup m k.
Proof.
  intros Hk. unfold applySubjectTagPolicy, replaceSubjectTags.
  repeat case_match; rewrite ?setSubjectTags_lookup by done; rewrite ?without_one; by rewrite ?decide_False.
Qed.

Lemma schemaPolicy_lookup c up t m k :
  k ≠ schemaVersionKey → custom_lookup (applySchemaVersionPolicy c up t m) k = custom_lookup m k.
Proof.
  intros Hk. unfold applySchemaVersionPolicy, SetSchemaVersion.
  repeat case_match; rewrite ?custom_lookup_WithCustom, ?without_one; by rewrite ?decide_False.
Qed.

(** The schema version an append writes. *)
Lemma schemaPolicy_version c up t m :
  custom_lookup (applySchemaVersionPolicy c up t m) schemaVersionKey =
  match up with
  | None => None
  | Some ch =>
      if es_callerSchemaVersion c && HasUpcasters ch t && explicitSchemaVersionValid m (LatestVersion ch t)
      then custom_lookup m schemaVersionKey else Some (Itoa (LatestVersion ch t))
  end.
Proof.
  unfold applySchemaVersionPolicy, SetSchemaVersion, hasSchemaVersion. destruct up as [ch|].
  - case_match; [done|]. by rewrite custom_lookup_WithCustom, decide_True.
  - destruct (custom_lookup m schemaVersionKey) eqn:E; [by rewrite without_one, decide_True|done].
Qed.

Lemma sanitized_reserved m k :
  custom_lookup (SanitizeReservedMetadata m) k =
  if decide (k ∈ reservedEncryptionMetadataKeys) then None else custom_lookup m k.
Proof. apply withoutCustomKeys_lookup. Qed.

Lemma reserved_ne k : k ∈ reservedEncryptionMetadataKeys → k ≠ schemaVersionKey ∧ k ≠ SubjectTagsKey.
Proof. unfold reservedEncryptionMetadataKeys. rewrite !elem_of_cons, elem_of_nil. by intros [->|[->|[->|[->|[]]]]]. Qed.

Lemma stampMetadata_reserved c up tr ed k :
  k ∈ reservedEncryptionMetadataKeys → custom_lookup (stampMetadata c up tr ed) k = None.
Proof.
  intros Hk. destruct (reserved_ne k Hk) as [H1 H2]. unfold stampMetadata. rewrite subjectPolicy_lookup by done.
  destruct tr; cbn [negb]; rewrite ?schemaPolicy_lookup by done; by rewrite sanitized_reserved, decide_True.
Qed.

Lemma stampMetadata_foreign c up tr ed k :
  k ∉ libraryKeys → custom_lookup (stampMetadata c up tr ed) k = custom_lookup (ed_Metadata ed) k.
Proof.
  unfold libraryKeys. rewrite !not_elem_of_cons. intros (H1 & H2 & Hk). unfold stampMetadata.
  rewrite subjectPolicy_lookup by done.
  destruct tr; cbn [negb]; rewrite ?schemaPolicy_lookup by done; by rewrite sanitized_reserved, decide_False.
Qed.

Lemma stampMetadata_header c up tr ed : header (stampMetadata c up tr ed) = header (ed_Metadata ed).
Proof. unfold stampMetadata, SanitizeReservedMetadata. destruct tr; cbn [negb]; by autorewrite with mink_rw. Qed.

Lemma stampMetadata_plain c up tr ed : IsEncrypted (stampMetadata c up tr ed) = false.
Proof.
  unfold IsEncrypted. rewrite stampMetadata_reserved by (by left). apply bool_decide_false. by intros [? ?].
Qed.

Lemma stampEnvelope_foreign m names dk k :
  k ∉ reservedEncryptionMetadataKeys → custom_lookup (stampEnvelope m names dk) k = custom_lookup m k.
Proof.
  unfold reservedEncryptionMetadataKeys. rewrite !not_elem_of_cons. intros (? & ? & ? & ? & _).
  unfold stampEnvelope. rewrite !custom_lookup_WithCustom. by rewrite !decide_False.
Qed.

(** ** What a successful preparation went through *)

Section Prepare.
Context {P : Type} `{AEAD} `{ProviderOps P}.

Lemma prepare_Ok c up now ent sid ed tr (p p' : P) ed' :
  prepareEventDataWith c up now ent sid ed tr p = (p', Ok ed') →
  let md := stampMetadata c up tr ed in
  ed_Type ed' = ed_Type ed ∧ (0 < es_maxEventSize c → dataLength (ed_Data ed') ≤ es_maxEventSize c) ∧
  ((p' = p ∧ ed_Data ed' = ed_Data ed ∧ ed_Metadata ed' = md) ∨
   ∃ enc keyID dk, es_encryption c = Some enc ∧ HasEncryptedFields enc (ed_Type ed) = true ∧
     fe_hasProvider enc = true ∧ selectKeyID enc (ed_Type ed) md = Ok keyID ∧
     GenerateDataKey now ent keyID p = (p', Ok dk) ∧
     sealEvent ent sid keyID (sealPaths enc (ed_Type ed)) (ed_Data ed) md dk = Ok (ed_Data ed', ed_Metadata ed')).
Proof.
  intros Hp md. revert Hp. unfold prepareEventDataWith. fold md.
  destruct (encryptEventData _ _ _ _ _ p) as [p1 [ed1|]] eqn:Ee; [|done].
  destruct ((0 <? es_maxEventSize c) && _) eqn:Es; [done|]. intros [= -> ->].
  assert (0 < es_maxEventSize c → dataLength (ed_Data ed') ≤ es_maxEventSize c) as Hs.
  { intros Hpos. apply andb_false_iff in Es as [Es|Es]; zbool; lia. }
  revert Ee. unfold encryptEventData. cbn [ed_Type ed_Data ed_Metadata].
  destruct (es_encryption c) as [enc|] eqn:Ec; [|intros [= <- <-]; split; [done|]; split; [done|]; by left].
  destruct (HasEncryptedFields enc (ed_Type ed)) eqn:Eh; [|intros [= <- <-]; split; [done|]; split; [done|]; by left].
  destruct (encryptFields now ent enc sid (ed_Type ed) (ed_Data ed) md p) as [p2 [[d m]|]] eqn:Ef; [|done].
  intros [= -> <-]. cbn [ed_Type ed_Data ed_Metadata]. split; [done|]. split; [done|].
  apply encryptFields_Ok in Ef as [(_ & -> & [= -> ->])|(keyID & dk & _ & Hpr & Hk & Hg & Hse)]; [by left|].
  right. by exists enc, keyID, dk.
Qed.

Lemma prepare_later `{!ProviderStable P} c up now ent sid ed tr (p : P) :
  later p (prepareEventDataWith c up now ent sid ed tr p).1.
Proof.
  unfold prepareEventDataWith.
  assert (∀ ed1, later p (encryptEventData c now ent sid ed1 p).1) as He.
  { intros ed1. unfold encryptEventData. repeat case_match; try reflexivity; simplify_eq/=.
    all: match goal with H : encryptFields _ _ _ _ _ _ _ _ = (?q, _) |- _ =>
      replace q with (encryptFields now ent f sid (ed_Type ed1) (ed_Data ed1) (ed_Metadata ed1) p).1 by (by rewrite H)
      end.
    all: unfold encryptFields; repeat case_match; try reflexivity; simplify_eq/=.
    all: match goal with H : GenerateDataKey ?t ?e ?k _ = _ |- _ =>
      pose proof (later_generate t e k p) as Hl; rewrite H in Hl; exact Hl end. }
  pose proof (He (mkEventData (ed_Type ed) (ed_Data ed) (stampMetadata c up tr ed))) as Hl.
  destruct (encryptEventData _ _ _ _ _ p) as [p1 [ed1|]]; [by case_match|done].
Qed.

(** Whatever metadata the caller passes, what an append stores under the
    library's keys is the library's: the schema version is the latest of the
    registered upcasters (the caller's only when that is allowed and valid, none
    without upcasters), the subjects are those of the tagger, an encryption
    envelope is absent or names the data key that was just generated under the
    selected master key, the other keys and fields are the caller's, and the
    payload is within the size limit. *)
Theorem prepared_metadata_library_owned c up now ent sid (ed : EventData) (p p' : P) (ed' : EventData) :
  prepareEventDataWith c up now ent sid ed false p = (p', Ok ed') →
  let md := SanitizeReservedMetadata (ed_Metadata ed) in
  let md' := ed_Metadata ed' in
  (0 < es_maxEventSize c → dataLength (ed_Data ed') ≤ es_maxEventSize c) ∧
  ed_Type ed' = ed_Type ed ∧ header md' = header (ed_Metadata ed) ∧
  (∀ k, k ∉ libraryKeys → custom_lookup md' k = custom_lookup (ed_Metadata ed) k) ∧
  custom_lookup md' schemaVersionKey =
    match up with
    | None => None
    | Some ch =>
        if es_callerSchemaVersion c && HasUpcasters ch (ed_Type ed)
           && explicitSchemaVersionValid md (LatestVersion ch (ed_Type ed))
        then custom_lookup (ed_Metadata ed) schemaVersionKey else Some (Itoa (LatestVersion ch (ed_Type ed)))
    end ∧
  (∀ tagger, es_subjectTagger c = Some tagger → es_callerSubjectTags c = false →
     custom_lookup md' SubjectTagsKey =
     match dedupe [] (tagger (ed_Type ed) (ed_Data ed) (applySchemaVersionPolicy c up (ed_Type ed) md)) with
     | [] => None
     | subjects => Some (MarshalStrings subjects)
     end) ∧
  ((ed_Data ed' = ed_Data ed ∧ ∀ k, k ∈ reservedEncryptionMetadataKeys → custom_lookup md' k = None) ∨
   ∃ enc keyID dk names, es_encryption c = Some enc ∧ HasEncryptedFields enc (ed_Type ed) = true ∧ names ≠ [] ∧
     selectKeyID enc (ed_Type ed) (stampMetadata c up false ed) = Ok keyID ∧
     GenerateDataKey now ent keyID p = (p', Ok dk) ∧
     custom_lookup md' encryptedFieldsKey = Some (MarshalStrings names) ∧
     custom_lookup md' encryptionKeyIDKey = Some (dk_KeyID dk) ∧
     custom_lookup md' encryptedDEKKey = Some (base64Encode (dk_Ciphertext dk)) ∧
     custom_lookup md' encryptionAlgorithmKey = Some encryptionAlgorithm).
Proof.
  intros Hp md md'. apply prepare_Ok in Hp as (Ht & Hs & Hc). split; [done|]. split; [done|].
  set (st := stampMetadata c up false ed) in *.
  assert ((ed_Data ed' = ed_Data ed ∧ md' = st) ∨ ∃ enc keyID dk names, es_encryption c = Some enc ∧
    HasEncryptedFields enc (ed_Type ed) = true ∧ names ≠ [] ∧ selectKeyID enc (ed_Type ed) st = Ok keyID ∧
    GenerateDataKey now ent keyID p = (p', Ok dk) ∧ md' = stampEnvelope st names dk) as Hmd.
  { destruct Hc as [(_ & ? & ?)|(enc & keyID & dk & ? & ? & _ & ? & ? & Hse)]; [by left|].
    apply sealEvent_Ok in Hse as [[? ?]|(names & ? & ?)]; [by left|]. right. by exists enc, keyID, dk, names. }
  assert (header md' = header st ∧
    ∀ k, k ∉ reservedEncryptionMetadataKeys → custom_lookup md' k = custom_lookup st k) as [Hh Hl].
  { destruct Hmd as [[_ ->]|(? & ? & ? & ? & _ & _ & _ & _ & _ & ->)]; [done|]. split; [done|].
    intros k Hk. by apply stampEnvelope_foreign. }
  split; [by rewrite Hh; apply stampMetadata_header|]. split; [|split; [|split]].
  - intros k Hk. rewrite Hl; [by apply stampMetadata_foreign|]. unfold libraryKeys in Hk. set_solver.
  - rewrite Hl by (by apply (bool_decide_unpack _)). unfold st, stampMetadata. cbn [negb].
    rewrite subjectPolicy_lookup by done. rewrite schemaPolicy_version. fold md. destruct up; [|done].
    case_match; [|done]. unfold md. by rewrite sanitized_reserved, decide_False by (by apply (bool_decide_unpack _)).
  - intros tagger Et Ec. rewrite Hl by (by apply (bool_decide_unpack _)). unfold st, stampMetadata. cbn [negb].
    unfold applySubjectTagPolicy. rewrite Et, Ec. fold md. unfold replaceSubjectTags.
    set (m1 := applySchemaVersionPolicy _ _ _ _). set (l := tagger _ _ _).
    assert (custom_lookup (withoutCustomKeys m1 [SubjectTagsKey]) SubjectTagsKey = None) as Hn
      by (by rewrite without_one, decide_True).
    destruct l as [|x l]; [done|]. unfold setSubjectTags, GetSubjectTags. rewrite Hn. cbn [app].
    destruct (dedupe [] (x :: l)); [done|]. by rewrite custom_lookup_WithCustom, decide_True.
  - destruct Hmd as [[? Hm]|(enc & keyID & dk & names & ? & ? & ? & ? & ? & Hm)]; rewrite Hm.
    + left. split; [done|]. intros k. apply stampMetadata_reserved.
    + right. exists enc, keyID, dk, names. repeat (split; [done|]). unfold stampEnvelope.
      rewrite !custom_lookup_WithCustom. repeat split; repeat (rewrite decide_False by done); by rewrite decide_True.
Qed.
End Prepare.

(** ** Witness *)

(** A caller that forges the library's keys. *)
Definition forgedMetadata : Metadata :=
  WithCustom (WithCustom (WithCustom (WithCustom emptyMetadata "$schema_version" "99") "$encrypted_fields" "[]")
    "$subjects" "[]") "trace" "t-1".

Definition taggingConfig : EventStore :=
  mkEventStore (Some (NewFieldEncryptionConfig sampleFieldOptions)) 10000 (Some (λ _ _ _, ["user-7"; ""; "user-7"]))
    true false false true true None.

Definition samplePrepared : Provider * res EventData :=
  @prepareEventDataWith Provider toyAEAD (@localProvider toyAEAD) taggingConfig
    (Some (@registerAll stableSlice [mkUpcaster "UserRegistered" 1 2 (λ d _, Ok d)])) 5 sampleEntropy "User-1"
    (mkEventData "UserRegistered" samplePayload forgedMetadata) false sampleProvider.

Lemma prepared_metadata_library_owned_witness :
  ∃ p' ed', samplePrepared = (p', Ok ed') ∧
    custom_lookup (ed_Metadata ed') "trace" = Some "t-1" ∧
    custom_lookup (ed_Metadata ed') "$schema_version" = Some "2" ∧
    custom_lookup (ed_Metadata ed') "$subjects" = Some (MarshalStrings ["user-7"]).
Proof.
  assert (is_ok samplePrepared.2 = true) as Hok by (vm_compute; reflexivity).
  destruct samplePrepared as [p' [ed'|]] eqn:E; [|discriminate Hok].
  exists p', ed'. split; [reflexivity|].
  destruct (@prepared_metadata_library_owned Provider toyAEAD (@localProvider toyAEAD) taggingConfig
    _ 5 sampleEntropy "User-1" _ sampleProvider p' ed' E) as (_ & _ & _ & Hother & Hver & Hsub & _).
  split; [|split].
  - rewrite Hother; [vm_compute; reflexivity|]. apply (bool_decide_unpack _). vm_compute. exact I.
  - etransitivity; [exact Hver|vm_compute; reflexivity].
  - etransitivity; [exact (Hsub _ eq_refl eq_refl)|vm_compute; reflexivity].
Defined.

(** * The event store as streams of typed events *)

(** ** The serializer's contract

    [ser_known s v]: the type of [v] is registered with the Go type of [v], and
    its encoding is faithful.  An object payload may come back re-rendered, as
    decryption does, and registering known events again changes nothing. *)
Class SerializerLaws (V Ser : Type) `{SerializerOps V Ser} := {
  ser_known : Ser → V → Prop;
  ser_roundtrip : ∀ ser v d, ser_known ser v → ser_Serialize v ser = Ok d →
    ser_Deserialize d (ser_GetEventType v) ser = Ok v;
  ser_object : ∀ ser v d m, ser_known ser v → ser_Serialize v ser = Ok d → decodeObject d = Some m →
    ser_Deserialize (stringToBytes (print (JObject m))) (ser_GetEventType v) ser = Ok v;
  ser_register_known : ∀ ser vs, Forall (ser_known ser) vs → ser_RegisterAll vs ser = (ser, Ok tt);
  ser_resolved : ∀ ser v, ser_known ser v →
    match ser_IsRegistered with
    | Some registered => registered (ser_GetEventType v) ser = true
    | None => ser_isMap v = false
    end;
}.

(** The upcasters were registered, and a version is an [int]. *)
Definition upcasters_wf (up : option UpcasterChain) : Prop :=
  ∀ ch, up = Some ch → chain_ok ch ∧ ∀ t, in_i64 (LatestVersion ch t).

Lemma Upcast_latest ch t d md :
  chain_ok ch → Upcast ch t (LatestVersion ch t) d md = (LatestVersion ch t, Ok d).
Proof.
  intros Hc. destruct (upcastersOf_ok ch t Hc) as [Hs _].
  eapply upcasts_deterministic; [exact Hs|by apply Upcast_spec|]. apply upcasts_done.
  intros u. by apply LatestVersion_max.
Qed.

Lemma LatestVersion_pos ch t : chain_ok ch → DefaultSchemaVersion ≤ LatestVersion ch t.
Proof.
  intros Hc. rewrite LatestVersion_last by done. destruct (upcastersOf_ok ch t Hc) as [_ Hf].
  destruct (last (upcastersOf ch t)) as [u|] eqn:E; cbn; [|done]. apply last_Some_elem_of in E.
  rewrite Forall_forall in Hf. destruct (Hf u E) as (_ & ? & ?). unfold DefaultSchemaVersion. lia.
Qed.

Lemma GetSchemaVersion_latest md ch t :
  chain_ok ch → in_i64 (LatestVersion ch t) → custom_lookup md schemaVersionKey = Some (Itoa (LatestVersion ch t)) →
  GetSchemaVersion md = LatestVersion ch t.
Proof.
  intros Hc Hi Hm. unfold GetSchemaVersion. rewrite Hm, Atoi_Itoa by done.
  pose proof (LatestVersion_pos ch t Hc). case_match; zbool; lia.
Qed.

Section Refinement.
Context {A P V Ser X : Type}.
Context `{AEADLaws} `{ProviderOps P} `{!ProviderLaws P} `{!ProviderStable P}.
Context `{EventLogOps A} `{!EventLogLaws A} `{SerializerOps V Ser} `{!SerializerLaws V Ser}.
Context `{SubjectIndexWriter X} `{MapOrder}.
Implicit Types s : Store A P Ser X.
Implicit Types c : EventStore.

(** ** One event *)

(** A stored event that reads back as [v], now and after whatever else the
    provider does. *)
Definition reads_back c (up : option UpcasterChain) (ser : Ser) (p : P) (e : StoredEvent) (v : V) : Prop :=
  ser_known ser v ∧ se_Type e = ser_GetEventType v ∧
  ∀ now q, later p q →
    ∃ q', later q q' ∧ deserializeWithUpcast c now up ser e q = (q', Ok (EventFromStored e v)).

Lemma reads_back_later c up ser p q e v : later p q → reads_back c up ser p e v → reads_back c up ser q e v.
Proof.
  intros Hl (Hk & Ht & Hr). split; [done|]. split; [done|]. intros now r Hq. apply Hr. by transitivity q.
Qed.

Lemma decryptFields_later now enc sid t d md (p : P) : later p (decryptFields now enc sid t d md p).1.
Proof.
  unfold decryptFields. repeat case_match; try reflexivity; simplify_eq/=.
  all: match goal with H : DecryptDataKey ?t ?k ?ct _ = _ |- _ =>
    pose proof (later_decrypt t k ct p) as Hl; rewrite H in Hl; exact Hl end.
Qed.

(** Reading in two steps: the plain bytes, then the upcasters and the
    serializer; at the latest version no upcaster runs. *)
Lemma deserialize_plain c now up ser e (p : P) d v :
  upcasters_wf up →
  (∀ ch, up = Some ch → HasUpcasters ch (se_Type e) = true →
     custom_lookup (se_Metadata e) schemaVersionKey = Some (Itoa (LatestVersion ch (se_Type e)))) →
  (if IsEncrypted (se_Metadata e)
   then ∃ enc, es_encryption c = Some enc ∧
     (decryptFields now enc (se_StreamID e) (se_Type e) (se_Data e) (se_Metadata e) p).2 = Ok d
   else se_Data e = d) →
  ser_Deserialize d (se_Type e) ser = Ok v →
  ∃ p', later p p' ∧ deserializeWithUpcast c now up ser e p = (p', Ok (EventFromStored e v)).
Proof.
  intros Hup Hv Hd Hs.
  assert (∀ d', d' = d →
    (eventData ← match up with
       | Some chain => if match up with Some chain => HasUpcasters chain (se_Type e) | None => false end
           then (Upcast chain (se_Type e) (GetSchemaVersion (se_Metadata e)) d' (se_Metadata e)).2 else Ok d'
       | None => Ok d' end;
     data ← ser_Deserialize eventData (se_Type e) ser; Ok (EventFromStored e data)) = Ok (EventFromStored e v)) as Hrest.
  { intros d' ->. destruct up as [ch|]; [|cbn; by rewrite Hs].
    destruct (HasUpcasters ch (se_Type e)) eqn:Eh; [|cbn; by rewrite Hs]. destruct (Hup ch eq_refl) as [Hc Hi].
    rewrite (GetSchemaVersion_latest _ ch (se_Type e)); [|done|done|by apply Hv].
    rewrite Upcast_latest by done. cbn. by rewrite Hs. }
  unfold deserializeWithUpcast. destruct (IsEncrypted (se_Metadata e)) eqn:Ee.
  - destruct Hd as (enc & -> & Hd). cbn [negb andb].
    pose proof (decryptFields_later now enc (se_StreamID e) (se_Type e) (se_Data e) (se_Metadata e) p) as Hl.
    destruct (decryptFields _ _ _ _ _ _ p) as [p1 r]. cbn in Hd, Hl. subst r. exists p1. split; [done|].
    f_equal. cbn [mbind]. by apply Hrest.
  - exists p. split; [done|]. rewrite Hd. destruct (es_encryption c) as [enc|];
      destruct (match up with Some chain => HasUpcasters chain (se_Type e) | None => false end) eqn:Eu; cbn [negb andb];
      try (f_equal; by apply Hrest).
    all: unfold DeserializeEvent; by rewrite Hd, Hs.
Qed.

(** What an append stamps on an event is the version its data is at: where
    upcasters would run, the latest. *)
Definition versioned c (up : option UpcasterChain) (tr : bool) (md : Metadata) (v : V) : Prop :=
  ∀ ch d, up = Some ch → HasUpcasters ch (ser_GetEventType v) = true →
    custom_lookup (stampMetadata c up tr (mkEventData (ser_GetEventType v) d md)) schemaVersionKey =
    Some (Itoa (LatestVersion ch (ser_GetEventType v))).

Lemma untrusted_versioned c up md v : es_callerSchemaVersion c = false → versioned c up false md v.
Proof.
  intros Hcs ch d -> _. unfold stampMetadata. cbn [negb ed_Type]. rewrite subjectPolicy_lookup by done.
  by rewrite schemaPolicy_version, Hcs.
Qed.

(** An event that was prepared reads back. *)
Lemma prepared_reads_back c opts up ser now ent sid v md tr (p p' : P) ed ed' e :
  es_encryption c = NewFieldEncryptionConfig <$> opts → versioned c up tr md v → upcasters_wf up →
  entropy_ok ent → ser_known ser v → SerializeEvent ser v md = Ok ed →
  prepareEventDataWith c up now ent sid ed tr p = (p', Ok ed') →
  se_StreamID e = sid → se_Type e = ed_Type ed' → se_Data e = ed_Data ed' → se_Metadata e = ed_Metadata ed' →
  ed_Type ed' = ser_GetEventType v ∧ reads_back c up ser p' e v.
Proof.
  intros Hopts Hcs Hup Hent Hk Hser Hp Hsid Ht Hd Hm.
  assert (∃ d, ser_Serialize v ser = Ok d ∧ ed = mkEventData (ser_GetEventType v) d md) as (d & Hd0 & ->).
  { revert Hser. unfold SerializeEvent. case_bool_decide; [done|].
    destruct (ser_Serialize v ser) as [d|]; [|done]. cbn. intros [= <-]. by exists d. }
  apply prepare_Ok in Hp as (Ety & _ & Hc). cbn [ed_Type ed_Data] in Ety, Hc. split; [done|].
  split; [done|]. split; [congruence|]. intros now' q Hl.
  set (st := stampMetadata c up tr _) in *.
  assert (∀ ch, up = Some ch → HasUpcasters ch (se_Type e) = true →
    custom_lookup st schemaVersionKey = Some (Itoa (LatestVersion ch (se_Type e)))) as Hv.
  { rewrite Ht, Ety. intros ch Ech Hch. by apply Hcs. }
  assert (IsEncrypted st = false) as Hplain by apply stampMetadata_plain.
  assert (se_Data e = d → se_Metadata e = st →
    ∃ q', later q q' ∧ deserializeWithUpcast c now' up ser e q = (q', Ok (EventFromStored e v))) as Hunsealed.
  { intros Ed Em. apply (deserialize_plain _ _ _ _ _ _ d); [done| | |].
    - by rewrite Em.
    - by rewrite Em, Hplain.
    - rewrite Ht, Ety. by apply ser_roundtrip. }
  destruct Hc as [(_ & E1 & E2)|(enc & keyID & dk & Eenc & Hhas & Hpr & Hsel & Hgen & Hse)].
  { apply Hunsealed; congruence. }
  rewrite Hopts in Eenc. destruct opts as [opts|]; [|done]. injection Eenc as <-.
  destruct (generate_sound _ _ _ _ _ _ Hent Hgen) as (Hlen & <- & Hct & Hun).
  assert (∃ m, decodeObject d = Some m) as [m Hdec].
  { unfold sealEvent in Hse. destruct (decodeObject d); [by eexists|done]. }
  pose proof (sealEvent_sound opts ent sid (ser_GetEventType v) _ d st dk _ _ now p' m Hpr Hent Hdec Hlen
    (selectKeyID_nonempty _ _ _ _ Hsel) Hct Hun Hse) as Hs. cbn zeta in Hs.
  destruct (filter _ _) as [|f fs]; [destruct Hs; apply Hunsealed; congruence|].
  destruct Hs as [(Hf & Henv & ct & dek & m' & _ & _ & _ & Hu & Hopen) _].
  apply (deserialize_plain _ _ _ _ _ _ (stringToBytes (print (JObject m)))); [done| | |].
  - intros ch Ech Hch. rewrite Hm. rewrite <- (Hv ch Ech Hch). apply sealEvent_Ok in Hse as [[_ ->]|(names & _ & ->)]; [done|].
    by apply stampEnvelope_foreign, (bool_decide_unpack _).
  - rewrite Hm. assert (IsEncrypted (ed_Metadata ed') = true) as -> by (unfold HasEncryptionEnvelope in Henv; zbool; done). exists (NewFieldEncryptionConfig opts).
    split; [done|]. rewrite Hd, Hsid, Ht, Ety. apply Hopen. by eapply later_unwraps.
  - rewrite Ht, Ety. by eapply ser_object.
Qed.
(** ** A batch *)

Lemma Forall2_and_l {B C} (Q : B → Prop) (R : B → C → Prop) l k :
  Forall Q l → Forall2 R l k → Forall2 (λ x y, Q x ∧ R x y) l k.
Proof. intros Hl. induction 1; constructor; inversion Hl; auto. Qed.

Lemma Forall2_compose {B C D} (R : B → C → Prop) (S : C → D → Prop) (T : D → B → Prop) l k m :
  (∀ x y z, R x y → S y z → T z x) → Forall2 R l k → Forall2 S k m → Forall2 T m l.
Proof. intros HT Hl. revert m. induction Hl; intros m Hm; inversion Hm; subst; constructor; eauto. Qed.

Lemma newEvents_payload env sid now i ver pos recs :
  Forall2 (λ r e, se_StreamID e = sid ∧ se_Type e = er_Type r ∧ se_Data e = er_Data r ∧ se_Metadata e = er_Metadata r)
    recs (LogSpec.newEvents env sid now i ver pos recs).
Proof.
  revert i ver pos. induction recs as [|r recs IH]; intros i ver pos; [constructor|].
  rewrite newEvents_cons. constructor; [done|apply IH].
Qed.

(** The record made for an event, at some step of the loop. *)
Definition prepared c (env : StoreEnv) (up : option UpcasterChain) (ser : Ser) (sid : string) (md : Metadata)
    (tr : bool) (p' : P) (v : V) (r : EventRecord) : Prop :=
  ∃ j p0 p1 ed ed', SerializeEvent ser v md = Ok ed ∧
    prepareEventDataWith c up (se_now env j) (se_entropy env j) sid ed tr p0 = (p1, Ok ed') ∧ later p1 p' ∧
    r = mkEventRecord (ed_Type ed') (ed_Data ed') (ed_Metadata ed').

Lemma prepareRecords_later c env fmt up ser sid md tr i (evs : list V) recs subs (p : P) :
  later p (prepareRecords c env fmt up ser sid md tr i evs recs subs p).1.
Proof.
  revert i recs subs p. induction evs as [|v evs IH]; intros i recs subs p; cbn [prepareRecords]; [done|].
  destruct (SerializeEvent ser v md) as [ed|]; [|done].
  pose proof (prepare_later c up (se_now env i) (se_entropy env i) sid ed tr p) as Hl.
  destruct (prepareEventDataWith _ _ _ _ _ _ _ p) as [p1 [ed'|]]; [|done]. etransitivity; [exact Hl|apply IH].
Qed.

Lemma prepareRecords_Ok c env fmt up ser sid md tr i (evs : list V) recs subs (p p' : P) recs' subs' :
  prepareRecords c env fmt up ser sid md tr i evs recs subs p = (p', Ok (recs', subs')) →
  ∃ new, recs' = recs ++ new ∧ Forall2 (prepared c env up ser sid md tr p') evs new.
Proof.
  revert i recs subs p. induction evs as [|v evs IH]; intros i recs subs p; cbn [prepareRecords].
  { intros [= <- <- <-]. exists []. split; [by rewrite app_nil_r|constructor]. }
  destruct (SerializeEvent ser v md) as [ed|] eqn:Es; [|done].
  destruct (prepareEventDataWith _ _ _ _ _ _ _ p) as [p1 [ed'|]] eqn:Ep; [|done]. intros Hr.
  apply IH in Hr as Hn. destruct Hn as (new & -> & Hnew). rewrite <- app_assoc.
  eexists. split; [done|]. constructor; [|done]. exists i, p, p1, ed, ed'. split; [done|]. split; [done|]. split; [|done].
  match type of Hr with ?f = _ => pose proof (prepareRecords_later c env fmt up ser sid md tr (S i) evs
    (recs ++ [mkEventRecord (ed_Type ed') (ed_Data ed') (ed_Metadata ed')])
    (collectSubjects c (ed_Metadata ed') subs) p1) as Hl end.
  by rewrite Hr in Hl.
Qed.

Definition store_log s : list StoredEvent := LogSpec.log (el_view (st_adapter s)).
Definition store_closed s : bool := LogSpec.closed (el_view (st_adapter s)).

(** What the calls of the store leave alone. *)
Definition same_setup s s' : Prop :=
  st_serializer s' = st_serializer s ∧ st_upcasters s' = st_upcasters s ∧ st_replayWarned s' = st_replayWarned s.

(** The batch is written whole or not at all. *)
Lemma writeEvents_spec c env fmt sid (evs : list V) md tr exp s s' r :
  el_wf (st_adapter s) → Z.of_nat (length (store_log s) + length evs) ≤ MaxInt64 →
  writeEvents c env fmt sid evs md tr exp s = (s', r) →
  el_wf (st_adapter s') ∧ same_setup s s' ∧ later (st_provider s) (st_provider s') ∧
  store_closed s' = store_closed s ∧
  match r with
  | Err _ => st_adapter s' = st_adapter s ∧ st_index s' = st_index s
  | Ok _ => ∃ recs now, evs ≠ [] ∧ sid ≠ "" ∧
      Forall2 (prepared c env (st_upcasters s) (st_serializer s) sid md tr (st_provider s')) evs recs ∧
      store_log s' = store_log s ++ LogSpec.newEvents (se_env env) sid now 0 (LogSpec.version sid (store_log s))
                                      (Z.of_nat (length (store_log s))) recs ∧
      CheckVersion sid exp (LogSpec.version sid (store_log s))
        (negb (bool_decide (LogSpec.stream sid (store_log s) = []))) = Ok tt ∧
      ∃ subs, prepareRecords c env fmt (st_upcasters s) (st_serializer s) sid md tr 0 evs [] ∅ (st_provider s) =
        (st_provider s', Ok (recs, subs))
  end.
Proof.
  intros Hwf Hfit. unfold writeEvents.
  pose proof (prepareRecords_later c env fmt (st_upcasters s) (st_serializer s) sid md tr 0 evs [] ∅ (st_provider s)) as Hl.
  destruct (prepareRecords _ _ _ _ _ _ _ _ _ _ _ _ _) as [p' [[recs subs]|err]] eqn:Ep; [|by intros [= <- <-]].
  cbn in Hl. pose proof Ep as Ep'. apply prepareRecords_Ok in Ep as (new & -> & Hnew). cbn [app] in Ep' |- *.
  pose proof (Forall2_length _ _ _ Hnew) as Hlen. unfold store_log in Hfit. rewrite Hlen in Hfit.
  destruct (el_Append (se_env env) sid new exp (st_adapter (set_provider s p'))) as [a' ra] eqn:Ea.
  pose proof (el_append_wf _ _ _ _ _ _ _ Hwf Hfit Ea) as Hwf'.
  pose proof (el_append_spec _ _ _ _ _ _ _ Hwf Hfit Ea) as [Hs He].
  destruct ra as [stored|err]; intros [= <- <-].
  - assert (∀ c env sid subs s0, let s1 := writeSubjectIndex c env sid subs s0 in
      st_adapter s1 = st_adapter s0 ∧ st_provider s1 = st_provider s0 ∧ same_setup s0 s1) as Hi.
    { intros c0 env0 sid0 subs0 s0. cbn zeta. unfold writeSubjectIndex.
      match goal with |- context [if ?b then _ else _] => by destruct b end. }
    destruct (Hi c (se_env env) sid subs (set_adapter (set_provider s p') a')) as (E1 & E2 & E3).
    unfold store_log, store_closed. rewrite E1, E2. cbn [st_adapter set_adapter st_provider set_provider].
    destruct (check_ctx (se_env env)); [|by destruct Hs]. apply LogSpec_append_Ok in Hs as (-> & Enew & Hc & Hsid & Hne & Hv).
    split; [done|]. split; [exact E3|]. split; [done|]. split; [by rewrite Hc|].
    exists new, (LogSpec.appendTime (se_env env) sid (LogSpec.log (el_view (st_adapter s)))).
    split; [intros ->; by apply Forall2_nil_inv_l in Hnew|]. split; [done|]. split; [done|]. split; [cbn; by f_equal|].
    split; [done|]. by exists subs.
  - assert (a' = st_adapter s) as -> by (by apply (He err)). done.
Qed.

(** ** The state of a store *)

(** The store holds [m]: each stream reads back as the events of [m]. *)
Definition represents c s (m : string → list V) : Prop :=
  el_wf (st_adapter s) ∧ upcasters_wf (st_upcasters s) ∧
  ∀ sid, (∀ i e, LogSpec.stream sid (store_log s) !! i = Some e → se_Version e = Z.of_nat i + 1) ∧
    Forall2 (reads_back c (st_upcasters s) (st_serializer s) (st_provider s)) (LogSpec.stream sid (store_log s)) (m sid).

(** The stream [sid] gets [evs] at its end. *)
Definition extend (sid : string) (evs : list V) (m : string → list V) : string → list V :=
  λ sid', if decide (sid' = sid) then m sid' ++ evs else m sid'.

Lemma represents_version c s m sid :
  represents c s m → LogSpec.version sid (store_log s) = Z.of_nat (length (m sid)).
Proof. intros (_ & _ & Hm). destruct (Hm sid) as [_ Hf]. unfold LogSpec.version. by rewrite (Forall2_length _ _ _ Hf). Qed.

Lemma represents_setup c s s' m :
  represents c s m → el_wf (st_adapter s') → same_setup s s' → later (st_provider s) (st_provider s') →
  store_log s' = store_log s → represents c s' m.
Proof.
  intros (_ & Hu & Hm) Hwf (E1 & E2 & _) Hl El. split; [done|]. split; [by rewrite E2|]. intros sid. rewrite El, E1, E2.
  destruct (Hm sid) as [Hv Hf]. split; [done|]. eapply Forall2_impl; [exact Hf|]. intros e v. by apply reads_back_later.
Qed.

Lemma autoRegister_known c (evs : list V) s :
  Forall (ser_known (st_serializer s)) evs → autoRegisterEvents c evs s = (s, Ok tt).
Proof.
  intros Hk. unfold autoRegisterEvents, RegisterEvents. destruct (es_autoRegister c); [|done].
  rewrite ser_register_known by done. by destruct s.
Qed.

(** A successful write of known events extends the stream; a failed one changes
    nothing. *)
Lemma writeEvents_versioned_represents c opts env fmt sid (evs : list V) md tr exp s s' r m :
  es_encryption c = NewFieldEncryptionConfig <$> opts → Forall (versioned c (st_upcasters s) tr md) evs →
  (∀ i, entropy_ok (se_entropy env i)) → Forall (ser_known (st_serializer s)) evs →
  represents c s m → Z.of_nat (length (store_log s) + length evs) ≤ MaxInt64 →
  writeEvents c env fmt sid evs md tr exp s = (s', r) →
  represents c s' (match r with Ok _ => extend sid evs m | Err _ => m end).
Proof.
  intros Hopts Hcs Hent Hk Hm Hfit Hw. pose proof Hm as (Hwf & Hup & Hst).
  apply writeEvents_spec in Hw as (Hwf' & Hsame & Hl & _ & Hr); [|done|done].
  destruct r as [[]|err].
  2: { eapply represents_setup; [done..|]. unfold store_log. by destruct Hr as [-> _]. }
  destruct Hr as (recs & now & _ & _ & Hrecs & Hlog & _). pose proof Hsame as (E1 & E2 & _).
  split; [done|]. split; [by rewrite E2|]. intros sid'. rewrite Hlog, E1, E2.
  assert (∀ l l', LogSpec.stream sid' (l ++ l') = LogSpec.stream sid' l ++ LogSpec.stream sid' l') as ->
    by (intros; apply filter_app).
  destruct (Hst sid') as [Hv Hf].
  assert (Forall2 (reads_back c (st_upcasters s) (st_serializer s) (st_provider s')) (LogSpec.stream sid' (store_log s)) (m sid')) as Hf'
    by (eapply Forall2_impl; [exact Hf|]; intros e v; by apply reads_back_later).
  unfold extend. destruct (decide (sid' = sid)) as [->|Hne].
  2: { rewrite stream_newEvents_ne, app_nil_r by done. done. }
  rewrite stream_newEvents. set (new := LogSpec.newEvents _ _ _ _ _ _ _). split.
  - intros i e. destruct (decide (i < length (LogSpec.stream sid (store_log s)))%nat).
    + rewrite lookup_app_l by done. apply Hv.
    + rewrite lookup_app_r by lia. intros He. apply newEvents_lookup in He as (_ & Hve & _).
      rewrite Hve. unfold LogSpec.version. lia.
  - apply Forall2_app; [done|]. unfold new.
    eapply Forall2_compose; [|exact (Forall2_and_l _ _ _ _ Hk (Forall2_and_l _ _ _ _ Hcs Hrecs))|apply newEvents_payload].
    intros v r e (Hkv & Hvv & j & p0 & p1 & ed & ed' & Hs & Hp & Hl1 & ->) (Hsid & Ht & Hd & Hmd). cbn in Ht, Hd, Hmd.
    eapply reads_back_later; [exact Hl1|]. by eapply prepared_reads_back.
Qed.

Lemma writeEvents_represents c opts env fmt sid (evs : list V) md exp s s' r m :
  es_encryption c = NewFieldEncryptionConfig <$> opts → es_callerSchemaVersion c = false →
  (∀ i, entropy_ok (se_entropy env i)) → Forall (ser_known (st_serializer s)) evs →
  represents c s m → Z.of_nat (length (store_log s) + length evs) ≤ MaxInt64 →
  writeEvents c env fmt sid evs md false exp s = (s', r) →
  represents c s' (match r with Ok _ => extend sid evs m | Err _ => m end).
Proof.
  intros Hopts Hcs. eapply writeEvents_versioned_represents; [exact Hopts|].
  apply Forall_forall. intros v _. by apply untrusted_versioned.
Qed.

(** The same for [Append]. *)
Lemma Append_versioned_represents c opts env sid (evs : list V) cfg s s' r m :
  es_encryption c = NewFieldEncryptionConfig <$> opts →
  Forall (versioned c (st_upcasters s) (ac_trustedMetadata cfg) (ac_metadata cfg)) evs →
  (∀ i, entropy_ok (se_entropy env i)) → Forall (ser_known (st_serializer s)) evs →
  represents c s m → Z.of_nat (length (store_log s) + length evs) ≤ MaxInt64 →
  Append c env sid evs cfg s = (s', r) →
  represents c s' (match r with Ok _ => extend sid evs m | Err _ => m end) ∧ same_setup s s' ∧
  store_closed s' = store_closed s ∧
  length (store_log s') = (length (store_log s) + match r with Ok _ => length evs | Err _ => 0 end)%nat ∧
  (r = Ok tt → CheckVersion sid (ac_expectedVersion cfg) (Z.of_nat (length (m sid))) (negb (bool_decide (m sid = []))) = Ok tt).
Proof.
  intros Hopts Hcs Hent Hk Hm Hfit. unfold Append.
  destruct (es_serializerErr c); [intros [= <- <-]; cbn [length]; by rewrite Nat.add_0_r|].
  case_bool_decide; [intros [= <- <-]; by rewrite Nat.add_0_r|].
  case_bool_decide; [intros [= <- <-]; by rewrite Nat.add_0_r|].
  rewrite autoRegister_known by done. destruct (_ <? _); [intros [= <- <-]; by rewrite Nat.add_0_r|].
  intros Hw. split; [by eapply writeEvents_versioned_represents|].
  apply writeEvents_spec in Hw as (_ & Hsame & _ & Hcl & Hr); [|by destruct Hm|done].
  split; [done|]. split; [done|]. destruct r as [[]|err].
  - destruct Hr as (recs & now & _ & _ & Hrecs & -> & Hcv & _).
    rewrite length_app, newEvents_length, (Forall2_length _ _ _ Hrecs). split; [done|]. intros _.
    rewrite (represents_version c s m sid Hm) in Hcv.
    rewrite <- Hcv. do 2 f_equal. apply bool_decide_ext. pose proof (represents_version c s m sid Hm) as Hver.
    unfold LogSpec.version in Hver. rewrite <- !length_zero_iff_nil. lia.
  - split; [|done]. unfold store_log. destruct Hr as [-> _]. lia.
Qed.

Lemma Append_represents c opts env sid (evs : list V) cfg s s' r m :
  es_encryption c = NewFieldEncryptionConfig <$> opts → es_callerSchemaVersion c = false →
  (∀ i, entropy_ok (se_entropy env i)) → Forall (ser_known (st_serializer s)) evs → ac_trustedMetadata cfg = false →
  represents c s m → Z.of_nat (length (store_log s) + length evs) ≤ MaxInt64 →
  Append c env sid evs cfg s = (s', r) →
  represents c s' (match r with Ok _ => extend sid evs m | Err _ => m end) ∧ same_setup s s' ∧
  store_closed s' = store_closed s ∧
  length (store_log s') = (length (store_log s) + match r with Ok _ => length evs | Err _ => 0 end)%nat.
Proof.
  intros Hopts Hcs Hent Hk Ht Hm Hfit Ha. eapply Append_versioned_represents in Ha as (? & ? & ? & ? & _); [done|done| |done..].
  rewrite Ht. apply Forall_forall. intros v _. by apply untrusted_versioned.
Qed.

(** ** Reading *)

Lemma deserializeAll_reads c env up ser i stored vs acc (p : P) :
  Forall2 (reads_back c up ser p) stored vs →
  ∃ q, later p q ∧
    deserializeAll c env up ser i stored acc p = (q, Ok (acc ++ zip_with EventFromStored stored vs)).
Proof.
  intros Hf. revert i vs acc p Hf. induction stored as [|e stored IH]; intros i vs acc p Hf; inversion Hf as [|? v ? vs' Hr Hf']; subst.
  { exists p. split; [done|]. cbn. by rewrite app_nil_r. }
  cbn [deserializeAll]. destruct Hr as (_ & _ & Hr). destruct (Hr (se_now env i) p ltac:(done)) as (q & Hl & ->).
  edestruct (IH (S i) vs' (acc ++ [EventFromStored e v]) q) as (q' & Hl' & ->).
  { eapply Forall2_impl; [exact Hf'|]. intros x y. by apply reads_back_later. }
  exists q'. split; [by etransitivity|]. by rewrite <- app_assoc.
Qed.

(** Versions count from one, so a version is a place in the stream. *)
Lemma filter_versions (l : list StoredEvent) (off n : Z) :
  (∀ i e, l !! i = Some e → se_Version e = off + Z.of_nat i + 1) → off ≤ n →
  filter (λ e, n < se_Version e) l = drop (Z.to_nat (n - off)) l.
Proof.
  revert off. induction l as [|e l IH]; intros off Hl Hn; [by rewrite drop_nil|].
  pose proof (Hl 0%nat e eq_refl) as He. rewrite filter_cons. case_decide.
  - replace (Z.to_nat (n - off)) with 0%nat by lia. cbn [drop]. f_equal.
    apply list_filter_all. intros x [j Hj]%list_elem_of_lookup. specialize (Hl (S j) x Hj). lia.
  - rewrite (IH (off + 1)); [|intros j x Hj; rewrite (Hl (S j) x Hj); lia|lia].
    replace (Z.to_nat (n - off)) with (S (Z.to_nat (n - (off + 1)))) by lia. done.
Qed.

Lemma load_represents c env sid n s m :
  represents c s m → check_ctx env = Ok tt → store_closed s = false → sid ≠ "" → 0 ≤ n →
  el_Load env sid n (st_adapter s) = Ok (drop (Z.to_nat n) (LogSpec.stream sid (store_log s))).
Proof.
  intros (Hwf & _ & Hm) Hctx Hc Hsid Hn. rewrite el_load_spec by done. unfold LogSpec.load.
  unfold store_closed in Hc. rewrite Hctx, Hc, bool_decide_false by done. cbn. f_equal.
  destruct (Hm sid) as [Hv _]. rewrite (filter_versions _ 0); [by rewrite Z.sub_0_r| |done].
  intros i e Hi. by rewrite (Hv i e Hi).
Qed.

Lemma LoadFrom_represents c env sid n s m :
  represents c s m → check_ctx (se_env env) = Ok tt → store_closed s = false → sid ≠ "" → 0 ≤ n →
  ∃ q, later (st_provider s) q ∧ LoadFrom c env sid n s =
    (set_provider s q, Ok (zip_with EventFromStored (drop (Z.to_nat n) (LogSpec.stream sid (store_log s)))
                             (drop (Z.to_nat n) (m sid)))).
Proof.
  intros Hm Hctx Hc Hsid Hn. unfold LoadFrom. rewrite bool_decide_false by done.
  erewrite load_represents by done. destruct Hm as (_ & _ & Hm). destruct (Hm sid) as [_ Hf].
  edestruct (deserializeAll_reads c env (st_upcasters s) (st_serializer s) 0 _ _ [] (st_provider s)
    (Forall2_drop _ _ _ (Z.to_nat n) Hf)) as (q & Hl & ->). by exists q.
Qed.

Lemma replay_reads {G} `{Aggregate V G} c env up ser sid i stored vs (p : P) w (g : G) :
  Forall2 (reads_back c up ser p) stored vs →
  ∃ q, later p q ∧ replay c env up ser sid i stored (p, w, g) =
    match ReplayEvents agg_ApplyEvent vs g with
    | (g', Ok _) => ((q, w, g'), Ok tt)
    | (g', Err err) => ((q, w, g'), Err (Wrapf "mink: failed to apply event %d: %w" err))
    end.
Proof.
  intros Hf. revert i vs p g Hf. induction stored as [|e stored IH]; intros i vs p g Hf;
    inversion Hf as [|? v ? vs' Hr Hf']; subst; [by exists p|].
  cbn [replay ReplayEvents]. destruct Hr as (Hk & Hty & Hr).
  destruct (Hr (se_now env i) p ltac:(done)) as (q & Hl & ->). cbn [ev_Data EventFromStored].
  assert (isUnresolvedReplayType ser e v = false) as ->.
  { unfold isUnresolvedReplayType. pose proof (ser_resolved ser v Hk) as Hs. rewrite Hty.
    destruct ser_IsRegistered; [by rewrite Hs|done]. }
  cbn [andb]. destruct (agg_ApplyEvent v g) as [g' [[]|err]]; [|by exists q].
  edestruct (IH (S i) vs' q g') as (q' & Hl' & ->).
  { eapply Forall2_impl; [exact Hf'|]. intros x y. by apply reads_back_later. }
  exists q'. split; [by etransitivity|done].
Qed.

(** ** Aggregates *)

Lemma represents_ext c s m m' : (∀ sid, m sid = m' sid) → represents c s m → represents c s m'.
Proof. intros He (Hw & Hu & Hm). split; [done|]. split; [done|]. intros sid. rewrite <- He. apply Hm. Qed.


Lemma SaveAggregate_represents {G} `{Aggregate V G} c (opts : option (list EncryptionOption)) env s s' (g g' : G) r (m : string → list V) :
  es_encryption c = NewFieldEncryptionConfig <$> opts → es_callerSchemaVersion c = false →
  (∀ i, entropy_ok (se_entropy env i)) → Forall (ser_known (st_serializer s)) (agg_UncommittedEvents g) →
  represents c s m → Z.of_nat (length (store_log s) + length (agg_UncommittedEvents g)) ≤ MaxInt64 →
  SaveAggregate c env (s, g) = ((s', g'), r) →
  let sid := aggregateStream g in
  let evs := agg_UncommittedEvents g in
  represents c s' (match r with Ok _ => extend sid evs m | Err _ => m end) ∧
  match r with
  | Err _ => g' = g ∧ st_adapter s' = st_adapter s ∧ st_index s' = st_index s
  | Ok _ =>
      (evs = [] ∧ s' = s ∧ g' = g) ∨
      (evs ≠ [] ∧
       g' = agg_ClearUncommittedEvents (recordVersion (i64 (agg_Version g + Z.of_nat (length evs))) g) ∧
       (agg_Version g = AnyVersion ∨ (agg_Version g = StreamExists ∧ m sid ≠ []) ∨
        agg_Version g = Z.of_nat (length (m sid))))
  end.
Proof.
  intros Hopts Hcs Hent Hk Hm Hfit Hsave sid evs. revert Hsave. unfold SaveAggregate. fold evs in Hk, Hfit |- *.
  destruct (es_serializerErr c); [by intros [= <- <- <-]|].
  case_bool_decide as He.
  { intros [= <- <- <-]. apply nil_length_inv in He. split; [|by left]. eapply represents_ext; [|exact Hm].
    intros sid'. unfold extend. rewrite He, app_nil_r. by case_decide. }
  rewrite autoRegister_known by done.
  destruct (writeEvents _ _ _ _ _ _ _ _ s) as [s1 r1] eqn:Ew.
  pose proof Ew as Hr. eapply writeEvents_represents in Ew; [|done..].
  apply writeEvents_spec in Hr as (_ & _ & _ & _ & Hr); [|by destruct Hm|done]. fold sid in Ew, Hr.
  destruct r1 as [[]|err]; intros [= <- <- <-]; [|by split].
  split; [exact Ew|]. right. destruct Hr as (recs & now & Hne & _ & _ & _ & Hcv & _). split; [done|]. split; [done|].
  pose proof (represents_version c s m sid Hm) as Hver. rewrite Hver in Hcv.
  assert (LogSpec.stream sid (store_log s) = [] ↔ m sid = []) as Hnil.
  { unfold LogSpec.version in Hver. rewrite <- !length_zero_iff_nil. lia. }
  apply CheckVersion_Ok in Hcv as [?|[[E1 E2]|[[E1 E2]|[E1 E2]]]]; [by left| | |by right; right].
  - right; right. zbool. apply Hnil in E2. by rewrite E2.
  - right; left. split; [done|]. zbool. tauto.
Qed.

Lemma LoadAggregate_replays {G} `{Aggregate V G} c env s (g : G) (m : string → list V) :
  represents c s m → check_ctx (se_env env) = Ok tt → store_closed s = false →
  ∃ q, later (st_provider s) q ∧
    LoadAggregate c env (s, g) =
    match ReplayEvents agg_ApplyEvent (m (aggregateStream g)) g with
    | (g', Ok _) =>
        ((set_provider s q, recordVersion (Z.of_nat (length (m (aggregateStream g)))) g'), Ok tt)
    | (g', Err err) => ((set_provider s q, g'), Err (Wrapf "mink: failed to apply event %d: %w" err))
    end.
Proof.
  intros Hm Hctx Hcl. unfold LoadAggregate. set (sid := aggregateStream g).
  assert (sid ≠ "") as Hsid.
  { unfold sid, aggregateStream. intros E. apply (f_equal String.length) in E. rewrite length_append, app_String in E.
    cbn in E. lia. }
  erewrite load_represents by done. change (Z.to_nat 0) with 0%nat. rewrite drop_0.
  destruct Hm as (_ & _ & Hm). destruct (Hm sid) as [_ Hf].
  rewrite (Forall2_length _ _ _ Hf).
  edestruct (replay_reads c env (st_upcasters s) (st_serializer s) sid 0 _ _ (st_provider s) (st_replayWarned s) g Hf)
    as (q & Hl & ->). exists q. split; [done|].
  destruct (ReplayEvents _ _ _) as [g' [[]|err]]; by destruct s.
Qed.
End Refinement.
