(* ===== verification/StoreTheorems.v ===== *)
(** * The event store: properties

    What a program that appends, saves, loads and replays through
    [EventStore] observes, over any event log, key provider and serializer
    that keep their contracts.  The witnesses run it on the in-memory adapter
    with the local key provider. *)

From S2P Require Import Prelude.
From S2P Require Import Types.
From S2P Require Import Common.
From S2P Require Import Strconv.
From S2P Require Import Utf8.
From S2P Require Import Json.
From S2P Require Import JsonRoundtrip.
From S2P Require Import Crypto.
From S2P Require Import LocalProvider.
From S2P Require Import Subject.
From S2P Require Import FieldEncryption.
From S2P Require Import FieldTheorems.
From S2P Require Import MemoryAdapter.
From S2P Require Import LogInvariant.
From S2P Require Import MemoryTheorems.
From S2P Require Import Versioning.
From S2P Require Import EventLog.
From S2P Require Import Aggregate.
From S2P Require Import EventStore.
From S2P Require Import StoreRefinement.
From Stdlib Require Import Strings.Byte.

(** ** Programs that append *)

Record appendCall (V : Type) := mkAppendCall {
  call_env : StoreEnv;
  call_stream : string;
  call_events : list V;
  call_config : appendConfig;
}.
Arguments mkAppendCall {V} _ _ _ _.
Arguments call_env {V} _.
Arguments call_stream {V} _.
Arguments call_events {V} _.
Arguments call_config {V} _.

(** The events of the successful calls on a stream, in order. *)
Fixpoint accepted {V} (sid : string) (calls : list (appendCall V)) (rs : list (res unit)) : list V :=
  match calls, rs with
  | call :: calls, r :: rs =>
      (if is_ok r && bool_decide (call_stream call = sid) then call_events call else []) ++ accepted sid calls rs
  | _, _ => []
  end.

Definition offered {V} (calls : list (appendCall V)) : nat := sum_list (length ∘ call_events <$> calls).

Section Theorems.
Context {A P V Ser X : Type}.
Context `{AEADLaws} `{ProviderOps P} `{!ProviderLaws P} `{!ProviderStable P}.
Context `{EventLogOps A} `{!EventLogLaws A} `{SerializerOps V Ser} `{!SerializerLaws V Ser}.
Context `{SubjectIndexWriter X} `{MapOrder}.
Implicit Types s : Store A P Ser X.
Implicit Types c : EventStore.

Fixpoint runAppends c (calls : list (appendCall V)) s : Store A P Ser X * list (res unit) :=
  match calls with
  | [] => (s, [])
  | call :: calls =>
      let '(s, r) := Append c (call_env call) (call_stream call) (call_events call) (call_config call) s in
      let '(s, rs) := runAppends c calls s in (s, r :: rs)
  end.

(** A caller without replication privileges, with events the serializer knows. *)
Definition call_ok (ser : Ser) (call : appendCall V) : Prop :=
  Forall (ser_known ser) (call_events call) ∧ ac_trustedMetadata (call_config call) = false ∧
  ∀ i, entropy_ok (se_entropy (call_env call) i).

Lemma runAppends_represents c opts calls s s' rs m :
  es_encryption c = NewFieldEncryptionConfig <$> opts → es_callerSchemaVersion c = false →
  Forall (call_ok (st_serializer s)) calls → represents c s m →
  Z.of_nat (length (store_log s) + offered calls) ≤ MaxInt64 → runAppends c calls s = (s', rs) →
  represents c s' (λ sid, m sid ++ accepted sid calls rs) ∧ store_closed s' = store_closed s ∧
  st_serializer s' = st_serializer s.
Proof.
  intros Hopts Hcs. revert s s' rs m. induction calls as [|call calls IH]; intros s s' rs m Hok Hm Hfit; cbn [runAppends].
  { intros [= <- <-]. split; [|done]. eapply represents_ext; [|done]. intros sid. by rewrite app_nil_r. }
  unfold offered in Hfit. cbn in Hfit. apply Forall_cons in Hok as [(Hk & Ht & He) Hok].
  destruct (Append _ _ _ _ _ s) as [s1 r] eqn:Ea.
  eapply Append_represents in Ea as (Hm1 & (E1 & _) & Hc1 & Hl1); [|done..|lia].
  destruct (runAppends c calls s1) as [s2 rs2] eqn:Er. intros [= <- <-].
  eapply IH in Er as (Hm2 & Hc2 & Hs2); [|by rewrite E1|exact Hm1|unfold offered; destruct r; lia].
  rewrite Hc2, Hs2. split; [|done]. eapply represents_ext; [|exact Hm2]. intros sid. cbn [accepted].
  unfold extend. destruct r as [[]|err]; cbn [is_ok andb app]; [|done].
  destruct (decide (sid = call_stream call)) as [->|Hne].
  - by rewrite bool_decide_true, <- app_assoc.
  - by rewrite bool_decide_false.
Qed.

Lemma zip_EventFromStored (l : list StoredEvent) (vs : list V) :
  length l = length vs → ev_Data <$> zip_with EventFromStored l vs = vs.
Proof. revert vs. induction l as [|e l IH]; intros [|v vs]; cbn; intros [=]; [done|]. f_equal; auto. Qed.

(** C35: loading a stream from a version returns exactly the events that the
    successful appends to that stream put after that version, in order and
    under consecutive versions, whatever failed in between and whatever other
    streams got: sealing and opening their fields, stamping their metadata,
    upcasting and serializing them is invisible. *)
Theorem store_holds_appended_events c (opts : option (list EncryptionOption)) (calls : list (appendCall V)) s s' rs :
  es_encryption c = NewFieldEncryptionConfig <$> opts → es_callerSchemaVersion c = false →
  el_wf (st_adapter s) → upcasters_wf (st_upcasters s) → store_log s = [] → store_closed s = false →
  Forall (call_ok (st_serializer s)) calls → Z.of_nat (offered calls) ≤ MaxInt64 →
  runAppends c calls s = (s', rs) →
  ∀ env sid (n : nat), sid ≠ "" → check_ctx (se_env env) = Ok tt →
  ∃ s2 evs, LoadFrom c env sid (Z.of_nat n) s' = (s2, Ok evs) ∧
    ev_Data <$> evs = drop n (accepted sid calls rs) ∧
    ∀ i e, evs !! i = Some e → ev_Version e = Z.of_nat (n + i) + 1 ∧ ev_StreamID e = sid.
Proof.
  intros Hopts Hcs Hwf Hup Hlog Hcl Hok Hfit Hrun env sid n Hsid Hctx.
  assert (represents c s (λ _, [])) as Hm0.
  { split; [done|]. split; [done|]. intros sid'. rewrite Hlog. split; [|constructor]. by intros i e. }
  eapply runAppends_represents in Hrun as (Hm & Hc' & _); [|done..|by rewrite Hlog].
  edestruct (LoadFrom_represents c env sid (Z.of_nat n) s' _ Hm) as (q & _ & Hload);
    [done|congruence|done|lia|]. rewrite Nat2Z.id in Hload.
  eexists _, _. split; [exact Hload|]. destruct Hm as (_ & _ & Hm). destruct (Hm sid) as [Hv Hf]. split.
  - apply zip_EventFromStored. rewrite !length_drop. by rewrite (Forall2_length _ _ _ Hf).
  - intros i e Hi. rewrite lookup_zip_with in Hi. apply bind_Some in Hi as (x & Hx & Hi).
    apply bind_Some in Hi as (y & _ & [= <-]). rewrite lookup_drop in Hx. cbn. split; [by apply Hv|].
    apply list_elem_of_lookup_2, list_elem_of_filter in Hx. by destruct Hx.
Qed.

(** C36: saving an aggregate is atomic and optimistic: it either fails, and
    then the log, the subject index and the aggregate are as before, or it
    appends exactly the uncommitted events, which were based on the stream's
    current version unless the aggregate asked for no check, advances the
    aggregate's version by their number and clears them. *)
Theorem save_aggregate_optimistic {G} `{Aggregate V G} c (opts : option (list EncryptionOption)) env s s' (g g' : G) r (m : string → list V) :
  es_encryption c = NewFieldEncryptionConfig <$> opts → es_callerSchemaVersion c = false →
  (∀ i, entropy_ok (se_entropy env i)) → Forall (ser_known (st_serializer s)) (agg_UncommittedEvents g) →
  represents c s m → Z.of_nat (length (store_log s) + length (agg_UncommittedEvents g)) ≤ MaxInt64 →
  SaveAggregate c env (s, g) = ((s', g'), r) →
  let sid := aggregateStream g in
  let evs := agg_UncommittedEvents g in
  represents c s' (match r with Ok _ => extend sid evs m | Err _ => m end) ∧
  match r with
  | Err _ => g' = g ∧ st_adapter s' = st_adapter s ∧ st_index s' = st_index s
  | Ok _ =>
      (evs = [] ∧ s' = s ∧ g' = g) ∨
      (evs ≠ [] ∧
       g' = agg_ClearUncommittedEvents (recordVersion (i64 (agg_Version g + Z.of_nat (length evs))) g) ∧
       (agg_Version g = AnyVersion ∨ (agg_Version g = StreamExists ∧ m sid ≠ []) ∨
        agg_Version g = Z.of_nat (length (m sid))))
  end.
Proof. apply SaveAggregate_represents. Qed.

(** C37: loading an aggregate replays exactly the events its stream holds, in
    order, through [ApplyEvent] onto the instance passed in, as [ReplayEvents]
    does; on success the version recorded is the stream's, and the first event
    the aggregate refuses stops the replay and is reported. *)
Theorem load_aggregate_replays {G} `{Aggregate V G} c env s (g : G) (m : string → list V) :
  represents c s m → check_ctx (se_env env) = Ok tt → store_closed s = false →
  ∃ q, later (st_provider s) q ∧
    LoadAggregate c env (s, g) =
    match ReplayEvents agg_ApplyEvent (m (aggregateStream g)) g with
    | (g', Ok _) =>
        ((set_provider s q, recordVersion (Z.of_nat (length (m (aggregateStream g)))) g'), Ok tt)
    | (g', Err err) => ((set_provider s q, g'), Err (Wrapf "mink: failed to apply event %d: %w" err))
    end.
Proof. apply LoadAggregate_replays. Qed.
End Theorems.

(** ** A concrete store

    The in-memory adapter, the local key provider, a serializer with a
    registry, an index and an upcaster. *)

Record SampleEvent := mkSampleEvent { sv_type : string; sv_email : string }.

Definition sampleSerialize (v : SampleEvent) : res Bytes :=
  Ok (stringToBytes (print (JObject [("email", JString (sv_email v))]))).

Definition sampleDeserialize (d : Bytes) (t : string) (registered : list string) : res SampleEvent :=
  if bool_decide (t ∈ registered) then
    match decodeObject d ≫= objGet "email" with
    | Some (JString email) => Ok (mkSampleEvent t email)
    | _ => Err (External "json")
    end
  else Err (External "not registered").

#[local] Instance sampleSerializer : SerializerOps SampleEvent (list string) := {|
  ser_GetEventType := sv_type;
  ser_Serialize v _ := sampleSerialize v;
  ser_Deserialize := sampleDeserialize;
  ser_RegisterAll vs registered :=
    (foldl (λ r v, if bool_decide (sv_type v ∈ r) then r else sv_type v :: r) registered vs, Ok tt);
  ser_IsRegistered := Some (λ t registered, bool_decide (t ∈ registered));
  ser_isMap _ := false;
  ser_BinaryFormat := false;
|}.

Lemma sampleObject_decodes email :
  utf8 email →
  decodeObject (stringToBytes (print (JObject [("email", JString email)]))) = Some [("email", JString email)].
Proof.
  intros Hu. apply decodeObject_print. constructor; [done|repeat constructor|by repeat constructor; apply utf8_ascii|].
  constructor; [by constructor|constructor].
Qed.

Lemma sampleSerialize_decodes (v : SampleEvent) d :
  utf8 (sv_email v) → sampleSerialize v = Ok d → decodeObject d = Some [("email", JString (sv_email v))].
Proof.
  unfold sampleSerialize. intros Hu. rewrite <- (sampleObject_decodes (sv_email v) Hu).
  generalize (stringToBytes (print (JObject [("email", JString (sv_email v))]))). by intros b [= <-].
Qed.

Lemma sampleDeserialize_decoded (v : SampleEvent) d registered :
  sv_type v ∈ registered → decodeObject d = Some [("email", JString (sv_email v))] →
  sampleDeserialize d (sv_type v) registered = Ok v.
Proof. intros Ht Hd. unfold sampleDeserialize. rewrite bool_decide_true, Hd by done. by destruct v. Qed.

#[local] Instance sampleSerializer_laws : SerializerLaws SampleEvent (list string).
Proof.
  refine {| ser_known registered v := sv_type v ∈ registered ∧ utf8 (sv_email v) |}.
  - intros registered v d [Ht Hu] Hs. apply sampleDeserialize_decoded; [done|]. by apply sampleSerialize_decodes.
  - intros registered v d m [Ht Hu] Hs Hm. apply sampleDeserialize_decoded; [done|].
    rewrite (sampleSerialize_decodes v d) in Hm by done. injection Hm as <-. by apply sampleObject_decodes.
  - intros registered vs. induction 1 as [|v vs [Hv _] Hvs IH]; [done|]. cbn. by rewrite bool_decide_true.
  - intros registered v [Hv _]. by apply bool_decide_true.
Defined.

#[local] Existing Instance toyAEAD.
#[local] Existing Instance toyAEAD_laws.
#[local] Existing Instance listOrder.
#[local] Instance sampleLog : EventLogOps MemoryAdapter := memory_log_ops (λ _ _, 0%nat).
#[local] Instance sampleLog_laws : EventLogLaws MemoryAdapter := memory_log_laws (λ _ _, 0%nat).
#[local] Instance sampleIndex : SubjectIndexWriter (list (string * list string)) :=
  λ _ streamID subjects index, ((streamID, subjects) :: index, Ok tt).

Definition sampleConfig : EventStore :=
  mkEventStore (Some (NewFieldEncryptionConfig sampleFieldOptions)) 10000 (Some (λ _ _ _, ["user-7"]))
    true false false true true None.

Definition sampleUpcaster : Upcaster := mkUpcaster "UserRegistered" 1 2 (λ d _, Ok d).

Definition sampleStore : Store MemoryAdapter Provider (list string) (list (string * list string)) :=
  mkStore NewAdapter sampleProvider ["UserRegistered"] [] (Some (@registerAll stableSlice [sampleUpcaster])) ∅.

Definition sampleStoreEnv : StoreEnv := mkStoreEnv sampleEnv (λ _, 5) (λ _, sampleEntropy).

(** The second call expects a version the stream is past. *)
Definition sampleCalls : list (appendCall SampleEvent) :=
  let ev email := mkSampleEvent "UserRegistered" email in
  let to v := mkAppendConfig emptyMetadata v false in
  [mkAppendCall sampleStoreEnv "User-1" [ev "a@b.c"; ev "d@e.f"] (to 0);
   mkAppendCall sampleStoreEnv "User-1" [ev "lost@g.h"] (to 1);
   mkAppendCall sampleStoreEnv "User-2" [ev "i@j.k"] (to AnyVersion);
   mkAppendCall sampleStoreEnv "User-1" [ev "l@m.n"] (to 2)].

Lemma sampleEntropy_ok : entropy_ok sampleEntropy.
Proof. split; [reflexivity|]. split; [reflexivity|]. intros n. reflexivity. Qed.

Lemma sampleUpcasters_wf : upcasters_wf (st_upcasters sampleStore).
Proof.
  intros ch [= <-]. split.
  - apply registerAll_ok. repeat constructor.
  - intros t. unfold LatestVersion.
    assert (uc_latest (@registerAll stableSlice [sampleUpcaster]) = <["UserRegistered" := 2]> ∅) as -> by reflexivity.
    destruct (decide (t = "UserRegistered")) as [->|Hne]; [by rewrite lookup_insert_eq|].
    by rewrite lookup_insert_ne, lookup_empty.
Qed.

Lemma sampleCalls_ok : Forall (call_ok (st_serializer sampleStore)) sampleCalls.
Proof.
  repeat constructor; cbn; try apply sampleEntropy_ok; try set_solver; apply utf8_ascii; reflexivity.
Qed.

Definition sampleRun := runAppends sampleConfig sampleCalls sampleStore.

Lemma sampleStore_empty : represents sampleConfig sampleStore (λ _, []).
Proof.
  split; [exact NewAdapter_wf|]. split; [exact sampleUpcasters_wf|]. intros sid. split; [by intros i e|constructor].
Qed.

Lemma store_holds_appended_events_witness :
  ∃ s2 evs, LoadFrom sampleConfig sampleStoreEnv "User-1" 1 sampleRun.1 = (s2, Ok evs) ∧
    ev_Data <$> evs = [mkSampleEvent "UserRegistered" "d@e.f"; mkSampleEvent "UserRegistered" "l@m.n"].
Proof.
  destruct (store_holds_appended_events sampleConfig (Some sampleFieldOptions) sampleCalls sampleStore
    sampleRun.1 sampleRun.2 eq_refl eq_refl ltac:(exact NewAdapter_wf) sampleUpcasters_wf eq_refl eq_refl
    sampleCalls_ok ltac:(vm_compute; discriminate) (surjective_pairing _) sampleStoreEnv "User-1" 1%nat
    ltac:(discriminate) eq_refl) as (s2 & evs & Hl & He & _).
  exists s2, evs. split; [exact Hl|]. rewrite He. vm_compute. reflexivity.
Defined.

(** An aggregate that collects the addresses. *)
#[local] Instance sampleAggregate : Aggregate SampleEvent (embedded SampleEvent (list string)) :=
  embeddedAggregate (λ v g, (mkEmbedded (em_base g) (em_state g ++ [sv_email v]), Ok tt)).

Definition sampleUser (events : list SampleEvent) : embedded SampleEvent (list string) :=
  mkEmbedded (foldl (λ b v, Apply v b) (NewAggregateBase "1" "User") events) [].

Definition sampleChanges : list SampleEvent :=
  [mkSampleEvent "UserRegistered" "a@b.c"; mkSampleEvent "UserRegistered" "d@e.f"].

Definition sampleSave := SaveAggregate sampleConfig sampleStoreEnv (sampleStore, sampleUser sampleChanges).

Lemma sampleSave_ok : is_ok sampleSave.2 = true.
Proof. vm_compute. reflexivity. Qed.

Lemma save_aggregate_optimistic_witness :
  represents sampleConfig sampleSave.1.1 (extend "User-1" sampleChanges (λ _, [])) ∧
  ab_version (em_base sampleSave.1.2) = 2 ∧ ab_uncommittedEvents (em_base sampleSave.1.2) = [].
Proof.
  assert (Forall (ser_known (st_serializer sampleStore)) (agg_UncommittedEvents (sampleUser sampleChanges))) as Hk.
  { repeat constructor; cbn; try set_solver; apply utf8_ascii; reflexivity. }
  pose proof (save_aggregate_optimistic sampleConfig (Some sampleFieldOptions) sampleStoreEnv sampleStore sampleSave.1.1
    (sampleUser sampleChanges) sampleSave.1.2 sampleSave.2 (λ _, []) eq_refl eq_refl (λ _, sampleEntropy_ok) Hk
    sampleStore_empty ltac:(vm_compute; discriminate)) as H.
  specialize (H ltac:(fold sampleSave; by destruct sampleSave as [[? ?] ?])). cbn zeta in H.
  pose proof sampleSave_ok as Hok. destruct sampleSave as [[s' g'] [[]|]]; [|discriminate Hok].
  destruct H as [Hm [(Hn & _)|(_ & Hg & _)]]; [discriminate Hn|].
  split; [exact Hm|]. cbn [fst snd] in Hg |- *. rewrite Hg. split; reflexivity.
Defined.

Lemma load_aggregate_replays_witness :
  ∃ q, LoadAggregate sampleConfig sampleStoreEnv (sampleRun.1, sampleUser []) =
    ((set_provider sampleRun.1 q,
      mkEmbedded (mkAggregateBase "1" "User" 3 3 []) ["a@b.c"; "d@e.f"; "l@m.n"]), Ok tt).
Proof.
  destruct (runAppends_represents sampleConfig (Some sampleFieldOptions) sampleCalls sampleStore
    sampleRun.1 sampleRun.2 (λ _, []) eq_refl eq_refl sampleCalls_ok sampleStore_empty
    ltac:(vm_compute; discriminate) (surjective_pairing _)) as (Hm & Hc & _).
  destruct (load_aggregate_replays sampleConfig sampleStoreEnv sampleRun.1 (sampleUser []) _ Hm eq_refl Hc)
    as (q & _ & Hl).
  exists q. rewrite Hl. vm_compute. reflexivity.
Defined.
