(* ===== verification/AggregateHandler.v ===== *)
(** * Commands on aggregates

    [AggregateHandler] of [src/handler.go]: load the aggregate, let the user's
    executor decide on events, save them.  The state of the bus is the event
    store with whatever else the application keeps; the executor may do anything
    to it, so what other writers do meanwhile is part of what it does. *)

From S2P Require Import Prelude.
From S2P Require Import Types.
From S2P Require Import Common.
From S2P Require Import Crypto.
From S2P Require Import FieldEncryption.
From S2P Require Import Subject.
From S2P Require Import FieldTheorems.
From S2P Require Import EventLog.
From S2P Require Import Aggregate.
From S2P Require Import EventStore.
From S2P Require Import StoreRefinement.
From S2P Require Import LocalProvider.
From S2P Require Import MemoryAdapter.
From S2P Require Import MemoryTheorems.
From S2P Require Import Utf8.
From S2P Require Import StoreTheorems.
From S2P Require Import Command.
From S2P Require Import CommandBus.

Section Handler.
Context {A P V Ser X T C G : Type}.
Context `{AEAD} `{EventLogOps A} `{ProviderOps P} `{SerializerOps V Ser} `{SubjectIndexWriter X} `{MapOrder}.
Context `{Aggregate V G}.

Abbreviation bus := (World (Store A P Ser X * T)).

(** [C] is the type of the commands: [ah_zero] the type the zero value names,
    [ah_cast] the type assertion. *)
Record AggregateHandler := mkAggregateHandler {
  ah_zero : string;
  ah_cast : Command → option C;
  ah_AggregateID : C → string;
  ah_factory : string → G;
  ah_executor : Ctx → G → C → bus → bus * (G * panics (option error));
  ah_newIDFunc : option (T → T * string);
}.

Definition setStore (s : Store A P Ser X) (w : bus) : bus := set_state (s, (bw_state w).2) w.
Definition storeOf (w : bus) : Store A P Ser X := (bw_state w).1.

(** [return NewErrorResult(err), nil] *)
Definition refused (err : error) : outcome := Returned (NewErrorResult err, None).

(** The id of the command, or a fresh one. *)
Definition resolveID (h : AggregateHandler) (typedCmd : C) (w : bus) : bus * option string :=
  let aggID := ah_AggregateID h typedCmd in
  if negb (bool_decide (aggID = "")) then (w, Some aggID)
  else
    match ah_newIDFunc h with
    | Some newID => let '(t, id) := newID (bw_state w).2 in (set_state (storeOf w, t) w, Some id)
    | None => (w, None)
    end.

Definition AggregateHandler_Handle (c : EventStore) (senvs : Ctx → nat → StoreEnv) (h : AggregateHandler) (ctx : Ctx)
    (cmd : Command) (w : bus) : bus * outcome :=
  match ah_cast h cmd with
  | None => (w, refused (Errorf "mink: expected command type %T, got %T"))
  | Some typedCmd =>
      let isNew := bool_decide (ah_AggregateID h typedCmd = "") in
      match resolveID h typedCmd w with
      | (w, None) => (w, refused (Errorf "mink: command has no aggregate ID and no ID generator configured"))
      | (w, Some aggID) =>
          let agg := ah_factory h aggID in
          let '(w, agg, loaded) :=
            if isNew then (w, agg, Ok tt)
            else let '((s, agg), r) := LoadAggregate c (senvs ctx (bw_calls w)) (storeOf w, agg) in
                 (tick (setStore s w), agg, r) in
          match loaded with
          | Err err => (w, refused (Wrapf "mink: failed to load aggregate: %w" err))
          | Ok _ =>
              match ah_executor h ctx agg typedCmd w with
              | (w, (_, Panicked v)) => (w, Panicked v)
              | (w, (_, Returned (Some err))) => (w, refused err)
              | (w, (agg, Returned None)) =>
                  match SaveAggregate c (senvs ctx (bw_calls w)) (storeOf w, agg) with
                  | ((s, _), Err err) => (tick (setStore s w), refused (Wrapf "mink: failed to save aggregate: %w" err))
                  | ((s, agg), Ok _) =>
                      (tick (setStore s w), Returned (NewSuccessResult (agg_AggregateID agg) (agg_Version agg), None))
                  end
              end
          end
      end
  end.

Definition NewAggregateHandler (c : EventStore) (senvs : Ctx → nat → StoreEnv) (h : AggregateHandler)
    : CommandHandler (Store A P Ser X * T) :=
  mkCommandHandler (ah_zero h) (AggregateHandler_Handle c senvs h).
End Handler.
Arguments AggregateHandler : clear implicits.
Arguments mkAggregateHandler {A P Ser X T C G} _ _ _ _ _ _.

(** ** The guarantee *)

Section Theorems.
Context {A P V Ser X T C G : Type}.
Context `{AEADLaws} `{ProviderOps P} `{!ProviderLaws P} `{!ProviderStable P}.
Context `{EventLogOps A} `{!EventLogLaws A} `{SerializerOps V Ser} `{!SerializerLaws V Ser}.
Context `{SubjectIndexWriter X} `{MapOrder} `{Aggregate V G}.
Context (c : EventStore) (opts : option (list EncryptionOption)) (senvs : Ctx → nat → StoreEnv).
Implicit Types (w : World (Store A P Ser X * T)) (m : string → list V) (g : G).

(** Streams only grow. *)
Definition grows m m' : Prop := ∀ sid, m sid `prefix_of` m' sid.

#[local] Instance grows_refl : Reflexive grows.
Proof. intros m sid. reflexivity. Qed.

(** The executor, and everyone else meanwhile, from a store with the serializer
    and the log of [s0]: it leaves the aggregate at the
    version and under the identity it was loaded with, and the store may hold
    more than before. *)
Definition executes (h : AggregateHandler A P Ser X T C G) (s0 : Store A P Ser X) : Prop :=
  ∀ ctx g typed w w1 g1 o m,
    st_serializer (storeOf w) = st_serializer s0 → store_log (storeOf w) = store_log s0 → agg_UncommittedEvents g = [] →
    ah_executor h ctx g typed w = (w1, (g1, o)) → represents c (storeOf w) m →
    agg_Version g1 = agg_Version g ∧ aggregateStream g1 = aggregateStream g ∧
    Forall (ser_known (st_serializer (storeOf w1))) (agg_UncommittedEvents g1) ∧
    Z.of_nat (length (store_log (storeOf w1)) + length (agg_UncommittedEvents g1)) ≤ MaxInt64 ∧
    ∃ m1, grows m m1 ∧ represents c (storeOf w1) m1.

(** The aggregate type keeps its version: [SetVersion] sets it, a fresh instance
    has none and nothing uncommitted, and applying events leaves its identity and
    what is uncommitted alone. *)
Record versioned (h : AggregateHandler A P Ser X T C G) : Prop := {
  ver_recorded : ∀ v g, agg_Version (recordVersion v g) = v;
  ver_fresh : ∀ id, agg_Version (ah_factory h id) = 0 ∧ agg_UncommittedEvents (ah_factory h id) = [];
  ver_recorded_stream : ∀ v g, aggregateStream (recordVersion v g) = aggregateStream g ∧
    agg_UncommittedEvents (recordVersion v g) = agg_UncommittedEvents g;
  ver_applied_stream : ∀ evs g g' r, ReplayEvents agg_ApplyEvent evs g = (g', r) →
    aggregateStream g' = aggregateStream g ∧ agg_UncommittedEvents g' = agg_UncommittedEvents g;
}.

(** What the aggregate of a command is when the executor gets it: its version is
    the length of its stream, or 0 when it is new. *)
Definition loadedFrom (isNew : bool) m g : Prop :=
  agg_Version g = (if isNew then 0 else Z.of_nat (length (m (aggregateStream g)))) ∧ agg_UncommittedEvents g = [].

Lemma resolveID_spec (h : AggregateHandler A P Ser X T C G) typed w w0 oid :
  resolveID h typed w = (w0, oid) →
  storeOf w0 = storeOf w ∧ (ah_AggregateID h typed ≠ "" → oid = Some (ah_AggregateID h typed)).
Proof.
  unfold resolveID. destruct (bool_decide_reflect (ah_AggregateID h typed = "")) as [Hn|Hn]; cbn [negb].
  - destruct (ah_newIDFunc h) as [newID|]; [|by intros [= <- <-]]. destruct (newID _) as [t id]. by intros [= <- <-].
  - by intros [= <- <-].
Qed.

(** From the executor to the end. *)
Lemma execute_and_save h s0 ctx typed w1 w2 g g1 m (isNew : bool) :
  es_encryption c = NewFieldEncryptionConfig <$> opts → es_callerSchemaVersion c = false →
  (∀ ctx n i, entropy_ok (se_entropy (senvs ctx n) i)) → executes h s0 →
  st_serializer (storeOf w1) = st_serializer s0 → store_log (storeOf w1) = store_log s0 →
  ah_executor h ctx g typed w1 = (w2, (g1, Returned None)) → represents c (storeOf w1) m → loadedFrom isNew m g →
  ∀ s g2 r, SaveAggregate c (senvs ctx (bw_calls w2)) (storeOf w2, g1) = ((s, g2), r) →
  ∃ m1, grows m m1 ∧ represents c (storeOf w2) m1 ∧
    match r with
    | Err _ => represents c s m1
    | Ok _ => represents c s (extend (aggregateStream g) (agg_UncommittedEvents g1) m1) ∧
        (agg_UncommittedEvents g1 ≠ [] →
           m1 (aggregateStream g) = if isNew then [] else m (aggregateStream g))
    end.
Proof.
  intros Hopts Hcs Hent Hex Hs0 Hl0 E Hm [Hload Hun] s g2 r Es.
  destruct (Hex _ _ _ _ _ _ _ _ Hs0 Hl0 Hun E Hm) as (Hv & Hst & Hk & Hfit & m1 & Hg & Hm1).
  destruct (SaveAggregate_represents c opts _ _ _ _ _ _ _ Hopts Hcs (Hent _ _) Hk Hm1 Hfit Es) as [Hr Hcase].
  exists m1. split; [done|]. split; [done|]. destruct r as [[]|err]; [|done]. rewrite Hst in Hr, Hcase. split; [exact Hr|].
  intros Hne. destruct Hcase as [[? _]|(_ & _ & Hver)]; [done|]. rewrite Hv, Hload in Hver.
  assert (length (m1 (aggregateStream g)) = if isNew then 0%nat else length (m (aggregateStream g))) as Hlen.
  { unfold AnyVersion, StreamExists in Hver. destruct isNew; lia. }
  destruct isNew; [by apply nil_length_inv|].
  destruct (Hg (aggregateStream g)) as [k Hpre]. rewrite Hpre, length_app in Hlen.
  assert (k = []) as -> by (apply nil_length_inv; lia). by rewrite Hpre, app_nil_r.
Qed.

(** The aggregate the executor is given: a fresh instance under the id when the
    command names none, else the replay of the stream, with its version. *)
Definition prepared (h : AggregateHandler A P Ser X T C G) (isNew : bool) (id : string) m g : Prop :=
  if isNew then g = ah_factory h id
  else ∃ g', ReplayEvents agg_ApplyEvent (m (aggregateStream (ah_factory h id))) (ah_factory h id) = (g', Ok tt) ∧
    g = recordVersion (Z.of_nat (length (m (aggregateStream (ah_factory h id))))) g'.

(** The load of an existing aggregate, or the fresh one. *)
Lemma load_prepares (h : AggregateHandler A P Ser X T C G) ctx w (isNew : bool) id m :
  (∀ ctx n, check_ctx (se_env (senvs ctx n)) = Ok tt) → versioned h → represents c (storeOf w) m → store_closed (storeOf w) = false →
  ∃ w1 g r,
    (if isNew then (w, ah_factory h id, Ok tt)
     else let '((s, agg), r) := LoadAggregate c (senvs ctx (bw_calls w)) (storeOf w, ah_factory h id) in (tick (setStore s w), agg, r))
      = (w1, g, r) ∧ represents c (storeOf w1) m ∧
    st_serializer (storeOf w1) = st_serializer (storeOf w) ∧ store_log (storeOf w1) = store_log (storeOf w) ∧
    match r with
    | Ok _ => loadedFrom isNew m g ∧ prepared h isNew id m g
    | Err _ => isNew = false ∧ ∃ g' err, ReplayEvents agg_ApplyEvent (m (aggregateStream (ah_factory h id))) (ah_factory h id) = (g', Err err)
    end.
Proof.
  intros Hctx Hver Hm Hcl. destruct isNew.
  { eexists _, _, _. split; [done|]. do 3 (split; [done|]). split; [apply (ver_fresh h Hver)|done]. }
  destruct (LoadAggregate_replays c (senvs ctx (bw_calls w)) (storeOf w) (ah_factory h id) m Hm (Hctx _ _) Hcl) as (q & Hq & ->).
  destruct (ReplayEvents _ _ _) as [g' [[]|err']] eqn:Er; eexists _, _, _; (split; [done|]);
    (split; [by eapply represents_setup; [exact Hm|apply Hm|..]|]); do 2 (split; [done|]); [|split; [done|by eexists _, _]].
  split; [|by exists g']. destruct (ver_applied_stream h Hver _ _ _ _ Er) as [E1 E2], (ver_recorded_stream h Hver
    (Z.of_nat (length (m (aggregateStream (ah_factory h id))))) g') as [E3 E4].
  unfold loadedFrom. rewrite (ver_recorded h Hver), E3, E1, E4, E2. split; [done|]. apply (ver_fresh h Hver).
Qed.

(** What handling a command came to, from the world [w] and the streams [m]. *)
Inductive handled (h : AggregateHandler A P Ser X T C G) ctx typed w m : World (Store A P Ser X * T) → CommandResult → Prop :=
(* There is no id, or the replay is refused: nothing was run. *)
| handled_refused w' result :
    IsSuccess result = false → store_log (storeOf w') = store_log (storeOf w) → represents c (storeOf w') m →
    (resolveID h typed w).2 = None ∨
    (ah_AggregateID h typed ≠ "" ∧ ∃ g' err, let g := ah_factory h (ah_AggregateID h typed) in
       ReplayEvents agg_ApplyEvent (m (aggregateStream g)) g = (g', Err err)) →
    handled h ctx typed w m w' result
(* The executor failed: nothing was saved after it. *)
| handled_failed id w1 g w2 g1 err m1 w' :
    (resolveID h typed w).2 = Some id → represents c (storeOf w1) m →
    prepared h (bool_decide (ah_AggregateID h typed = "")) id m g →
    ah_executor h ctx g typed w1 = (w2, (g1, Returned (Some err))) →
    grows m m1 → represents c (storeOf w2) m1 → storeOf w' = storeOf w2 →
    handled h ctx typed w m w' (NewErrorResult err)
(* The executor succeeded and the aggregate was saved, once, or was not. *)
| handled_executed id w1 g w2 g1 m1 w' g2 saved result :
    (resolveID h typed w).2 = Some id → represents c (storeOf w1) m →
    prepared h (bool_decide (ah_AggregateID h typed = "")) id m g →
    ah_executor h ctx g typed w1 = (w2, (g1, Returned None)) →
    grows m m1 → represents c (storeOf w2) m1 →
    SaveAggregate c (senvs ctx (bw_calls w2)) (storeOf w2, g1) = ((storeOf w', g2), saved) →
    IsSuccess result = is_ok saved →
    match saved with
    | Ok _ =>
        represents c (storeOf w') (extend (aggregateStream g) (agg_UncommittedEvents g1) m1) ∧
        (agg_UncommittedEvents g1 ≠ [] →
           m1 (aggregateStream g) = if bool_decide (ah_AggregateID h typed = "") then [] else m (aggregateStream g))
    | Err _ => represents c (storeOf w') m1
    end →
    handled h ctx typed w m w' result.

(** C31: a command on an aggregate is all or nothing, and no update is lost.
    The executor runs on the replay of the aggregate's stream, or on a fresh
    instance when the command names none, and what it leaves uncommitted is saved
    once.  Whatever the executor and other writers did to the store between the
    load and the save, a command that is not reported successful has appended
    nothing: the id or the replay failed and nothing ran, or the executor failed
    and the store is as it left it, or the save failed.  One that is reported
    successful has appended exactly the events the executor left uncommitted, at
    the end of the aggregate's stream, and that stream was then still the one the
    aggregate was loaded from, or empty for a new aggregate. *)
Theorem aggregate_command_optimistic h ctx cmd typed w w' result err m :
  es_encryption c = NewFieldEncryptionConfig <$> opts → es_callerSchemaVersion c = false →
  (∀ ctx n i, entropy_ok (se_entropy (senvs ctx n) i)) → (∀ ctx n, check_ctx (se_env (senvs ctx n)) = Ok tt) →
  executes h (storeOf w) → versioned h → represents c (storeOf w) m → store_closed (storeOf w) = false →
  ah_cast h cmd = Some typed →
  AggregateHandler_Handle c senvs h ctx cmd w = (w', Returned (result, err)) →
  err = None ∧ handled h ctx typed w m w' result.
Proof.
  intros Hopts Hcs Hent Hctx Hex Hver Hm Hcl Hcast. unfold AggregateHandler_Handle. rewrite Hcast.
  set (isNew := bool_decide (ah_AggregateID h typed = "")).
  destruct (resolveID h typed w) as [w0 oid] eqn:Eid.
  destruct (resolveID_spec _ _ _ _ _ Eid) as [Hs0 Hid]. assert ((resolveID h typed w).2 = oid) as Eid2 by by rewrite Eid.
  rewrite <- Hs0 in Hm, Hcl.
  destruct oid as [aggID|]; [|intros [= <- <- <-]; split; [done|]; apply handled_refused; [done|by rewrite Hs0|done|by left]].
  destruct (load_prepares h ctx w0 isNew aggID m Hctx Hver Hm Hcl) as (w1 & g & r & -> & Hm1 & Hser & Hlog & Hload).
  rewrite Hs0 in Hser, Hlog. destruct r as [[]|lerr].
  2:{ destruct Hload as (En & g' & err' & Er). apply bool_decide_eq_false in En as Hne. injection (Hid Hne) as ->.
      intros [= <- <- <-]. split; [done|]. apply handled_refused; [done|done|exact Hm1|]. right. split; [done|]. by exists g', err'. }
  destruct Hload as [Hload Hprep].
  destruct (ah_executor h ctx g typed w1) as [w2 [g1 [[eerr|]|v]]] eqn:Ee; [..|discriminate].
  - intros [= <- <- <-]. split; [done|].
    destruct (Hex _ _ _ _ _ _ _ _ Hser Hlog (proj2 Hload) Ee Hm1) as (_ & _ & _ & _ & m1 & ? & ?). by eapply handled_failed.
  - destruct (SaveAggregate _ _ _) as [[s g2] r] eqn:Es.
    destruct (execute_and_save h _ ctx typed w1 w2 g g1 m isNew Hopts Hcs Hent Hex Hser Hlog Ee Hm1 Hload s g2 r Es) as (m1 & Hg & Hm2 & Hr).
    destruct r as [[]|serr]; intros [= <- <- <-]; (split; [done|]); by eapply handled_executed.
Qed.
End Theorems.

(** ** Witness *)

#[local] Existing Instances toyAEAD toyAEAD_laws listOrder sampleLog sampleLog_laws sampleIndex sampleSerializer
  sampleSerializer_laws sampleAggregate.

(** Registering an address: the command carries it as its id. *)
Definition registerHandler : AggregateHandler MemoryAdapter Provider (list string) (list (string * list string)) unit Command
    (embedded SampleEvent (list string)) :=
  mkAggregateHandler "RegisterUser" Some (λ cmd, default "" (cmd_AggregateID cmd))
    (λ id, mkEmbedded (NewAggregateBase id "User") [])
    (λ ctx g cmd w, (w, (mkEmbedded (Apply (mkSampleEvent "UserRegistered" "x@y.z") (em_base g)) (em_state g), Returned None)))
    None.

Definition registerCommand : Command := mkCommand "RegisterUser" None (Some "1") None None None None None (Ok []).
Definition registerWorld : World (Store MemoryAdapter Provider (list string) (list (string * list string)) * unit) :=
  mkWorld 0 [] (sampleRun.1, tt).

Lemma registerHandler_versioned : versioned registerHandler.
Proof.
  split; [done..|]. intros evs. induction evs as [|v evs IH]; intros g g' r E; cbn in E; [by injection E as <-|].
  apply IH in E. exact E.
Qed.

Lemma sampleRun_represents :
  represents sampleConfig sampleRun.1 (λ sid, [] ++ accepted sid sampleCalls sampleRun.2) ∧ store_closed sampleRun.1 = false.
Proof.
  destruct (runAppends_represents sampleConfig (Some sampleFieldOptions) sampleCalls sampleStore
    sampleRun.1 sampleRun.2 (λ _, []) eq_refl eq_refl sampleCalls_ok sampleStore_empty
    ltac:(vm_compute; discriminate) (surjective_pairing _)) as (Hm & Hc & _). by split.
Qed.

Definition registered := AggregateHandler_Handle sampleConfig (λ _ _, sampleStoreEnv) registerHandler Background registerCommand registerWorld.

Lemma registered_ok : registered.2 = Returned (NewSuccessResult "1" 4, None).
Proof. vm_compute. reflexivity. Qed.

Lemma sampleRun_serializer : st_serializer sampleRun.1 = ["UserRegistered"].
Proof. vm_compute. reflexivity. Qed.

Lemma sampleRun_length : length (store_log sampleRun.1) = 4%nat.
Proof. vm_compute. reflexivity. Qed.

Lemma registerHandler_executes : executes sampleConfig registerHandler sampleRun.1.
Proof.
  intros ctx g typed w w1 g1 o m Hs Hl Hun [= <- <- <-] Hm. do 2 (split; [done|]). split; [|split].
  - change (agg_UncommittedEvents g = []) in Hun. unfold registerHandler. cbn [agg_UncommittedEvents sampleAggregate embeddedAggregate em_base ab_uncommittedEvents Apply] in Hun |- *.
    rewrite Hun, Hs, sampleRun_serializer. apply Forall_singleton. split; [cbn; left|apply utf8_ascii; reflexivity].
  - cbn [agg_UncommittedEvents sampleAggregate embeddedAggregate em_base ab_uncommittedEvents Apply] in Hun |- *.
    rewrite Hun, Hl, sampleRun_length. vm_compute. discriminate.
  - exists m. split; [intros sid; reflexivity|exact Hm].
Qed.

Lemma aggregate_command_optimistic_witness :
  ∃ m1, represents sampleConfig (storeOf registered.1) (extend "User-1" [mkSampleEvent "UserRegistered" "x@y.z"] m1) ∧
    m1 "User-1" = accepted "User-1" sampleCalls sampleRun.2.
Proof.
  destruct sampleRun_represents as [Hm Hc].
  pose proof registered_ok as Hok. unfold registered in *.
  destruct (AggregateHandler_Handle _ _ _ _ _ _) as [w' o] eqn:E. cbn [fst snd] in Hok |- *. subst o.
  destruct (aggregate_command_optimistic sampleConfig (Some sampleFieldOptions) (λ _ _, sampleStoreEnv) registerHandler Background
    registerCommand registerCommand registerWorld w' _ _ _ eq_refl eq_refl (λ _ _ _, sampleEntropy_ok) (λ _ _, eq_refl)
    registerHandler_executes registerHandler_versioned Hm Hc eq_refl E) as (_ & Hh).
  clear E. remember (NewSuccessResult "1" 4) as result eqn:Eres.
  destruct Hh as [w' result Hf _ _ _|id w1 g w2 g1 err m1 w' _ _ _ Ee _ _ _|id w1 g w2 g1 m1 w' g2 saved result Hid _ Hprep Ee _ _ _ Hsv Hout].
  - subst result. discriminate Hf.
  - discriminate Ee.
  - subst result. destruct saved as [[]|]; [|discriminate Hsv]. destruct Hout as [Hr Hn]. injection Hid as <-.
    destruct Hprep as (g' & Er & ->). vm_compute in Er. injection Er as <-. injection Ee as <- <-.
    exists m1. split; [exact Hr|]. apply Hn. discriminate.
Defined.
