(* ===== verification/CheckpointStore.v ===== *)
(** * Checkpoints

    The in-memory checkpoint store of [src/adapters/memory/checkpoint.go]: the
    position each projection reached. *)

From S2P Require Import Prelude.
From S2P Require Import Types.

Record Checkpoint := mkCheckpoint { cp_ProjectionName : string; cp_Position : Z; cp_UpdatedAt : Time }.

Record CheckpointStore := mkCheckpointStore { checkpoints : gmap string Checkpoint }.

Definition NewCheckpointStore : CheckpointStore := mkCheckpointStore ∅.

Definition GetCheckpoint (projectionName : string) (s : CheckpointStore) : res Z :=
  match checkpoints s !! projectionName with Some cp => Ok (cp_Position cp) | None => Ok 0 end.

Definition SetCheckpoint (env : Env) (projectionName : string) (position : Z) : op CheckpointStore error unit := λ s,
  (mkCheckpointStore (<[projectionName := mkCheckpoint projectionName position (time_Now env 0)]> (checkpoints s)), Ok tt).

Definition DeleteCheckpoint (projectionName : string) : op CheckpointStore error unit := λ s,
  (mkCheckpointStore (delete projectionName (checkpoints s)), Ok tt).

Definition GetAllCheckpoints (s : CheckpointStore) : res (gmap string Z) := Ok (cp_Position <$> checkpoints s).

Definition Clear (s : CheckpointStore) : CheckpointStore := mkCheckpointStore ∅.
Definition Len (s : CheckpointStore) : Z := Z.of_nat (size (checkpoints s)).

Definition GetCheckpointWithTimestamp (projectionName : string) (s : CheckpointStore) : res (option Checkpoint) :=
  match checkpoints s !! projectionName with
  | Some cp => Ok (Some (mkCheckpoint (cp_ProjectionName cp) (cp_Position cp) (cp_UpdatedAt cp)))
  | None => Ok None
  end.

(** ** Lemmas *)

Lemma GetCheckpoint_Set env name pos s name' :
  GetCheckpoint name' (SetCheckpoint env name pos s).1 = if decide (name' = name) then Ok pos else GetCheckpoint name' s.
Proof.
  unfold GetCheckpoint. cbn. case_decide as E; [subst; by rewrite lookup_insert_eq|by rewrite lookup_insert_ne].
Qed.

Lemma GetCheckpoint_Delete name s name' :
  GetCheckpoint name' (DeleteCheckpoint name s).1 = if decide (name' = name) then Ok 0 else GetCheckpoint name' s.
Proof.
  unfold GetCheckpoint. cbn. case_decide as E; [subst; by rewrite lookup_delete_eq|by rewrite lookup_delete_ne].
Qed.
