(* ===== verification/Projection.v ===== *)
(** * Projections

    [src/projection.go] and the policies of [src/projection_engine.go]: states,
    statuses, the bases users embed, which events a projection takes, retry and
    restart policies, error classes, options, and the checkpoint store the
    engine relies on.  A projection is a record of its methods over the
    application's state [R]; a method that panics is an outcome. *)

From S2P Require Import Prelude.
From S2P Require Import Types.
From S2P Require Import Strconv.
From S2P Require Import CheckpointStore.

(** ** States *)

Inductive ProjectionState :=
| ProjectionStateStopped | ProjectionStateRunning | ProjectionStatePaused | ProjectionStateFaulted
| ProjectionStateRebuilding | ProjectionStateCatchingUp | ProjectionStateRestarting.

#[export] Instance ProjectionState_eq_dec : EqDecision ProjectionState.
Proof. solve_decision. Defined.

Record ProjectionStatus := mkProjectionStatus {
  ps_Name : string;
  ps_State : ProjectionState;
  ps_LastPosition : Z;
  ps_EventsProcessed : Z;
  ps_LastProcessedAt : Time;
  ps_Error : string;
  ps_Lag : Z;
  ps_AverageLatency : Duration;
}.

(** ** The events a projection takes *)

Definition ShouldHandleEventType (handledEvents : list string) (eventType : string) : bool :=
  if bool_decide (length handledEvents = 0%nat) then true
  else existsb (λ et, bool_decide (et = eventType)) handledEvents.

Record ProjectionBase := mkProjectionBase { pb_name : string; pb_handledEvents : list string }.

Definition NewProjectionBase (name : string) (handledEvents : list string) : ProjectionBase :=
  mkProjectionBase name handledEvents.

Definition HandlesEvent (p : ProjectionBase) (eventType : string) : bool :=
  if bool_decide (length (pb_handledEvents p) = 0%nat) then true
  else existsb (λ et, bool_decide (et = eventType)) (pb_handledEvents p).

(** ** Projections *)

Section Projections.
Context {R : Type}.

(** A method of user code on the application's state: its error, or a panic. *)
Definition method (A : Type) : Type := Env → A → R → R * panics (option error).

Record InlineProjection := mkInlineProjection {
  ip_Name : string;
  ip_HandledEvents : list string;
  ip_Apply : method StoredEvent;
}.

(** [ap_Clear] is the optional [Clearable]. *)
Record AsyncProjection := mkAsyncProjection {
  ap_Name : string;
  ap_HandledEvents : list string;
  ap_Apply : method StoredEvent;
  ap_ApplyBatch : method (list StoredEvent);
  ap_Clear : option (method unit);
}.

Record LiveProjection := mkLiveProjection {
  lp_Name : string;
  lp_HandledEvents : list string;
  lp_OnEvent : Env → StoredEvent → R → R * panics unit;
  lp_IsTransient : bool;
}.

(** [AsyncProjectionBase], with the [Apply] a user type must add: its
    [ApplyBatch] is not implemented. *)
Definition AsyncProjectionBase_ApplyBatch : method (list StoredEvent) := λ _ _ r, (r, Returned (Some ErrNotImplemented)).

Definition NewAsyncProjectionBase (name : string) (handledEvents : list string) (apply : method StoredEvent)
    : AsyncProjection :=
  let base := NewProjectionBase name handledEvents in
  mkAsyncProjection (pb_name base) (pb_handledEvents base) apply AsyncProjectionBase_ApplyBatch None.

Definition NewLiveProjectionBase (name : string) (transient : bool) (handledEvents : list string)
    (onEvent : Env → StoredEvent → R → R * panics unit) : LiveProjection :=
  let base := NewProjectionBase name handledEvents in
  mkLiveProjection (pb_name base) (pb_handledEvents base) onEvent transient.

(** The projection is [None] when it is nil. *)
Definition validateProjection (name : option string) : res unit :=
  match name with
  | None => Err ErrNilProjection
  | Some name => if bool_decide (name = "") then Err ErrEmptyProjectionName else Ok tt
  end.
End Projections.
Arguments method _ _ : clear implicits.
Arguments InlineProjection _ : clear implicits.
Arguments AsyncProjection _ : clear implicits.
Arguments LiveProjection _ : clear implicits.

(** ** Policies *)

Record RetryPolicy := mkRetryPolicy {
  rp_ShouldRetry : Z → option error → bool;
  rp_Delay : Z → Duration;
}.

Record RestartPolicy := mkRestartPolicy {
  sp_ShouldRestart : Z → option error → bool;
  sp_Delay : Z → Duration;
}.

Definition expBackoff (shift : Z) (baseDelay maxDelay : Duration) : Duration :=
  let shift := if shift <? 0 then 0 else shift in
  if 62 <? shift then maxDelay
  else
    let delay := i64 (baseDelay * Z.shiftl 1 shift) in
    if (delay <=? 0) || (maxDelay <? delay) then maxDelay else delay.

Definition ExponentialBackoffRetry (maxRetries : Z) (baseDelay maxDelay : Duration) : RetryPolicy := {|
  rp_ShouldRetry attempt err :=
    match err with
    | None => false
    | Some _ => if maxRetries <=? 0 then true else attempt <? maxRetries
    end;
  rp_Delay attempt := expBackoff attempt baseDelay maxDelay;
|}.

Definition RetryForever (baseDelay maxDelay : Duration) : RetryPolicy := ExponentialBackoffRetry 0 baseDelay maxDelay.

Definition NoRetry : RetryPolicy := {| rp_ShouldRetry _ _ := false; rp_Delay _ := 0 |}.

Definition ExponentialBackoffRestart (maxRestarts : Z) (baseDelay maxDelay : Duration) : RestartPolicy := {|
  sp_ShouldRestart restartCount _ := if maxRestarts <=? 0 then true else restartCount <=? maxRestarts;
  sp_Delay restartCount := expBackoff (i64 (restartCount - 1)) baseDelay maxDelay;
|}.

Definition RestartForever (baseDelay maxDelay : Duration) : RestartPolicy := ExponentialBackoffRestart 0 baseDelay maxDelay.

(** ** Error classes *)

Inductive ErrorClass := ErrorClassPoison | ErrorClassTransient.

#[export] Instance ErrorClass_eq_dec : EqDecision ErrorClass.
Proof. solve_decision. Defined.

(** The optional methods [Retryable] and [Temporary] of an error; false where
    it has none. *)
Class ErrorBehaviour := { err_Retryable : error → bool; err_Temporary : error → bool }.

(** The chain of [errors.Unwrap] from an error; a link to a sentinel, which has
    neither method, is left out. *)
Fixpoint unwrapChain (err : error) : list error :=
  err ::
  match err with
  | Wrapf _ inner | UpcastError _ _ _ inner | SerializationError _ _ inner | EncryptionError _ _ _ inner
  | ErasureError _ inner | ProjectionError _ _ _ inner | ExportError _ inner | ValidationError _ _ _ (Some inner) =>
      unwrapChain inner
  | _ => []
  end.

Definition DefaultErrorClassifier `{ErrorBehaviour} (err : option error) : ErrorClass :=
  match err with
  | None => ErrorClassPoison
  | Some err =>
      if errors_Is err ErrTransient then ErrorClassTransient
      else if errors_Is err ContextDeadlineExceeded then ErrorClassPoison
      else if existsb (λ e, err_Retryable e || err_Temporary e) (unwrapChain err) then ErrorClassTransient
      else ErrorClassPoison
  end.

(** ** Options *)

(** [None] is a nil policy, classifier or handler. *)
Record AsyncOptions (R : Type) := mkAsyncOptions {
  ao_BatchSize : Z;
  ao_BatchTimeout : Duration;
  ao_PollInterval : Duration;
  ao_RetryPolicy : option RetryPolicy;
  ao_MaxRetries : Z;
  ao_ErrorClassifier : option (option error → ErrorClass);
  ao_OnPoisonEvent : option (Env → StoredEvent → error → R → R * option error);
  ao_RestartPolicy : option RestartPolicy;
  ao_StartFromBeginning : bool;
}.
Arguments mkAsyncOptions {R} _ _ _ _ _ _ _ _ _.
Arguments ao_BatchSize {R} _.
Arguments ao_BatchTimeout {R} _.
Arguments ao_PollInterval {R} _.
Arguments ao_RetryPolicy {R} _.
Arguments ao_MaxRetries {R} _.
Arguments ao_ErrorClassifier {R} _.
Arguments ao_OnPoisonEvent {R} _.
Arguments ao_RestartPolicy {R} _.
Arguments ao_StartFromBeginning {R} _.

Definition millisecond : Duration := 1000000.
Definition second : Duration := 1000000000.

Definition DefaultAsyncOptions {R} : AsyncOptions R :=
  mkAsyncOptions 100 second (100 * millisecond) (Some (ExponentialBackoffRetry 3 (100 * millisecond) (10 * second))) 3
    None None None false.

Record LiveOptions := mkLiveOptions { lo_BufferSize : Z }.

Definition DefaultLiveOptions : LiveOptions := mkLiveOptions 1000.

(** *** Rebuilds *)

Record RebuildProgress := mkRebuildProgress {
  rp_ProjectionName : string;
  rp_TotalEvents : Z;
  rp_ProcessedEvents : Z;
  rp_CurrentPosition : Z;
  rp_StartedAt : Time;
  rp_Duration : Duration;
  rp_EventsPerSecond : float64;
  rp_EstimatedRemaining : Duration;
  rp_Completed : bool;
  rp_Error : option error;
}.

(** [ro_ProgressCallback] says whether there is one; it has no result. *)
Record RebuildOptions := mkRebuildOptions {
  ro_DeleteCheckpoint : bool;
  ro_ClearReadModel : bool;
  ro_ProgressCallback : bool;
  ro_ProgressInterval : Duration;
  ro_FromPosition : Z;
  ro_ToPosition : Z;
}.

Definition DefaultRebuildOptions : RebuildOptions := mkRebuildOptions true true false second 0 0.

(** ** The checkpoint store *)

Class CheckpointOps (K : Type) := {
  ck_GetCheckpoint : Env → string → op K error Z;
  ck_SetCheckpoint : Env → string → Z → op K error unit;
  ck_DeleteCheckpoint : Env → string → op K error unit;
}.

(** What the engine relies on: a missing checkpoint is 0, a read changes
    nothing, a write is read back, and one that fails may have been made. *)
Class CheckpointLaws (K : Type) `{CheckpointOps K} := {
  ck_view : K → gmap string Z;
  ck_get_ok : ∀ env name k k' p, ck_GetCheckpoint env name k = (k', Ok p) → p = default 0 (ck_view k !! name);
  ck_get_view : ∀ env name k k' r, ck_GetCheckpoint env name k = (k', r) → ck_view k' = ck_view k;
  ck_set_view : ∀ env name pos k k' r, ck_SetCheckpoint env name pos k = (k', r) →
    ck_view k' = <[name := pos]> (ck_view k) ∨ (is_ok r = false ∧ ck_view k' = ck_view k);
  ck_delete_view : ∀ env name k k' r, ck_DeleteCheckpoint env name k = (k', r) →
    ck_view k' = delete name (ck_view k) ∨ (is_ok r = false ∧ ck_view k' = ck_view k);
}.

#[export] Instance memory_checkpoint_ops : CheckpointOps CheckpointStore := {|
  ck_GetCheckpoint _ name := λ k, (k, GetCheckpoint name k);
  ck_SetCheckpoint := SetCheckpoint;
  ck_DeleteCheckpoint _ := DeleteCheckpoint;
|}.

#[export] Instance memory_checkpoint_laws : CheckpointLaws CheckpointStore.
Proof.
  refine {| ck_view k := cp_Position <$> checkpoints k |}; cbn.
  - intros env name k k' p. unfold GetCheckpoint. rewrite lookup_fmap.
    destruct (checkpoints k !! name); by intros [= _ <-].
  - by intros env name k k' r [= <- _].
  - intros env name pos k k' r [= <- _]. left. cbn. by rewrite fmap_insert.
  - intros env name k k' r [= <- _]. left. cbn. by rewrite fmap_delete.
Defined.

(** ** Lemmas *)

(** A backoff is never longer than its cap, and no shorter than its base
    unless the cap is. *)
Lemma expBackoff_bounds shift base cap : 0 < base → in_i64 base → 0 ≤ cap →
  let d := expBackoff shift base cap in d ≤ cap ∧ (base ≤ cap → 0 < d).
Proof.
  intros Hb Hi Hc. unfold expBackoff. set (s := if shift <? 0 then 0 else shift).
  destruct (62 <? s); [cbn; lia|]. cbn zeta.
  destruct ((_ <=? 0) || _) eqn:E; [lia|]. zbool. lia.
Qed.

Lemma HandlesEvent_ShouldHandle p t : HandlesEvent p t = ShouldHandleEventType (pb_handledEvents p) t.
Proof. done. Qed.

Lemma ShouldHandle_spec l t : ShouldHandleEventType l t = true ↔ l = [] ∨ t ∈ l.
Proof.
  unfold ShouldHandleEventType. case_bool_decide as E.
  - apply nil_length_inv in E. subst. by split; [left|].
  - rewrite existsb_exists. split.
    + intros (x & Hx & Hd). apply bool_decide_eq_true in Hd as ->. right. by apply list_elem_of_In.
    + intros [->|Ht]; [done|]. exists t. split; [by apply list_elem_of_In|]. by apply bool_decide_eq_true.
Qed.
