(* ===== verification/ProjectionWorker.v ===== *)
(** * The worker of an async projection

    [src/projection_engine.go]: loading, decrypting and applying one batch, what
    happens to an event that keeps failing, and the supervised life of the
    worker's goroutine, one step per turn of its loop.  The application's state
    is [R]; what it is asked is kept as a trace.  Logging and metrics are left
    out. *)

From S2P Require Import Prelude.
From S2P Require Import Types.
From S2P Require Import Common.
From S2P Require Import Crypto.
From S2P Require Import Subject.
From S2P Require Import FieldEncryption.
From S2P Require Import EventLog.
From S2P Require Import EventStore.
From S2P Require Import Projection.

(** ** State *)

(** The calls of user code: [Apply] or [ApplyBatch] took the events, an attempt
    failed on them, the poison handler agreed to skip one, the read model was
    cleared, the state observer or the progress callback was told. *)
Inductive call :=
| Applied (es : list StoredEvent)
| NotApplied (es : list StoredEvent)
| Skipped (e : StoredEvent)
| Cleared
| Observed (name : string) (oldState newState : ProjectionState) (err : option error)
| Progressed (progress : RebuildProgress).

Record World (S K R : Type) := mkWorld {
  pw_store : S;
  pw_checkpoints : option K; (* nil when the engine has no checkpoint store *)
  pw_app : R;
  pw_calls : list call;
}.
Arguments mkWorld {S K R} _ _ _ _.
Arguments pw_store {S K R} _.
Arguments pw_checkpoints {S K R} _.
Arguments pw_app {S K R} _.
Arguments pw_calls {S K R} _.

Record asyncProjectionWorker (R : Type) := mkWorker {
  aw_projection : AsyncProjection R;
  aw_options : AsyncOptions R;
  aw_stopped : bool; (* stopCh is closed *)
  aw_state : ProjectionState;
  aw_paused : bool;
  aw_supervising : bool;
  aw_lastPosition : Z;
  aw_eventsProcessed : Z;
  aw_lastProcessedAt : Time;
  aw_lastError : option error;
  aw_failedEvent : option StoredEvent;
}.
Arguments mkWorker {R} _ _ _ _ _ _ _ _ _ _ _.
Arguments aw_projection {R} _.
Arguments aw_options {R} _.
Arguments aw_stopped {R} _.
Arguments aw_state {R} _.
Arguments aw_paused {R} _.
Arguments aw_supervising {R} _.
Arguments aw_lastPosition {R} _.
Arguments aw_eventsProcessed {R} _.
Arguments aw_lastProcessedAt {R} _.
Arguments aw_lastError {R} _.
Arguments aw_failedEvent {R} _.

Section Fields.
Context {S K R : Type}.
Implicit Types w : World S K R.
Implicit Types k : asyncProjectionWorker R.

Definition set_store w (s : S) : World S K R := mkWorld s (pw_checkpoints w) (pw_app w) (pw_calls w).
Definition set_checkpoints w (c : option K) : World S K R := mkWorld (pw_store w) c (pw_app w) (pw_calls w).
Definition set_app w (r : R) : World S K R := mkWorld (pw_store w) (pw_checkpoints w) r (pw_calls w).
Definition observe w (c : call) : World S K R := mkWorld (pw_store w) (pw_checkpoints w) (pw_app w) (pw_calls w ++ [c]).

Definition set_status k (st : ProjectionState) (err : option error) : asyncProjectionWorker R :=
  mkWorker (aw_projection k) (aw_options k) (aw_stopped k) st (aw_paused k) (aw_supervising k) (aw_lastPosition k)
    (aw_eventsProcessed k) (aw_lastProcessedAt k) err (aw_failedEvent k).
Definition set_paused k (b : bool) : asyncProjectionWorker R :=
  mkWorker (aw_projection k) (aw_options k) (aw_stopped k) (aw_state k) b (aw_supervising k) (aw_lastPosition k)
    (aw_eventsProcessed k) (aw_lastProcessedAt k) (aw_lastError k) (aw_failedEvent k).
Definition set_supervising k (b : bool) : asyncProjectionWorker R :=
  mkWorker (aw_projection k) (aw_options k) (aw_stopped k) (aw_state k) (aw_paused k) b (aw_lastPosition k)
    (aw_eventsProcessed k) (aw_lastProcessedAt k) (aw_lastError k) (aw_failedEvent k).
Definition set_stopped k : asyncProjectionWorker R :=
  mkWorker (aw_projection k) (aw_options k) true (aw_state k) (aw_paused k) (aw_supervising k) (aw_lastPosition k)
    (aw_eventsProcessed k) (aw_lastProcessedAt k) (aw_lastError k) (aw_failedEvent k).
Definition set_position k (pos : Z) (at_ : Time) : asyncProjectionWorker R :=
  mkWorker (aw_projection k) (aw_options k) (aw_stopped k) (aw_state k) (aw_paused k) (aw_supervising k) pos
    (aw_eventsProcessed k) at_ (aw_lastError k) (aw_failedEvent k).
Definition add_processed k (n : nat) : asyncProjectionWorker R :=
  mkWorker (aw_projection k) (aw_options k) (aw_stopped k) (aw_state k) (aw_paused k) (aw_supervising k)
    (aw_lastPosition k) (u64 (aw_eventsProcessed k + Z.of_nat n)) (aw_lastProcessedAt k) (aw_lastError k)
    (aw_failedEvent k).
Definition set_failed k (e : option StoredEvent) : asyncProjectionWorker R :=
  mkWorker (aw_projection k) (aw_options k) (aw_stopped k) (aw_state k) (aw_paused k) (aw_supervising k)
    (aw_lastPosition k) (aw_eventsProcessed k) (aw_lastProcessedAt k) (aw_lastError k) e.

Definition aw_Name k : string := ap_Name (aw_projection k).

(** [RegisterAsync] makes it. *)
Definition newWorker (projection : AsyncProjection R) (options : AsyncOptions R) : asyncProjectionWorker R :=
  mkWorker projection options false ProjectionStateStopped false false 0 0 0 None None.

(** *** State transitions *)

Definition notifyStateObserver (name : string) (oldState newState : ProjectionState) (err : option error) w
    : World S K R :=
  if bool_decide (oldState = newState) then w else observe w (Observed name oldState newState err).

Definition setState (st : ProjectionState) : World S K R * asyncProjectionWorker R → World S K R * asyncProjectionWorker R :=
  λ '(w, k), (notifyStateObserver (aw_Name k) (aw_state k) st None w, set_status k st (aw_lastError k)).

Definition setError (err : error) : World S K R * asyncProjectionWorker R → World S K R * asyncProjectionWorker R :=
  λ '(w, k), (notifyStateObserver (aw_Name k) (aw_state k) ProjectionStateFaulted (Some err) w,
              set_status k ProjectionStateFaulted (Some err)).

Definition setTransientError (err : error) k : asyncProjectionWorker R := set_status k (aw_state k) (Some err).

Definition clearError : World S K R * asyncProjectionWorker R → World S K R * asyncProjectionWorker R :=
  λ '(w, k), (notifyStateObserver (aw_Name k) (aw_state k) ProjectionStateRunning None w,
              set_status k ProjectionStateRunning None).

(** [getStatus]: the text of the error is [fmt]'s. *)
Definition getStatus `{ErrorText} k : ProjectionStatus :=
  mkProjectionStatus (aw_Name k) (aw_state k) (aw_lastPosition k) (aw_eventsProcessed k) (aw_lastProcessedAt k)
    (match aw_lastError k with Some e => error_Error e | None => "" end) 0 0.

(** A non-positive budget is no limit. *)
Definition shouldRetry k (consecutiveErrors : Z) (err : error) : bool :=
  match ao_RetryPolicy (aw_options k) with
  | Some policy => rp_ShouldRetry policy consecutiveErrors (Some err)
  | None =>
      if 0 <? ao_MaxRetries (aw_options k) then consecutiveErrors <? ao_MaxRetries (aw_options k) else true
  end.
End Fields.

Section Worker.
Context {A P V Ser X K R : Type}.
Context `{AEAD} `{EventLogOps A} `{ProviderOps P} `{SerializerOps V Ser} `{SubjectIndexWriter X} `{MapOrder}.
Context `{CheckpointOps K}.
Implicit Types w : World (Store A P Ser X) K R.
Implicit Types k : asyncProjectionWorker R.
Implicit Types c : EventStore.

(** ** One batch *)

(** A failed write is only logged. *)
Definition saveCheckpoint (env : Env) (name : string) (pos : Z) w : World (Store A P Ser X) K R :=
  match pw_checkpoints w with
  | Some ck => set_checkpoints w (Some (ck_SetCheckpoint env name pos ck).1)
  | None => w
  end.

(** The selection loop: the provider, the handled events decrypted, and why it
    stopped early: the first event of the batch cannot be decrypted, or the
    batch is cut before the [i]-th. *)
Inductive selection := AllSelected | FirstFailed (e : StoredEvent) (err : error) | CutAt (i : nat).

Fixpoint selectEvents c (now : nat → Time) (decrypt : bool) (handled : list string) (i : nat)
    (events filtered : list StoredEvent) (p : P) : P * (list StoredEvent * selection) :=
  match events with
  | [] => (p, (filtered, AllSelected))
  | event :: events =>
      if negb (ShouldHandleEventType handled (se_Type event)) then
        selectEvents c now decrypt handled (S i) events filtered p
      else if negb decrypt then selectEvents c now decrypt handled (S i) events (filtered ++ [event]) p
      else
        match DecryptStoredEvent c (now i) event p with
        | (p, Err derr) => (p, (filtered, match i with 0%nat => FirstFailed event derr | S _ => CutAt i end))
        | (p, Ok decrypted) => selectEvents c now decrypt handled (S i) events (filtered ++ [decrypted]) p
        end
  end.

(** [Apply], event after event, until one fails or panics. *)
Fixpoint applySequentially (projection : AsyncProjection R) (envs : nat → Env) (i : nat) (events : list StoredEvent)
    (w : World (Store A P Ser X) K R) (k : asyncProjectionWorker R)
    : World (Store A P Ser X) K R * asyncProjectionWorker R * res unit :=
  match events with
  | [] => (w, k, Ok tt)
  | event :: events =>
      match ap_Apply projection (envs i) event (pw_app w) with
      | (r, Returned None) =>
          applySequentially projection envs (S i) events (observe (set_app w r) (Applied [event])) (add_processed k 1)
      | (r, Returned (Some err)) =>
          (observe (set_app w r) (NotApplied [event]), set_failed k (Some event),
           Err (Wrapf "failed to apply event: %w" err))
      | (r, Panicked _) =>
          (observe (set_app w r) (NotApplied [event]), k,
           Err (Errorf "panic processing event %s (stream %s) at position %d: %s"))
      end
  end.

(** [ApplyBatch], or [Apply] one by one where it is not implemented. *)
Definition applyEvents (projection : AsyncProjection R) (envs : nat → Env) (filtered : list StoredEvent)
    (w : World (Store A P Ser X) K R) (k : asyncProjectionWorker R)
    : World (Store A P Ser X) K R * asyncProjectionWorker R * res unit :=
  match ap_ApplyBatch projection (envs 0%nat) filtered (pw_app w) with
  | (r, Returned None) =>
      (observe (set_app w r) (Applied filtered), add_processed k (length filtered), Ok tt)
  | (r, Returned (Some err)) =>
      if errors_Is err ErrNotImplemented then applySequentially projection envs 1 filtered (set_app w r) k
      else (observe (set_app w r) (NotApplied filtered), set_failed k (last filtered), Err err)
  | (r, Panicked _) =>
      (observe (set_app w r) (NotApplied filtered), k, Err (Errorf "panic processing batch %s in projection %s: %s"))
  end.

(** The environments of the calls of one batch. *)
Record BatchEnv := mkBatchEnv {
  be_load : Env; (* the read of the log; its context bounds the idle wait *)
  be_now : nat → Time; (* the provider's clock *)
  be_apply : nat → Env;
  be_checkpoint : Env; (* its clock stamps lastProcessedAt *)
}.

(** Position and checkpoint after the events of a batch. *)
Definition advance (env : Env) (pos : Z) : World (Store A P Ser X) K R * asyncProjectionWorker R →
    World (Store A P Ser X) K R * asyncProjectionWorker R := λ '(w, k),
  (saveCheckpoint env (aw_Name k) pos w, set_position k pos (time_Now env 1)).

Definition lastPosition (events : list StoredEvent) : Z := default 0 (se_GlobalPosition <$> last events).

Definition processAsyncBatch c (env : BatchEnv) : op (World (Store A P Ser X) K R * asyncProjectionWorker R) error unit :=
  λ '(w, k),
  match LoadEventsFromPosition (be_load env) (aw_lastPosition k) (ao_BatchSize (aw_options k)) (pw_store w) with
  | Err err => ((w, k), Err (Wrapf "failed to load events: %w" err))
  | Ok [] => ((w, k), if ctx_Done (be_load env) 0 then Err (ctx_DoneErr (be_load env)) else Ok tt)
  | Ok events =>
      let decrypt := match es_encryption c with Some _ => true | None => false end in
      let '(p, (filtered, sel)) :=
        selectEvents c (be_now env) decrypt (ap_HandledEvents (aw_projection k)) 0 events [] (st_provider (pw_store w)) in
      let w := set_store w (set_provider (pw_store w) p) in
      match sel with
      | FirstFailed event derr =>
          ((observe w (NotApplied [event]), set_failed k (Some event)),
           Err (Wrapf "failed to decrypt event %s (stream %s) at position %d: %w" derr))
      | _ =>
          let events := match sel with CutAt i => take i events | _ => events end in
          let newPosition := lastPosition events in
          match filtered with
          | [] => (advance (be_checkpoint env) newPosition (w, k), Ok tt)
          | _ =>
              match applyEvents (aw_projection k) (be_apply env) filtered w k with
              | (w, k, Err err) => ((w, k), Err err)
              | (w, k, Ok _) => (advance (be_checkpoint env) newPosition (w, set_failed k None), Ok tt)
              end
          end
      end
  end.

(** [handlePoisonEvent]: true when the event is skipped. *)
Definition handlePoisonEvent (env : Env) (cause : error) :
    World (Store A P Ser X) K R * asyncProjectionWorker R → World (Store A P Ser X) K R * asyncProjectionWorker R * bool :=
  λ '(w, k),
  match ao_OnPoisonEvent (aw_options k), aw_failedEvent k with
  | Some onPoisonEvent, Some failed =>
      match onPoisonEvent env failed cause (pw_app w) with
      | (r, Some _) => (set_app w r, k, false)
      | (r, None) =>
          (saveCheckpoint env (aw_Name k) (se_GlobalPosition failed) (observe (set_app w r) (Skipped failed)),
           set_failed (set_position k (se_GlobalPosition failed) (aw_lastProcessedAt k)) None, true)
      end
  | _, _ => (w, k, false)
  end.

(** ** Reading the checkpoint *)

Definition checkpointReadRetries : nat := 3.

(** [n] attempts are left; the wait before a retry is the [n]-th select. *)
Fixpoint getCheckpointWithRetry (envs : nat → Env) (name : string) (n : nat) (lastErr : error) : op K error Z := λ ck,
  match n with
  | 0%nat => (ck, Err lastErr)
  | S n =>
      match ck_GetCheckpoint (envs n) name ck with
      | (ck, Ok pos) => (ck, Ok pos)
      | (ck, Err err) =>
          if isShutdownError err then (ck, Err err)
          else
            match n with
            | 0%nat => (ck, Err err)
            | _ => if ctx_Done (envs n) 0 then (ck, Err (ctx_DoneErr (envs n)))
                   else getCheckpointWithRetry envs name n err ck
            end
      end
  end.

(** ** The goroutine *)

Inductive exitReason := exitStopped | exitFaulted.

(** The variables of [superviseAsyncWorker]. *)
Record supervision := mkSupervision { sv_resumeFirst : bool; sv_restarts : Z }.

(** Where the goroutine is: about to run the worker, in its polling loop, in a
    backoff of that loop, waiting to restart it, or gone; a panic outside the
    batch takes the process down. *)
Inductive supervisor :=
| Launching (v : supervision)
| Polling (v : supervision) (poisonErrors backoffErrors : Z)
| BackingOff (v : supervision) (poisonErrors backoffErrors : Z) (delay : Duration)
| AwaitingRestart (v : supervision) (delay : Duration)
| Gone
| Crashed.

(** What a select delivers. *)
Inductive signal := SigEngineStop | SigWorkerStop | SigCtxDone | SigTimer.

Definition sys : Type := World (Store A P Ser X) K R * asyncProjectionWorker R.

(** The body of [superviseAsyncWorker] after a run of the worker. *)
Definition afterRun (reason : exitReason) (v : supervision) : sys → supervisor * sys := λ '(w, k),
  match reason with
  | exitStopped => (Gone, (w, k))
  | exitFaulted =>
      match ao_RestartPolicy (aw_options k) with
      | None => (Gone, (w, k))
      | Some policy =>
          let restarts := i64 (sv_restarts v + 1) in
          if negb (sp_ShouldRestart policy restarts (aw_lastError k)) then (Gone, (w, k))
          else (AwaitingRestart (mkSupervision (sv_resumeFirst v) restarts) (sp_Delay policy restarts),
                setState ProjectionStateRestarting (w, k))
      end
  end.

(** [runAsyncWorkerOnce] up to its loop: a ticker needs a positive period. *)
Definition catchUp (envs : nat → Env) (v : supervision) : sys → supervisor * sys := λ s,
  let '(w, k) := setState ProjectionStateCatchingUp s in
  let resume := sv_resumeFirst v || (0 <? sv_restarts v) in
  let start (startPosition : Z) (s : sys) :=
    (if ao_PollInterval (aw_options s.2) <=? 0 then Crashed else Polling v 0 0,
     setState ProjectionStateRunning (s.1, set_position s.2 startPosition (aw_lastProcessedAt s.2))) in
  match (if resume || negb (ao_StartFromBeginning (aw_options k)) then pw_checkpoints w else None) with
  | None => start 0 (w, k)
  | Some ck =>
      match getCheckpointWithRetry envs (aw_Name k) checkpointReadRetries (Errorf "") ck with
      | (ck, Ok pos) => start pos (set_checkpoints w (Some ck), k)
      | (ck, Err err) =>
          let s := (set_checkpoints w (Some ck), k) in
          if isShutdownError err then afterRun exitStopped v (setState ProjectionStateStopped s)
          else afterRun exitFaulted v (setError (Wrapf "load checkpoint: %w" err) s)
      end
  end.

(** [shift] is clamped to 18 and the delay to 30 seconds. *)
Definition backoffDelay (options : AsyncOptions R) (backoffErrors : Z) : Duration :=
  match ao_RetryPolicy options with
  | Some policy => rp_Delay policy (i64 (backoffErrors - 1))
  | None =>
      let shift := Z.min (i64 (backoffErrors - 1)) 18 in
      Z.min (i64 (100 * millisecond * Z.shiftl 1 shift)) (30 * second)
  end.

(** A tick of the loop that is not paused, and what follows the batch. *)
Definition pollOnce c (env : BatchEnv) (poisonEnv : Env) (v : supervision) (poisonErrors backoffErrors : Z) : sys → supervisor * sys :=
  λ s,
  match processAsyncBatch c env s with
  | (s, Ok _) =>
      if 0 <? backoffErrors then (Polling v 0 0, clearError s) else (Polling v poisonErrors backoffErrors, s)
  | (s, Err err) =>
      if errors_Is err ContextCanceled then afterRun exitStopped v (setState ProjectionStateStopped s)
      else
        let backoffErrors := i64 (backoffErrors + 1) in
        let isPoison :=
          match ao_ErrorClassifier (aw_options s.2) with
          | Some classify => negb (bool_decide (classify (Some err) = ErrorClassTransient))
          | None => true
          end in
        let poisonErrors := if isPoison then i64 (poisonErrors + 1) else poisonErrors in
        let s := if isPoison then setError err s else (s.1, setTransientError err s.2) in
        if isPoison && negb (shouldRetry s.2 poisonErrors err) then
          match handlePoisonEvent poisonEnv err s with
          | (w, k, true) => (Polling v 0 0, clearError (w, k))
          | (w, k, false) => afterRun exitFaulted v (w, k)
          end
        else (BackingOff v poisonErrors backoffErrors (backoffDelay (aw_options s.2) backoffErrors), s)
  end.

(** One turn: [launchEnvs] for a launch, [env] and [poisonEnv] for a batch. *)
Record TurnEnv := mkTurnEnv { te_launch : nat → Env; te_batch : BatchEnv; te_poison : Env }.

Definition turn c (env : TurnEnv) (sig : signal) (pc : supervisor) : sys → supervisor * sys := λ s,
  let stop (v : supervision) := afterRun exitStopped v (setState ProjectionStateStopped s) in
  match pc, sig with
  | Launching v, _ => catchUp (te_launch env) v s
  | Polling v poisonErrors backoffErrors, SigTimer =>
      if aw_paused s.2 then (Polling v poisonErrors backoffErrors, setState ProjectionStatePaused s)
      else pollOnce c (te_batch env) (te_poison env) v poisonErrors backoffErrors s
  | BackingOff v poisonErrors backoffErrors _, SigTimer => (Polling v poisonErrors backoffErrors, s)
  | AwaitingRestart v _, SigTimer => (Launching v, s)
  | Polling v _ _, _ | BackingOff v _ _ _, _ => stop v
  | AwaitingRestart _ _, _ => (Gone, setState ProjectionStateStopped s)
  | Gone, _ => (Gone, s)
  | Crashed, _ => (Crashed, s)
  end.
End Worker.
