(* ===== verification/Rebuilder.v ===== *)
(** * Rebuilding a projection

    [src/rebuilder.go]: clearing the read model, deleting the checkpoint and
    replaying the decrypted log through the projection, batch by batch.  The
    loop ends because it moves up the log; it has fuel, and [re_others] is what
    other writers append before a read. *)

From S2P Require Import Prelude.
From S2P Require Import Types.
From S2P Require Import Strconv.
From S2P Require Import Common.
From S2P Require Import Crypto.
From S2P Require Import EventLog.
From S2P Require Import EventStore.
From S2P Require Import Projection.
From S2P Require Import ProjectionWorker.

(** ** Progress *)

(** [d.Seconds()] *)
Definition durationSeconds (d : Duration) : float64 :=
  float64Add (float64OfInt (Z.quot d second)) (float64Div (float64OfInt (Z.rem d second)) (float64OfInt second)).

Definition buildProgress `{FloatConversion} (projectionName : string) (totalEvents processedEvents currentPosition : Z)
    (startTime now : Time) (completed : bool) (err : option error) : RebuildProgress :=
  let duration := i64 (now - startTime) in
  let eventsPerSecond :=
    if float64Positive (durationSeconds duration)
    then float64Div (float64OfInt processedEvents) (durationSeconds duration) else float64OfInt 0 in
  let estimatedRemaining :=
    if float64Positive eventsPerSecond && (processedEvents <? totalEvents)
    then i64 (int64OfFloat (float64Div (float64OfInt (u64 (totalEvents - processedEvents))) eventsPerSecond) * second)
    else 0 in
  mkRebuildProgress projectionName totalEvents processedEvents currentPosition startTime duration eventsPerSecond
    estimatedRemaining completed err.

(** ** The rebuilder *)

Record ProjectionRebuilder := mkProjectionRebuilder { rb_batchSize : Z }.

Definition WithRebuilderBatchSize (size : Z) (r : ProjectionRebuilder) : ProjectionRebuilder := mkProjectionRebuilder size.
Definition NewProjectionRebuilder (opts : list (ProjectionRebuilder → ProjectionRebuilder)) : ProjectionRebuilder :=
  foldl (λ r opt, opt r) (mkProjectionRebuilder 1000) opts.

(** The environments of one turn of the loop, and whether the progress ticker
    fires in it. *)
Record RebuildEnv (A : Type) := mkRebuildEnv {
  re_others : A → A;
  re_load : Env;
  re_now : nat → Time;
  re_apply : nat → Env;
  re_checkpoint : Env;
  re_tick : bool;
}.
Arguments mkRebuildEnv {A} _ _ _ _ _ _.
Arguments re_others {A} _.
Arguments re_load {A} _.
Arguments re_now {A} _.
Arguments re_apply {A} _.
Arguments re_checkpoint {A} _.
Arguments re_tick {A} _.

Section Rebuild.
Context {A P V Ser X K R : Type}.
Context `{AEAD} `{EventLogOps A} `{ProviderOps P} `{SerializerOps V Ser} `{SubjectIndexWriter X} `{MapOrder}.
Context `{CheckpointOps K} `{FloatConversion}.
Abbreviation world := (World (Store A P Ser X) K R).
Implicit Types w : world.
Implicit Types c : EventStore.

Definition processor : Type := (nat → Env) → list StoredEvent → op world error unit.

(** A method of the projection, not guarded against panics. *)
Definition callMethod {T} (m : method R T) (env : Env) (x : T) (taken : list StoredEvent) : op world error unit := λ w,
  match m env x (pw_app w) with
  | (r, Returned None) => (observe (set_app w r) (Applied taken), Ok tt)
  | (r, Returned (Some err)) => (set_app w r, Err err)
  | (r, Panicked _) => (set_app w r, Err (Panic "projection"))
  end.

(** [Apply] on the handled events, event after event. *)
Fixpoint applyEach (apply : method R StoredEvent) (handled : list string) (envs : nat → Env) (i : nat)
    (events : list StoredEvent) : op world error unit := λ w,
  match events with
  | [] => (w, Ok tt)
  | event :: events =>
      if ShouldHandleEventType handled (se_Type event) then
        match callMethod apply (envs i) event [event] w with
        | (w, Ok _) => applyEach apply handled envs (S i) events w
        | (w, Err err) => (w, Err err)
        end
      else applyEach apply handled envs (S i) events w
  end.

Definition rebuildAsyncBatch (projection : AsyncProjection R) : processor := λ envs events w,
  let filtered := foldl (λ acc event,
    if ShouldHandleEventType (ap_HandledEvents projection) (se_Type event) then acc ++ [event] else acc) [] events in
  match filtered with
  | [] => (w, Ok tt)
  | _ =>
      match callMethod (ap_ApplyBatch projection) (envs 0%nat) filtered filtered w with
      | (w, Err err) =>
          if errors_Is err ErrNotImplemented then
            applyEach (ap_Apply projection) [] (λ i, envs (S i)) 0 filtered w
          else (w, Err err)
      | (w, Ok _) => (w, Ok tt)
      end
  end.

Definition processInlineBatch (projection : InlineProjection R) : processor := λ envs events,
  applyEach (ip_Apply projection) (ip_HandledEvents projection) envs 0 events.

(** [loadEventsFromPosition]: decrypted. *)
Definition loadDecrypted c (r : ProjectionRebuilder) (env : RebuildEnv A) (from : Z) : op world error (list StoredEvent) :=
  λ w,
  match LoadEventsFromPosition (re_load env) from (rb_batchSize r) (pw_store w) with
  | Err err => (w, Err err)
  | Ok events =>
      let '(p, res) := decryptStoredEvents c (re_now env) 0 events [] (st_provider (pw_store w)) in
      (set_store w (set_provider (pw_store w) p), res)
  end.

(** The state of the loop. *)
Record progress := mkProgress { pr_processedEvents : Z; pr_currentPosition : Z }.

(** What is fixed during a rebuild. *)
Record job := mkJob {
  jb_name : string;
  jb_options : RebuildOptions;
  jb_process : processor;
  jb_total : Z;
  jb_start : Time;
}.

Definition report (j : job) (pr : progress) (now : Time) (completed : bool) w : world :=
  observe w (Progressed (buildProgress (jb_name j) (jb_total j) (pr_processedEvents pr) (pr_currentPosition pr)
    (jb_start j) now completed None)).

(** The turn of the loop, after the check of the context: [None] leaves it. *)
Definition rebuildTurn c (r : ProjectionRebuilder) (j : job) (env : RebuildEnv A) (pr : progress)
    : op world error (option progress * progress) := λ w,
  let o := jb_options j in
  let w := if ro_ProgressCallback o && (0 <? ro_ProgressInterval o) && re_tick env
           then report j pr (time_Now (re_load env) 1) false w else w in
  let w := set_store w (set_adapter (pw_store w) (re_others env (st_adapter (pw_store w)))) in
  match loadDecrypted c r env (pr_currentPosition pr) w with
  | (w, Err err) => (w, Err (Wrapf "failed to load events: %w" err))
  | (w, Ok events) =>
      let events := if 0 <? ro_ToPosition o then filter (λ e, se_GlobalPosition e ≤ ro_ToPosition o) events else events in
      match events with
      | [] => (w, Ok (None, pr))
      | _ =>
          match jb_process j (re_apply env) events w with
          | (w, Err err) => (w, Err (match err with Panic _ => err | _ => Wrapf "failed to process batch: %w" err end))
          | (w, Ok _) =>
              let lastPos := lastPosition events in
              let pr := mkProgress (u64 (pr_processedEvents pr + Z.of_nat (length events))) lastPos in
              let w := saveCheckpoint (re_checkpoint env) (jb_name j) lastPos w in
              (w, Ok (if (0 <? ro_ToPosition o) && (ro_ToPosition o <=? lastPos) then None else Some pr, pr))
          end
      end
  end.

Fixpoint rebuildLoop c (r : ProjectionRebuilder) (j : job) (fuel : nat) (envs : nat → RebuildEnv A) (pr : progress)
    : op world error progress := λ w,
  match fuel with
  | 0%nat => (w, Err Blocked)
  | S fuel =>
      if ctx_Done (re_load (envs 0%nat)) 0 then (w, Err (ctx_DoneErr (re_load (envs 0%nat))))
      else
        match rebuildTurn c r j (envs 0%nat) pr w with
        | (w, Err err) => (w, Err err)
        | (w, Ok (None, pr)) => (w, Ok pr)
        | (w, Ok (Some pr, _)) => rebuildLoop c r j fuel (λ n, envs (S n)) pr w
        end
  end.

(** [start] and [finish] are the environments of the calls before and after the
    loop. *)
Definition totalEvents (env : Env) (o : RebuildOptions) w : Z :=
  match GetLastPosition env (pw_store w) with
  | Err _ => 0
  | Ok pos =>
      let upper := if (0 <? ro_ToPosition o) && (ro_ToPosition o <? pos) then ro_ToPosition o else pos in
      if ro_FromPosition o <? upper then upper - ro_FromPosition o else 0
  end.

Definition rebuild c (r : ProjectionRebuilder) (fuel : nat) (start finish : Env) (envs : nat → RebuildEnv A)
    (projectionName : string) (processBatch : processor) (o : RebuildOptions) : op world error unit := λ w,
  let w :=
    match (if ro_DeleteCheckpoint o then pw_checkpoints w else None) with
    | Some ck => set_checkpoints w (Some (ck_DeleteCheckpoint start projectionName ck).1)
    | None => w
    end in
  let j := mkJob projectionName o processBatch (totalEvents start o w) (time_Now start 0) in
  match rebuildLoop c r j fuel envs (mkProgress 0 (ro_FromPosition o)) w with
  | (w, Err err) => (w, Err err)
  | (w, Ok pr) => (if ro_ProgressCallback o then report j pr (time_Now finish 0) true w else w, Ok tt)
  end.

Definition clearReadModel (env : Env) (clear : option (method R unit)) (o : RebuildOptions) : op world error unit := λ w,
  if negb (ro_ClearReadModel o) then (w, Ok tt)
  else
    match clear with
    | None => (w, Ok tt)
    | Some clear =>
        match clear env tt (pw_app w) with
        | (r, Returned None) => (observe (set_app w r) Cleared, Ok tt)
        | (r, Returned (Some err)) =>
            (observe (set_app w r) Cleared, Err (Wrapf "mink: failed to clear read model before rebuild: %w" err))
        | (r, Panicked _) => (observe (set_app w r) Cleared, Err (Panic "projection"))
        end
    end.

Definition RebuildAsync c (r : ProjectionRebuilder) (fuel : nat) (start finish : Env) (envs : nat → RebuildEnv A)
    (projection : AsyncProjection R) (opts : list RebuildOptions) : op world error unit := λ w,
  let options := match opts with o :: _ => o | [] => DefaultRebuildOptions end in
  match clearReadModel start (ap_Clear projection) options w with
  | (w, Err err) => (w, Err err)
  | (w, Ok _) => rebuild c r fuel start finish envs (ap_Name projection) (rebuildAsyncBatch projection) options w
  end.

(** An inline projection that is [Clearable] has a [clear]. *)
Definition RebuildInline c (r : ProjectionRebuilder) (fuel : nat) (start finish : Env) (envs : nat → RebuildEnv A)
    (projection : InlineProjection R) (clear : option (method R unit)) (opts : list RebuildOptions) : op world error unit :=
  λ w,
  let options := match opts with o :: _ => o | [] => DefaultRebuildOptions end in
  match clearReadModel start clear options w with
  | (w, Err err) => (w, Err err)
  | (w, Ok _) => rebuild c r fuel start finish envs (ip_Name projection) (processInlineBatch projection) options w
  end.
End Rebuild.
