(* ===== verification/ProjectionEngine.v ===== *)
(** * The projection engine

    The registries, the life cycle and the operator's commands of
    [src/projection_engine.go], and the inline and live paths.  Workers are
    named by their index in the order of registration, because a goroutine
    keeps its worker after [Unregister] took the name away; [en_threads] is the
    goroutines the wait group counts.  A call that holds a lock is one step.
    Logging and metrics are left out. *)

From S2P Require Import Prelude.
From S2P Require Import Types.
From S2P Require Import Strconv.
From S2P Require Import Common.
From S2P Require Import Crypto.
From S2P Require Import EventLog.
From S2P Require Import EventStore.
From S2P Require Import Projection.
From S2P Require Import ProjectionWorker.
From S2P Require Import Rebuilder.

(** ** Live workers *)

(** [lw_eventCh] is what the channel holds. *)
Record liveProjectionWorker (R : Type) := mkLiveWorker {
  lw_projection : LiveProjection R;
  lw_capacity : Z;
  lw_stopped : bool;
  lw_eventCh : list StoredEvent;
  lw_state : ProjectionState;
}.
Arguments mkLiveWorker {R} _ _ _ _ _.
Arguments lw_projection {R} _.
Arguments lw_capacity {R} _.
Arguments lw_stopped {R} _.
Arguments lw_eventCh {R} _.
Arguments lw_state {R} _.

Section Engine.
Context {A P V Ser X K R : Type}.
Context `{AEAD} `{EventLogOps A} `{ProviderOps P} `{SerializerOps V Ser} `{SubjectIndexWriter X} `{MapOrder}.
Context `{CheckpointOps K} `{FloatConversion} `{ErrorText}.
Abbreviation world := (World (Store A P Ser X) K R).
Abbreviation sys := (world * asyncProjectionWorker R)%type.
Implicit Types w : world.
Implicit Types c : EventStore.

Record ProjectionEngine := mkEngine {
  en_world : world;
  en_inline : list (InlineProjection R);
  en_workers : list (asyncProjectionWorker R);
  en_async : gmap string nat;
  en_threads : list (nat * supervisor);
  en_liveWorkers : list (liveProjectionWorker R);
  en_live : gmap string nat;
  en_running : bool;
  en_stopping : bool;
  en_stopClosed : bool; (* stopCh *)
}.
Implicit Types e : ProjectionEngine.

Definition NewProjectionEngine w : ProjectionEngine := mkEngine w [] [] ∅ [] [] ∅ false false false.

Definition set_world e w : ProjectionEngine :=
  mkEngine w (en_inline e) (en_workers e) (en_async e) (en_threads e) (en_liveWorkers e) (en_live e) (en_running e)
    (en_stopping e) (en_stopClosed e).
Definition set_inline e (l : list (InlineProjection R)) : ProjectionEngine :=
  mkEngine (en_world e) l (en_workers e) (en_async e) (en_threads e) (en_liveWorkers e) (en_live e) (en_running e)
    (en_stopping e) (en_stopClosed e).
Definition set_async e (ws : list (asyncProjectionWorker R)) (m : gmap string nat) : ProjectionEngine :=
  mkEngine (en_world e) (en_inline e) ws m (en_threads e) (en_liveWorkers e) (en_live e) (en_running e)
    (en_stopping e) (en_stopClosed e).
Definition set_threads e (ts : list (nat * supervisor)) : ProjectionEngine :=
  mkEngine (en_world e) (en_inline e) (en_workers e) (en_async e) ts (en_liveWorkers e) (en_live e) (en_running e)
    (en_stopping e) (en_stopClosed e).
Definition set_live e (ws : list (liveProjectionWorker R)) (m : gmap string nat) : ProjectionEngine :=
  mkEngine (en_world e) (en_inline e) (en_workers e) (en_async e) (en_threads e) ws m (en_running e)
    (en_stopping e) (en_stopClosed e).
Definition set_flags e (running stopping stopClosed : bool) : ProjectionEngine :=
  mkEngine (en_world e) (en_inline e) (en_workers e) (en_async e) (en_threads e) (en_liveWorkers e) (en_live e) running
    stopping stopClosed.

(** A change of the [i]-th worker and the world. *)
Definition on_worker (f : sys → sys) (i : nat) e : ProjectionEngine :=
  match en_workers e !! i with
  | Some k => let '(w, k) := f (en_world e, k) in set_async (set_world e w) (<[i := k]> (en_workers e)) (en_async e)
  | None => e
  end.

Definition set_liveState (st : ProjectionState) (i : nat) e : ProjectionEngine :=
  match en_liveWorkers e !! i with
  | Some k =>
      set_live (set_world e (notifyStateObserver (lp_Name (lw_projection k)) (lw_state k) st None (en_world e)))
        (<[i := mkLiveWorker (lw_projection k) (lw_capacity k) (lw_stopped k) (lw_eventCh k) st]> (en_liveWorkers e))
        (en_live e)
  | None => e
  end.

(** ** Registration *)

Definition notFound : error := Wrapf "%w: %s" ErrProjectionNotFound.
Definition duplicate : error := Wrapf "%w: %s" ErrProjectionAlreadyRegistered.

(** A nil projection is [None]. *)
Definition RegisterInline (projection : option (InlineProjection R)) : op ProjectionEngine error unit := λ e,
  match validateProjection (ip_Name <$> projection), projection with
  | Ok _, Some projection =>
      if existsb (λ p, bool_decide (ip_Name p = ip_Name projection)) (en_inline e) then (e, Err duplicate)
      else (set_inline e (en_inline e ++ [projection]), Ok tt)
  | Err err, _ => (e, Err err)
  | _, None => (e, Err ErrNilProjection)
  end.

Definition RegisterAsync (projection : option (AsyncProjection R)) (opts : list (AsyncOptions R))
    : op ProjectionEngine error unit := λ e,
  match validateProjection (ap_Name <$> projection), projection with
  | Ok _, Some projection =>
      let options := match opts with o :: _ => o | [] => DefaultAsyncOptions end in
      match en_async e !! ap_Name projection with
      | Some _ => (e, Err duplicate)
      | None => (set_async e (en_workers e ++ [newWorker projection options])
                   (<[ap_Name projection := length (en_workers e)]> (en_async e)), Ok tt)
      end
  | Err err, _ => (e, Err err)
  | _, None => (e, Err ErrNilProjection)
  end.

Definition RegisterLive (projection : option (LiveProjection R)) (opts : list LiveOptions)
    : op ProjectionEngine error unit := λ e,
  match validateProjection (lp_Name <$> projection), projection with
  | Ok _, Some projection =>
      let options := match opts with o :: _ => o | [] => DefaultLiveOptions end in
      let size := if lo_BufferSize options <=? 0 then 1000 else lo_BufferSize options in
      match en_live e !! lp_Name projection with
      | Some _ => (e, Err duplicate)
      | None =>
          match makechan size with
          | Err p => (e, Err p)
          | Ok _ => (set_live e (en_liveWorkers e ++ [mkLiveWorker projection size false [] ProjectionStateStopped])
                       (<[lp_Name projection := length (en_liveWorkers e)]> (en_live e)), Ok tt)
          end
      end
  | Err err, _ => (e, Err err)
  | _, None => (e, Err ErrNilProjection)
  end.

(** Inline projections first, then async ones, then live ones. *)
Definition Unregister (name : string) : op ProjectionEngine error unit := λ e,
  if bool_decide (name = "") then (e, Err ErrEmptyProjectionName)
  else
    match list_find (λ p, ip_Name p = name) (en_inline e) with
    | Some (i, _) => (set_inline e (take i (en_inline e) ++ drop (S i) (en_inline e)), Ok tt)
    | None =>
        match en_async e !! name with
        | Some i =>
            let e := on_worker (λ '(w, k), (w, set_stopped k)) i e in
            (set_async e (en_workers e) (delete name (en_async e)), Ok tt)
        | None =>
            match en_live e !! name with
            | Some i =>
                let stop (k : liveProjectionWorker R) := mkLiveWorker (lw_projection k) (lw_capacity k) true (lw_eventCh k) (lw_state k) in
                (set_live e (alter stop i (en_liveWorkers e)) (delete name (en_live e)), Ok tt)
            | None => (e, Err notFound)
            end
        end
    end.

(** ** Life cycle *)

(** [launchSupervisor]: one goroutine per worker, none while the engine stops. *)
Definition launchSupervisor (i : nat) (resumeFirst : bool) e : ProjectionEngine * bool :=
  match en_workers e !! i with
  | None => (e, false)
  | Some k =>
      if aw_supervising k then (e, false)
      else if en_stopping e then (e, false)
      else
        let e := on_worker (λ '(w, k), (w, set_supervising k true)) i e in
        (set_threads e (en_threads e ++ [(i, Launching (mkSupervision resumeFirst 0))]), true)
  end.

(** The live goroutines set their state first. *)
Definition Start : op ProjectionEngine error unit := λ e,
  if en_running e then (e, Err ErrProjectionEngineAlreadyRunning)
  else
    match pw_checkpoints (en_world e) with
    | None => (e, Err ErrNoCheckpointStore)
    | Some _ =>
        let e := set_flags e true false false in
        let e := foldl (λ e '(_, i), (launchSupervisor i false e).1) e (range (en_async e)) in
        (foldl (λ e '(_, i), set_liveState ProjectionStateRunning i e) e (range (en_live e)), Ok tt)
    end.

(** [Stop] up to the wait for the goroutines: false when there is nothing to
    wait for.  A second call during the wait closes the channel again. *)
Definition beginStop : op ProjectionEngine error bool := λ e,
  if negb (en_running e) then (e, Ok false)
  else if en_stopClosed e then (set_flags e (en_running e) true true, Err (Panic "close of closed channel"))
  else (set_flags e (en_running e) true true, Ok true).

(** The rest: [ctxErr] is what the context reports when it wins the select. *)
Definition endStop (ctxErr : option error) : op ProjectionEngine error unit := λ e,
  (set_flags e false (en_stopping e) (en_stopClosed e), match ctxErr with None => Ok tt | Some err => Err err end).

(** The signals the [i]-th worker's goroutine can get: a closed channel, the
    context, a timer. *)
Definition signalled (ctxDone : bool) (i : nat) (sig : signal) e : bool :=
  match sig with
  | SigEngineStop => en_stopClosed e
  | SigWorkerStop => match en_workers e !! i with Some k => aw_stopped k | None => false end
  | SigCtxDone => ctxDone
  | SigTimer => true
  end.

(** A turn of the [t]-th goroutine. *)
Definition runThread c (env : TurnEnv) (ctxDone : bool) (sig : signal) (t : nat) e : ProjectionEngine :=
  match en_threads e !! t with
  | Some (i, pc) =>
      match en_workers e !! i with
      | Some k =>
          if signalled ctxDone i sig e then
            let '(pc, (w, k)) := turn c env sig pc (en_world e, k) in
            set_threads (set_async (set_world e w) (<[i := k]> (en_workers e)) (en_async e)) (<[t := (i, pc)]> (en_threads e))
          else e
      | None => e
      end
  | None => e
  end.

(** The deferred calls of a goroutine that returned: the guard, then the wait
    group. *)
Definition retireThread (t : nat) e : ProjectionEngine :=
  match en_threads e !! t with
  | Some (i, Gone) =>
      let e := on_worker (λ '(w, k), (w, set_supervising k false)) i e in
      set_threads e (take t (en_threads e) ++ drop (S t) (en_threads e))
  | _ => e
  end.

(** ** Operator commands *)

Definition pauseWorker : sys → sys := λ '(w, k), setState ProjectionStatePaused (w, set_paused k true).
Definition resumeWorker : sys → sys := λ '(w, k), setState ProjectionStateRunning (w, set_paused k false).

Definition Pause (name : string) : op ProjectionEngine error unit := λ e,
  match en_async e !! name, en_live e !! name with
  | Some i, _ => (on_worker pauseWorker i e, Ok tt)
  | None, Some i => (set_liveState ProjectionStatePaused i e, Ok tt)
  | None, None => (e, Err notFound)
  end.

Definition Resume (name : string) : op ProjectionEngine error unit := λ e,
  match en_async e !! name, en_live e !! name with
  | Some i, _ => (on_worker resumeWorker i e, Ok tt)
  | None, Some i => (set_liveState ProjectionStateRunning i e, Ok tt)
  | None, None => (e, Err notFound)
  end.

(** The environments of a rebuild. *)
Record RebuildCall := mkRebuildCall {
  rc_fuel : nat;
  rc_start : Env;
  rc_finish : Env;
  rc_turns : nat → RebuildEnv A;
}.

(** The critical section of [Rebuild]: the position is the rebuilt checkpoint,
    0 when it cannot be read. *)
Definition rebuildLocked c (call : RebuildCall) (opts : list RebuildOptions) : op sys error unit := λ '(w, k),
  match RebuildAsync c (NewProjectionRebuilder []) (rc_fuel call) (rc_start call) (rc_finish call) (rc_turns call)
          (aw_projection k) opts w with
  | (w, Err err) => ((w, k), Err err)
  | (w, Ok _) =>
      let '(w, pos) :=
        match pw_checkpoints w with
        | Some ck =>
            let '(ck, r) := ck_GetCheckpoint (rc_finish call) (aw_Name k) ck in
            (set_checkpoints w (Some ck), match r with Ok p => p | Err _ => 0 end)
        | None => (w, 0)
        end in
      ((w, set_position k pos (aw_lastProcessedAt k)), Ok tt)
  end.

Definition rebuildWorker c (call : RebuildCall) (opts : list RebuildOptions) : op sys error unit := λ '(w, k),
  let wasPaused := aw_paused k in
  let '((w, k), r) := rebuildLocked c call opts (setState ProjectionStateRebuilding (w, set_paused k true)) in
  (setState (if wasPaused then ProjectionStatePaused else ProjectionStateRunning) (w, set_paused k wasPaused), r).

Definition Rebuild c (call : RebuildCall) (name : string) (opts : list RebuildOptions) : op ProjectionEngine error unit :=
  λ e,
  match en_async e !! name with
  | None => (e, Err notFound)
  | Some i =>
      match en_workers e !! i with
      | None => (e, Err notFound)
      | Some k =>
          let '((w, k), r) := rebuildWorker c call opts (en_world e, k) in
          (set_async (set_world e w) (<[i := k]> (en_workers e)) (en_async e), r)
      end
  end.

Definition Restart (name : string) : op ProjectionEngine error unit := λ e,
  match en_async e !! name with
  | None => (e, Err notFound)
  | Some i =>
      if negb (en_running e) || en_stopping e then (e, Ok tt)
      else
        match en_workers e !! i with
        | Some k =>
            if negb (bool_decide (aw_state k = ProjectionStateFaulted)) then (e, Ok tt)
            else ((launchSupervisor i true e).1, Ok tt)
        | None => (e, Ok tt)
        end
  end.

(** ** Status *)

Definition liveStatus (k : liveProjectionWorker R) : ProjectionStatus :=
  mkProjectionStatus (lp_Name (lw_projection k)) (lw_state k) 0 0 0 "" 0 0.
Definition inlineStatus (name : string) : ProjectionStatus :=
  mkProjectionStatus name ProjectionStateRunning 0 0 0 "" 0 0.

Definition GetStatus (name : string) e : res ProjectionStatus :=
  match en_async e !! name ≫= λ i, en_workers e !! i with
  | Some k => Ok (getStatus k)
  | None =>
      match en_live e !! name ≫= λ i, en_liveWorkers e !! i with
      | Some k => Ok (liveStatus k)
      | None =>
          if existsb (λ p, bool_decide (ip_Name p = name)) (en_inline e) then Ok (inlineStatus name) else Err notFound
      end
  end.

Definition GetAllStatuses e : list ProjectionStatus :=
  (getStatus <$> omap (λ '(_, i), en_workers e !! i) (range (en_async e))) ++
  (liveStatus <$> omap (λ '(_, i), en_liveWorkers e !! i) (range (en_live e))) ++
  ((λ p, inlineStatus (ip_Name p)) <$> en_inline e).

(** ** Inline projections *)

Definition anyInlineHandles (projections : list (InlineProjection R)) (eventType : string) : bool :=
  existsb (λ p, ShouldHandleEventType (ip_HandledEvents p) eventType) projections.

(** A panic becomes a [ProjectionError]. *)
Definition applyInline (env : Env) (projection : InlineProjection R) (event : StoredEvent) : op world error unit := λ w,
  match ip_Apply projection env event (pw_app w) with
  | (r, Returned None) => (observe (set_app w r) (Applied [event]), Ok tt)
  | (r, Returned (Some err)) => (observe (set_app w r) (NotApplied [event]), Err err)
  | (r, Panicked _) =>
      (observe (set_app w r) (NotApplied [event]),
       Err (ProjectionError (ip_Name projection) (se_Type event) (se_GlobalPosition event)
              (Errorf "panic processing event %s (stream %s) at position %d: %s")))
  end.

Fixpoint applyInlineAll (envs : nat → Env) (i : nat) (projections : list (InlineProjection R)) (event : StoredEvent)
    : op world error unit := λ w,
  match projections with
  | [] => (w, Ok tt)
  | projection :: projections =>
      if negb (ShouldHandleEventType (ip_HandledEvents projection) (se_Type event)) then
        applyInlineAll envs (S i) projections event w
      else
        match applyInline (envs i) projection event w with
        | (w, Err err) => (w, Err (Wrapf "inline projection %s failed: %w" err))
        | (w, Ok _) => applyInlineAll envs (S i) projections event w
        end
  end.

Fixpoint ProcessInlineProjections c (now : nat → Time) (envs : nat → nat → Env) (i : nat)
    (projections : list (InlineProjection R)) (events : list StoredEvent) : op world error unit := λ w,
  match events with
  | [] => (w, Ok tt)
  | event :: events =>
      if negb (anyInlineHandles projections (se_Type event)) then
        ProcessInlineProjections c now envs (S i) projections events w
      else
        match DecryptStoredEvent c (now i) event (st_provider (pw_store w)) with
        | (p, Err err) =>
            (set_store w (set_provider (pw_store w) p),
             Err (Wrapf "inline projection decrypt event at position %d: %w" err))
        | (p, Ok event) =>
            match applyInlineAll (envs i) 0 projections event (set_store w (set_provider (pw_store w) p)) with
            | (w, Err err) => (w, Err err)
            | (w, Ok _) => ProcessInlineProjections c now envs (S i) projections events w
            end
        end
  end.

(** ** Live projections *)

Definition liveWorkersHandling (workers : list (liveProjectionWorker R)) (eventType : string) : list string :=
  foldl (λ names k, if ShouldHandleEventType (lp_HandledEvents (lw_projection k)) eventType
                    then names ++ [lp_Name (lw_projection k)] else names) [] workers.

(** An event that cannot be decrypted is dropped. *)
Fixpoint decryptLive c (now : nat → Time) (workers : list (liveProjectionWorker R)) (i : nat)
    (events out : list StoredEvent) (p : P) : P * list StoredEvent :=
  match events with
  | [] => (p, out)
  | ev :: events =>
      if bool_decide (length (liveWorkersHandling workers (se_Type ev)) = 0%nat) then
        decryptLive c now workers (S i) events (out ++ [ev]) p
      else
        match DecryptStoredEvent c (now i) ev p with
        | (p, Err _) => decryptLive c now workers (S i) events out p
        | (p, Ok dec) => decryptLive c now workers (S i) events (out ++ [dec]) p
        end
  end.

(** What the select of a send chooses: [Sent] when the channel has room. *)
Inductive delivery := Sent | ToStoppedWorker | CtxCancelled.

(** One worker: false when the context ended the fan-out. *)
Fixpoint deliverTo (choose : nat → delivery) (j : nat) (events : list StoredEvent) (k : liveProjectionWorker R)
    : liveProjectionWorker R * bool :=
  match events with
  | [] => (k, true)
  | event :: events =>
      if negb (ShouldHandleEventType (lp_HandledEvents (lw_projection k)) (se_Type event)) then
        deliverTo choose (S j) events k
      else
        match choose j with
        | Sent =>
            deliverTo choose (S j) events
              (mkLiveWorker (lw_projection k) (lw_capacity k) (lw_stopped k) (lw_eventCh k ++ [event]) (lw_state k))
        | ToStoppedWorker => (k, true)
        | CtxCancelled => (k, false)
        end
  end.

Fixpoint fanOut (choose : nat → nat → delivery) (events : list StoredEvent) (workers : list nat)
    (ws : list (liveProjectionWorker R)) : list (liveProjectionWorker R) :=
  match workers with
  | [] => ws
  | i :: workers =>
      match ws !! i with
      | None => fanOut choose events workers ws
      | Some k =>
          if negb (bool_decide (lw_state k = ProjectionStateRunning)) then fanOut choose events workers ws
          else
            match deliverTo (choose i) 0 events k with
            | (k, true) => fanOut choose events workers (<[i := k]> ws)
            | (k, false) => <[i := k]> ws
            end
      end
  end.

Definition NotifyLiveProjections c (now : nat → Time) (choose : nat → nat → delivery) (events : list StoredEvent) e
    : ProjectionEngine :=
  let workers := snd <$> range (en_live e) in
  let w := en_world e in
  let '(p, events) :=
    match es_encryption c with
    | None => (st_provider (pw_store w), events)
    | Some _ => decryptLive c now (omap (λ i, en_liveWorkers e !! i) workers) 0 events [] (st_provider (pw_store w))
    end in
  set_live (set_world e (set_store w (set_provider (pw_store w) p))) (fanOut choose events workers (en_liveWorkers e))
    (en_live e).

(** A panic of the projection is only logged. *)
Definition deliverLiveEvent (env : Env) (projection : LiveProjection R) (event : StoredEvent) w : world :=
  match lp_OnEvent projection env event (pw_app w) with
  | (r, Returned _) => observe (set_app w r) (Applied [event])
  | (r, Panicked _) => observe (set_app w r) (NotApplied [event])
  end.

(** The next event of the channel. *)
Definition liveTurn (env : Env) (i : nat) e : ProjectionEngine :=
  match en_liveWorkers e !! i with
  | Some k =>
      match lw_eventCh k with
      | [] => e
      | event :: rest =>
          set_live (set_world e (deliverLiveEvent env (lw_projection k) event (en_world e)))
            (<[i := mkLiveWorker (lw_projection k) (lw_capacity k) (lw_stopped k) rest (lw_state k)]> (en_liveWorkers e))
            (en_live e)
      end
  | None => e
  end.

(** [drainLiveWorker]: everything the channel holds. *)
Definition drainLiveWorker (envs : nat → Env) (i : nat) e : ProjectionEngine :=
  match en_liveWorkers e !! i with
  | Some k => foldl (λ e j, liveTurn (envs j) i e) e (seq 0 (length (lw_eventCh k)))
  | None => e
  end.

(** The end of a live goroutine: it drains unless its context is done. *)
Definition stopLiveWorker (envs : nat → Env) (ctxDone : bool) (i : nat) e : ProjectionEngine :=
  set_liveState ProjectionStateStopped i (if ctxDone then e else drainLiveWorker envs i e).
End Engine.
