(* ===== verification/ProjectionCoverage.v ===== *)
(** * What a projection has seen

    A position is covered when the projection was given the event there and
    took it, or when the poison handler agreed to skip the batch it belonged
    to, since the read model was last cleared.  The lemmas say what a read of
    the log, a batch, a skip and a rebuild cover. *)

From S2P Require Import Prelude.
From S2P Require Import Types.
From S2P Require Import Strconv.
From S2P Require Import Common.
From S2P Require Import Crypto.
From S2P Require Import Subject.
From S2P Require Import FieldEncryption.
From S2P Require Import LogInvariant.
From S2P Require Import MemoryTheorems.
From S2P Require Import EventLog.
From S2P Require Import EventStore.
From S2P Require Import Projection.
From S2P Require Import ProjectionWorker.
From S2P Require Import Rebuilder.
From S2P Require Import ProjectionEngine.

(** ** Coverage *)

Definition afterClear (l : list call) : list call :=
  foldl (λ acc c, match c with Cleared => [] | _ => acc ++ [c] end) [] l.

Definition positions (es : list StoredEvent) : list Z := se_GlobalPosition <$> es.

Definition covers (l : list call) (pos : Z) : Prop :=
  (∃ es, Applied es ∈ l ∧ pos ∈ positions es) ∨
  (∃ es a, NotApplied es ∈ l ∧ pos ∈ positions es ∧ last es = Some a ∧ Skipped a ∈ l).

Definition covered (calls : list call) (pos : Z) : Prop := covers (afterClear calls) pos.

(** The calls after [l], none of which cleared the read model. *)
Definition continues (l l' : list call) : Prop := ∃ m, l' = l ++ m ∧ Cleared ∉ m.

Lemma afterClear_app l m : Cleared ∉ m → afterClear (l ++ m) = afterClear l ++ m.
Proof.
  unfold afterClear. rewrite foldl_app. generalize (foldl (λ acc c, match c with Cleared => [] | _ => acc ++ [c] end) [] l).
  induction m as [|c m IH]; intros acc Hc; cbn [foldl]; [by rewrite app_nil_r|].
  apply not_elem_of_cons in Hc as [Hc Hm]. rewrite IH by done. destruct c; try done; by rewrite <- app_assoc.
Qed.

Lemma afterClear_Cleared l m : Cleared ∉ m → afterClear (l ++ Cleared :: m) = m.
Proof. intros Hm. unfold afterClear. rewrite foldl_app. cbn [foldl]. apply (afterClear_app [] m Hm). Qed.

Lemma covers_mono l l' pos : l ⊆ l' → covers l pos → covers l' pos.
Proof. intros Hs [(es & He & Hp)|(es & a & He & Hp & Hl & Ha)]; [left|right]; naive_solver. Qed.

Lemma covered_continues l l' pos : continues l l' → covered l pos → covered l' pos.
Proof.
  intros (m & -> & Hm). unfold covered. rewrite afterClear_app by done. apply covers_mono. set_solver.
Qed.

#[export] Instance continues_preorder : PreOrder continues.
Proof.
  split; [intros l; exists []; split; [by rewrite app_nil_r|set_solver]|].
  intros l1 l2 l3 (m1 & -> & H1) (m2 & -> & H2). exists (m1 ++ m2). rewrite app_assoc. split; [done|set_solver].
Qed.

Lemma continues_snoc l c : c ≠ Cleared → continues l (l ++ [c]).
Proof. intros Hc. exists [c]. split; [done|set_solver]. Qed.

Lemma covered_snoc_Applied l es pos : pos ∈ positions es → covered (l ++ [Applied es]) pos.
Proof. intros Hp. unfold covered. rewrite afterClear_app by set_solver. left. exists es. set_solver. Qed.

(** ** The log *)

Definition headOf (log : list StoredEvent) : Z := default 0 (se_GlobalPosition <$> last log).

(** The log reaches [p], and [Q] holds of every handled event up to it. *)
Definition below (handled : list string) (log : list StoredEvent) (Q : Z → Prop) (p : Z) : Prop :=
  p ≤ headOf log ∧
  ∀ e, e ∈ log → ShouldHandleEventType handled (se_Type e) = true → se_GlobalPosition e ≤ p → Q (se_GlobalPosition e).

Definition shape (e : StoredEvent) : Z * string := (se_GlobalPosition e, se_Type e).

(** Other writers append, and may rewrite payloads in place. *)
Definition grows (l l' : list StoredEvent) : Prop := ∃ old new, l' = old ++ new ∧ shape <$> old = shape <$> l.

Definition log_ok (log : list StoredEvent) : Prop :=
  strictly_increasing se_GlobalPosition log ∧ ∀ e, e ∈ log → 0 < se_GlobalPosition e.


Lemma headOf_in log : log ≠ [] → ∃ e, e ∈ log ∧ headOf log = se_GlobalPosition e.
Proof.
  intros Hne. unfold headOf. destruct (last log) as [e|] eqn:E; [|by apply last_None in E].
  exists e. split; [by apply last_Some_elem_of|done].
Qed.

Lemma headOf_max log e : strictly_increasing se_GlobalPosition log → e ∈ log → se_GlobalPosition e ≤ headOf log.
Proof.
  intros Hs [i Hi]%list_elem_of_lookup. unfold headOf. rewrite last_lookup.
  pose proof (lookup_lt_Some _ _ _ Hi) as Hlt.
  destruct (lookup_lt_is_Some_2 log (pred (length log))) as [x Hx]; [lia|]. rewrite Hx. cbn.
  destruct (decide (i = pred (length log))) as [->|]; [by simplify_eq|]. specialize (Hs i _ e x Hi Hx). lia.
Qed.

Lemma shape_in (old l : list StoredEvent) e :
  shape <$> old = shape <$> l → e ∈ old →
  ∃ e0, e0 ∈ l ∧ se_GlobalPosition e0 = se_GlobalPosition e ∧ se_Type e0 = se_Type e.
Proof.
  intros Hs He. assert (shape e ∈ shape <$> l) as Hin by (rewrite <- Hs; by apply list_elem_of_fmap_2).
  apply list_elem_of_fmap in Hin as (e0 & Hsh & Hin). unfold shape in Hsh. simplify_eq. by exists e0.
Qed.

Lemma below_grows handled l l' (Q Q' : Z → Prop) p :
  grows l l' → log_ok l → log_ok l' → (∀ q, Q q → Q' q) → below handled l Q p → below handled l' Q' p.
Proof.
  intros (old & new & -> & Hs) [Hl _] [Hl' Hpos] Hc [Hh Hup].
  assert (∀ e, e ∈ new → headOf l < se_GlobalPosition e) as Hnew.
  { intros e He. destruct (decide (l = [])) as [->|Hne].
    { cbn. apply Hpos. set_solver. }
    destruct (headOf_in l Hne) as (x & Hx & ->).
    destruct (shape_in l old x (eq_sym Hs) Hx) as (x0 & Hx0 & <- & _).
    apply list_elem_of_lookup in He as [j Hj]. apply list_elem_of_lookup in Hx0 as [i Hi].
    pose proof (lookup_lt_Some _ _ _ Hi).
    eapply (Hl' i (length old + j)%nat); [by rewrite lookup_app_l|rewrite lookup_app_r by lia; by rewrite Nat.add_sub'|lia]. }
  split.
  - destruct new as [|y new]; [|pose proof (Hnew y ltac:(set_solver)); pose proof (headOf_max _ y Hl' ltac:(set_solver)); lia].
    rewrite app_nil_r in *. destruct (decide (l = [])) as [->|Hne].
    { apply fmap_nil_inv in Hs as ->. done. }
    destruct (headOf_in l Hne) as (x & Hx & Eh). destruct (shape_in l old x (eq_sym Hs) Hx) as (x0 & Hx0 & E0 & _).
    pose proof (headOf_max _ x0 Hl' Hx0). lia.
  - intros e [He|He]%elem_of_app Hh' Hp; [|specialize (Hnew e He); lia].
    destruct (shape_in old l e Hs He) as (e0 & Hin & Ep & Ht). rewrite <- Ep. apply Hc.
    apply Hup; [done|by rewrite Ht|lia].
Qed.

Lemma grows_refl l : grows l l.
Proof. exists l, []. by rewrite app_nil_r. Qed.

Lemma headOf_nonneg l : log_ok l → 0 ≤ headOf l.
Proof.
  intros [_ Hpos]. destruct (decide (l = [])) as [->|Hne]; [done|]. destruct (headOf_in _ Hne) as (e & He & ->).
  specialize (Hpos e He). lia.
Qed.

Lemma below_zero handled l (Q : Z → Prop) : log_ok l → below handled l Q 0.
Proof.
  intros Hok. split; [by apply headOf_nonneg|]. intros e He _ Hle. destruct Hok as [_ Hpos]. specialize (Hpos e He). lia.
Qed.

Lemma grows_trans l1 l2 l3 : grows l1 l2 → grows l2 l3 → grows l1 l3.
Proof.
  intros (o1 & n1 & -> & E1) (o2 & n2 & -> & E2). rewrite fmap_app in E2.
  exists (take (length o1) o2), (drop (length o1) o2 ++ n2). rewrite app_assoc, take_drop. split; [done|].
  rewrite fmap_take, E2, take_app_length'; [done|]. by rewrite length_fmap.
Qed.

Section Coverage.
Context {A P V Ser X K R : Type}.
Context `{AEAD} `{EventLogOps A} `{!EventLogLaws A} `{ProviderOps P} `{SerializerOps V Ser} `{SubjectIndexWriter X} `{MapOrder}.
Context `{CheckpointOps K} `{!CheckpointLaws K}.
Abbreviation world := (World (Store A P Ser X) K R).
Implicit Types w : world.
Implicit Types k : asyncProjectionWorker R.
Implicit Types c : EventStore.

Definition logOf (s : Store A P Ser X) : list StoredEvent := LogSpec.log (el_view (st_adapter s)).

Lemma log_ok_wf (s : Store A P Ser X) : el_wf (st_adapter s) → log_ok (logOf s).
Proof. intros Hwf. split; [by apply el_positions|]. intros e He. by apply (el_numbered _ e Hwf He). Qed.

(** ** Reading *)

Lemma load_page env from limit (s : Store A P Ser X) events :
  el_wf (st_adapter s) → LoadEventsFromPosition env from limit s = Ok events →
  ∃ n, (0 < n)%nat ∧ events = take n (selected from emptyFilter (logOf s)).
Proof.
  intros Hwf. unfold LoadEventsFromPosition. rewrite el_feed_spec by done. unfold LogSpec.feed. intros E. inv_ok.
  eexists. split; [|reflexivity]. pose proof (DefaultLimit_pos limit 1000). lia.
Qed.

Definition page (from : Z) (log events : list StoredEvent) : Prop :=
  ∃ n, events = take n (selected from emptyFilter log).

Lemma page_in from log events e : page from log events → e ∈ events → e ∈ log ∧ from < se_GlobalPosition e.
Proof.
  intros (n & ->) He. apply (subseteq_take n) in He. unfold selected in He. apply list_elem_of_filter in He. naive_solver.
Qed.

Lemma page_take from log events i : page from log events → page from log (take i events).
Proof. intros (n & ->). rewrite take_take. by eexists. Qed.

Lemma lastPosition_in events : events ≠ [] → ∃ e, last events = Some e ∧ e ∈ events ∧ lastPosition events = se_GlobalPosition e.
Proof.
  intros Hne. unfold lastPosition. destruct (last events) as [e|] eqn:E; [|by apply last_None in E].
  exists e. split; [done|]. split; [by apply last_Some_elem_of|done].
Qed.

(** A page holds every event between where it starts and where it ends. *)
Lemma page_complete from log events e :
  log_ok log → page from log events → e ∈ log → from < se_GlobalPosition e → se_GlobalPosition e ≤ lastPosition events →
  events ≠ [] → e ∈ events.
Proof.
  intros [Hs _] (n & ->) He Hf Hl Hne. destruct (lastPosition_in _ Hne) as (x & Hx & _ & Ex). rewrite Ex in Hl.
  eapply page_covers; [|exact Hx| |done]; [by apply strictly_increasing_filter|].
  unfold selected. apply list_elem_of_filter. split; [|done]. split; [done|apply FeedFilter_Matches_empty].
Qed.

Lemma page_last from log events : log_ok log → page from log events → events ≠ [] → lastPosition events ≤ headOf log.
Proof.
  intros [Hs _] Hp Hne. destruct (lastPosition_in _ Hne) as (x & _ & Hx & ->). apply headOf_max; [done|].
  by eapply page_in in Hx as [Hx _].
Qed.

Lemma page_increasing from log events : log_ok log → page from log events → strictly_increasing se_GlobalPosition events.
Proof.
  intros [Hs _] (n & ->) i j x y Hi Hj Hij. apply lookup_take_Some in Hi as [Hi _], Hj as [Hj _].
  by eapply (strictly_increasing_filter se_GlobalPosition); [|exact Hi|exact Hj|].
Qed.

(** ** Selecting *)

Lemma DecryptStoredEvent_shape c now e e' (p p' : P) :
  DecryptStoredEvent c now e p = (p', Ok e') → shape e' = shape e.
Proof.
  unfold DecryptStoredEvent. destruct (es_encryption c); [|by intros [= _ <-]].
  destruct (negb _); [by intros [= _ <-]|]. destruct (decryptFields _ _ _ _ _ _ _) as [p1 [dec|err]]; [|done].
  by intros [= _ <-].
Qed.

Definition handles (handled : list string) (e : StoredEvent) : Prop := ShouldHandleEventType handled (se_Type e) = true.
#[export] Instance handles_dec handled e : Decision (handles handled e) := bool_eq_dec _ _.

(** What the loop keeps: the handled events of a prefix, or nothing when the
    first event fails. *)
Lemma selectEvents_spec c now decrypt handled i events filtered (p p' : P) out sel :
  selectEvents c now decrypt handled i events filtered p = (p', (out, sel)) →
  (∃ e err rest, i = 0%nat ∧ sel = FirstFailed e err ∧ events = e :: rest ∧ handles handled e) ∨
  ∃ n new, out = filtered ++ new ∧ shape <$> new = shape <$> filter (handles handled) (take n events) ∧
    match sel with CutAt j => (i + n = j ∧ 0 < j)%nat | AllSelected => (length events ≤ n)%nat | FirstFailed _ _ => False end.
Proof.
  revert i filtered p. induction events as [|e events IH]; intros i filtered p; cbn [selectEvents].
  { intros [= _ <- <-]. right. exists 0%nat, []. by rewrite app_nil_r. }
  assert (∀ x q, shape x = shape e → handles handled e →
    selectEvents c now decrypt handled (S i) events (filtered ++ [x]) q = (p', (out, sel)) →
    ∃ n new, out = filtered ++ new ∧ shape <$> new = shape <$> filter (handles handled) (take n (e :: events)) ∧
      match sel with CutAt j => (i + n = j ∧ 0 < j)%nat | AllSelected => (S (length events) ≤ n)%nat | FirstFailed _ _ => False end)
    as Htake.
  { intros x q Hx Hh Hr. apply IH in Hr as [(? & ? & ? & [=] & _)|(n & new & -> & Hn & Hsel)].
    exists (S n), (x :: new). rewrite <- app_assoc. split; [done|]. cbn [take]. rewrite filter_cons_True by done.
    rewrite !fmap_cons, Hx, Hn. split; [done|]. destruct sel; try done; lia. }
  destruct (ShouldHandleEventType handled (se_Type e)) eqn:Hh; cbn [negb].
  2: { intros Hr. apply IH in Hr as [(? & ? & ? & [=] & _)|(n & new & -> & Hn & Hsel)].
       right. exists (S n), new. split; [done|]. cbn [take]. rewrite filter_cons_False by (unfold handles; by rewrite Hh).
       split; [done|]. destruct sel; cbn [length]; try done; lia. }
  destruct decrypt; cbn [negb]; [|intros Hr; right; by eapply Htake].
  destruct (DecryptStoredEvent c (now i) e p) as [q [e'|err]] eqn:Ed.
  - intros Hr. right. apply DecryptStoredEvent_shape in Ed. by eapply Htake.
  - intros [= _ <- <-]. destruct i as [|i]; [left; by eexists _, _, _|].
    right. exists 0%nat, []. rewrite app_nil_r. split; [done|]. split; [done|]. lia.
Qed.

(** ** Applying *)

(** What an attempt to apply [filtered] did: the calls it made, and whom it
    blames. *)
Definition attempted (filtered : list StoredEvent) (w w' : world) (k k' : asyncProjectionWorker R) (r : res unit) : Prop :=
  ∃ m, pw_calls w' = pw_calls w ++ m ∧ Cleared ∉ m ∧
  pw_store w' = pw_store w ∧ pw_checkpoints w' = pw_checkpoints w ∧
  aw_projection k' = aw_projection k ∧ aw_lastPosition k' = aw_lastPosition k ∧
  match r with
  | Ok _ => ∀ e, e ∈ filtered → ∃ es, Applied es ∈ m ∧ e ∈ es
  | Err _ => aw_failedEvent k' = aw_failedEvent k ∨
      ∃ a es, aw_failedEvent k' = Some a ∧ a ∈ filtered ∧ NotApplied es ∈ m ∧ last es = Some a ∧
        ∀ e, e ∈ filtered → se_GlobalPosition e ≤ se_GlobalPosition a → e ∈ es ∨ ∃ es', Applied es' ∈ m ∧ e ∈ es'
  end.

Lemma applySequentially_attempted projection envs i events w w' k k' r :
  strictly_increasing se_GlobalPosition events →
  applySequentially projection envs i events w k = (w', k', r) → attempted events w w' k k' r.
Proof.
  revert i w k. induction events as [|e events IH]; intros i w k Hs; cbn [applySequentially].
  { intros [= <- <- <-]. exists []. rewrite app_nil_r. set_solver. }
  apply strictly_increasing_cons in Hs as [Hs He].
  destruct (ap_Apply _ _ _ _) as [r1 [[err|]|v]].
  - intros [= <- <- <-]. exists [NotApplied [e]]. split; [done|]. split; [set_solver|]. do 4 (split; [done|]).
    right. exists e, [e]. split; [done|]. split; [set_solver|]. split; [set_solver|]. split; [done|].
    intros x [->|Hx]%elem_of_cons Hle; [set_solver|]. specialize (He x Hx). lia.
  - intros Hr. apply IH in Hr as (m & Hm & Hc & E1 & E2 & E3 & E4 & Hres); [|done].
    exists (Applied [e] :: m). cbn in Hm. rewrite <- app_assoc in Hm. split; [done|]. split; [set_solver|].
    do 4 (split; [done|]). destruct r as [[]|err].
    + intros x [->|Hx]%elem_of_cons; [exists [e]; set_solver|]. destruct (Hres x Hx) as (es & Hes & Hin). exists es. set_solver.
    + destruct Hres as [Hf|(a & es & Hf & Ha & Hes & Hl & Hall)]; [by left|]. right. exists a, es. split; [done|].
      split; [set_solver|]. split; [set_solver|]. split; [done|].
      intros x [->|Hx]%elem_of_cons Hle; [right; exists [e]; set_solver|].
      destruct (Hall x Hx Hle) as [?|(es' & ? & ?)]; [by left|right; exists es'; set_solver].
  - intros [= <- <- <-]. exists [NotApplied [e]]. split; [done|]. split; [set_solver|]. do 4 (split; [done|]). by left.
Qed.

Lemma applyEvents_attempted projection envs filtered w w' k k' r :
  strictly_increasing se_GlobalPosition filtered → filtered ≠ [] →
  applyEvents projection envs filtered w k = (w', k', r) → attempted filtered w w' k k' r.
Proof.
  intros Hs Hne. unfold applyEvents. destruct (ap_ApplyBatch _ _ _ _) as [r1 [[err|]|v]].
  - destruct (errors_Is err ErrNotImplemented); [intros Hr; by apply applySequentially_attempted in Hr|].
    intros [= <- <- <-]. exists [NotApplied filtered]. split; [done|]. split; [set_solver|]. do 4 (split; [done|]).
    cbn. destruct (last filtered) as [a|] eqn:El; [|by apply last_None in El]. right. exists a, filtered. split; [done|].
    split; [by apply last_Some_elem_of|]. split; [set_solver|]. split; [done|]. by left.
  - intros [= <- <- <-]. exists [Applied filtered]. split; [done|]. split; [set_solver|]. do 4 (split; [done|]).
    intros e He. exists filtered. set_solver.
  - intros [= <- <- <-]. exists [NotApplied filtered]. split; [done|]. split; [set_solver|]. do 4 (split; [done|]). by left.
Qed.

(** ** A worker *)

(** The batch [a] stands for failed. *)
Definition blamed (calls : list call) (a : StoredEvent) (pos : Z) : Prop :=
  ∃ es, NotApplied es ∈ afterClear calls ∧ last es = Some a ∧ pos ∈ positions es.

Definition upto (k : asyncProjectionWorker R) (w : world) : Z → Prop :=
  below (ap_HandledEvents (aw_projection k)) (logOf (pw_store w)) (covered (pw_calls w)).

Definition excused (k : asyncProjectionWorker R) (w : world) (a : StoredEvent) : Prop :=
  below (ap_HandledEvents (aw_projection k)) (logOf (pw_store w))
    (λ pos, covered (pw_calls w) pos ∨ blamed (pw_calls w) a pos) (se_GlobalPosition a).

(** Where the worker is, where it would resume, and the event it would skip are
    behind what the projection has seen. *)
Record worker_inv (w : world) (k : asyncProjectionWorker R) : Prop := mkWorkerInv {
  wi_wf : el_wf (st_adapter (pw_store w));
  wi_position : upto k w (aw_lastPosition k);
  wi_checkpoint : ∀ ck, pw_checkpoints w = Some ck → upto k w (default 0 (ck_view ck !! aw_Name k));
  wi_failed : ∀ a, aw_failedEvent k = Some a → excused k w a;
}.

Lemma blamed_continues calls calls' a pos : continues calls calls' → blamed calls a pos → blamed calls' a pos.
Proof. intros (m & -> & Hm) (es & He & Hl). exists es. rewrite afterClear_app by done. set_solver. Qed.

Lemma blamed_Skipped calls a pos : blamed calls a pos → covered (calls ++ [Skipped a]) pos.
Proof.
  intros (es & He & Hl & Hp). unfold covered. rewrite afterClear_app by set_solver. right. exists es, a. set_solver.
Qed.

(** The invariant outlives the other goroutines' writes and more calls. *)
Lemma worker_inv_frame w w' k k' :
  worker_inv w k → el_wf (st_adapter (pw_store w')) → grows (logOf (pw_store w)) (logOf (pw_store w')) →
  continues (pw_calls w) (pw_calls w') → aw_projection k' = aw_projection k → aw_lastPosition k' = aw_lastPosition k →
  aw_failedEvent k' = aw_failedEvent k →
  (∀ ck', pw_checkpoints w' = Some ck' → ∃ ck, pw_checkpoints w = Some ck ∧
     ck_view ck' !! aw_Name k = ck_view ck !! aw_Name k) →
  worker_inv w' k'.
Proof.
  intros [Hwf Hp Hc Hf] Hwf' Hg Hcont Ep El Ef Hck.
  assert (∀ Q Q' p, (∀ q, Q q → Q' q) → below (ap_HandledEvents (aw_projection k)) (logOf (pw_store w)) Q p →
    below (ap_HandledEvents (aw_projection k')) (logOf (pw_store w')) Q' p) as Hb.
  { intros Q Q' p HQ. rewrite Ep. apply below_grows; [done|by apply log_ok_wf..|done]. }
  assert (∀ p, upto k w p → upto k' w' p) as Hu by (intros p; apply Hb; intros q; by apply covered_continues).
  split; [done|rewrite El; by apply Hu| |].
  - intros ck' Hck'. destruct (Hck ck' Hck') as (ck & Hck0 & Ev). unfold aw_Name in *. rewrite Ep, Ev. by apply Hu, Hc.
  - intros a Ha. rewrite Ef in Ha. eapply Hb; [|by apply Hf].
    intros q [Hq|Hq]; [left; by eapply covered_continues|right; by eapply blamed_continues].
Qed.

(** ** A batch *)

Lemma strictly_increasing_positions (l l' : list StoredEvent) :
  positions l = positions l' → strictly_increasing se_GlobalPosition l → strictly_increasing se_GlobalPosition l'.
Proof.
  intros E Hs i j x y Hx Hy Hij.
  assert (∀ i x, l' !! i = Some x → ∃ x0, l !! i = Some x0 ∧ se_GlobalPosition x0 = se_GlobalPosition x) as Hl.
  { intros n z Hz. apply (f_equal (.!! n)) in E. unfold positions in E. rewrite !list_lookup_fmap, Hz in E.
    destruct (l !! n); cbn in E; [|done]. injection E as E. by eexists. }
  destruct (Hl i x Hx) as (x0 & Hx0 & <-), (Hl j y Hy) as (y0 & Hy0 & <-). by eapply Hs.
Qed.

(** Past [lp], a page settles everything up to its own events. *)
Lemma below_page handled log (Q : Z → Prop) lp kept q :
  log_ok log → page lp log kept → kept ≠ [] → q ≤ lastPosition kept → below handled log Q lp →
  (∀ x, x ∈ kept → handles handled x → se_GlobalPosition x ≤ q → Q (se_GlobalPosition x)) → below handled log Q q.
Proof.
  intros Hok Hp Hne Hq [_ Hb] Hk. split; [by etransitivity; [|eapply page_last]|].
  intros x Hx Hh Hle. destruct (Z.le_gt_cases (se_GlobalPosition x) lp); [by apply Hb|].
  apply Hk; [|done..]. eapply page_complete; [done|done|done| |lia|done]. lia.
Qed.

Lemma positions_shape (l l' : list StoredEvent) : shape <$> l = shape <$> l' → positions l = positions l'.
Proof.
  intros E. unfold positions. assert (∀ m : list StoredEvent, se_GlobalPosition <$> m = fst <$> (shape <$> m)) as Hl.
  { intros m. rewrite <- list_fmap_compose. done. }
  by rewrite !Hl, E.
Qed.

Lemma saveCheckpoint_frame env name pos w :
  pw_store (saveCheckpoint env name pos w) = pw_store w ∧ pw_calls (saveCheckpoint env name pos w) = pw_calls w ∧
  ∀ ck', pw_checkpoints (saveCheckpoint env name pos w) = Some ck' → ∃ ck, pw_checkpoints w = Some ck ∧
    (ck_view ck' = <[name := pos]> (ck_view ck) ∨ ck_view ck' = ck_view ck).
Proof.
  unfold saveCheckpoint. destruct (pw_checkpoints w) as [ck|] eqn:Eck; [|rewrite Eck; naive_solver].
  split; [done|]. split; [done|]. intros ck' [= <-]. exists ck. split; [done|].
  destruct (ck_SetCheckpoint env name pos ck) as [ck1 r] eqn:Es. cbn. apply ck_set_view in Es. naive_solver.
Qed.

(** Moving to a position the projection has seen. *)
Lemma advance_inv env p w k w' k' :
  worker_inv w k → upto k w p → advance env p (w, k) = (w', k') → aw_projection k' = aw_projection k ∧ worker_inv w' k' ∧ pw_calls w' = pw_calls w.
Proof.
  intros [Hwf Hp Hc Hf] Hu [= <- <-]. destruct (saveCheckpoint_frame env (aw_Name k) p w) as (Es & Ec & Hck).
  split; [done|]. split; [|done]. split; unfold upto, excused in *; cbn; rewrite ?Es, ?Ec; try done.
  intros ck' Hck'. destruct (Hck ck' Hck') as (ck & Hck0 & [->| ->]); [|by apply Hc].
  change (aw_Name (set_position k p (time_Now env 1))) with (aw_Name k). by rewrite lookup_insert_eq.
Qed.

Lemma attempted_inv filtered w w' k k' r kept :
  worker_inv w k → page (aw_lastPosition k) (logOf (pw_store w)) kept → kept ≠ [] →
  positions filtered = positions (filter (handles (ap_HandledEvents (aw_projection k))) kept) →
  attempted filtered w w' k k' r →
  aw_projection k' = aw_projection k ∧ continues (pw_calls w) (pw_calls w') ∧
  match r with
  | Ok _ => worker_inv w' (set_failed k' None) ∧ upto k' w' (lastPosition kept)
  | Err _ => worker_inv w' k'
  end.
Proof.
  intros Hinv Hpage Hne Hpos (m & Em & Hm & Es & Eck & Ep & El & Hres).
  pose proof Hinv as [Hwf Hp Hc Hf]. pose proof (log_ok_wf _ Hwf) as Hok.
  assert (continues (pw_calls w) (pw_calls w')) as Hcont by (by exists m).
  assert (∀ kf, aw_projection kf = aw_projection k → aw_lastPosition kf = aw_lastPosition k →
    aw_failedEvent kf = aw_failedEvent k ∨ aw_failedEvent kf = None → worker_inv w' kf) as Hfr.
  { intros kf E1 E2 E3. assert (worker_inv w' (set_failed kf (aw_failedEvent k))) as [? ? ? Hf'].
    { eapply (worker_inv_frame w w' k); [done|by rewrite Es|rewrite Es; apply grows_refl|done..|].
      intros ck'. rewrite Eck. by exists ck'. }
    split; [done..|]. destruct E3 as [->| ->]; [done|by intros a]. }
  assert (∀ x, x ∈ kept → handles (ap_HandledEvents (aw_projection k)) x →
    ∃ e, e ∈ filtered ∧ se_GlobalPosition e = se_GlobalPosition x) as Hsel.
  { intros x Hx Hh. assert (se_GlobalPosition x ∈ positions filtered) as Hin.
    { rewrite Hpos. apply list_elem_of_fmap_2, list_elem_of_filter. done. }
    apply list_elem_of_fmap in Hin as (e & -> & He). by exists e. }
  assert (∀ e es, Applied es ∈ m → e ∈ es → covered (pw_calls w') (se_GlobalPosition e)) as Happ.
  { intros e es Hes He. unfold covered. rewrite Em, afterClear_app by done. left. exists es.
    split; [set_solver|]. by apply list_elem_of_fmap_2. }
  destruct r as [[]|err].
  - split; [done|]. split; [done|]. split; [apply Hfr; auto|]. unfold upto. rewrite Ep, Es. eapply below_page; [done..| |].
    + destruct Hp as [? Hp]. split; [done|]. intros e He Hh Hle. eapply covered_continues; [done|]. by apply Hp.
    + intros x Hx Hh _. destruct (Hsel x Hx Hh) as (e & He & <-). destruct (Hres e He) as (es & Hes & Hin). by eapply Happ.
  - split; [done|]. split; [done|]. destruct Hres as [Hf'|(a & es & Hf' & Ha & Hes & Hl & Hall)]; [apply Hfr; auto|].
    assert (worker_inv w' (set_failed k' None)) as [? ? ? _] by (apply Hfr; auto).
    split; [done..|]. intros b Hb. rewrite Hf' in Hb. injection Hb as <-. unfold excused. rewrite Ep, Es.
    assert (se_GlobalPosition a ∈ positions kept) as Hak.
    { assert (se_GlobalPosition a ∈ positions filtered) as Hin by (by apply list_elem_of_fmap_2).
      rewrite Hpos in Hin. apply list_elem_of_fmap in Hin as (y & -> & Hy%list_elem_of_filter). apply list_elem_of_fmap_2. naive_solver. }
    apply list_elem_of_fmap in Hak as (y & Ey & Hy). eapply below_page; [done..| | |].
    + rewrite Ey. apply (headOf_max kept); [by eapply page_increasing|done].
    + destruct Hp as [? Hp]. split; [done|]. intros e He Hh Hle. left. eapply covered_continues; [done|]. by apply Hp.
    + intros x Hx Hh Hle. destruct (Hsel x Hx Hh) as (e & He & Ee). rewrite <- Ee in Hle |- *.
      destruct (Hall e He Hle) as [Hin|(es' & ? & ?)]; [right|left; by eapply Happ].
      exists es. rewrite Em, afterClear_app by done. split; [set_solver|]. split; [done|]. by apply list_elem_of_fmap_2.
Qed.

(** One batch, whatever comes of it. *)
Lemma processAsyncBatch_inv c env w k w' k' r :
  worker_inv w k → processAsyncBatch c env (w, k) = ((w', k'), r) →
  aw_projection k' = aw_projection k ∧ continues (pw_calls w) (pw_calls w') ∧ worker_inv w' k'.
Proof.
  intros Hinv. pose proof Hinv as [Hwf Hp Hc Hf]. pose proof (log_ok_wf _ Hwf) as Hok. unfold processAsyncBatch.
  destruct (LoadEventsFromPosition _ _ _ _) as [events|err] eqn:El; [|by intros [= <- <- <-]].
  destruct (load_page _ _ _ _ _ Hwf El) as (n & Hn & Hev). destruct events as [|ev events]; [by intros [= <- <- <-]|].
  destruct (selectEvents _ _ _ _ _ _ _ _) as [p' [filtered sel]] eqn:Esel.
  set (w1 := set_store w (set_provider (pw_store w) p')).
  assert (worker_inv w1 k) as Hinv1 by (destruct w; by split).
  assert (page (aw_lastPosition k) (logOf (pw_store w1)) (ev :: events)) as Hpage by (by exists n).
  apply selectEvents_spec in Esel as [(e & err & rest & _ & -> & Ee & Hh)|(j & new & -> & Hnew & Hsel)].
  { injection Ee as <- <-. intros [= <- <- <-].
    eapply (attempted_inv [ev] w1 (observe w1 (NotApplied [ev])) k (set_failed k (Some ev)) (Err err) [ev]);
      [done|exact (page_take _ _ _ 1 Hpage)|done|by rewrite filter_cons_True|].
    exists [NotApplied [ev]]. split; [done|]. split; [set_solver|]. do 4 (split; [done|]).
    right. exists ev, [ev]. split; [done|]. split; [set_solver|]. split; [set_solver|]. split; [done|].
    intros x [->|[]%not_elem_of_nil]%elem_of_cons _. left. set_solver. }
  cbn [app]. set (kept := match sel with CutAt i => take i (ev :: events) | _ => ev :: events end).
  assert (kept = take j (ev :: events) ∧ kept ≠ []) as [Ek Hne].
  { unfold kept. destruct sel as [|e err|i]; [by rewrite take_ge| done|]. destruct Hsel as [<- Hi]. split; [done|].
    destruct j; [lia|done]. }
  assert (page (aw_lastPosition k) (logOf (pw_store w1)) kept) as Hkept by (rewrite Ek; by apply page_take).
  rewrite <- Ek in Hnew. apply positions_shape in Hnew. intros Hr.
  assert (match new with
    | [] => (advance (be_checkpoint env) (lastPosition kept) (w1, k), Ok tt)
    | _ => match applyEvents (aw_projection k) (be_apply env) new w1 k with
           | (w, k, Err err) => ((w, k), Err err)
           | (w, k, Ok _) => (advance (be_checkpoint env) (lastPosition kept) (w, set_failed k None), Ok tt)
           end
    end = ((w', k'), r)) as Hr' by (destruct sel; [exact Hr|done|exact Hr]).
  clear Hr. destruct new as [|x new].
  - destruct (advance _ _ _) as [w2 k2] eqn:Ea. injection Hr' as <- <- <-. apply advance_inv in Ea as (? & ? & ->); [done|done|].
    eapply below_page; [done|exact Hkept|done..|apply Hinv1|].
    intros y Hy Hh _. exfalso. assert (se_GlobalPosition y ∈ positions []) as Hin.
    { rewrite Hnew. by apply list_elem_of_fmap_2, list_elem_of_filter. }
    by apply not_elem_of_nil in Hin.
  - destruct (applyEvents _ _ _ _ _) as [[w2 k2] r2] eqn:Ea. apply applyEvents_attempted in Ea; [| |done].
    2: { eapply (strictly_increasing_positions (filter (handles (ap_HandledEvents (aw_projection k))) kept)); [done|].
         apply strictly_increasing_filter. by eapply page_increasing. }
    eapply attempted_inv in Ea as (E2 & Hcont & Hres); [|done..]. destruct r2 as [[]|err].
    + destruct (advance _ _ _) as [w3 k3] eqn:Ead. injection Hr' as <- <- <-. destruct Hres as [Hi2 Hu2].
      apply advance_inv in Ead as (E3 & ? & ->); [rewrite E3; done|done|]. exact Hu2.
    + by injection Hr' as <- <- <-.
Qed.
End Coverage.
