(* ===== verification/ProjectionInvariant.v ===== *)
(** * What a worker never overtakes

    The invariant of [ProjectionCoverage] is kept by every turn of the worker's
    goroutine, by the operator's commands and by a rebuild that succeeds. *)

From S2P Require Import Prelude.
From S2P Require Import Types.
From S2P Require Import Strconv.
From S2P Require Import Common.
From S2P Require Import Crypto.
From S2P Require Import Subject.
From S2P Require Import FieldEncryption.
From S2P Require Import LogInvariant.
From S2P Require Import MemoryTheorems.
From S2P Require Import EventLog.
From S2P Require Import EventStore.
From S2P Require Import Projection.
From S2P Require Import ProjectionWorker.
From S2P Require Import Rebuilder.
From S2P Require Import ProjectionEngine.
From S2P Require Import ProjectionCoverage.

Section Invariant.
Context {A P V Ser X K R : Type}.
Context `{AEAD} `{EventLogOps A} `{!EventLogLaws A} `{ProviderOps P} `{SerializerOps V Ser} `{SubjectIndexWriter X} `{MapOrder}.
Context `{CheckpointOps K} `{!CheckpointLaws K}.
Abbreviation world := (World (Store A P Ser X) K R).
Abbreviation sys := (world * asyncProjectionWorker R)%type.
Implicit Types w : world.
Implicit Types k : asyncProjectionWorker R.
Implicit Types s : sys.
Implicit Types c : EventStore.

Definition keeps s s' : Prop :=
  worker_inv s.1 s.2 → aw_projection s'.2 = aw_projection s.2 ∧ worker_inv s'.1 s'.2.

#[export] Instance keeps_preorder : PreOrder keeps.
Proof.
  split; [by intros s|]. intros s1 s2 s3 H12 H23 Hi. destruct (H12 Hi) as [E Hi2]. destruct (H23 Hi2) as [E' ?].
  by rewrite E', E.
Qed.

(** ** States and flags *)

(** More calls, and fields the invariant does not read. *)
Lemma keeps_frame w k w' k' :
  pw_store w' = pw_store w → pw_checkpoints w' = pw_checkpoints w → continues (pw_calls w) (pw_calls w') →
  aw_projection k' = aw_projection k → aw_lastPosition k' = aw_lastPosition k → aw_failedEvent k' = aw_failedEvent k →
  keeps (w, k) (w', k').
Proof.
  intros Es Ec Hc E1 E2 E3 Hi. split; [done|]. cbn in *.
  eapply worker_inv_frame; [done|rewrite Es; by destruct Hi|rewrite Es; apply grows_refl|done..|].
  intros ck'. rewrite Ec. by exists ck'.
Qed.

Lemma notify_frame name st st' err w :
  let w' := notifyStateObserver name st st' err w in
  pw_store w' = pw_store w ∧ pw_checkpoints w' = pw_checkpoints w ∧ continues (pw_calls w) (pw_calls w').
Proof.
  unfold notifyStateObserver. case_bool_decide; cbn zeta; [done|]. do 2 (split; [done|]). by apply continues_snoc.
Qed.

Lemma setState_keeps st s : keeps s (setState st s).
Proof. destruct s as [w k]. destruct (notify_frame (aw_Name k) (aw_state k) st None w) as (? & ? & ?). by apply keeps_frame. Qed.

Lemma setError_keeps err s : keeps s (setError err s).
Proof.
  destruct s as [w k]. destruct (notify_frame (aw_Name k) (aw_state k) ProjectionStateFaulted (Some err) w) as (? & ? & ?).
  by apply keeps_frame.
Qed.

Lemma clearError_keeps s : keeps s (clearError s).
Proof.
  destruct s as [w k]. destruct (notify_frame (aw_Name k) (aw_state k) ProjectionStateRunning None w) as (? & ? & ?).
  by apply keeps_frame.
Qed.

Lemma pauseWorker_keeps s : keeps s (pauseWorker s).
Proof. destruct s as [w k]. transitivity (w, set_paused k true); [by apply keeps_frame|apply setState_keeps]. Qed.

Lemma resumeWorker_keeps s : keeps s (resumeWorker s).
Proof. destruct s as [w k]. transitivity (w, set_paused k false); [by apply keeps_frame|apply setState_keeps]. Qed.

(** ** A turn *)

Lemma processAsyncBatch_keeps c env s s' r : processAsyncBatch c env s = (s', r) → keeps s s'.
Proof. destruct s as [w k], s' as [w' k']. intros E Hi. eapply processAsyncBatch_inv in E as (? & _ & ?); done. Qed.

Lemma handlePoisonEvent_keeps env cause s w' k' b : handlePoisonEvent env cause s = (w', k', b) → keeps s (w', k').
Proof.
  destruct s as [w k]. unfold handlePoisonEvent.
  destruct (ao_OnPoisonEvent _) as [f|]; [|by intros [= <- <- <-]].
  destruct (aw_failedEvent k) as [a|] eqn:Ef; [|by intros [= <- <- <-]].
  destruct (f _ _ _ _) as [r [err|]]; [by intros [= <- <- _]; apply keeps_frame|]. intros [= <- <- _] Hi. cbn in Hi |- *.
  set (w1 := observe (set_app w r) (Skipped a)).
  assert (upto k w1 (se_GlobalPosition a)) as Hu.
  { destruct Hi as [_ _ _ Hf]. destruct (Hf a Ef) as [Hh Hb]. split; [done|]. intros e He Hh' Hle.
    destruct (Hb e He Hh' Hle) as [Hc|Hc]; [|by apply blamed_Skipped].
    eapply covered_continues; [|exact Hc]. by apply continues_snoc. }
  assert (worker_inv w1 (set_failed k None)) as Hi1.
  { assert (worker_inv w1 k) as [? ? ? _].
    { apply (keeps_frame w k); try done. by apply continues_snoc. }
    split; [done..|]. by intros b'. }
  edestruct (advance_inv env (se_GlobalPosition a) w1 (set_failed k None)) as (_ & Hi2 & _); [done|done|reflexivity|].
  split; [done|]. by destruct Hi2.
Qed.

Lemma getCheckpointWithRetry_spec envs name n lastErr ck ck' r :
  getCheckpointWithRetry envs name n lastErr ck = (ck', r) →
  ck_view ck' = ck_view ck ∧ ∀ p, r = Ok p → p = default 0 (ck_view ck !! name).
Proof.
  revert ck lastErr. induction n as [|n IH]; intros ck lastErr; cbn [getCheckpointWithRetry]; [by intros [= <- <-]|].
  destruct (ck_GetCheckpoint _ _ _) as [ck1 [p|err]] eqn:Eg; pose proof (ck_get_view _ _ _ _ _ Eg) as Ev.
  - intros [= <- <-]. split; [done|]. intros q [= <-]. by apply ck_get_ok in Eg.
  - destruct (isShutdownError err); [by intros [= <- <-]|]. destruct n as [|n]; [by intros [= <- <-]|].
    destruct (ctx_Done _ _); [by intros [= <- <-]|]. intros Hr. apply IH in Hr. by rewrite Ev in Hr.
Qed.

Lemma afterRun_keeps reason v s : keeps s (afterRun reason v s).2.
Proof.
  destruct s as [w k]. unfold afterRun. destruct reason; [done|]. destruct (ao_RestartPolicy _) as [p|]; [|done].
  cbn zeta. destruct (negb _); [done|]. apply setState_keeps.
Qed.

Lemma upto_status k w st err p : upto k w p → upto (set_status k st err) w p.
Proof. done. Qed.

(** Reading the checkpoint back, and starting there or at 0. *)
Lemma set_position_keeps w w' k pos t :
  pw_store w' = pw_store w → pw_calls w' = pw_calls w →
  (∀ ck', pw_checkpoints w' = Some ck' → ∃ ck, pw_checkpoints w = Some ck ∧ ck_view ck' = ck_view ck) →
  (worker_inv w k → upto k w pos) → keeps (w, k) (w', set_position k pos t).
Proof.
  intros Es Ec Hck Hu Hi. split; [done|]. specialize (Hu Hi). destruct Hi as [Hwf Hp Hc Hf]. cbn in *.
  split; unfold upto, excused in *; cbn; rewrite ?Es, ?Ec; try done.
  intros ck' E. destruct (Hck ck' E) as (ck & E0 & ->). by apply Hc.
Qed.

Lemma upto_zero k w : worker_inv w k → upto k w 0.
Proof. intros [Hwf _ _ _]. by apply below_zero, log_ok_wf. Qed.

Lemma catchUp_keeps envs v s : keeps s (catchUp envs v s).2.
Proof.
  transitivity (setState ProjectionStateCatchingUp s); [apply setState_keeps|].
  unfold catchUp. destruct (setState ProjectionStateCatchingUp s) as [w k]. cbn zeta.
  match goal with |- context [match ?b with Some _ => _ | None => _ end] => destruct b as [ck|] eqn:Eck end.
  - assert (pw_checkpoints w = Some ck) as Ew by (by destruct (_ || _)).
    destruct (getCheckpointWithRetry _ _ _ _ _) as [ck1 r] eqn:Eg. apply getCheckpointWithRetry_spec in Eg as [Ev Hr].
    destruct r as [pos|err].
    + eapply (transitivity (y := (set_checkpoints w (Some ck1), set_position k pos (aw_lastProcessedAt k))));
        [|apply setState_keeps].
      apply set_position_keeps; [done|done| |].
      * intros ck' [= <-]. by exists ck.
      * intros [_ _ Hc _]. rewrite (Hr pos eq_refl). by apply Hc.
    + assert (keeps (w, k) (set_checkpoints w (Some ck1), k)) as Hk.
      { destruct k. apply (set_position_keeps w _ (mkWorker _ _ _ _ _ _ _ _ _ _ _)); [done|done| |by intros []].
        intros ck' [= <-]. by exists ck. }
      destruct (isShutdownError err); (etransitivity; [exact Hk|]).
      * etransitivity; [apply setState_keeps|apply afterRun_keeps].
      * etransitivity; [apply setError_keeps|apply afterRun_keeps].
  - eapply (transitivity (y := (w, set_position k 0 (aw_lastProcessedAt k)))); [|apply setState_keeps].
    apply set_position_keeps; [done|done| |apply upto_zero]. intros ck' E. by exists ck'.
Qed.

Lemma pollOnce_keeps c env poisonEnv v pe be s : keeps s (pollOnce c env poisonEnv v pe be s).2.
Proof.
  unfold pollOnce. destruct (processAsyncBatch c env s) as [s1 r] eqn:Eb.
  transitivity s1; [by eapply processAsyncBatch_keeps|]. destruct r as [[]|err].
  { destruct (0 <? be); [apply clearError_keeps|done]. }
  destruct (errors_Is err ContextCanceled); [etransitivity; [apply setState_keeps|apply afterRun_keeps]|].
  cbn zeta. set (isPoison := match ao_ErrorClassifier _ with Some _ => _ | None => _ end).
  set (s2 := if isPoison then _ else _).
  assert (keeps s1 s2) as Hk.
  { unfold s2. destruct isPoison; [apply setError_keeps|]. destruct s1 as [w k]. by apply keeps_frame. }
  etransitivity; [exact Hk|]. destruct (isPoison && _); [|done].
  destruct (handlePoisonEvent poisonEnv err s2) as [[w k] b] eqn:Ep.
  etransitivity; [by eapply handlePoisonEvent_keeps|]. destruct b; [apply clearError_keeps|apply afterRun_keeps].
Qed.

Lemma turn_keeps c env sig pc s : keeps s (turn c env sig pc s).2.
Proof.
  unfold turn. destruct pc as [v|v pe be|v pe be d|v d| |]; [apply catchUp_keeps| | | |done..].
  - destruct sig; try (etransitivity; [apply setState_keeps|apply afterRun_keeps]).
    destruct (aw_paused s.2); [apply setState_keeps|apply pollOnce_keeps].
  - destruct sig; try (etransitivity; [apply setState_keeps|apply afterRun_keeps]). done.
  - destruct sig; try apply setState_keeps. done.
Qed.

(** ** A rebuild *)

Context `{FloatConversion}.

(** What running a batch through a projection does to the world. *)
Definition processed (handled : list string) (events : list StoredEvent) w w' (r : res unit) : Prop :=
  pw_store w' = pw_store w ∧ pw_checkpoints w' = pw_checkpoints w ∧
  ∃ m, pw_calls w' = pw_calls w ++ m ∧ Cleared ∉ m ∧
    (is_ok r = true → ∀ e, e ∈ events → handles handled e → ∃ es, Applied es ∈ m ∧ e ∈ es).

Lemma callMethod_processed {T} (m : method R T) env x taken handled w w' r :
  callMethod (A := A) (P := P) (Ser := Ser) (X := X) (K := K) m env x taken w = (w', r) → processed handled taken w w' r.
Proof.
  unfold callMethod. destruct (m env x (pw_app w)) as [r1 [[err|]|v]]; intros [= <- <-]; split; try done; split; try done.
  - exists []. rewrite app_nil_r. split; [done|]. split; [set_solver|done].
  - exists [Applied taken]. split; [done|]. split; [set_solver|]. intros _ e He _. exists taken. set_solver.
  - exists []. rewrite app_nil_r. split; [done|]. split; [set_solver|done].
Qed.

Lemma processed_cons handled e events w w1 w' r :
  processed handled [e] w w1 (Ok tt) → processed handled events w1 w' r → processed handled (e :: events) w w' r.
Proof.
  intros (E1 & E2 & m & Em & Hm & Hone) (F1 & F2 & m' & Em' & Hm' & Hrest). rewrite E1, E2 in *.
  split; [done|]. split; [done|]. exists (m ++ m'). rewrite Em', Em, app_assoc. split; [done|]. split; [set_solver|].
  intros Hok x [->|Hx]%elem_of_cons Hh.
  - destruct (Hone eq_refl e) as (es & ? & ?); [set_solver|done|]. exists es. set_solver.
  - destruct (Hrest Hok x Hx Hh) as (es & ? & ?). exists es. set_solver.
Qed.

Lemma processed_weaken handled events events' w w' r :
  (∀ e, e ∈ events' → handles handled e → e ∈ events) → processed handled events w w' r → processed handled events' w w' r.
Proof. intros Hs (E1 & E2 & m & Em & Hm & Hall). split; [done|]. split; [done|]. exists m. naive_solver. Qed.

Lemma processed_err handled events events' w w' err : processed handled events w w' (Err err) → processed handled events' w w' (Err err).
Proof. intros (E1 & E2 & m & Em & Hm & _). split; [done|]. split; [done|]. by exists m. Qed.

Lemma applyEach_processed apply handled envs i events w w' r :
  applyEach (A := A) (P := P) (Ser := Ser) (X := X) (K := K) apply handled envs i events w = (w', r) →
  processed handled events w w' r.
Proof.
  revert i w. induction events as [|e events IH]; intros i w; cbn [applyEach].
  { intros [= <- <-]. split; [done|]. split; [done|]. exists []. rewrite app_nil_r. split; [done|]. split; [set_solver|].
    intros _ e []%not_elem_of_nil. }
  destruct (ShouldHandleEventType handled (se_Type e)) eqn:Hh.
  - destruct (callMethod apply (envs i) e [e] w) as [w1 [[]|err]] eqn:Ec; apply (callMethod_processed _ _ _ _ handled) in Ec.
    + intros Hr. apply IH in Hr. by eapply processed_cons.
    + intros [= <- <-]. by eapply processed_err.
  - intros Hr. apply IH in Hr. eapply processed_weaken; [|exact Hr]. intros x [->|Hx]%elem_of_cons Hx'; [|done].
    unfold handles in Hx'. congruence.
Qed.

Lemma foldl_filter_handled handled events :
  foldl (λ acc event, if ShouldHandleEventType handled (se_Type event) then acc ++ [event] else acc) [] events =
  filter (handles handled) events.
Proof.
  enough (∀ acc, foldl (λ acc event, if ShouldHandleEventType handled (se_Type event) then acc ++ [event] else acc) acc events
    = acc ++ filter (handles handled) events) as H' by apply H'.
  induction events as [|e events IH]; intros acc; cbn [foldl]; [by rewrite app_nil_r|].
  rewrite IH, filter_cons. unfold handles. case_decide as Hd; [rewrite Hd; by rewrite <- app_assoc|].
  by destruct (ShouldHandleEventType _ _).
Qed.

Lemma rebuildAsyncBatch_processed projection envs events w w' r :
  rebuildAsyncBatch (A := A) (P := P) (Ser := Ser) (X := X) (K := K) projection envs events w = (w', r) →
  processed (ap_HandledEvents projection) events w w' r.
Proof.
  unfold rebuildAsyncBatch. rewrite foldl_filter_handled. set (f := filter _ events).
  assert (∀ e, e ∈ events → handles (ap_HandledEvents projection) e → e ∈ f) as Hf.
  { intros e He Hh. by apply list_elem_of_filter. }
  intros Hr. eapply processed_weaken; [exact Hf|]. clearbody f. revert Hr. destruct f as [|x f].
  { intros [= <- <-]. split; [done|]. split; [done|]. exists []. rewrite app_nil_r. split; [done|]. split; [set_solver|].
    intros _ e []%not_elem_of_nil. }
  destruct (callMethod _ _ _ _ w) as [w1 [[]|err]] eqn:Ec; apply (callMethod_processed _ _ _ _ (ap_HandledEvents projection)) in Ec.
  { by intros [= <- <-]. }
  destruct (errors_Is err ErrNotImplemented); [|intros [= <- <-]; by eapply processed_err].
  intros Hr. apply applyEach_processed in Hr. destruct Ec as (E1 & E2 & m & Em & Hm & _).
  destruct Hr as (F1 & F2 & m' & Em' & Hm' & Hall). split; [by rewrite F1|]. split; [by rewrite F2|].
  exists (m ++ m'). rewrite Em', Em, app_assoc. split; [done|]. split; [set_solver|].
  intros Hok e He _. destruct (Hall Hok e He) as (es & ? & ?); [done|]. exists es. set_solver.
Qed.

Lemma decryptStoredEvents_shape c now i events acc (p p' : P) out :
  decryptStoredEvents c now i events acc p = (p', Ok out) → shape <$> out = shape <$> acc ++ events.
Proof.
  revert i acc p. induction events as [|e events IH]; intros i acc p; cbn [decryptStoredEvents].
  { intros [= _ <-]. by rewrite app_nil_r. }
  destruct (DecryptStoredEvent c (now i) e p) as [q [e'|err]] eqn:Ed; [|done]. intros Hr. apply IH in Hr.
  apply DecryptStoredEvent_shape in Ed. rewrite Hr, <- app_assoc, !fmap_app. cbn. by rewrite Ed.
Qed.

Definition others_ok (f : A → A) : Prop :=
  ∀ a, el_wf a → el_wf (f a) ∧ grows (LogSpec.log (el_view a)) (LogSpec.log (el_view (f a))).

(** What the loop keeps: the projection has seen everything up to [cur], and
    the log reaches the checkpoint. *)
Record rebuilding (handled : list string) (name : string) (cur : Z) w : Prop := mkRebuilding {
  rg_wf : el_wf (st_adapter (pw_store w));
  rg_cur : 0 ≤ cur;
  rg_seen : below handled (logOf (pw_store w)) (covered (pw_calls w)) cur;
  rg_ck : ∀ ck, pw_checkpoints w = Some ck → default 0 (ck_view ck !! name) ≤ headOf (logOf (pw_store w));
}.

Lemma headOf_grows l l' : grows l l' → log_ok l → log_ok l' → headOf l ≤ headOf l'.
Proof.
  intros Hg Hl Hl'. destruct (below_grows [] l l' (λ _, True) (λ _, True) (headOf l) Hg Hl Hl') as [? _]; [done| |done].
  by split.
Qed.

Lemma rebuilding_frame handled name cur w w' :
  rebuilding handled name cur w → el_wf (st_adapter (pw_store w')) → grows (logOf (pw_store w)) (logOf (pw_store w')) →
  continues (pw_calls w) (pw_calls w') → pw_checkpoints w' = pw_checkpoints w → rebuilding handled name cur w'.
Proof.
  intros [Hwf Hc Hs Hck] Hwf' Hg Hcont Eck. split; [done|done| |].
  - eapply below_grows; [done|by apply log_ok_wf..| |done]. intros q. by apply covered_continues.
  - intros ck. rewrite Eck. intros E. specialize (Hck ck E). etransitivity; [exact Hck|].
    by apply headOf_grows; [|apply log_ok_wf..].
Qed.

Lemma loadDecrypted_page c (r : ProjectionRebuilder) env from w w' events :
  el_wf (st_adapter (pw_store w)) →
  loadDecrypted (P := P) (Ser := Ser) (X := X) (K := K) (R := R) c r env from w = (w', Ok events) →
  ∃ raw p n, w' = set_store w (set_provider (pw_store w) p) ∧ (0 < n)%nat ∧
    raw = take n (selected from emptyFilter (logOf (pw_store w))) ∧ shape <$> events = shape <$> raw.
Proof.
  intros Hwf. unfold loadDecrypted. destruct (LoadEventsFromPosition _ _ _ _) as [raw|err] eqn:El; [|done].
  destruct (decryptStoredEvents _ _ _ _ _ _) as [p res] eqn:Ed. intros [= <- ->].
  destruct (load_page _ _ _ _ _ Hwf El) as (n & Hn & Eraw). apply decryptStoredEvents_shape in Ed. by exists raw, p, n.
Qed.

Lemma lastPosition_shape l l' : shape <$> l = shape <$> l' → lastPosition l = lastPosition l'.
Proof.
  intros E. unfold lastPosition. apply positions_shape in E. unfold positions in E. by rewrite <- !fmap_last, E.
Qed.

Lemma rebuildTurn_spec c (r : ProjectionRebuilder) (j : job) env pr w w' next pr' handled :
  ro_ToPosition (jb_options j) = 0 → others_ok (re_others env) →
  (∀ envs events w w' r, jb_process j envs events w = (w', r) → processed handled events w w' r) →
  rebuilding handled (jb_name j) (pr_currentPosition pr) w →
  rebuildTurn (A := A) (P := P) (Ser := Ser) (X := X) (K := K) (R := R) c r j env pr w = (w', Ok (next, pr')) →
  rebuilding handled (jb_name j) (pr_currentPosition pr') w' ∧ grows (logOf (pw_store w)) (logOf (pw_store w')) ∧
  match next with
  | Some q => q = pr' ∧ pr_currentPosition pr < pr_currentPosition pr'
  | None => headOf (logOf (pw_store w')) ≤ pr_currentPosition pr'
  end.
Proof.
  intros Hto Hoth Hproc Hri. unfold rebuildTurn. rewrite Hto. cbn [Z.ltb Z.compare andb].
  set (w0 := if ro_ProgressCallback (jb_options j) && _ && _ then _ else w).
  assert (pw_store w0 = pw_store w ∧ pw_checkpoints w0 = pw_checkpoints w ∧ continues (pw_calls w) (pw_calls w0)) as (E1 & E2 & E3).
  { unfold w0. destruct (_ && _ && _); [|done]. do 2 (split; [done|]). by apply continues_snoc. }
  clearbody w0. rewrite E1. set (w1 := set_store w0 _).
  destruct (Hoth (st_adapter (pw_store w)) (rg_wf _ _ _ _ Hri)) as [Hwf1 Hg].
  assert (rebuilding handled (jb_name j) (pr_currentPosition pr) w1) as Hri1
    by (eapply (rebuilding_frame _ _ _ w); [exact Hri|exact Hwf1|exact Hg|exact E3|exact E2]).
  change (grows (logOf (pw_store w)) (logOf (pw_store w1))) in Hg.
  change (el_wf (st_adapter (pw_store w1))) in Hwf1.
  pose proof (log_ok_wf (pw_store w1) Hwf1) as Hok. clearbody w1. clear E1 E2 E3.
  destruct (loadDecrypted _ _ _ _ w1) as [w2 [events|err]] eqn:El; [|done].
  destruct (loadDecrypted_page _ _ _ _ _ _ _ Hwf1 El) as (raw & p & n & -> & Hn & Eraw & Hsh).
  set (w2 := set_store w1 _). destruct events as [|e events].
  - intros [= <- <- <-]. assert (rebuilding handled (jb_name j) (pr_currentPosition pr) w2) as Hri2.
    { eapply rebuilding_frame; [exact Hri1|done|apply grows_refl|done..]. }
    split; [done|]. split; [done|]. symmetry in Hsh. apply fmap_nil_inv in Hsh. rewrite Hsh in Eraw.
    change (logOf (pw_store w2)) with (logOf (pw_store w1)).
    destruct (decide (logOf (pw_store w1) = [])) as [->|Hne]; [apply Hri1|].
    destruct (headOf_in _ Hne) as (x & Hx & ->). apply Z.nlt_ge. intros Hlt.
    assert (x ∈ selected (pr_currentPosition pr) emptyFilter (logOf (pw_store w1))) as Hin.
    { apply list_elem_of_filter. split; [|done]. split; [done|apply FeedFilter_Matches_empty]. }
    destruct (selected _ _ _); [by apply not_elem_of_nil in Hin|]. by destruct n; [lia|].
  - set (evs := e :: events) in *. destruct (jb_process j _ evs w2) as [w3 [[]|err]] eqn:Ep; [|done].
    apply Hproc in Ep as (F1 & F2 & m & Em & Hm & Hall). specialize (Hall eq_refl).
    assert (raw ≠ []) as Hne by (intros ->; done).
    assert (lastPosition evs = lastPosition raw) as Elast by by apply lastPosition_shape.
    assert (page (pr_currentPosition pr) (logOf (pw_store w1)) raw) as Hpage by by exists n.
    assert (lastPosition raw ≤ headOf (logOf (pw_store w1)) ∧ pr_currentPosition pr < lastPosition raw) as [Hle Hlt].
    { split; [by eapply page_last|]. destruct (lastPosition_in raw Hne) as (x & _ & Hx & ->).
      by eapply page_in in Hx as [_ Hx]. }
    intros [= <- <- <-]. destruct (saveCheckpoint_frame (re_checkpoint env) (jb_name j) (lastPosition evs) w3) as (G1 & G2 & Hck).
    assert (logOf (pw_store (saveCheckpoint (re_checkpoint env) (jb_name j) (lastPosition evs) w3)) = logOf (pw_store w1)) as Elog
      by (unfold logOf; by rewrite G1, F1).
    split; [|rewrite Elog; cbn; rewrite Elast; done]. cbn [pr_currentPosition]. rewrite Elast in *. split.
    + by rewrite G1, F1.
    + destruct Hri1. lia.
    + rewrite Elog, G2. eapply below_page; [done|exact Hpage|done..| |].
      * destruct Hri1 as [_ _ [Hb1 Hb2] _]. split; [done|]. intros x Hx Hh Hxle.
        eapply covered_continues; [|by apply Hb2]. rewrite Em. by exists m.
      * intros x Hx Hh _. assert (shape x ∈ shape <$> evs) as Hin by (rewrite Hsh; by apply list_elem_of_fmap_2).
        apply list_elem_of_fmap in Hin as (y & Ey & Hy). unfold shape in Ey. injection Ey as Ey1 Ey2.
        destruct (Hall y Hy) as (es & Hes & Hyes); [unfold handles in *; congruence|]. rewrite Ey1. unfold covered.
        rewrite Em, afterClear_app by done. left. exists es. split; [set_solver|]. by apply list_elem_of_fmap_2.
    + intros ck' Eck'. rewrite Elog. destruct (Hck ck' Eck') as (ck & Eck & [->| ->]); [by rewrite lookup_insert_eq|].
      destruct Hri1 as [_ _ _ Hck1]. apply Hck1. by rewrite <- Eck, F2.
Qed.

Lemma rebuildLoop_spec c (r : ProjectionRebuilder) (j : job) fuel envs pr w w' pr' handled :
  ro_ToPosition (jb_options j) = 0 → (∀ n, others_ok (re_others (envs n))) →
  (∀ envs events w w' r, jb_process j envs events w = (w', r) → processed handled events w w' r) →
  rebuilding handled (jb_name j) (pr_currentPosition pr) w →
  rebuildLoop (A := A) (P := P) (Ser := Ser) (X := X) (K := K) (R := R) c r j fuel envs pr w = (w', Ok pr') →
  rebuilding handled (jb_name j) (pr_currentPosition pr') w' ∧ grows (logOf (pw_store w)) (logOf (pw_store w')) ∧
  headOf (logOf (pw_store w')) ≤ pr_currentPosition pr'.
Proof.
  intros Hto Hoth Hproc. revert envs pr w Hoth. induction fuel as [|fuel IH]; intros envs pr w Hoth Hri; cbn [rebuildLoop]; [done|].
  destruct (ctx_Done _ _); [done|]. destruct (rebuildTurn _ _ _ _ _ w) as [w1 [[next pr1]|err]] eqn:Et; [|done].
  eapply rebuildTurn_spec in Et as (Hri1 & Hg & Hnext); [|done|apply Hoth|done|done].
  destruct next as [q|]; [|intros [= <- <-]; done]. destruct Hnext as [-> _]. intros Hl.
  eapply IH in Hl as (? & Hg' & ?); [|intros n; apply Hoth|done]. split; [done|]. split; [|done]. by eapply grows_trans.
Qed.

(** A rebuild from the beginning to the end leaves nothing of the log unseen. *)
Lemma RebuildAsync_spec c (r : ProjectionRebuilder) fuel start finish envs (projection : AsyncProjection R) opts w w' name :
  let o := match opts with o :: _ => o | [] => DefaultRebuildOptions end in
  ro_FromPosition o = 0 → ro_ToPosition o = 0 → (∀ n, others_ok (re_others (envs n))) → name = ap_Name projection →
  el_wf (st_adapter (pw_store w)) →
  (∀ ck, pw_checkpoints w = Some ck → default 0 (ck_view ck !! name) ≤ headOf (logOf (pw_store w))) →
  RebuildAsync (A := A) (P := P) (Ser := Ser) (X := X) (K := K) c r fuel start finish envs projection opts w = (w', Ok tt) →
  grows (logOf (pw_store w)) (logOf (pw_store w')) ∧
  ∃ cur, rebuilding (ap_HandledEvents projection) name cur w' ∧ headOf (logOf (pw_store w')) ≤ cur.
Proof.
  intros o Hfrom Hto Hoth -> Hwf Hck. unfold RebuildAsync. fold o.
  destruct (clearReadModel _ _ _ w) as [w1 [[]|err]] eqn:Ec; [|done]. unfold rebuild.
  assert (pw_store w1 = pw_store w ∧ pw_checkpoints w1 = pw_checkpoints w) as [E1 E2].
  { unfold clearReadModel in Ec. destruct (negb _); [by injection Ec as <-|]. destruct (ap_Clear _) as [m|]; [|by injection Ec as <-].
    destruct (m _ _ _) as [r1 [[err|]|v]]; by injection Ec as <-. }
  set (w2 := match _ with Some ck => _ | None => w1 end).
  assert (rebuilding (ap_HandledEvents projection) (ap_Name projection) 0 w2 ∧ logOf (pw_store w2) = logOf (pw_store w)) as [Hri Elog].
  { assert (pw_store w2 = pw_store w) as Es by (unfold w2; destruct (ro_DeleteCheckpoint o); [destruct (pw_checkpoints w1)|]; done).
    assert (logOf (pw_store w2) = logOf (pw_store w)) as El by (by rewrite Es). split; [|done].
    pose proof (log_ok_wf _ Hwf) as Hok. split; [by rewrite Es|done|rewrite El; by apply below_zero|].
    rewrite El. intros ck Eck. unfold w2 in Eck.
    destruct (ro_DeleteCheckpoint o); [|apply Hck; by rewrite <- E2].
    destruct (pw_checkpoints w1) as [ck0|] eqn:Eck0; [|by rewrite Eck0 in Eck]. injection Eck as <-.
    destruct (ck_DeleteCheckpoint start (ap_Name projection) ck0) as [ck1 r1] eqn:Ed. cbn.
    apply ck_delete_view in Ed as [->|[_ ->]]; [|apply Hck; by rewrite <- E2]. rewrite lookup_delete_eq.
    by apply headOf_nonneg. }
  clearbody w2. destruct (rebuildLoop _ _ _ _ _ _ w2) as [w3 [pr|err]] eqn:El; [|done].
  eapply rebuildLoop_spec in El as (Hri3 & Hg & Hhead); [|done|done|apply rebuildAsyncBatch_processed|cbn; by rewrite Hfrom].
  intros [= <-]. rewrite Elog in Hg.
  destruct (ro_ProgressCallback o); [|by split; [|exists (pr_currentPosition pr)]]. split; [done|].
  exists (pr_currentPosition pr). split; [|done].
  eapply rebuilding_frame; [exact Hri3|by destruct Hri3|apply grows_refl| |done]. by apply continues_snoc.
Qed.

(** A successful rebuild by the engine. *)
Lemma rebuildWorker_keeps c call opts s s' :
  let o := match opts with o :: _ => o | [] => DefaultRebuildOptions end in
  ro_FromPosition o = 0 → ro_ToPosition o = 0 → (∀ n, others_ok (re_others (rc_turns call n))) →
  rebuildWorker (P := P) (Ser := Ser) (X := X) (K := K) (R := R) c call opts s = (s', Ok tt) → keeps s s'.
Proof.
  intros o Hfrom Hto Hoth. destruct s as [w k]. unfold rebuildWorker.
  assert (keeps (w, k) (setState ProjectionStateRebuilding (w, set_paused k true))) as Hk1.
  { transitivity (w, set_paused k true); [by apply keeps_frame|exact (setState_keeps _ (w, set_paused k true))]. }
  destruct (setState ProjectionStateRebuilding (w, set_paused k true)) as [w1 k1].
  destruct (rebuildLocked c call opts (w1, k1)) as [[w2 k2] r] eqn:Er. intros [= <- ->].
  etransitivity; [exact Hk1|]. transitivity (w2, k2).
  2: { transitivity (w2, set_paused k2 (aw_paused k)); [by apply keeps_frame|exact (setState_keeps _ (w2, set_paused k2 (aw_paused k)))]. }
  unfold rebuildLocked in Er. destruct (RebuildAsync _ _ _ _ _ _ _ _ w1) as [w3 [[]|err]] eqn:Eb; [|done].
  intros Hi. cbn in Hi |- *. pose proof Hi as [Hwf Hp Hc Hf].
  eapply (RebuildAsync_spec _ _ _ _ _ _ _ _ _ _ (aw_Name k1)) in Eb as (Hg & cur & Hri & Hhead); try done.
  2: { intros ck Eck. by destruct (Hc ck Eck). }
  assert (∀ p, p ≤ headOf (logOf (pw_store w3)) → below (ap_HandledEvents (aw_projection k1)) (logOf (pw_store w3)) (covered (pw_calls w3)) p) as Hall.
  { intros p Hle. destruct Hri as [_ _ [_ Hb] _]. split; [done|]. intros e He Hh Hpe. apply Hb; [done..|lia]. }
  pose proof (rg_wf _ _ _ _ Hri) as Hwf3.
  assert (headOf (logOf (pw_store w1)) ≤ headOf (logOf (pw_store w3))) as Hmono by (by apply headOf_grows; [|apply log_ok_wf..]).
  pose proof (rg_ck _ _ _ _ Hri) as Hck3.
  assert (0 ≤ headOf (logOf (pw_store w3))) as Hnn by by apply headOf_nonneg, log_ok_wf.
  assert (∀ w4 pos, pw_store w4 = pw_store w3 → pw_calls w4 = pw_calls w3 → pos ≤ headOf (logOf (pw_store w3)) →
    (∀ ck', pw_checkpoints w4 = Some ck' → ∃ ck, pw_checkpoints w3 = Some ck ∧ ck_view ck' = ck_view ck) →
    worker_inv w4 (set_position k1 pos (aw_lastProcessedAt k1))) as Hdone.
  { intros w4 pos Es Ec Hpos Hck4. split; unfold upto, excused; cbn; rewrite ?Es, ?Ec.
    - done.
    - by apply Hall.
    - intros ck' Eck'. destruct (Hck4 ck' Eck') as (ck & Eck & ->). by apply Hall, Hck3.
    - intros a Ha. destruct (Hf a Ha) as [Hle _]. destruct (Hall (se_GlobalPosition a)) as [? Hb]; [lia|].
      split; [done|]. intros e He Hh Hpe. left. by apply Hb. }
  destruct (pw_checkpoints w3) as [ck|] eqn:Eck.
  - destruct (ck_GetCheckpoint _ _ ck) as [ck1 rg] eqn:Eg. injection Er as <- <-. split; [done|]. apply Hdone; [done..| |].
    + destruct rg as [q|]; [|done]. apply ck_get_ok in Eg as ->. by apply Hck3.
    + intros ck' [= <-]. exists ck. by rewrite (ck_get_view _ _ _ _ _ Eg).
  - injection Er as <- <-. split; [done|]. apply Hdone; [done..|]. by intros ck'; rewrite Eck.
Qed.
End Invariant.
