(* ===== verification/ProjectionRegistry.v ===== *)
(** * The registries and the goroutines of the engine

    Names map to the workers that carry them, a worker has one goroutine at
    most, and one that lost its name has been told to stop. *)

From S2P Require Import Prelude.
From S2P Require Import Types.
From S2P Require Import Strconv.
From S2P Require Import Common.
From S2P Require Import Crypto.
From S2P Require Import EventLog.
From S2P Require Import EventStore.
From S2P Require Import Projection.
From S2P Require Import ProjectionWorker.
From S2P Require Import Rebuilder.
From S2P Require Import ProjectionEngine.

(** ** Names and workers

    Of any kind: the map gives the workers with those names, and a worker is
    stopped as soon as the map does not give it any more. *)
Section Named.
Context {W : Type} (name : W → string) (stopped : W → bool).

Record named_wf (ws : list W) (m : gmap string nat) : Prop := mkNamedWf {
  nw_named : ∀ n i, m !! n = Some i → ∃ k, ws !! i = Some k ∧ name k = n;
  nw_stopped : ∀ i k, ws !! i = Some k → stopped k = false ↔ m !! name k = Some i;
  nw_nonempty : ∀ i k, ws !! i = Some k → name k ≠ "";
}.

Lemma named_nil : named_wf [] ∅.
Proof. by split. Qed.

Lemma named_update ws m i k k' :
  named_wf ws m → ws !! i = Some k → name k' = name k → stopped k' = stopped k → named_wf (<[i := k']> ws) m.
Proof.
  intros [Hn Hs He] Hi En Es. pose proof (lookup_lt_Some _ _ _ Hi) as Hlt. split.
  - intros n j Hj. destruct (Hn n j Hj) as (x & Hx & <-).
    destruct (decide (j = i)) as [->|]; [|by exists x; rewrite list_lookup_insert_ne].
    exists k'. rewrite list_lookup_insert_eq by done. split; [done|]. congruence.
  - intros j x Hx. apply list_lookup_insert_Some in Hx as [(-> & <- & _)|[_ Hx]]; [|by apply Hs].
    rewrite En, Es. by apply Hs.
  - intros j x Hx. apply list_lookup_insert_Some in Hx as [(-> & <- & _)|[_ Hx]]; [rewrite En|]; by eapply He.
Qed.

Lemma named_register ws m k :
  named_wf ws m → m !! name k = None → name k ≠ "" → stopped k = false →
  named_wf (ws ++ [k]) (<[name k := length ws]> m).
Proof.
  intros [Hn Hs He] Hm Hk Ek. split.
  - intros n i [[<- <-]|[Hne Hi]]%lookup_insert_Some.
    + exists k. by rewrite list_lookup_middle.
    + destruct (Hn n i Hi) as (x & Hx & <-). exists x. split; [|done]. by apply lookup_app_l_Some.
  - intros i x [Hx|[Hlt Hx]]%lookup_app_Some.
    + pose proof (lookup_lt_Some _ _ _ Hx). rewrite (Hs i x Hx). destruct (decide (name x = name k)) as [E|Hne].
      * rewrite E, Hm, lookup_insert_eq. split; [done|]. intros [= <-]. lia.
      * by rewrite lookup_insert_ne.
    + apply list_lookup_singleton_Some in Hx as [Hi <-]. rewrite lookup_insert_eq. split; [|done]. intros _. f_equal. lia.
  - intros i x [Hx|[Hlt Hx]]%lookup_app_Some; [by eapply He|]. by apply list_lookup_singleton_Some in Hx as [_ <-].
Qed.

Lemma named_unregister ws m n i k k' :
  named_wf ws m → m !! n = Some i → ws !! i = Some k → name k' = name k → stopped k' = true →
  named_wf (<[i := k']> ws) (delete n m).
Proof.
  intros [Hn Hs He] Hm Hi En Es. pose proof (lookup_lt_Some _ _ _ Hi) as Hlt.
  assert (name k = n) as Hk by (destruct (Hn n i Hm) as (x & Hx & <-); congruence). split.
  - intros n' j [Hne Hj]%lookup_delete_Some. destruct (Hn n' j Hj) as (x & Hx & <-). exists x. split; [|done].
    rewrite list_lookup_insert_ne; [done|]. intros <-. congruence.
  - intros j x Hx. apply list_lookup_insert_Some in Hx as [(-> & <- & _)|[Hne Hx]].
    + rewrite Es, En, Hk, lookup_delete_eq. done.
    + rewrite (Hs j x Hx). destruct (decide (name x = n)) as [E|?]; [|by rewrite lookup_delete_ne].
      rewrite E, lookup_delete_eq, Hm. split; [|done]. intros [= <-]. done.
  - intros j x Hx. apply list_lookup_insert_Some in Hx as [(-> & <- & _)|[_ Hx]]; [rewrite En|]; by eapply He.
Qed.
End Named.

Section Registry.
Context {A P V Ser X K R : Type}.
Context `{AEAD} `{EventLogOps A} `{ProviderOps P} `{SerializerOps V Ser} `{SubjectIndexWriter X} `{MapOrder}.
Context `{CheckpointOps K} `{FloatConversion}.
Abbreviation world := (World (Store A P Ser X) K R).
Abbreviation sys := (world * asyncProjectionWorker R)%type.
Abbreviation engine := (ProjectionEngine (A := A) (P := P) (Ser := Ser) (X := X) (K := K) (R := R)).
Implicit Types w : world.
Implicit Types k : asyncProjectionWorker R.
Implicit Types s : sys.
Implicit Types e : engine.
Implicit Types c : EventStore.

(** ** What a worker's goroutine and the operator leave alone *)

Definition static k : AsyncProjection R * bool * bool := (aw_projection k, aw_supervising k, aw_stopped k).
Definition same_static s s' : Prop := static s'.2 = static s.2.

#[local] Instance same_static_preorder : PreOrder same_static.
Proof. split; [by intros s|]. intros s1 s2 s3 E1 E2. unfold same_static in *. by rewrite E2. Qed.

Lemma setState_static st s : same_static s (setState st s).
Proof. by destruct s. Qed.
Lemma setError_static err s : same_static s (setError err s).
Proof. by destruct s. Qed.
Lemma clearError_static s : same_static s (clearError s).
Proof. by destruct s. Qed.
Lemma pauseWorker_static s : same_static s (pauseWorker s).
Proof. by destruct s. Qed.
Lemma resumeWorker_static s : same_static s (resumeWorker s).
Proof. by destruct s. Qed.

Lemma applySequentially_static projection envs i events w k :
  same_static (w, k) (applySequentially projection envs i events w k).1.
Proof.
  revert i w k. induction events as [|ev events IH]; intros i w k; cbn [applySequentially]; [done|].
  destruct (ap_Apply _ _ _ _) as [r [[err|]|p]]; [done| |done]. etransitivity; [|apply IH]. done.
Qed.

Lemma applyEvents_static projection envs filtered w k : same_static (w, k) (applyEvents projection envs filtered w k).1.
Proof.
  unfold applyEvents. destruct (ap_ApplyBatch _ _ _ _) as [r [[err|]|p]]; [|done..].
  destruct (errors_Is _ _); [|done]. etransitivity; [|apply applySequentially_static]. done.
Qed.

Lemma processAsyncBatch_static c env s : same_static s (processAsyncBatch c env s).1.
Proof.
  destruct s as [w k]. unfold processAsyncBatch. destruct (LoadEventsFromPosition _ _ _ _) as [[|ev events]|err]; [done| |done].
  cbn zeta. destruct (selectEvents _ _ _ _ _ _ _ _) as [p [filtered sel]].
  set (w1 := set_store _ _).
  assert (∀ pos, same_static (w, k) (match filtered with
      | [] => (advance (be_checkpoint env) pos (w1, k), Ok tt)
      | _ => match applyEvents (aw_projection k) (be_apply env) filtered w1 k with
             | (w2, k2, Err err) => ((w2, k2), Err err)
             | (w2, k2, Ok _) => (advance (be_checkpoint env) pos (w2, set_failed k2 None), Ok tt)
             end end : sys * res unit).1) as Hgo.
  { intros pos. destruct filtered as [|f fs]; [done|].
    pose proof (applyEvents_static (aw_projection k) (be_apply env) (f :: fs) w1 k) as Hs.
    by destruct (applyEvents _ _ _ _ _) as [[w2 k2] [[]|err]]. }
  destruct sel; [apply Hgo|done|apply Hgo].
Qed.

Lemma handlePoisonEvent_static env cause s : same_static s (handlePoisonEvent env cause s).1.
Proof.
  destruct s as [w k]. unfold handlePoisonEvent. destruct (ao_OnPoisonEvent _); [|done].
  destruct (aw_failedEvent k); [|done]. by destruct (_ _ _ _ _) as [r [err|]].
Qed.

Lemma afterRun_static reason v s : same_static s (afterRun reason v s).2.
Proof.
  destruct s as [w k]. unfold afterRun. destruct reason; [done|]. destruct (ao_RestartPolicy _) as [p|]; [|done].
  cbn zeta. by destruct (negb _).
Qed.

Lemma catchUp_static envs v s : same_static s (catchUp envs v s).2.
Proof.
  etransitivity; [apply (setState_static ProjectionStateCatchingUp)|].
  unfold catchUp. destruct (setState ProjectionStateCatchingUp s) as [w k]. cbn zeta.
  match goal with |- context [match ?b with Some _ => _ | None => _ end] => destruct b as [ck|] end; [|done].
  destruct (getCheckpointWithRetry _ _ _ _ _) as [ck1 [pos|err]]; [done|].
  destruct (isShutdownError err); (etransitivity; [|apply afterRun_static]); done.
Qed.

Lemma pollOnce_static c env poisonEnv v pe be s : same_static s (pollOnce c env poisonEnv v pe be s).2.
Proof.
  unfold pollOnce. pose proof (processAsyncBatch_static c env s) as Hs. destruct (processAsyncBatch c env s) as [s1 [[]|err]].
  { etransitivity; [exact Hs|]. destruct (0 <? be); [apply clearError_static|done]. }
  etransitivity; [exact Hs|]. destruct (errors_Is err ContextCanceled).
  { etransitivity; [apply setState_static|apply afterRun_static]. }
  cbn zeta. set (isPoison := match ao_ErrorClassifier _ with Some _ => _ | None => _ end). set (s2 := if isPoison then _ else _).
  assert (same_static s1 s2) as Hs2 by (unfold s2; destruct isPoison; [apply setError_static|done]).
  etransitivity; [exact Hs2|]. destruct (isPoison && _); [|done].
  pose proof (handlePoisonEvent_static poisonEnv err s2) as Hp.
  destruct (handlePoisonEvent poisonEnv err s2) as [[w k] []]; (etransitivity; [exact Hp|]);
    [apply clearError_static|apply afterRun_static].
Qed.

Lemma turn_static c env sig pc s : same_static s (turn c env sig pc s).2.
Proof.
  unfold turn. destruct pc as [v|v pe be|v pe be d|v d| |]; [apply catchUp_static| | | |done..].
  - destruct sig; try (etransitivity; [apply setState_static|apply afterRun_static]).
    destruct (aw_paused s.2); [apply setState_static|apply pollOnce_static].
  - destruct sig; try (etransitivity; [apply setState_static|apply afterRun_static]). done.
  - destruct sig; try apply setState_static. done.
Qed.

Lemma rebuildWorker_static c call opts s : same_static s (rebuildWorker c call opts s).1.
Proof.
  destruct s as [w k]. unfold rebuildWorker. cbn. unfold rebuildLocked.
  destruct (RebuildAsync _ _ _ _ _ _ _ _ _) as [w1 [[]|err]]; [|done].
  destruct (pw_checkpoints w1) as [ck|]; [|done]. by destruct (ck_GetCheckpoint _ _ _).
Qed.

(** ** Well-formed engines *)

(** The goroutines and the guards: [ts] is the workers the goroutines run. *)
Record threads_wf (ws : list (asyncProjectionWorker R)) (ts : list nat) : Prop := mkThreadsWf {
  tw_once : NoDup ts;
  tw_guarded : ∀ i, i ∈ ts ↔ ∃ k, ws !! i = Some k ∧ aw_supervising k = true;
}.

Definition lw_Name (l : liveProjectionWorker R) : string := lp_Name (lw_projection l).

Record engine_wf e : Prop := mkEngineWf {
  ew_async : named_wf aw_Name aw_stopped (en_workers e) (en_async e);
  ew_threads : threads_wf (en_workers e) (en_threads e).*1;
  ew_live : named_wf lw_Name lw_stopped (en_liveWorkers e) (en_live e);
  ew_inline : NoDup (ip_Name <$> en_inline e);
  ew_flags : en_stopClosed e = en_stopping e;
  ew_idle : en_running e = false → en_stopping e = false → en_threads e = [];
}.

Lemma threads_update ws ts i k k' :
  threads_wf ws ts → ws !! i = Some k → aw_supervising k' = aw_supervising k → threads_wf (<[i := k']> ws) ts.
Proof.
  intros [Hn Hg] Hi Es. split; [done|]. intros j. rewrite Hg. pose proof (lookup_lt_Some _ _ _ Hi).
  destruct (decide (j = i)) as [->|]; [|by rewrite list_lookup_insert_ne].
  rewrite Hi, list_lookup_insert_eq by done. split; intros (x & [= <-] & Hx); eexists; split; try done; congruence.
Qed.

Lemma threads_launch ws ts i k :
  threads_wf ws ts → ws !! i = Some k → aw_supervising k = false →
  threads_wf (<[i := set_supervising k true]> ws) (ts ++ [i]).
Proof.
  intros [Hn Hg] Hi Es. pose proof (lookup_lt_Some _ _ _ Hi). split.
  - apply NoDup_app. split; [done|]. split; [|by apply NoDup_singleton]. intros j Hj ->%list_elem_of_singleton.
    apply Hg in Hj as (x & Hx & ?). congruence.
  - intros j. rewrite elem_of_app, Hg, list_elem_of_singleton. destruct (decide (j = i)) as [->|].
    + rewrite list_lookup_insert_eq by done. split; [|by right]. intros _. by eexists.
    + rewrite list_lookup_insert_ne by done. naive_solver.
Qed.

Lemma threads_retire ws ts t i k :
  threads_wf ws ts → ts !! t = Some i → ws !! i = Some k →
  threads_wf (<[i := set_supervising k false]> ws) (take t ts ++ drop (S t) ts).
Proof.
  intros [Hn Hg] Ht Hi. pose proof (lookup_lt_Some _ _ _ Hi).
  assert (∀ j, j ∈ ts ↔ j = i ∨ j ∈ take t ts ++ drop (S t) ts) as Hin.
  { intros j. rewrite <- (take_drop_middle ts t i Ht) at 1. set_solver. }
  rewrite <- (take_drop_middle ts t i Ht), <- Permutation_middle in Hn. apply NoDup_cons in Hn as [Hni Hn].
  split; [done|]. intros j. destruct (decide (j = i)) as [->|Hne].
  - rewrite list_lookup_insert_eq by done. split; [done|]. by intros (x & [= <-] & ?).
  - rewrite list_lookup_insert_ne by done. rewrite <- Hg, Hin. naive_solver.
Qed.

Lemma wf_world e w : engine_wf e → engine_wf (set_world e w).
Proof. by intros []. Qed.

Lemma wf_worker e w i k k' :
  engine_wf e → en_workers e !! i = Some k → static k' = static k →
  engine_wf (set_async (set_world e w) (<[i := k']> (en_workers e)) (en_async e)).
Proof.
  intros [Ha Ht Hl Hi Hf Hidle] Hk [= Ep Es Est]. split; try done; cbn.
  - eapply named_update; [done..| |done]. unfold aw_Name. by rewrite Ep.
  - by eapply threads_update.
Qed.

Lemma wf_on_worker f i e : (∀ s, same_static s (f s)) → engine_wf e → engine_wf (on_worker f i e).
Proof.
  intros Hf He. unfold on_worker. destruct (en_workers e !! i) as [k|] eqn:Hk; [|done].
  specialize (Hf (en_world e, k)). destruct (f _) as [w k']. by eapply wf_worker.
Qed.

Lemma wf_liveWorker e w i l l' :
  engine_wf e → en_liveWorkers e !! i = Some l → lw_Name l' = lw_Name l → lw_stopped l' = lw_stopped l →
  engine_wf (set_live (set_world e w) (<[i := l']> (en_liveWorkers e)) (en_live e)).
Proof. intros [Ha Ht Hl Hi Hf Hidle] Hk En Es. split; try done; cbn. by eapply named_update. Qed.

Lemma wf_liveState st i e : engine_wf e → engine_wf (set_liveState st i e).
Proof.
  intros He. unfold set_liveState. destruct (en_liveWorkers e !! i) as [l|] eqn:Hl; [|done]. by eapply wf_liveWorker.
Qed.

Lemma wf_launch i b e : en_running e = true → engine_wf e → engine_wf (launchSupervisor i b e).1.
Proof.
  intros Hr He. unfold launchSupervisor. destruct (en_workers e !! i) as [k|] eqn:Hk; [|done].
  destruct (aw_supervising k) eqn:Es; [done|]. destruct (en_stopping e) eqn:Est; [done|].
  unfold on_worker. rewrite Hk. destruct He as [Ha Ht Hl Hi Hf Hidle]. split; try done; cbn.
  - by eapply named_update.
  - rewrite fmap_app. by apply threads_launch.
  - intros Hr'. congruence.
Qed.

Lemma launch_running i b e : en_running (launchSupervisor i b e).1 = en_running e.
Proof.
  unfold launchSupervisor. destruct (en_workers e !! i) as [k|] eqn:Hk; [|done].
  destruct (aw_supervising k); [done|]. destruct (en_stopping e); [done|]. unfold on_worker. by rewrite Hk.
Qed.

(** ** Operations *)

Lemma validate_ok (n : option string) : validateProjection n = Ok tt → ∃ x, n = Some x ∧ x ≠ "".
Proof. destruct n as [x|]; cbn; [|done]. case_bool_decide; [done|]. intros _. by exists x. Qed.

Lemma RegisterInline_wf p e : engine_wf e → engine_wf (RegisterInline p e).1.
Proof.
  intros He. unfold RegisterInline. destruct p as [p|]; [|done]. cbn.
  case_bool_decide; [done|]. destruct (existsb _ _) eqn:Ex; [done|]. destruct He as [Ha Ht Hl Hi Hf Hidle].
  split; try done; cbn. rewrite fmap_app. apply NoDup_app. split; [done|]. split; [|by apply NoDup_singleton].
  intros n Hn Hin. apply list_elem_of_singleton in Hin as ->.
  apply not_true_iff_false in Ex. apply Ex. apply existsb_exists. apply list_elem_of_fmap in Hn as (q & Hq & Hin).
  exists q. split; [by apply list_elem_of_In|]. by apply bool_decide_eq_true.
Qed.

Lemma RegisterAsync_wf p opts e : engine_wf e → engine_wf (RegisterAsync p opts e).1.
Proof.
  intros He. unfold RegisterAsync. destruct p as [p|]; [|done]. cbn. case_bool_decide as Hn; [done|].
  destruct (en_async e !! ap_Name p) as [i|] eqn:Em; [done|]. destruct He as [Ha [Hnd Hg] Hl Hi Hf Hidle].
  split; try done; cbn.
  - by apply (named_register aw_Name aw_stopped (en_workers e) (en_async e) (newWorker p _)).
  - split; [done|]. intros i. rewrite Hg. split; intros (k & Hk & Hs); exists k; split; try done.
    + by apply lookup_app_l_Some.
    + apply lookup_app_Some in Hk as [Hk|[_ Hk]]; [done|]. by apply list_lookup_singleton_Some in Hk as [_ <-].
Qed.

Lemma RegisterLive_wf p opts e : engine_wf e → engine_wf (RegisterLive p opts e).1.
Proof.
  intros He. unfold RegisterLive. destruct p as [p|]; [|done]. cbn. case_bool_decide as Hn; [done|].
  destruct (en_live e !! lp_Name p) as [i|] eqn:Em; [done|].
  destruct (makechan _); [|done]. destruct He as [Ha Ht Hl Hi Hf Hidle].
  split; try done; cbn. by apply (named_register lw_Name lw_stopped (en_liveWorkers e) (en_live e) (mkLiveWorker p _ _ _ _)).
Qed.

Lemma NoDup_without {B} (l : list B) i : NoDup l → NoDup (take i l ++ drop (S i) l).
Proof.
  intros Hl. destruct (l !! i) as [x|] eqn:Hx.
  - rewrite <- (take_drop_middle l i x Hx), <- Permutation_middle in Hl. by apply NoDup_cons in Hl as [_ Hl].
  - apply lookup_ge_None in Hx. rewrite take_ge, drop_ge, app_nil_r by lia. done.
Qed.

Lemma alter_insert {B} (f : B → B) (i : nat) (l : list B) x : l !! i = Some x → alter f i l = <[i := f x]> l.
Proof. revert i. induction l as [|y l IH]; intros [|i]; try done; cbn; [by intros [= ->]|]. intros Hl. f_equal. by apply IH. Qed.

Lemma Unregister_wf n e : engine_wf e → engine_wf (Unregister n e).1.
Proof.
  intros He. unfold Unregister. case_bool_decide; [done|]. destruct (list_find _ _) as [[i p]|].
  { destruct He as [Ha Ht Hl Hi Hf Hidle]. split; try done; cbn.
    rewrite fmap_app, fmap_take, fmap_drop. by apply NoDup_without. }
  destruct (en_async e !! n) as [i|] eqn:Em.
  - destruct He as [Ha Ht Hl Hi Hf Hidle]. destruct (nw_named _ _ _ _ Ha n i Em) as (k & Hk & <-).
    unfold on_worker. rewrite Hk. split; try done; cbn; [by eapply named_unregister|by eapply threads_update].
  - destruct (en_live e !! n) as [i|] eqn:El; [|done].
    destruct He as [Ha Ht Hl Hi Hf Hidle]. destruct (nw_named _ _ _ _ Hl n i El) as (l & Hk & <-).
    split; try done; cbn. rewrite (alter_insert _ _ _ _ Hk). by eapply named_unregister.
Qed.

Lemma Start_wf e : engine_wf e → engine_wf (Start e).1.
Proof.
  intros He. unfold Start. destruct (en_running e) eqn:Er; [done|]. destruct (pw_checkpoints _); [|done]. cbn.
  set (e0 := set_flags e true false false).
  assert (∀ (l : list (string * nat)) e', en_running e' = true → engine_wf e' →
    engine_wf (foldl (λ e '(_, i), (launchSupervisor i false e).1) e' l)) as Hlaunch.
  { induction l as [|[n i] l IH]; intros e' Hr He'; cbn [foldl]; [done|].
    apply IH; [by rewrite launch_running|by apply wf_launch]. }
  assert (∀ (l : list (string * nat)) e', engine_wf e' → engine_wf (foldl (λ e '(_, i), set_liveState ProjectionStateRunning i e) e' l)) as Hlive.
  { induction l as [|[n i] l IH]; intros e' He'; cbn [foldl]; [done|]. by apply IH, wf_liveState. }
  apply Hlive, Hlaunch; [done|]. destruct He as [Ha Ht Hl Hi Hf Hidle]. by split.
Qed.

Lemma beginStop_wf e : engine_wf e → engine_wf (beginStop e).1.
Proof.
  intros He. unfold beginStop. destruct (en_running e) eqn:Er; [|done]. destruct He as [Ha Ht Hl Hi Hf Hidle].
  cbn. by destruct (en_stopClosed e); split.
Qed.

Lemma endStop_wf ctxErr e : en_stopping e = true → engine_wf e → engine_wf (endStop ctxErr e).1.
Proof. intros Hs [Ha Ht Hl Hi Hf Hidle]. split; try done; cbn. by rewrite Hs. Qed.

Lemma fst_insert {B} (ts : list (nat * B)) t i x y : ts !! t = Some (i, x) → (<[t := (i, y)]> ts).*1 = ts.*1.
Proof. intros Ht. rewrite list_fmap_insert. apply list_insert_id. by rewrite list_lookup_fmap, Ht. Qed.

Lemma runThread_wf c env d sig t e : engine_wf e → engine_wf (runThread c env d sig t e).
Proof.
  intros He. unfold runThread. destruct (en_threads e !! t) as [[i pc]|] eqn:Ht; [|done].
  destruct (en_workers e !! i) as [k|] eqn:Hk; [|done]. destruct (signalled d i sig e); [|done].
  pose proof (turn_static c env sig pc (en_world e, k)) as Hs. destruct (turn _ _ _ _ _) as [pc' [w k']].
  destruct (wf_worker e w i k k' He Hk Hs) as [Ha Hth Hl Hi Hf Hidle].
  split; try done; cbn; [by rewrite (fst_insert _ _ _ _ _ Ht)|]. cbn in Hidle. intros Hr Hst.
  specialize (Hidle Hr Hst). by rewrite Hidle in Ht.
Qed.

Lemma retireThread_wf t e : engine_wf e → engine_wf (retireThread t e).
Proof.
  intros He. unfold retireThread. destruct (en_threads e !! t) as [[i pc]|] eqn:Ht; [|done]. destruct pc; try done.
  destruct He as [Ha Hth Hl Hi Hf Hidle]. assert ((en_threads e).*1 !! t = Some i) as Ht1 by by rewrite list_lookup_fmap, Ht.
  destruct (proj1 (tw_guarded _ _ Hth i)) as (k & Hk & _); [by eapply list_elem_of_lookup_2|].
  unfold on_worker. rewrite Hk. split; try done; cbn.
  - by eapply named_update.
  - rewrite fmap_app, fmap_take, fmap_drop. by eapply threads_retire.
  - intros Hr Hs. by rewrite (Hidle Hr Hs) in Ht.
Qed.

Lemma Pause_wf n e : engine_wf e → engine_wf (Pause n e).1.
Proof.
  intros He. unfold Pause. destruct (en_async e !! n); [by apply wf_on_worker; [apply pauseWorker_static|]|].
  destruct (en_live e !! n); [by apply wf_liveState|done].
Qed.

Lemma Resume_wf n e : engine_wf e → engine_wf (Resume n e).1.
Proof.
  intros He. unfold Resume. destruct (en_async e !! n); [by apply wf_on_worker; [apply resumeWorker_static|]|].
  destruct (en_live e !! n); [by apply wf_liveState|done].
Qed.

Lemma Rebuild_wf c call n opts e : engine_wf e → engine_wf (Rebuild c call n opts e).1.
Proof.
  intros He. unfold Rebuild. destruct (en_async e !! n) as [i|]; [|done].
  destruct (en_workers e !! i) as [k|] eqn:Hk; [|done].
  pose proof (rebuildWorker_static c call opts (en_world e, k)) as Hs.
  destruct (rebuildWorker _ _ _ _) as [[w k'] r]. by eapply wf_worker.
Qed.

Lemma Restart_wf n e : engine_wf e → engine_wf (Restart n e).1.
Proof.
  intros He. unfold Restart. destruct (en_async e !! n) as [i|]; [|done].
  destruct (en_running e) eqn:Er; [|done]. destruct (en_stopping e); [done|]. cbn.
  destruct (en_workers e !! i); [|done]. case_bool_decide; [|done]. by apply wf_launch.
Qed.

Lemma deliverTo_static choose j events l :
  lw_Name (deliverTo choose j events l).1 = lw_Name l ∧ lw_stopped (deliverTo choose j events l).1 = lw_stopped l.
Proof.
  revert j l. induction events as [|ev events IH]; intros j l; cbn [deliverTo]; [done|].
  destruct (negb _); [apply IH|]. destruct (choose j); [|done..].
  destruct (IH (S j) (mkLiveWorker (lw_projection l) (lw_capacity l) (lw_stopped l) (lw_eventCh l ++ [ev]) (lw_state l)))
    as [-> ->]. done.
Qed.

Lemma fanOut_wf choose events js ls m : named_wf lw_Name lw_stopped ls m → named_wf lw_Name lw_stopped (fanOut choose events js ls) m.
Proof.
  revert ls. induction js as [|i js IH]; intros ls Hl; cbn [fanOut]; [done|].
  destruct (ls !! i) as [l|] eqn:Ei; [|by apply IH]. destruct (negb _); [by apply IH|].
  destruct (deliverTo_static (choose i) 0 events l) as [En Es].
  destruct (deliverTo _ _ _ _) as [l' []]; [apply IH|]; by eapply named_update.
Qed.

Lemma NotifyLiveProjections_wf c now choose events e : engine_wf e → engine_wf (NotifyLiveProjections c now choose events e).
Proof.
  intros [Ha Ht Hl Hi Hf Hidle]. unfold NotifyLiveProjections. cbn zeta.
  destruct (match es_encryption c with Some _ => _ | None => _ end) as [p evs]. split; try done; cbn. by apply fanOut_wf.
Qed.

Lemma liveTurn_wf env i e : engine_wf e → engine_wf (liveTurn env i e).
Proof.
  intros He. unfold liveTurn. destruct (en_liveWorkers e !! i) as [l|] eqn:El; [|done].
  destruct (lw_eventCh l); [done|]. by eapply wf_liveWorker.
Qed.

Lemma stopLiveWorker_wf envs d i e : engine_wf e → engine_wf (stopLiveWorker envs d i e).
Proof.
  intros He. apply wf_liveState. destruct d; [done|]. unfold drainLiveWorker.
  destruct (en_liveWorkers e !! i) as [l|]; [|done]. generalize (seq 0 (length (lw_eventCh l))). intros js. clear l.
  revert e He. induction js as [|j js IH]; intros e He; cbn [foldl]; [done|]. by apply IH, liveTurn_wf.
Qed.

(** ** Histories *)

(** One step of the engine: an operation, a turn of a goroutine, or anything
    else that happens to the application and the store. *)
Inductive engine_step c : engine → engine → Prop :=
| do_RegisterInline p e : engine_step c e (RegisterInline p e).1
| do_RegisterAsync p opts e : engine_step c e (RegisterAsync p opts e).1
| do_RegisterLive p opts e : engine_step c e (RegisterLive p opts e).1
| do_Unregister n e : engine_step c e (Unregister n e).1
| do_Start e : engine_step c e (Start e).1
| do_beginStop e : engine_step c e (beginStop e).1
| do_endStop ctxErr e : en_stopping e = true → engine_step c e (endStop ctxErr e).1
| do_runThread env ctxDone sig t e : engine_step c e (runThread c env ctxDone sig t e)
| do_retireThread t e : engine_step c e (retireThread t e)
| do_Pause n e : engine_step c e (Pause n e).1
| do_Resume n e : engine_step c e (Resume n e).1
| do_Rebuild call n opts e : engine_step c e (Rebuild c call n opts e).1
| do_Restart n e : engine_step c e (Restart n e).1
| do_NotifyLiveProjections now choose events e : engine_step c e (NotifyLiveProjections c now choose events e)
| do_liveTurn env i e : engine_step c e (liveTurn env i e)
| do_stopLiveWorker envs ctxDone i e : engine_step c e (stopLiveWorker envs ctxDone i e)
| do_others w e : engine_step c e (set_world e w).

Lemma engine_step_wf c e e' : engine_step c e e' → engine_wf e → engine_wf e'.
Proof.
  destruct 1; eauto using RegisterInline_wf, RegisterAsync_wf, RegisterLive_wf, Unregister_wf, Start_wf, beginStop_wf,
    endStop_wf, runThread_wf, retireThread_wf, Pause_wf, Resume_wf, Rebuild_wf, Restart_wf, NotifyLiveProjections_wf,
    liveTurn_wf, stopLiveWorker_wf, wf_world.
Qed.

Lemma NewProjectionEngine_wf w : engine_wf (NewProjectionEngine w).
Proof.
  split; [apply named_nil| |apply named_nil|by apply NoDup_nil_2|done..].
  split; [by apply NoDup_nil_2|]. intros i. split; [by intros []%not_elem_of_nil|]. by intros (k & ? & _).
Qed.
End Registry.
