(* ===== verification/ProjectionReplay.v ===== *)
(** * What a rebuild computes

    For a projection whose methods do not fail, clearing the read model and
    replaying the log page by page ends, and gives the fold of the handled
    events as decrypted, however large the pages are. *)

From S2P Require Import Prelude.
From S2P Require Import Types.
From S2P Require Import Strconv.
From S2P Require Import Utf8.
From S2P Require Import Common.
From S2P Require Import Crypto.
From S2P Require Import FieldEncryption.
From S2P Require Import LogInvariant.
From S2P Require Import MemoryTheorems.
From S2P Require Import EventLog.
From S2P Require Import EventStore.
From S2P Require Import Projection.
From S2P Require Import ProjectionWorker.
From S2P Require Import Rebuilder.
From S2P Require Import ProjectionCoverage.
From S2P Require Import ProjectionInvariant.

(** ** Pages of an increasing log *)

Section Pages.
Implicit Types l : list StoredEvent.

Definition after (p : Z) l : list StoredEvent := filter (λ e, p < se_GlobalPosition e) l.
Definition upTo (limit : Z) l : list StoredEvent := if 0 <? limit then filter (λ e, se_GlobalPosition e ≤ limit) l else l.

Lemma after_page p n l :
  strictly_increasing se_GlobalPosition l → take n (after p l) ≠ [] →
  after (lastPosition (take n (after p l))) l = drop n (after p l).
Proof.
  intros Hl Hne. pose proof (strictly_increasing_filter se_GlobalPosition (λ e, p < se_GlobalPosition e) l Hl) as Hs.
  fold (after p l) in Hs. destruct (lastPosition_in _ Hne) as (x & Hlast & Hx & ->).
  assert (p < se_GlobalPosition x) as Hpx.
  { apply (subseteq_take n) in Hx. by apply list_elem_of_filter in Hx as [? _]. }
  assert (after (se_GlobalPosition x) l = after (se_GlobalPosition x) (after p l)) as ->.
  { unfold after. rewrite list_filter_filter. apply list_filter_iff. intros y. lia. }
  generalize dependent (after p l). clear Hl. intros S Hne Hs Hlast Hx.
  rewrite <- (take_drop n S) at 1. unfold after. rewrite filter_app.
  rewrite (list_filter_none _ (take n S)), (list_filter_all _ (drop n S)); [done| |].
  - intros y Hy. apply Z.nle_gt. intros Hle. assert (y ∈ S) as HyS by by apply (subseteq_drop n).
    pose proof (page_covers _ _ _ _ _ Hs Hlast HyS Hle) as Hyt.
    apply list_elem_of_lookup in Hy as [i Hi], Hyt as [j Hj]. rewrite lookup_drop in Hi.
    apply lookup_take_Some in Hj as [Hj Hjn]. specialize (Hs j (n + i)%nat y y Hj Hi). lia.
  - intros y Hy Hlt. apply list_elem_of_lookup in Hy as [j Hj].
    rewrite last_lookup in Hlast. pose proof (lookup_lt_Some _ _ _ Hj).
    destruct (decide (j = pred (length (take n S)))) as [->|]; [simplify_eq; lia|].
    apply lookup_take_Some in Hj as [Hj _], Hlast as [Hlast _].
    specialize (Hs j (pred (length (take n S))) y x Hj Hlast). lia.
Qed.

(** An upper bound cuts an increasing list. *)
Lemma upTo_take limit n l :
  strictly_increasing se_GlobalPosition l → upTo limit (take n l) = take n (upTo limit l).
Proof.
  unfold upTo. destruct (0 <? limit); [|done]. revert n. induction l as [|e l IH]; intros n Hl; [by destruct n|].
  apply strictly_increasing_cons in Hl as [Hl He]. destruct n as [|n]; [done|]. cbn [take].
  destruct (decide (se_GlobalPosition e ≤ limit)) as [Hle|Hgt].
  - rewrite !filter_cons_True by done. cbn [take]. by rewrite IH.
  - rewrite !filter_cons_False by done. rewrite !list_filter_none; [done| |].
    + intros y Hy. specialize (He y Hy). lia.
    + intros y Hy. apply (subseteq_take n) in Hy. specialize (He y Hy). lia.
Qed.

Lemma upTo_after limit p l : upTo limit (after p l) = after p (upTo limit l).
Proof.
  unfold upTo, after. destruct (0 <? limit); [|done]. rewrite !list_filter_filter. apply list_filter_iff. intros e. tauto.
Qed.

Lemma upTo_increasing limit l : strictly_increasing se_GlobalPosition l → strictly_increasing se_GlobalPosition (upTo limit l).
Proof. unfold upTo. destruct (0 <? limit); [|done]. apply strictly_increasing_filter. Qed.

Lemma upTo_full limit l e : 0 < limit → limit ≤ se_GlobalPosition e → after (se_GlobalPosition e) (upTo limit l) = [].
Proof.
  intros Hl He. apply list_filter_none. intros y Hy. unfold upTo in Hy. rewrite (proj2 (Z.ltb_lt _ _) Hl) in Hy.
  apply list_elem_of_filter in Hy as [Hy _]. lia.
Qed.

Lemma selected_after p l : selected p emptyFilter l = after p l.
Proof.
  unfold selected, after. apply list_filter_iff. intros e. split; [by intros []|]. intros ?. split; [done|].
  apply FeedFilter_Matches_empty.
Qed.
End Pages.

Section Replay.
Context {A P V Ser X K R : Type}.
Context `{AEAD} `{EventLogOps A} `{!EventLogLaws A} `{ProviderOps P} `{SerializerOps V Ser} `{SubjectIndexWriter X} `{MapOrder}.
Context `{!ProviderStable P} `{CheckpointOps K} `{FloatConversion}.
Abbreviation world := (World (Store A P Ser X) K R).
Implicit Types w : world.
Implicit Types c : EventStore.

(** The reference: the handled events, in order, from a state. *)
Definition replay (step : R → StoredEvent → R) (handled : list string) (events : list StoredEvent) (r : R) : R :=
  foldl step r (filter (handles handled) events).

Definition replays (step : R → StoredEvent → R) (handled : list string) (process : processor) : Prop :=
  ∀ envs events w, ∃ w', process envs events w = (w', Ok tt) ∧ pw_store w' = pw_store w ∧
    pw_app w' = replay step handled events (pw_app w).

(** Methods that do not fail; a batch is the events in order, or not
    implemented. *)
Definition applies (step : R → StoredEvent → R) (m : method R StoredEvent) : Prop :=
  ∀ env e r, m env e r = (step r e, Returned None).
Definition appliesBatch (step : R → StoredEvent → R) (m : method R (list StoredEvent)) : Prop :=
  ∀ env es r, m env es r = (foldl step r es, Returned None) ∨
    ∃ err, m env es r = (r, Returned (Some err)) ∧ errors_Is err ErrNotImplemented = true.

Lemma applyEach_replays step apply handled envs i events w : applies step apply →
  ∃ w', applyEach (A := A) (P := P) (Ser := Ser) (X := X) (K := K) apply handled envs i events w = (w', Ok tt) ∧
    pw_store w' = pw_store w ∧ pw_app w' = replay step handled events (pw_app w).
Proof.
  intros Ha. revert i w. induction events as [|e events IH]; intros i w; cbn [applyEach]; [by exists w|].
  unfold replay. destruct (decide (handles handled e)) as [Hh|Hh].
  - rewrite filter_cons_True by done. unfold handles in Hh. rewrite Hh. unfold callMethod. rewrite Ha.
    destruct (IH (S i) (observe (set_app w (step (pw_app w) e)) (Applied [e]))) as (w' & -> & E1 & E2). by exists w'.
  - rewrite filter_cons_False by done. apply not_true_iff_false in Hh. rewrite Hh. apply IH.
Qed.

Lemma processInlineBatch_replays step projection :
  applies step (ip_Apply projection) →
  replays step (ip_HandledEvents projection) (processInlineBatch projection).
Proof. intros Ha envs events w. by apply applyEach_replays. Qed.

Lemma handles_all (l : list StoredEvent) : filter (handles []) l = l.
Proof. by apply list_filter_all. Qed.

Lemma rebuildAsyncBatch_replays step projection :
  applies step (ap_Apply projection) → appliesBatch step (ap_ApplyBatch projection) →
  replays step (ap_HandledEvents projection) (rebuildAsyncBatch projection).
Proof.
  intros Ha Hb envs events w. unfold rebuildAsyncBatch. rewrite foldl_filter_handled. unfold replay.
  set (f := filter _ events). destruct f as [|x f']; [by exists w|]. unfold callMethod.
  destruct (Hb (envs 0%nat) (x :: f') (pw_app w)) as [-> |(err & -> & He)]; [by eexists|]. rewrite He.
  destruct (applyEach_replays step (ap_Apply projection) [] (λ i, envs (S i)) 0 (x :: f') (set_app w (pw_app w)) Ha)
    as (w' & -> & E1 & E2). exists w'. split; [done|]. split; [done|]. rewrite E2. unfold replay. by rewrite handles_all.
Qed.

(** ** The loop *)

Lemma Forall_filtered {T} (Q Q' : T → Prop) `{!∀ x, Decision (Q' x)} l : Forall Q l → Forall Q (filter Q' l).
Proof. rewrite !Forall_forall. intros Hl x Hx. apply list_elem_of_filter in Hx as [_ Hx]. by apply Hl. Qed.

(** From the provider [p] on, whenever the event is decrypted it gives [plain]
    of it: none of its keys is revoked or unavailable. *)
Definition opensTo c (plain : StoredEvent → StoredEvent) (p : P) (e : StoredEvent) : Prop :=
  ∀ t q, later p q → ∃ q', later q q' ∧ DecryptStoredEvent c t e q = (q', Ok (plain e)).

Lemma opensTo_later c plain p q e : later p q → opensTo c plain p e → opensTo c plain q e.
Proof. intros Hq Ho t q1 Hq1. apply Ho. by transitivity q. Qed.

Lemma opensTo_shape c plain p e : opensTo c plain p e → shape (plain e) = shape e.
Proof. intros Ho. destruct (Ho 0 p) as (q & _ & E); [done|]. by eapply DecryptStoredEvent_shape. Qed.

(** Without encryption every event opens to itself. *)
Lemma opensTo_plain c p e : es_encryption c = None → opensTo c id p e.
Proof. intros Hc t q _. exists q. split; [done|]. unfold DecryptStoredEvent. by rewrite Hc. Qed.

(** An event that is decrypted now with a data key the provider unwraps opens. *)
Lemma opensTo_unwraps c plain t (p : P) e ct dek :
  (DecryptStoredEvent c t e p).2 = Ok (plain e) →
  base64Decode (default "" (custom_lookup (se_Metadata e) encryptedDEKKey)) = Some ct →
  unwraps t p (GetEncryptionKeyID (se_Metadata e)) ct dek → opensTo c plain p e.
Proof.
  intros Hd Hct Hu t' q Hq. pose proof (later_unwraps t t' p q _ _ _ Hq Hu) as Hu'. unfold unwraps in Hu, Hu'.
  pose proof (later_decrypt t' (GetEncryptionKeyID (se_Metadata e)) ct q) as Hl.
  unfold DecryptStoredEvent, decryptFields in *. destruct (es_encryption c) as [enc|]; [|injection Hd as <-; by exists q].
  destruct (negb (IsEncrypted _)); [injection Hd as <-; by exists q|]. destruct (negb (fe_hasProvider enc)); [done|].
  destruct (negb _ && negb _); [done|]. rewrite Hct in *.
  destruct (DecryptDataKey t _ ct p) as [p1 r1], (DecryptDataKey t' _ ct q) as [q1 r2]. cbn in Hu, Hu', Hl. subst r1 r2.
  destruct (unsealEvent _ _ _ _ _) as [d|err]; [|done]. injection Hd as <-. by exists q1.
Qed.

Lemma decryptStoredEvents_opens c plain now i events acc (p q : P) :
  Forall (opensTo c plain p) events → later p q →
  ∃ q', later p q' ∧ decryptStoredEvents c now i events acc q = (q', Ok (acc ++ (plain <$> events))).
Proof.
  intros Ho. revert i acc q. induction Ho as [|e events He _ IH]; intros i acc q Hq; cbn [decryptStoredEvents fmap list_fmap].
  { exists q. by rewrite app_nil_r. }
  destruct (He (now i) q Hq) as (q1 & Hq1 & ->).
  destruct (IH (S i) (acc ++ [plain e]) q1) as (q2 & Hq2 & ->); [by transitivity q|]. exists q2.
  split; [done|]. by rewrite <- app_assoc.
Qed.

(** A call that can read, with no other writer: its context is alive. *)
Definition undisturbed (env : RebuildEnv A) : Prop :=
  re_others env = id ∧ check_ctx (re_load env) = Ok tt ∧ ctx_Done (re_load env) 0 = false.

(** The store is open, and every event of its log opens. *)
Record readable c (plain : StoredEvent → StoredEvent) w : Prop := {
  rd_wf : el_wf (st_adapter (pw_store w));
  rd_open : LogSpec.closed (el_view (st_adapter (pw_store w))) = false;
  rd_opens : Forall (opensTo c plain (st_provider (pw_store w))) (logOf (pw_store w));
}.

(** Nothing of the store changed but the provider, which went on. *)
Definition goneOn (s s' : Store A P Ser X) : Prop := ∃ q, later (st_provider s) q ∧ s' = set_provider s q.

Lemma set_provider_id (s : Store A P Ser X) : set_provider s (st_provider s) = s.
Proof. by destruct s. Qed.

Lemma goneOn_refl s : goneOn s s.
Proof. exists (st_provider s). split; [done|]. by rewrite set_provider_id. Qed.

Lemma goneOn_trans s1 s2 s3 : goneOn s1 s2 → goneOn s2 s3 → goneOn s1 s3.
Proof. intros (q1 & Hq1 & ->) (q2 & Hq2 & ->). exists q2. split; [by transitivity q1|done]. Qed.

Lemma goneOn_log s s' : goneOn s s' → logOf s' = logOf s.
Proof. by intros (q & _ & ->). Qed.

Lemma readable_goneOn c plain w w' : goneOn (pw_store w) (pw_store w') → readable c plain w → readable c plain w'.
Proof.
  intros (q & Hq & E) [Hwf Ho Hall]. split; rewrite E; [done..|].
  eapply Forall_impl; [exact Hall|]. intros e. by apply opensTo_later.
Qed.

Lemma set_adapter_id w : set_store w (set_adapter (pw_store w) (st_adapter (pw_store w))) = w.
Proof. by destruct w as [[] ? ? ?]. Qed.

Lemma loadDecrypted_opens c plain r env from w :
  readable c plain w → check_ctx (re_load env) = Ok tt →
  ∃ n q, (0 < n)%nat ∧ later (st_provider (pw_store w)) q ∧
    loadDecrypted (K := K) (R := R) c r env from w =
      (set_store w (set_provider (pw_store w) q), Ok (plain <$> take n (after from (logOf (pw_store w))))).
Proof.
  intros [Hwf Hopen Hall] Hctx. set (n := Z.to_nat (DefaultLimit (rb_batchSize r) 1000)).
  assert (LoadEventsFromPosition (re_load env) from (rb_batchSize r) (pw_store w) =
    Ok (take n (after from (logOf (pw_store w))))) as E.
  { unfold LoadEventsFromPosition. rewrite el_feed_spec by done. unfold LogSpec.feed. rewrite Hctx, Hopen.
    rewrite <- selected_after. done. }
  destruct (decryptStoredEvents_opens c plain (re_now env) 0 (take n (after from (logOf (pw_store w)))) []
    (st_provider (pw_store w)) (st_provider (pw_store w))) as (q & Hq & Eq); [|done|].
  { apply Forall_take. unfold after. by apply Forall_filtered. }
  exists n, q. split; [pose proof (DefaultLimit_pos (rb_batchSize r) 1000); unfold n; lia|]. split; [done|].
  unfold loadDecrypted. by rewrite E, Eq.
Qed.

Lemma saveCheckpoint_rest env name pos w :
  pw_store (saveCheckpoint env name pos w) = pw_store w ∧ pw_app (saveCheckpoint env name pos w) = pw_app w.
Proof. unfold saveCheckpoint. by destruct (pw_checkpoints w). Qed.

(** Opening keeps an event's place. *)
Lemma upTo_opened c plain p limit l :
  Forall (opensTo c plain p) l → upTo limit (plain <$> l) = plain <$> upTo limit l.
Proof.
  intros Hl. unfold upTo. destruct (0 <? limit); [|done].
  induction Hl as [|e l He _ IH]; [done|]. cbn [fmap list_fmap]. pose proof (opensTo_shape _ _ _ _ He) as Hs. injection Hs as Hs _.
  destruct (decide (se_GlobalPosition e ≤ limit)) as [Hle|Hgt].
  - rewrite !filter_cons_True by (rewrite ?Hs; done). cbn. f_equal. exact IH.
  - rewrite !filter_cons_False by (rewrite ?Hs; done). exact IH.
Qed.

Lemma lastPosition_opened c plain p l : Forall (opensTo c plain p) l → lastPosition (plain <$> l) = lastPosition l.
Proof.
  intros Hl. unfold lastPosition. rewrite fmap_last. destruct (last l) as [e|] eqn:E; [|done]. cbn.
  rewrite Forall_forall in Hl. apply last_Some_elem_of in E. pose proof (opensTo_shape _ _ _ _ (Hl e E)) as Hs. by injection Hs.
Qed.

(** One turn: the next page of what remains of the log. *)
Lemma rebuildTurn_replays c plain r j step handled env pr w :
  replays step handled (jb_process j) → undisturbed env → readable c plain w →
  let L := upTo (ro_ToPosition (jb_options j)) (logOf (pw_store w)) in
  let rest := after (pr_currentPosition pr) L in
  ∃ n w' next pr', rebuildTurn c r j env pr w = (w', Ok (next, pr')) ∧ goneOn (pw_store w) (pw_store w') ∧ (0 < n)%nat ∧
    pw_app w' = replay step handled (plain <$> take n rest) (pw_app w) ∧
    match next with
    | None => drop n rest = []
    | Some q => rest ≠ [] ∧ after (pr_currentPosition q) L = drop n rest
    end.
Proof.
  intros Hproc (Hid & Hctx & _) Hr L rest. unfold rebuildTurn.
  set (w0 := if ro_ProgressCallback (jb_options j) && _ && _ then _ else w).
  assert (pw_store w0 = pw_store w ∧ pw_app w0 = pw_app w) as [E1 E2] by (unfold w0; by destruct (_ && _ && _)).
  clearbody w0. rewrite Hid. unfold id. rewrite set_adapter_id.
  assert (readable c plain w0) as Hr0 by (apply (readable_goneOn c plain w); [rewrite E1; apply goneOn_refl|done]).
  pose proof (el_positions _ (rd_wf _ _ _ Hr)) as Hinc. fold (logOf (pw_store w)) in Hinc.
  destruct (loadDecrypted_opens c plain r env (pr_currentPosition pr) w0 Hr0 Hctx) as (n & q & Hn & Hq & ->). rewrite E1 in *.
  pose proof (rd_opens _ _ _ Hr) as Hall.
  match goal with |- context [if 0 <? ro_ToPosition (jb_options j) then filter ?P ?l else ?l] =>
    change (if 0 <? ro_ToPosition (jb_options j) then filter P l else l) with (upTo (ro_ToPosition (jb_options j)) l) end.
  rewrite (upTo_opened c plain (st_provider (pw_store w))) by (apply Forall_take, Forall_filtered, Hall).
  rewrite upTo_take by (by apply strictly_increasing_filter). rewrite upTo_after. fold L rest.
  assert (Forall (opensTo c plain (st_provider (pw_store w))) (take n rest)) as Hpage.
  { apply Forall_take, Forall_filtered. unfold L, upTo. destruct (0 <? _); [by apply Forall_filtered|done]. }
  set (w1 := set_store w0 (set_provider (pw_store w) q)).
  assert (goneOn (pw_store w) (pw_store w1)) as Hg by by exists q.
  exists n. destruct (take n rest) as [|e es] eqn:Et.
  { exists w1, None, pr. cbn [fmap list_fmap]. split; [done|]. split; [done|]. split; [done|]. split; [exact E2|].
    destruct rest; [by rewrite drop_nil|]. by destruct n; [lia|]. }
  cbn [fmap list_fmap] in *.
  destruct (Hproc (re_apply env) (plain e :: (plain <$> es)) w1) as (w2 & -> & F1 & F2). eexists _, _, _. split; [reflexivity|].
  destruct (saveCheckpoint_rest (re_checkpoint env) (jb_name j) (lastPosition (plain e :: (plain <$> es))) w2) as [G1 G2].
  rewrite G1, F1, G2, F2. split; [done|]. split; [done|]. split; [by rewrite <- E2|].
  pose proof (lastPosition_opened c plain _ _ Hpage) as Hlp. cbn [fmap list_fmap] in Hlp. rewrite Hlp.
  assert (after (lastPosition (e :: es)) L = drop n rest) as Hdrop.
  { unfold rest in *. rewrite <- Et. apply after_page; [by apply upTo_increasing|]. by rewrite Et. }
  destruct (_ && _) eqn:Ed; [|by split; [intros E0; rewrite E0, take_nil in Et|]].
  apply andb_true_iff in Ed as [Hpos Hlim]. zbool. rewrite <- Hdrop.
  unfold lastPosition in *. destruct (last (e :: es)) as [x|] eqn:El; [|by apply last_None in El].
  cbn in *. by apply upTo_full.
Qed.

Lemma rebuildLoop_replays c plain r j step handled fuel envs pr w :
  replays step handled (jb_process j) → (∀ n, undisturbed (envs n)) → readable c plain w →
  let rest := after (pr_currentPosition pr) (upTo (ro_ToPosition (jb_options j)) (logOf (pw_store w))) in
  (length rest < fuel)%nat →
  ∃ w' pr', rebuildLoop c r j fuel envs pr w = (w', Ok pr') ∧ goneOn (pw_store w) (pw_store w') ∧
    pw_app w' = replay step handled (plain <$> rest) (pw_app w).
Proof.
  intros Hproc. revert envs pr w. induction fuel as [|fuel IH]; intros envs pr w Henv Hr rest Hlen; [lia|].
  cbn [rebuildLoop]. destruct (Henv 0%nat) as (_ & _ & Hd). rewrite Hd.
  destruct (rebuildTurn_replays c plain r j step handled (envs 0%nat) pr w Hproc (Henv 0%nat) Hr)
    as (n & w1 & next & pr1 & -> & E1 & Hn & E2 & Hnext). fold rest in E2, Hnext.
  assert (∀ r0, replay step handled (plain <$> rest) r0 =
    replay step handled (plain <$> drop n rest) (replay step handled (plain <$> take n rest) r0)) as Hsplit.
  { intros r0. unfold replay. by rewrite <- foldl_app, <- filter_app, <- fmap_app, take_drop. }
  destruct next as [q|].
  - destruct Hnext as [Hne Hrest]. rewrite <- (goneOn_log _ _ E1) in Hrest.
    destruct (IH (λ m, envs (S m)) q w1) as (w' & pr' & -> & F1 & F2); [intros m; apply Henv|by eapply readable_goneOn| |].
    { rewrite Hrest, length_drop. destruct rest; [done|]. cbn in *. lia. }
    exists w', pr'. split; [done|]. split; [by eapply goneOn_trans|]. by rewrite F2, Hrest, E2, Hsplit.
  - exists w1, pr1. split; [done|]. split; [done|]. by rewrite Hsplit, Hnext, E2.
Qed.

(** ** A rebuild *)

(** What the options select. *)
Definition span (o : RebuildOptions) (log : list StoredEvent) : list StoredEvent :=
  after (ro_FromPosition o) (upTo (ro_ToPosition o) log).

Lemma length_span o log : (length (span o log) ≤ length log)%nat.
Proof.
  unfold span, after, upTo. etransitivity; [apply length_filter|]. destruct (0 <? _); [apply length_filter|done].
Qed.

Lemma rebuild_replays c plain r fuel start finish envs name process step handled o w :
  replays step handled process → (∀ n, undisturbed (envs n)) → readable c plain w →
  (length (logOf (pw_store w)) < fuel)%nat →
  ∃ w', rebuild c r fuel start finish envs name process o w = (w', Ok tt) ∧ goneOn (pw_store w) (pw_store w') ∧
    pw_app w' = replay step handled (plain <$> span o (logOf (pw_store w))) (pw_app w).
Proof.
  intros Hproc Henv Hr Hfuel. unfold rebuild.
  set (w1 := match (if ro_DeleteCheckpoint o then pw_checkpoints w else None) with Some _ => _ | None => w end).
  assert (pw_store w1 = pw_store w ∧ pw_app w1 = pw_app w) as [E1 E2].
  { unfold w1. destruct (ro_DeleteCheckpoint o); [|done]. by destruct (pw_checkpoints w). }
  clearbody w1. cbn zeta. set (j := mkJob _ _ _ _ _).
  destruct (rebuildLoop_replays c plain r j step handled fuel envs (mkProgress 0 (ro_FromPosition o)) w1)
    as (w2 & pr & -> & F1 & F2); [done|done|apply (readable_goneOn c plain w); [rewrite E1; apply goneOn_refl|done]| |].
  { rewrite E1. pose proof (length_span o (logOf (pw_store w))) as Hs. unfold span in Hs. cbn. lia. }
  rewrite E1, E2 in *. exists (if ro_ProgressCallback o then report j pr (time_Now finish 0) true w2 else w2).
  split; [done|]. by destruct (ro_ProgressCallback o).
Qed.

(** The read model a rebuild starts from. *)
Definition clears (clear : option (method R unit)) (r0 : R) : Prop :=
  ∃ m, clear = Some m ∧ ∀ env r, m env tt r = (r0, Returned None).
End Replay.
