(* ===== verification/ProjectionTheorems.v ===== *)
(** * Projections: properties

    What an async projection is given, under every interleaving of its worker
    with the other writers of the log, the operator and crashes. *)

From S2P Require Import Prelude.
From S2P Require Import Types.
From S2P Require Import Strconv.
From S2P Require Import Json.
From S2P Require Import Common.
From S2P Require Import Crypto.
From S2P Require Import LocalProvider.
From S2P Require Import FieldEncryption.
From S2P Require Import FieldTheorems.
From S2P Require Import LogInvariant.
From S2P Require Import MemoryAdapter.
From S2P Require Import MemoryTheorems.
From S2P Require Import CheckpointStore.
From S2P Require Import Projection.
From S2P Require Import EventLog.
From S2P Require Import EventStore.
From S2P Require Import StoreTheorems.
From S2P Require Import ProjectionWorker.
From S2P Require Import Rebuilder.
From S2P Require Import ProjectionEngine.
From S2P Require Import ProjectionCoverage.
From S2P Require Import ProjectionInvariant.
From S2P Require Import ProjectionRegistry.
From S2P Require Import ProjectionReplay.

Section Machine.
Context {A P V Ser X K R : Type}.
Context `{AEAD} `{EventLogOps A} `{!EventLogLaws A} `{ProviderOps P} `{SerializerOps V Ser} `{SubjectIndexWriter X} `{MapOrder}.
Context `{CheckpointOps K} `{!CheckpointLaws K} `{FloatConversion}.
Abbreviation world := (World (Store A P Ser X) K R).
Abbreviation sys := (world * asyncProjectionWorker R)%type.
Implicit Types w : world.
Implicit Types k : asyncProjectionWorker R.
Context (c : EventStore) (projection : AsyncProjection R).

(** Other goroutines and processes: they append to the log and change the
    application's state, but leave the projection's checkpoint alone. *)
Definition interferes w w' : Prop :=
  el_wf (st_adapter (pw_store w')) ∧ grows (logOf (pw_store w)) (logOf (pw_store w')) ∧ pw_calls w' = pw_calls w ∧
  ∀ ck', pw_checkpoints w' = Some ck' → ∃ ck, pw_checkpoints w = Some ck ∧
    ck_view ck' !! ap_Name projection = ck_view ck !! ap_Name projection.

(** A full rebuild: from the beginning to the end. *)
Definition full (opts : list RebuildOptions) : Prop :=
  let o := match opts with o :: _ => o | [] => DefaultRebuildOptions end in ro_FromPosition o = 0 ∧ ro_ToPosition o = 0.

Inductive action : supervisor * sys → supervisor * sys → Prop :=
| act_turn env sig pc s : action (pc, s) (turn c env sig pc s)
| act_launch resumeFirst s : action (Gone, s) (Launching (mkSupervision resumeFirst 0), s)
| act_pause pc s : action (pc, s) (pc, pauseWorker s)
| act_resume pc s : action (pc, s) (pc, resumeWorker s)
| act_rebuild pc s s' call opts :
    full opts → (∀ n, others_ok (re_others (rc_turns call n))) →
    rebuildWorker c call opts s = (s', Ok tt) → action (pc, s) (pc, s')
| act_others pc w k w' : interferes w w' → action (pc, (w, k)) (pc, (w', k))
(* The process dies, wherever it was, and is started again. *)
| act_crash pc w k w' options resumeFirst :
    pw_store w' = pw_store w → pw_checkpoints w' = pw_checkpoints w → continues (pw_calls w) (pw_calls w') →
    action (pc, (w, k)) (Launching (mkSupervision resumeFirst 0), (w', newWorker projection options)).

(** The projection is new: it has no checkpoint. *)
Definition fresh (x : supervisor * sys) : Prop :=
  ∃ w options, x = (Gone, (w, newWorker projection options)) ∧ el_wf (st_adapter (pw_store w)) ∧
    ∀ ck, pw_checkpoints w = Some ck → ck_view ck !! ap_Name projection = None.

Definition machine_inv (x : supervisor * sys) : Prop :=
  aw_projection x.2.2 = projection ∧ worker_inv x.2.1 x.2.2.

Lemma fresh_inv x : fresh x → machine_inv x.
Proof.
  intros (w & options & -> & Hwf & Hck). split; [done|]. cbn. pose proof (log_ok_wf _ Hwf) as Hok.
  split; [done|by apply below_zero| |done]. intros ck E. unfold aw_Name. cbn. rewrite (Hck ck E). by apply below_zero.
Qed.

Lemma keeps_machine pc pc' s s' : keeps s s' → machine_inv (pc, s) → machine_inv (pc', s').
Proof. intros Hk [E Hi]. destruct (Hk Hi) as [E' Hi']. split; [cbn; by rewrite E'|done]. Qed.

Lemma action_inv x y : action x y → machine_inv x → machine_inv y.
Proof.
  destruct 1 as [env sig pc s|b s|pc s|pc s|pc s s' call opts [Hf Ht] Hoth Hr|pc w k w' Hio|pc w k w' options b Es Ec Hcont].
  - destruct (turn c env sig pc s) as [pc' s'] eqn:E. apply keeps_machine.
    pose proof (turn_keeps c env sig pc s) as Hk. by rewrite E in Hk.
  - by apply keeps_machine.
  - apply keeps_machine, pauseWorker_keeps.
  - apply keeps_machine, resumeWorker_keeps.
  - apply keeps_machine. by eapply rebuildWorker_keeps.
  - destruct Hio as (Hwf & Hg & Hc & Hck). intros [E Hi]. split; [done|]. cbn in *.
    eapply worker_inv_frame; [exact Hi|done|done|by rewrite Hc|done..|].
    intros ck' Eck. unfold aw_Name. rewrite E. by apply Hck.
  - intros [E Hi]. split; [done|]. cbn in *.
    assert (worker_inv w' k) as [Hwf Hp Hck _].
    { eapply worker_inv_frame; [exact Hi|rewrite Es; by destruct Hi|rewrite Es; apply grows_refl|done..|].
      intros ck'. rewrite Ec. by exists ck'. }
    unfold upto, aw_Name in *. rewrite E in Hp, Hck. split; [done| |done|done].
    cbn. unfold upto. by apply below_zero, log_ok_wf.
Qed.

(** C17: an async projection never skips an event: at any moment, however often
    its worker failed, retried, was paused, faulted, restarted, was successfully
    rebuilt from the whole log ([act_rebuild]: a rebuild of a partial range moves
    the checkpoint past what it did not read) or died between two writes, every
    event of the log that the projection handles, up to the position the worker
    is at and up to the checkpoint it would resume from, was given to the
    projection and taken since the read model was last cleared, or belongs to a
    batch that the poison handler agreed to skip. *)
Theorem projection_never_skips x pc w k e :
  fresh x → rtc action x (pc, (w, k)) →
  e ∈ logOf (pw_store w) → handles (ap_HandledEvents projection) e →
  se_GlobalPosition e ≤ aw_lastPosition k ∨
  (∃ ck, pw_checkpoints w = Some ck ∧ se_GlobalPosition e ≤ default 0 (ck_view ck !! ap_Name projection)) →
  covered (pw_calls w) (se_GlobalPosition e).
Proof.
  intros Hf Hr. assert (machine_inv (pc, (w, k))) as [E [Hwf [_ Hp] Hck _]].
  { apply fresh_inv in Hf. revert Hf. induction Hr as [|x y z Hxy _ IH]; [done|]. eauto using action_inv. }
  unfold upto, aw_Name in *. cbn [fst snd] in *. rewrite E in Hp, Hck. intros He Hh [Hle|(ck & Eck & Hle)]; [by apply Hp|].
  destruct (Hck ck Eck) as [_ Hb]. by apply Hb.
Qed.
(** C19: the engine's registries are always well formed: a name maps to the
    worker that carries it, a worker is stopped exactly when it has lost its
    name, no worker ever has two goroutines and its guard says whether it has
    one, the inline projections have distinct names, and no goroutine runs in
    an engine that is neither running nor stopping. *)
Theorem engine_registries_wf w e : rtc (engine_step c) (NewProjectionEngine w) e → engine_wf e.
Proof.
  intros Hr. pose proof (NewProjectionEngine_wf w) as He. revert He.
  induction Hr as [|x y z Hxy _ IH]; [done|]. eauto using engine_step_wf.
Qed.

(** ** Rebuilding *)

(** C18: rebuilding a projection computes a replay: when its methods do not fail
    and a batch means its events in order, every event of the log can be
    decrypted, and during the rebuild nobody else writes and the context stays
    alive, then the loop ends after at most as many turns as the log has events,
    and the read model is, whatever it was before and however large the pages
    are, the fold from the cleared state of the events of the range that the
    projection handles, decrypted; of the store only the provider went on. *)
Theorem rebuild_replays_log `{!ProviderStable P} plain r fuel start finish envs opts step r0 w :
  let o := match opts with o :: _ => o | [] => DefaultRebuildOptions end in
  applies step (ap_Apply projection) → appliesBatch step (ap_ApplyBatch projection) →
  clears (ap_Clear projection) r0 → ro_ClearReadModel o = true →
  (∀ n, undisturbed (envs n)) → readable c plain w → (length (logOf (pw_store w)) < fuel)%nat →
  ∃ w', RebuildAsync c r fuel start finish envs projection opts w = (w', Ok tt) ∧ goneOn (pw_store w) (pw_store w') ∧
    pw_app w' = replay step (ap_HandledEvents projection) (plain <$> span o (logOf (pw_store w))) r0.
Proof.
  intros o Ha Hb (m & Hclear & Hm) Ho Henv Hr Hfuel. unfold RebuildAsync, clearReadModel. fold o.
  rewrite Ho, Hclear, Hm. cbn [negb].
  apply (rebuild_replays c plain r fuel start finish envs _ _ step _ o (observe (set_app w r0) Cleared)); [|done| |done].
  - by apply rebuildAsyncBatch_replays.
  - by destruct Hr.
Qed.

(** The same of an inline projection. *)
Theorem rebuild_inline_replays_log `{!ProviderStable P} plain (inline : InlineProjection R) clear r fuel start finish envs opts step r0 w :
  let o := match opts with o :: _ => o | [] => DefaultRebuildOptions end in
  applies step (ip_Apply inline) → clears clear r0 → ro_ClearReadModel o = true →
  (∀ n, undisturbed (envs n)) → readable c plain w → (length (logOf (pw_store w)) < fuel)%nat →
  ∃ w', RebuildInline c r fuel start finish envs inline clear opts w = (w', Ok tt) ∧ goneOn (pw_store w) (pw_store w') ∧
    pw_app w' = replay step (ip_HandledEvents inline) (plain <$> span o (logOf (pw_store w))) r0.
Proof.
  intros o Ha (m & Hclear & Hm) Ho Henv Hr Hfuel. unfold RebuildInline, clearReadModel. fold o.
  rewrite Ho, Hclear, Hm. cbn [negb].
  apply (rebuild_replays c plain r fuel start finish envs _ _ step _ o (observe (set_app w r0) Cleared)); [|done| |done].
  - by apply processInlineBatch_replays.
  - by destruct Hr.
Qed.
End Machine.

(** ** A concrete projection

    Over the in-memory adapter and checkpoint store: it keeps the positions it
    took and refuses one type of event, which the poison handler skips. *)

#[local] Existing Instances toyAEAD toyAEAD_laws listOrder sampleSerializer sampleLog sampleLog_laws sampleIndex.

Definition plainConfig : EventStore := mkEventStore None 10000 None false false false false false None.

Definition sampleRecord (t : string) : EventRecord := mkEventRecord t (stringToBytes "{}") emptyMetadata.

Definition sampleEvents : MemoryAdapter :=
  (el_Append sampleEnv "Order-1" [sampleRecord "Placed"; sampleRecord "Bad"; sampleRecord "Paid"; sampleRecord "Shipped"] 0 NewAdapter).1.

Definition sampleProjected : AsyncProjection (list Z) :=
  NewAsyncProjectionBase "orders" ["Placed"; "Bad"; "Shipped"] (λ _ e seen,
    if bool_decide (se_Type e = "Bad") then (seen, Returned (Some (External "refused")))
    else (seen ++ [se_GlobalPosition e], Returned None)).

Definition sampleOptions : AsyncOptions (list Z) :=
  mkAsyncOptions 2 second millisecond (Some NoRetry) 0 None (Some (λ _ _ _ seen, (seen, None))) None false.

Abbreviation sampleWorld := (World (Store MemoryAdapter Provider (list string) (list (string * list string))) CheckpointStore (list Z)).
Abbreviation sampleSystem := (supervisor * (sampleWorld * asyncProjectionWorker (list Z)))%type.

Definition sampleW (a : MemoryAdapter) : sampleWorld :=
  mkWorld (mkStore a sampleProvider [] [] None ∅) (Some NewCheckpointStore) [] [].

Definition sampleTurnEnv : TurnEnv :=
  mkTurnEnv (λ _, sampleEnv) (mkBatchEnv sampleEnv (λ _, 5) (λ _, sampleEnv) sampleEnv) sampleEnv.

Definition sampleStart (w : sampleWorld) : sampleSystem := (Gone, (w, newWorker sampleProjected sampleOptions)).
Definition sampleLaunch (x : sampleSystem) : sampleSystem := (Launching (mkSupervision false 0), x.2).
Definition sampleTurn (x : sampleSystem) : sampleSystem := turn plainConfig sampleTurnEnv SigTimer x.1 x.2.
Definition sampleCrash (x : sampleSystem) : sampleSystem :=
  (Launching (mkSupervision false 0), (x.2.1, newWorker sampleProjected sampleOptions)).

(** The first batch ends in the skip; the process dies and is started again. *)
Definition sampleSkipped : sampleSystem := sampleTurn (sampleTurn (sampleLaunch (sampleStart (sampleW sampleEvents)))).
Definition sampleDone : sampleSystem := sampleTurn (sampleTurn (sampleCrash sampleSkipped)).

Lemma sampleEvents_wf : el_wf sampleEvents.
Proof.
  eapply (el_append_wf sampleEnv "Order-1" _ 0 NewAdapter); [exact NewAdapter_wf| |apply surjective_pairing].
  vm_compute. discriminate.
Qed.

Lemma sampleStart_fresh a : el_wf a → fresh sampleProjected (sampleStart (sampleW a)).
Proof. intros Hwf. exists (sampleW a), sampleOptions. split; [done|]. split; [done|]. by intros ck [= <-]. Qed.

Lemma sampleTurn_action x : action plainConfig sampleProjected x (sampleTurn x).
Proof. destruct x as [pc s]. apply act_turn. Qed.

Lemma sampleCrash_action x : action plainConfig sampleProjected x (sampleCrash x).
Proof. destruct x as [pc [w k]]. by apply act_crash. Qed.

Lemma sampleDone_reached : rtc (action plainConfig sampleProjected) (sampleStart (sampleW sampleEvents)) sampleDone.
Proof.
  eapply rtc_l; [apply act_launch|]. do 2 (eapply rtc_l; [apply sampleTurn_action|]).
  eapply rtc_l; [apply sampleCrash_action|]. do 2 (eapply rtc_l; [apply sampleTurn_action|]). apply rtc_refl.
Qed.

Lemma sampleDone_state :
  pw_app sampleDone.2.1 = [1; 4] ∧ aw_lastPosition sampleDone.2.2 = 4 ∧
  se_GlobalPosition <$> logOf (pw_store sampleDone.2.1) = [1; 2; 3; 4].
Proof. vm_compute. repeat split. Qed.

Lemma projection_never_skips_witness : pw_app sampleDone.2.1 = [1; 4] ∧ covered (pw_calls sampleDone.2.1) 2.
Proof.
  destruct sampleDone_state as (Happ & Hpos & Hlog). split; [exact Happ|].
  assert (∃ e, logOf (pw_store sampleDone.2.1) !! 1%nat = Some e ∧ se_GlobalPosition e = 2 ∧ se_Type e = "Bad") as (e & He & Hp & Ht).
  { eexists. vm_compute. repeat split. }
  pose proof (projection_never_skips plainConfig sampleProjected (sampleStart (sampleW sampleEvents)) sampleDone.1
    sampleDone.2.1 sampleDone.2.2 e (sampleStart_fresh _ sampleEvents_wf)) as H.
  rewrite <- Hp. apply H.
  - pose proof sampleDone_reached as Hr. by destruct sampleDone as [pc [w k]].
  - by eapply list_elem_of_lookup_2.
  - unfold handles. by rewrite Ht.
  - left. by rewrite Hpos, Hp.
Defined.

(** ** A concrete engine *)

Abbreviation sampleEngine := (ProjectionEngine (A := MemoryAdapter) (P := Provider) (Ser := list string)
  (X := list (string * list string)) (K := CheckpointStore) (R := list Z)).

Definition sampleThread (e : sampleEngine) : sampleEngine := runThread plainConfig sampleTurnEnv false SigTimer 0 e.

(** Registered, started, launched, restarted while it runs, and unregistered. *)
Definition sampleEngineRun : sampleEngine :=
  (Unregister "orders" (Restart "orders" (sampleThread (sampleThread
    (Start (RegisterAsync (Some sampleProjected) [sampleOptions] (NewProjectionEngine (sampleW sampleEvents))).1).1))).1).1.

Lemma sampleEngineRun_reached : rtc (engine_step plainConfig) (NewProjectionEngine (sampleW sampleEvents)) sampleEngineRun.
Proof.
  eapply rtc_l; [apply (do_RegisterAsync _ (Some sampleProjected) [sampleOptions])|]. eapply rtc_l; [apply do_Start|].
  do 2 (eapply rtc_l; [apply (do_runThread _ sampleTurnEnv false SigTimer 0)|]).
  eapply rtc_l; [apply (do_Restart _ "orders")|]. eapply rtc_l; [apply (do_Unregister _ "orders")|]. apply rtc_refl.
Qed.

Lemma engine_registries_wf_witness :
  length (en_threads sampleEngineRun) = 1%nat ∧ NoDup (en_threads sampleEngineRun).*1 ∧
  aw_stopped <$> en_workers sampleEngineRun = [true].
Proof.
  split; [vm_compute; reflexivity|]. split; [|vm_compute; reflexivity].
  destruct (engine_registries_wf plainConfig (sampleW sampleEvents) sampleEngineRun sampleEngineRun_reached) as [_ [Hn _] _ _ _ _].
  exact Hn.
Defined.

(** ** A rebuild that fails *)

(** A projection that is not available when the clock says 99, and whose read
    model can be cleared. *)
Definition flakyProjected : AsyncProjection (list Z) :=
  mkAsyncProjection "orders" [] (λ env e seen,
      if bool_decide (time_Now env 0 = 99) then (seen, Returned (Some (External "unavailable")))
      else (seen ++ [se_GlobalPosition e], Returned None))
    AsyncProjectionBase_ApplyBatch (Some (λ _ _ _, ([], Returned None))).

Definition unavailable : Env := mkEnv (λ _, 99) (uuid_New sampleEnv) None (λ _, false) ContextCanceled.

Definition failedCall : RebuildCall (A := MemoryAdapter) :=
  mkRebuildCall 10 sampleEnv sampleEnv (λ _, mkRebuildEnv id sampleEnv (λ _, 5) (λ _, unavailable) sampleEnv false).

Lemma not_covered calls pos :
  forallb (λ c, match c with Applied es => negb (bool_decide (pos ∈ positions es)) | Skipped _ => false | _ => true end)
    (afterClear calls) = true → ¬ covered calls pos.
Proof.
  rewrite forallb_forall. unfold covered. intros Hall [(es & Hin & Hp)|(es & a & _ & _ & _ & Hin)];
    apply list_elem_of_In, Hall in Hin; [|done]. by rewrite bool_decide_true in Hin.
Qed.

(** The whole log, then a rebuild that fails on its first batch, then another
    event. *)
Definition flakyOptions : AsyncOptions (list Z) := mkAsyncOptions 10 second millisecond (Some NoRetry) 0 None None None false.

Definition flakyTurn (x : sampleSystem) : sampleSystem := turn plainConfig sampleTurnEnv SigTimer x.1 x.2.

Definition flakyBefore : sampleSystem :=
  flakyTurn (flakyTurn (sampleLaunch (Gone, (sampleW sampleEvents, newWorker flakyProjected flakyOptions)))).

Definition flakyRebuilt : (sampleWorld * asyncProjectionWorker (list Z)) * res unit :=
  rebuildWorker plainConfig failedCall [] flakyBefore.2.

Definition moreEvents (a : MemoryAdapter) : MemoryAdapter := (el_Append sampleEnv "Order-2" [sampleRecord "Placed"] 0 a).1.

Definition flakyMore : sampleSystem :=
  let '(w, k) := flakyRebuilt.1 in
  (flakyBefore.1, (set_store w (set_adapter (pw_store w) (moreEvents (st_adapter (pw_store w)))), k)).

Definition flakyAfter : sampleSystem := flakyTurn flakyMore.

Lemma flakyTurn_action x : action plainConfig flakyProjected x (flakyTurn x).
Proof. destruct x as [pc s]. apply act_turn. Qed.

Lemma flakyBefore_reached :
  fresh flakyProjected (Gone, (sampleW sampleEvents, newWorker flakyProjected flakyOptions)) ∧
  rtc (action plainConfig flakyProjected) (Gone, (sampleW sampleEvents, newWorker flakyProjected flakyOptions)) flakyBefore.
Proof.
  split.
  - exists (sampleW sampleEvents), flakyOptions. split; [done|]. split; [exact sampleEvents_wf|]. by intros ck [= <-].
  - eapply rtc_l; [apply act_launch|]. do 2 (eapply rtc_l; [apply flakyTurn_action|]). apply rtc_refl.
Qed.

Lemma flakyAfter_reached : rtc (action plainConfig flakyProjected) (flakyBefore.1, flakyRebuilt.1) flakyAfter.
Proof.
  eapply rtc_l; [|eapply rtc_l; [apply flakyTurn_action|apply rtc_refl]].
  assert (moreEvents (st_adapter (pw_store flakyRebuilt.1.1)) = moreEvents sampleEvents) as Em by (vm_compute; reflexivity).
  assert (∃ new, logOf (pw_store flakyMore.2.1) = logOf (pw_store flakyRebuilt.1.1) ++ new) as [new Hnew].
  { eexists. vm_compute. reflexivity. }
  unfold flakyMore in *. destruct flakyRebuilt as [[w k] r]. apply act_others. cbn [fst snd] in *. split; [|split; [|split]].
  - change (el_wf (moreEvents (st_adapter (pw_store w)))). rewrite Em.
    eapply (el_append_wf sampleEnv "Order-2" _ 0 sampleEvents); [exact sampleEvents_wf| |apply surjective_pairing].
    vm_compute. discriminate.
  - by exists (logOf (pw_store w)), new.
  - done.
  - intros ck E. by exists ck.
Qed.

(** A rebuild that fails loses events: there is a run of a worker, correct
    up to a rebuild that returns an error, after which the worker is running
    with no error, its checkpoint is at the end of the log, and an event that
    the projection handles was never given to it since its read model was
    cleared. *)
Theorem failed_rebuild_skips_events :
  ∃ (x : sampleSystem) pc s call s1 err pc2 (w2 : sampleWorld) k2 ck e,
    fresh flakyProjected x ∧ rtc (action plainConfig flakyProjected) x (pc, s) ∧
    rebuildWorker plainConfig call [] s = (s1, Err err) ∧
    rtc (action plainConfig flakyProjected) (pc, s1) (pc2, (w2, k2)) ∧
    aw_state k2 = ProjectionStateRunning ∧ aw_lastError k2 = None ∧ pw_checkpoints w2 = Some ck ∧
    default 0 (ck_view ck !! "orders") = headOf (logOf (pw_store w2)) ∧
    e ∈ logOf (pw_store w2) ∧ handles (ap_HandledEvents flakyProjected) e ∧
    ¬ covered (pw_calls w2) (se_GlobalPosition e).
Proof.
  destruct flakyBefore_reached as [Hf Hr]. pose proof flakyAfter_reached as Hr2.
  assert (∃ ck e, aw_state flakyAfter.2.2 = ProjectionStateRunning ∧ aw_lastError flakyAfter.2.2 = None ∧
    pw_checkpoints flakyAfter.2.1 = Some ck ∧ default 0 (ck_view ck !! "orders") = headOf (logOf (pw_store flakyAfter.2.1)) ∧
    logOf (pw_store flakyAfter.2.1) !! 0%nat = Some e ∧ se_GlobalPosition e = 1) as (ck & e & H1 & H2 & H3 & H4 & He & Ep).
  { eexists _, _. vm_compute. repeat split. }
  assert (¬ covered (pw_calls flakyAfter.2.1) 1) as Hn by (apply not_covered; vm_compute; reflexivity).
  assert (∃ err, flakyRebuilt.2 = Err err) as [err Herr] by (eexists; vm_compute; reflexivity).
  destruct flakyAfter as [pc2 [w2 k2]]. destruct flakyRebuilt as [s1 r] eqn:Er. destruct flakyBefore as [pc s] eqn:Eb.
  unfold flakyRebuilt in Er. rewrite Eb in Er. cbn [fst snd] in *. subst r.
  exists (Gone, (sampleW sampleEvents, newWorker flakyProjected flakyOptions)), pc, s, failedCall, s1, err, pc2, w2, k2, ck, e.
  repeat (split; [done|]). split; [by eapply list_elem_of_lookup_2|]. split; [done|]. by rewrite Ep.
Qed.

(** ** A concrete rebuild

    Of the encrypted store with two streams: the read model keeps what the
    projection saw of each event. *)

Abbreviation sealedWorld :=
  (World (Store MemoryAdapter Provider (list string) (list (string * list string))) CheckpointStore (list (Z * string))).

Definition keepEvent (seen : list (Z * string)) (e : StoredEvent) : list (Z * string) :=
  seen ++ [(se_GlobalPosition e, bytesToString (se_Data e))].

Definition steadyProjected : AsyncProjection (list (Z * string)) :=
  mkAsyncProjection "users" ["UserRegistered"] (λ _ e seen, (keepEvent seen e, Returned None))
    (λ _ es seen, (foldl keepEvent seen es, Returned None)) (Some (λ _ _ _, ([], Returned None))).

Definition sealedWorldOf (seen : list (Z * string)) : sealedWorld := mkWorld sampleRun.1 (Some NewCheckpointStore) seen [].

(** Pages of two events, up to position 3, over a read model with garbage. *)
Definition steadyRun :=
  RebuildAsync sampleConfig (NewProjectionRebuilder [WithRebuilderBatchSize 2]) 5 sampleEnv sampleEnv
    (λ _, mkRebuildEnv id sampleEnv (λ _, 5) (λ _, sampleEnv) sampleEnv false) steadyProjected
    [mkRebuildOptions true true false 0 0 3] (sealedWorldOf [(7, "garbage")]).

Definition samplePlain (e : StoredEvent) : StoredEvent :=
  match (DecryptStoredEvent sampleConfig 5 e (st_provider sampleRun.1)).2 with Ok d => d | Err _ => e end.

Lemma sampleRun_readable : readable sampleConfig samplePlain (sealedWorldOf [(7, "garbage")]).
Proof.
  destruct (runAppends_represents sampleConfig (Some sampleFieldOptions) sampleCalls sampleStore
    sampleRun.1 sampleRun.2 (λ _, []) eq_refl eq_refl sampleCalls_ok sampleStore_empty
    ltac:(vm_compute; discriminate) (surjective_pairing _)) as ((Hwf & _) & Hc & _).
  split; [exact Hwf|exact Hc|]. apply Forall_lookup. intros i e Hi.
  assert ((i < 4)%nat) as Hlt by (apply lookup_lt_Some in Hi; exact Hi).
  destruct i as [|[|[|[|i]]]]; [..|lia]; vm_compute in Hi; injection Hi as <-;
    (eapply (opensTo_unwraps sampleConfig samplePlain 5); vm_compute; reflexivity).
Qed.

Lemma rebuild_replays_log_witness :
  ∃ w', steadyRun = (w', Ok tt) ∧
    pw_app w' = (λ '(position, email), (position, print (JObject [("email", JString email)]))) <$>
      [(1, "a@b.c"); (2, "d@e.f"); (3, "i@j.k")].
Proof.
  destruct (rebuild_replays_log sampleConfig steadyProjected samplePlain (NewProjectionRebuilder [WithRebuilderBatchSize 2]) 5
    sampleEnv sampleEnv (λ _, mkRebuildEnv id sampleEnv (λ _, 5) (λ _, sampleEnv) sampleEnv false)
    [mkRebuildOptions true true false 0 0 3] keepEvent [] (sealedWorldOf [(7, "garbage")]))
    as (w' & Hr & _ & Happ).
  - intros env e seen. reflexivity.
  - intros env es seen. left. reflexivity.
  - eexists. split; [reflexivity|]. intros env seen. reflexivity.
  - reflexivity.
  - intros n. split; [reflexivity|]. split; reflexivity.
  - exact sampleRun_readable.
  - vm_compute. lia.
  - exists w'. split; [exact Hr|]. rewrite Happ. vm_compute. reflexivity.
Defined.
