(* ===== verification/OutboxAppend.v ===== *)
(** * Atomic append with the outbox

    What [OutboxInterface.AppendWithOutbox] of [src/adapters/memory/memory.go]
    guarantees: the events and the outbox messages are written in one critical
    section, the messages into the store the caller configured, any one that
    meets [OutboxStoreLaws]. *)

From S2P Require Import Prelude.
From S2P Require Import Types.
From S2P Require Import Common.
From S2P Require Import MemoryAdapter.
From S2P Require Import LogInvariant.
From S2P Require Import MemorySubscription.
From S2P Require Import OutboxStore.
From S2P Require Import OutboxInterface.
From S2P Require Import MemoryTheorems.

(** The messages the outbox holds after an accepted append. *)
Definition outbox_after {S} `{OutboxStoreLaws S} (envS : Env) (msgs : list OutboxMessage)
    (before after : option S) : Prop :=
  match msgs with
  | [] => after = before
  | _ => ∃ o o', before = Some o ∧ after = Some o' ∧
      os_view o' = foldl (λ m x, <[om_ID x := x]> m) (os_view o) (scheduled envS (time_Now envS 0) 0 msgs)
  end.

(** An error leaves everything as it was; a success is the plain append and the
    scheduling. *)
Lemma AppendWithOutbox_spec {S} `{OutboxStoreLaws S} (env envS : Env) (recv : nat → nat → nat)
    (sid : string) (evs : list EventRecord) (exp : Z) (msgs : list OutboxMessage)
    (a : MemoryAdapter) (o : option S) :
  adapter_wf a → Z.of_nat (length (ma_globalEvents a) + length evs) ≤ MaxInt64 →
  let '((a', o'), r) := AppendWithOutbox env envS recv sid evs exp msgs (a, o) in
  match r with
  | Err _ => a' = a ∧ o' = o
  | Ok out => Append env recv sid evs exp a = (a', Ok out) ∧ outbox_after envS msgs o o'
  end ∧
  (ctx_Err env = None → ctx_Err envS = None → (msgs ≠ [] → o ≠ None) →
   r = (Append env recv sid evs exp a).2).
Proof.
  intros Hwf Hfits. unfold AppendWithOutbox.
  destruct (check_ctx env) as [[]|e] eqn:Hctx.
  2: { split; [done|]. intros Hc. unfold check_ctx in Hctx. by rewrite Hc in Hctx. }
  destruct ((0 <? Z.of_nat (length msgs)) && bool_decide (o = None)) eqn:Enil.
  { split; [done|]. intros _ _ Ho. zbool. destruct msgs; [done|]. by destruct (Ho ltac:(done)). }
  destruct (checkAppendLocked sid evs exp a) as [u|e] eqn:Hchk.
  2: { split; [done|]. intros _ _ _. unfold Append, guarded. rewrite Hctx.
       unfold appendLocked. by rewrite (guarded_Err _ _ _ e Hchk). }
  destruct (Append_factors env recv sid evs exp a u Hwf Hctx Hfits Hchk) as (a' & out & Happ & Hout).
  rewrite Happ. cbn [snd].
  destruct (appendLocked env sid evs exp a) as [a1 [stored|e]]; [|done].
  assert (∀ o' : option S, outbox_after envS msgs o o' →
    let '((a'0, o'0), r) :=
      match notifySubscribers recv (ma_subscribers a1) stored (ma_chans a1) [] with
      | Ok (chans, drops) =>
          (set_subs a1 (ma_closed a1) (ma_subscribers a1) chans (ma_nextChan a1), o', Ok (stored, drops))
      | Err e => (a1, o', Err e)
      end in
    match r with
    | Err _ => a'0 = a ∧ o'0 = o
    | Ok out0 => (a', Ok out) = (a'0, @Ok error _ out0) ∧ outbox_after envS msgs o o'0
    end ∧ (ctx_Err env = None → ctx_Err envS = None → (msgs ≠ [] → o ≠ None) → r = Ok out)) as Hend.
  { intros o' Ho'. destruct (notifySubscribers _ _ _ _ _) as [[chans drops]|e]; [|done].
    destruct Hout as [-> ->]. done. }
  destruct msgs as [|m msgs]; [by apply Hend|].
  change (0 <? Z.of_nat (length (m :: msgs))) with true in *. destruct o as [o|]; [|done].
  destruct (os_Schedule envS (m :: msgs) o) as [o' [ms'|e]] eqn:Es.
  - apply Hend. cbn [outbox_after]. exists o, o'. split; [done|]. split; [done|].
    by apply os_schedule_ok in Es as [-> ->].
  - apply os_schedule_err in Es as Es'. subst o'. split; [done|]. intros _ Hc _.
    destruct (os_schedule_live envS (m :: msgs) o Hc) as (s' & ms' & E). by rewrite E in Es.
Qed.

(** The append with outbox is all or nothing: an error leaves the event
    log, the subscriptions and the outbox as they were, and a success is the
    plain [Append] of the events together with the scheduling of every message;
    under a live context and with a store for the messages it succeeds exactly
    when the plain append does. *)
Theorem append_with_outbox_atomic {S} `{OutboxStoreLaws S} (env envS : Env) (recv : nat → nat → nat)
    (sid : string) (evs : list EventRecord) (exp : Z) (msgs : list OutboxMessage)
    (a : MemoryAdapter) (o : option S) :
  reachable a → Z.of_nat (length (ma_globalEvents a) + length evs) ≤ MaxInt64 →
  let '((a', o'), r) := AppendWithOutbox env envS recv sid evs exp msgs (a, o) in
  match r with
  | Err _ => a' = a ∧ o' = o
  | Ok out => Append env recv sid evs exp a = (a', Ok out) ∧ outbox_after envS msgs o o'
  end ∧
  (ctx_Err env = None → ctx_Err envS = None → (msgs ≠ [] → o ≠ None) →
   r = (Append env recv sid evs exp a).2).
Proof. intros Hr. by apply AppendWithOutbox_spec, reachable_wf. Qed.

(** ** Witness *)

Lemma append_with_outbox_atomic_witness :
  let '((a', o'), r) := @AppendWithOutbox OutboxStore (@memory_outbox_ops listOrder stableSlice sampleText)
    sampleEnv sampleEnv noRecv "Order-1" sampleBatch 2 [sampleMessage "m9" 10 3] (sampleAdapter, Some sampleOutbox) in
  is_ok r = true ∧ Append sampleEnv noRecv "Order-1" sampleBatch 2 sampleAdapter =
    (a', match r with Ok out => Ok out | Err e => Err e end).
Proof.
  pose proof (@append_with_outbox_atomic OutboxStore (@memory_outbox_ops listOrder stableSlice sampleText)
    sampleText (@memory_outbox_laws listOrder stableSlice sampleText) sampleEnv sampleEnv noRecv "Order-1"
    sampleBatch 2 [sampleMessage "m9" 10 3] sampleAdapter (Some sampleOutbox) sampleAdapter_reachable
    ltac:(by vm_compute)) as H.
  destruct (AppendWithOutbox _ _ _ _ _ _ _ _) as [[a' o'] r]. destruct H as [H1 H2].
  assert (r = (Append sampleEnv noRecv "Order-1" sampleBatch 2 sampleAdapter).2) as Hr
    by (apply H2; [reflexivity..|intros _; discriminate]).
  destruct r as [out|e]; [split; [reflexivity|exact (proj1 H1)]|]. vm_compute in Hr. discriminate Hr.
Defined.
