(* ===== verification/OutboxRouting.v ===== *)
(** * The event store with an outbox

    [EventStoreWithOutbox] of [src/outbox.go]: the routes, the messages an
    event becomes, and the wrapper's own append and save, which write the
    events and schedule their messages, in one step when the adapter can.  The
    outbox is any [OutboxStoreOps] and the adapter's [OutboxAppender] is
    optional.  Logging is left out. *)

From S2P Require Import Prelude.
From S2P Require Import Types.
From S2P Require Import Common.
From S2P Require Import Crypto.
From S2P Require Import Subject.
From S2P Require Import FieldEncryption.
From S2P Require Import EventLog.
From S2P Require Import Aggregate.
From S2P Require Import EventStore.
From S2P Require Import OutboxStore.
From S2P Require Import OutboxInterface.

(** ** Routes *)

(** The callbacks get a nil event, so they are functions of the stored event;
    [None] is a nil callback. *)
Record OutboxRoute := mkOutboxRoute {
  rt_EventTypes : list string;
  rt_Destination : string;
  rt_Transform : option (StoredEvent → res Bytes);
  rt_Filter : option (StoredEvent → bool);
}.

Definition matchesEvent (r : OutboxRoute) (eventType : string) : bool :=
  if bool_decide (length (rt_EventTypes r) = 0%nat) then true
  else existsb (λ et, bool_decide (et = eventType)) (rt_EventTypes r).

(** ** Configuration *)

Record EventStoreWithOutbox := mkEventStoreWithOutbox { eo_routes : list OutboxRoute; eo_maxAttempts : Z }.

Definition OutboxOption : Type := EventStoreWithOutbox → EventStoreWithOutbox.

Definition WithOutboxMaxAttempts (n : Z) : OutboxOption := λ es,
  if 0 <? n then mkEventStoreWithOutbox (eo_routes es) n else es.

Definition NewEventStoreWithOutbox (routes : list OutboxRoute) (opts : list OutboxOption) : EventStoreWithOutbox :=
  foldl (λ es opt, opt es) (mkEventStoreWithOutbox routes 5) opts.

(** ** Messages *)

(** [None] is nil: the route does not take the event.  [Transform] runs before
    [Filter], and its error drops the message. *)
Definition buildMessageForRoute (es : EventStoreWithOutbox) (route : OutboxRoute) (streamID eventType : string)
    (data : Bytes) (partial : StoredEvent) (now : Time) : option OutboxMessage :=
  if negb (matchesEvent route eventType) then None
  else
    match (match rt_Transform route with Some transform => transform partial | None => Ok data end) with
    | Err _ => None
    | Ok payload =>
        if match rt_Filter route with Some filter => negb (filter partial) | None => false end then None
        else
          Some (mkOutboxMessage "" streamID eventType (rt_Destination route) payload
            (Some {[ "stream-id" := streamID; "event-type" := eventType;
                     "correlation-id" := md_CorrelationID (se_Metadata partial);
                     "causation-id" := md_CausationID (se_Metadata partial) ]})
            OutboxPending 0 (eo_maxAttempts es) "" now None None now)
    end.

(** The two loops build the messages of one event, route after route. *)
Definition buildMessages (es : EventStoreWithOutbox) (now : Time) (finish : OutboxMessage → OutboxMessage)
    (streamID eventType : string) (data : Bytes) (partial : StoredEvent) (messages : list OutboxMessage)
    : list OutboxMessage :=
  foldl (λ messages route,
    match buildMessageForRoute es route streamID eventType data partial now with
    | Some msg => messages ++ [finish msg]
    | None => messages
    end) messages (eo_routes es).

Definition buildOutboxMessages (es : EventStoreWithOutbox) (now : Time) (storedEvents : list StoredEvent)
    : list OutboxMessage :=
  foldl (λ messages se,
    buildMessages es now (λ msg, set_Header msg "event-id" (se_ID se)) (se_StreamID se) (se_Type se) (se_Data se)
      se messages) [] storedEvents.

(** The event the callbacks see when the version and the position are not known
    yet. *)
Definition partialEvent (streamID : string) (rec : EventRecord) : StoredEvent :=
  mkStoredEvent "" streamID (er_Type rec) (er_Data rec) (er_Metadata rec) 0 0 0.

Definition buildOutboxMessagesFromRecords (es : EventStoreWithOutbox) (now : Time) (streamID : string)
    (records : list EventRecord) : list OutboxMessage :=
  foldl (λ messages rec,
    buildMessages es now id streamID (er_Type rec) (er_Data rec) (partialEvent streamID rec) messages)
    [] records.

(** ** The adapter's transactional append *)

(** [OutboxAppender], [None] when the adapter is not one; it is given the
    wrapper's own outbox. *)
Class OutboxAppenderOps (A O : Type) :=
  oa_AppendWithOutbox :
    option (Env → Env → string → list EventRecord → Z → list OutboxMessage → op (A * O) error (list StoredEvent)).

(** The environment of a call: that of the store, that of the outbox's
    [Schedule], and the clock that stamps the messages. *)
Record OutboxEnv := mkOutboxEnv { oe_store : StoreEnv; oe_schedule : Env; oe_now : Time }.

Section Wrapper.
Context {A P V Ser X O : Type}.
Context `{AEAD} `{EventLogOps A} `{ProviderOps P} `{SerializerOps V Ser} `{SubjectIndexWriter X} `{MapOrder}.
Context `{OutboxStoreOps O} `{!OutboxAppenderOps A O}.
Implicit Types s : Store A P Ser X.
Implicit Types c : EventStore.
Implicit Types es : EventStoreWithOutbox.

(** The fallback: the events are durable before the messages are scheduled. *)
Definition appendThenSchedule c (env : OutboxEnv) (streamID : string) (records : list EventRecord)
    (subjects : gmap string unit) (expectedVersion : Z) (msgs : list OutboxMessage)
    : op (Store A P Ser X * O) error unit := λ '(s, o),
  let env0 := se_env (oe_store env) in
  match el_Append env0 streamID records expectedVersion (st_adapter s) with
  | (a, Err err) => ((set_adapter s a, o), Err err)
  | (a, Ok _) =>
      let s := writeSubjectIndex c env0 streamID subjects (set_adapter s a) in
      if 0 <? Z.of_nat (length msgs) then
        match os_Schedule (oe_schedule env) msgs o with
        | (o, Err err) => ((s, o), Err (Wrapf "mink: events appended but outbox scheduling failed: %w" err))
        | (o, Ok _) => ((s, o), Ok tt)
        end
      else ((s, o), Ok tt)
  end.

(** The records are written and the messages scheduled, atomically when the
    adapter can and there are messages; otherwise one after the other. *)
Definition writeRecords es c (env : OutboxEnv) (streamID : string) (records : list EventRecord)
    (subjects : gmap string unit) (expectedVersion : Z) : op (Store A P Ser X * O) error unit := λ '(s, o),
  let msgs := buildOutboxMessagesFromRecords es (oe_now env) streamID records in
  let env0 := se_env (oe_store env) in
  match (if 0 <? Z.of_nat (length msgs) then oa_AppendWithOutbox else None) with
  | Some appendWithOutbox =>
      match appendWithOutbox env0 (oe_schedule env) streamID records expectedVersion msgs (st_adapter s, o) with
      | ((a, o), Err err) => ((set_adapter s a, o), Err err)
      | ((a, o), Ok _) => ((writeSubjectIndex c env0 streamID subjects (set_adapter s a), o), Ok tt)
      end
  | None => appendThenSchedule c env streamID records subjects expectedVersion msgs (s, o)
  end.

(** From the events to the log, the index and the outbox; the metadata is
    always a caller's ([prepareEventData]). *)
Definition writeEventsWithOutbox es c (env : OutboxEnv) (fmt : batchFormats) (streamID : string) (events : list V)
    (metadata : Metadata) (expectedVersion : Z) : op (Store A P Ser X * O) error unit := λ '(s, o),
  match prepareRecords c (oe_store env) fmt (st_upcasters s) (st_serializer s) streamID metadata false 0 events [] ∅
          (st_provider s) with
  | (p, Err err) => ((set_provider s p, o), Err err)
  | (p, Ok (records, subjects)) => writeRecords es c env streamID records subjects expectedVersion (set_provider s p, o)
  end.

Definition Append es c (env : OutboxEnv) (streamID : string) (events : list V) (config : appendConfig)
    : op (Store A P Ser X * O) error unit := λ '(s, o),
  if bool_decide (streamID = "") then ((s, o), Err ErrEmptyStreamID)
  else if bool_decide (length events = 0%nat) then ((s, o), Err ErrNoEvents)
  else writeEventsWithOutbox es c env appendFormats streamID events (ac_metadata config) (ac_expectedVersion config)
         (s, o).

Definition SaveAggregate {G} `{Aggregate V G} es c (env : OutboxEnv)
    : op (Store A P Ser X * O * G) error unit := λ '(s, o, g),
  let events := agg_UncommittedEvents g in
  if bool_decide (length events = 0%nat) then ((s, o, g), Ok tt)
  else
    let expectedVersion := agg_Version g in
    match writeEventsWithOutbox es c env aggregateFormats (aggregateStream g) events emptyMetadata expectedVersion
            (s, o) with
    | ((s, o), Err err) => ((s, o, g), Err err)
    | ((s, o), Ok _) =>
        let g := match agg_SetVersion with
                 | Some f => f (i64 (expectedVersion + Z.of_nat (length events))) g
                 | None => g
                 end in
        ((s, o, agg_ClearUncommittedEvents g), Ok tt)
    end.
End Wrapper.
