(* ===== verification/OutboxRoutingTheorems.v ===== *)
(** * The event store with an outbox: properties

    The events that [EventStoreWithOutbox] writes are those [EventStore] would
    write, and the outbox gets one message for each event and each route that
    takes it, with the bytes the log holds. *)

From S2P Require Import Prelude.
From S2P Require Import Types.
From S2P Require Import Common.
From S2P Require Import Utf8.
From S2P Require Import Crypto.
From S2P Require Import LocalProvider.
From S2P Require Import Subject.
From S2P Require Import FieldEncryption.
From S2P Require Import FieldTheorems.
From S2P Require Import MemoryAdapter.
From S2P Require Import LogInvariant.
From S2P Require Import MemorySubscription.
From S2P Require Import MemoryTheorems.
From S2P Require Import Versioning.
From S2P Require Import EventLog.
From S2P Require Import Aggregate.
From S2P Require Import EventStore.
From S2P Require Import StoreRefinement.
From S2P Require Import StoreTheorems.
From S2P Require Import OutboxStore.
From S2P Require Import OutboxInterface.
From S2P Require Import OutboxAppend.
From S2P Require Import OutboxRouting.

(** ** The messages of a batch *)

(** The messages of one event, in the order of the routes. *)
Definition routed (es : EventStoreWithOutbox) (now : Time) (sid : string) (rec : EventRecord) : list OutboxMessage :=
  omap (λ rt, buildMessageForRoute es rt sid (er_Type rec) (er_Data rec) (partialEvent sid rec) now) (eo_routes es).

Lemma buildMessages_spec es now finish sid t d partial msgs :
  buildMessages es now finish sid t d partial msgs =
  msgs ++ (finish <$> omap (λ rt, buildMessageForRoute es rt sid t d partial now) (eo_routes es)).
Proof.
  unfold buildMessages. revert msgs. induction (eo_routes es) as [|rt rts IH]; intros msgs; cbn.
  { by rewrite app_nil_r. }
  rewrite IH. destruct (buildMessageForRoute _ _ _ _ _ _ _); [|done]. by rewrite <- app_assoc.
Qed.

Lemma buildOutboxMessagesFromRecords_spec es now sid recs :
  buildOutboxMessagesFromRecords es now sid recs = recs ≫= routed es now sid.
Proof.
  unfold buildOutboxMessagesFromRecords.
  enough (∀ acc, foldl (λ messages rec, buildMessages es now id sid (er_Type rec) (er_Data rec)
    (partialEvent sid rec) messages) acc recs = acc ++ (recs ≫= routed es now sid)) as H by apply H.
  induction recs as [|rec recs IH]; intros acc; cbn [foldl]; [by rewrite app_nil_r|].
  rewrite IH, buildMessages_spec, list_fmap_id, bind_cons, <- app_assoc. done.
Qed.

(** The messages of an event of the log. *)
Definition recordOf (e : StoredEvent) : EventRecord := mkEventRecord (se_Type e) (se_Data e) (se_Metadata e).

Lemma newEvents_records env sid now i ver pos recs : recordOf <$> LogSpec.newEvents env sid now i ver pos recs = recs.
Proof.
  unfold LogSpec.newEvents. apply list_eq. intros k. rewrite list_lookup_fmap, list_lookup_imap.
  destruct (recs !! k) as [[]|]; done.
Qed.

(** ** The adapter's contract

    All or nothing, and a success is the plain append and the scheduling. *)
Class OutboxAppenderLaws (A O : Type) `{EventLogLaws A} `{OutboxStoreLaws O} `{!OutboxAppenderOps A O} :=
  oa_atomic : ∀ f env envS sid recs exp msgs a o a' o' r,
    oa_AppendWithOutbox = Some f → el_wf a →
    Z.of_nat (length (LogSpec.log (el_view a)) + length recs) ≤ MaxInt64 →
    msgs ≠ [] → f env envS sid recs exp msgs (a, o) = ((a', o'), r) →
    match r with
    | Err _ => a' = a ∧ o' = o
    | Ok stored => el_Append env sid recs exp a = (a', Ok stored) ∧
        os_view o' = foldl (λ m x, <[om_ID x := x]> m) (os_view o) (scheduled envS (time_Now envS 0) 0 msgs)
    end.

Section Memory.
Context {O : Type} `{OutboxStoreLaws O} (recv : nat → nat → nat).
#[local] Instance log_ops : EventLogOps MemoryAdapter := memory_log_ops recv.
#[local] Instance log_laws : EventLogLaws MemoryAdapter := memory_log_laws recv.

Definition memoryAppendWithOutbox (env envS : Env) (sid : string) (recs : list EventRecord) (exp : Z)
    (msgs : list OutboxMessage) : op (MemoryAdapter * O) error (list StoredEvent) := λ '(a, o),
  match AppendWithOutbox env envS recv sid recs exp msgs (a, Some o) with
  | ((a, o'), Ok (stored, _)) => ((a, default o o'), Ok stored)
  | ((a, o'), Err e) => ((a, default o o'), Err e)
  end.

Definition memory_outbox_appender : OutboxAppenderOps MemoryAdapter O := Some memoryAppendWithOutbox.
#[local] Existing Instance memory_outbox_appender.

Lemma memory_outbox_appender_laws : OutboxAppenderLaws MemoryAdapter O.
Proof.
  intros f env envS sid recs exp msgs a o a' o' r Hf Hwf Hfit Hne.
  change (Some memoryAppendWithOutbox = Some f) in Hf. assert (f = memoryAppendWithOutbox) as -> by congruence. unfold memoryAppendWithOutbox.
  pose proof (AppendWithOutbox_spec env envS recv sid recs exp msgs a (Some o) Hwf Hfit) as Hs.
  destruct (AppendWithOutbox _ _ _ _ _ _ _ _) as [[a1 o1] [[stored drops]|e]]; intros [= <- <- <-];
    destruct Hs as [Hs _]; [|by destruct Hs as [-> ->]].
  destruct Hs as [Happ Hout]. cbn [el_Append log_ops memory_log_ops]. unfold memoryAppend. rewrite Happ. split; [done|].
  destruct msgs; [done|]. destruct Hout as (? & o2 & [= <-] & -> & Hv). done.
Qed.
End Memory.

Section Theorems.
Context {A P V Ser X O : Type}.
Context `{AEADLaws} `{ProviderOps P} `{!ProviderLaws P} `{!ProviderStable P}.
Context `{EventLogOps A} `{!EventLogLaws A} `{SerializerOps V Ser} `{!SerializerLaws V Ser}.
Context `{SubjectIndexWriter X} `{MapOrder} `{OutboxStoreLaws O} `{!OutboxAppenderOps A O} `{!OutboxAppenderLaws A O}.
Implicit Types s : Store A P Ser X.
Implicit Types c : EventStore.

(** The outbox after the messages of [recs] were scheduled. *)
Definition delivered es (env : OutboxEnv) (sid : string) (recs : list EventRecord) (o o' : O) : Prop :=
  os_view o' = foldl (λ m x, <[om_ID x := x]> m) (os_view o)
    (scheduled (oe_schedule env) (time_Now (oe_schedule env) 0) 0 (recs ≫= routed es (oe_now env) sid)).

Lemma writeSubjectIndex_provider c env sid subs s : st_provider (writeSubjectIndex c env sid subs s) = st_provider s.
Proof. unfold writeSubjectIndex. by case_match. Qed.

(** A write that stops before the log: only the provider moves on. *)
Definition untouched s s' : Prop := ∃ p, later (st_provider s) p ∧ s' = set_provider s p.

Lemma appendThenSchedule_spec c env sid recs subs exp msgs s o s' o' r :
  el_wf (st_adapter s) → Z.of_nat (length (store_log s) + length recs) ≤ MaxInt64 →
  appendThenSchedule c env sid recs subs exp msgs (s, o) = ((s', o'), r) →
  (s' = s ∧ o' = o ∧ is_ok r = false) ∨
  (∃ a' stored, el_Append (se_env (oe_store env)) sid recs exp (st_adapter s) = (a', Ok stored) ∧
     s' = writeSubjectIndex c (se_env (oe_store env)) sid subs (set_adapter s a') ∧
     match r with
     | Ok _ => os_view o' = foldl (λ m x, <[om_ID x := x]> m) (os_view o)
         (scheduled (oe_schedule env) (time_Now (oe_schedule env) 0) 0 msgs)
     | Err e => o' = o ∧ msgs ≠ [] ∧ ∃ e', e = Wrapf "mink: events appended but outbox scheduling failed: %w" e'
     end).
Proof.
  intros Hwf Hfit. unfold appendThenSchedule.
  destruct (el_Append _ _ _ _ _) as [a' ra] eqn:Ea. pose proof Ea as Hs. apply el_append_spec in Hs as [_ He]; [|done..].
  destruct ra as [stored|e].
  2: { intros [= <- <- <-]. rewrite (He e) by done. left. by destruct s. }
  intros Hr. right. exists a', stored. split; [done|].
  destruct (0 <? Z.of_nat (length msgs)) eqn:Em.
  2: { injection Hr as <- <- <-. destruct msgs; [|done]. done. }
  destruct (os_Schedule _ _ _) as [o1 [ms|e]] eqn:Es; injection Hr as <- <- <-; (split; [done|]).
  - by apply os_schedule_ok in Es as [-> ->].
  - apply os_schedule_err in Es as ->. split; [done|]. split; [by intros ->|by eexists].
Qed.

(** The wrapper's write is the store's own: with the messages, without any of
    the two, or, where the adapter cannot do both, with the events alone. *)
Lemma writeEventsWithOutbox_spec es c env fmt sid (evs : list V) md exp s o s' o' r :
  el_wf (st_adapter s) → Z.of_nat (length (store_log s) + length evs) ≤ MaxInt64 →
  writeEventsWithOutbox es c env fmt sid evs md exp (s, o) = ((s', o'), r) →
  match r with
  | Ok _ => writeEvents c (oe_store env) fmt sid evs md false exp s = (s', Ok tt) ∧
      ∃ recs, prepareRecords c (oe_store env) fmt (st_upcasters s) (st_serializer s) sid md false 0 evs [] ∅
                (st_provider s) = (st_provider s', Ok recs) ∧ delivered es env sid recs.1 o o'
  | Err e => o' = o ∧
      (untouched s s' ∨
       (@oa_AppendWithOutbox A O _ = None ∧ writeEvents c (oe_store env) fmt sid evs md false exp s = (s', Ok tt) ∧
        ∃ e', e = Wrapf "mink: events appended but outbox scheduling failed: %w" e'))
  end.
Proof.
  intros Hwf Hfit. unfold writeEventsWithOutbox, writeEvents.
  pose proof (prepareRecords_later c (oe_store env) fmt (st_upcasters s) (st_serializer s) sid md false 0 evs [] ∅ (st_provider s)) as Hl.
  destruct (prepareRecords _ _ _ _ _ _ _ _ _ _ _ _ _) as [p' [[recs subs]|err]] eqn:Ep; cbn in Hl.
  2: { intros [= <- <- <-]. split; [done|]. left. by exists p'. }
  apply prepareRecords_Ok in Ep as (new & Enew & Hnew). cbn [app] in Enew. subst recs.
  pose proof (Forall2_length _ _ _ Hnew) as Hlen. unfold store_log in Hfit. rewrite Hlen in Hfit.
  unfold writeRecords. rewrite buildOutboxMessagesFromRecords_spec. set (msgs := new ≫= _).
  destruct (if 0 <? Z.of_nat (length msgs) then oa_AppendWithOutbox else None) as [f|] eqn:Ef.
  - destruct (0 <? Z.of_nat (length msgs)) eqn:Em; [|done].
    destruct (f _ _ _ _ _ _ _) as [[a1 o1] r1] eqn:Ea.
    eapply oa_atomic in Ea; [|exact Ef|exact Hwf|exact Hfit|by intros ->].
    destruct r1 as [stored|e]; intros [= <- <- <-].
    + destruct Ea as [Ea Hv]. cbn [st_adapter set_provider] in Ea |- *. rewrite Ea. split; [done|].
      exists (new, subs). by rewrite writeSubjectIndex_provider.
    + destruct Ea as [-> ->]. split; [done|]. left. exists p'. split; [done|]. by destruct s.
  - intros Hr. apply appendThenSchedule_spec in Hr as [(-> & -> & Hok)|(a' & stored & -> & -> & Hr)]; [| |done..].
    + destruct r; [done|]. split; [done|]. left. by exists p'.
    + destruct r as [[]|e]; [split; [done|]; exists (new, subs); by rewrite writeSubjectIndex_provider|].
      destruct Hr as (-> & Hne & He). split; [done|]. right. destruct msgs; done.
Qed.

Lemma represents_untouched c s s' m : represents c s m → untouched s s' → represents c s' m.
Proof. intros Hm (p & Hl & ->). eapply represents_setup; [exact Hm|by destruct Hm|done..]. Qed.

(** A known batch of a caller without privileges: what is written, and what the
    outbox gets. *)
Lemma writeEventsWithOutbox_represents c opts es env fmt sid (evs : list V) md exp s o s' o' r m :
  es_encryption c = NewFieldEncryptionConfig <$> opts → es_callerSchemaVersion c = false →
  (∀ i, entropy_ok (se_entropy (oe_store env) i)) → Forall (ser_known (st_serializer s)) evs →
  represents c s m → Z.of_nat (length (store_log s) + length evs) ≤ MaxInt64 →
  writeEventsWithOutbox es c env fmt sid evs md exp (s, o) = ((s', o'), r) →
  match r with
  | Ok _ => represents c s' (extend sid evs m) ∧
      ∃ new, store_log s' = store_log s ++ new ∧ delivered es env sid (recordOf <$> new) o o'
  | Err _ => o' = o ∧ (untouched s s' ∨
      (@oa_AppendWithOutbox A O _ = None ∧ writeEvents c (oe_store env) fmt sid evs md false exp s = (s', Ok tt)))
  end.
Proof.
  intros Hopts Hcs Hent Hk Hm Hfit Hw. pose proof Hm as (Hwf & _).
  apply writeEventsWithOutbox_spec in Hw; [|done..]. destruct r as [[]|e].
  - destruct Hw as (Hw & [recs subs] & Hp & Hd). split; [by eapply writeEvents_represents in Hw|].
    apply writeEvents_spec in Hw as (_ & _ & _ & _ & Hr); [|done..].
    destruct Hr as (recs' & now & _ & _ & _ & Hlog & _ & subs' & Hp'). rewrite Hp in Hp'. injection Hp' as <- <-.
    eexists. split; [exact Hlog|]. by rewrite newEvents_records.
  - destruct Hw as (-> & [Hu|(Hn & Hw & _)]); (split; [done|]); [by left|by right].
Qed.

(** C16: an accepted append through the wrapper extends the stream as the
    store's own append does, and puts into the outbox, for each event of the
    batch and each route that takes it, one pending message that carries the
    bytes the log holds (sealed, when the fields are encrypted) or what the
    route makes of them, and nothing else.  A refused one leaves the outbox
    alone, and the log and the index too when the adapter appends and schedules
    atomically; without that, the events may be there without their messages. *)
Theorem outbox_append_delivers_routes c (opts : option (list EncryptionOption)) es env sid (evs : list V) cfg s o s' o' r m :
  es_encryption c = NewFieldEncryptionConfig <$> opts → es_callerSchemaVersion c = false →
  (∀ i, entropy_ok (se_entropy (oe_store env) i)) → Forall (ser_known (st_serializer s)) evs →
  represents c s m → Z.of_nat (length (store_log s) + length evs) ≤ MaxInt64 →
  Append es c env sid evs cfg (s, o) = ((s', o'), r) →
  match r with
  | Ok _ => represents c s' (extend sid evs m) ∧
      ∃ new, store_log s' = store_log s ++ new ∧ delivered es env sid (recordOf <$> new) o o'
  | Err _ => o' = o ∧
      ((represents c s' m ∧ st_adapter s' = st_adapter s ∧ st_index s' = st_index s) ∨
       (@oa_AppendWithOutbox A O _ = None ∧ represents c s' (extend sid evs m)))
  end.
Proof.
  intros Hopts Hcs Hent Hk Hm Hfit. unfold Append.
  case_bool_decide; [intros [= <- <- <-]; split; [done|by left]|].
  case_bool_decide; [intros [= <- <- <-]; split; [done|by left]|]. intros Hw.
  eapply writeEventsWithOutbox_represents in Hw; [|done..]. destruct r as [[]|e]; [done|].
  destruct Hw as (-> & [Hu|(Hn & Hw)]); (split; [done|]).
  - left. pose proof (represents_untouched c s s' m Hm Hu). by destruct Hu as (p & _ & ->).
  - right. split; [done|]. by eapply writeEvents_represents in Hw.
Qed.

(** A write that expects a version the stream is past. *)
Lemma writeEvents_stale c env fmt sid (evs : list V) md tr exp s s' :
  el_wf (st_adapter s) → Z.of_nat (length (store_log s) + length evs) ≤ MaxInt64 →
  0 ≤ exp < LogSpec.version sid (store_log s) → writeEvents c env fmt sid evs md tr exp s ≠ (s', Ok tt).
Proof.
  intros Hwf Hfit Hexp Hw. apply writeEvents_spec in Hw as (_ & _ & _ & _ & recs & now & _ & _ & _ & _ & Hcv & _); [|done..].
  apply CheckVersion_Ok in Hcv as [?|[[? Hex]|[[? _]|[_ ?]]]]; [unfold AnyVersion in *; lia| |unfold StreamExists in *; lia|lia].
  zbool. unfold LogSpec.version in Hexp. rewrite Hex in Hexp. cbn in Hexp. lia.
Qed.

Lemma SaveAggregate_stale {G} `{Aggregate V G} c es env s o (g : G) :
  el_wf (st_adapter s) → agg_UncommittedEvents g ≠ [] →
  Z.of_nat (length (store_log s) + length (agg_UncommittedEvents g)) ≤ MaxInt64 →
  0 ≤ agg_Version g < LogSpec.version (aggregateStream g) (store_log s) →
  ∃ s2 e2, SaveAggregate es c env (s, o, g) = ((s2, o, g), Err e2) ∧ store_log s2 = store_log s.
Proof.
  intros Hwf Hne Hfit Hver. unfold SaveAggregate. rewrite bool_decide_false by (by rewrite length_zero_iff_nil).
  destruct (writeEventsWithOutbox _ _ _ _ _ _ _ _ _) as [[s2 o2] [[]|e2]] eqn:Ew;
    (apply writeEventsWithOutbox_spec in Ew; [|done..]).
  - destruct Ew as [Ew _]. by apply writeEvents_stale in Ew.
  - destruct Ew as (-> & [(p & _ & ->)|(_ & Ew & _)]); [by eexists _, e2|by apply writeEvents_stale in Ew].
Qed.

(** When the events of an aggregate were written but their messages could
    not be scheduled, the save reports an error and leaves the aggregate with
    its uncommitted events at its old version, behind the stream: every further
    save of that instance is refused, appends nothing and schedules nothing, so
    the messages are never scheduled. *)
Theorem unscheduled_save_never_retries {G} `{Aggregate V G} c (opts : option (list EncryptionOption)) es env s o s' o' (g g' : G) e m :
  es_encryption c = NewFieldEncryptionConfig <$> opts → es_callerSchemaVersion c = false →
  (∀ i, entropy_ok (se_entropy (oe_store env) i)) → Forall (ser_known (st_serializer s)) (agg_UncommittedEvents g) →
  represents c s m → 0 ≤ agg_Version g →
  Z.of_nat (length (store_log s) + 2 * length (agg_UncommittedEvents g)) ≤ MaxInt64 →
  SaveAggregate es c env (s, o, g) = ((s', o', g'), Err e) → store_log s' ≠ store_log s →
  represents c s' (extend (aggregateStream g) (agg_UncommittedEvents g) m) ∧ o' = o ∧ g' = g ∧
  ∀ env2 o2, ∃ s2 e2, SaveAggregate es c env2 (s', o2, g') = ((s2, o2, g'), Err e2) ∧ store_log s2 = store_log s'.
Proof.
  intros Hopts Hcs Hent Hk Hm Hver Hfit. unfold SaveAggregate at 1. set (evs := agg_UncommittedEvents g) in *.
  case_bool_decide as Hne; [by intros [=]|].
  destruct (writeEventsWithOutbox _ _ _ _ _ _ _ _ _) as [[s1 o1] [[]|e1]] eqn:Ew; [done|].
  intros [= <- <- <- ->] Hlog.
  eapply writeEventsWithOutbox_represents in Ew; [|done..|fold evs; lia].
  destruct Ew as (-> & [(p & _ & ->)|(_ & Ew)]); [done|].
  pose proof Ew as Hm'. eapply writeEvents_represents in Hm'; [|done..|fold evs; lia]. cbn in Hm'.
  split; [exact Hm'|]. split; [done|]. split; [done|]. intros env2 o2.
  pose proof Ew as Hs. apply writeEvents_spec in Hs as (_ & _ & _ & _ & recs & now & _ & _ & Hrecs & Hl & Hcv & _); [|by destruct Hm|fold evs; lia].
  apply SaveAggregate_stale; [by destruct Hm'| | |].
  - intros E. by rewrite length_zero_iff_nil in Hne.
  - rewrite Hl, length_app, newEvents_length, <- (Forall2_length _ _ _ Hrecs). fold evs. lia.
  - rewrite (represents_version _ _ _ _ Hm'). unfold extend. rewrite decide_True, length_app by done.
    rewrite (represents_version _ _ _ _ Hm) in Hcv. rewrite length_zero_iff_nil in Hne. destruct evs; [done|].
    apply CheckVersion_Ok in Hcv as [?|[[-> _]|[[? _]|[_ ?]]]]; unfold AnyVersion, StreamExists, NoStream in *; cbn [length]; lia.
Qed.
End Theorems.

(** ** Witnesses *)

#[local] Existing Instances toyAEAD toyAEAD_laws listOrder stableSlice sampleText sampleSerializer sampleSerializer_laws.
#[local] Existing Instances sampleLog sampleLog_laws sampleIndex sampleAggregate.

(** Two of the routes take the event, one with its own payload. *)
Definition sampleRoutes : EventStoreWithOutbox :=
  NewEventStoreWithOutbox
    [mkOutboxRoute [] "kafka:users" None None;
     mkOutboxRoute ["OrderPlaced"] "kafka:orders" None None;
     mkOutboxRoute ["UserRegistered"] "webhook:audit" (Some (λ _, Ok (stringToBytes "{}"))) None;
     mkOutboxRoute [] "sns:none" None (Some (λ _, false))] [WithOutboxMaxAttempts 3; WithOutboxMaxAttempts 0].

Definition sampleOutboxEnv (schedule : Env) : OutboxEnv := mkOutboxEnv sampleStoreEnv schedule 7.

#[local] Instance sampleAppender : OutboxAppenderOps MemoryAdapter OutboxStore := memory_outbox_appender (λ _ _, 0%nat).
#[local] Instance sampleAppender_laws : OutboxAppenderLaws MemoryAdapter OutboxStore :=
  memory_outbox_appender_laws (λ _ _, 0%nat).

Definition sampleRouted :=
  Append sampleRoutes sampleConfig (sampleOutboxEnv sampleEnv) "User-1" sampleChanges
    (mkAppendConfig emptyMetadata 0 false) (sampleStore, NewOutboxStore).

Lemma sampleRouted_ok :
  is_ok sampleRouted.2 = true ∧ om_Destination <$> (map_to_list (messages sampleRouted.1.2)).*2 =
    ["webhook:audit"; "webhook:audit"; "kafka:users"; "kafka:users"].
Proof. vm_compute. split; reflexivity. Qed.

Lemma sampleUser_known : Forall (ser_known (st_serializer sampleStore)) (agg_UncommittedEvents (sampleUser sampleChanges)).
Proof. repeat (apply Forall_cons; split); [split; [set_solver|by apply utf8_ascii]..|by apply Forall_nil]. Qed.

Lemma sampleChanges_known : Forall (ser_known (st_serializer sampleStore)) sampleChanges.
Proof. repeat (apply Forall_cons; split); [split; [set_solver|by apply utf8_ascii]..|by apply Forall_nil]. Qed.

Lemma outbox_append_delivers_routes_witness :
  is_ok sampleRouted.2 = true ∧ represents sampleConfig sampleRouted.1.1 (extend "User-1" sampleChanges (λ _, [])) ∧
  ∃ new, store_log sampleRouted.1.1 = new ∧
    delivered sampleRoutes (sampleOutboxEnv sampleEnv) "User-1" (recordOf <$> new) NewOutboxStore sampleRouted.1.2.
Proof.
  pose proof (outbox_append_delivers_routes sampleConfig (Some sampleFieldOptions) sampleRoutes
    (sampleOutboxEnv sampleEnv) "User-1" sampleChanges (mkAppendConfig emptyMetadata 0 false) sampleStore NewOutboxStore
    sampleRouted.1.1 sampleRouted.1.2 sampleRouted.2 (λ _, []) eq_refl eq_refl (λ _, sampleEntropy_ok)
    sampleChanges_known sampleStore_empty ltac:(vm_compute; discriminate)) as H.
  specialize (H ltac:(fold sampleRouted; by destruct sampleRouted as [[? ?] ?])).
  pose proof (proj1 sampleRouted_ok) as Hok. destruct sampleRouted as [[s' o'] [[]|]]; [|discriminate Hok].
  destruct H as [Hm (new & Hl & Hd)]. split; [reflexivity|]. split; [exact Hm|]. exists new. split; [exact Hl|exact Hd].
Defined.

(** The same adapter behind a wrapper that does not offer the transaction, with
    a context that is cancelled before the messages are scheduled. *)
Definition sampleCancelled : Env := mkEnv (time_Now sampleEnv) (uuid_New sampleEnv) (Some ContextCanceled) (λ _, false) ContextCanceled.

Definition sampleUnscheduled :=
  SaveAggregate (OutboxAppenderOps0 := None) sampleRoutes sampleConfig (sampleOutboxEnv sampleCancelled)
    (sampleStore, NewOutboxStore, sampleUser sampleChanges).

Lemma noAppender_laws : @OutboxAppenderLaws MemoryAdapter OutboxStore _ _ _ _ _ None.
Proof. intros f env envS sid recs exp msgs a o a' o' r Hf. discriminate Hf. Qed.

Lemma sampleUnscheduled_run :
  is_ok sampleUnscheduled.2 = false ∧ length (store_log sampleUnscheduled.1.1.1) = 2%nat.
Proof. vm_compute. split; reflexivity. Qed.

Lemma unscheduled_save_never_retries_witness :
  ∃ s2 e2, SaveAggregate (OutboxAppenderOps0 := None) sampleRoutes sampleConfig (sampleOutboxEnv sampleEnv)
      (sampleUnscheduled.1.1.1, NewOutboxStore, sampleUser sampleChanges) =
    ((s2, NewOutboxStore, sampleUser sampleChanges), Err e2) ∧ length (store_log s2) = 2%nat.
Proof.
  destruct sampleUnscheduled_run as [Hr Hl]. destruct sampleUnscheduled as [[[s' o'] g'] r] eqn:E.
  destruct r as [[]|e]; [discriminate Hr|].
  destruct (unscheduled_save_never_retries (OutboxAppenderLaws0 := noAppender_laws) sampleConfig (Some sampleFieldOptions)
    sampleRoutes (sampleOutboxEnv sampleCancelled) sampleStore NewOutboxStore s' o' (sampleUser sampleChanges) g' e
    (λ _, []) eq_refl eq_refl (λ _, sampleEntropy_ok) sampleUser_known sampleStore_empty
    ltac:(vm_compute; discriminate) ltac:(vm_compute; discriminate) E) as (_ & _ & -> & Hretry).
  { intros Heq. cbn [fst] in Hl. rewrite Heq in Hl. discriminate Hl. }
  destruct (Hretry (sampleOutboxEnv sampleEnv) NewOutboxStore) as (s2 & e2 & Hs & Hlog).
  exists s2, e2. split; [exact Hs|]. rewrite Hlog. exact Hl.
Defined.
