(* ===== verification/Revocation.v ===== *)
(** * Revoking keys

    The optional revocation interfaces of [src/encryption/provider.go] and the
    configuration's use of them ([RevokeKey], [IsRevoked], [RevocationState] of
    [src/encryption.go]); the contract an erasure relies on, that a permanent
    revocation is permanent, and the local provider as an instance of it. *)

From S2P Require Import Prelude.
From S2P Require Import Types.
From S2P Require Import Crypto.
From S2P Require Import LocalProvider.
From S2P Require Import FieldEncryption.

(** ** The interfaces

    [encryption.Revocable] and [encryption.StatefulRevocable], both optional. *)
Class RevocableOps (P : Type) := {
  rv_Revocable : option ((string → op P error unit) * (Time → string → op P error bool));
  rv_Stateful : option (Time → string → op P error RevocationState);
}.

Definition Revoke {P} `{RevocableOps P} (keyID : string) : op P error unit := λ p,
  match rv_Revocable with
  | None => (p, Err ErrRevocationUnsupported)
  | Some (revoke, _) => revoke keyID p
  end.

Definition KeyIsRevoked {P} `{RevocableOps P} (now : Time) (keyID : string) : op P error bool := λ p,
  match rv_Revocable with
  | None => (p, Err ErrRevocationUnsupported)
  | Some (_, isRevoked) => isRevoked now keyID p
  end.

Definition GetRevocationState {P} `{RevocableOps P} (now : Time) (keyID : string) : op P error RevocationState := λ p,
  match rv_Stateful with
  | Some state => state now keyID p
  | None =>
      match rv_Revocable with
      | None => (p, Err ErrRevocationUnsupported)
      | Some (_, isRevoked) =>
          match isRevoked now keyID p with
          | (p, Err err) => (p, Err err)
          | (p, Ok revoked) => (p, Ok (if revoked : bool then Revoked else NotRevoked))
          end
      end
  end.

(** A nil provider implements neither. *)
Definition cfgRevokeKey {P} `{RevocableOps P} (cfg : FieldEncryptionConfig) (keyID : string) : op P error unit := λ p,
  if fe_hasProvider cfg then Revoke keyID p else (p, Err ErrRevocationUnsupported).

Definition cfgIsRevoked {P} `{RevocableOps P} (cfg : FieldEncryptionConfig) (now : Time) (keyID : string)
    : op P error bool := λ p,
  if fe_hasProvider cfg then KeyIsRevoked now keyID p else (p, Err ErrRevocationUnsupported).

Definition cfgRevocationState {P} `{RevocableOps P} (cfg : FieldEncryptionConfig) (now : Time) (keyID : string)
    : op P error RevocationState := λ p,
  if fe_hasProvider cfg then GetRevocationState now keyID p else (p, Err ErrRevocationUnsupported).

(** ** The contract

    [rv_call] are the calls anyone can make on the provider, [rv_gone t k p]
    that the key [k] is gone for good from time [t] on: a state reported as
    permanently revoked is gone, no call brings it back, and a gone key unwraps
    nothing. *)
Class RevocableLaws (P : Type) `{ProviderOps P} `{!RevocableOps P} := {
  rv_call : Type;
  rv_run : Time → rv_call → P → P;
  rv_gone : Time → string → P → Prop;
  gone_later : ∀ t t' k p, rv_gone t k p → t ≤ t' → rv_gone t' k p;
  gone_run : ∀ t now c k p, t ≤ now → rv_gone t k p → rv_gone t k (rv_run now c p);
  gone_decrypt : ∀ t now k k' ct p, t ≤ now → rv_gone t k p → rv_gone t k (DecryptDataKey now k' ct p).1;
  gone_revoke : ∀ t k k' p, rv_gone t k p → rv_gone t k (Revoke k' p).1;
  gone_state : ∀ t now k k' p, t ≤ now → rv_gone t k p → rv_gone t k (GetRevocationState now k' p).1;
  gone_isRevoked : ∀ t now k k' p, t ≤ now → rv_gone t k p → rv_gone t k (KeyIsRevoked now k' p).1;
  revoked_gone : ∀ now k p p', GetRevocationState now k p = (p', Ok Revoked) → rv_gone now k p';
  gone_unwraps : ∀ t now k ct dek p, rv_gone t k p → t ≤ now → ¬ unwraps now p k ct dek;
}.

(** No call from time [t] on, whatever calls are made between, unwraps a data
    key under [k]. *)
Definition unrecoverable {P} `{RevocableLaws P} (t : Time) (k : string) (p : P) : Prop :=
  ∀ (h : list (Time * rv_call)), Forall (λ x, t ≤ x.1) h →
  ∀ t' ct dek, t ≤ t' → ¬ unwraps t' (foldl (λ p x, rv_run x.1 x.2 p) p h) k ct dek.

Lemma gone_unrecoverable {P} `{RevocableLaws P} t k (p : P) : rv_gone t k p → unrecoverable t k p.
Proof.
  intros Hg h Hh. revert p Hg. induction Hh as [|x h Hx _ IH]; intros p Hg t' ct dek Ht; [by eapply gone_unwraps|].
  apply IH; [|done]. by apply gone_run.
Qed.

(** ** The local provider *)

#[export] Instance localRevocable : RevocableOps Provider :=
  {| rv_Revocable := Some (RevokeKey, IsRevoked); rv_Stateful := Some RevocationStateOf |}.

Lemma state_Revoked_dead now k p p' : RevocationStateOf now k p = (p', Ok Revoked) → dead now k p'.
Proof.
  unfold RevocationStateOf, stateLocked. destruct (lp_closed p); [done|]. intros [= <- E]. right; left.
  destruct (isHard k _); [done|]. by destruct (lp_softRevoked _ !! k).
Qed.

#[export] Instance localProvider_revocable `{AEAD} : RevocableLaws Provider.
Proof.
  refine {| rv_call := call; rv_run := runCall; rv_gone := dead |}.
  - apply dead_later.
  - intros t now c k p Ht Hd. by apply runCall_dead.
  - intros t now k k' ct p Ht Hd. cbn. unfold localDecryptDataKey, op_bind.
    pose proof (runCall_dead t now (CGetKey k') k p Ht Hd) as H'. cbn [runCall] in H'.
    destruct (getKey now k' p) as [p1 [key|]]; exact H'.
  - intros t k k' p Hd. exact (runCall_dead t t (CRevokeKey k') k p (Z.le_refl t) Hd).
  - intros t now k k' p Ht Hd. exact (runCall_dead t now (CRevocationState k') k p Ht Hd).
  - intros t now k k' p Ht Hd. exact (runCall_dead t now (CIsRevoked k') k p Ht Hd).
  - exact state_Revoked_dead.
  - intros t now k ct dek p Hd Ht. unfold unwraps. cbn. unfold localDecryptDataKey, op_bind.
    pose proof (dead_getKey now k p (dead_later _ _ _ _ Hd Ht)) as Hg.
    destruct (getKey now k p) as [p1 [key|]]; cbn in *; [by destruct Hg|done].
Defined.
