(* ===== verification/SubjectResolver.v ===== *)
(** * Attributing events to data subjects

    The rest of [src/subject.go] and [src/subjectindex.go]: which subjects an
    event concerns, by its tags or by running the tagger over its plaintext; the
    resolution of a subject's footprint, by an index or by a scan of the log; and
    the in-memory index with its backfill.  The scans read the log page by page;
    what other writers append between two reads is [others]. *)

From S2P Require Import Prelude.
From S2P Require Import Types.
From S2P Require Import Common.
From S2P Require Import Crypto.
From S2P Require Import Subject.
From S2P Require Import FieldEncryption.
From S2P Require Import MemoryAdmin.
From S2P Require Import EventLog.
From S2P Require Import EventStore.

(** ** Sets of names *)

Definition nameSet : Type := gmap string unit.

Definition addNames (names : list string) (m : nameSet) : nameSet := foldl (λ m k, <[k := tt]> m) m names.

Definition sortedSet `{MapOrder} (m : nameSet) : list string := sortStrings (range m).*1.

Definition sampleSet `{MapOrder} (m : nameSet) (n : Z) : list string :=
  let all := sortedSet m in if n <? Z.of_nat (length all) then take (Z.to_nat n) all else all.

(** [map[string]map[int64]struct{}], and the nil one. *)
Definition erasureMatches : Type := option (gset (string * Z)).

Definition erasureMatches_add (se : StoredEvent) (m : erasureMatches) : erasureMatches :=
  match m with Some m => Some ({[ (se_StreamID se, se_Version se) ]} ∪ m) | None => None end.

Definition erasureMatches_has (m : erasureMatches) (se : StoredEvent) : bool :=
  bool_decide ((se_StreamID se, se_Version se) ∈ default ∅ m).

(** ** Attribution *)

Record subjectAttribution := mkSubjectAttribution {
  at_subjects : list string;
  at_derived : bool;
  at_undecryptable : bool;
}.

Definition unattributed : subjectAttribution := mkSubjectAttribution [] false false.

Definition attributed (a : subjectAttribution) : bool := negb (bool_decide (at_subjects a = [])).

Definition attributedTo (a : subjectAttribution) (subjectID : string) : bool :=
  existsb (λ s, bool_decide (s = subjectID)) (at_subjects a).

Definition toOther (a : subjectAttribution) (subjectID : string) : bool :=
  existsb (λ s, negb (bool_decide (s = subjectID))) (at_subjects a).

Section Attribution.
Context {P : Type} `{AEAD} `{ProviderOps P}.

Definition taggerPlaintext (c : EventStore) (now : Time) (se : StoredEvent) (p : P) : P * option (Bytes * Metadata) :=
  if negb (IsEncrypted (se_Metadata se)) then (p, Some (se_Data se, se_Metadata se))
  else
    match es_encryption c with
    | None => (p, None)
    | Some _ =>
        match DecryptStoredEvent c now se p with
        | (p, Err _) => (p, None)
        | (p, Ok dec) => (p, if IsEncrypted (se_Metadata dec) then None else Some (se_Data dec, se_Metadata dec))
        end
    end.

Definition attributeSubjects (c : EventStore) (tagger : option SubjectTagger) (now : Time) (se : StoredEvent) (p : P)
    : P * subjectAttribution :=
  match GetSubjectTags (se_Metadata se) with
  | (_ :: _) as tags => (p, mkSubjectAttribution tags false false)
  | [] =>
      match (match tagger with Some t => Some t | None => es_subjectTagger c end) with
      | None => (p, unattributed)
      | Some tagger =>
          match taggerPlaintext c now se p with
          | (p, None) => (p, mkSubjectAttribution [] false true)
          | (p, Some (data, md)) =>
              match cleanSubjects (tagger (se_Type se) data md) with
              | [] => (p, unattributed)
              | derived => (p, mkSubjectAttribution derived true false)
              end
          end
      end
  end.
End Attribution.

(** ** Footprints *)

Record SubjectFootprint := mkSubjectFootprint {
  fp_SubjectID : string;
  fp_Streams : list string;
  fp_StreamEventCounts : gmap string Z;
  fp_EventCount : Z;
  fp_SharedStreams : list string;
  fp_KeyIDs : list string;
  fp_CleartextEvents : Z;
  fp_Partial : bool;
}.

(** The receiver may be nil. *)
Definition ExclusiveStreams (fp : option SubjectFootprint) : list string :=
  match fp with
  | None => []
  | Some fp =>
      if bool_decide (fp_SharedStreams fp = []) then fp_Streams fp
      else filter (λ s, s ∉ fp_SharedStreams fp) (fp_Streams fp)
  end.

Record footprintBuilder := mkFootprintBuilder {
  fb_SubjectID : string;
  fb_StreamEventCounts : gmap string Z;
  fb_EventCount : Z;
  fb_CleartextEvents : Z;
  fb_Partial : bool;
  fb_streamSet : nameSet;
  fb_sharedSet : nameSet;
  fb_keySet : nameSet;
  fb_matched : erasureMatches;
}.

Definition newFootprintBuilder (subjectID : string) (matched : erasureMatches) : footprintBuilder :=
  mkFootprintBuilder subjectID ∅ 0 0 false ∅ ∅ ∅ matched.

(** An event of the subject. *)
Definition record (se : StoredEvent) (b : footprintBuilder) : footprintBuilder :=
  let sealed := HasEncryptionEnvelope (se_Metadata se) in
  mkFootprintBuilder (fb_SubjectID b)
    (<[se_StreamID se := default 0 (fb_StreamEventCounts b !! se_StreamID se) + 1]> (fb_StreamEventCounts b))
    (i64 (fb_EventCount b + 1))
    (if sealed then fb_CleartextEvents b else i64 (fb_CleartextEvents b + 1)) (fb_Partial b)
    (<[se_StreamID se := tt]> (fb_streamSet b)) (fb_sharedSet b)
    (if sealed then <[GetEncryptionKeyID (se_Metadata se) := tt]> (fb_keySet b) else fb_keySet b)
    (erasureMatches_add se (fb_matched b)).

Definition setPartial (b : footprintBuilder) : footprintBuilder :=
  mkFootprintBuilder (fb_SubjectID b) (fb_StreamEventCounts b) (fb_EventCount b) (fb_CleartextEvents b) true
    (fb_streamSet b) (fb_sharedSet b) (fb_keySet b) (fb_matched b).

Definition addShared (streamID : string) (b : footprintBuilder) : footprintBuilder :=
  mkFootprintBuilder (fb_SubjectID b) (fb_StreamEventCounts b) (fb_EventCount b) (fb_CleartextEvents b) (fb_Partial b)
    (fb_streamSet b) (<[streamID := tt]> (fb_sharedSet b)) (fb_keySet b) (fb_matched b).

Definition finalize `{MapOrder} (b : footprintBuilder) : SubjectFootprint :=
  mkSubjectFootprint (fb_SubjectID b) (sortedSet (fb_streamSet b)) (fb_StreamEventCounts b) (fb_EventCount b)
    (sortedSet (fb_sharedSet b)) (sortedSet (fb_keySet b)) (fb_CleartextEvents b) (fb_Partial b).

(** ** The world a run acts on

    The event store, the application's other systems ([O]: indexes, sibling
    stores, read models, hooks), and how many calls were made; the [n]-th call
    has the environment [envs n], and reads the log after [others n]. *)
Record SubjectWorld (A P Ser X O : Type) := mkSubjectWorld {
  sw_store : Store A P Ser X;
  sw_out : O;
  sw_calls : nat;
}.
Arguments mkSubjectWorld {A P Ser X O} _ _ _.
Arguments sw_store {A P Ser X O} _.
Arguments sw_out {A P Ser X O} _.
Arguments sw_calls {A P Ser X O} _.

Record SubjectResolver (O : Type) := mkSubjectResolver {
  sr_batchSize : Z;
  sr_index : option (Env → string → O → res (list string)); (* SubjectIndexAdapter *)
  sr_authoritative : bool;
  sr_tagger : option SubjectTagger;
}.
Arguments mkSubjectResolver {O} _ _ _ _.
Arguments sr_batchSize {O} _.
Arguments sr_index {O} _.
Arguments sr_authoritative {O} _.
Arguments sr_tagger {O} _.

Definition NewSubjectResolver {O} : SubjectResolver O := mkSubjectResolver 1000 None false None.
Definition WithResolverBatchSize {O} (size : Z) (r : SubjectResolver O) : SubjectResolver O :=
  if 0 <? size then mkSubjectResolver size (sr_index r) (sr_authoritative r) (sr_tagger r) else r.
Definition WithResolverIndex {O} (idx : Env → string → O → res (list string)) (r : SubjectResolver O)
    : SubjectResolver O :=
  mkSubjectResolver (sr_batchSize r) (Some idx) (sr_authoritative r) (sr_tagger r).
Definition WithAuthoritativeIndex {O} (r : SubjectResolver O) : SubjectResolver O :=
  mkSubjectResolver (sr_batchSize r) (sr_index r) true (sr_tagger r).
Definition WithResolverTagger {O} (tagger : SubjectTagger) (r : SubjectResolver O) : SubjectResolver O :=
  mkSubjectResolver (sr_batchSize r) (sr_index r) (sr_authoritative r) (Some tagger).

Section Resolver.
Context {A P Ser X O : Type} `{AEAD} `{ProviderOps P} `{EventLogOps A} `{MapOrder}.
Context (envs : nat → Env) (others : nat → A → A).
(** [scannable]: the adapter is a [SubscriptionAdapter]. *)
Context (c : EventStore) (scannable : bool).
Implicit Types w : SubjectWorld A P Ser X O.

Definition here w : Env := envs (sw_calls w).
Definition step w : SubjectWorld A P Ser X O := mkSubjectWorld (sw_store w) (sw_out w) (S (sw_calls w)).

Definition readLog {R} (f : Env → Store A P Ser X → R) w : SubjectWorld A P Ser X O * R :=
  let st := set_adapter (sw_store w) (others (sw_calls w) (st_adapter (sw_store w))) in
  (mkSubjectWorld st (sw_out w) (S (sw_calls w)), f (here w) st).

Definition withProvider {R} (f : Env → P → P * R) w : SubjectWorld A P Ser X O * R :=
  let '(p, r) := f (here w) (st_provider (sw_store w)) in
  (mkSubjectWorld (set_provider (sw_store w) p) (sw_out w) (S (sw_calls w)), r).

Definition withOut {R} (f : Env → O → O * R) w : SubjectWorld A P Ser X O * R :=
  let '(o, r) := f (here w) (sw_out w) in (mkSubjectWorld (sw_store w) o (S (sw_calls w)), r).

(** [attribute] of the resolver and of the eraser. *)
Definition attribute (tagger : option SubjectTagger) (se : StoredEvent) :
    SubjectWorld A P Ser X O → SubjectWorld A P Ser X O * subjectAttribution :=
  withProvider (λ env, attributeSubjects c tagger (time_Now env 0) se).

(** The loop over the pages of the log.  [body] handles a page. *)
Fixpoint scanLoop {T} (wrap : error → error) (limit : Z) (body : list StoredEvent → T → SubjectWorld A P Ser X O →
    SubjectWorld A P Ser X O * res T) (fuel : nat) (position : Z) (acc : T) w : SubjectWorld A P Ser X O * res T :=
  match fuel with
  | 0%nat => (w, Err Blocked)
  | S fuel =>
      match ctx_Err (here w) with
      | Some err => (step w, Err err)
      | None =>
          match readLog (λ env, LoadEventsFromPosition env position limit) (step w) with
          | (w, Err err) => (w, Err (wrap err))
          | (w, Ok batch) =>
              match last batch with
              | None => (w, Ok acc)
              | Some lst =>
                  match body batch acc w with
                  | (w, Err err) => (w, Err err)
                  | (w, Ok acc) => scanLoop wrap limit body fuel (se_GlobalPosition lst) acc w
                  end
              end
          end
      end
  end.

Fixpoint streamSharedWithOthers (tagger : option SubjectTagger) (stored : list StoredEvent) (subjectID : string) w
    : SubjectWorld A P Ser X O * bool :=
  match stored with
  | [] => (w, false)
  | se :: stored =>
      let '(w, at') := attribute tagger se w in
      if toOther at' subjectID then (w, true) else streamSharedWithOthers tagger stored subjectID w
  end.

(** A stream that no longer exists is [None]. *)
Definition loadFootprintStream (streamID : string) w : SubjectWorld A P Ser X O * res (option (list StoredEvent)) :=
  match readLog (λ env, LoadRaw env streamID 0) w with
  | (w, Ok stored) => (w, Ok (Some stored))
  | (w, Err err) =>
      (w, if errors_Is err ErrStreamNotFound then Ok None
          else Err (Wrapf "mink: load stream %q for subject %q: %w" err))
  end.

Fixpoint collectEvents (tagger : option SubjectTagger) (subjectID : string) (stored : list StoredEvent) (shared : bool)
    (b : footprintBuilder) w : SubjectWorld A P Ser X O * (bool * footprintBuilder) :=
  match stored with
  | [] => (w, (shared, b))
  | se :: stored =>
      let '(w, at') := attribute tagger se w in
      collectEvents tagger subjectID stored (shared || toOther at' subjectID)
        (if attributedTo at' subjectID then record se b else b) w
  end.

Definition collectIndexedStream (tagger : option SubjectTagger) (subjectID streamID : string) (stored : list StoredEvent)
    (b : footprintBuilder) w : SubjectWorld A P Ser X O * footprintBuilder :=
  let '(w, (shared, b)) := collectEvents tagger subjectID stored false b w in
  (w, if bool_decide (is_Some (fb_streamSet b !! streamID)) && shared then addShared streamID b else b).

Fixpoint collectStreams (tagger : option SubjectTagger) (subjectID : string) (streams : list string)
    (b : footprintBuilder) w : SubjectWorld A P Ser X O * res footprintBuilder :=
  match streams with
  | [] => (w, Ok b)
  | streamID :: streams =>
      match loadFootprintStream streamID w with
      | (w, Err err) => (w, Err err)
      | (w, Ok None) => collectStreams tagger subjectID streams b w
      | (w, Ok (Some stored)) =>
          let '(w, b) := collectIndexedStream tagger subjectID streamID stored b w in
          collectStreams tagger subjectID streams b w
      end
  end.

Definition resolveByIndex (r : SubjectResolver O) (index : Env → string → O → res (list string)) (subjectID : string)
    (b : footprintBuilder) w : SubjectWorld A P Ser X O * res (SubjectFootprint * erasureMatches) :=
  match withOut (λ env o, (o, index env subjectID o)) w with
  | (w, Err err) => (w, Err (Wrapf "mink: subject index for %q: %w" err))
  | (w, Ok streams) =>
      match collectStreams (sr_tagger r) subjectID streams b w with
      | (w, Err err) => (w, Err err)
      | (w, Ok b) =>
          let fp := finalize b in
          (w, Ok (mkSubjectFootprint (fp_SubjectID fp) (fp_Streams fp) (fp_StreamEventCounts fp) (fp_EventCount fp)
                    (fp_SharedStreams fp) (fp_KeyIDs fp) (fp_CleartextEvents fp) (negb (sr_authoritative r)),
                  fb_matched b))
      end
  end.

Fixpoint attributeBatch (tagger : option SubjectTagger) (subjectID : string) (batch : list StoredEvent)
    (b : footprintBuilder) w : SubjectWorld A P Ser X O * footprintBuilder :=
  match batch with
  | [] => (w, b)
  | se :: batch =>
      let '(w, at') := attribute tagger se w in
      attributeBatch tagger subjectID batch
        (if attributedTo at' subjectID then record se b else if negb (attributed at') then setPartial b else b) w
  end.

Fixpoint detectSharedStreams (tagger : option SubjectTagger) (subjectID : string) (streams : list string)
    (b : footprintBuilder) w : SubjectWorld A P Ser X O * res footprintBuilder :=
  match streams with
  | [] => (w, Ok b)
  | streamID :: streams =>
      match ctx_Err (here w) with
      | Some err => (step w, Err err)
      | None =>
          match loadFootprintStream streamID (step w) with
          | (w, Err err) => (w, Err err)
          | (w, Ok None) => detectSharedStreams tagger subjectID streams b w
          | (w, Ok (Some stored)) =>
              let '(w, shared) := streamSharedWithOthers tagger stored subjectID w in
              detectSharedStreams tagger subjectID streams (if shared then addShared streamID b else b) w
          end
      end
  end.

Definition resolveByScan (fuel : nat) (r : SubjectResolver O) (subjectID : string) (b : footprintBuilder) w
    : SubjectWorld A P Ser X O * res (SubjectFootprint * erasureMatches) :=
  if negb scannable then (w, Err ErrExportScanNotSupported)
  else
    match scanLoop (Wrapf "mink: subject scan from %d: %w") (sr_batchSize r)
            (λ batch b w, let '(w, b) := attributeBatch (sr_tagger r) subjectID batch b w in (w, Ok b)) fuel 0 b w with
    | (w, Err err) => (w, Err err)
    | (w, Ok b) =>
        match detectSharedStreams (sr_tagger r) subjectID (range (fb_streamSet b)).*1 b w with
        | (w, Err err) => (w, Err err)
        | (w, Ok b) => (w, Ok (finalize b, fb_matched b))
        end
    end.

(** The footprint, and what the memo of matched events became. *)
Definition resolve (fuel : nat) (r : SubjectResolver O) (subjectID : string) (matched : erasureMatches) w
    : SubjectWorld A P Ser X O * res (SubjectFootprint * erasureMatches) :=
  if bool_decide (subjectID = "") then (w, Err ErrSubjectIDRequired)
  else
    let b := newFootprintBuilder subjectID matched in
    match sr_index r with
    | Some index => resolveByIndex r index subjectID b w
    | None => resolveByScan fuel r subjectID b w
    end.

Definition Resolve (fuel : nat) (r : SubjectResolver O) (subjectID : string) w
    : SubjectWorld A P Ser X O * res SubjectFootprint :=
  let '(w, res) := resolve fuel r subjectID None w in
  (w, match res with Ok (fp, _) => Ok fp | Err err => Err err end).
End Resolver.

(** ** The subject index *)

Record MemorySubjectIndex := mkMemorySubjectIndex { msi_streams : gmap string nameSet }.

Definition NewMemorySubjectIndex : MemorySubjectIndex := mkMemorySubjectIndex ∅.

Definition memoryIndexSubjects (env : Env) (streamID : string) (subjectIDs : list string)
    : op MemorySubjectIndex error unit := λ m,
  match check_ctx env with
  | Err err => (m, Err err)
  | Ok _ =>
      if bool_decide (streamID = "") || bool_decide (subjectIDs = []) then (m, Ok tt)
      else
        (mkMemorySubjectIndex
           (foldl (λ streams s,
              if bool_decide (s = "") then streams
              else <[s := <[streamID := tt]> (default ∅ (streams !! s))]> streams) (msi_streams m) subjectIDs), Ok tt)
  end.

Definition StreamsBySubject `{MapOrder} (env : Env) (subjectID : string) (m : MemorySubjectIndex) : res (list string) :=
  check_ctx env;; Ok (sortedSet (default ∅ (msi_streams m !! subjectID))).

Definition DeleteSubject (env : Env) (subjectID : string) : op MemorySubjectIndex error unit := λ m,
  match check_ctx env with
  | Err err => (m, Err err)
  | Ok _ =>
      (if bool_decide (subjectID = "") then m else mkMemorySubjectIndex (delete subjectID (msi_streams m)), Ok tt)
  end.

(** ** Backfill *)

Record BackfillReport := mkBackfillReport {
  bf_Scanned : Z;
  bf_Indexed : Z;
  bf_Untagged : Z;
  bf_Undecryptable : Z;
}.

Section Backfill.
Context {A P Ser X O : Type} `{AEAD} `{ProviderOps P} `{EventLogOps A}.
Context (envs : nat → Env) (others : nat → A → A) (c : EventStore) (scannable : bool).
Context (tagger : SubjectTagger) (writer : Env → string → list string → op O error unit).
Implicit Types w : SubjectWorld A P Ser X O.

Definition subjectsOf (se : StoredEvent) (rep : BackfillReport) w : SubjectWorld A P Ser X O * (BackfillReport * list string) :=
  let '(w, at') := attribute envs c (Some tagger) se w in
  (w, (if at_undecryptable at'
       then mkBackfillReport (bf_Scanned rep) (bf_Indexed rep) (bf_Untagged rep) (i64 (bf_Undecryptable rep + 1))
       else rep, at_subjects at')).

Definition indexEvent (se : StoredEvent) (rep : BackfillReport) w : SubjectWorld A P Ser X O * BackfillReport * res unit :=
  let rep := mkBackfillReport (i64 (bf_Scanned rep + 1)) (bf_Indexed rep) (bf_Untagged rep) (bf_Undecryptable rep) in
  let '(w, (rep, subjects)) := subjectsOf se rep w in
  match subjects with
  | [] => (w, mkBackfillReport (bf_Scanned rep) (bf_Indexed rep) (i64 (bf_Untagged rep + 1)) (bf_Undecryptable rep), Ok tt)
  | _ =>
      match withOut envs (λ env, writer env (se_StreamID se) subjects) w with
      | (w, Err err) => (w, rep, Err (Wrapf "mink: backfill index stream %q: %w" err))
      | (w, Ok _) =>
          (w, mkBackfillReport (bf_Scanned rep) (i64 (bf_Indexed rep + 1)) (bf_Untagged rep) (bf_Undecryptable rep), Ok tt)
      end
  end.

Fixpoint indexBatch (batch : list StoredEvent) (rep : BackfillReport) w
    : SubjectWorld A P Ser X O * BackfillReport * res unit :=
  match batch with
  | [] => (w, rep, Ok tt)
  | se :: batch =>
      match ctx_Err (here envs w) with
      | Some err => (step w, rep, Err err)
      | None =>
          match indexEvent se rep (step w) with
          | (w, rep, Err err) => (w, rep, Err err)
          | (w, rep, Ok _) => indexBatch batch rep w
          end
      end
  end.

(** The report is returned whatever the outcome. *)
Fixpoint backfillLoop (batchSize : Z) (fuel : nat) (position : Z) (rep : BackfillReport) w
    : SubjectWorld A P Ser X O * BackfillReport * res unit :=
  match fuel with
  | 0%nat => (w, rep, Err Blocked)
  | S fuel =>
      match ctx_Err (here envs w) with
      | Some err => (step w, rep, Err err)
      | None =>
          match readLog envs others (λ env, LoadEventsFromPosition env position batchSize) (step w) with
          | (w, Err err) => (w, rep, Err (Wrapf "mink: backfill scan from %d: %w" err))
          | (w, Ok batch) =>
              match last batch with
              | None => (w, rep, Ok tt)
              | Some lst =>
                  match indexBatch batch rep w with
                  | (w, rep, Err err) => (w, rep, Err err)
                  | (w, rep, Ok _) => backfillLoop batchSize fuel (se_GlobalPosition lst) rep w
                  end
              end
          end
      end
  end.

(** A nil tagger or writer is refused before; here both are given. *)
Definition BackfillSubjectIndexWithReport (fuel : nat) (batchSize : Z) w
    : SubjectWorld A P Ser X O * BackfillReport * res unit :=
  let rep := mkBackfillReport 0 0 0 0 in
  if negb scannable then (w, rep, Err ErrSubscriptionNotSupported)
  else backfillLoop (if batchSize <=? 0 then 1000 else batchSize) fuel 0 rep w.

Definition BackfillSubjectIndex (fuel : nat) (batchSize : Z) w : SubjectWorld A P Ser X O * (Z * res unit) :=
  let '(w, rep, r) := BackfillSubjectIndexWithReport fuel batchSize w in (w, (bf_Scanned rep, r)).
End Backfill.
