(* ===== verification/Eraser.v ===== *)
(** * Erasing a data subject

    [src/eraser.go], [src/eraser_errors.go], [src/subjecterasure.go],
    [src/sideeffects.go] and [src/redaction.go]: finding the keys of a subject's
    events, guarding against keys shared with others, revoking them, reaching the
    stores that hold derived data, and the marker.  Redactors, rebuilders, hooks
    and sibling stores are operations on the application's other systems [O]. *)

From S2P Require Import Prelude.
From S2P Require Import Types.
From S2P Require Import Common.
From S2P Require Import Crypto.
From S2P Require Import LocalProvider.
From S2P Require Import Subject.
From S2P Require Import FieldEncryption.
From S2P Require Import Revocation.
From S2P Require Import MemoryAdmin.
From S2P Require Import EventLog.
From S2P Require Import Versioning.
From S2P Require Import EventStore.
From S2P Require Import SubjectResolver.

(** ** Requests and results *)

Record ErasureRequest := mkErasureRequest {
  rq_SubjectID : string;
  rq_Streams : list string;
  rq_Filter : option (StoredEvent → bool);
  rq_KeyIDs : list string;
  rq_FromTime : option Time;
  rq_ToTime : option Time;
}.

Record SubjectErasureOutcome := mkSubjectErasureOutcome {
  so_Name : string;
  so_Erased : Z;
  so_Skipped : bool;
  so_FootprintAware : bool;
  so_SharedStreamsSkipped : Z;
  so_Err : string;
}.

Record ErasureResult := mkErasureResult {
  er_SubjectID : string;
  er_KeysRevoked : list string;
  er_Streams : list string;
  er_SharedStreams : list string;
  er_EventsScanned : Z;
  er_MarkerWritten : bool;
  er_Partial : bool;
  er_RedactedReadModels : list string;
  er_ResidualReadModels : list string;
  er_SideEffects : list string;
  er_SubjectStores : list SubjectErasureOutcome;
  er_KeysFailed : list string;
  er_CleartextEvents : Z;
  er_Notes : list string;
  er_SubjectIndexPurged : bool;
  er_ErasedAt : Time;
  er_Errors : list error;
  er_attributed : erasureMatches;
}.

Definition Failed (r : ErasureResult) : bool :=
  negb (bool_decide (er_Errors r = [])) || er_Partial r || negb (bool_decide (er_ResidualReadModels r = []))
  || existsb so_Skipped (er_SubjectStores r).

(** Changing some fields of a result. *)
Definition upd_keys (revoked failed : list string) (errs : list error) (partial : bool) (r : ErasureResult) : ErasureResult :=
  mkErasureResult (er_SubjectID r) revoked (er_Streams r) (er_SharedStreams r) (er_EventsScanned r) (er_MarkerWritten r)
    partial (er_RedactedReadModels r) (er_ResidualReadModels r) (er_SideEffects r) (er_SubjectStores r) failed
    (er_CleartextEvents r) (er_Notes r) (er_SubjectIndexPurged r) (er_ErasedAt r) errs (er_attributed r).
Definition upd_models (redacted residual : list string) (errs : list error) (r : ErasureResult) : ErasureResult :=
  mkErasureResult (er_SubjectID r) (er_KeysRevoked r) (er_Streams r) (er_SharedStreams r) (er_EventsScanned r)
    (er_MarkerWritten r) (er_Partial r) redacted residual (er_SideEffects r) (er_SubjectStores r) (er_KeysFailed r)
    (er_CleartextEvents r) (er_Notes r) (er_SubjectIndexPurged r) (er_ErasedAt r) errs (er_attributed r).
Definition upd_stores (outcomes : list SubjectErasureOutcome) (notes : list string) (errs : list error) (r : ErasureResult)
    : ErasureResult :=
  mkErasureResult (er_SubjectID r) (er_KeysRevoked r) (er_Streams r) (er_SharedStreams r) (er_EventsScanned r)
    (er_MarkerWritten r) (er_Partial r) (er_RedactedReadModels r) (er_ResidualReadModels r) (er_SideEffects r) outcomes
    (er_KeysFailed r) (er_CleartextEvents r) notes (er_SubjectIndexPurged r) (er_ErasedAt r) errs (er_attributed r).
Definition upd_end (marker : bool) (effects notes : list string) (purged : bool) (errs : list error) (r : ErasureResult)
    : ErasureResult :=
  mkErasureResult (er_SubjectID r) (er_KeysRevoked r) (er_Streams r) (er_SharedStreams r) (er_EventsScanned r)
    marker (er_Partial r) (er_RedactedReadModels r) (er_ResidualReadModels r) effects (er_SubjectStores r)
    (er_KeysFailed r) (er_CleartextEvents r) notes purged (er_ErasedAt r) errs (er_attributed r).
Definition addError (err : error) (r : ErasureResult) : ErasureResult :=
  upd_end (er_MarkerWritten r) (er_SideEffects r) (er_Notes r) (er_SubjectIndexPurged r) (er_Errors r ++ [err]) r.
Definition addNote (note : string) (r : ErasureResult) : ErasureResult :=
  upd_end (er_MarkerWritten r) (er_SideEffects r) (er_Notes r ++ [note]) (er_SubjectIndexPurged r) (er_Errors r) r.

Record ErasureMarker := mkErasureMarker { em_SubjectID : string; em_ErasedAt : Time; em_KeysRevoked : Z }.
Definition erasureMarkerSubjectKey : string := "$erasure_marker_subject".
Definition erasureMarkerEventType : string := "ErasureMarker".

Record ErasureContext := mkErasureContext { ec_SubjectID : string; ec_Streams : list string; ec_KeysRevoked : list string }.

(** A sibling store; the counter is optional. *)
Record SubjectErasable (O : Type) := mkSubjectErasable {
  ErasableName : string;
  EraseSubject : Env → string → option SubjectFootprint → O → O * (SubjectErasureOutcome * option error);
  CountSubjectResidual : option (Env → string → option SubjectFootprint → op O error Z);
}.
Arguments mkSubjectErasable {O} _ _ _.
Arguments ErasableName {O} _.
Arguments EraseSubject {O} _.
Arguments CountSubjectResidual {O} _.

Definition footprint (subjectID : string) (r : ErasureResult) : SubjectFootprint :=
  mkSubjectFootprint subjectID (er_Streams r) ∅ 0 (er_SharedStreams r) (er_KeysRevoked r) 0 false.

(** ** The certificate *)

Record ErasureCertificate := mkErasureCertificate {
  ct_SubjectID : string;
  ct_VerifiedAt : Time;
  ct_Verified : bool;
  ct_EventsChecked : Z;
  ct_KeysRevoked : Z;
  ct_Partial : bool;
  ct_SideEffects : list string;
  ct_StoresVerified : list string;
  ct_StoresUnchecked : list string;
  ct_Notes : list string;
}.

(** [var cert ErasureCertificate] *)
Definition noCertificate : ErasureCertificate := mkErasureCertificate "" 0 false 0 0 false [] [] [] [].

(** ** The eraser *)

Record DataEraser (O : Type) := mkDataEraser {
  de_batchSize : Z;
  de_markerStream : string;
  de_resolver : option (SubjectResolver O);
  de_redactors : list (string * (Env → string → op O error unit)); (* SubjectRedactable *)
  de_rebuilders : list (string * (Env → op O error unit)); (* ReadModelRebuilder *)
  de_certSink : option (Env → ErasureCertificate → op O error unit);
  de_hooks : list (string * (Env → ErasureContext → op O error unit)); (* ErasureHook *)
  de_sharedKeyGuard : bool;
  de_allowSharedKey : bool;
  de_strictAccountability : bool;
  de_subjectStores : list (SubjectErasable O);
  de_indexPurger : option (Env → string → op O error unit);
}.
Arguments mkDataEraser {O} _ _ _ _ _ _ _ _ _ _ _ _.
Arguments de_batchSize {O} _.
Arguments de_markerStream {O} _.
Arguments de_resolver {O} _.
Arguments de_redactors {O} _.
Arguments de_rebuilders {O} _.
Arguments de_certSink {O} _.
Arguments de_hooks {O} _.
Arguments de_sharedKeyGuard {O} _.
Arguments de_allowSharedKey {O} _.
Arguments de_strictAccountability {O} _.
Arguments de_subjectStores {O} _.
Arguments de_indexPurger {O} _.

(** The cache of marked subjects: [None] before it is loaded and filled. *)
Record MarkerCache := mkMarkerCache { mk_loaded : bool; mk_subjects : gset string }.

(** [json.Unmarshal] of an event's data into an [ErasureMarker]. *)
Class MarkerJSON := markerFromJSON : Bytes → option ErasureMarker.

(** What key discovery has found so far. *)
Record discovery := mkDiscovery {
  ds_scanned : Z;
  ds_cleartext : Z;
  ds_streams : nameSet;
  ds_keys : nameSet;
  ds_attributed : erasureMatches;
}.

(** The callback [Erase] hands to [discoverKeys]. *)
Definition discovered (se : StoredEvent) (d : discovery) : discovery :=
  if negb (HasEncryptionEnvelope (se_Metadata se)) then
    mkDiscovery (i64 (ds_scanned d + 1)) (i64 (ds_cleartext d + 1)) (<[se_StreamID se := tt]> (ds_streams d)) (ds_keys d)
      (ds_attributed d)
  else
    mkDiscovery (i64 (ds_scanned d + 1)) (ds_cleartext d) (<[se_StreamID se := tt]> (ds_streams d))
      (<[GetEncryptionKeyID (se_Metadata se) := tt]> (ds_keys d)) (ds_attributed d).

Definition remember (se : StoredEvent) (d : discovery) : discovery :=
  mkDiscovery (ds_scanned d) (ds_cleartext d) (ds_streams d) (ds_keys d) (erasureMatches_add se (ds_attributed d)).

Definition matches (se : StoredEvent) (req : ErasureRequest) : bool :=
  if match rq_FromTime req with Some from => se_Timestamp se <? from | None => false end then false
  else if match rq_ToTime req with Some to => to <? se_Timestamp se | None => false end then false
  else if match rq_Filter req with Some f => negb (f se) | None => false end then false
  else true.

Record streamKeyTally := mkStreamKeyTally { tl_scoped : bool; tl_matched : bool; tl_untagged : Z; tl_shared : bool }.

Definition tally_note (a : subjectAttribution) (subjectID : string) (t : streamKeyTally) : streamKeyTally :=
  mkStreamKeyTally (tl_scoped t || attributed a) (tl_matched t) (tl_untagged t) (tl_shared t || toOther a subjectID).

Record streamScopeCounts := mkStreamScopeCounts { sc_legacy : Z; sc_mixed : Z; sc_untaggedSkipped : Z }.

Definition scope_add (t : streamKeyTally) (s : streamScopeCounts) : streamScopeCounts :=
  let legacy := if negb (tl_scoped t) then i64 (sc_legacy s + 1) else sc_legacy s in
  if 0 <? tl_untagged t
  then mkStreamScopeCounts legacy (i64 (sc_mixed s + 1)) (i64 (sc_untaggedSkipped s + tl_untagged t))
  else mkStreamScopeCounts legacy (sc_mixed s) (sc_untaggedSkipped s).

(** The notes, and whether the result becomes partial. *)
Definition annotate (s : streamScopeCounts) (notes : list string) (partial : bool) : list string * bool :=
  let notes := if 0 <? sc_legacy s
               then notes ++ ["%d of %d listed stream(s) hold no event attributable to any subject; every key found in them was collected (legacy scope), which also shreds any co-tenant sharing those streams"]
               else notes in
  if 0 <? sc_untaggedSkipped s
  then (notes ++ ["%d untagged event(s) in %d listed stream(s) that also hold subject-attributed events could not be attributed to any subject and were not shredded; keys were collected only from events attributed to the subject"], true)
  else (notes, partial).

Section Eraser.
Context {V Ser A P X O : Type} `{AEAD} `{ProviderOps P} `{!RevocableOps P} `{SerializerOps V Ser} `{SubjectIndexWriter X}
  `{EventLogOps A} `{MapOrder} `{MarkerJSON}.
Context (envs : nat → Env) (others : nat → A → A).
Context (c : EventStore) (scannable : bool) (e : DataEraser O).
Implicit Types w : SubjectWorld A P Ser X O.
Local Abbreviation World := (SubjectWorld A P Ser X O).

Definition tagger : option SubjectTagger :=
  match de_resolver e with Some r => sr_tagger r | None => None end.

Definition validateRequest (req : ErasureRequest) : res unit :=
  returnIf (bool_decide (rq_SubjectID req = "")) ErrErasureSubjectRequired;;
  returnIf (bool_decide (rq_Streams req = []) && bool_decide (rq_Filter req = None) && bool_decide (rq_KeyIDs req = []))
    ErrNoErasureSources.

(** *** Discovery by stream *)

Definition loadErasureStream (subjectID streamID : string) w : World * res (option (list StoredEvent)) :=
  match readLog envs others (λ env, LoadRaw env streamID 0) w with
  | (w, Ok stored) => (w, Ok (Some stored))
  | (w, Err err) =>
      (w, if errors_Is err ErrStreamNotFound then Ok None
          else Err (ErasureError subjectID (Wrapf "failed to load stream %q: %w" err)))
  end.

Fixpoint attributeStream (stored : list StoredEvent) (subjectID : string) (t : streamKeyTally) w
    : World * (streamKeyTally * list subjectAttribution) :=
  match stored with
  | [] => (w, (t, []))
  | se :: stored =>
      let '(w, a) := attribute envs c tagger se w in
      let '(w, (t, ats)) := attributeStream stored subjectID (tally_note a subjectID t) w in (w, (t, a :: ats))
  end.

(** The matched events of a stream, given their attributions. *)
Fixpoint collectMatched (req : ErasureRequest) (events : list (StoredEvent * subjectAttribution)) (t : streamKeyTally)
    (d : discovery) : streamKeyTally * discovery :=
  match events with
  | [] => (t, d)
  | (se, a) :: events =>
      let took t d := collectMatched req events (mkStreamKeyTally (tl_scoped t) true (tl_untagged t) (tl_shared t)) (discovered se d) in
      if negb (matches se req) then collectMatched req events t d
      else if tl_scoped t then
        if attributedTo a (rq_SubjectID req) then took t (remember se d)
        else if negb (attributed a)
        then collectMatched req events (mkStreamKeyTally (tl_scoped t) (tl_matched t) (i64 (tl_untagged t + 1)) (tl_shared t)) d
        else collectMatched req events t d
      else took t d
  end.

Definition collectStreamKeys (stored : list StoredEvent) (req : ErasureRequest) (d : discovery) w
    : World * (streamKeyTally * discovery) :=
  let '(w, (t, ats)) := attributeStream stored (rq_SubjectID req) (mkStreamKeyTally false false 0 false) w in
  (w, collectMatched req (zip stored ats) t d).

Fixpoint discoverListed (req : ErasureRequest) (streams : list string) (scope : streamScopeCounts) (shared : nameSet)
    (d : discovery) w : World * res (streamScopeCounts * nameSet * discovery) :=
  match streams with
  | [] => (w, Ok (scope, shared, d))
  | streamID :: streams =>
      match ctx_Err (here envs w) with
      | Some err => (step w, Err err)
      | None =>
          match loadErasureStream (rq_SubjectID req) streamID (step w) with
          | (w, Err err) => (w, Err err)
          | (w, Ok None) => discoverListed req streams scope shared d w
          | (w, Ok (Some stored)) =>
              let '(w, (t, d)) := collectStreamKeys stored req d w in
              discoverListed req streams (scope_add t scope)
                (if tl_matched t && tl_shared t then <[streamID := tt]> shared else shared) d w
          end
      end
  end.

(** *** Discovery by scan *)

(** The matched events of a batch; attribution decides only what is attested. *)
Fixpoint collectScanKeys (req : ErasureRequest) (batch : list StoredEvent) (acc : nameSet * discovery) w
    : World * (nameSet * discovery) :=
  match batch with
  | [] => (w, acc)
  | se :: batch =>
      let '(matched, d) := acc in
      if negb (matches se req) then collectScanKeys req batch (matched, d) w
      else
        let matched := <[se_StreamID se := tt]> matched in
        match ds_attributed d with
        | None => collectScanKeys req batch (matched, discovered se d) w
        | Some _ =>
            let '(w, a) := attribute envs c tagger se w in
            collectScanKeys req batch
              (matched, discovered se (if attributedTo a (rq_SubjectID req) then remember se d else d)) w
        end
  end.

Fixpoint sharedStreamsOf (subjectID : string) (streams : list string) (shared : nameSet) w : World * res (list string) :=
  match streams with
  | [] => (w, Ok (sortedSet shared))
  | streamID :: streams =>
      match ctx_Err (here envs w) with
      | Some err => (step w, Err err)
      | None =>
          match readLog envs others (λ env, LoadRaw env streamID 0) (step w) with
          | (w, Err err) =>
              if errors_Is err ErrStreamNotFound then sharedStreamsOf subjectID streams shared w
              else (w, Err (ErasureError subjectID (Wrapf "failed to load stream %q: %w" err)))
          | (w, Ok stored) =>
              let '(w, others) := streamSharedWithOthers envs c tagger stored subjectID w in
              sharedStreamsOf subjectID streams (if others then <[streamID := tt]> shared else shared) w
          end
      end
  end.

(** The discovery, the shared streams, the notes and whether it is partial. *)
Definition discoverKeys (fuel : nat) (req : ErasureRequest) (d : discovery) w
    : World * res (discovery * list string * (list string * bool)) :=
  if negb (bool_decide (rq_Streams req = [])) then
    match discoverListed req (rq_Streams req) (mkStreamScopeCounts 0 0 0) ∅ d w with
    | (w, Err err) => (w, Err err)
    | (w, Ok (scope, shared, d)) => (w, Ok (d, sortedSet shared, annotate scope [] false))
    end
  else if negb scannable then (w, Err (ErasureError (rq_SubjectID req) ErrErasureScanNotSupported))
  else
    match scanLoop envs others (λ err, ErasureError (rq_SubjectID req) (Wrapf "failed to scan events from position %d: %w" err))
            (de_batchSize e) (λ batch acc w, let '(w, acc) := collectScanKeys req batch acc w in (w, Ok acc))
            fuel 0 (∅, d) w with
    | (w, Err err) => (w, Err err)
    | (w, Ok (matched, d)) =>
        match sharedStreamsOf (rq_SubjectID req) (range matched).*1 ∅ w with
        | (w, Err err) => (w, Err err)
        | (w, Ok shared) => (w, Ok (d, shared, ([], false)))
        end
    end.

(** *** The shared-key guard *)

(** The keys found shared, and the other subjects found under them. *)
Fixpoint sharedInBatch (target : string) (keySet : nameSet) (batch : list StoredEvent) (acc : nameSet * nameSet) w
    : World * (nameSet * nameSet) :=
  match batch with
  | [] => (w, acc)
  | se :: batch =>
      let '(shared, others) := acc in
      let keyID := GetEncryptionKeyID (se_Metadata se) in
      if negb (HasEncryptionEnvelope (se_Metadata se)) then sharedInBatch target keySet batch acc w
      else if bool_decide (keySet !! keyID = None) then sharedInBatch target keySet batch acc w
      else
        let '(w, a) := attribute envs c tagger se w in
        let exclusive := attributed a && negb (toOther a target) in
        sharedInBatch target keySet batch
          (if exclusive then shared else <[keyID := tt]> shared,
           foldl (λ others s, if bool_decide (s = target) then others else <[s := tt]> others) others (at_subjects a)) w
  end.

(** The [SharedKeyError], or nil. *)
Definition detectSharedKeys (fuel : nat) (target : string) (keySet : nameSet) w : World * res (option error) :=
  if negb scannable
  then (w, Err (ErasureError target (Wrapf "shared-key guard needs event scanning: %w" ErrErasureScanNotSupported)))
  else
    match scanLoop envs others (λ err, ErasureError target (Wrapf "shared-key scan from %d: %w" err)) (de_batchSize e)
            (λ batch acc w, let '(w, acc) := sharedInBatch target keySet batch acc w in (w, Ok acc)) fuel 0 (∅, ∅) w with
    | (w, Err err) => (w, Err err)
    | (w, Ok (shared, others)) =>
        (w, Ok (if bool_decide (size shared = 0%nat) then None
                else Some (SharedKeyError target (sortedSet shared) (sampleSet others 10) (Z.of_nat (size others)))))
    end.

(** *** Revocation *)

(** Each key in turn: the keys revoked, those that failed, and the errors; an
    unsupported provider stops it. *)
Fixpoint revokeKeys (cfg : FieldEncryptionConfig) (fmt : string) (keys : list string) (revoked failed : list string) (errs : list error) w
    : World * res (list string * list string * list error) :=
  match keys with
  | [] => (w, Ok (revoked, failed, errs))
  | keyID :: keys =>
      match withProvider envs (λ _, cfgRevokeKey cfg keyID) w with
      | (w, Ok _) => revokeKeys cfg fmt keys (revoked ++ [keyID]) failed errs w
      | (w, Err err) =>
          if errors_Is err ErrRevocationUnsupported then (w, Err err)
          else revokeKeys cfg fmt keys revoked (failed ++ [keyID]) (errs ++ [Wrapf fmt err]) w
      end
  end.

(** The late keys of [reconcileAfterRevoke]: every failure is recorded. *)
Fixpoint revokeLate (cfg : FieldEncryptionConfig) (keys : list string) (r : ErasureResult) w : World * ErasureResult :=
  match keys with
  | [] => (w, r)
  | keyID :: keys =>
      match withProvider envs (λ _, cfgRevokeKey cfg keyID) w with
      | (w, Ok _) => revokeLate cfg keys (upd_keys (er_KeysRevoked r ++ [keyID]) (er_KeysFailed r) (er_Errors r) (er_Partial r) r) w
      | (w, Err err) =>
          revokeLate cfg keys (upd_keys (er_KeysRevoked r) (er_KeysFailed r ++ [keyID])
            (er_Errors r ++ [Wrapf "revoke late key %q: %w" err]) (er_Partial r) r) w
      end
  end.

Definition reconcileAfterRevoke (cfg : FieldEncryptionConfig) (fuel : nat) (resolver : SubjectResolver O) (subjectID : string) (keySet : nameSet)
    (r : ErasureResult) w : World * ErasureResult :=
  match Resolve envs others c scannable fuel resolver subjectID w with
  | (w, Err err) => (w, addError (Wrapf "post-revoke re-resolve: %w" err) r)
  | (w, Ok fp) =>
      let newKeys := filter (λ k, keySet !! k = None) (fp_KeyIDs fp) in
      if bool_decide (newKeys = []) then (w, r)
      else
        let '(w, guarded) :=
          if de_sharedKeyGuard e && negb (de_allowSharedKey e) then
            let '(w, g) := detectSharedKeys fuel subjectID (addNames newKeys ∅) w in
            (w, match g with
                | Err err => Some (Wrapf "post-revoke shared-key check: %w" err)
                | Ok serr => serr
                end)
          else (w, None) in
        match guarded with
        | Some err => (w, upd_keys (er_KeysRevoked r) (er_KeysFailed r) (er_Errors r ++ [err]) true r)
        | None =>
            let '(w, r) := revokeLate cfg newKeys r w in
            (w, upd_keys (sortStrings (er_KeysRevoked r)) (sortStrings (er_KeysFailed r))
                  (er_Errors r ++ [Errorf "subject %q had events appended during erasure under new key(s) %v; revoked them but marking Partial — re-run after quiescing the subject's writes"])
                  true r)
        end
  end.

(** *** Derived data *)

Fixpoint redactAll (redactors : list (string * (Env → string → op O error unit))) (subjectID : string)
    (r : ErasureResult) w : World * ErasureResult :=
  match redactors with
  | [] => (w, r)
  | (name, redact) :: redactors =>
      match withOut envs (λ env, redact env subjectID) w with
      | (w, Ok _) =>
          redactAll redactors subjectID (upd_models (er_RedactedReadModels r ++ [name]) (er_ResidualReadModels r) (er_Errors r) r) w
      | (w, Err err) =>
          redactAll redactors subjectID
            (upd_models (er_RedactedReadModels r) (er_ResidualReadModels r ++ [name])
               (er_Errors r ++ [Wrapf "redact read model %q: %w" err]) r) w
      end
  end.

Fixpoint rebuildAll (rebuilders : list (string * (Env → op O error unit))) (r : ErasureResult) w : World * ErasureResult :=
  match rebuilders with
  | [] => (w, r)
  | (name, rebuild) :: rebuilders =>
      match withOut envs rebuild w with
      | (w, Ok _) =>
          rebuildAll rebuilders (upd_models (er_RedactedReadModels r ++ [name]) (er_ResidualReadModels r) (er_Errors r) r) w
      | (w, Err err) =>
          rebuildAll rebuilders
            (upd_models (er_RedactedReadModels r) (er_ResidualReadModels r ++ [name])
               (er_Errors r ++ [Wrapf "rebuild read model %q: %w" err]) r) w
      end
  end.

Definition redactReadModels (subjectID : string) (r : ErasureResult) w : World * ErasureResult :=
  let '(w, r) := redactAll (de_redactors e) subjectID r w in rebuildAll (de_rebuilders e) r w.

Fixpoint eraseStores (stores : list (SubjectErasable O)) (subjectID : string) (fp : SubjectFootprint)
    (skippedShared : list string) (r : ErasureResult) w : World * (list string * ErasureResult) :=
  match stores with
  | [] => (w, (skippedShared, r))
  | s :: stores =>
      let '(w, (outcome, err)) := withOut envs (λ env, EraseSubject s env subjectID (Some fp)) w in
      let name := if bool_decide (so_Name outcome = "") then ErasableName s else so_Name outcome in
      let outcome := mkSubjectErasureOutcome name (so_Erased outcome) (so_Skipped outcome) (so_FootprintAware outcome)
                       (so_SharedStreamsSkipped outcome)
                       (match err with Some _ => "error" | None => so_Err outcome end) in
      let errs := match err with Some err => er_Errors r ++ [Wrapf "subject store %q: %w" err] | None => er_Errors r end in
      eraseStores stores subjectID fp
        (if 0 <? so_SharedStreamsSkipped outcome then skippedShared ++ [name] else skippedShared)
        (upd_stores (er_SubjectStores r ++ [outcome]) (er_Notes r) errs r) w
  end.

Definition eraseSubjectStores (subjectID : string) (r : ErasureResult) w : World * ErasureResult :=
  match de_subjectStores e with
  | [] => (w, r)
  | stores =>
      let '(w, (skippedShared, r)) := eraseStores stores subjectID (footprint subjectID r) [] r w in
      (w, if negb (bool_decide (skippedShared = []))
          then addNote "%d of %d footprint stream(s) are shared with other subjects; sibling store(s) %v purged only the subject id and the exclusive streams, so rows for the subject on the shared streams may remain" r
          else r)
  end.

Fixpoint runHooks (hooks : list (string * (Env → ErasureContext → op O error unit))) (ec : ErasureContext)
    (r : ErasureResult) w : World * ErasureResult :=
  match hooks with
  | [] => (w, r)
  | (name, run) :: hooks =>
      match withOut envs (λ env, run env ec) w with
      | (w, Ok _) =>
          runHooks hooks ec (upd_end (er_MarkerWritten r) (er_SideEffects r ++ [name]) (er_Notes r) (er_SubjectIndexPurged r) (er_Errors r) r) w
      | (w, Err err) => runHooks hooks ec (addError (Wrapf "erasure hook %q: %w" err) r) w
      end
  end.

Definition runErasureHooks (subjectID : string) (r : ErasureResult) w : World * ErasureResult :=
  runHooks (de_hooks e) (mkErasureContext subjectID (er_Streams r) (er_KeysRevoked r)) r w.

(** *** The marker *)

Definition markerSubject (se : StoredEvent) : option string :=
  if negb (bool_decide (se_Type se = erasureMarkerEventType)) then None
  else
    let s := default "" (custom_lookup (se_Metadata se) erasureMarkerSubjectKey) in
    if negb (bool_decide (s = "")) then Some s
    else
      match markerFromJSON (se_Data se) with
      | Some m => if bool_decide (em_SubjectID m = "") then None else Some (em_SubjectID m)
      | None => None
      end.

Definition markerExists (subjectID : string) (cache : MarkerCache) w : World * MarkerCache * bool :=
  let '(w, cache, ok) :=
    if mk_loaded cache then (w, cache, true)
    else
      match readLog envs others (λ env, LoadRaw env (de_markerStream e) 0) w with
      | (w, Err _) => (w, cache, false)
      | (w, Ok stored) => (w, mkMarkerCache true (list_to_set (omap markerSubject stored)), true)
      end in
  (w, cache, ok && bool_decide (subjectID ∈ mk_subjects cache)).

(** [mkMarker] is the event the serializer knows a marker as. *)
Definition appendMarker (mkMarker : ErasureMarker → V) (senv : StoreEnv) (subjectID : string) (r : ErasureResult)
    (cache : MarkerCache) w : World * MarkerCache * res unit :=
  match markerExists subjectID cache w with
  | (w, cache, true) => (w, cache, Ok tt)
  | (w, cache, false) =>
      let marker := mkErasureMarker subjectID (er_ErasedAt r) (Z.of_nat (length (er_KeysRevoked r))) in
      let md := mkMetadata "" "" "" "" (Some {[ erasureMarkerSubjectKey := subjectID ]}) in
      let st := set_adapter (sw_store w) (others (sw_calls w) (st_adapter (sw_store w))) in
      match Append c senv (de_markerStream e) [mkMarker marker] (mkAppendConfig md AnyVersion false) st with
      | (st, Err err) => (mkSubjectWorld st (sw_out w) (Datatypes.S (sw_calls w)), cache, Err err)
      | (st, Ok _) =>
          (mkSubjectWorld st (sw_out w) (Datatypes.S (sw_calls w)),
           mkMarkerCache (mk_loaded cache) ({[ subjectID ]} ∪ mk_subjects cache), Ok tt)
      end
  end.
End Eraser.
