(* ===== verification/Verification.v ===== *)
(** * Verifying an erasure

    [src/verify.go]: whether a subject's events are unrecoverable and the sibling
    stores clean, and the certificate an erasure is attested by.  A note is kept
    as its format string. *)

From S2P Require Import Prelude.
From S2P Require Import Strconv.
From S2P Require Import Types.
From S2P Require Import Common.
From S2P Require Import Crypto.
From S2P Require Import LocalProvider.
From S2P Require Import Subject.
From S2P Require Import FieldEncryption.
From S2P Require Import Revocation.
From S2P Require Import MemoryAdmin.
From S2P Require Import EventLog.
From S2P Require Import EventStore.
From S2P Require Import SubjectResolver.
From S2P Require Import Eraser.

(** ** The report *)

Record VerificationReport := mkVerificationReport {
  vr_SubjectID : string;
  vr_Verified : bool;
  vr_EventsChecked : Z;
  vr_RedactedEvents : Z;
  vr_Vacuous : bool;
  vr_UnattributedRecoverable : list string;
  vr_UnattributedRedacted : list string;
  vr_ResidualEncrypted : list string;
  vr_ResidualRecoverable : list string;
  vr_ResidualCleartext : list string;
  vr_ResidualStores : list (string * Z);
  vr_UncheckedStores : list string;
  vr_Notes : list string;
  vr_Partial : bool;
}.

Definition newReport (subjectID : string) (partial : bool) : VerificationReport :=
  mkVerificationReport subjectID false 0 0 false [] [] [] [] [] [] [] [] partial.

(** Changing the verdict, and the stores. *)
Definition upd_verdict (verified vacuous : bool) (notes : list string) (r : VerificationReport) : VerificationReport :=
  mkVerificationReport (vr_SubjectID r) verified (vr_EventsChecked r) (vr_RedactedEvents r) vacuous
    (vr_UnattributedRecoverable r) (vr_UnattributedRedacted r) (vr_ResidualEncrypted r) (vr_ResidualRecoverable r)
    (vr_ResidualCleartext r) (vr_ResidualStores r) (vr_UncheckedStores r) notes (vr_Partial r).
Definition upd_counted (residual : list (string * Z)) (unchecked : list string) (r : VerificationReport) : VerificationReport :=
  mkVerificationReport (vr_SubjectID r) (vr_Verified r) (vr_EventsChecked r) (vr_RedactedEvents r) (vr_Vacuous r)
    (vr_UnattributedRecoverable r) (vr_UnattributedRedacted r) (vr_ResidualEncrypted r) (vr_ResidualRecoverable r)
    (vr_ResidualCleartext r) residual unchecked (vr_Notes r) (vr_Partial r).

Definition clean (r : VerificationReport) : bool :=
  bool_decide (vr_ResidualEncrypted r = []) && bool_decide (vr_ResidualRecoverable r = [])
  && bool_decide (vr_ResidualCleartext r = []) && bool_decide (vr_ResidualStores r = []) && negb (vr_Partial r).

(** How one of the subject's events is classified: the key's state, or [None]
    for an event without a complete envelope. *)
Definition checked (ref : string) (state : option RevocationState) (r : VerificationReport) : VerificationReport :=
  mkVerificationReport (vr_SubjectID r) (vr_Verified r) (i64 (vr_EventsChecked r + 1))
    (match state with Some Revoked => i64 (vr_RedactedEvents r + 1) | _ => vr_RedactedEvents r end) (vr_Vacuous r)
    (vr_UnattributedRecoverable r) (vr_UnattributedRedacted r)
    (match state with Some NotRevoked => vr_ResidualEncrypted r ++ [ref] | _ => vr_ResidualEncrypted r end)
    (match state with Some SoftRevoked => vr_ResidualRecoverable r ++ [ref] | _ => vr_ResidualRecoverable r end)
    (match state with None => vr_ResidualCleartext r ++ [ref] | _ => vr_ResidualCleartext r end)
    (vr_ResidualStores r) (vr_UncheckedStores r) (vr_Notes r) (vr_Partial r).

Definition unattributedAs (ref : string) (redacted : bool) (r : VerificationReport) : VerificationReport :=
  mkVerificationReport (vr_SubjectID r) (vr_Verified r) (vr_EventsChecked r) (vr_RedactedEvents r) (vr_Vacuous r)
    (if redacted then vr_UnattributedRecoverable r else vr_UnattributedRecoverable r ++ [ref])
    (if redacted then vr_UnattributedRedacted r ++ [ref] else vr_UnattributedRedacted r)
    (vr_ResidualEncrypted r) (vr_ResidualRecoverable r) (vr_ResidualCleartext r)
    (vr_ResidualStores r) (vr_UncheckedStores r) (vr_Notes r) (if redacted then vr_Partial r else true).

Definition vacuousVerifyNote : string :=
  "no events attributed to the subject were resolved; nothing was checked, so the report cannot attest that the subject's events are unrecoverable (a purged subject index resolves an empty footprint: re-verify with a scan-backed resolver or after BackfillSubjectIndex; an untagged event whose subject the tagger derived can no longer be attributed once its key is revoked: the certificate emitted by Erase, which verifies the events matched before revoking, is the attestation for it)".
Definition sharedStreamsCountNote : string :=
  "%d of %d footprint stream(s) are shared with other subjects; sibling-store residual counts cover only the subject id and the exclusive streams".
Definition cleartextNote : string :=
  "%d subject event(s) are not field-encrypted and cannot be crypto-shredded; their PII remains readable".
Definition unattributedNote : string :=
  "%d event(s) in the subject's streams could not be attributed to any subject and were not checked as the subject's: %d still readable or recoverable (possibly the subject's own, so completeness cannot be proven), %d permanently crypto-shredded (no recoverable PII)".

Definition noteIf (b : bool) (note : string) : list string := if b then [note] else [].

Definition residualNotes (rep : VerificationReport) : list string :=
  noteIf (negb (bool_decide (vr_ResidualRecoverable rep = [])))
    "%d event(s) remain recoverable: their key is only soft-revoked and can still be restored within its grace window"
  ++ noteIf (negb (bool_decide (vr_UnattributedRecoverable rep = [])) || negb (bool_decide (vr_UnattributedRedacted rep = [])))
    unattributedNote
  ++ ((λ _, "sibling store %q still holds %d row(s) attributable to the subject") <$> vr_ResidualStores rep)
  ++ noteIf (negb (bool_decide (vr_UncheckedStores rep = [])))
    "%d sibling store(s) could not be counted and are not attested: %v".

(** ** The certificate draft *)

(** A draft is the certificate with the running verdict in [ct_Verified]. *)
Definition certificateDraft : Type := ErasureCertificate.

Definition block (note : string) (d : certificateDraft) : certificateDraft :=
  mkErasureCertificate (ct_SubjectID d) (ct_VerifiedAt d) false (ct_EventsChecked d) (ct_KeysRevoked d) (ct_Partial d)
    (ct_SideEffects d) (ct_StoresVerified d) (ct_StoresUnchecked d) (ct_Notes d ++ [note]).
Definition note (note : string) (d : certificateDraft) : certificateDraft :=
  mkErasureCertificate (ct_SubjectID d) (ct_VerifiedAt d) (ct_Verified d) (ct_EventsChecked d) (ct_KeysRevoked d)
    (ct_Partial d) (ct_SideEffects d) (ct_StoresVerified d) (ct_StoresUnchecked d) (ct_Notes d ++ [note]).
Definition notes (ns : list string) (d : certificateDraft) : certificateDraft := foldl (λ d n, note n d) d ns.
(** What [attestEvidence] records. *)
Definition withEvidence (partial clean : bool) (eventsChecked : Z) (stores unchecked : list string) (d : certificateDraft)
    : certificateDraft :=
  mkErasureCertificate (ct_SubjectID d) (ct_VerifiedAt d) (ct_Verified d && clean) eventsChecked (ct_KeysRevoked d)
    (ct_Partial d || partial) (ct_SideEffects d) stores unchecked (ct_Notes d).

Definition attestableStores (storesVerified : list string) (outcomes : list SubjectErasureOutcome) : list string :=
  let skippedShared := so_Name <$> filter (λ ss, 0 < so_SharedStreamsSkipped ss) outcomes in
  match skippedShared with
  | [] => storesVerified
  | _ => filter (λ name, name ∉ skippedShared) storesVerified
  end.

Definition gateVacuous (eventsChecked : Z) (result : ErasureResult) (d : certificateDraft) : certificateDraft :=
  if 0 <? eventsChecked then d
  else if negb (bool_decide (er_KeysRevoked result = [])) || negb (bool_decide (er_KeysFailed result = []))
          || negb (bool_decide (er_Streams result = []))
  then block "no events attributed to the subject could be verified: the erasure was scoped by key ids, explicit streams or unattributable events, so the certificate cannot attest that the subject's events are unrecoverable" d
  else note "nothing to erase: the subject has no resolved streams or keys" d.

Definition gateKeyOutcome (result : ErasureResult) (d : certificateDraft) : certificateDraft :=
  let d := if negb (bool_decide (er_KeysFailed result = []))
           then block "%d key(s) failed to revoke; data under them remains recoverable" d else d in
  let d := if 0 <? er_CleartextEvents result then note cleartextNote d else d in
  notes (er_Notes result) d.

Definition gateSubjectStore (ss : SubjectErasureOutcome) (d : certificateDraft) : certificateDraft :=
  if negb (bool_decide (so_Err ss = "")) || so_Skipped ss
  then block "sibling store %q was not erased (failed or skipped)" d
  else if 0 <? so_SharedStreamsSkipped ss
  then block "sibling store %q left %d footprint stream(s) shared with other subjects untouched; rows for the subject on those streams may remain and are not attested" d
  else d.
Definition gateSubjectStores (outcomes : list SubjectErasureOutcome) (d : certificateDraft) : certificateDraft :=
  foldl (λ d ss, gateSubjectStore ss d) d outcomes.

(** ** Checking events and stores *)

Section Verification.
Context {Ser A P X O : Type} `{AEAD} `{ProviderOps P} `{!RevocableOps P} `{EventLogOps A} `{MapOrder}.
Context (envs : nat → Env) (others : nat → A → A).
Context (c : EventStore) (scannable : bool) (e : DataEraser O).
Implicit Types w : SubjectWorld A P Ser X O.
Local Abbreviation World := (SubjectWorld A P Ser X O).

(** [revocationState]; without a configuration every key is live. *)
Definition revocationState (m : Metadata) w : World * RevocationState :=
  match es_encryption c with
  | None => (w, NotRevoked)
  | Some cfg =>
      match withProvider envs (λ env, cfgRevocationState cfg (time_Now env 0) (GetEncryptionKeyID m)) w with
      | (w, Ok state) => (w, state)
      | (w, Err _) => (w, NotRevoked)
      end
  end.

Definition recordChecked (ref : string) (m : Metadata) (rep : VerificationReport) w : World * VerificationReport :=
  if negb (HasEncryptionEnvelope m) then (w, checked ref None rep)
  else let '(w, state) := revocationState m w in (w, checked ref (Some state) rep).

Definition recordUnattributed (ref : string) (m : Metadata) (rep : VerificationReport) w : World * VerificationReport :=
  if negb (HasEncryptionEnvelope m) then (w, unattributedAs ref false rep)
  else
    let '(w, state) := revocationState m w in
    (w, unattributedAs ref (match state with Revoked => true | _ => false end) rep).

Definition ownsEvent (subjectID : string) (memo : erasureMatches) (se : StoredEvent) (ref : string)
    (rep : VerificationReport) w : World * (bool * VerificationReport) :=
  if erasureMatches_has memo se then (w, (true, rep))
  else
    let '(w, a) := attribute envs c (tagger e) se w in
    if attributedTo a subjectID then (w, (true, rep))
    else if negb (attributed a) then let '(w, rep) := recordUnattributed ref (se_Metadata se) rep w in (w, (false, rep))
    else (w, (false, rep)).

Fixpoint verifyStream (subjectID : string) (memo : erasureMatches) (stored : list StoredEvent)
    (rep : VerificationReport) w : World * VerificationReport :=
  match stored with
  | [] => (w, rep)
  | se :: stored =>
      let ref := String.append (se_StreamID se) (String.append "@" (Itoa (se_Version se))) in
      let '(w, (owns, rep)) := ownsEvent subjectID memo se ref rep w in
      let '(w, rep) := if owns : bool then recordChecked ref (se_Metadata se) rep w else (w, rep) in
      verifyStream subjectID memo stored rep w
  end.

(** The report keeps what was recorded before a stream failed to load. *)
Fixpoint verifyStreams (subjectID : string) (streams : list string) (memo : erasureMatches) (rep : VerificationReport) w
    : World * VerificationReport * res unit :=
  match streams with
  | [] => (w, rep, Ok tt)
  | streamID :: streams =>
      match readLog envs others (λ env, LoadRaw env streamID 0) w with
      | (w, Err err) =>
          if errors_Is err ErrStreamNotFound then verifyStreams subjectID streams memo rep w
          else (w, rep, Err (ErasureError subjectID (Wrapf "load stream %q: %w" err)))
      | (w, Ok stored) =>
          let '(w, rep) := verifyStream subjectID memo stored rep w in
          verifyStreams subjectID streams memo rep w
      end
  end.

(** The stores proven clean, and the first error. *)
Fixpoint countSubjectResiduals (stores : list (SubjectErasable O)) (subjectID : string) (fp : SubjectFootprint)
    (verified : list string) (rep : VerificationReport) w : World * VerificationReport * (list string * option error) :=
  match stores with
  | [] => (w, rep, (verified, None))
  | s :: stores =>
      let name := ErasableName s in
      let unchecked w :=
        countSubjectResiduals stores subjectID fp verified
          (upd_counted (vr_ResidualStores rep) (vr_UncheckedStores rep ++ [name]) rep) w in
      match CountSubjectResidual s with
      | None => unchecked w
      | Some count =>
          match withOut envs (λ env, count env subjectID (Some fp)) w with
          | (w, Err err) =>
              if errors_Is err ErrResidualCountUnsupported then unchecked w
              else (w, rep, (verified, Some (Wrapf "count residual rows in subject store %q: %w" err)))
          | (w, Ok n) =>
              if 0 <? n
              then countSubjectResiduals stores subjectID fp verified
                     (upd_counted (vr_ResidualStores rep ++ [(name, n)]) (vr_UncheckedStores rep) rep) w
              else countSubjectResiduals stores subjectID fp (verified ++ [name]) rep w
          end
      end
  end.

Definition Verify (fuel : nat) (subjectID : string) w : World * res VerificationReport :=
  if bool_decide (subjectID = "") then (w, Err ErrErasureSubjectRequired)
  else
    match de_resolver e with
    | None => (w, Err (ErasureError subjectID (Errorf "Verify requires a subject resolver (WithEraseSubjectResolver)")))
    | Some resolver =>
        match Resolve envs others c scannable fuel resolver subjectID w with
        | (w, Err err) => (w, Err (ErasureError subjectID err))
        | (w, Ok fp) =>
            match verifyStreams subjectID (fp_Streams fp) None (newReport subjectID (fp_Partial fp)) w with
            | (w, _, Err err) => (w, Err err)
            | (w, rep, Ok _) =>
                match countSubjectResiduals (de_subjectStores e) subjectID fp [] rep w with
                | (w, _, (_, Some err)) => (w, Err (ErasureError subjectID err))
                | (w, rep, (counted, None)) =>
                    let ns := noteIf (negb (bool_decide (vr_ResidualCleartext rep = []))) cleartextNote ++ residualNotes rep
                              ++ noteIf (negb (bool_decide (fp_SharedStreams fp = []))
                                         && (negb (bool_decide (counted = [])) || negb (bool_decide (vr_ResidualStores rep = []))))
                                   sharedStreamsCountNote in
                    (w, Ok (if vr_EventsChecked rep =? 0 then upd_verdict false true (ns ++ [vacuousVerifyNote]) rep
                            else upd_verdict (clean rep) false ns rep))
                end
            end
        end
    end.

(** ** Certificates *)

Definition attestEvidence (subjectID : string) (result : ErasureResult) (d : certificateDraft) w
    : World * (ErasureResult * certificateDraft * VerificationReport) :=
  let '(w, vr, res) := verifyStreams subjectID (er_Streams result) (er_attributed result)
                         (newReport subjectID (er_Partial result)) w in
  let '(result, d) :=
    match res with
    | Ok _ => (result, d)
    | Err err => (addError (Wrapf "certificate event verification: %w" err) result,
                  block "event verification could not be completed; the events are not attested" d)
    end in
  let eventsPartial := vr_Partial vr in
  let '(w, vr, (storesVerified, cerr)) := countSubjectResiduals (de_subjectStores e) subjectID (footprint subjectID result) [] vr w in
  let '(result, d) :=
    match cerr with
    | None => (result, d)
    | Some err => (addError (Wrapf "certificate residual count: %w" err) result,
                   block "sibling-store residual count failed; the sibling stores are not attested" d)
    end in
  let d := withEvidence eventsPartial (clean vr) (vr_EventsChecked vr)
             (attestableStores storesVerified (er_SubjectStores result)) (vr_UncheckedStores vr) d in
  (w, (result, notes (residualNotes vr) d, vr)).

Definition buildCertificate (subjectID : string) (result : ErasureResult) w : World * (ErasureResult * ErasureCertificate) :=
  let d := mkErasureCertificate subjectID (time_Now (here envs w) 0) true 0 (Z.of_nat (length (er_KeysRevoked result)))
             (er_Partial result) (er_SideEffects result) [] [] [] in
  let '(w, (result, d, vr)) := attestEvidence subjectID result d (step w) in
  let d := gateVacuous (vr_EventsChecked vr) result d in
  let d := gateKeyOutcome result d in
  let d := if negb (bool_decide (de_markerStream e = "")) && negb (er_MarkerWritten result)
           then block "the erasure marker was not written; no durable erasure record exists" d else d in
  let d := gateSubjectStores (er_SubjectStores result) d in
  let d := if negb (bool_decide (er_ResidualReadModels result = [])) then block "%d read model(s) could not be redacted" d else d in
  (w, (result, d)).

Definition emitCertificate (sink : Env → ErasureCertificate → op O error unit) (subjectID : string)
    (result : ErasureResult) w : World * (ErasureResult * ErasureCertificate * option error) :=
  let '(w, (result, cert)) := buildCertificate subjectID result w in
  match withOut envs (λ env, sink env cert) w with
  | (w, Err err) => (w, (addError (Wrapf "certificate sink: %w" err) result, cert, Some err))
  | (w, Ok _) => (w, (result, cert, None))
  end.
End Verification.
