(* ===== verification/Erasure.v ===== *)
(** * The erasure of a data subject

    [DataEraser.Erase] of [src/eraser.go]: resolve or discover, guard, revoke,
    reconcile, reach the derived data, write the marker, verify, purge the
    index.  The code returns the result only; the certificate it verified the
    erasure with, a local of [Erase], is returned beside it. *)

From S2P Require Import Prelude.
From S2P Require Import Types.
From S2P Require Import Common.
From S2P Require Import Crypto.
From S2P Require Import LocalProvider.
From S2P Require Import Subject.
From S2P Require Import FieldEncryption.
From S2P Require Import Revocation.
From S2P Require Import MemoryAdmin.
From S2P Require Import EventLog.
From S2P Require Import Versioning.
From S2P Require Import EventStore.
From S2P Require Import SubjectResolver.
From S2P Require Import Eraser.
From S2P Require Import Verification.

(** What is known before the keys are revoked. *)
Record erasureScope := mkErasureScope {
  es_scanned : Z;
  es_cleartext : Z;
  es_streamSet : nameSet;
  es_keySet : nameSet;
  es_shared : list string;
  es_attributed : erasureMatches;
  es_notes : list string;
  es_partial : bool;
  es_resolved : bool;
}.

Section Erase.
Context {V Ser A P X O : Type} `{AEAD} `{ProviderOps P} `{!RevocableOps P} `{SerializerOps V Ser} `{SubjectIndexWriter X}
  `{EventLogOps A} `{MapOrder} `{MarkerJSON}.
Context (envs : nat → Env) (others : nat → A → A).
Context (c : EventStore) (scannable : bool) (e : DataEraser O) (mkMarker : ErasureMarker → V) (senvs : nat → StoreEnv).
Implicit Types w : SubjectWorld A P Ser X O.
Local Abbreviation World := (SubjectWorld A P Ser X O).

(** The resolver is asked when the request names nothing but the subject. *)
Definition resolves (req : ErasureRequest) : option (SubjectResolver O) :=
  match de_resolver e with
  | Some r => if bool_decide (rq_Streams req = []) && bool_decide (rq_Filter req = None) && bool_decide (rq_KeyIDs req = [])
              then Some r else None
  | None => None
  end.

(** From the request to the keys and streams of the erasure. *)
Definition scopeErasure (fuel : nat) (req : ErasureRequest) w : World * res erasureScope :=
  match resolves req with
  | Some r =>
      match resolve envs others c scannable fuel r (rq_SubjectID req) (Some ∅) w with
      | (w, Err err) => (w, Err (ErasureError (rq_SubjectID req) err))
      | (w, Ok (fp, memo)) =>
          (w, Ok (mkErasureScope (fp_EventCount fp) (fp_CleartextEvents fp) (addNames (fp_Streams fp) ∅)
                    (addNames (fp_KeyIDs fp) ∅) (fp_SharedStreams fp) memo [] (fp_Partial fp) true))
      end
  | None =>
      match validateRequest req with
      | Err err => (w, Err err)
      | Ok _ =>
          let keys := addNames (filter (λ k, k ≠ "") (rq_KeyIDs req)) ∅ in
          if negb (bool_decide (rq_Streams req = [])) || negb (bool_decide (rq_Filter req = None)) then
            match discoverKeys envs others c scannable e fuel req (mkDiscovery 0 0 ∅ keys (Some ∅)) w with
            | (w, Err err) => (w, Err err)
            | (w, Ok (d, shared, (notes, partial))) =>
                (w, Ok (mkErasureScope (ds_scanned d) (ds_cleartext d) (ds_streams d) (ds_keys d) shared (ds_attributed d)
                          notes partial false))
            end
          else (w, Ok (mkErasureScope 0 0 ∅ keys [] (Some ∅) [] false false))
      end
  end.

(** The blast-radius guard: an error before anything irreversible. *)
Definition guardSharedKeys (fuel : nat) (subjectID : string) (keySet : nameSet) w : World * res unit :=
  if de_sharedKeyGuard e && negb (de_allowSharedKey e) && negb (bool_decide (size keySet = 0%nat)) then
    match detectSharedKeys envs others c scannable e fuel subjectID keySet w with
    | (w, Err err) => (w, Err err)
    | (w, Ok (Some serr)) => (w, Err serr)
    | (w, Ok None) => (w, Ok tt)
    end
  else (w, Ok tt).

(** Every key, in the order the map is ranged over. *)
Definition revokeScope (cfg : FieldEncryptionConfig) (subjectID : string) (erasedAt : Time) (s : erasureScope) w : World * res ErasureResult :=
  match revokeKeys envs cfg "revoke key %q: %w" (range (es_keySet s)).*1 [] [] [] w with
  | (w, Err _) => (w, Err (ErasureError subjectID ErrRevocationUnsupported))
  | (w, Ok (revoked, failed, errs)) =>
      (w, Ok (mkErasureResult subjectID (sortStrings revoked) (sortedSet (es_streamSet s)) (es_shared s) (es_scanned s)
                false (es_partial s) [] [] [] [] (sortStrings failed) (es_cleartext s) (es_notes s) false erasedAt errs
                (es_attributed s)))
  end.

(** Read models, sibling stores and hooks. *)
Definition reachDerived (subjectID : string) (r : ErasureResult) w : World * ErasureResult :=
  let '(w, r) := redactReadModels envs e subjectID r w in
  let '(w, r) := eraseSubjectStores envs e subjectID r w in
  runErasureHooks envs e subjectID r w.

Definition setMarkerWritten (r : ErasureResult) : ErasureResult :=
  upd_end true (er_SideEffects r) (er_Notes r) (er_SubjectIndexPurged r) (er_Errors r) r.

(** The marker; under strict accountability its failure ends the erasure. *)
Definition writeMarker (subjectID : string) (cache : MarkerCache) (r : ErasureResult) w
    : World * MarkerCache * (ErasureResult * option error) :=
  if bool_decide (de_markerStream e = "") then (w, cache, (r, None))
  else
    match appendMarker envs others c e mkMarker (senvs (sw_calls w)) subjectID r cache w with
    | (w, cache, Ok _) => (w, cache, (setMarkerWritten r, None))
    | (w, cache, Err err) =>
        (w, cache, (addError (Wrapf "append erasure marker: %w" err) r,
                    if de_strictAccountability e
                    then Some (ErasureError subjectID (Wrapf "strict accountability: append erasure marker: %w" err))
                    else None))
    end.

(** The verification: emitted to the sink, or internal when a purge needs it. *)
Definition certify (subjectID : string) (r : ErasureResult) w
    : World * (ErasureResult * ErasureCertificate * option error) :=
  match de_certSink e with
  | Some sink =>
      match emitCertificate envs others c e sink subjectID r w with
      | (w, (r, cert, Some err)) =>
          if de_strictAccountability e
          then (w, (r, cert, Some (ErasureError subjectID (Wrapf "strict accountability: %w" err))))
          else (w, (r, cert, None))
      | (w, (r, cert, None)) => (w, (r, cert, None))
      end
  | None =>
      match de_indexPurger e with
      | Some _ => let '(w, (r, cert)) := buildCertificate envs others c e subjectID r w in (w, (r, cert, None))
      | None => (w, (r, noCertificate, None))
      end
  end.

Definition purgeSubjectIndex (purge : Env → string → op O error unit) (subjectID : string) (verified : bool)
    (r : ErasureResult) w : World * ErasureResult :=
  if Failed r || negb verified
  then (w, addNote "subject index retained: the erasure was not fully verified, so index-backed re-resolution stays available for a re-run" r)
  else
    match withOut envs (λ env, purge env subjectID) w with
    | (w, Err err) => (w, addError (Wrapf "purge subject index: %w" err) r)
    | (w, Ok _) => (w, upd_end (er_MarkerWritten r) (er_SideEffects r) (er_Notes r) true (er_Errors r) r)
    end.

(** The outcome of an erasure: the result (none for a fatal error before the
    revocation is complete), the certificate it was verified with, the error. *)
Record erasure := mkErasure {
  ee_result : option ErasureResult;
  ee_cert : ErasureCertificate;
  ee_err : option error;
}.

Definition fatal (err : error) : erasure := mkErasure None noCertificate (Some err).

(** After the revocation. *)
Definition concludeErasure (subjectID : string) (cache : MarkerCache) (r : ErasureResult) w
    : World * MarkerCache * erasure :=
  let '(w, r) := reachDerived subjectID r w in
  match writeMarker subjectID cache r w with
  | (w, cache, (r, Some err)) => (w, cache, mkErasure (Some r) noCertificate (Some err))
  | (w, cache, (r, None)) =>
      match certify subjectID r w with
      | (w, (r, cert, Some err)) => (w, cache, mkErasure (Some r) cert (Some err))
      | (w, (r, cert, None)) =>
          let '(w, r) :=
            match de_indexPurger e with
            | Some purge => purgeSubjectIndex purge subjectID (ct_Verified cert) r w
            | None => (w, r)
            end in
          (w, cache, mkErasure (Some r) cert None)
      end
  end.

Definition eraseAndCertify (fuel : nat) (req : ErasureRequest) (cache : MarkerCache) w : World * MarkerCache * erasure :=
  if bool_decide (rq_SubjectID req = "") then (w, cache, fatal ErrErasureSubjectRequired)
  else
    match es_encryption c with
    | None => (w, cache, fatal (ErasureError (rq_SubjectID req) ErrErasureNotConfigured))
    | Some cfg =>
        let erasedAt := time_Now (here envs w) 0 in
        match scopeErasure fuel req (step w) with
        | (w, Err err) => (w, cache, fatal err)
        | (w, Ok s) =>
            match guardSharedKeys fuel (rq_SubjectID req) (es_keySet s) w with
            | (w, Err err) => (w, cache, fatal err)
            | (w, Ok _) =>
                match revokeScope cfg (rq_SubjectID req) erasedAt s w with
                | (w, Err err) => (w, cache, fatal err)
                | (w, Ok r) =>
                    let '(w, r) :=
                      match (if es_resolved s then de_resolver e else None) with
                      | Some resolver => reconcileAfterRevoke envs others c scannable e cfg fuel resolver (rq_SubjectID req) (es_keySet s) r w
                      | None => (w, r)
                      end in
                    concludeErasure (rq_SubjectID req) cache r w
                end
            end
        end
    end.

Definition Erase (fuel : nat) (req : ErasureRequest) (cache : MarkerCache) w
    : World * MarkerCache * (option ErasureResult * option error) :=
  let '(w, cache, o) := eraseAndCertify fuel req cache w in (w, cache, (ee_result o, ee_err o)).
End Erase.
