(* ===== verification/ErasureFrames.v ===== *)
(** * What an erasure leaves alone

    Every step of a resolution, an erasure or a verification only reads the
    log, makes provider calls that keep what is gone gone, and takes its turn
    among the calls.  [moved] states it, and the lemmas prove it operation by
    operation. *)

From S2P Require Import Prelude.
From S2P Require Import Types.
From S2P Require Import Common.
From S2P Require Import Crypto.
From S2P Require Import LocalProvider.
From S2P Require Import Subject.
From S2P Require Import FieldEncryption.
From S2P Require Import Revocation.
From S2P Require Import LogInvariant.
From S2P Require Import EventLog.
From S2P Require Import EventStore.
From S2P Require Import SubjectResolver.
From S2P Require Import Eraser.
From S2P Require Import Verification.
From S2P Require Import Erasure.

(** ** The assumptions on the surroundings *)

(** The clock does not go back between two calls. *)
Definition monotone_clock (envs : nat → Env) : Prop :=
  ∀ n m, (n ≤ m)%nat → time_Now (envs n) 0 ≤ time_Now (envs m) 0.

(** There is a position left in the log. *)
Definition room `{EventLogLaws A} (a : A) : Prop := Z.of_nat (length (LogSpec.log (el_view a))) < MaxInt64.

(** Other writers append, and do not use up the last position. *)
Definition appends_only `{EventLogLaws A} (others : nat → A → A) : Prop :=
  ∀ n a, el_wf a →
    el_wf (others n a) ∧ LogSpec.log (el_view a) `prefix_of` LogSpec.log (el_view (others n a)) ∧
    (room a → room (others n a)).

Definition grown `{EventLogLaws A} (a b : A) : Prop :=
  el_wf a → el_wf b ∧ LogSpec.log (el_view a) `prefix_of` LogSpec.log (el_view b).

#[export] Instance grown_preorder `{EventLogLaws A} : PreOrder (grown (A := A)).
Proof.
  split; [by intros a Ha|]. intros a b c Hab Hbc Ha. destruct (Hab Ha) as [Hb ?]. destruct (Hbc Hb).
  split; [done|]. by etransitivity.
Qed.

Create HintDb moved discriminated.

(** The chain of the steps that lead from one world to another. *)
Ltac moves :=
  lazymatch goal with
  | |- ?R ?w ?w => reflexivity
  | |- ?R ?w ?w' =>
      first
        [ solve [eauto 3 with moved]
        | lazymatch goal with
          | H : _ = (w', _) |- _ => etransitivity; [|solve [eauto 3 with moved]]; clear H; moves
          | H : _ = (w', _, _) |- _ => etransitivity; [|solve [eauto 3 with moved]]; clear H; moves
          end ]
  end.

(** The cases of the equations whose left side is a match. *)
Ltac splits := repeat match goal with H : (match ?x with _ => _ end) = _ |- _ => destruct x eqn:? end; simplify_eq/=.

Section Frames.
Context {V Ser A P X O : Type} `{AEAD} `{ProviderOps P} `{!RevocableOps P} `{!RevocableLaws P} `{EventLogOps A}
  `{!EventLogLaws A}.
Context (envs : nat → Env) (others : nat → A → A) (clock : monotone_clock envs) (appends : appends_only others).
Implicit Types w : SubjectWorld A P Ser X O.

Definition now w : Time := time_Now (here envs w) 0.

Definition adapter w : A := st_adapter (sw_store w).
Definition provider w : P := st_provider (sw_store w).

Record moved w w' : Prop := {
  mv_calls : (sw_calls w ≤ sw_calls w')%nat;
  mv_grown : grown (adapter w) (adapter w');
  mv_room : el_wf (adapter w) → room (adapter w) → room (adapter w');
  mv_gone : ∀ t k, t ≤ now w → rv_gone t k (provider w) → rv_gone t k (provider w');
}.

Lemma now_le w w' : moved w w' → now w ≤ now w'.
Proof using clock. intros Hm. apply clock, Hm. Qed.

#[local] Instance moved_preorder : PreOrder moved.
Proof using clock.
  split; [by split|]. intros w1 w2 w3 H12 H23. pose proof (now_le _ _ H12). destruct H12 as [? H12g ? H12], H23 as [? ? ? H23]. split.
  - lia.
  - by etransitivity.
  - intros Hwf Hr. destruct (H12g Hwf). auto.
  - intros t k Ht Hg. apply H23; [lia|]. by apply H12.
Qed.

Lemma step_moved w : moved w (step w).
Proof. split; [cbn; lia|reflexivity|done|done]. Qed.

Lemma readLog_moved {R} (f : Env → Store A P Ser X → R) w w' r : readLog envs others f w = (w', r) → moved w w'.
Proof using appends.
  unfold readLog. intros [= <- _]. split; cbn; [lia|..|done].
  - intros Hwf. destruct (appends (sw_calls w) _ Hwf) as (? & ? & ?). done.
  - intros Hwf. by destruct (appends (sw_calls w) _ Hwf) as (? & ? & ?).
Qed.

Lemma withProvider_moved {R} (f : Env → P → P * R) w w' r :
  (∀ t k, t ≤ now w → rv_gone t k (provider w) → rv_gone t k (f (here envs w) (provider w)).1) →
  withProvider envs f w = (w', r) → moved w w'.
Proof.
  unfold withProvider. intros Hf. fold (provider w). destruct (f _ (provider w)) as [p x] eqn:E. intros [= <- _].
  split; cbn; [lia|reflexivity|done|exact Hf].
Qed.

Lemma withOut_moved {R} (f : Env → O → O * R) w w' r : withOut envs f w = (w', r) → moved w w'.
Proof.
  unfold withOut. destruct (f _ _). intros [= <- _]. split; cbn; [lia|reflexivity|done|done].
Qed.

(** *** Provider calls

    [read w w']: between two worlds the provider was only read, to unwrap a data
    key or to ask whether a key is revoked, at times between theirs. *)
Inductive provider_read (a b : Time) : relation P :=
| read_DecryptDataKey t k ct p : a ≤ t ≤ b → provider_read a b p (DecryptDataKey t k ct p).1
| read_KeyIsRevoked t k p : a ≤ t ≤ b → provider_read a b p (KeyIsRevoked t k p).1.

Definition reads (a b : Time) : relation P := rtc (provider_read a b).

Definition read w w' : Prop := now w ≤ now w' ∧ reads (now w) (now w') (provider w) (provider w').

Lemma reads_widen a b a' b' p q : a' ≤ a → b ≤ b' → reads a b p q → reads a' b' p q.
Proof.
  intros Ha Hb. apply rtc_congruence with (f := id). intros x y [t k ct p' [??]|t k p' [??]].
  - apply read_DecryptDataKey. lia.
  - apply read_KeyIsRevoked. lia.
Qed.

Lemma read_trans w1 w2 w3 : read w1 w2 → read w2 w3 → read w1 w3.
Proof.
  intros [H12 R12] [H23 R23]. split; [lia|]. transitivity (provider w2);
    [eapply reads_widen; [| |exact R12]|eapply reads_widen; [| |exact R23]]; lia.
Qed.

#[local] Instance read_preorder : PreOrder read.
Proof. split; [intros w; split; [done|apply rtc_refl]|intros w1 w2 w3; apply read_trans]. Qed.

(** A read does not bring back a key that is gone. *)
Lemma reads_gone a b t k p q : t ≤ a → reads a b p q → rv_gone t k p → rv_gone t k q.
Proof.
  intros Ht. induction 1 as [p|p q r Hs _ IH]; [done|]. intros Hg. apply IH.
  destruct Hs as [t' k' ct p [??]|t' k' p [??]]; [apply gone_decrypt|apply gone_isRevoked]; (lia || done).
Qed.

Lemma decryptFields_reads t enc sid ty d md (p : P) : reads t t p (decryptFields t enc sid ty d md p).1.
Proof.
  unfold decryptFields. repeat case_match; simplify_eq/=; try apply rtc_refl.
  all: match goal with E : DecryptDataKey _ ?k' ?ct _ = (?q, _) |- _ =>
    apply rtc_once; replace q with (DecryptDataKey t k' ct p).1 by (by rewrite E); apply read_DecryptDataKey; lia end.
Qed.

Lemma DecryptStoredEvent_reads t c e (p : P) : reads t t p (DecryptStoredEvent c t e p).1.
Proof.
  unfold DecryptStoredEvent. destruct (es_encryption c) as [enc|]; [|apply rtc_refl]. case_match; [apply rtc_refl|].
  pose proof (decryptFields_reads t enc (se_StreamID e) (se_Type e) (se_Data e) (se_Metadata e) p) as Hd.
  by destruct (decryptFields _ _ _ _ _ _ p) as [p' [dec|err]].
Qed.

Lemma attributeSubjects_reads t c tagger e (p : P) : reads t t p (attributeSubjects c tagger t e p).1.
Proof.
  assert (reads t t p (taggerPlaintext c t e p).1) as Hd.
  { unfold taggerPlaintext. destruct (negb _); [apply rtc_refl|]. destruct (es_encryption c); [|apply rtc_refl].
    pose proof (DecryptStoredEvent_reads t c e p) as Hd. by destruct (DecryptStoredEvent c t e p) as [p' [dec|err]]. }
  unfold attributeSubjects. destruct (GetSubjectTags _); [|apply rtc_refl].
  destruct tagger as [tg|]; [|destruct (es_subjectTagger c) as [tg|]; [|apply rtc_refl]];
    destruct (taggerPlaintext c t e p) as [p' [[d md]|]]; try exact Hd; by destruct (cleanSubjects _).
Qed.

Lemma cfgIsRevoked_reads t cfg k (p : P) : reads t t p (cfgIsRevoked cfg t k p).1.
Proof.
  unfold cfgIsRevoked. destruct (fe_hasProvider cfg); [|apply rtc_refl]. apply rtc_once, read_KeyIsRevoked. lia.
Qed.

Lemma calls_read w w' :
  (sw_calls w ≤ sw_calls w')%nat → reads (now w) (now w) (provider w) (provider w') → read w w'.
Proof using clock.
  intros Hc Hr. assert (now w ≤ now w') as Hn by by apply clock. split; [done|].
  eapply reads_widen; [| |exact Hr]; lia.
Qed.

Lemma step_read w : read w (step w).
Proof using clock. apply calls_read; [cbn; lia|apply rtc_refl]. Qed.

Lemma readLog_read {R} (f : Env → Store A P Ser X → R) w w' r : readLog envs others f w = (w', r) → read w w'.
Proof using clock. unfold readLog. intros [= <- _]. apply calls_read; [cbn; lia|apply rtc_refl]. Qed.

Lemma withOut_read {R} (f : Env → O → O * R) w w' r : withOut envs f w = (w', r) → read w w'.
Proof using clock. unfold withOut. destruct (f _ _). intros [= <- _]. apply calls_read; [cbn; lia|apply rtc_refl]. Qed.

Lemma withProvider_read {R} (f : Env → P → P * R) w w' r :
  reads (now w) (now w) (provider w) (f (here envs w) (provider w)).1 → withProvider envs f w = (w', r) → read w w'.
Proof using clock.
  unfold withProvider. fold (provider w). intros Hf. destruct (f _ (provider w)) as [p x]. intros [= <- _].
  apply calls_read; [cbn; lia|exact Hf].
Qed.

Lemma decryptFields_gone t k at' enc sid ty d md (p : P) :
  t ≤ at' → rv_gone t k p → rv_gone t k (decryptFields at' enc sid ty d md p).1.
Proof.
  intros Ht Hg. unfold decryptFields. repeat case_match; simplify_eq/=; try done.
  all: match goal with E : DecryptDataKey _ ?k' ?ct _ = _ |- _ =>
    pose proof (gone_decrypt t at' k k' ct p Ht Hg) as Hd; rewrite E in Hd; exact Hd end.
Qed.

Lemma DecryptStoredEvent_gone t k c at' e (p : P) :
  t ≤ at' → rv_gone t k p → rv_gone t k (DecryptStoredEvent c at' e p).1.
Proof.
  intros Ht Hg. unfold DecryptStoredEvent. destruct (es_encryption c) as [enc|]; [|done]. case_match; [done|].
  pose proof (decryptFields_gone t k at' enc (se_StreamID e) (se_Type e) (se_Data e) (se_Metadata e) p Ht Hg) as Hd.
  by destruct (decryptFields _ _ _ _ _ _ p) as [p' [dec|err]].
Qed.

Lemma taggerPlaintext_gone t k c at' e (p : P) :
  t ≤ at' → rv_gone t k p → rv_gone t k (taggerPlaintext c at' e p).1.
Proof.
  intros Ht Hg. unfold taggerPlaintext. destruct (negb _); [done|]. destruct (es_encryption c); [|done].
  pose proof (DecryptStoredEvent_gone t k c at' e p Ht Hg) as Hd.
  by destruct (DecryptStoredEvent c at' e p) as [p' [dec|err]].
Qed.

Lemma attributeSubjects_gone t k c tagger at' e (p : P) :
  t ≤ at' → rv_gone t k p → rv_gone t k (attributeSubjects c tagger at' e p).1.
Proof.
  intros Ht Hg. pose proof (taggerPlaintext_gone t k c at' e p Ht Hg) as Hd. unfold attributeSubjects.
  destruct (GetSubjectTags _); [|done]. destruct tagger as [tg|]; [|destruct (es_subjectTagger c) as [tg|]; [|done]];
    destruct (taggerPlaintext c at' e p) as [p' [[d md]|]]; try exact Hd; by destruct (cleanSubjects _).
Qed.

Lemma attribute_moved c tagger e w w' a : attribute envs c tagger e w = (w', a) → moved w w'.
Proof. apply withProvider_moved. intros t k. apply attributeSubjects_gone. Qed.

Lemma cfgRevokeKey_moved cfg k w w' r : withProvider envs (λ _, cfgRevokeKey cfg k) w = (w', r) → moved w w'.
Proof.
  apply withProvider_moved. intros t k' _ Hg. unfold cfgRevokeKey. destruct (fe_hasProvider cfg); [|done]. by apply gone_revoke.
Qed.

Lemma cfgRevocationState_moved cfg k w w' r :
  withProvider envs (λ env, cfgRevocationState cfg (time_Now env 0) k) w = (w', r) → moved w w'.
Proof.
  apply withProvider_moved. intros t k' Ht Hg. unfold cfgRevocationState. destruct (fe_hasProvider cfg); [|done].
  by apply gone_state.
Qed.

#[local] Hint Resolve step_moved readLog_moved withOut_moved attribute_moved cfgRevokeKey_moved cfgRevocationState_moved : moved.

(** *** Resolution *)

Section Resolution.
Context `{MapOrder} (c : EventStore) (scannable : bool).

Lemma scanLoop_moved {T} wrap limit (body : list StoredEvent → T → SubjectWorld A P Ser X O → SubjectWorld A P Ser X O * res T)
    fuel pos acc w w' r :
  (∀ batch acc w w' r, body batch acc w = (w', r) → moved w w') →
  scanLoop envs others wrap limit body fuel pos acc w = (w', r) → moved w w'.
Proof using appends clock.
  intros Hb. revert pos acc w. induction fuel as [|fuel IH]; intros pos acc w E; cbn [scanLoop] in E; splits; moves.
Qed.

Lemma streamSharedWithOthers_moved tagger stored sid w w' r :
  streamSharedWithOthers envs c tagger stored sid w = (w', r) → moved w w'.
Proof using appends clock.
  revert w. induction stored as [|se stored IH]; intros w E; cbn [streamSharedWithOthers] in E; splits; moves.
Qed.

Lemma loadFootprintStream_moved sid w w' r : loadFootprintStream envs others sid w = (w', r) → moved w w'.
Proof using appends clock. unfold loadFootprintStream. intros E. splits; moves. Qed.
#[local] Hint Resolve scanLoop_moved streamSharedWithOthers_moved loadFootprintStream_moved : moved.

Lemma collectEvents_moved tagger sid stored shared b w w' r :
  collectEvents envs c tagger sid stored shared b w = (w', r) → moved w w'.
Proof using appends clock.
  revert shared b w. induction stored as [|se stored IH]; intros shared b w E; cbn [collectEvents] in E; splits; moves.
Qed.
#[local] Hint Resolve collectEvents_moved : moved.

Lemma collectStreams_moved tagger sid streams b w w' r :
  collectStreams envs others c tagger sid streams b w = (w', r) → moved w w'.
Proof using appends clock.
  revert b w. induction streams as [|s streams IH]; intros b w E; cbn [collectStreams] in E; [splits; moves|].
  unfold collectIndexedStream in E. splits; moves.
Qed.
#[local] Hint Resolve collectStreams_moved : moved.

Lemma resolveByIndex_moved r index sid b w w' x :
  resolveByIndex envs others c r index sid b w = (w', x) → moved w w'.
Proof using appends clock. unfold resolveByIndex. intros E. splits; moves. Qed.

Lemma attributeBatch_moved tagger sid batch b w w' r :
  attributeBatch envs c tagger sid batch b w = (w', r) → moved w w'.
Proof using appends clock.
  revert b w. induction batch as [|se batch IH]; intros b w E; cbn [attributeBatch] in E; [splits; moves|].
  splits; moves.
Qed.
#[local] Hint Resolve attributeBatch_moved : moved.

Lemma detectSharedStreams_moved tagger sid streams b w w' r :
  detectSharedStreams envs others c tagger sid streams b w = (w', r) → moved w w'.
Proof using appends clock.
  revert b w. induction streams as [|s streams IH]; intros b w E; cbn [detectSharedStreams] in E; splits; moves.
Qed.
#[local] Hint Resolve detectSharedStreams_moved : moved.

Lemma resolveByScan_moved fuel r sid b w w' x :
  resolveByScan envs others c scannable fuel r sid b w = (w', x) → moved w w'.
Proof using appends clock.
  unfold resolveByScan. intros E. destruct (negb scannable); [splits; moves|].
  destruct (scanLoop _ _ _ _ _ _ _ _ _) as [w1 [b1|err]] eqn:Es; apply scanLoop_moved in Es; [splits; moves| |splits; moves|];
    intros batch acc w2 w3 r2 E2; splits; moves.
Qed.
#[local] Hint Resolve resolveByIndex_moved resolveByScan_moved : moved.

Lemma resolve_moved fuel r sid memo w w' x :
  resolve envs others c scannable fuel r sid memo w = (w', x) → moved w w'.
Proof using appends clock. unfold resolve. intros E. splits; moves. Qed.
#[local] Hint Resolve resolve_moved : moved.

Lemma Resolve_moved fuel r sid w w' x : Resolve envs others c scannable fuel r sid w = (w', x) → moved w w'.
Proof using appends clock. unfold Resolve. intros E. splits; moves. Qed.
#[local] Hint Resolve Resolve_moved : moved.

(** *** Discovery and the guard *)

Context (e : DataEraser O).

Lemma attributeStream_moved stored sid t w w' x : attributeStream envs c e stored sid t w = (w', x) → moved w w'.
Proof using appends clock.
  revert t w x. induction stored as [|se stored IH]; intros t w x E; cbn [attributeStream] in E; splits; moves.
Qed.
#[local] Hint Resolve attributeStream_moved : moved.

Lemma loadErasureStream_moved subj sid w w' x : loadErasureStream envs others subj sid w = (w', x) → moved w w'.
Proof using appends clock. unfold loadErasureStream. intros E. splits; moves. Qed.
#[local] Hint Resolve loadErasureStream_moved : moved.

Lemma discoverListed_moved req streams scope shared d w w' x :
  discoverListed envs others c e req streams scope shared d w = (w', x) → moved w w'.
Proof using appends clock.
  revert scope shared d w. induction streams as [|s streams IH]; intros scope shared d w E; cbn [discoverListed] in E;
    [splits; moves|]. unfold collectStreamKeys in E. splits; moves.
Qed.

Lemma collectScanKeys_moved req batch acc w w' x : collectScanKeys envs c e req batch acc w = (w', x) → moved w w'.
Proof using appends clock.
  revert acc w. induction batch as [|se batch IH]; intros acc w E; cbn [collectScanKeys] in E; splits; moves.
Qed.
#[local] Hint Resolve collectScanKeys_moved : moved.

Lemma sharedStreamsOf_moved subj streams shared w w' x :
  sharedStreamsOf envs others c e subj streams shared w = (w', x) → moved w w'.
Proof using appends clock.
  revert shared w. induction streams as [|s streams IH]; intros shared w E; cbn [sharedStreamsOf] in E; splits; moves.
Qed.

Lemma sharedInBatch_moved target keys batch acc w w' x :
  sharedInBatch envs c e target keys batch acc w = (w', x) → moved w w'.
Proof using appends clock.
  revert acc w. induction batch as [|se batch IH]; intros acc w E; cbn [sharedInBatch] in E; splits; moves.
Qed.
#[local] Hint Resolve discoverListed_moved sharedStreamsOf_moved sharedInBatch_moved : moved.

(** A scan whose body does not fail. *)
Lemma scan_moved {T} wrap limit (body : list StoredEvent → T → SubjectWorld A P Ser X O → SubjectWorld A P Ser X O * T)
    fuel pos acc w w' r :
  (∀ batch acc w w' r, body batch acc w = (w', r) → moved w w') →
  scanLoop envs others wrap limit (λ batch acc w, let '(w, acc) := body batch acc w in (w, Ok acc)) fuel pos acc w = (w', r) →
  moved w w'.
Proof using appends clock.
  intros Hb. apply scanLoop_moved. intros batch acc' w1 w2 r' E. splits. by eapply Hb.
Qed.

Lemma discoverKeys_moved fuel req d w w' x : discoverKeys envs others c scannable e fuel req d w = (w', x) → moved w w'.
Proof using appends clock.
  unfold discoverKeys. intros E. splits; try (moves; fail).
  all: match goal with H : scanLoop _ _ _ _ _ _ _ _ _ = _ |- _ => apply scan_moved in H; [|apply collectScanKeys_moved] end.
  all: moves.
Qed.

Lemma detectSharedKeys_moved fuel target keys w w' x :
  detectSharedKeys envs others c scannable e fuel target keys w = (w', x) → moved w w'.
Proof using appends clock.
  unfold detectSharedKeys. intros E. splits; try (moves; fail).
  all: match goal with H : scanLoop _ _ _ _ _ _ _ _ _ = _ |- _ => apply scan_moved in H; [|apply sharedInBatch_moved] end.
  all: moves.
Qed.
#[local] Hint Resolve discoverKeys_moved detectSharedKeys_moved : moved.

Lemma scopeErasure_moved fuel req w w' x : scopeErasure envs others c scannable e fuel req w = (w', x) → moved w w'.
Proof using appends clock. unfold scopeErasure. intros E. splits; moves. Qed.

Lemma guardSharedKeys_moved fuel subj keys w w' x :
  guardSharedKeys envs others c scannable e fuel subj keys w = (w', x) → moved w w'.
Proof using appends clock. unfold guardSharedKeys. intros E. splits; moves. Qed.

(** *** Revocation *)

Lemma revokeKeys_moved cfg fmt keys revoked failed errs w w' x :
  revokeKeys envs cfg fmt keys revoked failed errs w = (w', x) → moved w w'.
Proof using appends clock.
  revert revoked failed errs w. induction keys as [|k keys IH]; intros revoked failed errs w E; cbn [revokeKeys] in E;
    splits; moves.
Qed.

Lemma revokeLate_moved cfg keys r w w' x : revokeLate envs cfg keys r w = (w', x) → moved w w'.
Proof using appends clock.
  revert r w. induction keys as [|k keys IH]; intros r w E; cbn [revokeLate] in E; splits; moves.
Qed.
#[local] Hint Resolve revokeKeys_moved revokeLate_moved : moved.

Lemma revokeScope_moved cfg subj at' s w w' x : revokeScope envs cfg subj at' s w = (w', x) → moved w w'.
Proof using appends clock. unfold revokeScope. intros E. splits; moves. Qed.

Lemma reconcileAfterRevoke_moved cfg fuel resolver subj keys r w w' r' :
  reconcileAfterRevoke envs others c scannable e cfg fuel resolver subj keys r w = (w', r') → moved w w'.
Proof using appends clock. unfold reconcileAfterRevoke. intros E. splits; moves. Qed.

(** *** Derived data *)

Lemma redactReadModels_moved subj r w w' r' : redactReadModels envs e subj r w = (w', r') → moved w w'.
Proof using appends clock.
  unfold redactReadModels.
  assert (∀ l r w w' r', redactAll envs l subj r w = (w', r') → moved w w') as Hr.
  { induction l as [|[name f] l IH]; intros r1 w1 w2 r2 E; cbn [redactAll] in E; splits; moves. }
  assert (∀ l r w w' r', rebuildAll envs l r w = (w', r') → moved w w') as Hb.
  { induction l as [|[name f] l IH]; intros r1 w1 w2 r2 E; cbn [rebuildAll] in E; splits; moves. }
  intros E. splits; moves.
Qed.

Lemma eraseStores_moved stores subj fp skipped r w w' x :
  eraseStores envs stores subj fp skipped r w = (w', x) → moved w w'.
Proof using appends clock.
  revert skipped r w. induction stores as [|st stores IH]; intros skipped r w E; cbn [eraseStores] in E; splits; moves.
Qed.

Lemma runHooks_moved hooks ec r w w' r' : runHooks envs hooks ec r w = (w', r') → moved w w'.
Proof using appends clock.
  revert r w. induction hooks as [|[name f] hooks IH]; intros r w E; cbn [runHooks] in E; splits; moves.
Qed.
#[local] Hint Resolve redactReadModels_moved eraseStores_moved runHooks_moved : moved.

Lemma eraseSubjectStores_moved subj r w w' r' : eraseSubjectStores envs e subj r w = (w', r') → moved w w'.
Proof using appends clock.
  unfold eraseSubjectStores. destruct (de_subjectStores e) as [|st stores]; intros E; [splits; moves|].
  destruct (eraseStores _ _ _ _ _ _ _) as [w1 [sk r1]] eqn:Es. injection E as <- _. moves.
Qed.
#[local] Hint Resolve eraseSubjectStores_moved : moved.

Lemma reachDerived_moved subj r w w' r' : reachDerived envs e subj r w = (w', r') → moved w w'.
Proof using appends clock. unfold reachDerived, runErasureHooks. intros E. splits; moves. Qed.

(** *** Verification *)

Lemma revocationState_moved m w w' x : revocationState envs c m w = (w', x) → moved w w'.
Proof using appends clock. unfold revocationState. intros E. splits; moves. Qed.
#[local] Hint Resolve revocationState_moved : moved.

Lemma recordChecked_moved ref m rep w w' x : recordChecked envs c ref m rep w = (w', x) → moved w w'.
Proof using appends clock. unfold recordChecked. intros E. splits; moves. Qed.

Lemma recordUnattributed_moved ref m rep w w' x : recordUnattributed envs c ref m rep w = (w', x) → moved w w'.
Proof using appends clock. unfold recordUnattributed. intros E. splits; moves. Qed.
#[local] Hint Resolve recordChecked_moved recordUnattributed_moved : moved.

Lemma ownsEvent_moved subj memo se ref rep w w' x : ownsEvent envs c e subj memo se ref rep w = (w', x) → moved w w'.
Proof using appends clock. unfold ownsEvent. intros E. splits; moves. Qed.
#[local] Hint Resolve ownsEvent_moved : moved.

Lemma verifyStream_moved subj memo stored rep w w' x : verifyStream envs c e subj memo stored rep w = (w', x) → moved w w'.
Proof using appends clock.
  revert rep w. induction stored as [|se stored IH]; intros rep w E; cbn [verifyStream] in E; splits; moves.
Qed.
#[local] Hint Resolve verifyStream_moved : moved.

Lemma verifyStreams_moved subj streams memo rep w w' rep' x :
  verifyStreams envs others c e subj streams memo rep w = (w', rep', x) → moved w w'.
Proof using appends clock.
  revert rep w. induction streams as [|s streams IH]; intros rep w E; cbn [verifyStreams] in E; splits; moves.
Qed.

Lemma countSubjectResiduals_moved stores subj fp verified rep w w' rep' x :
  countSubjectResiduals envs stores subj fp verified rep w = (w', rep', x) → moved w w'.
Proof using appends clock.
  revert verified rep w. induction stores as [|st stores IH]; intros verified rep w E; cbn [countSubjectResiduals] in E;
    splits; moves.
Qed.
#[local] Hint Resolve verifyStreams_moved countSubjectResiduals_moved : moved.

Lemma buildCertificate_moved subj r w w' x : buildCertificate envs others c e subj r w = (w', x) → moved w w'.
Proof using appends clock. unfold buildCertificate, attestEvidence. intros E. splits; moves. Qed.
End Resolution.
End Frames.
