(* ===== verification/ErasureSafety.v ===== *)
(** * What a verified erasure guarantees

    A scan sees every event the log held when it began; what the resolver, the
    shared-key guard and the verification conclude from it holds of each of
    those events.  Composed: after an erasure verified over a scanned footprint,
    every event of the log is beyond recovery or belongs to others, and no key
    was revoked that protected anyone else. *)

From S2P Require Import Prelude.
From S2P Require Import Types.
From S2P Require Import Common.
From S2P Require Import Crypto.
From S2P Require Import LocalProvider.
From S2P Require Import Subject.
From S2P Require Import FieldEncryption.
From S2P Require Import Revocation.
From S2P Require Import MemoryAdmin.
From S2P Require Import LogInvariant.
From S2P Require Import MemoryTheorems.
From S2P Require Import EventLog.
From S2P Require Import EventStore.
From S2P Require Import SubjectResolver.
From S2P Require Import Eraser.
From S2P Require Import Verification.
From S2P Require Import Erasure.
From S2P Require Import ErasureFrames.

Section Scan.
Context {V Ser A P X O : Type} `{AEAD} `{ProviderOps P} `{!RevocableOps P} `{!RevocableLaws P} `{EventLogOps A}
  `{!EventLogLaws A}.
Context (envs : nat → Env) (others : nat → A → A) (clock : monotone_clock envs) (appends : appends_only others).
Implicit Types w : SubjectWorld A P Ser X O.

(** The events of the log. *)
Definition logged w : list StoredEvent := LogSpec.log (el_view (adapter w)).

Lemma moved_logged w w' se :
  moved envs w w' → el_wf (adapter w) → se ∈ logged w → el_wf (adapter w') ∧ se ∈ logged w'.
Proof.
  intros Hm Hwf Hin. destruct (mv_grown _ _ _ Hm Hwf) as [? Hp]. split; [done|]. by eapply elem_of_prefix.
Qed.

(** One page: the log it is read from, and what it holds. *)
Lemma readLog_page pos limit w w' batch :
  el_wf (adapter w) →
  readLog envs others (λ env, LoadEventsFromPosition env pos limit) w = (w', Ok batch) →
  ∃ n, (0 < n)%nat ∧ batch = take n (selected pos emptyFilter (logged w')).
Proof using appends.
  unfold readLog, LoadEventsFromPosition. intros Hwf [= <- E].
  destruct (appends (sw_calls w) (adapter w) Hwf) as (Hwf' & _). cbn in E.
  rewrite el_feed_spec in E by exact Hwf'. unfold LogSpec.feed in E. inv_ok.
  eexists. split; [|reflexivity]. pose proof (DefaultLimit_pos limit 1000). lia.
Qed.

Lemma elem_of_selected pos l se : se ∈ selected pos emptyFilter l ↔ se ∈ l ∧ pos < se_GlobalPosition se.
Proof. unfold selected. rewrite list_elem_of_filter. cbn. naive_solver. Qed.

(** A scan handles every event past its position that the log holds when it
    begins, if its body handles those of a page and undoes nothing, and neither
    does a read of the log. *)
Lemma scan_handles_at {T} (R : SubjectWorld A P Ser X O → SubjectWorld A P Ser X O → Prop) wrap limit
    (body : list StoredEvent → T → SubjectWorld A P Ser X O → SubjectWorld A P Ser X O * res T)
    (I : SubjectWorld A P Ser X O → T → Prop) (Q : SubjectWorld A P Ser X O → StoredEvent → T → Prop) fuel pos acc w w' acc' :
  (∀ w, R w (step w)) →
  (∀ pos w w' r, readLog envs others (λ env, LoadEventsFromPosition env pos limit) w = (w', r) → R w w') →
  (∀ w w' acc, R w w' → moved envs w w' → el_wf (adapter w) → I w acc → I w' acc) →
  (∀ w w' se acc, R w w' → Q w se acc → Q w' se acc) →
  (∀ batch acc w w' acc', el_wf (adapter w) → (∀ se, se ∈ batch → se ∈ logged w) → I w acc → body batch acc w = (w', Ok acc') →
     moved envs w w' ∧ I w' acc' ∧ (∀ se, Q w se acc → Q w' se acc') ∧ ∀ se, se ∈ batch → Q w' se acc') →
  I w acc → el_wf (adapter w) → scanLoop envs others wrap limit body fuel pos acc w = (w', Ok acc') →
  moved envs w w' ∧ I w' acc' ∧ (∀ se, Q w se acc → Q w' se acc') ∧
  ∀ se, se ∈ logged w → pos < se_GlobalPosition se → Q w' se acc'.
Proof using appends clock.
  intros Hstep Hread HIR HQR Hb. revert pos acc w.
  induction fuel as [|fuel IH]; intros pos acc w HI Hwf E; cbn [scanLoop] in E; [done|].
  destruct (ctx_Err (here envs w)); [done|].
  destruct (readLog envs others _ (step w)) as [w1 [batch|err]] eqn:Er; [|done].
  pose proof (readLog_moved envs others appends _ _ _ _ Er) as Hm. pose proof (Hread _ _ _ _ Er) as HR.
  destruct (readLog_page pos limit (step w) w1 batch Hwf Er) as (n & Hn & Hbatch).
  destruct (mv_grown _ _ _ Hm Hwf) as [Hwf1 Hp].
  assert (I w1 acc) as HI1 by (eapply HIR; [exact HR|exact Hm|done|]; eapply HIR; [apply Hstep|apply step_moved|done|done]).
  assert (∀ se, Q w se acc → Q w1 se acc) as HQ1 by (intros se Hq; eapply HQR; [exact HR|]; eapply HQR; [apply Hstep|done]).
  pose proof (moved_preorder (Ser := Ser) (X := X) (O := O) envs clock) as Hpre.
  assert (moved envs w w1) as Hmw by (etransitivity; [apply step_moved|done]).
  destruct (last batch) as [lst|] eqn:El.
  - destruct (body batch acc w1) as [w2 [acc2|err]] eqn:Eb; [|done].
    assert (∀ se, se ∈ batch → se ∈ logged w1) as Hpage
      by (intros se; rewrite Hbatch; by intros [? _]%(subseteq_take n)%elem_of_selected).
    destruct (Hb _ _ _ _ _ Hwf1 Hpage HI1 Eb)
      as (Hm2 & HI2 & Hkeep & Hnew).
    destruct (mv_grown _ _ _ Hm2 Hwf1) as [Hwf2 Hp2]. destruct (IH _ _ _ HI2 Hwf2 E) as (Hm3 & HI' & Hkeep' & Hrest).
    split; [do 2 (etransitivity; [eassumption|]); done|].
    split; [done|]. split; [auto|]. intros se Hse Hpos.
    assert (se ∈ logged w1) as Hse1 by by eapply elem_of_prefix.
    destruct (decide (se_GlobalPosition se ≤ se_GlobalPosition lst)).
    + apply Hkeep', Hnew. rewrite Hbatch in El |- *. eapply page_covers; [|exact El| |done].
      * by apply strictly_increasing_filter, el_positions.
      * by apply elem_of_selected.
    + apply Hrest; [|lia]. by eapply elem_of_prefix.
  - injection E as <- <-. split; [done|]. split; [done|]. split; [done|]. intros se Hse Hpos. exfalso. apply last_None in El.
    assert (se ∈ selected pos emptyFilter (logged w1)) as Hin.
    { apply elem_of_selected. split; [by eapply elem_of_prefix|done]. }
    rewrite El in Hbatch. destruct (selected pos emptyFilter (logged w1)); [by apply not_elem_of_nil in Hin|].
    by destruct n; [lia|].
Qed.

(** The same of a body that does not fail, and of properties of its result alone. *)
Lemma scan_handles {T} wrap limit
    (body : list StoredEvent → T → SubjectWorld A P Ser X O → SubjectWorld A P Ser X O * T) (I : T → Prop)
    (Q : StoredEvent → T → Prop) fuel pos acc w w' acc' :
  (∀ batch acc w w' acc', body batch acc w = (w', acc') → moved envs w w') →
  (∀ batch acc w w' acc', I acc → body batch acc w = (w', acc') →
     I acc' ∧ (∀ se, Q se acc → Q se acc') ∧ ∀ se, se ∈ batch → Q se acc') →
  I acc → el_wf (adapter w) →
  scanLoop envs others wrap limit (λ batch acc w, let '(w, acc) := body batch acc w in (w, Ok acc)) fuel pos acc w = (w', Ok acc') →
  I acc' ∧ (∀ se, Q se acc → Q se acc') ∧ ∀ se, se ∈ logged w → pos < se_GlobalPosition se → Q se acc'.
Proof using appends clock.
  intros Hm0 Hb HI Hwf E.
  eapply (scan_handles_at (λ _ _, True) wrap limit _ (λ _, I) (λ _, Q)) in E as (_ & ? & ? & ?); try done.
  intros batch acc1 w1 w2 acc2 _ _ HI1 Eb. destruct (body batch acc1 w1) as [w3 acc3] eqn:Eb'. injection Eb as <- <-.
  split; [by eapply Hm0|by eapply Hb].
Qed.

(** ** The resolution *)

(** At some point of the run, attribution gave the event these subjects. *)
Definition attributable (c : EventStore) (tagger : option SubjectTagger) (se : StoredEvent)
    (Q : subjectAttribution → Prop) : Prop :=
  ∃ t (p : P), Q (attributeSubjects c tagger t se p).2.

Lemma attribute_attributable c tagger se w w' a (Q : subjectAttribution → Prop) :
  attribute envs c tagger se w = (w', a) → Q a → attributable c tagger se Q.
Proof.
  unfold attribute, withProvider. intros E HQ. exists (time_Now (here envs w) 0), (st_provider (sw_store w)).
  destruct (attributeSubjects _ _ _ _ _) as [p a']. injection E as _ ->. exact HQ.
Qed.

(** An event that is not the subject's alone to worry about. *)
Definition othersOnly (subj : string) (a : subjectAttribution) : Prop := attributed a = true ∧ attributedTo a subj = false.

(** The builder has dealt with an event. *)
Definition collected c tagger (subj : string) (se : StoredEvent) (b : footprintBuilder) : Prop :=
  attributable c tagger se (othersOnly subj) ∨ fb_Partial b = true ∨
  (is_Some (fb_streamSet b !! se_StreamID se) ∧ (is_Some (fb_matched b) → erasureMatches_has (fb_matched b) se = true)).

Lemma erasureMatches_has_add m se se' :
  is_Some (erasureMatches_add se' m) → (is_Some m → erasureMatches_has m se = true) ∨ se = se' →
  erasureMatches_has (erasureMatches_add se' m) se = true.
Proof.
  destruct m as [m|]; cbn; [|by intros [??]]. unfold erasureMatches_has. intros _ Hm. apply bool_decide_eq_true. cbn.
  destruct Hm as [Hm| ->]; [|set_solver]. specialize (Hm (mk_is_Some _ _ eq_refl)). apply bool_decide_eq_true in Hm. cbn in Hm. set_solver.
Qed.

Lemma collected_record c tagger subj se se' b :
  collected c tagger subj se b → collected c tagger subj se (record se' b).
Proof.
  intros [?|[?|[Hs Hh]]]; [by left|by right; left|]. right; right. unfold record. cbn.
  split; [apply lookup_insert_is_Some'; by right|]. intros Hm. apply erasureMatches_has_add; auto.
Qed.

Lemma record_collected c tagger subj se b : collected c tagger subj se (record se b).
Proof.
  right; right. unfold record. cbn. split; [apply lookup_insert_is_Some'; by left|]. intros Hm. apply erasureMatches_has_add; auto.
Qed.

Lemma record_matched se b : is_Some (fb_matched b) → is_Some (fb_matched (record se b)).
Proof. intros [m Hm]. cbn. by rewrite Hm. Qed.

Lemma attributeBatch_handles c tagger subj batch b w w' b' :
  attributeBatch envs c tagger subj batch b w = (w', b') →
  (is_Some (fb_matched b) → is_Some (fb_matched b')) ∧
  (∀ se, collected c tagger subj se b → collected c tagger subj se b') ∧
  ∀ se, se ∈ batch → collected c tagger subj se b'.
Proof.
  revert b w. induction batch as [|ev batch IH]; intros b w E; cbn [attributeBatch] in E.
  { injection E as _ <-. split; [done|]. split; [done|]. by intros se ?%not_elem_of_nil. }
  destruct (attribute envs c tagger ev w) as [w1 a] eqn:Ea.
  set (b1 := if attributedTo a subj then record ev b else if negb (attributed a) then setPartial b else b) in E.
  destruct (IH _ _ E) as (Hm' & Hkeep & Hnew). split; [|split].
  - intros Hm. apply Hm'. subst b1. destruct (attributedTo a subj); [by apply record_matched|by destruct (negb _)].
  - intros se Hc. apply Hkeep. subst b1. destruct (attributedTo a subj); [by apply collected_record|].
    destruct (negb _); [|done]. destruct Hc as [?|[?|?]]; [by left|by right; left|by right; right].
  - intros se [->|Hse]%elem_of_cons; [|by apply Hnew]. apply Hkeep. subst b1.
    destruct (attributedTo a subj) eqn:Ew; [by apply record_collected|].
    destruct (attributed a) eqn:Et; cbn [negb]; [|by right; left]. left. by eapply attribute_attributable.
Qed.

(** Marking the shared streams changes nothing else. *)
Lemma detectSharedStreams_same c tagger subj streams b w w' b' :
  detectSharedStreams envs others c tagger subj streams b w = (w', Ok b') →
  fb_streamSet b' = fb_streamSet b ∧ fb_keySet b' = fb_keySet b ∧ fb_matched b' = fb_matched b ∧
  fb_Partial b' = fb_Partial b.
Proof.
  revert b w. induction streams as [|s streams IH]; intros b w E; cbn [detectSharedStreams] in E; splits; try done.
  - match goal with E : _ = (_, Ok _) |- _ => destruct (IH _ _ E) as (-> & -> & -> & ->) end. by case_match.
  - match goal with E : _ = (_, Ok _) |- _ => by apply (IH _ _ E) end.
Qed.

Lemma elem_of_sortedSet `{MapOrder} (m : nameSet) k : k ∈ sortedSet m ↔ is_Some (m !! k).
Proof.
  unfold sortedSet, sortStrings. unfold exchangeSort at 1. rewrite exchangeLoop_perm, list_elem_of_fmap. split.
  - intros ([k' []] & -> & Hk). apply elem_of_range in Hk. by eexists.
  - intros [[] Hk]. exists (k, tt). split; [done|]. by apply elem_of_range.
Qed.

(** After a scan that is not partial, every event of the log the scan began
    with is someone else's, or in a stream of the footprint and remembered. *)
Lemma resolve_complete `{MapOrder} c scannable fuel r subj memo0 w w' fp memo :
  sr_index r = None → el_wf (adapter w) →
  resolve envs others c scannable fuel r subj memo0 w = (w', Ok (fp, memo)) →
  ∀ se, se ∈ logged w → fp_Partial fp = false →
    attributable c (sr_tagger r) se (othersOnly subj) ∨
    (se_StreamID se ∈ fp_Streams fp ∧ (is_Some memo0 → erasureMatches_has memo se = true)).
Proof using appends clock RevocableLaws0.
  intros Hidx Hwf E se Hse Hpart. unfold resolve in E. rewrite Hidx in E. destruct (bool_decide _); [done|].
  unfold resolveByScan in E. destruct (negb scannable); [done|].
  destruct (scanLoop _ _ _ _ _ _ _ _ _) as [w1 [b1|err]] eqn:Es; [|done].
  destruct (detectSharedStreams _ _ _ _ _ _ _ _) as [w2 [b2|err]] eqn:Ed; [|done]. injection E as _ <- <-.
  destruct (detectSharedStreams_same _ _ _ _ _ _ _ _ Ed) as (Hss & _ & Hmm & Hpp).
  destruct (scan_handles _ _ _ (λ b, is_Some memo0 → is_Some (fb_matched b)) (collected c (sr_tagger r) subj) _ _ (newFootprintBuilder subj memo0) _ _ _
    (λ batch b v v' b', attributeBatch_moved envs others clock appends _ _ _ _ _ _ _ _)
    (λ batch b v v' b' Hi Eb, match attributeBatch_handles _ _ _ _ _ _ _ _ Eb with conj Hk Hr => conj (λ Hm, Hk (Hi Hm)) Hr end)
    (λ Hm, Hm) Hwf Es) as (Hi & _ & Hc).
  cbn [finalize fp_Streams fp_Partial] in *. rewrite Hss, Hmm. rewrite Hpp in Hpart.
  destruct (Hc se Hse) as [?|[?|[? Hh]]]; [by apply (el_numbered (adapter w))|by left|congruence|].
  right. rewrite elem_of_sortedSet. split; [done|]. auto.
Qed.

(** ** The shared-key guard *)

(** Attribution gave the event to the subject and to nobody else. *)
Definition exclusivelyOf (subj : string) (a : subjectAttribution) : Prop := attributed a = true ∧ toOther a subj = false.

(** The event is under none of the keys, or its key was found shared, or it is
    the subject's alone. *)
Definition guardedBy c tagger (subj : string) (keys : nameSet) (se : StoredEvent) (acc : nameSet * nameSet) : Prop :=
  HasEncryptionEnvelope (se_Metadata se) = false ∨ keys !! GetEncryptionKeyID (se_Metadata se) = None ∨
  is_Some (acc.1 !! GetEncryptionKeyID (se_Metadata se)) ∨ attributable c tagger se (exclusivelyOf subj).

Lemma sharedInBatch_handles c e subj keys batch acc w w' acc' :
  sharedInBatch envs c e subj keys batch acc w = (w', acc') →
  (∀ se, guardedBy c (tagger e) subj keys se acc → guardedBy c (tagger e) subj keys se acc') ∧
  ∀ se, se ∈ batch → guardedBy c (tagger e) subj keys se acc'.
Proof.
  revert acc w. induction batch as [|ev batch IH]; intros acc w E; cbn [sharedInBatch] in E.
  { injection E as _ <-. split; [done|]. by intros se ?%not_elem_of_nil. }
  destruct acc as [shared others'].
  destruct (negb (HasEncryptionEnvelope (se_Metadata ev))) eqn:Ee.
  { destruct (IH _ _ E) as [Hkeep Hnew]. split; [done|]. intros se [->|?]%elem_of_cons; [|auto]. left. by destruct (HasEncryptionEnvelope _). }
  destruct (bool_decide _) eqn:Ek.
  { destruct (IH _ _ E) as [Hkeep Hnew]. split; [done|]. intros se [->|?]%elem_of_cons; [|auto].
    apply bool_decide_eq_true in Ek. by right; left. }
  destruct (attribute envs c (tagger e) ev w) as [w1 a] eqn:Ea. destruct (IH _ _ E) as [Hkeep Hnew]. split.
  - intros se Hg. apply Hkeep. destruct Hg as [?|[?|[Hs|?]]]; [by left|by right; left| |by right; right; right].
    right; right; left. cbn in *. destruct (attributed a && _); [done|]. apply lookup_insert_is_Some'. by right.
  - intros se [->|?]%elem_of_cons; [|auto]. apply Hkeep. cbn. destruct (attributed a && negb (toOther a subj)) eqn:Ex.
    + right; right; right. eapply attribute_attributable; [exact Ea|]. apply andb_true_iff in Ex as [??]. split; [done|].
      by destruct (toOther a subj).
    + right; right; left. apply lookup_insert_is_Some'. by left.
Qed.

(** Every event of the log under a key that passed the guard is the subject's
    alone. *)
Lemma detectSharedKeys_exclusive `{MapOrder} c scannable e fuel subj keys w w' :
  el_wf (adapter w) →
  detectSharedKeys envs others c scannable e fuel subj keys w = (w', Ok None) →
  ∀ se, se ∈ logged w → HasEncryptionEnvelope (se_Metadata se) = true →
    is_Some (keys !! GetEncryptionKeyID (se_Metadata se)) → attributable c (tagger e) se (exclusivelyOf subj).
Proof using appends clock RevocableLaws0.
  intros Hwf E se Hse Henv [u Hu]. unfold detectSharedKeys in E. destruct (negb scannable); [done|].
  destruct (scanLoop _ _ _ _ _ _ _ _ _) as [w1 [[shared others']|err]] eqn:Es; [|done].
  assert (guardedBy c (tagger e) subj keys se (shared, others')) as Hg.
  { destruct (scan_handles _ _ _ (λ _, True) (guardedBy c (tagger e) subj keys) _ _ _ _ _ _
      (λ batch acc v v' acc', sharedInBatch_moved envs others clock appends _ _ _ _ _ _ _ _ _)
      (λ batch acc v v' acc' _ Eb, conj I (sharedInBatch_handles _ _ _ _ _ _ _ _ _ Eb)) I Hwf Es) as (_ & _ & Hg).
    apply Hg; [done|]. by apply (el_numbered (adapter w)). }
  injection E as _ E. destruct (bool_decide (size shared = 0%nat)) eqn:Ez; [|done]. apply bool_decide_eq_true, map_size_empty_inv in Ez.
  subst shared. destruct Hg as [Hg|[Hg|[[x Hg]|?]]]; cbn in *; [congruence..| |done]. by apply lookup_empty_Some in Hg.
Qed.

(** ** The verification *)

(** Nothing left of the events, in the report. *)
Definition cleanEvents (rep : VerificationReport) : Prop :=
  vr_ResidualEncrypted rep = [] ∧ vr_ResidualRecoverable rep = [] ∧ vr_ResidualCleartext rep = [] ∧ vr_Partial rep = false.

Lemma checked_clean ref st rep : cleanEvents (checked ref st rep) → st = Some Revoked ∧ cleanEvents rep.
Proof.
  unfold cleanEvents. cbn. intros (He & Hr & Hc & Hp). destruct st as [[]|]; [| |done|].
  - by apply app_nil in He as [_ ?].
  - by apply app_nil in Hr as [_ ?].
  - by apply app_nil in Hc as [_ ?].
Qed.

Lemma unattributedAs_clean ref b rep : cleanEvents (unattributedAs ref b rep) → b = true ∧ cleanEvents rep.
Proof. unfold cleanEvents. cbn. destruct b; naive_solver. Qed.

(** Sealed under a key that is gone. *)
Definition shredded w (se : StoredEvent) : Prop :=
  HasEncryptionEnvelope (se_Metadata se) = true ∧ rv_gone (now envs w) (GetEncryptionKeyID (se_Metadata se)) (provider w).

Lemma moved_shredded w w' se : moved envs w w' → shredded w se → shredded w' se.
Proof using clock.
  intros Hm [He Hg]. split; [done|]. eapply gone_later; [|by apply now_le].
  apply Hm; [lia|done].
Qed.

Lemma revocationState_gone c m w w' :
  revocationState envs c m w = (w', Revoked) → rv_gone (now envs w') (GetEncryptionKeyID m) (provider w').
Proof using clock appends.
  intros E. pose proof (revocationState_moved _ others clock appends _ _ _ _ _ E) as Hm. revert E.
  unfold revocationState, withProvider, cfgRevocationState. destruct (es_encryption c) as [cfg|]; [|done].
  destruct (fe_hasProvider cfg); [|done].
  destruct (GetRevocationState _ _ _) as [p' [st|err]] eqn:Es; [|done]. intros [= <- ->].
  eapply gone_later; [|by apply (now_le envs clock w)]. by eapply revoked_gone.
Qed.

(** What the verification of a stream says of an event, once it is clean. *)
Definition attested c (tg : option SubjectTagger) (subj : string) (memo : erasureMatches) w (se : StoredEvent) : Prop :=
  (erasureMatches_has memo se = true → shredded w se) ∧ (shredded w se ∨ attributable c tg se (othersOnly subj)).

Lemma moved_attested c tg subj memo w w' se : moved envs w w' → attested c tg subj memo w se → attested c tg subj memo w' se.
Proof using clock.
  intros Hm [Hs Ha]. split; [intros Hmemo; eapply moved_shredded; eauto|].
  destruct Ha; [left; by eapply moved_shredded|by right].
Qed.

(** One event: owned and checked, filed, or somebody else's. *)
Lemma verifyEvent_clean c e subj memo se ref rep w w1 owns rep1 w2 rep2 :
  ownsEvent envs c e subj memo se ref rep w = (w1, (owns, rep1)) →
  (if owns : bool then recordChecked envs c ref (se_Metadata se) rep1 w1 else (w1, rep1)) = (w2, rep2) →
  cleanEvents rep2 → cleanEvents rep ∧ attested c (tagger e) subj memo w2 se.
Proof using clock appends.
  intros Eo Er Hc.
  assert (owns = true → rep1 = rep) as Hsame by (unfold ownsEvent in Eo; splits; done).
  destruct owns.
  - rewrite (Hsame eq_refl) in Er. unfold recordChecked in Er. destruct (negb _) eqn:Ee.
    { injection Er as _ <-. by apply checked_clean in Hc as [? _]. }
    destruct (revocationState _ _ _ _) as [w3 st] eqn:Es. injection Er as <- <-.
    apply checked_clean in Hc as [[= ->] Hc]. split; [done|].
    assert (shredded w3 se) as Hs.
    { split; [by destruct (HasEncryptionEnvelope _)|]. by eapply revocationState_gone. }
    split; [done|by left].
  - injection Er as <- <-. unfold ownsEvent in Eo. destruct (erasureMatches_has memo se) eqn:Em; [done|].
    destruct (attribute _ _ _ _ _) as [w3 a] eqn:Ea. destruct (attributedTo a subj) eqn:Et; [done|].
    destruct (attributed a) eqn:Ed; cbn [negb] in Eo.
    { injection Eo as <- <-. split; [done|]. split; [by rewrite Em|]. right. by eapply attribute_attributable. }
    unfold recordUnattributed in Eo. destruct (negb (HasEncryptionEnvelope _)) eqn:Ee.
    { injection Eo as <- <-. by apply unattributedAs_clean in Hc as [? _]. }
    destruct (revocationState _ _ _ _) as [w4 st] eqn:Es. injection Eo as <- <-.
    apply unattributedAs_clean in Hc as [Hst Hc]. split; [done|].
    assert (shredded w4 se) as Hs.
    { split; [by destruct (HasEncryptionEnvelope _)|]. destruct st; try done. by eapply revocationState_gone. }
    split; [done|by left].
Qed.

Lemma verifyStream_clean c e subj memo stored rep w w' rep' :
  verifyStream envs c e subj memo stored rep w = (w', rep') → cleanEvents rep' →
  cleanEvents rep ∧ ∀ se, se ∈ stored → attested c (tagger e) subj memo w' se.
Proof using clock appends.
  revert rep w. induction stored as [|ev stored IH]; intros rep w E Hc; cbn [verifyStream] in E.
  { injection E as _ <-. split; [done|]. by intros se ?%not_elem_of_nil. }
  set (ref := String.append _ _) in E. destruct (ownsEvent _ _ _ _ _ _ _ _ _) as [w1 [owns rep1]] eqn:Eo.
  destruct (if owns then _ else _) as [w2 rep2] eqn:Er. destruct (IH _ _ E Hc) as [Hc2 Hrest].
  destruct (verifyEvent_clean _ _ _ _ _ _ _ _ _ _ _ _ _ Eo Er Hc2) as [Hc0 Hev]. split; [done|].
  intros se [->|Hse]%elem_of_cons; [|auto]. eapply moved_attested; [|exact Hev]. by eapply (verifyStream_moved envs others).
Qed.

Lemma LoadRaw_stream w w' sid stored :
  el_wf (adapter w) → readLog envs others (λ env, LoadRaw env sid 0) w = (w', Ok stored) →
  ∀ se, se ∈ logged w → se_StreamID se = sid → se ∈ stored.
Proof using appends.
  unfold readLog, LoadRaw. intros Hwf [= <- E] se Hse Hsid.
  destruct (appends (sw_calls w) (adapter w) Hwf) as (Hwf' & Hp & _). destruct (bool_decide (sid = "")); [done|].
  cbn in E. rewrite el_load_spec in E by exact Hwf'. unfold LogSpec.load in E. inv_ok.
  apply list_elem_of_filter. split; [by apply (el_numbered (adapter w))|].
  apply elem_of_stream. split; [done|]. by eapply elem_of_prefix.
Qed.

(** A logged stream is never reported as missing. *)
Lemma LoadRaw_found w w' sid err :
  (∀ n, ctx_law (envs n)) → el_wf (adapter w) → readLog envs others (λ env, LoadRaw env sid 0) w = (w', Err err) →
  errors_Is err ErrStreamNotFound = false.
Proof using appends.
  unfold readLog, LoadRaw. intros Hctx Hwf [= <- E]. destruct (appends (sw_calls w) (adapter w) Hwf) as (Hwf' & _).
  destruct (bool_decide (sid = "")); [by injection E as <-|].
  cbn in E. rewrite el_load_spec in E by exact Hwf'. unfold LogSpec.load, check_ctx in E.
  destruct (ctx_Err (here envs w)) as [cerr|] eqn:Ec; cbn in E.
  { injection E as <-. by destruct (Hctx (sw_calls w) _ Ec) as [->| ->]. }
  destruct (LogSpec.closed _); cbn in E; [by injection E as <-|]. by destruct (bool_decide (sid = "")); cbn in E; [injection E as <-|].
Qed.

Lemma verifyStreams_clean c e subj streams memo rep w w' rep' :
  (∀ n, ctx_law (envs n)) → el_wf (adapter w) →
  verifyStreams envs others c e subj streams memo rep w = (w', rep', Ok tt) → cleanEvents rep' →
  cleanEvents rep ∧ ∀ se, se ∈ logged w → se_StreamID se ∈ streams → attested c (tagger e) subj memo w' se.
Proof using clock appends.
  intros Hctx. revert rep w. induction streams as [|sid streams IH]; intros rep w Hwf E Hc; cbn [verifyStreams] in E.
  { injection E as _ <-. split; [done|]. by intros se _ ?%not_elem_of_nil. }
  destruct (readLog _ _ _ _) as [w1 [stored|err]] eqn:El.
  2: { by rewrite (LoadRaw_found _ _ _ _ Hctx Hwf El) in E. }
  destruct (verifyStream _ _ _ _ _ _ _ _) as [w2 rep2] eqn:Ev.
  pose proof (readLog_moved envs others appends _ _ _ _ El) as Hm1.
  pose proof (verifyStream_moved envs others clock appends _ _ _ _ _ _ _ _ _ Ev) as Hm2.
  assert (el_wf (adapter w2)) as Hwf2 by (destruct (mv_grown _ _ _ Hm1 Hwf) as [Hwf1 _]; by destruct (mv_grown _ _ _ Hm2 Hwf1)).
  destruct (IH _ _ Hwf2 E Hc) as [Hc2 Hrest]. destruct (verifyStream_clean _ _ _ _ _ _ _ _ _ Ev Hc2) as [Hc0 Hev].
  split; [done|]. intros se Hse [Hs|Hs]%elem_of_cons.
  - eapply moved_attested; [exact (verifyStreams_moved envs others clock appends _ _ _ _ _ _ _ _ _ _ E)|]. apply Hev. by apply (LoadRaw_stream w w1 sid).
  - apply Hrest; [|done]. destruct (moved_logged _ _ _ Hm1 Hwf Hse) as [Hwf1 Hse1]. by eapply moved_logged.
Qed.
End Scan.
