(* ===== verification/ErasureTheorems.v ===== *)
(** * The properties of an erasure

    A certificate says [Verified] only when nothing of the subject is left in
    the streams it covers; the erasure's own streams and memo reach the
    certificate unchanged; and a scanned footprint covers the whole log. *)

From S2P Require Import Prelude.
From S2P Require Import Types.
From S2P Require Import Crypto.
From S2P Require Import LocalProvider.
From S2P Require Import Common.
From S2P Require Import Subject.
From S2P Require Import FieldEncryption.
From S2P Require Import LogInvariant.
From S2P Require Import MemoryAdmin.
From S2P Require Import MemoryTheorems.
From S2P Require Import EventLog.
From S2P Require Import EventStore.
From S2P Require Import Revocation.
From S2P Require Import SubjectResolver.
From S2P Require Import Eraser.
From S2P Require Import Verification.
From S2P Require Import Erasure.
From S2P Require Import ErasureFrames.
From S2P Require Import ErasureSafety.

(** ** Certificates *)

Lemma clean_events rep : clean rep = true → cleanEvents rep.
Proof. unfold clean, cleanEvents. intros E. zbool. by destruct (vr_Partial rep). Qed.

Lemma notes_verified ns d : ct_Verified (notes ns d) = ct_Verified d.
Proof. unfold notes. revert d. induction ns as [|n ns IH]; intros d; [done|]. cbn [foldl]. by rewrite IH. Qed.

Lemma gateVacuous_verified n r d : ct_Verified (gateVacuous n r d) = true → ct_Verified d = true.
Proof. unfold gateVacuous. by repeat case_match. Qed.

Lemma gateKeyOutcome_verified r d : ct_Verified (gateKeyOutcome r d) = true → er_KeysFailed r = [] ∧ ct_Verified d = true.
Proof.
  unfold gateKeyOutcome. rewrite notes_verified. destruct (bool_decide (er_KeysFailed r = [])) eqn:E; cbn [negb]; zbool.
  - by case_match.
  - by case_match.
Qed.

Lemma gateSubjectStores_verified outcomes d : ct_Verified (gateSubjectStores outcomes d) = true → ct_Verified d = true.
Proof.
  unfold gateSubjectStores. revert d. induction outcomes as [|o outcomes IH]; intros d Hd; [done|]. cbn in Hd. apply IH in Hd.
  unfold gateSubjectStore in Hd. by repeat case_match.
Qed.

Lemma blockIf_verified (b : bool) n d : ct_Verified (if b then block n d else d) = true → b = false ∧ ct_Verified d = true.
Proof. by destruct b. Qed.

(** ** What a step keeps of the result *)

Record kept (r r' : ErasureResult) : Prop := {
  kp_streams : er_Streams r' = er_Streams r;
  kp_attributed : er_attributed r' = er_attributed r;
  kp_purged : er_SubjectIndexPurged r' = er_SubjectIndexPurged r;
  kp_partial : er_Partial r = true → er_Partial r' = true;
}.

#[export] Instance kept_preorder : PreOrder kept.
Proof. split; [by split|]. intros r1 r2 r3 [] []. split; [congruence..|auto]. Qed.

(** The keys too. *)
Record keptKeys (r r' : ErasureResult) : Prop := {
  kk_kept : kept r r';
  kk_revoked : er_KeysRevoked r' = er_KeysRevoked r;
  kk_failed : er_KeysFailed r' = er_KeysFailed r;
}.

#[export] Instance keptKeys_preorder : PreOrder keptKeys.
Proof. split; [by split|]. intros r1 r2 r3 [] []. split; [by etransitivity|congruence..]. Qed.

Lemma upd_end_kept m fx ns errs r : keptKeys r (upd_end m fx ns (er_SubjectIndexPurged r) errs r).
Proof. by repeat split. Qed.
Lemma upd_models_kept a b errs r : keptKeys r (upd_models a b errs r).
Proof. by repeat split. Qed.
Lemma upd_stores_kept a b errs r : keptKeys r (upd_stores a b errs r).
Proof. by repeat split. Qed.
Lemma addError_kept err r : keptKeys r (addError err r).
Proof. by repeat split. Qed.
Lemma addNote_kept n r : keptKeys r (addNote n r).
Proof. by repeat split. Qed.
Create HintDb kept discriminated.
#[export] Hint Resolve upd_end_kept upd_models_kept upd_stores_kept addError_kept addNote_kept : kept.

Section Theorems.
Context {V Ser A P X O : Type} `{AEAD} `{ProviderOps P} `{!RevocableOps P} `{!RevocableLaws P} `{SerializerOps V Ser}
  `{SubjectIndexWriter X} `{EventLogOps A} `{!EventLogLaws A} `{MapOrder} `{MarkerJSON}.
Context (envs : nat → Env) (others : nat → A → A) (clock : monotone_clock envs) (appends : appends_only others).
Context (c : EventStore) (scannable : bool) (e : DataEraser O) (mkMarker : ErasureMarker → V) (senvs : nat → StoreEnv).
Implicit Types w : SubjectWorld A P Ser X O.

#[local] Instance moved_order : PreOrder (moved (Ser := Ser) (A := A) (P := P) (X := X) (O := O) envs) := moved_preorder envs clock.

Lemma moved_trans w1 w2 w3 : moved envs w1 w2 → moved envs w2 w3 → moved envs w1 w3.
Proof using clock. intros ??. by transitivity w2. Qed.

Lemma redactReadModels_kept subj r w w' r' : redactReadModels envs e subj r w = (w', r') → keptKeys r r'.
Proof.
  unfold redactReadModels.
  assert (∀ l r w w' r', redactAll envs l subj r w = (w', r') → keptKeys r r') as Hr.
  { induction l as [|[name f] l IH]; intros r1 w1 w2 r2 E; cbn [redactAll] in E; splits; try reflexivity;
      (etransitivity; [|by eapply IH]); auto with kept. }
  assert (∀ l r w w' r', rebuildAll envs l r w = (w', r') → keptKeys r r') as Hb.
  { induction l as [|[name f] l IH]; intros r1 w1 w2 r2 E; cbn [rebuildAll] in E; splits; try reflexivity;
      (etransitivity; [|by eapply IH]); auto with kept. }
  intros E. splits. etransitivity; [by eapply Hr|by eapply Hb].
Qed.

Lemma eraseSubjectStores_kept subj r w w' r' : eraseSubjectStores envs e subj r w = (w', r') → keptKeys r r'.
Proof.
  assert (∀ l fp sk r w w' sk' r', eraseStores envs l subj fp sk r w = (w', (sk', r')) → keptKeys r r') as Hs.
  { induction l as [|st l IH]; intros fp sk r1 w1 w2 sk2 r2 E; cbn [eraseStores] in E; splits; try reflexivity;
      (etransitivity; [|by eapply IH]); auto with kept. }
  unfold eraseSubjectStores. destruct (de_subjectStores e) as [|st stores]; [by intros [= _ <-]|].
  destruct (eraseStores _ _ _ _ _ _ _) as [w1 [sk r1]] eqn:Es. apply Hs in Es. intros [= _ <-].
  etransitivity; [exact Es|]. case_match; [auto with kept|reflexivity].
Qed.

Lemma runErasureHooks_kept subj r w w' r' : runErasureHooks envs e subj r w = (w', r') → keptKeys r r'.
Proof.
  unfold runErasureHooks. generalize (mkErasureContext subj (er_Streams r) (er_KeysRevoked r)). intros ec. revert r w.
  induction (de_hooks e) as [|[name f] l IH]; intros r1 w1 E; cbn [runHooks] in E; splits; try reflexivity;
    (etransitivity; [|by eapply IH]); auto with kept.
Qed.

Lemma reachDerived_kept subj r w w' r' : reachDerived envs e subj r w = (w', r') → keptKeys r r'.
Proof.
  unfold reachDerived. intros E. splits. etransitivity; [by eapply redactReadModels_kept|].
  etransitivity; [by eapply eraseSubjectStores_kept|by eapply runErasureHooks_kept].
Qed.

Lemma writeMarker_kept subj cache r w w' cache' r' err :
  writeMarker envs others c e mkMarker senvs subj cache r w = (w', cache', (r', err)) → keptKeys r r'.
Proof. unfold writeMarker, setMarkerWritten. intros E. splits; try reflexivity; auto with kept. Qed.

Lemma buildCertificate_kept subj r w w' r' cert : buildCertificate envs others c e subj r w = (w', (r', cert)) → keptKeys r r'.
Proof.
  unfold buildCertificate, attestEvidence. intros E. splits; try reflexivity; try (auto with kept; fail).
  etransitivity; [apply addError_kept|apply addError_kept].
Qed.

Lemma certify_kept subj r w w' r' cert err : certify envs others c e subj r w = (w', (r', cert, err)) → keptKeys r r'.
Proof.
  unfold certify, emitCertificate. intros E. splits; try reflexivity; try (by eapply buildCertificate_kept);
    (etransitivity; [by eapply buildCertificate_kept|apply addError_kept]).
Qed.

Lemma reconcileAfterRevoke_kept cfg fuel resolver subj keys r w w' r' :
  reconcileAfterRevoke envs others c scannable e cfg fuel resolver subj keys r w = (w', r') → kept r r'.
Proof.
  assert (∀ l r w w' r', revokeLate envs cfg l r w = (w', r') → kept r r') as Hl.
  { induction l as [|k l IH]; intros r1 w1 w2 r2 E; cbn [revokeLate] in E; splits; try reflexivity;
      (etransitivity; [|by eapply IH]); by split. }
  unfold reconcileAfterRevoke. intros E. splits; try reflexivity; try (by split); try (by repeat split).
  all: etransitivity; [by eapply Hl|by split].
Qed.

(** ** From the certificate to the events *)

Lemma count_events stores subj fp verified rep w w' rep' x :
  countSubjectResiduals envs stores subj fp verified rep w = (w', rep', x) → cleanEvents rep' → cleanEvents rep.
Proof.
  revert verified rep w. induction stores as [|st stores IH]; intros verified rep w E Hc; cbn [countSubjectResiduals] in E; splits;
    try exact Hc; match goal with E : countSubjectResiduals _ _ _ _ _ _ _ = _ |- _ => exact (IH _ _ _ E Hc) end.
Qed.

Lemma buildCertificate_attests subj r w w' r' cert :
  (∀ n, ctx_law (envs n)) → el_wf (adapter w) →
  buildCertificate envs others c e subj r w = (w', (r', cert)) → ct_Verified cert = true →
  er_Partial r = false ∧ er_KeysFailed r = [] ∧
  ∀ se, se ∈ logged w → se_StreamID se ∈ er_Streams r → attested envs c (tagger e) subj (er_attributed r) w' se.
Proof using clock appends RevocableLaws0.
  intros Hctx Hwf E Hv. change (el_wf (adapter (step w))) in Hwf. unfold buildCertificate, attestEvidence in E.
  destruct (verifyStreams _ _ _ _ _ _ _ _ _) as [[w1 vr] res] eqn:Ev.
  pose proof (verifyStreams_moved envs others clock appends _ _ _ _ _ _ _ _ _ _ Ev) as Hm1.
  destruct (match res with Ok _ => _ | Err _ => _ end) as [r1 d1] eqn:E1.
  destruct (countSubjectResiduals _ _ _ _ _ _ _) as [[w2 vr2] [sv cerr]] eqn:Ec.
  pose proof (countSubjectResiduals_moved envs others clock appends _ _ _ _ _ _ _ _ _ Ec) as Hm2.
  destruct (match cerr with None => _ | Some _ => _ end) as [r2 d2] eqn:E2.
  injection E as <- <- <-.
  apply blockIf_verified in Hv as [_ Hv]. apply gateSubjectStores_verified in Hv. apply blockIf_verified in Hv as [_ Hv].
  apply gateKeyOutcome_verified in Hv as [Hf Hv]. apply gateVacuous_verified in Hv. rewrite notes_verified in Hv.
  cbn in Hv. apply andb_true_iff in Hv as [Hd Hc]. apply clean_events in Hc.
  assert (er_KeysFailed r2 = er_KeysFailed r1 ∧ ct_Verified d1 = true) as [Hf2 Hd1].
  { destruct cerr; injection E2 as <- <-; [done|]. by split. }
  assert (er_KeysFailed r1 = er_KeysFailed r ∧ res = Ok tt) as [Hf1 ->].
  { destruct res as [[]|]; injection E1 as <- <-; [by split|done]. }
  pose proof (count_events _ _ _ _ _ _ _ _ _ Ec Hc) as Hc1.
  destruct (verifyStreams_clean _ _ clock appends _ _ _ _ _ _ _ _ _ Hctx Hwf Ev Hc1) as [Hc0 Hall].
  split; [apply Hc0|]. split; [congruence|]. intros se Hse Hs. eapply moved_attested; [done|exact Hm2|].
  by apply (Hall se Hse).
Qed.

(** The marker is one more event at most. *)
Lemma Append_grown senv sid v cfg (st st' : Store A P Ser X) r :
  el_wf (st_adapter st) → room (st_adapter st) → Append c senv sid [v] cfg st = (st', r) →
  grown (st_adapter st) (st_adapter st').
Proof.
  intros Hwf Hroom E _.
  unfold Append in E. destruct (es_serializerErr c); [by injection E as <-|].
  destruct (bool_decide (sid = "")); [by injection E as <-|]. destruct (bool_decide _) in E; [by injection E as <-|].
  destruct (autoRegisterEvents c [v] st) as [st1 rr] eqn:Er.
  assert (st_adapter st1 = st_adapter st) as Ha.
  { revert Er. unfold autoRegisterEvents, RegisterEvents. destruct (es_autoRegister c); [|by intros [= <- _]].
    by destruct (ser_RegisterAll _ _) as [ser' r']; intros [= <- _]. }
  destruct rr as [[]|]; [|by injection E as <- _; rewrite Ha].
  destruct (_ <? _); [by injection E as <- _; rewrite Ha|].
  unfold writeEvents in E. cbn [prepareRecords] in E.
  destruct (SerializeEvent _ _ _) as [ed|err]; [|by injection E as <- _; cbn; rewrite Ha].
  destruct (prepareEventDataWith _ _ _ _ _ _ _ _) as [p [ed'|err]]; [|by injection E as <- _; cbn; rewrite Ha].
  destruct (el_Append _ _ _ _ _) as [a res] eqn:Ee. cbn [app set_provider st_adapter] in Ee. rewrite Ha in Ee.
  assert (Z.of_nat (length (LogSpec.log (el_view (st_adapter st))) + length [mkEventRecord (ed_Type ed') (ed_Data ed') (ed_Metadata ed')]) ≤ MaxInt64)
    as Hfit by (unfold room in Hroom; cbn [length]; lia).
  pose proof (el_append_wf _ _ _ _ _ _ _ Hwf Hfit Ee) as Hwf'.
  destruct (el_append_spec _ _ _ _ _ _ _ Hwf Hfit Ee) as [Hs He].
  assert (LogSpec.log (el_view (st_adapter st)) `prefix_of` LogSpec.log (el_view a)) as Hp.
  { destruct res as [new|err]; [|by rewrite (He err)]. destruct (check_ctx (se_env senv)); [|by destruct Hs].
    apply LogSpec_append_Ok in Hs as [-> _]. cbn. by apply prefix_app_r. }
  destruct res; injection E as <- _; [|by cbn].
  unfold writeSubjectIndex. by destruct (negb (es_hasIndex c) || _).
Qed.

Lemma writeMarker_grown subj cache r w w' cache' x :
  el_wf (adapter w) → room (adapter w) →
  writeMarker envs others c e mkMarker senvs subj cache r w = (w', cache', x) → grown (adapter w) (adapter w').
Proof using clock appends RevocableLaws0.
  intros Hwf Hroom E. unfold writeMarker in E. destruct (bool_decide _); [by injection E as <-|].
  assert (∀ cache1 res, appendMarker envs others c e mkMarker (senvs (sw_calls w)) subj r cache w = (w', cache1, res) →
    grown (adapter w) (adapter w')) as Ha; [|splits; eauto].
  clear E. intros cache1 res E. unfold appendMarker in E. destruct (markerExists _ _ _ _ _ _) as [[w1 cache2] found] eqn:Ex.
  assert (moved envs w w1) as Hm.
  { unfold markerExists in Ex. splits; try reflexivity. all: by eapply (readLog_moved envs others). }
  destruct found; [injection E as <- _ _; apply Hm|]. etransitivity; [apply Hm|].
  destruct (mv_grown _ _ _ Hm Hwf) as [Hwf1 _]. pose proof (mv_room _ _ _ Hm Hwf Hroom) as Hroom1.
  intros _. destruct (appends (sw_calls w1) _ Hwf1) as (Hwf2 & Hp2 & Hroom2).
  match type of E with context [Append ?c ?se ?s [?v] ?cfg ?st] =>
    destruct (Append c se s [v] cfg st) as [st' res'] eqn:Eap; pose proof (Append_grown se s v cfg st st' res' Hwf2 (Hroom2 Hroom1) Eap Hwf2) as [Hwf3 Hp3] end.
  assert (adapter w' = st_adapter st') as -> by (by destruct res'; injection E as <- _ _).
  split; [done|]. by etransitivity.
Qed.

(** ** From the erasure to the certificate *)

Lemma certify_attests subj r w w' r' cert err :
  (∀ n, ctx_law (envs n)) → el_wf (adapter w) →
  certify envs others c e subj r w = (w', (r', cert, err)) → ct_Verified cert = true →
  er_Partial r = false ∧ er_KeysFailed r = [] ∧
  ∀ se, se ∈ logged w → se_StreamID se ∈ er_Streams r → attested envs c (tagger e) subj (er_attributed r) w' se.
Proof using clock appends RevocableLaws0.
  intros Hctx Hwf E Hv. unfold certify, emitCertificate in E. destruct (de_certSink e) as [sink|].
  - destruct (buildCertificate _ _ _ _ _ _ _) as [w1 [r1 cert1]] eqn:Eb.
    destruct (withOut _ _ _) as [w2 res] eqn:Eo. pose proof (withOut_moved envs _ _ _ _ Eo) as Hm.
    assert (cert1 = cert ∧ w2 = w') as [-> ->] by (destruct res; [|destruct (de_strictAccountability e)]; by injection E as <- _ <-).
    destruct (buildCertificate_attests _ _ _ _ _ _ Hctx Hwf Eb Hv) as (Hp & Hf & Hall). split; [done|]. split; [done|].
    intros se Hse Hs. eapply moved_attested; [done|exact Hm|]. by apply Hall.
  - destruct (de_indexPurger e); [|by injection E as _ _ <- _]. splits. by eapply buildCertificate_attests.
Qed.

Lemma certify_moved subj r w w' x : certify envs others c e subj r w = (w', x) → moved envs w w'.
Proof using clock appends RevocableLaws0.
  unfold certify, emitCertificate. intros E. splits; try reflexivity.
  all: try by eapply (buildCertificate_moved envs others).
  all: etransitivity; [by eapply (buildCertificate_moved envs others)|by eapply withOut_moved].
Qed.

Definition purge_moved_kept (verified : bool) (r r' : ErasureResult) : Prop :=
  er_Streams r' = er_Streams r ∧ er_KeysRevoked r' = er_KeysRevoked r ∧ er_KeysFailed r' = er_KeysFailed r ∧
  (er_SubjectIndexPurged r' = true → er_SubjectIndexPurged r = true ∨ verified = true ∧ Failed r' = false).

Lemma purgeSubjectIndex_spec purge subj verified r w w' r' :
  purgeSubjectIndex envs purge subj verified r w = (w', r') → moved envs w w' ∧ purge_moved_kept verified r r'.
Proof using clock RevocableLaws0.
  unfold purgeSubjectIndex, purge_moved_kept. destruct (Failed r || negb verified) eqn:Ef.
  { intros [= <- <-]. split; [reflexivity|]. cbn. repeat split; auto. }
  apply orb_false_iff in Ef as [Ef Ev]. destruct (withOut _ _ _) as [w1 res] eqn:Eo.
  pose proof (withOut_moved envs _ _ _ _ Eo) as Hm.
  destruct res; intros [= <- <-]; (split; [done|]); cbn; repeat split; auto. right. split; [by destruct verified|exact Ef].
Qed.

(** The end of an erasure: what it returns, and what a verified certificate
    attests. *)
Lemma concludeErasure_spec subj cache r w w' cache' o :
  (∀ n, ctx_law (envs n)) → el_wf (adapter w) → room (adapter w) → er_SubjectIndexPurged r = false →
  concludeErasure envs others c e mkMarker senvs subj cache r w = (w', cache', o) →
  ∃ r', ee_result o = Some r' ∧ er_KeysRevoked r' = er_KeysRevoked r ∧ er_KeysFailed r' = er_KeysFailed r ∧
    er_Streams r' = er_Streams r ∧
    (er_SubjectIndexPurged r' = true → ct_Verified (ee_cert o) = true ∧ Failed r' = false) ∧
    (ct_Verified (ee_cert o) = true → er_Partial r = false ∧ er_KeysFailed r = [] ∧
      ∀ se, se ∈ logged w → se_StreamID se ∈ er_Streams r → attested envs c (tagger e) subj (er_attributed r) w' se).
Proof using clock appends RevocableLaws0.
  intros Hctx Hwf Hroom Hp E. unfold concludeErasure in E.
  destruct (reachDerived _ _ _ _ _) as [w1 r1] eqn:E1.
  pose proof (reachDerived_moved envs others clock appends _ _ _ _ _ _ E1) as Hm1.
  destruct (mv_grown _ _ _ Hm1 Hwf) as [Hwf1 Hp1]. pose proof (mv_room _ _ _ Hm1 Hwf Hroom) as Hroom1.
  destruct (reachDerived_kept _ _ _ _ _ E1) as [K1 Kr1 Kf1].
  destruct (writeMarker _ _ _ _ _ _ _ _ _ _) as [[w2 cache2] [r2 merr]] eqn:E2.
  destruct (writeMarker_kept _ _ _ _ _ _ _ _ E2) as [K2 Kr2 Kf2].
  destruct (writeMarker_grown _ _ _ _ _ _ _ Hwf1 Hroom1 E2 Hwf1) as [Hwf2 Hp2].
  pose proof (transitivity K1 K2) as K12. destruct K12 as [Ks Ka Kp Kpart].
  destruct merr as [merr|].
  { injection E as <- _ <-. exists r2. cbn. split_and!; [done|congruence..| |done]. rewrite Kp, Hp. done. }
  destruct (certify _ _ _ _ _ _ _) as [w3 [[r3 cert] cerr]] eqn:E3.
  destruct (certify_kept _ _ _ _ _ _ _ E3) as [K3 Kr3 Kf3]. destruct K3 as [Ks3 Ka3 Kp3 Kpart3].
  assert (ct_Verified cert = true → er_Partial r = false ∧ er_KeysFailed r = [] ∧
    ∀ se, se ∈ logged w → se_StreamID se ∈ er_Streams r → attested envs c (tagger e) subj (er_attributed r) w3 se) as Hatt.
  { intros Hv. destruct (certify_attests _ _ _ _ _ _ _ Hctx Hwf2 E3 Hv) as (Hpart & Hf & Hall). split; [|split].
    - destruct (er_Partial r); [|done]. by rewrite Kpart in Hpart.
    - congruence.
    - intros se Hse Hs. rewrite <- Ka. apply Hall; [|congruence]. eapply elem_of_prefix; [|exact Hp2]. by eapply elem_of_prefix. }
  destruct cerr as [cerr|].
  { injection E as <- _ <-. exists r3. cbn. split_and!; [done|congruence..| |done]. rewrite Kp3, Kp, Hp. done. }
  destruct (de_indexPurger e) as [purge|].
  - destruct (purgeSubjectIndex _ _ _ _ _ _) as [w4 r4] eqn:E4. injection E as <- _ <-.
    destruct (purgeSubjectIndex_spec _ _ _ _ _ _ _ E4) as (Hm4 & Ks4 & Kr4 & Kf4 & Kp4).
    exists r4. cbn. split_and!; [done|congruence..| |].
    + intros Hx. destruct (Kp4 Hx) as [Hx'|?]; [|done]. rewrite Kp3, Kp, Hp in Hx'. done.
    + intros Hv. destruct (Hatt Hv) as (? & ? & Hall). split_and!; [done..|]. intros se Hse Hs.
      eapply moved_attested; [done|exact Hm4|]. by apply Hall.
  - injection E as <- _ <-. exists r3. cbn. split_and!; [done|congruence..| |done]. rewrite Kp3, Kp, Hp. done.
Qed.

(** ** The whole erasure *)

Lemma elem_of_addNames names m k : is_Some (addNames names m !! k) ↔ k ∈ names ∨ is_Some (m !! k).
Proof.
  unfold addNames. revert m. induction names as [|n names IH]; intros m; cbn [foldl]; [set_solver|].
  pose proof (lookup_insert_is_Some' m n k tt) as Hi. rewrite IH, elem_of_cons. naive_solver.
Qed.

Lemma elem_of_sortStrings l k : k ∈ sortStrings l ↔ k ∈ l.
Proof. unfold sortStrings, exchangeSort. by rewrite exchangeLoop_perm. Qed.

Lemma revokeScope_Ok cfg subj at' s w w' r :
  revokeScope envs cfg subj at' s w = (w', Ok r) →
  er_Streams r = sortedSet (es_streamSet s) ∧ er_attributed r = es_attributed s ∧ er_Partial r = es_partial s ∧
  er_SubjectIndexPurged r = false.
Proof. unfold revokeScope. intros E. splits. done. Qed.

(** The steps of an erasure that returned a result: the scope it found, the
    world the scope was found in, and the result and world it concluded from. *)
Lemma eraseAndCertify_steps fuel req cache w w' cache' o r :
  eraseAndCertify envs others c scannable e mkMarker senvs fuel req cache w = (w', cache', o) → ee_result o = Some r →
  ∃ cfg s r1 r2 w1 w2 w3 w4,
    es_encryption c = Some cfg ∧
    scopeErasure envs others c scannable e fuel req (step w) = (w1, Ok s) ∧
    guardSharedKeys envs others c scannable e fuel (rq_SubjectID req) (es_keySet s) w1 = (w2, Ok tt) ∧
    revokeScope envs cfg (rq_SubjectID req) (time_Now (here envs w) 0) s w2 = (w3, Ok r1) ∧
    (if es_resolved s then
       match de_resolver e with
       | Some resolver => reconcileAfterRevoke envs others c scannable e cfg fuel resolver (rq_SubjectID req) (es_keySet s) r1 w3
       | None => (w3, r1)
       end else (w3, r1)) = (w4, r2) ∧
    concludeErasure envs others c e mkMarker senvs (rq_SubjectID req) cache r2 w4 = (w', cache', o).
Proof.
  unfold eraseAndCertify. intros E Hr.
  destruct (bool_decide (rq_SubjectID req = "")); [by injection E as _ _ <-|].
  destruct (es_encryption c) as [cfg|]; [|by injection E as _ _ <-].
  destruct (scopeErasure _ _ _ _ _ _ _ _) as [w1 [s|err]] eqn:E1; [|by injection E as _ _ <-].
  destruct (guardSharedKeys _ _ _ _ _ _ _ _ _) as [w2 [[]|err]] eqn:E2; [|by injection E as _ _ <-].
  destruct (revokeScope _ _ _ _ _ _) as [w3 [r1|err]] eqn:E3; [|by injection E as _ _ <-].
  destruct (es_resolved s) eqn:Es; [destruct (de_resolver e) as [resolver|] eqn:Ed|].
  - destruct (reconcileAfterRevoke _ _ _ _ _ _ _ _ _ _ _ _) as [w4 r2] eqn:E4.
    exists cfg, s, r1, r2, w1, w2, w3, w4. rewrite Es. auto 10.
  - exists cfg, s, r1, r1, w1, w2, w3, w3. rewrite Es. auto 10.
  - exists cfg, s, r1, r1, w1, w2, w3, w3. rewrite Es. auto 10.
Qed.

(** Everything before the conclusion only reads and revokes. *)
Lemma reconcile_step cfg fuel s subj r1 r2 w w' :
  (if es_resolved s then
     match de_resolver e with
     | Some resolver => reconcileAfterRevoke envs others c scannable e cfg fuel resolver subj (es_keySet s) r1 w
     | None => (w, r1)
     end else (w, r1)) = (w', r2) → moved envs w w' ∧ kept r1 r2.
Proof using clock appends RevocableLaws0.
  intros E. destruct (es_resolved s); [destruct (de_resolver e) as [resolver|]|].
  - split; [by eapply (reconcileAfterRevoke_moved envs others clock appends)|by eapply reconcileAfterRevoke_kept].
  - injection E as <- <-. by split.
  - injection E as <- <-. by split.
Qed.

(** The scope of a request that names only the subject. *)
Lemma scopeErasure_resolved fuel subj resolver w w1 s :
  de_resolver e = Some resolver → sr_index resolver = None → el_wf (adapter w) →
  scopeErasure envs others c scannable e fuel (mkErasureRequest subj [] None [] None None) w = (w1, Ok s) →
  es_partial s = false →
  ∀ se, se ∈ logged w → attributable (P := P) c (sr_tagger resolver) se (othersOnly subj) ∨
    is_Some (es_streamSet s !! se_StreamID se) ∧ erasureMatches_has (es_attributed s) se = true.
Proof using clock appends RevocableLaws0.
  intros Hres Hidx Hwf E Hp se Hse. unfold scopeErasure, resolves in E. rewrite Hres in E. cbn [rq_Streams rq_Filter rq_KeyIDs rq_SubjectID] in E.
  rewrite !bool_decide_true in E by done. cbn [andb] in E.
  destruct (resolve _ _ _ _ _ _ _ _ _) as [w2 [[fp memo]|err]] eqn:Er; [|done]. injection E as _ <-. cbn in *.
  destruct (resolve_complete _ _ clock appends _ _ _ _ _ _ _ _ _ _ Hidx Hwf Er se Hse Hp) as [?|[Hs Hm]]; [by left|].
  right. split; [|by apply Hm]. apply elem_of_addNames. by left.
Qed.

(** ** The keys an erasure calls the provider with *)

Lemma revokeKeys_keys cfg fmt keys revoked failed errs w w' revoked' failed' errs' :
  revokeKeys envs cfg fmt keys revoked failed errs w = (w', Ok (revoked', failed', errs')) →
  ∀ k, k ∈ revoked' ++ failed' → k ∈ keys ∨ k ∈ revoked ++ failed.
Proof using Type.
  clear clock appends. revert revoked failed errs w. induction keys as [|k keys IH]; intros revoked failed errs w E; cbn [revokeKeys] in E.
  { injection E as _ <- <- _. by right. }
  intros k' Hk'. destruct (withProvider _ _ _) as [w1 [[]|err]]; [|destruct (errors_Is _ _); [done|]];
    destruct (IH _ _ _ _ E k' Hk'); set_solver.
Qed.

Lemma revokeLate_keys cfg keys r w w' r' :
  revokeLate envs cfg keys r w = (w', r') →
  ∀ k, k ∈ er_KeysRevoked r' ++ er_KeysFailed r' → k ∈ keys ∨ k ∈ er_KeysRevoked r ++ er_KeysFailed r.
Proof using Type.
  clear clock appends. revert r w. induction keys as [|k keys IH]; intros r w E; cbn [revokeLate] in E.
  { injection E as _ <-. by right. }
  intros k' Hk'. destruct (withProvider _ _ _) as [w1 [[]|err]]; destruct (IH _ _ E k' Hk'); cbn in *; set_solver.
Qed.

(** A key the guard let pass: every logged event under it is the subject's alone. *)
Definition exclusiveKey (subj : string) w (k : string) : Prop :=
  ∀ se, se ∈ logged w → HasEncryptionEnvelope (se_Metadata se) = true → GetEncryptionKeyID (se_Metadata se) = k →
    attributable (P := P) c (tagger e) se (exclusivelyOf subj).

Hypothesis Hguard : de_sharedKeyGuard e = true.
Hypothesis Hallow : de_allowSharedKey e = false.

Lemma guardSharedKeys_exclusive fuel subj keys w w' :
  el_wf (adapter w) → guardSharedKeys envs others c scannable e fuel subj keys w = (w', Ok tt) →
  ∀ k, is_Some (keys !! k) → exclusiveKey subj w k.
Proof using clock appends RevocableLaws0 Hguard Hallow.
  intros Hwf E k Hk se Hse Henv <-. unfold guardSharedKeys in E. rewrite Hguard, Hallow in E. cbn [andb negb] in E.
  destruct (bool_decide (size keys = 0%nat)) eqn:Ez; cbn [negb] in E.
  { apply bool_decide_eq_true, map_size_empty_inv in Ez. subst keys. destruct Hk as [x Hk]. by apply lookup_empty_Some in Hk. }
  destruct (detectSharedKeys _ _ _ _ _ _ _ _ _) as [w1 [[serr|]|err]] eqn:Ed; [done| |done].
  by eapply (detectSharedKeys_exclusive envs others clock appends).
Qed.

Lemma reconcileAfterRevoke_exclusive cfg fuel resolver subj keys r w w' r' :
  el_wf (adapter w) → reconcileAfterRevoke envs others c scannable e cfg fuel resolver subj keys r w = (w', r') →
  ∀ k, k ∈ er_KeysRevoked r' ++ er_KeysFailed r' → k ∈ er_KeysRevoked r ++ er_KeysFailed r ∨ exclusiveKey subj w k.
Proof using clock appends RevocableLaws0 Hguard Hallow.
  intros Hwf E k Hk. unfold reconcileAfterRevoke in E. rewrite Hguard, Hallow in E. cbn [andb negb] in E.
  destruct (Resolve _ _ _ _ _ _ _ _) as [w1 [fp|err]] eqn:Er; [|injection E as _ <-; by left].
  pose proof (Resolve_moved envs others clock appends _ _ _ _ _ _ _ _ Er) as Hm.
  set (newKeys := filter _ _) in E. destruct (bool_decide (newKeys = [])); [injection E as _ <-; by left|].
  destruct (detectSharedKeys _ _ _ _ _ _ _ _ _) as [w2 g] eqn:Ed.
  destruct (match g with Ok serr => _ | Err _ => _ end) as [err|] eqn:Eg; [injection E as _ <-; by left|].
  destruct (revokeLate _ _ _ _ _) as [w3 r3] eqn:El. injection E as _ <-. cbn in Hk.
  assert (k ∈ er_KeysRevoked r3 ++ er_KeysFailed r3) as Hk3 by (rewrite elem_of_app, !elem_of_sortStrings in Hk; by rewrite elem_of_app).
  destruct (revokeLate_keys _ _ _ _ _ _ El k Hk3) as [Hn|?]; [right|by left].
  destruct g as [[serr|]|err]; try done. intros se Hse Henv <-.
  destruct (moved_logged _ _ _ _ Hm Hwf Hse) as [Hwf1 Hse1].
  eapply (detectSharedKeys_exclusive envs others clock appends); [exact Hwf1|exact Ed|done|done|].
  apply elem_of_addNames. by left.
Qed.
End Theorems.

(** * The scans end *)

Section Termination.
Context {Ser A P X O : Type} `{AEAD} `{ProviderOps P} `{EventLogOps A} `{!EventLogLaws A}.
Context (envs : nat → Env) (others : nat → A → A).
Hypothesis Hctx : ∀ n, ctx_law (envs n).
Hypothesis Hquiet : ∀ n a, others n a = a.
Implicit Types w : SubjectWorld A P Ser X O.

Lemma ctx_not_Blocked w : ctx_Err (here envs w) ≠ Some Blocked.
Proof using Hctx. intros E. by destruct (Hctx _ _ E). Qed.

Lemma quiet_page pos limit w :
  el_wf (adapter w) → ∃ r, readLog envs others (λ env, LoadEventsFromPosition env pos limit) w = (step w, r) ∧
  ∀ batch, r = Ok batch → ∃ n, (0 < n)%nat ∧ batch = take n (selected pos emptyFilter (logged w)).
Proof using Hquiet.
  intros Hwf. unfold readLog. rewrite Hquiet. eexists. split.
  { f_equal. unfold step. f_equal. by destruct (sw_store w). }
  intros batch. unfold LoadEventsFromPosition. cbn. rewrite el_feed_spec by exact Hwf. unfold LogSpec.feed. intros E. inv_ok.
  eexists. split; [|reflexivity]. pose proof (DefaultLimit_pos limit 1000). lia.
Qed.

(** A scan of a quiet log does not run out of pages. *)
Lemma scanLoop_ends {T} wrap limit (body : list StoredEvent → T → SubjectWorld A P Ser X O → SubjectWorld A P Ser X O * T)
    fuel pos acc w :
  (∀ err, wrap err ≠ Blocked) → (∀ batch acc w, adapter (body batch acc w).1 = adapter w) →
  el_wf (adapter w) → (length (selected pos emptyFilter (logged w)) < fuel)%nat →
  let scan fuel := scanLoop envs others wrap limit (λ batch acc w, let '(w, acc) := body batch acc w in (w, Ok acc)) fuel pos acc w in
  (scan fuel).2 ≠ Err Blocked ∧ ∀ fuel', (fuel ≤ fuel')%nat → scan fuel' = scan fuel.
Proof using Hctx Hquiet.
  intros Hwrap Hbody. cbn zeta. revert pos acc w. induction fuel as [|fuel IH]; intros pos acc w Hwf Hf; [lia|].
  cut (∀ fuel', (fuel ≤ fuel')%nat →
    (scanLoop envs others wrap limit (λ batch acc w, let '(w, acc) := body batch acc w in (w, Ok acc)) (S fuel) pos acc w).2 ≠ Err Blocked ∧
    scanLoop envs others wrap limit (λ batch acc w, let '(w, acc) := body batch acc w in (w, Ok acc)) (S fuel') pos acc w =
    scanLoop envs others wrap limit (λ batch acc w, let '(w, acc) := body batch acc w in (w, Ok acc)) (S fuel) pos acc w).
  { intros Hc. split; [apply (Hc fuel); lia|]. intros [|fuel'] Hle; [lia|]. apply Hc. lia. }
  intros fuel' Hle. cbn [scanLoop]. destruct (ctx_Err (here envs w)) as [err|] eqn:Ec.
  { split; [|done]. cbn. intros [= ->]. by apply (ctx_not_Blocked w). }
  destruct (quiet_page pos limit (step w) Hwf) as (r & -> & Hr). destruct r as [batch|err].
  2: { split; [|done]. cbn. intros [= E]. by apply Hwrap in E. }
  destruct (Hr batch eq_refl) as (n & Hn & Hb). destruct (last batch) as [lst|] eqn:El; [|done].
  pose proof (Hbody batch acc (step (step w))) as Hsame. destruct (body batch acc (step (step w))) as [w2 acc2].
  cbn in Hsame. assert (adapter w2 = adapter w) as Ha by exact Hsame.
  destruct (IH (se_GlobalPosition lst) acc2 w2) as [Hnb Heq].
  - by rewrite Ha.
  - unfold logged. rewrite Ha. change (logged (step w)) with (logged w) in Hb. rewrite Hb in El.
    rewrite (selected_past pos _ _ n) by (done || by apply el_positions). rewrite length_drop.
    change (LogSpec.log (el_view (adapter w))) with (logged w).
    destruct (selected pos emptyFilter (logged w)) eqn:Es; [by rewrite take_nil in El|]. cbn [length] in *. lia.
  - split; [done|]. by apply Heq.
Qed.

Lemma attribute_adapter c tagger se w : adapter (attribute envs c tagger se w).1 = adapter w.
Proof. unfold attribute, withProvider. by destruct (attributeSubjects _ _ _ _ _). Qed.

Lemma attributeBatch_adapter c tagger subj batch b w : adapter (attributeBatch envs c tagger subj batch b w).1 = adapter w.
Proof.
  revert b w. induction batch as [|se batch IH]; intros b w; cbn [attributeBatch]; [done|].
  pose proof (attribute_adapter c tagger se w) as Ha. destruct (attribute _ _ _ _ _). by rewrite IH.
Qed.

Lemma sharedInBatch_adapter c e subj keys batch acc w : adapter (sharedInBatch envs c e subj keys batch acc w).1 = adapter w.
Proof.
  revert acc w. induction batch as [|se batch IH]; intros [shared oth] w; cbn [sharedInBatch]; [done|].
  destruct (negb _); [apply IH|]. destruct (bool_decide _); [apply IH|].
  pose proof (attribute_adapter c (tagger e) se w) as Ha. destruct (attribute _ _ _ _ _). by rewrite IH.
Qed.

Lemma collectScanKeys_adapter c e req batch acc w : adapter (collectScanKeys envs c e req batch acc w).1 = adapter w.
Proof.
  revert acc w. induction batch as [|se batch IH]; intros [matched d] w; cbn [collectScanKeys]; [done|].
  destruct (negb _); [apply IH|]. destruct (ds_attributed d); [|apply IH].
  pose proof (attribute_adapter c (tagger e) se w) as Ha. destruct (attribute _ _ _ _ _). by rewrite IH.
Qed.

Lemma detectSharedStreams_ends `{MapOrder} c tagger subj streams b w :
  (detectSharedStreams envs others c tagger subj streams b w).2 ≠ Err Blocked.
Proof using Hctx.
  revert b w. induction streams as [|s streams IH]; intros b w; cbn [detectSharedStreams]; [done|].
  destruct (ctx_Err (here envs w)) as [err|] eqn:Ec; [cbn; intros [= ->]; by apply (ctx_not_Blocked w)|].
  destruct (loadFootprintStream _ _ _ _) as [w1 [[stored|]|err]] eqn:El; [destruct (streamSharedWithOthers _ _ _ _ _ _)| |]; try apply IH.
  unfold loadFootprintStream in El. cbn. intros [= ->]. splits; splits.
Qed.

Lemma sharedStreamsOf_ends `{MapOrder} c e subj streams shared w :
  (sharedStreamsOf envs others c e subj streams shared w).2 ≠ Err Blocked.
Proof using Hctx.
  revert shared w. induction streams as [|s streams IH]; intros shared w; cbn [sharedStreamsOf]; [done|].
  destruct (ctx_Err (here envs w)) as [err|] eqn:Ec; [cbn; intros [= ->]; by apply (ctx_not_Blocked w)|].
  destruct (readLog _ _ _ _) as [w1 [stored|err]]; [destruct (streamSharedWithOthers _ _ _ _ _ _); apply IH|].
  destruct (errors_Is _ _); [apply IH|done].
Qed.

(** C8: the scans of an erasure end.  On a log no one else writes to, the
    resolution of a subject, the shared-key guard and the discovery of keys by
    filter reach their outcome within one page more than the log has events:
    they never run out of pages, and further fuel changes nothing. *)
Theorem erasure_scans_terminate `{MapOrder} c scannable (e : DataEraser O) r subj memo keys req d w fuel :
  sr_index r = None → rq_Streams req = [] → el_wf (adapter w) → (length (logged w) < fuel)%nat →
  let resolved fuel := resolve envs others c scannable fuel r subj memo w in
  let guarded fuel := detectSharedKeys envs others c scannable e fuel subj keys w in
  let found fuel := discoverKeys envs others c scannable e fuel req d w in
  (resolved fuel).2 ≠ Err Blocked ∧ (guarded fuel).2 ≠ Err Blocked ∧ (found fuel).2 ≠ Err Blocked ∧
  ∀ fuel', (fuel ≤ fuel')%nat → resolved fuel' = resolved fuel ∧ guarded fuel' = guarded fuel ∧ found fuel' = found fuel.
Proof using Hctx Hquiet.
  intros Hidx Hstr Hwf Hf. cbn zeta.
  assert (length (selected 0 emptyFilter (logged w)) < fuel)%nat as Hsel.
  { eapply Nat.le_lt_trans; [apply length_filter|exact Hf]. }
  unfold resolve, resolveByScan, detectSharedKeys, discoverKeys. rewrite Hidx, Hstr.
  cbn [negb]. rewrite (bool_decide_true (@nil string = [])) by done. cbn [negb].
  destruct (scanLoop_ends (Wrapf "mink: subject scan from %d: %w") (sr_batchSize r)
    (attributeBatch envs c (sr_tagger r) subj) fuel 0 (newFootprintBuilder subj memo) w
    ltac:(done) (attributeBatch_adapter c (sr_tagger r) subj) Hwf Hsel) as [R1 R2].
  destruct (scanLoop_ends (λ err, ErasureError subj (Wrapf "shared-key scan from %d: %w" err)) (de_batchSize e)
    (sharedInBatch envs c e subj keys) fuel 0 (∅, ∅) w
    ltac:(done) (sharedInBatch_adapter c e subj keys) Hwf Hsel) as [G1 G2].
  destruct (scanLoop_ends (λ err, ErasureError (rq_SubjectID req) (Wrapf "failed to scan events from position %d: %w" err))
    (de_batchSize e) (collectScanKeys envs c e req) fuel 0 (∅, d) w
    ltac:(done) (collectScanKeys_adapter c e req) Hwf Hsel) as [D1 D2].
  split_and!.
  - destruct (bool_decide (subj = "")); [done|]. destruct (negb scannable); [done|].
    destruct (scanLoop _ _ _ _ _ _ _ _ _) as [w1 [b|err]]; [|by cbn in *; congruence].
    pose proof (detectSharedStreams_ends c (sr_tagger r) subj (range (fb_streamSet b)).*1 b w1) as Hd.
    destruct (detectSharedStreams _ _ _ _ _ _ _ _) as [w2 [b2|err]]; cbn in *; congruence.
  - destruct (negb scannable); [done|]. match goal with |- context [scanLoop ?a ?b ?c ?d ?e ?f ?g ?h ?i] => destruct (scanLoop a b c d e f g h i) as [w1 [[sh ot]|err]] end; cbn in *; congruence.
  - destruct (negb scannable); [done|]. match goal with |- context [scanLoop ?a ?b ?c ?d ?e ?f ?g ?h ?i] =>
      destruct (scanLoop a b c d e f g h i) as [w1 [[m d']|err]] end; [|by cbn in *; congruence].
    pose proof (sharedStreamsOf_ends c e (rq_SubjectID req) (range m).*1 ∅ w1) as Hs.
    destruct (sharedStreamsOf _ _ _ _ _ _ _ _) as [w2 [sh|err]]; cbn in *; congruence.
  - intros fuel' Hle. rewrite (R2 _ Hle), (G2 _ Hle), (D2 _ Hle). done.
Qed.
End Termination.
