(* ===== verification/ErasureProperties.v ===== *)
(** * Erasure: the guarantees

    The statements a data-protection officer reads: what a verified erasure and
    a verified report guarantee of every event of the log, and which keys an
    erasure may destroy; with a concrete store on which they apply. *)

From S2P Require Import Prelude.
From S2P Require Import Types.
From S2P Require Import Common.
From S2P Require Import Crypto.
From S2P Require Import LocalProvider.
From S2P Require Import Subject.
From S2P Require Import FieldEncryption.
From S2P Require Import FieldTheorems.
From S2P Require Import Revocation.
From S2P Require Import MemoryAdapter.
From S2P Require Import MemoryAdmin.
From S2P Require Import LogInvariant.
From S2P Require Import EventLog.
From S2P Require Import EventStore.
From S2P Require Import SubjectResolver.
From S2P Require Import Eraser.
From S2P Require Import Verification.
From S2P Require Import Erasure.
From S2P Require Import ErasureFrames.
From S2P Require Import ErasureSafety.
From S2P Require Import ErasureTheorems.
From S2P Require Import Utf8.
From S2P Require Import MemorySubscription.
From S2P Require Import MemoryTheorems.
From S2P Require Import StoreRefinement.
From S2P Require Import StoreTheorems.

(** The event is sealed, and no later call unwraps its key. *)
Definition beyondRecovery {P} `{RevocableLaws P} (t : Time) (p : P) (se : StoredEvent) : Prop :=
  HasEncryptionEnvelope (se_Metadata se) = true ∧ unrecoverable t (GetEncryptionKeyID (se_Metadata se)) p.

Section Properties.
Context {V Ser A P X O : Type} `{AEAD} `{ProviderOps P} `{!RevocableOps P} `{!RevocableLaws P} `{SerializerOps V Ser}
  `{SubjectIndexWriter X} `{EventLogOps A} `{!EventLogLaws A} `{MapOrder} `{MarkerJSON}.
Context (envs : nat → Env) (others : nat → A → A).
Context (c : EventStore) (scannable : bool) (e : DataEraser O) (mkMarker : ErasureMarker → V) (senvs : nat → StoreEnv).
Implicit Types w : SubjectWorld A P Ser X O.

(** C5: a verified erasure is complete.  For an erasure that names only its
    subject and is resolved by a scan, if its certificate says Verified then
    every event the log held when it began, whatever else was appended since,
    is sealed under a key no later provider call can unwrap with, or was
    attributed to other subjects only; and the subject's index entries are
    purged only by an erasure that is so verified and did not fail. *)
Theorem verified_erasure_complete (fuel : nat) (subj : string) resolver cache w w' cache' o r :
  monotone_clock envs → (∀ n, ctx_law (envs n)) → appends_only others →
  el_wf (adapter w) → room (adapter w) →
  de_resolver e = Some resolver → sr_index resolver = None →
  eraseAndCertify envs others c scannable e mkMarker senvs fuel (mkErasureRequest subj [] None [] None None) cache w
    = (w', cache', o) →
  ee_result o = Some r →
  (er_SubjectIndexPurged r = true → ct_Verified (ee_cert o) = true ∧ Failed r = false) ∧
  (ct_Verified (ee_cert o) = true → er_KeysFailed r = [] ∧
     ∀ se, se ∈ logged w →
       beyondRecovery (now envs w') (provider w') se ∨
       attributable (P := P) c (sr_tagger resolver) se (othersOnly subj)).
Proof.
  intros clock Hctx appends Hwf Hroom Hres Hidx E Hr.
  destruct (eraseAndCertify_steps _ _ _ _ _ _ _ _ _ _ _ _ _ _ _ E Hr)
    as (cfg & s & r1 & r2 & w1 & w2 & w3 & w4 & _ & E1 & E2 & E3 & E4 & E5).
  pose proof (scopeErasure_moved envs others clock appends _ _ _ _ _ _ _ _ E1) as Hm1.
  pose proof (guardSharedKeys_moved envs others clock appends _ _ _ _ _ _ _ _ _ E2) as Hm2.
  pose proof (revokeScope_moved envs others clock appends _ _ _ _ _ _ _ E3) as Hm3.
  destruct (reconcile_step _ _ clock appends _ _ _ _ _ _ _ _ _ _ _ E4) as [Hm4 K].
  destruct (revokeScope_Ok _ _ _ _ _ _ _ _ E3) as (Hs & Ha & Hp & Hpu).
  pose proof (moved_trans _ clock _ _ _ (step_moved envs w) (moved_trans _ clock _ _ _ Hm1 (moved_trans _ clock _ _ _ Hm2
    (moved_trans _ clock _ _ _ Hm3 Hm4)))) as Hm.
  destruct (mv_grown _ _ _ Hm Hwf) as [Hwf4 _]. pose proof (mv_room _ _ _ Hm Hwf Hroom) as Hroom4.
  destruct K as [Ks Ka Kp Kpart]. rewrite Hpu in Kp.
  destruct (concludeErasure_spec _ _ clock appends _ _ _ _ _ _ _ _ _ _ _ Hctx Hwf4 Hroom4 Kp E5)
    as (r' & Hr' & _ & Hf' & _ & Hpurge & Hver).
  rewrite Hr in Hr'. injection Hr' as <-. split; [done|]. intros Hv. destruct (Hver Hv) as (Hpart & Hf & Hall).
  split; [congruence|]. intros se Hse.
  assert (es_partial s = false) as Hsp.
  { rewrite <- Hp. destruct (er_Partial r1); [|done]. by rewrite Kpart in Hpart. }
  destruct (scopeErasure_resolved _ _ clock appends _ _ _ _ _ _ _ _ _ Hres Hidx (Hwf : el_wf (adapter (step w))) E1 Hsp se Hse) as [?|[Hin Hmem]]; [by right|].
  left. destruct (moved_logged _ _ _ _ Hm Hwf Hse) as [_ Hse4].
  destruct (Hall se Hse4) as [Hshred _].
  { rewrite Ks, Hs. by apply elem_of_sortedSet. }
  destruct Hshred as [He Hg]; [by rewrite Ka, Ha|]. split; [done|]. by apply gone_unrecoverable.
Qed.

(** C6: an erasure destroys no key that protects anyone else.  With the
    shared-key guard on, every key an erasure revoked, or tried to, whatever
    the request and the late keys of the reconciliation included, is one under
    which every sealed event the log held was attributed to the subject and to
    nobody else. *)
Theorem erasure_spares_shared_keys (fuel : nat) req cache w w' cache' o r :
  monotone_clock envs → (∀ n, ctx_law (envs n)) → appends_only others →
  el_wf (adapter w) → room (adapter w) →
  de_sharedKeyGuard e = true → de_allowSharedKey e = false →
  eraseAndCertify envs others c scannable e mkMarker senvs fuel req cache w = (w', cache', o) →
  ee_result o = Some r →
  ∀ se, se ∈ logged w → HasEncryptionEnvelope (se_Metadata se) = true →
    GetEncryptionKeyID (se_Metadata se) ∈ er_KeysRevoked r ++ er_KeysFailed r →
    attributable (P := P) c (tagger e) se (exclusivelyOf (rq_SubjectID req)).
Proof.
  intros clock Hctx appends Hwf Hroom Hg Hal E Hr se Hse Henv Hk.
  destruct (eraseAndCertify_steps _ _ _ _ _ _ _ _ _ _ _ _ _ _ _ E Hr)
    as (cfg & s & r1 & r2 & w1 & w2 & w3 & w4 & _ & E1 & E2 & E3 & E4 & E5).
  pose proof (scopeErasure_moved envs others clock appends _ _ _ _ _ _ _ _ E1) as Hm1.
  pose proof (guardSharedKeys_moved envs others clock appends _ _ _ _ _ _ _ _ _ E2) as Hm2.
  pose proof (revokeScope_moved envs others clock appends _ _ _ _ _ _ _ E3) as Hm3.
  destruct (reconcile_step _ _ clock appends _ _ _ _ _ _ _ _ _ _ _ E4) as [Hm4 K].
  destruct (revokeScope_Ok _ _ _ _ _ _ _ _ E3) as (_ & _ & _ & Hpu).
  pose proof (moved_trans _ clock _ _ _ (step_moved envs w) Hm1) as H01.
  pose proof (moved_trans _ clock _ _ _ H01 (moved_trans _ clock _ _ _ Hm2 Hm3)) as H03.
  pose proof (moved_trans _ clock _ _ _ H03 Hm4) as H04.
  destruct (mv_grown _ _ _ H04 Hwf) as [Hwf4 _]. pose proof (mv_room _ _ _ H04 Hwf Hroom) as Hroom4.
  destruct K as [_ _ Kp _]. rewrite Hpu in Kp.
  destruct (concludeErasure_spec _ _ clock appends _ _ _ _ _ _ _ _ _ _ _ Hctx Hwf4 Hroom4 Kp E5)
    as (r' & Hr' & Hrev & Hfail & _).
  rewrite Hr in Hr'. injection Hr' as <-. rewrite Hrev, Hfail in Hk.
  destruct (moved_logged _ _ _ _ H01 Hwf Hse) as [Hwf1 Hse1]. destruct (moved_logged _ _ _ _ H03 Hwf Hse) as [Hwf3 Hse3].
  set (k := GetEncryptionKeyID (se_Metadata se)) in *.
  assert (k ∈ er_KeysRevoked r1 ++ er_KeysFailed r1 ∨ exclusiveKey c e (rq_SubjectID req) w3 k) as [Hk1|Hx].
  { destruct (es_resolved s); [destruct (de_resolver e)|].
    - by eapply (reconcileAfterRevoke_exclusive _ _ clock appends); [..|exact E4|].
    - injection E4 as <- <-. by left.
    - injection E4 as <- <-. by left. }
  2: by apply Hx.
  eapply (guardSharedKeys_exclusive _ _ clock appends); [exact Hg|exact Hal|exact Hwf1|exact E2| |exact Hse1|exact Henv|reflexivity].
  unfold revokeScope in E3. destruct (revokeKeys _ _ _ _ _ _ _ _) as [w5 [[[rv fl] er]|err]] eqn:Erk; [|done].
  injection E3 as _ <-. cbn in Hk1.
  destruct (revokeKeys_keys _ _ _ _ _ _ _ _ _ _ _ _ Erk k) as [Hin|Hin].
  - rewrite elem_of_app in Hk1 |- *. by rewrite !elem_of_sortStrings in Hk1.
  - apply list_elem_of_fmap in Hin as ([k' []] & Hk' & Hin). cbn in Hk'. subst k'. apply elem_of_range in Hin. by eexists.
  - by apply not_elem_of_nil in Hin.
Qed.

(** C7: a verified report is sound.  If a verification over a scanned
    footprint reports Verified, it checked at least one event, no recoverable
    event is attributed to the subject or to nobody anywhere in the log: every
    event the log held when the verification began is sealed under a key that
    stays unusable or was attributed to other subjects only. *)
Theorem verified_report_sound (fuel : nat) (subj : string) resolver w w' rep :
  monotone_clock envs → (∀ n, ctx_law (envs n)) → appends_only others → el_wf (adapter w) →
  de_resolver e = Some resolver → sr_index resolver = None →
  Verify envs others c scannable e fuel subj w = (w', Ok rep) → vr_Verified rep = true →
  vr_EventsChecked rep ≠ 0 ∧ vr_ResidualStores rep = [] ∧
  ∀ se, se ∈ logged w →
    beyondRecovery (now envs w') (provider w') se ∨ attributable (P := P) c (sr_tagger resolver) se (othersOnly subj).
Proof.
  intros clock Hctx appends Hwf Hres Hidx E Hv. unfold Verify in E. rewrite Hres in E.
  destruct (bool_decide (subj = "")); [done|]. unfold Resolve in E.
  destruct (resolve _ _ _ _ _ _ _ _ _) as [w1 [[fp memo]|err]] eqn:Er; [|done].
  destruct (verifyStreams _ _ _ _ _ _ _ _ _) as [[w2 rep2] [[]|err]] eqn:Ev; [|done].
  destruct (countSubjectResiduals _ _ _ _ _ _ _) as [[w3 rep3] [counted [err|]]] eqn:Ec; [done|].
  injection E as <- <-. destruct (vr_EventsChecked rep3 =? 0) eqn:Ez; [done|]. cbn [upd_verdict vr_Verified vr_EventsChecked vr_ResidualStores] in *.
  pose proof (resolve_moved envs others clock appends _ _ _ _ _ _ _ _ _ Er) as Hm1.
  pose proof (countSubjectResiduals_moved envs others clock appends _ _ _ _ _ _ _ _ _ Ec) as Hm3.
  pose proof (clean_events _ Hv) as Hc3. pose proof (count_events _ _ _ _ _ _ _ _ _ _ Ec Hc3) as Hc2.
  destruct (mv_grown _ _ _ Hm1 Hwf) as [Hwf1 _].
  destruct (verifyStreams_clean _ _ clock appends _ _ _ _ _ _ _ _ _ Hctx Hwf1 Ev Hc2) as [Hc1 Hall].
  split; [by zbool|]. split; [unfold clean in Hv; by zbool|]. intros se Hse.
  assert (fp_Partial fp = false) as Hp by apply Hc1.
  destruct (resolve_complete _ _ clock appends _ _ _ _ _ _ _ _ _ _ Hidx Hwf Er se Hse Hp) as [?|[Hs _]]; [by right|].
  destruct (moved_logged _ _ _ _ Hm1 Hwf Hse) as [_ Hse1]. destruct (Hall se Hse1 Hs) as [_ [Hsh|Ha]].
  - left. destruct (moved_shredded _ clock _ _ _ Hm3 Hsh) as [He Hg]. split; [done|]. by apply gone_unrecoverable.
  - right. unfold tagger in Ha. by rewrite Hres in Ha.
Qed.
End Properties.

(** ** A concrete erasure

    Two subjects, each sealed under the key of its tenant; the second shares
    the first one's stream.  A certificate sink, an index to purge, the
    shared-key guard and a marker stream are configured. *)

#[local] Existing Instance toyAEAD.
#[local] Existing Instance listOrder.
#[local] Existing Instance sampleSerializer.
#[local] Existing Instance sampleLog.
#[local] Existing Instance sampleLog_laws.
#[local] Existing Instance sampleIndex.
#[local] Instance sampleMarkerJSON : MarkerJSON := λ _, None.

Definition erasureConfig : EventStore :=
  mkEventStore (Some (NewFieldEncryptionConfig
                  [WithEncryptionProvider; WithTenantKeyResolver (λ tenant, tenant); WithEncryptedFields "UserRegistered" ["email"]]))
    10000 (Some (λ _ _ md, if bool_decide (md_TenantID md = "tenant-a") then ["user-7"]
                           else if bool_decide (md_TenantID md = "tenant-b") then ["user-8"] else []))
    false false false true true None.

Definition erasureCalls : list (appendCall SampleEvent) :=
  let call tenant stream := mkAppendCall sampleStoreEnv stream [mkSampleEvent "UserRegistered" "a@b.c"]
                              (mkAppendConfig (mkMetadata "" "" "" tenant None) AnyVersion false) in
  [call "tenant-a" "User-7"; call "tenant-b" "User-8"; call "tenant-b" "User-7"].

Definition erasureStore := (runAppends erasureConfig erasureCalls sampleStore).1.

Definition erasureWorld : SubjectWorld MemoryAdapter Provider (list string) (list (string * list string)) (list string) :=
  mkSubjectWorld erasureStore [] 0.

Definition sampleEraser : DataEraser (list string) :=
  mkDataEraser 2 "Erasures" (Some (WithResolverBatchSize 2 NewSubjectResolver)) [] []
    (Some (λ _ cert out, (ct_SubjectID cert :: out, Ok tt))) [("mail", λ _ _ out, (out, Ok tt))] true false true []
    (Some (λ _ subj out, (String.append "purged " subj :: out, Ok tt))).

Definition calmEnvs (_ : nat) : Env := sampleEnv.
Definition noWriters (_ : nat) (a : MemoryAdapter) : MemoryAdapter := a.
Definition sampleMarker (m : ErasureMarker) : SampleEvent := mkSampleEvent "ErasureMarker" (em_SubjectID m).

Definition erasureRun :=
  eraseAndCertify calmEnvs noWriters erasureConfig true sampleEraser sampleMarker (λ _, sampleStoreEnv) 5
    (mkErasureRequest "user-7" [] None [] None None) (mkMarkerCache false ∅) erasureWorld.

#[local] Existing Instance toyAEAD_laws.
#[local] Existing Instance sampleSerializer_laws.

Lemma erasureCalls_ok : Forall (call_ok (st_serializer sampleStore)) erasureCalls.
Proof. repeat constructor; cbn; try apply sampleEntropy_ok; try set_solver; apply utf8_ascii; reflexivity. Qed.

Lemma erasureStore_wf : el_wf (st_adapter erasureStore).
Proof.
  assert (represents erasureConfig sampleStore (λ _, [])) as Hm.
  { split; [exact NewAdapter_wf|]. split; [exact sampleUpcasters_wf|]. intros sid. split; [by intros i e|constructor]. }
  destruct (runAppends_represents erasureConfig
    (Some [WithEncryptionProvider; WithTenantKeyResolver (λ tenant, tenant); WithEncryptedFields "UserRegistered" ["email"]])
    erasureCalls sampleStore _ _ (λ _, []) eq_refl eq_refl erasureCalls_ok Hm ltac:(vm_compute; discriminate)
    (surjective_pairing _)) as [H _]. apply H.
Qed.

Lemma calm_clock : monotone_clock calmEnvs.
Proof. intros n m _. apply Z.le_refl. Qed.
Lemma calm_law n : ctx_law (calmEnvs n).
Proof. intros err. discriminate. Qed.
Lemma noWriters_append : appends_only noWriters.
Proof. intros n a Ha. split; [exact Ha|]. split; [reflexivity|]. intros Hr. exact Hr. Qed.
Lemma erasureWorld_room : room (adapter erasureWorld).
Proof. vm_compute. reflexivity. Qed.

(** The first event of the log, and what the erasure returned. *)
Definition firstLogged : StoredEvent :=
  match logged erasureWorld with se :: _ => se | [] => mkStoredEvent "" "" "" None emptyMetadata 0 0 0 end.

Lemma firstLogged_in : firstLogged ∈ logged erasureWorld.
Proof.
  unfold firstLogged. destruct (logged erasureWorld) as [|se l] eqn:E; [|by left].
  exfalso. assert (length (logged erasureWorld) = 3%nat) as Hl by (vm_compute; reflexivity). by rewrite E in Hl.
Qed.

Lemma firstLogged_tags : GetSubjectTags (se_Metadata firstLogged) = ["user-7"].
Proof. vm_compute. reflexivity. Qed.

(** A tagged event is attributed to its tags, whatever the provider. *)
Lemma tagged_not_others c tagger se subj (P : Type) `{ProviderOps P} :
  subj ∈ GetSubjectTags (se_Metadata se) → ¬ attributable (P := P) c tagger se (othersOnly subj).
Proof.
  intros Hin (t & p & _ & Ht). unfold attributeSubjects in Ht.
  destruct (GetSubjectTags (se_Metadata se)) as [|tag tags]; [by apply not_elem_of_nil in Hin|].
  unfold attributedTo in Ht. cbn [snd at_subjects] in Ht. apply not_true_iff_false in Ht. apply Ht, existsb_exists.
  exists subj. split; [by apply list_elem_of_In|]. by apply bool_decide_eq_true.
Qed.

Example erasureRun_runs :
  (ct_Verified (ee_cert erasureRun.2), er_KeysRevoked <$> ee_result erasureRun.2,
   er_SubjectIndexPurged <$> ee_result erasureRun.2, sw_out erasureRun.1.1) =
  (true, Some ["tenant-a"], Some true, ["purged user-7"; "user-7"]).
Proof. vm_compute. reflexivity. Qed.

Definition erasedResult : ErasureResult :=
  match ee_result erasureRun.2 with Some r => r | None => mkErasureResult "" [] [] [] 0 false false [] [] [] [] [] 0 [] false 0 [] None end.

Lemma erasureRun_result : ee_result erasureRun.2 = Some erasedResult.
Proof. vm_compute. reflexivity. Qed.
Lemma erasureRun_verified : ct_Verified (ee_cert erasureRun.2) = true.
Proof. vm_compute. reflexivity. Qed.

Lemma run_pairs {W M R} (x : W * M * R) : x = (x.1.1, x.1.2, x.2).
Proof. by destruct x as [[??]?]. Qed.

(** The subject's event is beyond recovery after the erasure. *)
Lemma verified_erasure_complete_witness :
  ct_Verified (ee_cert erasureRun.2) = true ∧
  beyondRecovery (now calmEnvs erasureRun.1.1) (provider erasureRun.1.1) firstLogged.
Proof.
  split; [exact erasureRun_verified|].
  destruct (verified_erasure_complete calmEnvs noWriters erasureConfig true sampleEraser sampleMarker (λ _, sampleStoreEnv)
    5 "user-7" (WithResolverBatchSize 2 NewSubjectResolver) (mkMarkerCache false ∅) erasureWorld
    erasureRun.1.1 erasureRun.1.2 erasureRun.2 erasedResult
    calm_clock calm_law noWriters_append erasureStore_wf erasureWorld_room eq_refl eq_refl (run_pairs _) erasureRun_result)
    as [_ H]. destruct (H erasureRun_verified) as [_ Hall].
  destruct (Hall firstLogged firstLogged_in) as [Hb|Ha]; [exact Hb|]. exfalso. revert Ha.
  apply tagged_not_others. rewrite firstLogged_tags. by left.
Defined.

(** The guard let the key of that event pass: it is the subject's alone. *)
Lemma erasure_spares_shared_keys_witness :
  er_KeysRevoked erasedResult = ["tenant-a"] ∧
  attributable (P := Provider) erasureConfig (tagger sampleEraser) firstLogged (exclusivelyOf "user-7").
Proof.
  split; [vm_compute; reflexivity|].
  apply (erasure_spares_shared_keys calmEnvs noWriters erasureConfig true sampleEraser sampleMarker (λ _, sampleStoreEnv)
    5 (mkErasureRequest "user-7" [] None [] None None) (mkMarkerCache false ∅) erasureWorld
    erasureRun.1.1 erasureRun.1.2 erasureRun.2 erasedResult
    calm_clock calm_law noWriters_append erasureStore_wf erasureWorld_room eq_refl eq_refl (run_pairs _) erasureRun_result
    firstLogged firstLogged_in).
  - vm_compute. reflexivity.
  - vm_compute. by left.
Defined.

(** A shared key stops the erasure of the other subject once both have events
    under it, before anything is revoked. *)
Definition sharedKeyRun :=
  eraseAndCertify calmEnvs noWriters
    (mkEventStore (es_encryption erasureConfig) 0 None false false false false false None) true sampleEraser sampleMarker
    (λ _, sampleStoreEnv) 5 (mkErasureRequest "user-7" [] None ["tenant-b"] None None) (mkMarkerCache false ∅) erasureWorld.

Example sharedKeyRun_refused :
  ee_err sharedKeyRun.2 = Some (SharedKeyError "user-7" ["tenant-b"] ["user-8"] 1) ∧
  lp_revoked (provider sharedKeyRun.1.1) = ∅.
Proof. vm_compute. by split. Qed.

(** The store after the first key is revoked. *)
Definition withProviderState (p : Provider) (w : SubjectWorld MemoryAdapter Provider (list string) (list (string * list string)) (list string)) :=
  mkSubjectWorld (set_provider (sw_store w) p) (sw_out w) (sw_calls w).

Lemma withProviderState_adapter p w : adapter (withProviderState p w) = adapter w.
Proof. reflexivity. Qed.

Definition revokedWorld := withProviderState (RevokeKey "tenant-a" (st_provider erasureStore)).1 erasureWorld.

Lemma revokedWorld_wf : el_wf (adapter revokedWorld).
Proof. unfold revokedWorld. rewrite withProviderState_adapter. exact erasureStore_wf. Qed.

Lemma firstLogged_revoked : firstLogged ∈ logged revokedWorld.
Proof. unfold revokedWorld, logged. rewrite withProviderState_adapter. exact firstLogged_in. Qed.

Definition verifyRun := Verify calmEnvs noWriters erasureConfig true sampleEraser 5 "user-7" revokedWorld.

Definition verifiedReport : VerificationReport :=
  match verifyRun.2 with Ok rep => rep | Err _ => newReport "" false end.

Lemma verifyRun_result : verifyRun = (verifyRun.1, Ok verifiedReport).
Proof.
  assert (verifyRun.2 = Ok verifiedReport) as <-; [|by destruct verifyRun].
  assert (is_ok verifyRun.2 = true) as Hok by (vm_compute; reflexivity). unfold verifiedReport. by destruct verifyRun.2.
Qed.

Lemma verified_report_sound_witness :
  vr_EventsChecked verifiedReport = 1 ∧
  beyondRecovery (now calmEnvs verifyRun.1) (provider verifyRun.1) firstLogged.
Proof.
  split; [vm_compute; reflexivity|].
  destruct (verified_report_sound calmEnvs noWriters erasureConfig true sampleEraser 5 "user-7"
    (WithResolverBatchSize 2 NewSubjectResolver) revokedWorld verifyRun.1 verifiedReport
    calm_clock calm_law noWriters_append revokedWorld_wf eq_refl eq_refl verifyRun_result
    ltac:(vm_compute; reflexivity)) as (_ & _ & Hall).
  destruct (Hall firstLogged firstLogged_revoked) as [Hb|Ha]; [exact Hb|]. exfalso. revert Ha.
  apply tagged_not_others. rewrite firstLogged_tags. by left.
Defined.

(** Four pages are enough for three events, read one by one. *)
Lemma erasure_scans_terminate_witness :
  let r := WithResolverBatchSize 1 NewSubjectResolver in
  let resolved fuel := resolve calmEnvs noWriters erasureConfig true fuel r "user-7" None erasureWorld in
  (resolved 4%nat).2 ≠ Err Blocked ∧ resolved 1000%nat = resolved 4%nat.
Proof.
  intros r resolved.
  destruct (erasure_scans_terminate calmEnvs noWriters calm_law (λ _ _, eq_refl) erasureConfig true sampleEraser r "user-7" None
    ∅ (mkErasureRequest "user-7" [] (Some (λ _, true)) [] None None) (mkDiscovery 0 0 ∅ ∅ None) erasureWorld 4
    eq_refl eq_refl erasureStore_wf ltac:(vm_compute; lia)) as (Hr & _ & _ & H).
  split; [exact Hr|]. apply (H 1000%nat ltac:(lia)).
Defined.
