(* ===== verification/SubjectErasers.v ===== *)
(** * Erasing a subject from the sibling stores

    [src/subjecterasers.go]: the rows a subject's footprint names, and the
    erasers of the audit, saga, outbox, idempotency and snapshot stores; and the
    options of [src/eraser.go] with which an eraser is built. *)

From S2P Require Import Prelude.
From S2P Require Import Types.
From S2P Require Import Common.
From S2P Require Import MemoryAdapter.
From S2P Require Import EventLog.
From S2P Require Import EventStore.
From S2P Require Import SubjectResolver.
From S2P Require Import Eraser.
From S2P Require Import IdempotencyStore.
From S2P Require Import SagaStore.
From S2P Require Import OutboxStore.
From S2P Require Import AuditStore.
From S2P Require Import SubjectFootprint.
From S2P Require Import Subject.

(** ** The ids of a footprint *)

Definition derivedAggregateID (streamID : string) : option string :=
  match splitHyphen streamID with
  | (a, Some b) => if bool_decide (a = "") || bool_decide (b = "") then None else Some b
  | (_, None) => None
  end.

Definition footprintIDs (subjectID : string) (fp : option SubjectResolver.SubjectFootprint) (derived : bool) : list string :=
  dedupe [] (subjectID :: concat ((λ streamID,
    streamID :: (if derived then option_list (derivedAggregateID streamID) else [])) <$> ExclusiveStreams fp)).

Definition SubjectFootprintIDs (subjectID : string) (fp : option SubjectResolver.SubjectFootprint) : list string :=
  footprintIDs subjectID fp false.
Definition SubjectFootprintIDsWithDerived (subjectID : string) (fp : option SubjectResolver.SubjectFootprint) : list string :=
  footprintIDs subjectID fp true.

Definition sharedStreamCount (fp : option SubjectResolver.SubjectFootprint) : Z :=
  match fp with
  | None => 0
  | Some f => Z.of_nat (length (fp_Streams f)) - Z.of_nat (length (ExclusiveStreams fp))
  end.

Definition footprintIDSet (subjectID : string) (fp : option SubjectResolver.SubjectFootprint) (derived : bool) : list string :=
  if derived then SubjectFootprintIDsWithDerived subjectID fp else SubjectFootprintIDs subjectID fp.

(** ** The erasers *)

(** What a store offers: the footprint-aware purger, the purger by bare subject
    id, and the counter, each optional. *)
Record StorePurger (S : Type) := mkStorePurger {
  sp_footprint : option (Env → list string → op S error Z);
  sp_legacy : option (Env → string → op S error Z);
  sp_count : option (Env → string → list string → S → res Z);
}.
Arguments mkStorePurger {S} _ _ _.
Arguments sp_footprint {S} _.
Arguments sp_legacy {S} _.
Arguments sp_count {S} _.

Definition outcome0 (name : string) : SubjectErasureOutcome := mkSubjectErasureOutcome name 0 false false 0 "".

Definition purgeByFootprint {S} (name subjectID : string) (fp : option SubjectResolver.SubjectFootprint) (ids : list string)
    (p : StorePurger S) (env : Env) (s : S) : S * (SubjectErasureOutcome * option error) :=
  match sp_footprint p, sp_legacy p with
  | Some purge, _ =>
      match purge env ids s with
      | (s, Err err) => (s, (outcome0 name, Some err))
      | (s, Ok n) => (s, (mkSubjectErasureOutcome name n false true (sharedStreamCount fp) "", None))
      end
  | None, Some purge =>
      match purge env subjectID s with
      | (s, Err err) => (s, (outcome0 name, Some err))
      | (s, Ok n) => (s, (mkSubjectErasureOutcome name n false false 0 "", None))
      end
  | None, None => (s, (mkSubjectErasureOutcome name 0 true false 0 "", None))
  end.

(** The count of residual rows; a store without a counter says it has none. *)
Definition countByFootprint {S} (p : StorePurger S) (derived : bool) (env : Env) (subjectID : string)
    (fp : option SubjectResolver.SubjectFootprint) : op S error Z := λ s,
  match sp_count p with
  | None => (s, Err ErrResidualCountUnsupported)
  | Some count => (s, count env subjectID (footprintIDSet subjectID fp derived) s)
  end.

(** The saga, outbox and idempotency erasers differ in their name and store. *)
Definition storeEraser {S} (name : string) (p : StorePurger S) (derived : bool) : SubjectErasable S :=
  mkSubjectErasable name
    (λ env subjectID fp, purgeByFootprint name subjectID fp (footprintIDSet subjectID fp derived) p env)
    (Some (countByFootprint p derived)).

Definition NewSagaSubjectEraser {S} (p : StorePurger S) (derived : bool) : SubjectErasable S := storeEraser "saga" p derived.
Definition NewOutboxSubjectEraser {S} (p : StorePurger S) (derived : bool) : SubjectErasable S := storeEraser "outbox" p derived.
Definition NewIdempotencySubjectEraser {S} (p : StorePurger S) (derived : bool) : SubjectErasable S :=
  storeEraser "idempotency" p derived.

(** Both passes run, the footprint pass first. *)
Definition eraseAudit {S} (p : StorePurger S) (derived : bool) (env : Env) (subjectID : string)
    (fp : option SubjectResolver.SubjectFootprint) (s : S) : S * (SubjectErasureOutcome * option error) :=
  match sp_footprint p, sp_legacy p with
  | None, None => (s, (mkSubjectErasureOutcome "audit" 0 true false 0 "", None))
  | _, _ =>
      let '(s, (out, err)) :=
        match sp_footprint p with
        | None => (s, (outcome0 "audit", None))
        | Some purge =>
            match purge env (footprintIDSet subjectID fp derived) s with
            | (s, Err err) => (s, (outcome0 "audit", Some err))
            | (s, Ok n) => (s, (mkSubjectErasureOutcome "audit" (i64 n) false true (sharedStreamCount fp) "", None))
            end
        end in
      match err, sp_legacy p with
      | None, Some purge =>
          match purge env subjectID s with
          | (s, Err err) => (s, (out, Some err))
          | (s, Ok n) =>
              (s, (mkSubjectErasureOutcome "audit" (i64 (so_Erased out + n)) (so_Skipped out) (so_FootprintAware out)
                     (so_SharedStreamsSkipped out) "", None))
          end
      | _, _ => (s, (out, err))
      end
  end.

Definition NewAuditSubjectEraser {S} (p : StorePurger S) (derived : bool) : SubjectErasable S :=
  mkSubjectErasable "audit" (eraseAudit p derived) (Some (countByFootprint p derived)).

(** Snapshots: every stream of the footprint, shared ones too; the first error
    is reported and the others tried. *)
Fixpoint deleteSnapshots {S} (delete : Env → string → op S error unit) (env : Env) (streams : list string) (erased : Z)
    (firstErr : option error) (s : S) : S * (Z * option error) :=
  match streams with
  | [] => (s, (erased, firstErr))
  | streamID :: streams =>
      match delete env streamID s with
      | (s, Err err) =>
          deleteSnapshots delete env streams erased (match firstErr with None => Some err | Some _ => firstErr end) s
      | (s, Ok _) => deleteSnapshots delete env streams (i64 (erased + 1)) firstErr s
      end
  end.

Fixpoint countSnapshots {S} (load : Env → string → S → res (option SnapshotRecord)) (env : Env) (streams : list string) (n : Z)
    (s : S) : res Z :=
  match streams with
  | [] => Ok n
  | streamID :: streams =>
      match load env streamID s with
      | Err err => Err err
      | Ok snap => countSnapshots load env streams (match snap with Some _ => i64 (n + 1) | None => n end) s
      end
  end.

Definition NewSnapshotSubjectEraser {S} (delete : Env → string → op S error unit)
    (load : Env → string → S → res (option SnapshotRecord)) : SubjectErasable S :=
  mkSubjectErasable "snapshot"
    (λ env _ fp s,
       let '(s, (erased, err)) := deleteSnapshots delete env (match fp with Some fp => fp_Streams fp | None => [] end) 0 None s in
       (s, (mkSubjectErasureOutcome "snapshot" erased false true 0 "", err)))
    (Some (λ env _ fp s, (s, countSnapshots load env (match fp with Some fp => fp_Streams fp | None => [] end) 0 s))).

(** *** The in-memory stores *)

Definition memoryOutboxPurger `{MapOrder} : StorePurger OutboxStore :=
  mkStorePurger (Some DeleteOutboxByAggregateIDs) (Some DeleteOutboxBySubject) (Some (λ env _, CountOutboxByAggregateIDs env)).
Definition memorySagaPurger `{MapOrder} : StorePurger SagaStore :=
  mkStorePurger (Some DeleteSagasByCorrelationIDs) (Some DeleteSagasBySubject) (Some (λ env _, CountSagasByCorrelationIDs env)).
Definition memoryIdempotencyPurger `{MapOrder} : StorePurger IdempotencyStore :=
  mkStorePurger (Some DeleteIdempotencyByAggregateIDs)
    (Some (λ _ subjectID s, let '(s, n) := DeleteIdempotencyBySubject subjectID s in (s, Ok n)))
    (Some (λ env _, CountIdempotencyByAggregateIDs env)).
Definition memoryAuditPurger : StorePurger AuditStore :=
  mkStorePurger (Some DeleteAuditByAggregateIDs) (Some (λ _, DeleteAuditBySubject)) (Some CountAuditBySubject).

(** ** Building an eraser

    A registered store is given by the eraser it is with and without derived
    aggregate ids; a custom one ignores the flag. *)
Inductive DataEraserOption (O : Type) :=
| WithEraseBatchSize (size : Z)
| WithErasureMarker (streamID : string)
| WithEraseSubjectResolver (r : SubjectResolver O)
| WithReadModelRedactor (redactors : list (string * (Env → string → op O error unit)))
| WithReadModelRebuilder (rebuilders : list (string * (Env → op O error unit)))
| WithCertificateSink (sink : Env → ErasureCertificate → op O error unit)
| WithErasureHook (hooks : list (string * (Env → ErasureContext → op O error unit)))
| WithSharedKeyGuard
| AllowSharedKeyRevocation
| WithStrictAccountability
| WithSubjectStore (stores : list (bool → SubjectErasable O))
| WithDerivedAggregateIDs
| WithSubjectIndexPurge (purge : option (Env → string → op O error unit)).
Arguments WithEraseBatchSize {O} _.
Arguments WithErasureMarker {O} _.
Arguments WithEraseSubjectResolver {O} _.
Arguments WithReadModelRedactor {O} _.
Arguments WithReadModelRebuilder {O} _.
Arguments WithCertificateSink {O} _.
Arguments WithErasureHook {O} _.
Arguments WithSharedKeyGuard {O}.
Arguments AllowSharedKeyRevocation {O}.
Arguments WithStrictAccountability {O}.
Arguments WithSubjectStore {O} _.
Arguments WithDerivedAggregateIDs {O}.
Arguments WithSubjectIndexPurge {O} _.

(** The options applied so far, the stores and the derived flag. *)
Definition applyEraserOption {O} (acc : DataEraser O * list (bool → SubjectErasable O) * bool) (o : DataEraserOption O)
    : DataEraser O * list (bool → SubjectErasable O) * bool :=
  let '(mkDataEraser bs ms rs rd rb cs hk sg al sa ss ip, stores, derived) := acc in
  match o with
  | WithEraseBatchSize size => (mkDataEraser (if 0 <? size then size else bs) ms rs rd rb cs hk sg al sa ss ip, stores, derived)
  | WithErasureMarker m => (mkDataEraser bs m rs rd rb cs hk sg al sa ss ip, stores, derived)
  | WithEraseSubjectResolver r => (mkDataEraser bs ms (Some r) rd rb cs hk sg al sa ss ip, stores, derived)
  | WithReadModelRedactor l => (mkDataEraser bs ms rs (rd ++ l) rb cs hk sg al sa ss ip, stores, derived)
  | WithReadModelRebuilder l => (mkDataEraser bs ms rs rd (rb ++ l) cs hk sg al sa ss ip, stores, derived)
  | WithCertificateSink sink => (mkDataEraser bs ms rs rd rb (Some sink) hk sg al sa ss ip, stores, derived)
  | WithErasureHook l => (mkDataEraser bs ms rs rd rb cs (hk ++ l) sg al sa ss ip, stores, derived)
  | WithSharedKeyGuard => (mkDataEraser bs ms rs rd rb cs hk true al sa ss ip, stores, derived)
  | AllowSharedKeyRevocation => (mkDataEraser bs ms rs rd rb cs hk sg true sa ss ip, stores, derived)
  | WithStrictAccountability => (mkDataEraser bs ms rs rd rb cs hk sg al true ss ip, stores, derived)
  | WithSubjectStore l => (mkDataEraser bs ms rs rd rb cs hk sg al sa ss ip, stores ++ l, derived)
  | WithDerivedAggregateIDs => (mkDataEraser bs ms rs rd rb cs hk sg al sa ss ip, stores, true)
  | WithSubjectIndexPurge p =>
      (mkDataEraser bs ms rs rd rb cs hk sg al sa ss (match p with Some _ => p | None => ip end), stores, derived)
  end.

Definition NewDataEraser {O} (opts : list (DataEraserOption O)) : DataEraser O :=
  let '(mkDataEraser bs ms rs rd rb cs hk sg al sa _ ip, stores, derived) :=
    foldl applyEraserOption (mkDataEraser 1000 "" None [] [] None [] false false false [] None, [], false) opts in
  mkDataEraser bs ms rs rd rb cs hk sg al sa ((λ f, f derived) <$> stores) ip.

(** ** What a purge removes and what it leaves *)

Lemma filter_none {A} (Q : A → Prop) `{∀ x, Decision (Q x)} (l : list A) : (∀ x, x ∈ l → ¬ Q x) → filter Q l = [].
Proof.
  induction l as [|x l IH]; intros Hn; [done|]. rewrite filter_cons_False by (apply Hn; by left). apply IH. intros y Hy. apply Hn. by right.
Qed.

Section Purges.
Context `{MapOrder}.
Context (subj : string) (fp : option SubjectResolver.SubjectFootprint) (derived : bool).
Hypothesis Hsubj : subj ≠ "".
Local Abbreviation ids := (footprintIDSet subj fp derived).

Lemma subj_in_ids : subj ∈ ids.
Proof using Hsubj.
  unfold footprintIDSet, SubjectFootprintIDs, SubjectFootprintIDsWithDerived, footprintIDs.
  destruct derived; apply elem_of_dedupe; (split; [by left|]; split; [done|apply not_elem_of_nil]).
Qed.

Lemma idSet_footprint : ∃ set : gset string, idSet ids = Some set ∧ ∀ x, x ∈ set ↔ x ∈ ids.
Proof using Hsubj.
  assert (∀ x, x ∈ ids → x ≠ "") as Hne.
  { intros x Hx. unfold footprintIDSet, SubjectFootprintIDs, SubjectFootprintIDsWithDerived, footprintIDs in Hx.
    destruct derived; by apply elem_of_dedupe in Hx as (_ & ? & _). }
  pose proof subj_in_ids as Hin.
  set (s := list_to_set (filter (λ id, id ≠ "") ids) : gset string).
  assert (∀ x, x ∈ s ↔ x ∈ ids) as Hs.
  { intros x. unfold s. rewrite elem_of_list_to_set, list_elem_of_filter. naive_solver. }
  exists s. split; [|exact Hs]. unfold idSet. fold s. rewrite bool_decide_false; [done|]. intros E. apply (Hs subj) in Hin. set_solver.
Qed.

(** A store whose rows a map keeps, purged and counted by [key]. *)
Definition keyedDelete {S K V} `{Countable K} (get : S → gmap K V) (put : gmap K V → S) (key : V → string) (env : Env)
    (ids : list string) : op S error Z := λ s,
  match idSet ids with
  | None => (s, Ok 0)
  | Some set =>
      match check_ctx env with
      | Err e => (s, Err e)
      | Ok _ => let '(m, count) := rangeDelete (λ v, inSet set (key v)) (get s) in (put m, Ok count)
      end
  end.

Definition keyedCount {S K V} `{Countable K} (get : S → gmap K V) (key : V → string) (env : Env) (ids : list string) (s : S)
    : res Z :=
  match idSet ids with
  | None => Ok 0
  | Some set => check_ctx env;; Ok (countWhere (λ v, inSet set (key v)) (get s))
  end.

Definition purged (name : string) (n : Z) : SubjectErasureOutcome * option error :=
  (mkSubjectErasureOutcome name n false true (sharedStreamCount fp) "", None).

(** The named rows go, the others stay, and none is left to count. *)
Definition purgedRows {S K V} `{Countable K} (name : string) (p : StorePurger S) (get : S → gmap K V) (key : V → string)
    (env env' : Env) (s : S) : Prop :=
  let '(s', out) := EraseSubject (storeEraser name p derived) env subj fp s in
  out = purged name (countWhere (λ v, bool_decide (key v ∈ ids)) (get s)) ∧
  countByFootprint p derived env' subj fp s' = (s', Ok 0) ∧
  ∀ k row, get s' !! k = Some row ↔ get s !! k = Some row ∧ key row ∉ ids.

Lemma keyed_purged {S K V} `{Countable K} name (p : StorePurger S) (get : S → gmap K V) put key env env' s :
  (∀ m, get (put m) = m) → sp_footprint p = Some (keyedDelete get put key) →
  sp_count p = Some (λ env _, keyedCount get key env) →
  ctx_Err env = None → ctx_Err env' = None → Z.of_nat (size (get s)) ≤ MaxInt64 → purgedRows name p get key env env' s.
Proof using Hsubj.
  intros Hget Hf Hn Hc Hc' Hsz. destruct idSet_footprint as (set & Hid & Hset).
  unfold purgedRows, storeEraser. cbn [EraseSubject]. unfold purgeByFootprint, countByFootprint. rewrite Hf, Hn.
  unfold keyedDelete, keyedCount, check_ctx. rewrite Hid, Hc, Hc', rangeDelete_spec by done. cbn [returnErr].
  assert (∀ k v, filter (λ kv, inSet set (key kv.2) = false) (get s) !! k = Some v ↔ get s !! k = Some v ∧ key v ∉ ids) as Hm.
  { intros k v. rewrite map_lookup_filter_Some. cbn. unfold inSet. rewrite bool_decide_eq_false, Hset. done. }
  cbn [mbind result_bind]. rewrite Hget. split; [|split; [|exact Hm]].
  - unfold purged, countWhere. do 4 f_equal. apply list_filter_iff. intros [k v]. cbn. unfold inSet.
    by rewrite !bool_decide_eq_true, Hset.
  - f_equal. f_equal. unfold countWhere. rewrite filter_none; [done|]. intros [k v] Hkv.
    apply elem_of_map_to_list, Hm in Hkv as [_ Hk]. cbn. unfold inSet. by rewrite bool_decide_false; [|rewrite Hset].
Qed.

Lemma filter_split {A} (f : A → bool) (l : list A) :
  (length (filter (λ x, f x = true) l) + length (filter (λ x, f x = false) l) = length l)%nat.
Proof. induction l as [|x l IH]; [done|]. rewrite !filter_cons. destruct (f x); repeat case_decide; cbn; done || lia. Qed.

(** Both passes over the audit trail. *)
Lemma eraseAudit_spec env (s : AuditStore) :
  ctx_Err env = None → Z.of_nat (length (entries s)) ≤ MaxInt64 →
  let s' := mkAuditStore (filter (λ row, (ae_AggregateID row ∉ ids) ∧ ae_Actor row ≠ subj) (entries s)) in
  eraseAudit memoryAuditPurger derived env subj fp s =
  (s', (mkSubjectErasureOutcome "audit" (Z.of_nat (length (entries s)) - Z.of_nat (length (entries s'))) false true
          (sharedStreamCount fp) "", None)).
Proof using Hsubj.
  intros Hc Hsz. destruct idSet_footprint as (set & Hid & Hset). unfold eraseAudit.
  cbn [sp_footprint sp_legacy memoryAuditPurger]. unfold DeleteAuditByAggregateIDs, DeleteAuditBySubject, check_ctx. rewrite Hid, Hc, (bool_decide_false (subj = "")) by done. cbn [returnErr].
  rewrite removeWhere_spec by done.
  set (l1 := filter _ (entries s)). set (n1 := length (filter _ (entries s))).
  assert (n1 + length l1 = length (entries s))%nat as H1 by apply filter_split.
  rewrite removeWhere_spec by (cbn; lia). cbn [entries].
  set (l2 := filter _ l1). set (n2 := length (filter _ l1)).
  assert (n2 + length l2 = length l1)%nat as H2 by apply filter_split.
  assert (l2 = filter (λ row, (ae_AggregateID row ∉ ids) ∧ ae_Actor row ≠ subj) (entries s)) as Hl2.
  { unfold l2, l1. rewrite list_filter_filter. apply list_filter_iff. intros row. unfold inSet.
    rewrite orb_false_iff, !bool_decide_eq_false, Hset. split; [naive_solver|]. intros [Hrow Hact]. split_and!; [done| |done].
    intros E. apply Hrow. rewrite E. apply subj_in_ids. }
  rewrite <- Hl2. cbn. f_equal. f_equal. f_equal. rewrite (i64_id (Z.of_nat n1)) by (unfold in_i64, MinInt64; lia).
  rewrite i64_id by (unfold in_i64, MinInt64; lia). lia.
Qed.

(** C15: erasing a subject from the in-memory outbox, saga, idempotency and
    audit stores removes exactly the rows keyed by the subject or by a stream of
    the footprint the subject shares with nobody (and, of the audit trail, the
    subject's own actions): the outcome has their number, the residual count is
    then zero, and the rows of a shared stream stay. *)
Theorem sibling_stores_purged env env' :
  ctx_Err env = None → ctx_Err env' = None →
  (∀ s, Z.of_nat (size (messages s)) ≤ MaxInt64 →
     purgedRows "outbox" memoryOutboxPurger messages om_AggregateID env env' s) ∧
  (∀ s, Z.of_nat (size (sagas s)) ≤ MaxInt64 → purgedRows "saga" memorySagaPurger sagas sg_CorrelationID env env' s) ∧
  (∀ s, Z.of_nat (size (records s)) ≤ MaxInt64 →
     purgedRows "idempotency" memoryIdempotencyPurger records ir_AggregateID env env' s) ∧
  (∀ s, Z.of_nat (length (entries s)) ≤ MaxInt64 →
     let '(s', out) := EraseSubject (NewAuditSubjectEraser memoryAuditPurger derived) env subj fp s in
     out = purged "audit" (Z.of_nat (length (entries s)) - Z.of_nat (length (entries s'))) ∧
     countByFootprint memoryAuditPurger derived env' subj fp s' = (s', Ok 0) ∧
     entries s' = filter (λ row, (ae_AggregateID row ∉ ids) ∧ ae_Actor row ≠ subj) (entries s)) ∧
  (derived = false → ∀ x, x ∈ ids ↔ x ≠ "" ∧ (x = subj ∨ x ∈ ExclusiveStreams fp)).
Proof using Hsubj.
  intros Hc Hc'. split_and!.
  - intros s. by eapply (keyed_purged _ _ _ mkOutboxStore).
  - intros s. by eapply (keyed_purged _ _ _ mkSagaStore).
  - intros s. by eapply (keyed_purged _ _ _ mkIdempotencyStore).
  - intros s Hsz. cbn [EraseSubject NewAuditSubjectEraser]. rewrite eraseAudit_spec by done. split; [done|]. split; [|done].
    destruct idSet_footprint as (set & Hid & Hset). unfold countByFootprint. cbn [sp_count memoryAuditPurger].
    unfold CountAuditBySubject, check_ctx. rewrite Hid, Hc', (bool_decide_false (subj = "")) by done.
    cbn. rewrite (filter_none _ (filter _ _)); [done|]. intros row Hrow. apply list_elem_of_filter in Hrow as [[Hrow Hact] _].
    unfold inSet. rewrite (bool_decide_false (ae_Actor row = subj)), bool_decide_false by (done || by rewrite Hset). done.
  - intros -> x. unfold footprintIDSet, SubjectFootprintIDs, footprintIDs. rewrite elem_of_dedupe, elem_of_cons.
    assert (concat ((λ streamID, [streamID]) <$> ExclusiveStreams fp) = ExclusiveStreams fp) as ->.
    { induction (ExclusiveStreams fp) as [|y l IH]; [done|]. cbn. by rewrite IH. }
    set_solver.
Qed.
End Purges.

(** ** Witness *)

(** The stream the subject shares with others is not purged. *)
Lemma sibling_stores_purged_witness :
  let fp := SubjectResolver.mkSubjectFootprint "user-7" ["Chat-1"; "User-7"] ∅ 2 ["Chat-1"] [] 0 false in
  let entry id agg := mkAuditEntry id "" "" agg "admin" "" "" "" "" 0 0 0 true None in
  let s := mkAuditStore [entry "1" "User-7"; entry "2" "Chat-1"; entry "3" "user-7"] in
  let '(s', out) := EraseSubject (NewAuditSubjectEraser memoryAuditPurger false) sampleEnv "user-7" (Some fp) s in
  out = purged (Some fp) "audit" 2 ∧ ae_ID <$> entries s' = ["2"].
Proof.
  intros fp entry s.
  destruct (@sibling_stores_purged listOrder "user-7" (Some fp) false ltac:(discriminate) sampleEnv sampleEnv eq_refl eq_refl)
    as (_ & _ & _ & H & _). specialize (H s ltac:(vm_compute; discriminate)).
  destruct (EraseSubject _ _ _ _ _) as [s' out]. destruct H as (-> & _ & ->). split; vm_compute; reflexivity.
Defined.
