(* ===== verification/Retention.v ===== *)
(** * Retention

    [src/retention.go] and [src/retention_errors.go]: policies, the sweep of the
    log with its resume frontier, the guard of keys shared with events out of
    scope, the revocation, and the checkpoint.  The hooks of the policies act on
    the application's state [R] and are kept as a trace.  Other writers append
    to the log before each read. *)

From S2P Require Import Prelude.
From S2P Require Import Types.
From S2P Require Import Common.
From S2P Require Import Crypto.
From S2P Require Import Subject.
From S2P Require Import FieldEncryption.
From S2P Require Import Revocation.
From S2P Require Import MemoryAdmin.
From S2P Require Import EventLog.
From S2P Require Import EventStore.
From S2P Require Import AuditMiddleware.
From S2P Require Import Projection.
From S2P Require Import SubjectResolver.

(** ** Policies *)

(** An [int]: other values are possible and do nothing. *)
Inductive RetentionAction := ActionShred | ActionRedactFields | ActionAnonymize | ActionOther (n : Z).

Definition RetentionAction_String (a : RetentionAction) : string :=
  match a with
  | ActionShred => "Shred"
  | ActionRedactFields => "RedactFields"
  | ActionAnonymize => "Anonymize"
  | ActionOther _ => "Unknown"
  end.

Record RetentionPolicy (R : Type) := mkRetentionPolicy {
  pol_Name : string;
  pol_Category : string;
  pol_StreamPrefix : string;
  pol_EventTypes : list string;
  pol_TenantID : string;
  pol_MaxAge : Duration;
  pol_Action : RetentionAction;
  pol_Fields : list string;
  pol_Apply : option (Env → StoredEvent → R → R * option error);
}.
Arguments mkRetentionPolicy {R} _ _ _ _ _ _ _ _ _.
Arguments pol_Name {R} _.
Arguments pol_Category {R} _.
Arguments pol_StreamPrefix {R} _.
Arguments pol_EventTypes {R} _.
Arguments pol_TenantID {R} _.
Arguments pol_MaxAge {R} _.
Arguments pol_Action {R} _.
Arguments pol_Fields {R} _.
Arguments pol_Apply {R} _.

(** The text before the first hyphen, unless it is empty. *)
Definition streamCategory (streamID : string) : string :=
  match String.index 0 "-" streamID with
  | Some (S _ as i) => String.substring 0 i streamID
  | _ => streamID
  end.

Section Policies.
Context {R : Type}.
Implicit Types p : RetentionPolicy R.

Definition unscoped p : bool :=
  bool_decide (pol_Category p = "") && bool_decide (pol_StreamPrefix p = "") &&
  bool_decide (length (pol_EventTypes p) = 0%nat) && bool_decide (pol_TenantID p = "") && (pol_MaxAge p <=? 0).

Definition delegates p : bool :=
  match pol_Action p with ActionRedactFields | ActionAnonymize => true | _ => false end.

(** nil is [None]. *)
Definition Validate p : option error :=
  if unscoped p then Some (Wrapf "mink: retention policy %q: %w" ErrRetentionUnscopedPolicy)
  else
    match pol_Apply p with
    | None => if delegates p
              then Some (Errorf "mink: retention policy %q uses %s but has no Apply hook — it would silently skip every match (go-mink cannot mutate append-only rows; provide Apply to redact/anonymize read models or external stores)")
              else None
    | Some _ => None
    end.

Definition matchesStatic p (se : StoredEvent) : bool :=
  if negb (bool_decide (pol_Category p = "")) && negb (bool_decide (streamCategory (se_StreamID se) = pol_Category p)) then false
  else if negb (bool_decide (pol_StreamPrefix p = "")) && negb (String.prefix (pol_StreamPrefix p) (se_StreamID se)) then false
  else if negb (bool_decide (pol_TenantID p = "")) && negb (bool_decide (md_TenantID (se_Metadata se) = pol_TenantID p)) then false
  else if negb (bool_decide (length (pol_EventTypes p) = 0%nat)) &&
          negb (existsb (λ x, bool_decide (x = se_Type se)) (pol_EventTypes p)) then false
  else true.

Definition ageEligible p (se : StoredEvent) (now : Time) : bool :=
  (pol_MaxAge p <=? 0) || (pol_MaxAge p <=? timeSub now (se_Timestamp se)).

Definition coveredByShred (se : StoredEvent) (policies : list (RetentionPolicy R)) (now : Time) : bool :=
  existsb (λ p, match pol_Action p with ActionShred => true | _ => false end && matchesStatic p se && ageEligible p se now)
    policies.

Definition tallyOutOfScopeKeys (candidates : nameSet) (policies : list (RetentionPolicy R)) (now : Time)
    (batch : list StoredEvent) (outOfScope : gmap string Z) : gmap string Z :=
  foldl (λ outOfScope se,
    if negb (HasEncryptionEnvelope (se_Metadata se)) then outOfScope
    else
      let keyID := GetEncryptionKeyID (se_Metadata se) in
      if bool_decide (candidates !! keyID = None) then outOfScope
      else if negb (coveredByShred se policies now)
      then <[keyID := i64 (default 0 (outOfScope !! keyID) + 1)]> outOfScope
      else outOfScope) outOfScope batch.
End Policies.

(** ** Reports and candidates *)

Record RetentionReport := mkRetentionReport {
  rr_DryRun : bool;
  rr_Scanned : Z;
  rr_Truncated : bool;
  rr_Matched : Z;
  rr_Acted : Z;
  rr_Skipped : Z;
  rr_UnencryptedMatches : Z;
  rr_KeysToRevoke : list string;
  rr_SharedKeysSkipped : list string;
  rr_KeysRevoked : list string;
  rr_Errors : list error;
}.

Definition newReport (dryRun : bool) : RetentionReport := mkRetentionReport dryRun 0 false 0 0 0 0 [] [] [] [].

Definition RetentionReport_Failed (r : RetentionReport) : bool := negb (bool_decide (length (rr_Errors r) = 0%nat)).

(** Changing some fields. *)
Definition upd_counts (scanned matched acted skipped unencrypted : Z) (r : RetentionReport) : RetentionReport :=
  mkRetentionReport (rr_DryRun r) (i64 (rr_Scanned r + scanned)) (rr_Truncated r) (i64 (rr_Matched r + matched))
    (i64 (rr_Acted r + acted)) (i64 (rr_Skipped r + skipped)) (i64 (rr_UnencryptedMatches r + unencrypted))
    (rr_KeysToRevoke r) (rr_SharedKeysSkipped r) (rr_KeysRevoked r) (rr_Errors r).
Definition upd_truncated (r : RetentionReport) : RetentionReport :=
  mkRetentionReport (rr_DryRun r) (rr_Scanned r) true (rr_Matched r) (rr_Acted r) (rr_Skipped r) (rr_UnencryptedMatches r)
    (rr_KeysToRevoke r) (rr_SharedKeysSkipped r) (rr_KeysRevoked r) (rr_Errors r).
Definition upd_guarded (toRevoke skipped : list string) (errs : list error) (r : RetentionReport) : RetentionReport :=
  mkRetentionReport (rr_DryRun r) (rr_Scanned r) (rr_Truncated r) (rr_Matched r) (rr_Acted r) (rr_Skipped r)
    (rr_UnencryptedMatches r) toRevoke skipped (rr_KeysRevoked r) errs.
Definition upd_revoked (revoked : list string) (r : RetentionReport) : RetentionReport :=
  mkRetentionReport (rr_DryRun r) (rr_Scanned r) (rr_Truncated r) (rr_Matched r) (rr_Acted r) (rr_Skipped r)
    (rr_UnencryptedMatches r) (rr_KeysToRevoke r) (rr_SharedKeysSkipped r) revoked (rr_Errors r).
Definition addReportError (err : error) (r : RetentionReport) : RetentionReport :=
  upd_guarded (rr_KeysToRevoke r) (rr_SharedKeysSkipped r) (rr_Errors r ++ [err]) r.

Record shredCandidates := mkShredCandidates {
  sc_matches : gmap string Z;
  sc_frontier : gmap string Z;
  sc_floor : Z;
  sc_any : bool;
}.

Definition newShredCandidates : shredCandidates := mkShredCandidates ∅ ∅ 0 false.

Definition shred_add (keyID : string) (frontier : Z) (c : shredCandidates) : shredCandidates :=
  let matches := <[keyID := i64 (default 0 (sc_matches c !! keyID) + 1)]> (sc_matches c) in
  match sc_frontier c !! keyID with
  | Some _ => mkShredCandidates matches (sc_frontier c) (sc_floor c) (sc_any c)
  | None =>
      mkShredCandidates matches (<[keyID := frontier]> (sc_frontier c))
        (if negb (sc_any c) || (frontier <? sc_floor c) then frontier else sc_floor c) true
  end.

Definition shred_keys (c : shredCandidates) : nameSet := (λ _, tt) <$> sc_matches c.

Definition shred_settled (frontier : Z) (c : shredCandidates) : Z :=
  if sc_any c && (sc_floor c <? frontier) then sc_floor c else frontier.

(** ** The manager *)

Record RetentionManager (R : Type) := mkRetentionManager {
  rm_policies : list (RetentionPolicy R);
  rm_batchSize : Z;
  rm_now : Env → Time;
  rm_checkpoint : option string; (* the name; the store is the world's *)
  rm_maxScan : Z;
  rm_allowSharedKey : bool;
}.
Arguments mkRetentionManager {R} _ _ _ _ _ _.
Arguments rm_policies {R} _.
Arguments rm_batchSize {R} _.
Arguments rm_now {R} _.
Arguments rm_checkpoint {R} _.
Arguments rm_maxScan {R} _.
Arguments rm_allowSharedKey {R} _.

Inductive RetentionManagerOption :=
| WithRetentionBatchSize (size : Z)
| WithRetentionClock (now : option (Env → Time))
| WithRetentionCheckpoint (store : bool) (name : string) (* false for a nil store *)
| WithRetentionMaxScan (n : Z)
| WithAllowSharedKeyRevocation.

Definition applyRetentionOption {R} (m : RetentionManager R) (o : RetentionManagerOption) : RetentionManager R :=
  let set size now checkpoint maxScan allow := mkRetentionManager (rm_policies m) size now checkpoint maxScan allow in
  match o with
  | WithRetentionBatchSize size =>
      if 0 <? size then set size (rm_now m) (rm_checkpoint m) (rm_maxScan m) (rm_allowSharedKey m) else m
  | WithRetentionClock (Some now) => set (rm_batchSize m) now (rm_checkpoint m) (rm_maxScan m) (rm_allowSharedKey m)
  | WithRetentionClock None => m
  | WithRetentionCheckpoint store name =>
      if store && negb (bool_decide (name = ""))
      then set (rm_batchSize m) (rm_now m) (Some name) (rm_maxScan m) (rm_allowSharedKey m) else m
  | WithRetentionMaxScan n =>
      if 0 <? n then set (rm_batchSize m) (rm_now m) (rm_checkpoint m) n (rm_allowSharedKey m) else m
  | WithAllowSharedKeyRevocation => set (rm_batchSize m) (rm_now m) (rm_checkpoint m) (rm_maxScan m) true
  end.

Definition NewRetentionManager {R} (policies : list (RetentionPolicy R)) (opts : list RetentionManagerOption)
    : RetentionManager R :=
  foldl applyRetentionOption (mkRetentionManager policies 1000 (λ env, time_Now env 0) None 0 false) opts.

Definition ValidateAll {R} (m : RetentionManager R) : list error := omap Validate (rm_policies m).

(** ** The sweep *)

(** The application's side: the checkpoint store, its state, and the calls of
    the policies' hooks with their errors. *)
Record Outside (K R : Type) := mkOutside {
  ou_checkpoints : K;
  ou_app : R;
  ou_hooked : list (RetentionPolicy R * StoredEvent * option error);
}.
Arguments mkOutside {K R} _ _ _.
Arguments ou_checkpoints {K R} _.
Arguments ou_app {K R} _.
Arguments ou_hooked {K R} _.

Record sweep := mkSweep {
  sp_report : RetentionReport;
  sp_shred : shredCandidates;
  sp_frontier : Z;
  sp_frozen : bool;
  sp_position : Z;
}.

Section Sweep.
Context {V Ser A P X K R : Type} `{AEAD} `{ProviderOps P} `{!RevocableOps P} `{EventLogOps A} `{CheckpointOps K} `{MapOrder}.
Context (envs : nat → Env) (others : nat → A → A).
Context (c : EventStore) (scannable : bool) (m : RetentionManager R).
Local Abbreviation World := (SubjectWorld A P Ser X (Outside K R)).
Implicit Types w : World.

Definition withCheckpoints {T} (f : Env → K → K * T) : World → World * T :=
  withOut envs (λ env o, let '(k, r) := f env (ou_checkpoints o) in (mkOutside k (ou_app o) (ou_hooked o), r)).

Definition callHook (p : RetentionPolicy R) (apply : Env → StoredEvent → R → R * option error) (se : StoredEvent)
    : World → World * option error :=
  withOut envs (λ env o, let '(r, err) := apply env se (ou_app o) in
    (mkOutside (ou_checkpoints o) r (ou_hooked o ++ [(p, se, err)]), err)).

(** A [(policy, event)] match. *)
Definition act (p : RetentionPolicy R) (se : StoredEvent) (frontier : Z) (dryRun : bool)
    (acc : shredCandidates * RetentionReport) w : World * (shredCandidates * RetentionReport) :=
  let '(shred, report) := acc in
  match pol_Action p with
  | ActionShred =>
      if negb (HasEncryptionEnvelope (se_Metadata se))
      then (w, (shred, upd_counts 0 0 0 (if dryRun then 0 else 1) 1 report))
      else (w, (shred_add (GetEncryptionKeyID (se_Metadata se)) frontier shred, report))
  | ActionRedactFields | ActionAnonymize =>
      if dryRun then (w, acc)
      else
        match pol_Apply p with
        | None => (w, (shred, upd_counts 0 0 0 1 0 report))
        | Some apply =>
            match callHook p apply se w with
            | (w, Some err) => (w, (shred, addReportError (Wrapf "policy %q apply: %w" err) report))
            | (w, None) => (w, (shred, upd_counts 0 0 1 0 0 report))
            end
        end
  | ActionOther _ => (w, acc)
  end.

(** The policies on one event: whether one is pending. *)
Fixpoint matchPolicies (policies : list (RetentionPolicy R)) (now : Time) (se : StoredEvent) (frontier : Z) (dryRun : bool)
    (pending : bool) (acc : shredCandidates * RetentionReport) w : World * (bool * (shredCandidates * RetentionReport)) :=
  match policies with
  | [] => (w, (pending, acc))
  | p :: policies =>
      if negb (matchesStatic p se) then matchPolicies policies now se frontier dryRun pending acc w
      else if ageEligible p se now then
        let '(w, acc) := act p se frontier dryRun (acc.1, upd_counts 0 1 0 0 0 acc.2) w in
        matchPolicies policies now se frontier dryRun pending acc w
      else matchPolicies policies now se frontier dryRun true acc w
  end.

(** A batch: true when the cap stopped it. *)
Fixpoint sweepBatch (policies : list (RetentionPolicy R)) (now : Time) (dryRun : bool) (maxScan startPos : Z)
    (batch : list StoredEvent) (sp : sweep) w : World * (sweep * bool) :=
  match batch with
  | [] => (w, (sp, false))
  | se :: batch =>
      let '(w, (pending, (shred, report))) :=
        matchPolicies policies now se (sp_frontier sp) dryRun false (sp_shred sp, upd_counts 1 0 0 0 0 (sp_report sp)) w in
      let frozen := sp_frozen sp || pending in
      let frontier := if sp_frozen sp then sp_frontier sp else if pending then sp_frontier sp else se_GlobalPosition se in
      if (0 <? maxScan) && (maxScan <=? rr_Scanned report) && (startPos <? shred_settled frontier shred)
      then (w, (mkSweep (upd_truncated report) shred frontier frozen (se_GlobalPosition se), true))
      else sweepBatch policies now dryRun maxScan startPos batch
             (mkSweep report shred frontier frozen (se_GlobalPosition se)) w
  end.

(** The loops over the pages stop at an empty page, and at a short one. *)
Fixpoint pageLoop {T} (wrap : error → error) (position : T → Z)
    (body : list StoredEvent → T → World → World * (T * bool)) (fuel : nat) (acc : T) w : World * res T :=
  match fuel with
  | 0%nat => (w, Err Blocked)
  | S fuel =>
      match ctx_Err (here envs w) with
      | Some err => (step w, Err err)
      | None =>
          match readLog envs others (λ env, LoadEventsFromPosition env (position acc) (rm_batchSize m)) (step w) with
          | (w, Err err) => (w, Err (wrap err))
          | (w, Ok []) => (w, Ok acc)
          | (w, Ok batch) =>
              let '(w, (acc, stop)) := body batch acc w in
              if stop then (w, Ok acc)
              else if Z.of_nat (length batch) <? rm_batchSize m then (w, Ok acc)
              else pageLoop wrap position body fuel acc w
          end
      end
  end.

Definition sweepLog (policies : list (RetentionPolicy R)) (now : Time) (dryRun : bool) (maxScan startPos : Z) (fuel : nat)
    : sweep → World → World * res sweep :=
  pageLoop (Wrapf "mink: retention scan from %d: %w") sp_position (sweepBatch policies now dryRun maxScan startPos) fuel.

(** ** The guard *)

Definition detectSharedShredKeys (fuel : nat) (candidates : nameSet) (policies : list (RetentionPolicy R)) (now : Time) w
    : World * res (gmap string Z) :=
  match pageLoop (Wrapf "mink: retention shared-key scan from %d: %w") fst
          (λ batch acc w, (w, ((default 0 (se_GlobalPosition <$> last batch),
                                tallyOutOfScopeKeys candidates policies now batch acc.2), false))) fuel (0, ∅) w with
  | (w, Err err) => (w, Err err)
  | (w, Ok acc) => (w, Ok acc.2)
  end.

Definition guardRetentionKeys (fuel : nat) (candidates : nameSet) (policies : list (RetentionPolicy R)) (now : Time)
    (report : RetentionReport) w : World * res RetentionReport :=
  match (if rm_allowSharedKey m then (w, Ok ∅) else detectSharedShredKeys fuel candidates policies now w) with
  | (w, Err err) => (w, Err err)
  | (w, Ok outOfScope) =>
      let keys := (range candidates).*1 in
      let shared := filter (λ k, is_Some (outOfScope !! k)) keys in
      let own := filter (λ k, ¬ is_Some (outOfScope !! k)) keys in
      (w, Ok (upd_guarded (sortStrings (rr_KeysToRevoke report ++ own)) (sortStrings (rr_SharedKeysSkipped report ++ shared))
                (rr_Errors report ++ ((λ k, RetentionSharedKeyError k (default 0 (outOfScope !! k))) <$> shared)) report))
  end.

(** ** Revocation *)

Fixpoint revokeEach (cfg : FieldEncryptionConfig) (keys : list string) (report : RetentionReport) w : World * RetentionReport :=
  match keys with
  | [] => (w, report)
  | k :: keys =>
      match withProvider envs (λ _, cfgRevokeKey cfg k) w with
      | (w, Err err) => revokeEach cfg keys (addReportError (Wrapf "revoke key %q: %w" err) report) w
      | (w, Ok _) => revokeEach cfg keys (upd_revoked (rr_KeysRevoked report ++ [k]) report) w
      end
  end.

Definition revoke (report : RetentionReport) w : World * RetentionReport :=
  if bool_decide (length (rr_KeysToRevoke report) = 0%nat) then (w, report)
  else
    match es_encryption c with
    | None => (w, addReportError ErrErasureNotConfigured report)
    | Some cfg =>
        let '(w, report) := revokeEach cfg (rr_KeysToRevoke report) report w in
        (w, upd_revoked (sortStrings (rr_KeysRevoked report)) report)
    end.

(** The accounting once the keys are decided: the report and the frontier. *)
Definition settleMatches (shred : shredCandidates) (report : RetentionReport) (frontier : Z) : RetentionReport * Z :=
  foldl (λ '(report, frontier) '(k, n),
    if bool_decide (k ∈ rr_KeysRevoked report) then (upd_counts 0 0 n 0 0 report, frontier)
    else
      let f := default 0 (sc_frontier shred !! k) in
      (upd_counts 0 0 0 n 0 report, if f <? frontier then f else frontier))
    (report, frontier) (range (sc_matches shred)).

(** ** A run *)

(** The keys of the matches, and the frontier they leave. *)
Definition decideKeys (fuel : nat) (active : list (RetentionPolicy R)) (now : Time) (dryRun : bool) (report : RetentionReport)
    (sp : sweep) w : World * res (RetentionReport * Z) :=
  if bool_decide (size (sc_matches (sp_shred sp)) = 0%nat) then (w, Ok (report, sp_frontier sp))
  else
    match guardRetentionKeys fuel (shred_keys (sp_shred sp)) active now report w with
    | (w, Err err) => (w, Err err)
    | (w, Ok report) =>
        if dryRun then (w, Ok (report, sp_frontier sp))
        else let '(w, report) := revoke report w in (w, Ok (settleMatches (sp_shred sp) report (sp_frontier sp)))
    end.

(** From the sweep to the checkpoint, for the policies that are in force. *)
Definition conclude (fuel : nat) (active : list (RetentionPolicy R)) (now : Time) (dryRun : bool) (startPos : Z) (sp : sweep) w
    : World * res RetentionReport :=
  let report :=
    if 0 <? rr_UnencryptedMatches (sp_report sp)
    then addReportError (Wrapf "%w: %d matched event(s)" ErrRetentionUnencryptedMatches) (sp_report sp) else sp_report sp in
  match decideKeys fuel active now dryRun report sp w with
  | (w, Err err) => (w, Err err)
  | (w, Ok (report, frontier)) =>
      match rm_checkpoint m with
      | None => (w, Ok report)
      | Some name =>
          if negb dryRun && (startPos <? frontier) then
            match withCheckpoints (λ env, ck_SetCheckpoint env name frontier) w with
            | (w, Err err) => (w, Ok (addReportError (Wrapf "mink: retention write checkpoint %q: %w" err) report))
            | (w, Ok _) => (w, Ok report)
            end
          else (w, Ok report)
      end
  end.

Definition run (fuel : nat) (dryRun : bool) w : World * res RetentionReport :=
  if negb scannable then (w, Err ErrExportScanNotSupported)
  else
    let active := filter (λ p, unscoped p = false) (rm_policies m) in
    let report := foldl (λ r err, addReportError err r) (newReport dryRun) (ValidateAll m) in
    let '(report, maxScan) :=
      if (0 <? rm_maxScan m) && bool_decide (rm_checkpoint m = None)
      then (addReportError ErrRetentionMaxScanNeedsCheckpoint report, 0) else (report, rm_maxScan m) in
    let start :=
      match rm_checkpoint m with
      | None => (w, Ok 0)
      | Some name =>
          match withCheckpoints (λ env, ck_GetCheckpoint env name) w with
          | (w, Err err) => (w, Err (Wrapf "mink: retention read checkpoint %q: %w" err))
          | (w, Ok pos) => (w, Ok pos)
          end
      end in
    match start with
    | (w, Err err) => (w, Err err)
    | (w, Ok startPos) =>
        let now := rm_now m (here envs w) in
        match sweepLog active now dryRun maxScan startPos fuel (mkSweep report newShredCandidates startPos false startPos) (step w) with
        | (w, Err err) => (w, Err err)
        | (w, Ok sp) => conclude fuel active now dryRun startPos sp w
        end
    end.

Definition Apply (fuel : nat) : World → World * res RetentionReport := run fuel false.
Definition DryRun (fuel : nat) : World → World * res RetentionReport := run fuel true.
End Sweep.
