(* ===== verification/RetentionSafety.v ===== *)
(** * What a retention sweep settles

    The frames of a sweep, its loops over the log, the keys the guard lets
    through, and the resume frontier: what lies behind the checkpoint has been
    dealt with. *)

From S2P Require Import Prelude.
From S2P Require Import Types.
From S2P Require Import Common.
From S2P Require Import Crypto.
From S2P Require Import Subject.
From S2P Require Import FieldEncryption.
From S2P Require Import Revocation.
From S2P Require Import LogInvariant.
From S2P Require Import MemoryAdmin.
From S2P Require Import MemoryTheorems.
From S2P Require Import EventLog.
From S2P Require Import EventStore.
From S2P Require Import AuditMiddleware.
From S2P Require Import Projection.
From S2P Require Import ProjectionWorker.
From S2P Require Import ProjectionCoverage.
From S2P Require Import ProjectionInvariant.
From S2P Require Import ProjectionReplay.
From S2P Require Import SubjectResolver.
From S2P Require Import ErasureFrames.
From S2P Require Import ErasureSafety.
From S2P Require Import ErasureTheorems.
From S2P Require Import Retention.

(** ** Pages *)

(** The next event of the log. *)
Lemma after_head p log e rest n :
  strictly_increasing se_GlobalPosition log → e :: rest = take n (after p log) →
  p < se_GlobalPosition e ∧ e ∈ log ∧ rest = take (pred n) (after (se_GlobalPosition e) log) ∧
  ∀ x, x ∈ log → se_GlobalPosition x ≤ se_GlobalPosition e → se_GlobalPosition x ≤ p ∨ x = e.
Proof.
  intros Hs Ht. destruct n as [|n]; [done|]. destruct (after p log) as [|y ys] eqn:E; [done|]. injection Ht as <- ->.
  assert (e ∈ after p log) as Hin by (rewrite E; left). apply list_elem_of_filter in Hin as [Hp He].
  pose proof (after_page p 1 log Hs) as Hp1. rewrite E in Hp1. cbn [take drop] in Hp1.
  assert (after (se_GlobalPosition e) log = ys) as Hafter by by apply Hp1.
  split; [done|]. split; [done|]. split; [by rewrite Hafter|]. intros x Hx Hle.
  destruct (decide (p < se_GlobalPosition x)) as [Hlt|]; [right|left; lia].
  assert (x ∈ after p log) as Hxin by by apply list_elem_of_filter.
  rewrite E in Hxin. apply elem_of_cons in Hxin as [->|Hys]; [done|].
  rewrite <- Hafter in Hys. apply list_elem_of_filter in Hys as [? _]. lia.
Qed.

Lemma prefix_grows l l' : l `prefix_of` l' → grows l l'.
Proof. intros [new ->]. by exists l, new. Qed.

(** What is known of the events up to a position, as the log grows. *)
Definition upToPos (Q : StoredEvent → Prop) (log : list StoredEvent) (p : Z) : Prop :=
  p ≤ headOf log ∧ ∀ e, e ∈ log → se_GlobalPosition e ≤ p → Q e.

Lemma upToPos_prefix (Q Q' : StoredEvent → Prop) log log' p :
  log_ok log → log_ok log' → log `prefix_of` log' → (∀ e, Q e → Q' e) → upToPos Q log p → upToPos Q' log' p.
Proof.
  intros Hok [Hs' Hp'] [new ->] HQ [Hh Hall].
  assert (headOf log ≤ headOf (log ++ new)) as Hmono by (apply headOf_grows; [by exists log, new|done..]).
  split; [lia|]. intros e [He|He]%elem_of_app Hle; [by apply HQ, Hall|]. exfalso.
  assert (headOf log < se_GlobalPosition e); [|lia].
  destruct (decide (log = [])) as [->|Hne]; [cbn; by apply Hp'|]. destruct (headOf_in log Hne) as (x & Hx & ->).
  apply list_elem_of_lookup in He as [j Hj], Hx as [i Hi]. pose proof (lookup_lt_Some _ _ _ Hi).
  apply (Hs' i (length log + j)%nat); [by rewrite lookup_app_l|rewrite lookup_app_r by lia; by rewrite Nat.add_sub'|lia].
Qed.

Lemma timeSub_mono t t' u : t ≤ t' → timeSub t u ≤ timeSub t' u.
Proof. unfold timeSub. lia. Qed.

Lemma ageEligible_later {R} (p : RetentionPolicy R) se t t' : t ≤ t' → ageEligible p se t = true → ageEligible p se t' = true.
Proof. intros Ht. unfold ageEligible. pose proof (timeSub_mono t t' (se_Timestamp se) Ht). zbool. lia. Qed.

Section Safety.
Context {V Ser A P X K R : Type} `{AEAD} `{ProviderOps P} `{!RevocableOps P} `{!RevocableLaws P} `{EventLogOps A}
  `{!EventLogLaws A} `{CheckpointOps K} `{!CheckpointLaws K} `{MapOrder}.
Context (envs : nat → Env) (others : nat → A → A) (clock : monotone_clock envs) (appends : appends_only others).
Context (c : EventStore) (scannable : bool) (m : RetentionManager R).
Hypothesis sweep_clock : ∀ i j, (i ≤ j)%nat → rm_now m (envs i) ≤ rm_now m (envs j).
(** [RevokeKey] is permanent. *)
Hypothesis revoke_gone : ∀ t k (p p' : P), Revoke k p = (p', Ok tt) → rv_gone t k p'.
Local Abbreviation World := (SubjectWorld A P Ser X (Outside K R)).
Implicit Types w : World.

#[local] Existing Instance moved_preorder.
#[local] Instance moved_order : PreOrder (moved (Ser := Ser) (A := A) (P := P) (X := X) (O := Outside K R) envs) := moved_preorder envs clock.

(** ** Frames *)

Definition checkpointOf (name : string) w : Z := default 0 (ck_view (ou_checkpoints (sw_out w)) !! name).

(** A step that leaves the checkpoints alone. *)
Record still w w' : Prop := {
  st_moved : moved envs w w';
  st_ck : ck_view (ou_checkpoints (sw_out w')) = ck_view (ou_checkpoints (sw_out w));
  st_hooked : ou_hooked (sw_out w) `prefix_of` ou_hooked (sw_out w');
}.

#[local] Instance still_preorder : PreOrder still.
Proof using clock.
  split; [by split|]. intros w1 w2 w3 [M1 E1 P1] [M2 E2 P2]. split; [by etransitivity|by rewrite E2|by etransitivity].
Qed.

Lemma still_step w : still w (step w).
Proof. split; [apply step_moved|done|done]. Qed.

Lemma still_readLog {T} (f : Env → Store A P Ser X → T) w w' r : readLog envs others f w = (w', r) → still w w'.
Proof using appends. intros E. split; [by eapply readLog_moved|..]; by injection E as <- _. Qed.

Lemma still_provider {T} (f : Env → P → P * T) w w' r :
  withProvider envs f w = (w', r) → moved envs w w' → still w w'.
Proof. unfold withProvider. destruct (f _ _). intros [= <- _] Hm. by split. Qed.

Lemma still_hook p apply se w w' r : callHook envs p apply se w = (w', r) → still w w' ∧ adapter w' = adapter w ∧ (p, se, r) ∈ ou_hooked (sw_out w').
Proof using Type.
  intros E. assert (moved envs w w') as Hm by (unfold callHook in E; eapply (withOut_moved envs); exact E). revert E. unfold callHook, withOut.
  destruct (apply _ _ _) as [a err]. intros [= <- <-]. split; [|split; [done|cbn; apply elem_of_app; right; by left]].
  split; [done|done|cbn; by apply prefix_app_r].
Qed.

(** ** What is settled *)

Definition sweepTime w : Time := rm_now m (here envs w).

Definition handledBy (p : RetentionPolicy R) w se : Prop :=
  match pol_Action p with
  | ActionShred => HasEncryptionEnvelope (se_Metadata se) = true → rv_gone (now envs w) (GetEncryptionKeyID (se_Metadata se)) (provider w)
  | ActionRedactFields | ActionAnonymize => pol_Apply p = None ∨ ∃ err, (p, se, err) ∈ ou_hooked (sw_out w)
  | ActionOther _ => True
  end.

Definition inForce : list (RetentionPolicy R) := filter (λ p, unscoped p = false) (rm_policies m).

Definition settled w se : Prop :=
  ∀ p, p ∈ inForce → matchesStatic p se = true → ageEligible p se (sweepTime w) = true ∧ handledBy p w se.

Lemma kept_handledBy p w w' se :
  moved envs w w' → ou_hooked (sw_out w) `prefix_of` ou_hooked (sw_out w') → handledBy p w se → handledBy p w' se.
Proof using clock.
  intros Hm Hh. unfold handledBy. destruct (pol_Action p); try done.
  - intros Hg He. specialize (Hg He). eapply gone_later; [eapply (mv_gone _ _ _ Hm); [reflexivity|exact Hg]|].
    by eapply now_le.
  - intros [?|(err & Hin)]; [by left|right]. exists err. by eapply elem_of_prefix.
  - intros [?|(err & Hin)]; [by left|right]. exists err. by eapply elem_of_prefix.
Qed.

Lemma kept_settled w w' se :
  moved envs w w' → ou_hooked (sw_out w) `prefix_of` ou_hooked (sw_out w') → settled w se → settled w' se.
Proof using clock sweep_clock.
  intros Hm Ho Hse p Hp Hms. destruct (Hse p Hp Hms) as [Ha Hh]. split; [|by eapply kept_handledBy].
  eapply ageEligible_later; [|exact Ha]. apply sweep_clock, Hm.
Qed.

(** ** The page loop *)

Lemma readLog_after pos w w' batch :
  el_wf (adapter w) →
  readLog envs others (λ env, LoadEventsFromPosition env pos (rm_batchSize m)) w = (w', Ok batch) →
  batch = take (Z.to_nat (DefaultLimit (rm_batchSize m) 1000)) (after pos (logged w')).
Proof using appends.
  unfold readLog, LoadEventsFromPosition. intros Hwf [= <- E].
  destruct (appends (sw_calls w) (adapter w) Hwf) as (Hwf' & _). cbn in E.
  rewrite el_feed_spec in E by exact Hwf'. unfold LogSpec.feed in E. inv_ok. rewrite <- selected_after. done.
Qed.

Lemma moved_ok w w' : moved envs w w' → el_wf (adapter w) →
  el_wf (adapter w') ∧ logged w `prefix_of` logged w' ∧ log_ok (logged w) ∧ log_ok (logged w').
Proof.
  intros Hm Hwf. destruct (mv_grown _ _ _ Hm Hwf) as [Hwf' Hp].
  assert (∀ w, el_wf (adapter w) → log_ok (logged w)) as Hok.
  { intros x Hx. split; [by apply el_positions|]. intros e He. by apply (el_numbered (adapter x) e Hx He). }
  repeat split; try done; by apply Hok.
Qed.

(** [J] is kept as the world moves and by the body on the next page; when the
    loop was not stopped, it reached the end of the log. *)
Lemma pageLoop_spec {T} wrap position (body : list StoredEvent → T → World → World * (T * bool)) (J : World → T → Prop)
    fuel acc w w' acc' :
  (∀ w w' acc, still w w' → el_wf (adapter w) → J w acc → J w' acc) →
  (∀ batch acc w n w' acc' stop, el_wf (adapter w) → J w acc → batch ≠ [] → batch = take n (after (position acc) (logged w)) →
     body batch acc w = (w', (acc', stop)) →
     still w w' ∧ adapter w' = adapter w ∧ J w' acc' ∧ (stop = false → position acc' = lastPosition batch)) →
  J w acc → el_wf (adapter w) →
  pageLoop envs others m wrap position body fuel acc w = (w', Ok acc') →
  still w w' ∧ J w' acc' ∧
  (after (position acc') (logged w') = [] ∨ ∃ batch acc0 w0, (body batch acc0 w0).2.2 = true).
Proof using appends clock.
  intros HJ Hb. revert acc w. induction fuel as [|fuel IH]; intros acc w HJ0 Hwf E; cbn [pageLoop] in E; [done|].
  destruct (ctx_Err (here envs w)); [done|].
  destruct (readLog envs others _ (step w)) as [w1 [batch|err]] eqn:Er; [|done].
  assert (still w w1) as Hs1 by (etransitivity; [apply still_step|by eapply still_readLog]).
  destruct (moved_ok _ _ (st_moved _ _ Hs1) Hwf) as (Hwf1 & _ & _ & [Hinc _]).
  pose proof (readLog_after _ (step w) w1 batch Hwf Er) as Hbatch.
  assert (J w1 acc) as HJ1 by by eapply HJ. set (n := Z.to_nat (DefaultLimit (rm_batchSize m) 1000)) in *.
  destruct batch as [|e es].
  { injection E as <- <-. split; [done|]. split; [done|]. left. destruct (after (position acc) (logged w1)) eqn:Ea; [done|].
    exfalso. assert (0 < n)%nat by (unfold n; pose proof (DefaultLimit_pos (rm_batchSize m) 1000); lia). destruct n; [lia|done]. }
  destruct (body (e :: es) acc w1) as [w2 [acc2 stop]] eqn:Eb.
  assert (e :: es ≠ []) as Hne by done.
  destruct (Hb _ _ _ _ _ _ _ Hwf1 HJ1 Hne Hbatch Eb) as (Hs2 & Ha2 & HJ2 & Hpos).
  assert (still w w2) as Hs by by etransitivity.
  destruct stop.
  { injection E as <- <-. split; [done|]. split; [done|]. right. exists (e :: es), acc, w1. by rewrite Eb. }
  specialize (Hpos eq_refl).
  assert (after (position acc2) (logged w2) = drop n (after (position acc) (logged w1))) as Hrest.
  { unfold logged. rewrite Ha2. fold (logged w1). rewrite Hpos, Hbatch. apply after_page; [done|]. by rewrite <- Hbatch. }
  destruct (_ <? _) eqn:Hshort.
  - injection E as <- <-. split; [done|]. split; [done|]. left. rewrite Hrest. apply Z.ltb_lt in Hshort.
    apply drop_ge. rewrite Hbatch in Hshort. rewrite length_take in Hshort.
    unfold n, DefaultLimit in *. destruct (rm_batchSize m <=? 0) eqn:Hle; lia.
  - assert (el_wf (adapter w2)) as Hwf2 by by rewrite Ha2.
    destruct (IH _ _ HJ2 Hwf2 E) as (Hs3 & HJ3 & Hend). split; [by etransitivity|]. split; [done|exact Hend].
Qed.

(** ** The candidates *)

(** The key of an event was collected before the frontier reached the event. *)
Definition candidate (sc : shredCandidates) (se : StoredEvent) : Prop :=
  let k := GetEncryptionKeyID (se_Metadata se) in
  is_Some (sc_matches sc !! k) ∧ ∃ f, sc_frontier sc !! k = Some f ∧ f < se_GlobalPosition se.

Definition collectedBelow (sc : shredCandidates) (b : Z) : Prop := ∀ k f, sc_frontier sc !! k = Some f → f ≤ b.

Definition extends (sc sc' : shredCandidates) : Prop :=
  (∀ k, is_Some (sc_matches sc !! k) → is_Some (sc_matches sc' !! k)) ∧
  ∀ k f, sc_frontier sc !! k = Some f → sc_frontier sc' !! k = Some f.

#[local] Instance extends_preorder : PreOrder extends.
Proof. split; [by split|]. intros s1 s2 s3 [M1 F1] [M2 F2]. split; auto. Qed.

Lemma extends_candidate sc sc' se : extends sc sc' → candidate sc se → candidate sc' se.
Proof. intros [Hm Hf] [? (f & ? & ?)]. split; [auto|]. exists f. auto. Qed.

Lemma shred_add_extends k f sc : extends sc (shred_add k f sc).
Proof.
  unfold shred_add. destruct (sc_frontier sc !! k) as [f0|] eqn:Ef; split; cbn.
  - intros k' Hk. apply lookup_insert_is_Some'. by right.
  - done.
  - intros k' Hk. apply lookup_insert_is_Some'. by right.
  - intros k' f' Hk. rewrite lookup_insert_ne; [done|]. intros ->. congruence.
Qed.

Lemma shred_add_below k f sc : collectedBelow sc f → collectedBelow (shred_add k f sc) f.
Proof.
  intros Hb k' f'. unfold shred_add. destruct (sc_frontier sc !! k) as [f0|] eqn:Ef; cbn; [apply Hb|].
  intros [[_ <-]|[_ Hk]]%lookup_insert_Some; [done|by eapply Hb].
Qed.

Lemma shred_add_candidate f sc se :
  collectedBelow sc f → f < se_GlobalPosition se → candidate (shred_add (GetEncryptionKeyID (se_Metadata se)) f sc) se.
Proof.
  intros Hb Hf. set (k := GetEncryptionKeyID (se_Metadata se)). pose proof (shred_add_below k f sc Hb) as Hb'.
  assert (∃ g, sc_frontier (shred_add k f sc) !! k = Some g ∧ is_Some (sc_matches (shred_add k f sc) !! k)) as (g & Hg & Hm).
  { unfold shred_add. destruct (sc_frontier sc !! k) as [f0|] eqn:Ef; cbn; eexists; (split; [by rewrite ?lookup_insert_eq|]);
      apply lookup_insert_is_Some'; by left. }
  split; [done|]. exists g. split; [done|]. specialize (Hb' _ _ Hg). lia.
Qed.

(** What a sweep knows of an event until the keys are decided. *)
Definition provisional (sc : shredCandidates) (p : RetentionPolicy R) w se : Prop :=
  match pol_Action p with
  | ActionShred => HasEncryptionEnvelope (se_Metadata se) = true → candidate sc se
  | ActionRedactFields | ActionAnonymize => pol_Apply p = None ∨ ∃ err, (p, se, err) ∈ ou_hooked (sw_out w)
  | ActionOther _ => True
  end.

Lemma provisional_mono sc sc' p w w' se : extends sc sc' → still w w' → provisional sc p w se → provisional sc' p w' se.
Proof.
  intros He [_ _ Hh]. unfold provisional. destruct (pol_Action p); try done.
  - intros Hc Hev. by eapply extends_candidate, Hc.
  - intros [?|(err & Hin)]; [by left|right]. exists err. by eapply elem_of_prefix.
  - intros [?|(err & Hin)]; [by left|right]. exists err. by eapply elem_of_prefix.
Qed.

Lemma act_spec p se f dryRun acc w w' acc' :
  act envs p se f dryRun acc w = (w', acc') →
  still w w' ∧ adapter w' = adapter w ∧ extends acc.1 acc'.1 ∧ rr_KeysRevoked acc'.2 = rr_KeysRevoked acc.2 ∧
  rr_KeysToRevoke acc'.2 = rr_KeysToRevoke acc.2 ∧
  (collectedBelow acc.1 f → collectedBelow acc'.1 f) ∧
  (dryRun = false → collectedBelow acc.1 f → f < se_GlobalPosition se → provisional acc'.1 p w' se).
Proof using clock.
  destruct acc as [sc rep]. unfold act, provisional. destruct (pol_Action p) eqn:Ea.
  - destruct (HasEncryptionEnvelope _) eqn:Ee; intros [= <- <-]; cbn; (split; [done|]); (split; [done|]).
    + split; [apply shred_add_extends|]. do 2 (split; [done|]). split; [apply shred_add_below|].
      intros _ Hb Hf _. by apply shred_add_candidate.
    + repeat (split; [done|]). done.
  - destruct dryRun; [by intros [= <- <-]|]. destruct (pol_Apply p) as [apply|] eqn:Ep.
    + destruct (callHook _ _ _ _ _) as [w1 r] eqn:Eh. apply still_hook in Eh as (Hs & Had & Hin).
      destruct r as [err|]; intros [= <- <-]; cbn; repeat (split; [done|]); intros; right; by eexists.
    + intros [= <- <-]; cbn; repeat (split; [done|]). by left.
  - destruct dryRun; [by intros [= <- <-]|]. destruct (pol_Apply p) as [apply|] eqn:Ep.
    + destruct (callHook _ _ _ _ _) as [w1 r] eqn:Eh. apply still_hook in Eh as (Hs & Had & Hin).
      destruct r as [err|]; intros [= <- <-]; cbn; repeat (split; [done|]); intros; right; by eexists.
    + intros [= <- <-]; cbn; repeat (split; [done|]). by left.
  - by intros [= <- <-].
Qed.

(** The policies on one event. *)
Lemma matchPolicies_spec policies t se f dryRun pending acc w w' pending' acc' :
  matchPolicies envs policies t se f dryRun pending acc w = (w', (pending', acc')) →
  still w w' ∧ adapter w' = adapter w ∧ extends acc.1 acc'.1 ∧ rr_KeysRevoked acc'.2 = rr_KeysRevoked acc.2 ∧
  rr_KeysToRevoke acc'.2 = rr_KeysToRevoke acc.2 ∧
  (collectedBelow acc.1 f → collectedBelow acc'.1 f) ∧
  (pending' = false → pending = false ∧
    (dryRun = false → collectedBelow acc.1 f → f < se_GlobalPosition se →
     ∀ p, p ∈ policies → matchesStatic p se = true → ageEligible p se t = true ∧ provisional acc'.1 p w' se)).
Proof using clock.
  revert pending acc w. induction policies as [|q policies IH]; intros pending acc w; cbn [matchPolicies].
  { intros [= <- <- <-]. do 6 (split; [done|]). intros ->. split; [done|]. by intros _ _ _ p ?%not_elem_of_nil. }
  destruct (matchesStatic q se) eqn:Em; cbn [negb].
  2: { intros E. apply IH in E as (Hs & Ha & Hx & Hr & Hk & Hb & Hp). do 6 (split; [done|]). intros Hf.
       destruct (Hp Hf) as [? Hall]. split; [done|]. intros Hd Hcb Hlt p [->|Hin]%elem_of_cons Hms; [congruence|].
       by apply Hall. }
  destruct (ageEligible q se t) eqn:Eg.
  2: { intros E. apply IH in E as (Hs & Ha & Hx & Hr & Hk & Hb & Hp). do 6 (split; [done|]). intros Hf. by destruct (Hp Hf). }
  destruct (act _ _ _ _ _ _ w) as [w1 acc1] eqn:Eact. apply act_spec in Eact as (Hs1 & Ha1 & Hx1 & Hr1 & Hk1 & Hb1 & Hp1).
  cbn in Hx1, Hr1, Hk1, Hb1, Hp1.
  intros E. apply IH in E as (Hs & Ha & Hx & Hr & Hk & Hb & Hp). split; [by etransitivity|]. split; [congruence|].
  split; [by etransitivity|]. do 2 (split; [congruence|]). split; [auto|]. intros Hf. destruct (Hp Hf) as [? Hall].
  split; [done|]. intros Hd Hcb Hlt p [->|Hin]%elem_of_cons Hms; [|by apply Hall; auto].
  split; [done|]. eapply provisional_mono; [exact Hx|exact Hs|]. auto.
Qed.

(** ** The sweep *)

(** The state of a sweep from [start] at time [t]: what lies past [start] up to
    the frontier is provisionally settled. *)
Record sweeping (start : Z) (t : Time) w (sp : sweep) : Prop := mkSweeping {
  sg_position : sp_position sp ≤ headOf (logged w);
  sg_start : start ≤ sp_position sp;
  sg_frontier : sp_frontier sp ≤ sp_position sp;
  sg_thawed : sp_frozen sp = false → sp_frontier sp = sp_position sp;
  sg_below : collectedBelow (sp_shred sp) (sp_frontier sp);
  sg_revoked : rr_KeysRevoked (sp_report sp) = [] ∧ rr_KeysToRevoke (sp_report sp) = [];
  sg_settled : ∀ se, se ∈ logged w → start < se_GlobalPosition se → se_GlobalPosition se ≤ sp_frontier sp →
    ∀ p, p ∈ inForce → matchesStatic p se = true → ageEligible p se t = true ∧ provisional (sp_shred sp) p w se;
}.

Lemma collectedBelow_mono sc b b' : b ≤ b' → collectedBelow sc b → collectedBelow sc b'.
Proof. intros Hb Hc k f Hf. specialize (Hc k f Hf). lia. Qed.

Lemma sweeping_still start t w w' sp : still w w' → el_wf (adapter w) → sweeping start t w sp → sweeping start t w' sp.
Proof.
  intros Hs Hwf [Hp Hst Hf Ht Hb Hr Hset]. destruct (moved_ok _ _ (st_moved _ _ Hs) Hwf) as (Hwf' & Hpre & Hok & Hok').
  assert (upToPos (λ se, start < se_GlobalPosition se →
    ∀ p, p ∈ inForce → matchesStatic p se = true → ageEligible p se t = true ∧ provisional (sp_shred sp) p w' se)
    (logged w') (sp_frontier sp)) as [_ Hall].
  { eapply (upToPos_prefix (λ se, start < se_GlobalPosition se →
      ∀ p, p ∈ inForce → matchesStatic p se = true → ageEligible p se t = true ∧ provisional (sp_shred sp) p w se));
      [exact Hok|exact Hok'|exact Hpre| |].
    - intros e He Hlt p Hp' Hms. destruct (He Hlt p Hp' Hms) as [? Hpr]. split; [done|].
      eapply provisional_mono; [reflexivity|exact Hs|exact Hpr].
    - split; [lia|]. intros e He Hle Hlt. by apply Hset. }
  split; try done.
  - etransitivity; [exact Hp|]. apply headOf_grows; [by apply prefix_grows|done..].
  - intros se Hse Hlt Hle. by apply Hall.
Qed.

(** Nothing but the position and the counts changes when the cap stops it. *)
Lemma sweepBatch_spec start t maxScan batch n sp w w' sp' stop :
  el_wf (adapter w) → sweeping start t w sp → batch = take n (after (sp_position sp) (logged w)) →
  sweepBatch envs inForce t false maxScan start batch sp w = (w', (sp', stop)) →
  still w w' ∧ adapter w' = adapter w ∧ sweeping start t w' sp' ∧
  (stop = false → batch ≠ [] → sp_position sp' = lastPosition batch).
Proof using clock appends.
  revert n sp w. induction batch as [|e batch IH]; intros n sp w Hwf Hsw Hb; cbn [sweepBatch].
  { intros [= <- <- <-]. done. }
  destruct (matchPolicies _ _ _ _ _ _ _ _ w) as [w1 [pending [sc rep]]] eqn:Em.
  apply matchPolicies_spec in Em as (Hs1 & Ha1 & Hx1 & Hr1 & Hk1 & Hb1 & Hp1). cbn [fst snd] in *.
  destruct (moved_ok _ _ (reflexivity w) Hwf) as (_ & _ & [Hinc Hpos] & _).
  destruct (after_head _ _ _ _ _ Hinc Hb) as (Hlt & Hin & Hrest & Hbetween).
  destruct (moved_ok _ _ (st_moved _ _ Hs1) Hwf) as (Hwf1 & _).
  assert (logged w1 = logged w) as Elog by (unfold logged; by rewrite Ha1).
  destruct Hsw as [Hpp Hst Hff Hth Hbel [Hrev Hrvk] Hset]. specialize (Hb1 Hbel).
  set (frontier := if sp_frozen sp then _ else _).
  set (frozen := sp_frozen sp || pending).
  assert (sp_frontier sp ≤ frontier ∧ frontier ≤ se_GlobalPosition e ∧ (frozen = false → frontier = se_GlobalPosition e)) as (Hf1 & Hf2 & Hf3).
  { unfold frontier, frozen. destruct (sp_frozen sp), pending; cbn; split_and!; intros; done || lia. }
  assert (∀ rep', rr_KeysRevoked rep' = rr_KeysRevoked rep → rr_KeysToRevoke rep' = rr_KeysToRevoke rep →
    sweeping start t w1 (mkSweep rep' sc frontier frozen (se_GlobalPosition e))) as Hsw1.
  { intros rep' Erep Erep'. split; cbn; [rewrite Elog; by apply headOf_max|lia|done|done| | |].
    - by eapply collectedBelow_mono.
    - rewrite Erep, Erep', Hr1, Hk1. done.
    - rewrite Elog. intros se Hse Hlt' Hle p Hp Hms.
      destruct (decide (se_GlobalPosition se ≤ sp_frontier sp)) as [Hold|Hnew].
      + destruct (Hset se Hse Hlt' Hold p Hp Hms) as [? Hpr]. split; [done|]. eapply provisional_mono; [exact Hx1|exact Hs1|done].
      + assert (frontier = se_GlobalPosition e ∧ sp_frozen sp = false ∧ pending = false) as (Ef & Hfz & Hpd).
        { unfold frontier in *. destruct (sp_frozen sp), pending; try done; lia. }
        assert (se = e) as ->.
        { destruct (Hbetween se Hse) as [Hle'|?]; [lia| |done]. rewrite <- (Hth Hfz) in Hle'. lia. }
        destruct (Hp1 Hpd) as [_ Hall]. apply Hall; [done|done|lia|done|done]. }
  destruct (_ && _ && _).
  { intros [= <- <- <-]. split; [done|]. split; [done|]. split; [by apply Hsw1|done]. }
  intros E. pose proof E as E2. eapply (IH (pred n)) in E2 as (Hs2 & Ha2 & Hsw2 & Hlast); [|done|by apply Hsw1|by rewrite Elog].
  split; [by etransitivity|]. split; [congruence|]. split; [done|]. intros Hstop _.
  destruct batch as [|e' batch].
  - cbn [sweepBatch] in E. by injection E as <- <- <-.
  - rewrite (Hlast Hstop); [|done]. unfold lastPosition. by rewrite last_cons_cons.
Qed.

Lemma sweepLog_spec start t maxScan fuel sp w w' sp' :
  el_wf (adapter w) → sweeping start t w sp →
  sweepLog envs others m inForce t false maxScan start fuel sp w = (w', Ok sp') → still w w' ∧ sweeping start t w' sp'.
Proof using clock appends.
  intros Hwf Hsw E. eapply (pageLoop_spec _ sp_position _ (sweeping start t)) in E as (Hs & Hsw' & _); [done|..|done|done].
  - intros. by eapply sweeping_still.
  - intros batch acc w0 n w1 acc' stop Hwf0 Hsw0 Hne Hb Eb.
    eapply sweepBatch_spec in Eb as (? & ? & ? & ?); [|done..]. repeat (split; [done|]). auto.
Qed.

(** ** What touches no key *)

Definition quiet w w' : Prop := still w w' ∧ provider w' = provider w.

#[local] Instance quiet_preorder : PreOrder quiet.
Proof using clock. split; [by split|]. intros w1 w2 w3 [? ?] [? ?]. split; [by etransitivity|congruence]. Qed.

Lemma quiet_step w : quiet w (step w).
Proof. split; [apply still_step|done]. Qed.

Lemma quiet_readLog {T} (f : Env → Store A P Ser X → T) w w' r : readLog envs others f w = (w', r) → quiet w w'.
Proof using appends. intros E. split; [by eapply still_readLog|]. by injection E as <- _. Qed.

Lemma pageLoop_quiet {T} wrap position (body : list StoredEvent → T → World → World * (T * bool)) fuel acc w w' r :
  (∀ batch acc w w' x, body batch acc w = (w', x) → quiet w w') →
  pageLoop envs others m wrap position body fuel acc w = (w', r) → quiet w w'.
Proof using appends clock.
  intros Hb. revert acc w. induction fuel as [|fuel IH]; intros acc w E; cbn [pageLoop] in E; [by injection E as <- _|].
  destruct (ctx_Err (here envs w)); [injection E as <- _; apply quiet_step|].
  destruct (readLog envs others _ (step w)) as [w1 [batch|err]] eqn:Er.
  all: assert (quiet w w1) as Hq1 by (etransitivity; [apply quiet_step|by eapply quiet_readLog]).
  2: by injection E as <- _.
  destruct batch as [|e es]; [by injection E as <- _|]. destruct (body (e :: es) acc w1) as [w2 [acc2 stop]] eqn:Eb.
  assert (quiet w w2) as Hq2 by (etransitivity; [exact Hq1|by eapply Hb]).
  destruct stop; [by injection E as <- _|]. destruct (_ <? _); [by injection E as <- _|]. etransitivity; [exact Hq2|by eapply IH].
Qed.

Lemma act_quiet p se f dryRun acc w w' acc' : act envs p se f dryRun acc w = (w', acc') → quiet w w'.
Proof using clock.
  intros E. split; [by eapply act_spec|]. revert E. destruct acc as [sc rep]. unfold act, callHook, withOut.
  repeat case_match; intros; simplify_eq/=; done.
Qed.

Lemma matchPolicies_quiet policies t se f dryRun pending acc w w' r :
  matchPolicies envs policies t se f dryRun pending acc w = (w', r) → quiet w w'.
Proof using clock.
  revert pending acc w. induction policies as [|q policies IH]; intros pending acc w; cbn [matchPolicies]; [by intros [= <- _]|].
  destruct (negb _); [apply IH|]. destruct (ageEligible _ _ _); [|apply IH].
  destruct (act _ _ _ _ _ _ w) as [w1 acc1] eqn:Ea. intros E. etransitivity; [by eapply act_quiet|by eapply IH].
Qed.

Lemma sweepBatch_quiet policies t dryRun maxScan start batch sp w w' r :
  sweepBatch envs policies t dryRun maxScan start batch sp w = (w', r) → quiet w w'.
Proof using clock.
  revert sp w. induction batch as [|e batch IH]; intros sp w; cbn [sweepBatch]; [by intros [= <- _]|].
  destruct (matchPolicies _ _ _ _ _ _ _ _ w) as [w1 [pending [sc rep]]] eqn:Em.
  assert (quiet w w1) as Hq1 by by eapply matchPolicies_quiet.
  destruct (_ && _ && _); [by intros [= <- _]|]. intros E. etransitivity; [exact Hq1|by eapply IH].
Qed.

Lemma sweepLog_quiet policies t dryRun maxScan start fuel sp w w' r :
  sweepLog envs others m policies t dryRun maxScan start fuel sp w = (w', r) → quiet w w'.
Proof using clock appends. apply pageLoop_quiet. intros *. apply sweepBatch_quiet. Qed.

Lemma detect_quiet fuel candidates policies t w w' r :
  detectSharedShredKeys envs others m fuel candidates policies t w = (w', r) → quiet w w'.
Proof using clock appends.
  unfold detectSharedShredKeys. destruct (pageLoop _ _ _ _ _ _ _ _ _) as [w1 x] eqn:E.
  intros Er. assert (w1 = w') as -> by (destruct x; by injection Er).
  eapply pageLoop_quiet in E; [exact E|]. by intros * [= <- _].
Qed.

Lemma guard_quiet fuel candidates policies t report w w' r :
  guardRetentionKeys envs others m fuel candidates policies t report w = (w', r) → quiet w w'.
Proof using clock appends.
  unfold guardRetentionKeys. destruct (rm_allowSharedKey m); [by intros [= <- _]|].
  destruct (detectSharedShredKeys _ _ _ _ _ _ _ w) as [w1 x] eqn:E. apply detect_quiet in E.
  destruct x; by intros [= <- _].
Qed.

(** ** The guard *)

Definition ofKey (k : string) se : Prop :=
  HasEncryptionEnvelope (se_Metadata se) = true ∧ GetEncryptionKeyID (se_Metadata se) = k.

Lemma tally_spec candidates policies t batch (oos : gmap string Z) k :
  is_Some (candidates !! k) → tallyOutOfScopeKeys (R := R) candidates policies t batch oos !! k = None →
  oos !! k = None ∧ ∀ se, se ∈ batch → ofKey k se → coveredByShred se policies t = true.
Proof.
  intros Hk. revert oos. induction batch as [|e batch IH]; intros oos; [split; [done|by intros se ?%not_elem_of_nil]|].
  unfold tallyOutOfScopeKeys in *. cbn [foldl]. intros E. apply IH in E as [E Hall].
  assert (oos !! k = None ∧ (ofKey k e → coveredByShred e policies t = true)) as [? ?].
  { revert E. unfold ofKey. destruct (HasEncryptionEnvelope _); cbn; [|by intuition]. case_bool_decide as Hc.
    - intros ?. split; [done|]. intros [_ <-]. destruct Hk. congruence.
    - destruct (coveredByShred _ _ _); cbn; [by intuition|]. intros [? ?]%lookup_insert_None. split; [done|]. by intros [_ ?]. }
  split; [done|]. intros se [->|Hse]%elem_of_cons; auto.
Qed.

Lemma detect_spec fuel candidates policies t w w' oos :
  el_wf (adapter w) → detectSharedShredKeys envs others m fuel candidates policies t w = (w', Ok oos) →
  ∀ k, is_Some (candidates !! k) → oos !! k = None →
  ∀ se, se ∈ logged w' → ofKey k se → coveredByShred se policies t = true.
Proof using clock appends RevocableLaws0 CheckpointLaws0.
  intros Hwf. unfold detectSharedShredKeys. destruct (pageLoop _ _ _ _ _ _ _ _ _) as [w1 [acc|err]] eqn:E; [|done].
  intros [= <- <-] k Hk Hn.
  eapply (pageLoop_spec _ fst _ (λ w acc, acc.1 ≤ headOf (logged w) ∧
    (acc.2 !! k = None → upToPos (λ se, ofKey k se → coveredByShred se policies t = true) (logged w) acc.1))) in E
    as (Hs & (_ & HJ) & Hend); [| | | |done].
  - specialize (HJ Hn) as [_ HJ]. intros se Hse. destruct Hend as [Hend|(batch & acc0 & w0 & Hstop)]; [|done].
    apply HJ; [done|]. destruct (decide (acc.1 < se_GlobalPosition se)); [|lia].
    assert (se ∈ after acc.1 (logged w1)) as Hin by by apply list_elem_of_filter. rewrite Hend in Hin. by apply not_elem_of_nil in Hin.
  - intros x y a Hxy Hx [Hh Ha]. destruct (moved_ok _ _ (st_moved _ _ Hxy) Hx) as (_ & Hp & Ho & Ho').
    split; [etransitivity; [exact Hh|apply headOf_grows; [by apply prefix_grows|done..]]|].
    intros Hka. eapply upToPos_prefix; [exact Ho|exact Ho'|exact Hp| |by apply Ha]. done.
  - intros batch a x n y a' stop Hx [Hh Ha] Hne Hb [= <- <- <-]. do 2 (split; [done|]). cbn [fst snd].
    destruct (moved_ok _ _ (reflexivity x) Hx) as (_ & _ & [Hinc Hpos] & _).
    assert (default 0 (se_GlobalPosition <$> last batch) = lastPosition batch) as -> by by unfold lastPosition; destruct (last batch).
    assert (page a.1 (logged x) batch) as Hpage by (exists n; by rewrite selected_after).
    assert (lastPosition batch ≤ headOf (logged x)) as Hle by by eapply page_last.
    split; [|done]. split; [done|]. intros Hka. apply tally_spec in Hka as [Hka Hcov]; [|done]. destruct (Ha Hka) as [_ Hall].
    split; [done|]. intros e He Hel. destruct (decide (a.1 < se_GlobalPosition e)) as [Hlt|]; [|apply Hall; [done|lia]].
    apply Hcov. by eapply page_complete.
  - destruct (moved_ok _ _ (reflexivity w) Hwf) as (_ & _ & Ho & _). split; [by apply headOf_nonneg|]. intros _.
    split; [by apply headOf_nonneg|]. cbn. intros e He Hle. destruct Ho as [_ Hpos]. specialize (Hpos e He). lia.
Qed.

(** The keys the guard lets through protect events in scope only. *)
Lemma guard_spec fuel candidates policies t report w w' report' :
  el_wf (adapter w) → rm_allowSharedKey m = false → rr_KeysToRevoke report = [] →
  guardRetentionKeys envs others m fuel candidates policies t report w = (w', Ok report') →
  rr_KeysRevoked report' = rr_KeysRevoked report ∧
  ∀ k, k ∈ rr_KeysToRevoke report' → ∀ se, se ∈ logged w' → ofKey k se → coveredByShred se policies t = true.
Proof using clock appends RevocableLaws0 CheckpointLaws0.
  intros Hwf Hm Hr. unfold guardRetentionKeys. rewrite Hm.
  destruct (detectSharedShredKeys _ _ _ _ _ _ _ w) as [w1 [oos|err]] eqn:E; [|done]. intros [= <- <-]. cbn.
  split; [done|]. intros k. rewrite Hr, elem_of_sortStrings. cbn [app]. intros [Hno Hin]%list_elem_of_filter.
  eapply detect_spec; [exact Hwf|exact E| |by apply eq_None_not_Some].
  apply list_elem_of_fmap in Hin as ([k' []] & -> & Hin). apply elem_of_range in Hin. by eexists.
Qed.

Lemma guard_revoked fuel candidates policies t report w w' report' :
  guardRetentionKeys envs others m fuel candidates policies t report w = (w', Ok report') →
  rr_KeysRevoked report' = rr_KeysRevoked report.
Proof.
  unfold guardRetentionKeys. destruct (rm_allowSharedKey m); [by intros [= _ <-]|].
  destruct (detectSharedShredKeys _ _ _ _ _ _ _ w) as [w1 [oos|err]]; by intros [= _ <-].
Qed.

(** ** Revocation *)

Definition goneNow w k : Prop := rv_gone (now envs w) k (provider w).

Lemma goneNow_moved w w' k : moved envs w w' → goneNow w k → goneNow w' k.
Proof using clock.
  intros Hm Hg. eapply gone_later; [eapply (mv_gone _ _ _ Hm); [reflexivity|exact Hg]|]. by eapply now_le.
Qed.

Lemma revokeKey_gone cfg k w w' : withProvider envs (λ _, cfgRevokeKey cfg k) w = (w', Ok tt) → goneNow w' k.
Proof using revoke_gone.
  unfold withProvider, cfgRevokeKey, goneNow, provider. destruct (fe_hasProvider cfg); [|done].
  destruct (Revoke k (st_provider (sw_store w))) as [p r] eqn:E. intros [= <- ->]. cbn. by eapply revoke_gone.
Qed.

Lemma revokeEach_spec cfg keys report w w' report' :
  revokeEach envs cfg keys report w = (w', report') →
  still w w' ∧ adapter w' = adapter w ∧ rr_KeysToRevoke report' = rr_KeysToRevoke report ∧
  ∀ k, k ∈ rr_KeysRevoked report' → k ∈ rr_KeysRevoked report ∨ goneNow w' k.
Proof using clock revoke_gone.
  revert report w. induction keys as [|k keys IH]; intros report w; cbn [revokeEach].
  { intros [= <- <-]. do 3 (split; [done|]). by left. }
  destruct (withProvider envs (λ _, cfgRevokeKey cfg k) w) as [w1 r] eqn:E.
  assert (still w w1) as Hs1 by (eapply still_provider; [exact E|by eapply cfgRevokeKey_moved]).
  assert (adapter w1 = adapter w) as Ha1 by (revert E; unfold withProvider; destruct (cfgRevokeKey _ _ _); by intros [= <- _]).
  destruct r as [[]|err]; intros E2; apply IH in E2 as (Hs & Ha & Hk & Hr); cbn in Hk, Hr.
  - split; [by etransitivity|]. split; [congruence|]. split; [done|]. intros k' [[?|?%list_elem_of_singleton]%elem_of_app|?]%Hr; [by left| |by right].
    subst k'. right. eapply goneNow_moved; [exact (st_moved _ _ Hs)|by eapply revokeKey_gone].
  - split; [by etransitivity|]. split; [congruence|]. by split.
Qed.

Lemma revoke_spec report w w' report' :
  rr_KeysRevoked report = [] → revoke envs c report w = (w', report') →
  still w w' ∧ adapter w' = adapter w ∧ rr_KeysToRevoke report' = rr_KeysToRevoke report ∧
  ∀ k, k ∈ rr_KeysRevoked report' → goneNow w' k.
Proof using clock revoke_gone.
  intros Hr. unfold revoke. case_bool_decide.
  { intros [= <- <-]. do 3 (split; [done|]). intros k. rewrite Hr. by intros ?%not_elem_of_nil. }
  destruct (es_encryption c) as [cfg|].
  2: { intros [= <- <-]. do 3 (split; [done|]). intros k. cbn. rewrite Hr. by intros ?%not_elem_of_nil. }
  destruct (revokeEach _ _ _ _ w) as [w1 r1] eqn:E. apply revokeEach_spec in E as (Hs & Ha & Hk & Hg). intros [= <- <-].
  do 3 (split; [done|]). intros k. cbn. rewrite elem_of_sortStrings. rewrite Hr in Hg. intros [?%not_elem_of_nil|?]%Hg; done.
Qed.

(** ** The accounting *)

Lemma settleMatches_foldl (shred : shredCandidates) (l : list (string * Z)) report f :
  let r := foldl (λ '(report, frontier) '(k, n),
    if bool_decide (k ∈ rr_KeysRevoked report) then (upd_counts 0 0 n 0 0 report, frontier)
    else let f := default 0 (sc_frontier shred !! k) in
         (upd_counts 0 0 0 n 0 report, if f <? frontier then f else frontier)) (report, f) l in
  rr_KeysRevoked r.1 = rr_KeysRevoked report ∧ r.2 ≤ f ∧
  ∀ k n, (k, n) ∈ l → k ∈ rr_KeysRevoked report ∨ r.2 ≤ default 0 (sc_frontier shred !! k).
Proof.
  revert report f. induction l as [|[k n] l IH]; intros report f; cbn [foldl].
  { cbn. split; [done|]. split; [lia|]. by intros k n ?%not_elem_of_nil. }
  case_bool_decide as Hk.
  - destruct (IH (upd_counts 0 0 n 0 0 report) f) as (Hr & Hf & Hall). split; [done|]. split; [done|].
    intros k' n' [[= -> ->]|Hin]%elem_of_cons; [by left|by eapply Hall].
  - set (f' := if _ <? f then _ else f). assert (f' ≤ f ∧ f' ≤ default 0 (sc_frontier shred !! k)) as [? ?].
    { unfold f'. destruct (Z.ltb_spec (default 0 (sc_frontier shred !! k)) f); lia. }
    destruct (IH (upd_counts 0 0 0 n 0 report) f') as (Hr & Hf & Hall). split; [done|]. split; [by etransitivity|].
    intros k' n' [[= -> ->]|Hin]%elem_of_cons; [right; by etransitivity|by eapply Hall].
Qed.

Lemma settleMatches_spec shred report f :
  (settleMatches shred report f).2 ≤ f ∧
  ∀ k, is_Some (sc_matches shred !! k) →
    k ∈ rr_KeysRevoked report ∨ (settleMatches shred report f).2 ≤ default 0 (sc_frontier shred !! k).
Proof.
  destruct (settleMatches_foldl shred (range (sc_matches shred)) report f) as (_ & Hf & Hall).
  split; [exact Hf|]. intros k [n Hk]. apply (Hall k n). by apply elem_of_range.
Qed.

(** The keys are decided: gone, or collected beyond [f]. *)
Definition decided (sc : shredCandidates) (f : Z) w : Prop :=
  ∀ k, is_Some (sc_matches sc !! k) → goneNow w k ∨ f ≤ default 0 (sc_frontier sc !! k).

Lemma decided_settled start t w sp f se :
  sweeping start t w sp → decided (sp_shred sp) f w → f ≤ sp_frontier sp → t ≤ sweepTime w →
  se ∈ logged w → start < se_GlobalPosition se → se_GlobalPosition se ≤ f → settled w se.
Proof.
  intros Hsw Hd Hf Ht Hse Hlt Hle p Hp Hms.
  destruct (sg_settled _ _ _ _ Hsw se Hse Hlt ltac:(lia) p Hp Hms) as [Ha Hpr].
  split; [by eapply ageEligible_later|]. unfold provisional in Hpr. unfold handledBy. destruct (pol_Action p); try done.
  intros He. destruct (Hpr He) as [Hm (g & Hg & Hgl)]. destruct (Hd _ Hm) as [Hgone|Hfr]; [exact Hgone|].
  rewrite Hg in Hfr. cbn in Hfr. lia.
Qed.

(** ** A run *)

(** What a run can rely on and leaves for the next: everything behind the
    checkpoint is settled. *)
Definition resumable (name : string) w : Prop := el_wf (adapter w) ∧ upToPos (settled w) (logged w) (checkpointOf name w).

Lemma resumable_still name w w' : still w w' → resumable name w → resumable name w'.
Proof using clock sweep_clock.
  intros Hs [Hwf Hu]. destruct (moved_ok _ _ (st_moved _ _ Hs) Hwf) as (Hwf' & Hp & Ho & Ho'). split; [done|].
  assert (checkpointOf name w' = checkpointOf name w) as -> by (unfold checkpointOf; by rewrite (st_ck _ _ Hs)).
  eapply upToPos_prefix; [exact Ho|exact Ho'|exact Hp| |exact Hu]. intros e. apply kept_settled; apply Hs.
Qed.

Lemma getCheckpoint_still name w w' r :
  withCheckpoints envs (λ env, ck_GetCheckpoint env name) w = (w', r) →
  still w w' ∧ provider w' = provider w ∧ ∀ p, r = Ok p → p = checkpointOf name w.
Proof.
  unfold withCheckpoints. intros E. assert (moved envs w w') as Hm by (eapply (withOut_moved envs); exact E).
  revert E. unfold withOut. destruct (ck_GetCheckpoint _ _ _) as [k x] eqn:Ek. intros [= <- <-]. split; [|split; [done|]].
  - split; [done|cbn; by eapply ck_get_view|done].
  - intros p ->. by eapply ck_get_ok.
Qed.

Lemma setCheckpoint_spec name pos w w' r :
  withCheckpoints envs (λ env, ck_SetCheckpoint env name pos) w = (w', r) →
  moved envs w w' ∧ adapter w' = adapter w ∧ provider w' = provider w ∧ ou_hooked (sw_out w') = ou_hooked (sw_out w) ∧
  (checkpointOf name w' = pos ∨ still w w').
Proof.
  unfold withCheckpoints. intros E. assert (moved envs w w') as Hm by (eapply (withOut_moved envs); exact E).
  revert E. unfold withOut. destruct (ck_SetCheckpoint _ _ _ _) as [k x] eqn:Ek. intros [= <- <-].
  do 4 (split; [done|]). unfold checkpointOf. cbn. apply ck_set_view in Ek as [->|[_ Hk]].
  - left. by rewrite lookup_insert_eq.
  - right. by split.
Qed.

Lemma decideKeys_spec fuel t dryRun report sp w w' x :
  rr_KeysRevoked report = [] →
  decideKeys envs others c m fuel inForce t dryRun report sp w = (w', x) →
  still w w' ∧
  (dryRun = false → ∀ report' f, x = Ok (report', f) → f ≤ sp_frontier sp ∧ decided (sp_shred sp) f w').
Proof using clock appends revoke_gone.
  intros Hr. unfold decideKeys. case_bool_decide as Hsize.
  { intros [= <- <-]. split; [done|]. intros _ report' f [= <- <-]. split; [done|]. intros k [n Hk].
    apply map_size_empty_inv in Hsize. rewrite Hsize, lookup_empty in Hk. done. }
  destruct (guardRetentionKeys _ _ _ _ _ _ _ _ w) as [w1 [r1|err]] eqn:Eg; pose proof (guard_quiet _ _ _ _ _ _ _ _ Eg) as [Hs1 Hp1].
  2: { intros [= <- <-]. by split. }
  destruct dryRun; [intros [= <- <-]; by split|].
  destruct (revoke _ _ _ w1) as [w2 r2] eqn:Er. apply revoke_spec in Er as (Hs2 & _ & _ & Hgone).
  2: { by rewrite (guard_revoked _ _ _ _ _ _ _ _ Eg). }
  intros [= <- <-]. split; [by etransitivity|]. intros _ report' f [= Es].
  destruct (settleMatches_spec (sp_shred sp) r2 (sp_frontier sp)) as [Hf Hall]. rewrite Es in Hf, Hall. cbn in Hf, Hall.
  split; [done|]. intros k Hk. destruct (Hall k Hk) as [?|?]; [left; by apply Hgone|by right].
Qed.

Lemma conclude_resumable name fuel start t sp w w' r :
  rm_checkpoint m = Some name → sweeping start t w sp → t ≤ sweepTime w → checkpointOf name w = start → resumable name w →
  conclude envs others c m fuel inForce t false start sp w = (w', r) → resumable name w'.
Proof using clock appends revoke_gone sweep_clock.
  intros Hm Hsw Ht Hck Hres. unfold conclude. rewrite Hm. set (report := if 0 <? _ then _ else _).
  assert (rr_KeysRevoked report = []) as Hr by (unfold report; destruct (0 <? _); apply (sg_revoked _ _ _ _ Hsw)).
  destruct (decideKeys _ _ _ _ _ _ _ _ _ _ w) as [w1 x] eqn:Ed.
  apply decideKeys_spec in Ed as (Hs1 & Hd); [|done]. specialize (Hd eq_refl).
  pose proof (resumable_still name _ _ Hs1 Hres) as Hres1.
  destruct x as [[report' f]|err]; [|by intros [= <- _]]. destruct (Hd report' f eq_refl) as [Hf Hdec].
  destruct (Z.ltb_spec start f) as [Hlt|]; cbn [negb andb]; [|by intros [= <- _]].
  destruct (withCheckpoints _ _ w1) as [w2 y] eqn:Ew. intros E. assert (w2 = w') as -> by (by destruct y; injection E). clear E.
  apply setCheckpoint_spec in Ew as (Hm2 & Ha2 & Hp2 & Hh2 & [Hck2|Hs2]); [|by eapply resumable_still].
  pose proof (proj1 Hres) as Hwf. pose proof (sweeping_still _ _ _ _ _ Hs1 Hwf Hsw) as Hsw1. destruct Hres1 as [Hwf1 [_ Hset1]].
  assert (logged w' = logged w1) as Elog by (unfold logged; by rewrite Ha2). split; [by rewrite Ha2|].
  rewrite Hck2, Elog. pose proof (sg_position _ _ _ _ Hsw1). pose proof (sg_frontier _ _ _ _ Hsw1). split; [lia|].
  intros e He Hle. apply (kept_settled w1); [exact Hm2|by rewrite Hh2|].
  destruct (decide (start < se_GlobalPosition e)).
  - eapply (decided_settled start t); [exact Hsw1|exact Hdec|done| |done..].
    etransitivity; [exact Ht|]. apply sweep_clock, Hs1.
  - apply Hset1; [done|]. unfold checkpointOf in *. rewrite (st_ck _ _ Hs1). lia.
Qed.

Lemma decideKeys_dryRun fuel policies t report sp w w' x :
  decideKeys envs others c m fuel policies t true report sp w = (w', x) → quiet w w'.
Proof using clock appends RevocableLaws0 CheckpointLaws0.
  unfold decideKeys. case_bool_decide; [by intros [= <- _]|].
  destruct (guardRetentionKeys _ _ _ _ _ _ _ _ w) as [w1 [r1|err]] eqn:Eg; intros [= <- _]; by eapply guard_quiet.
Qed.

Lemma conclude_dryRun fuel policies start t sp w w' r :
  conclude envs others c m fuel policies t true start sp w = (w', r) → quiet w w'.
Proof using clock appends RevocableLaws0 CheckpointLaws0.
  unfold conclude. destruct (decideKeys _ _ _ _ _ _ _ _ _ _ w) as [w1 x] eqn:Ed. apply decideKeys_dryRun in Ed.
  destruct x as [[report' f]|err]; [destruct (rm_checkpoint m)|]; cbn [negb andb]; by intros [= <- _].
Qed.

Lemma sweeping_start start t w report :
  rr_KeysRevoked report = [] → rr_KeysToRevoke report = [] → start ≤ headOf (logged w) →
  sweeping start t w (mkSweep report newShredCandidates start false start).
Proof. intros Hr Hk Hs. split; cbn; try done. intros se _ Hlt Hle. lia. Qed.

Lemma reportErrors report (errs : list error) :
  rr_KeysRevoked (foldl (λ r err, addReportError err r) report errs) = rr_KeysRevoked report ∧
  rr_KeysToRevoke (foldl (λ r err, addReportError err r) report errs) = rr_KeysToRevoke report.
Proof. revert report. induction errs as [|e errs IH]; intros report; [done|]. cbn. by destruct (IH (addReportError e report)). Qed.

(** A run up to its sweep, and what follows it. *)
Lemma run_inv fuel dryRun w w' r :
  run envs others c scannable m fuel dryRun w = (w', r) →
  quiet w w' ∨
  ∃ report maxScan start w0 w1 sp, quiet w w0 ∧ rr_KeysRevoked report = [] ∧ rr_KeysToRevoke report = [] ∧
    (∀ name, rm_checkpoint m = Some name → start = checkpointOf name w) ∧ (rm_checkpoint m = None → start = 0) ∧
    sweepLog envs others m inForce (sweepTime w0) dryRun maxScan start fuel
      (mkSweep report newShredCandidates start false start) (step w0) = (w1, Ok sp) ∧
    conclude envs others c m fuel inForce (sweepTime w0) dryRun start sp w1 = (w', r).
Proof using clock appends CheckpointLaws0.
  unfold run. destruct (negb scannable); [intros [= <- _]; by left|].
  destruct (reportErrors (newReport dryRun) (ValidateAll m)) as [Hr Hk].
  set (report := foldl _ _ _) in *. set (checked := if (0 <? rm_maxScan m) && _ then _ else _).
  assert (∃ rep maxScan, checked = (rep, maxScan) ∧ rr_KeysRevoked rep = [] ∧ rr_KeysToRevoke rep = []) as (rep & maxScan & -> & ? & ?).
  { unfold checked. destruct (_ && _); do 2 eexists; (split; [reflexivity|]); split; cbn; rewrite ?Hr, ?Hk; done. }
  set (startAt := match rm_checkpoint m with None => _ | Some _ => _ end).
  assert (∃ w0 x, startAt = (w0, x) ∧ quiet w w0 ∧ (∀ p, x = Ok p → (∀ name, rm_checkpoint m = Some name → p = checkpointOf name w) ∧
    (rm_checkpoint m = None → p = 0))) as (w0 & x & -> & Hq0 & Hx).
  { unfold startAt. destruct (rm_checkpoint m) as [name|].
    - destruct (withCheckpoints _ _ w) as [w0 [pos|err]] eqn:E; apply getCheckpoint_still in E as (? & ? & Hpos); do 2 eexists;
        (split; [reflexivity|]); (split; [by split|]); intros p [= <-]. split; [|done]. intros name' [= <-]. by apply Hpos.
    - do 2 eexists. split; [reflexivity|]. split; [done|]. intros p [= <-]. done. }
  destruct x as [start|err]; [|intros [= <- _]; by left]. destruct (Hx start eq_refl) as [Hck Hnone].
  fold inForce. fold (sweepTime w0). destruct (sweepLog _ _ _ _ _ _ _ _ _ _ (step w0)) as [w1 [sp|err]] eqn:Es.
  - intros E. right. do 6 eexists. split; [exact Hq0|]. split; [|split; [|split; [exact Hck|split; [exact Hnone|split; [exact Es|exact E]]]]]; done.
  - intros [= <- _]. left. etransitivity; [exact Hq0|]. etransitivity; [apply quiet_step|]. by eapply sweepLog_quiet.
Qed.

Lemma pageLoop_acc {T} wrap position (body : list StoredEvent → T → World → World * (T * bool)) (J : T → Prop) fuel acc w w' acc' :
  (∀ batch acc w, J acc → J (body batch acc w).2.1) → J acc →
  pageLoop envs others m wrap position body fuel acc w = (w', Ok acc') → J acc'.
Proof.
  intros Hb. revert acc w. induction fuel as [|fuel IH]; intros acc w HJ E; cbn [pageLoop] in E; [done|].
  destruct (ctx_Err _); [done|]. destruct (readLog _ _ _ _) as [w1 [[|e es]|err]]; [by injection E as _ <-| |done].
  specialize (Hb (e :: es) acc w1 HJ). destruct (body (e :: es) acc w1) as [w2 [acc2 stop]]. cbn in Hb.
  destruct stop; [by injection E as _ <-|]. destruct (_ <? _); [by injection E as _ <-|]. by exact (IH _ _ Hb E).
Qed.

Definition noKeys (report : RetentionReport) : Prop := rr_KeysRevoked report = [] ∧ rr_KeysToRevoke report = [].

Lemma sweepBatch_noKeys policies t dryRun maxScan start batch sp w :
  noKeys (sp_report sp) → noKeys (sp_report (sweepBatch envs policies t dryRun maxScan start batch sp w).2.1).
Proof using clock RevocableLaws0 EventLogLaws0 CheckpointLaws0.
  revert sp w. induction batch as [|e batch IH]; intros sp w Hn; cbn [sweepBatch]; [done|].
  destruct (matchPolicies _ _ _ _ _ _ _ _ w) as [w1 [pending [sc rep]]] eqn:Em.
  apply matchPolicies_spec in Em as (_ & _ & _ & Hr & Hk & _). cbn in Hr, Hk. destruct Hn as [Hn1 Hn2].
  assert (noKeys rep) as Hrep by (split; congruence).
  destruct (_ && _ && _); [exact Hrep|]. by apply IH.
Qed.

Lemma sweepLog_noKeys policies t dryRun maxScan start fuel sp w w' sp' :
  noKeys (sp_report sp) → sweepLog envs others m policies t dryRun maxScan start fuel sp w = (w', Ok sp') → noKeys (sp_report sp').
Proof using clock appends RevocableLaws0 CheckpointLaws0. intros Hn. apply (pageLoop_acc _ _ _ (λ sp, noKeys (sp_report sp))); [|done]. intros. by apply sweepBatch_noKeys. Qed.

(** A dry run revokes nothing, and moves no checkpoint. *)
Lemma DryRun_quiet fuel w w' r : DryRun envs others c scannable m fuel w = (w', r) → quiet w w'.
Proof using clock appends RevocableLaws0 CheckpointLaws0.
  intros E. apply run_inv in E as [Hq|(report & maxScan & start & w0 & w1 & sp & Hq & _ & _ & _ & _ & Es & E)]; [exact Hq|].
  etransitivity; [exact Hq|]. etransitivity; [apply quiet_step|]. etransitivity; [by eapply sweepLog_quiet|].
  by eapply conclude_dryRun.
Qed.

Lemma Apply_resumable name fuel w w' r :
  rm_checkpoint m = Some name → resumable name w → Apply envs others c scannable m fuel w = (w', r) → resumable name w'.
Proof using clock appends revoke_gone sweep_clock.
  intros Hm Hres E. apply run_inv in E as [Hq|(report & maxScan & start & w0 & w1 & sp & Hq & Hr & Hk & Hst & _ & Es & E)].
  { eapply resumable_still; [apply Hq|done]. }
  assert (still w (step w0)) as Hs0 by (etransitivity; [apply Hq|apply still_step]).
  pose proof (resumable_still name _ _ Hs0 Hres) as Hres0. specialize (Hst name Hm). destruct Hres0 as [Hwf0 Hup0].
  assert (start = checkpointOf name (step w0)) as Est by (rewrite Hst; unfold checkpointOf; by rewrite (st_ck _ _ Hs0)).
  pose proof Es as Es'. eapply sweepLog_spec in Es' as [Hs1 Hsw]; [|exact Hwf0|apply sweeping_start; [done|done|]].
  2: { rewrite Est. apply Hup0. }
  eapply (conclude_resumable name); [exact Hm|exact Hsw| | | |exact E].
  - etransitivity; [|apply sweep_clock, Hs1]. apply sweep_clock. cbn. lia.
  - rewrite Est. unfold checkpointOf. by rewrite (st_ck _ _ Hs1).
  - eapply resumable_still; [exact Hs1|]. by split.
Qed.

(** ** Which keys are destroyed *)

(** [RevokeKey] destroys the key it names and no other. *)
Definition revokes_only : Prop := ∀ t k k' (p : P), k' ≠ k → rv_gone t k' (Revoke k p).1 → rv_gone t k' p.

Lemma revokeEach_only cfg keys report w w' report' t k :
  revokes_only → revokeEach envs cfg keys report w = (w', report') →
  rv_gone t k (provider w') → k ∈ keys ∨ rv_gone t k (provider w).
Proof.
  intros Hro. revert report w. induction keys as [|k' keys IH]; intros report w; cbn [revokeEach]; [intros [= <- <-]; by right|].
  destruct (withProvider envs (λ _, cfgRevokeKey cfg k') w) as [w1 r] eqn:E.
  assert (rv_gone t k (provider w1) → k = k' ∨ rv_gone t k (provider w)) as Hone.
  { revert E. unfold withProvider, cfgRevokeKey, provider. destruct (fe_hasProvider cfg); [|intros [= <- _]; by right].
    destruct (Revoke k' _) as [p x] eqn:Er. intros [= <- _]. cbn. intros Hg. destruct (decide (k = k')) as [|Hne]; [by left|right].
    apply (Hro t k' k); [done|]. by rewrite Er. }
  destruct r as [[]|err]; intros E2 Hg; (destruct (IH _ _ E2 Hg) as [?|[->|?]%Hone]; [left; by right|left; by left|by right]).
Qed.

Lemma revoke_only_listed report w w' report' t k :
  revokes_only → revoke envs c report w = (w', report') →
  rv_gone t k (provider w') → k ∈ rr_KeysToRevoke report ∨ rv_gone t k (provider w).
Proof.
  intros Hro. unfold revoke. case_bool_decide; [intros [= <- _]; by right|].
  destruct (es_encryption c) as [cfg|]; [|intros [= <- _]; by right].
  destruct (revokeEach _ _ _ _ w) as [w1 r1] eqn:E. intros [= <- _]. by eapply revokeEach_only.
Qed.

Lemma coveredByShred_later se (policies : list (RetentionPolicy R)) t t' :
  t ≤ t' → coveredByShred se policies t = true → coveredByShred se policies t' = true.
Proof.
  intros Ht. unfold coveredByShred. rewrite !existsb_exists. intros (p & Hp & Hb). exists p. split; [done|].
  apply andb_true_iff in Hb as [Hb Ha]. apply andb_true_iff. split; [done|]. by eapply ageEligible_later.
Qed.

Lemma decideKeys_only fuel t dryRun report sp w w' x t' k :
  revokes_only → el_wf (adapter w) → rm_allowSharedKey m = false → rr_KeysToRevoke report = [] →
  decideKeys envs others c m fuel inForce t dryRun report sp w = (w', x) →
  rv_gone t' k (provider w') → ¬ rv_gone t' k (provider w) →
  ∀ se, se ∈ logged w → ofKey k se → coveredByShred se inForce t = true.
Proof using clock appends CheckpointLaws0.
  intros Hro Hwf Ha Hr. unfold decideKeys. case_bool_decide as Hsize; [by intros [= <- <-]|].
  destruct (guardRetentionKeys _ _ _ _ _ _ _ _ w) as [w1 [r1|err]] eqn:Eg; pose proof (guard_quiet _ _ _ _ _ _ _ _ Eg) as [Hs1 Hp1].
  2: { intros [= <- <-]. congruence. }
  destruct dryRun; [intros [= <- <-]; congruence|].
  apply guard_spec in Eg as [_ Hcov]; [|done..].
  destruct (revoke _ _ _ w1) as [w2 r2] eqn:Er. intros [= <- _] Hg Hng se Hse.
  destruct (revoke_only_listed _ _ _ _ _ _ Hro Er Hg) as [Hk|Hk]; [|congruence].
  apply Hcov; [done|]. destruct (moved_ok _ _ (st_moved _ _ Hs1) Hwf) as (_ & Hp & _). by eapply elem_of_prefix.
Qed.

Lemma run_destroys fuel dryRun w w' r t' k :
  revokes_only → el_wf (adapter w) → rm_allowSharedKey m = false →
  run envs others c scannable m fuel dryRun w = (w', r) →
  rv_gone t' k (provider w') → ¬ rv_gone t' k (provider w) →
  ∀ se, se ∈ logged w → ofKey k se → coveredByShred se inForce (sweepTime w') = true.
Proof using clock appends sweep_clock revoke_gone CheckpointLaws0.
  intros Hro Hwf Ha E Hg Hng se Hse Hof.
  apply run_inv in E as [[_ Hq]|(report & maxScan & start & w0 & w1 & sp & Hq & Hr & Hk & _ & _ & Es & E)]; [congruence|].
  pose proof (sweepLog_noKeys _ _ _ _ _ _ _ _ _ _ (conj Hr Hk : noKeys (sp_report (mkSweep report newShredCandidates start false start))) Es) as [Hn1 Hn2].
  apply sweepLog_quiet in Es. assert (quiet w w1) as [Hs1 Hp1].
  { etransitivity; [exact Hq|]. etransitivity; [apply quiet_step|done]. }
  destruct (moved_ok _ _ (st_moved _ _ Hs1) Hwf) as (Hwf1 & Hpre & _).
  revert E. unfold conclude. set (report1 := if 0 <? _ then _ else _).
  assert (noKeys report1) as [Hr1 Hk1] by (unfold report1; by destruct (0 <? _); split).
  destruct (decideKeys _ _ _ _ _ _ _ _ _ _ w1) as [w2 x] eqn:Ed. intros E.
  assert (moved envs w2 w' ∧ provider w' = provider w2) as [Hm2 Hp2].
  { destruct x as [[report' f]|err]; [|by injection E as <- _]. destruct (rm_checkpoint m) as [name|]; [|by injection E as <- _].
    destruct (_ && _); [|by injection E as <- _]. destruct (withCheckpoints _ _ w2) as [w3 y] eqn:Ew.
    assert (w3 = w') as -> by (by destruct y; injection E). apply setCheckpoint_spec in Ew. tauto. }
  pose proof Ed as Ed'. apply decideKeys_spec in Ed' as [Hs2 _]; [|done].
  eapply (coveredByShred_later _ _ (sweepTime w0)).
  - etransitivity; [apply (sweep_clock _ (sw_calls (step w0))); cbn; lia|]. apply sweep_clock.
    etransitivity; [apply Es|]. etransitivity; [apply Hs2|apply Hm2].
  - eapply decideKeys_only; [exact Hro|exact Hwf1|done|exact Hk1|exact Ed|by rewrite <- Hp2|by rewrite Hp1| |exact Hof].
    by eapply elem_of_prefix.
Qed.
End Safety.
