(* ===== verification/RetentionTheorems.v ===== *)
(** * Retention: the properties

    What lies behind the checkpoint, whatever the order of the runs, and which
    keys a run destroys. *)

From S2P Require Import Prelude.
From S2P Require Import Types.
From S2P Require Import Common.
From S2P Require Import Crypto.
From S2P Require Import LocalProvider.
From S2P Require Import Subject.
From S2P Require Import FieldEncryption.
From S2P Require Import Revocation.
From S2P Require Import MemoryAdapter.
From S2P Require Import MemoryAdmin.
From S2P Require Import MemoryTheorems.
From S2P Require Import EventLog.
From S2P Require Import EventStore.
From S2P Require Import StoreTheorems.
From S2P Require Import AuditMiddleware.
From S2P Require Import CheckpointStore.
From S2P Require Import Projection.
From S2P Require Import ProjectionCoverage.
From S2P Require Import SubjectResolver.
From S2P Require Import ErasureFrames.
From S2P Require Import ErasureSafety.
From S2P Require Import ErasureProperties.
From S2P Require Import Retention.
From S2P Require Import RetentionSafety.

(** ** The local provider *)

Lemma localRevoke_only `{AEAD} : revokes_only (P := Provider).
Proof.
  intros t k k' p Hne. cbn. unfold RevokeKey. destruct (lp_closed p) eqn:Ec; [done|]. destruct (isHard k p); [done|].
  destruct (lp_keys p !! k); [|done]. unfold dead, isHard. cbn. rewrite lookup_insert_ne, lookup_delete_ne by done.
  by rewrite Ec.
Qed.

(** ** Any order of the runs *)

Section Properties.
Context {V Ser A P X K R : Type} `{AEAD} `{ProviderOps P} `{!RevocableOps P} `{!RevocableLaws P} `{EventLogOps A}
  `{!EventLogLaws A} `{CheckpointOps K} `{!CheckpointLaws K} `{MapOrder}.
Context (envs : nat → Env) (others : nat → A → A) (c : EventStore) (scannable : bool) (m : RetentionManager R).
Local Abbreviation World := (SubjectWorld A P Ser X (Outside K R)).
Implicit Types w : World.

(** A run, whatever it returns, or what the application does between two. *)
Inductive retention_step w w' : Prop :=
| rs_apply fuel r (E : Apply envs others c scannable m fuel w = (w', r))
| rs_dryRun fuel r (E : DryRun envs others c scannable m fuel w = (w', r))
| rs_other (E : still envs w w').

(** Revoking a key is permanent, and the clock of the sweeps does not go back. *)
Definition revocation_permanent : Prop := ∀ t k (p p' : P), Revoke k p = (p', Ok tt) → rv_gone t k p'.
Definition monotone_sweep_clock : Prop := ∀ i j, (i ≤ j)%nat → rm_now m (envs i) ≤ rm_now m (envs j).

(** C9: after any sequence of [Apply] and [DryRun], failed ones included, and
    of appends by others, every event at or below the persisted checkpoint is
    settled for every policy in force that matches it: it is old enough, its
    key is destroyed if the policy shreds it, and the policy's hook was called
    on it if it has one.  No later sweep needs to see it again. *)
Theorem retention_checkpoint_settled name w w' :
  monotone_clock envs → monotone_sweep_clock → appends_only others → revocation_permanent →
  rm_checkpoint m = Some name → el_wf (adapter w) → checkpointOf name w = 0 →
  rtc retention_step w w' →
  ∀ se, se ∈ logged w' → se_GlobalPosition se ≤ checkpointOf name w' → settled envs m w' se.
Proof.
  intros clock sclock appends perm Hm Hwf Hfresh Hsteps.
  assert (resumable envs m name w → resumable envs m name w') as Hpres.
  { clear Hwf Hfresh. induction Hsteps as [|w1 w2 w3 Hstep _ IH]; [done|]. intros Hr. apply IH. destruct Hstep as [fuel r E|fuel r E|E].
    - by eapply Apply_resumable.
    - eapply resumable_still; [done..| |exact Hr]. by eapply DryRun_quiet.
    - by eapply resumable_still. }
  destruct Hpres as [_ [_ Hall]]; [|exact Hall]. split; [done|]. rewrite Hfresh.
  assert (log_ok (logged w)) as Hok by exact (log_ok_wf (sw_store w) Hwf).
  split; [by apply headOf_nonneg|]. intros e He Hle. destruct Hok as [_ Hpos]. specialize (Hpos e He). lia.
Qed.

(** C10: with the shared-key guard on, a run destroys a key only when every
    event sealed under it that was in the log before the run is in scope of a
    Shred policy in force, matched and old enough: no event out of scope
    becomes unreadable, whatever the checkpoint skipped and however the run
    ends. *)
Theorem retention_spares_out_of_scope fuel w w' r t k se :
  monotone_clock envs → monotone_sweep_clock → appends_only others → revocation_permanent → revokes_only (P := P) →
  rm_allowSharedKey m = false → el_wf (adapter w) →
  Apply envs others c scannable m fuel w = (w', r) →
  rv_gone t k (provider w') → ¬ rv_gone t k (provider w) →
  se ∈ logged w → HasEncryptionEnvelope (se_Metadata se) = true → GetEncryptionKeyID (se_Metadata se) = k →
  coveredByShred se (inForce m) (sweepTime envs m w') = true.
Proof. intros clock sclock appends perm only Hm Hwf E Hg Hng Hse He Hk. by eapply run_destroys. Qed.
End Properties.

Lemma localRevoke_gone `{AEAD} : revocation_permanent (P := Provider).
Proof. intros t k p p'. apply RevokeKey_dead. Qed.

(** ** A concrete manager

    The events of the erasure example: the first sealed under the key of
    tenant-a, the two others under that of tenant-b.  tenant-a's are shredded at
    once, tenant-b's in a long time, and every registration is anonymized, by a
    hook that fails on the second stream. *)

#[local] Existing Instances toyAEAD toyAEAD_laws listOrder sampleSerializer sampleSerializer_laws sampleLog sampleLog_laws.

Definition shredTenant (name tenant : string) (age : Duration) : RetentionPolicy (list string) :=
  mkRetentionPolicy name "" "" [] tenant age ActionShred [] None.

Definition anonymize : RetentionPolicy (list string) :=
  mkRetentionPolicy "anonymize" "User" "" ["UserRegistered"] "" 0 ActionAnonymize ["email"]
    (Some (λ _ se r, if bool_decide (se_StreamID se = "User-8") then (r, Some (Errorf "read model down"))
                     else (String.append (se_StreamID se) " anonymized" :: r, None))).

Definition sampleManager (age : Duration) : RetentionManager (list string) :=
  NewRetentionManager [shredTenant "closed" "tenant-a" 0; shredTenant "active" "tenant-b" age; anonymize]
    [WithRetentionBatchSize 2; WithRetentionCheckpoint true "__mink_retention__"].

Definition retentionWorld
    : SubjectWorld MemoryAdapter Provider (list string) (list (string * list string)) (Outside CheckpointStore (list string)) :=
  mkSubjectWorld erasureStore (mkOutside NewCheckpointStore [] []) 0.

Definition applied age := Apply calmEnvs noWriters erasureConfig true (sampleManager age) 5 retentionWorld.

Lemma sampleManager_clock age : monotone_sweep_clock calmEnvs (sampleManager age).
Proof. intros i j _. apply Z.le_refl. Qed.

(** Waiting: the frontier stops before tenant-b's first event. *)
Example applied_runs :
  lp_revoked (provider (applied 1000000).1) = {["tenant-a" := true]} ∧ checkpointOf "__mink_retention__" (applied 1000000).1 = 1 ∧
  (λ r, (rr_Scanned r, rr_Matched r, rr_Acted r, rr_KeysRevoked r)) <$> (match (applied 1000000).2 with Ok r => Some r | _ => None end) =
    Some (3, 4, 3, ["tenant-a"]).
Proof. vm_compute. done. Qed.

Lemma applied_logged : logged (applied 1000000).1 = logged erasureWorld.
Proof. vm_compute. reflexivity. Qed.

(** The first event is shredded and anonymized. *)
Lemma retention_checkpoint_settled_witness :
  checkpointOf "__mink_retention__" (applied 1000000).1 = 1 ∧
  settled calmEnvs (sampleManager 1000000) (applied 1000000).1 firstLogged.
Proof.
  split; [vm_compute; reflexivity|].
  apply (retention_checkpoint_settled calmEnvs noWriters erasureConfig true (sampleManager 1000000) "__mink_retention__"
    retentionWorld (applied 1000000).1 calm_clock (sampleManager_clock _) noWriters_append localRevoke_gone
    eq_refl erasureStore_wf).
  - vm_compute. reflexivity.
  - eapply rtc_l; [|apply rtc_refl]. apply (rs_apply _ _ _ _ _ _ _ 5 (applied 1000000).2). apply surjective_pairing.
  - rewrite applied_logged. exact firstLogged_in.
  - vm_compute. discriminate.
Defined.

Lemma retention_spares_out_of_scope_witness :
  GetEncryptionKeyID (se_Metadata firstLogged) = "tenant-a" ∧
  coveredByShred firstLogged (inForce (sampleManager 1000000)) (sweepTime calmEnvs (sampleManager 1000000) (applied 1000000).1) = true.
Proof.
  split; [vm_compute; reflexivity|].
  apply (retention_spares_out_of_scope calmEnvs noWriters erasureConfig true (sampleManager 1000000) 5 retentionWorld
    (applied 1000000).1 (applied 1000000).2 0 "tenant-a" firstLogged calm_clock (sampleManager_clock _) noWriters_append
    localRevoke_gone localRevoke_only eq_refl erasureStore_wf (surjective_pairing _)).
  - right; left. vm_compute. reflexivity.
  - intros [Hd|[Hd|(e & Hd & _)]]; vm_compute in Hd; discriminate.
  - exact firstLogged_in.
  - vm_compute. reflexivity.
  - vm_compute. reflexivity.
Defined.

(** A hook that failed is called once: its event is behind the checkpoint, and
    the next run does not see it. *)
Definition reapplied := Apply calmEnvs noWriters erasureConfig true (sampleManager 0) 5 (applied 0).1.

Example failed_hook_not_retried :
  (λ r, rr_Errors r) <$> (match (applied 0).2 with Ok r => Some r | _ => None end) =
    Some [Wrapf "policy %q apply: %w" (Errorf "read model down")] ∧
  checkpointOf "__mink_retention__" (applied 0).1 = 3 ∧
  length (ou_hooked (sw_out reapplied.1)) = length (ou_hooked (sw_out (applied 0).1)) ∧
  (λ r, (rr_Scanned r, length (rr_Errors r))) <$> (match reapplied.2 with Ok r => Some r | _ => None end) = Some (0, 0%nat).
Proof. vm_compute. done. Qed.
