(* ===== verification/Export.v ===== *)
(** * Data export

    [src/export.go]: collecting the events of a data subject from the streams
    of a request, from its resolved footprint, or from a scan of the log, and
    decrypting what can still be decrypted.  Every step acts on the world of
    the resolver; other writers append to the log before each read. *)

From S2P Require Import Prelude.
From S2P Require Import Types.
From S2P Require Import Common.
From S2P Require Import Crypto.
From S2P Require Import Subject.
From S2P Require Import FieldEncryption.
From S2P Require Import Revocation.
From S2P Require Import Versioning.
From S2P Require Import EventLog.
From S2P Require Import EventStore.
From S2P Require Import SubjectResolver.
From S2P Require Import Retention.

Record DataExporter (O : Type) := mkDataExporter {
  de_batchSize : Z;
  de_resolver : option (SubjectResolver O);
}.
Arguments mkDataExporter {O} _ _.
Arguments de_batchSize {O} _.
Arguments de_resolver {O} _.

Definition NewDataExporter {O} : DataExporter O := mkDataExporter 1000 None.
Definition WithExportBatchSize {O} (size : Z) (e : DataExporter O) : DataExporter O :=
  if 0 <? size then mkDataExporter size (de_resolver e) else e.
Definition WithExportSubjectResolver {O} (r : option (SubjectResolver O)) (e : DataExporter O) : DataExporter O :=
  mkDataExporter (de_batchSize e) r.

(** The resolver's; [None] is the store's own. *)
Definition exportTagger {O} (e : DataExporter O) : option SubjectTagger :=
  match de_resolver e with Some r => sr_tagger r | None => None end.

(** ** Exported events *)

Record ExportedMetadata := mkExportedMetadata {
  xm_CorrelationID : string;
  xm_CausationID : string;
  xm_TenantID : string;
  xm_SchemaVersion : Z;
}.

Definition newExportedMetadata (m : Metadata) : ExportedMetadata :=
  mkExportedMetadata (md_CorrelationID m) (md_CausationID m) (md_TenantID m) (GetSchemaVersion m).

(** [x_Data] is nil when it is [None]. *)
Record ExportedEvent (V : Type) := mkExportedEvent {
  x_StreamID : string;
  x_EventType : string;
  x_Data : option V;
  x_RawData : Bytes;
  x_Metadata : ExportedMetadata;
  x_Version : Z;
  x_GlobalPosition : Z;
  x_Timestamp : Time;
  x_Redacted : bool;
}.
Arguments mkExportedEvent {V} _ _ _ _ _ _ _ _ _.
Arguments x_StreamID {V} _.
Arguments x_EventType {V} _.
Arguments x_Data {V} _.
Arguments x_RawData {V} _.
Arguments x_Metadata {V} _.
Arguments x_Version {V} _.
Arguments x_GlobalPosition {V} _.
Arguments x_Timestamp {V} _.
Arguments x_Redacted {V} _.

Definition exportedAs {V} (se : StoredEvent) (data : option V) (raw : Bytes) (redacted : bool) : ExportedEvent V :=
  mkExportedEvent (se_StreamID se) (se_Type se) data raw (newExportedMetadata (se_Metadata se)) (se_Version se)
    (se_GlobalPosition se) (se_Timestamp se) redacted.

(** An event whose fields could not be decrypted keeps its stored bytes. *)
Definition redact {V} (se : StoredEvent) : ExportedEvent V := exportedAs se None (se_Data se) true.

Record ExportResult (V : Type) := mkExportResult {
  xr_SubjectID : string;
  xr_Events : list (ExportedEvent V);
  xr_Streams : list string;
  xr_TotalEvents : Z;
  xr_RedactedCount : Z;
  xr_ExportedAt : Time;
  xr_Partial : bool;
}.
Arguments mkExportResult {V} _ _ _ _ _ _ _.
Arguments xr_SubjectID {V} _.
Arguments xr_Events {V} _.
Arguments xr_Streams {V} _.
Arguments xr_TotalEvents {V} _.
Arguments xr_RedactedCount {V} _.
Arguments xr_ExportedAt {V} _.
Arguments xr_Partial {V} _.

(** What the handler of [Export] gathers. *)
Record gathered (V : Type) := mkGathered {
  ga_Events : list (ExportedEvent V);
  ga_streamSet : nameSet;
  ga_TotalEvents : Z;
  ga_RedactedCount : Z;
}.
Arguments mkGathered {V} _ _ _ _.
Arguments ga_Events {V} _.
Arguments ga_streamSet {V} _.
Arguments ga_TotalEvents {V} _.
Arguments ga_RedactedCount {V} _.

Definition gather {V} (event : ExportedEvent V) (g : gathered V) : gathered V :=
  mkGathered (ga_Events g ++ [event]) (<[x_StreamID event := tt]> (ga_streamSet g)) (i64 (ga_TotalEvents g + 1))
    (if x_Redacted event then i64 (ga_RedactedCount g + 1) else ga_RedactedCount g).

(** ** Filters

    A filter is a function of the application, or attributes the event, which
    may decrypt it; it may use the world. *)
Definition ExportFilter (A P Ser X O : Type) : Type :=
  StoredEvent → SubjectWorld A P Ser X O → SubjectWorld A P Ser X O * bool.

Record ExportRequest (A P Ser X O : Type) := mkExportRequest {
  xq_SubjectID : string;
  xq_Streams : list string;
  xq_Filter : option (ExportFilter A P Ser X O);
  xq_FromTime : option Time;
  xq_ToTime : option Time;
}.
Arguments mkExportRequest {A P Ser X O} _ _ _ _ _.
Arguments xq_SubjectID {A P Ser X O} _.
Arguments xq_Streams {A P Ser X O} _.
Arguments xq_Filter {A P Ser X O} _.
Arguments xq_FromTime {A P Ser X O} _.
Arguments xq_ToTime {A P Ser X O} _.

Section Filters.
Context {A P Ser X O : Type}.
Abbreviation Filter := (ExportFilter A P Ser X O).

(** A filter that only looks at the event. *)
Definition filterFunc (f : StoredEvent → bool) : Filter := λ se w, (w, f se).

Definition matchNothing : Filter := filterFunc (λ _, false).

Definition FilterByTenantID (tenantID : string) : Filter :=
  if bool_decide (tenantID = "") then matchNothing
  else filterFunc (λ event, bool_decide (md_TenantID (se_Metadata event) = tenantID)).

Definition FilterByUserID (userID : string) : Filter :=
  if bool_decide (userID = "") then matchNothing
  else filterFunc (λ event, bool_decide (md_UserID (se_Metadata event) = userID)).

Definition FilterByStreamPrefix (prefix : string) : Filter :=
  if bool_decide (prefix = "") then matchNothing else filterFunc (λ event, String.prefix prefix (se_StreamID event)).

Definition FilterByStreams (ids : list string) : Filter :=
  let set : gset string := foldl (λ set id, if bool_decide (id = "") then set else {[ id ]} ∪ set) ∅ ids in
  if bool_decide (set = ∅) then matchNothing else filterFunc (λ event, bool_decide (se_StreamID event ∈ set)).

Definition FilterByStreamCategory (category : string) : Filter :=
  if bool_decide (category = "") then matchNothing
  else filterFunc (λ event, bool_decide (streamCategory (se_StreamID event) = category)).

Definition FilterByMetadata (key value : string) : Filter :=
  if bool_decide (key = "") || bool_decide (value = "") then matchNothing
  else
    filterFunc (λ event,
      match md_Custom (se_Metadata event) with
      | None => false
      | Some custom => bool_decide (default "" (custom !! key) = value)
      end).

Definition FilterByEventTypes (types : list string) : Filter :=
  let typeSet : gset string := foldl (λ set t, {[ t ]} ∪ set) ∅ types in
  filterFunc (λ event, bool_decide (se_Type event ∈ typeSet)).

Definition SubjectOrUntaggedFilter (subjectID : string) : Filter :=
  if bool_decide (subjectID = "") then matchNothing
  else
    filterFunc (λ event,
      let tags := GetSubjectTags (se_Metadata event) in
      bool_decide (length tags = 0%nat) || existsb (λ x, bool_decide (x = subjectID)) tags).

(** A nil filter is [None]. *)
Fixpoint passesAll (filters : list (option Filter)) : Filter := λ event w,
  match filters with
  | [] => (w, true)
  | None :: _ => (w, false)
  | Some f :: filters =>
      match f event w with
      | (w, false) => (w, false)
      | (w, true) => passesAll filters event w
      end
  end.

Definition CombineFilters (filters : list (option Filter)) : Filter :=
  if bool_decide (length filters = 0%nat) then matchNothing else passesAll filters.

Definition validateRequest (req : ExportRequest A P Ser X O) : option error :=
  if bool_decide (xq_SubjectID req = "") then Some ErrSubjectIDRequired
  else
    match xq_Streams req, xq_Filter req with
    | [], None => Some ErrNoExportSources
    | _, _ => None
    end.

(** [req.Streams = ...] and [req.Filter = ...] *)
Definition withStreams (streams : list string) (req : ExportRequest A P Ser X O) : ExportRequest A P Ser X O :=
  mkExportRequest (xq_SubjectID req) streams (xq_Filter req) (xq_FromTime req) (xq_ToTime req).
Definition withFilter (f : Filter) (req : ExportRequest A P Ser X O) : ExportRequest A P Ser X O :=
  mkExportRequest (xq_SubjectID req) (xq_Streams req) (Some f) (xq_FromTime req) (xq_ToTime req).
End Filters.

(** ** The export *)

Section Exporting.
Context {V Ser A P X O : Type} `{AEAD} `{ProviderOps P} `{!RevocableOps P} `{EventLogOps A} `{SerializerOps V Ser}
  `{MapOrder}.
Context (envs : nat → Env) (others : nat → A → A) (c : EventStore) (scannable : bool) (e : DataExporter O).
(** [json.Marshal] of an event: [None] when it fails. *)
Context (marshalEvent : V → option Bytes).
Implicit Types w : SubjectWorld A P Ser X O.
Implicit Types req : ExportRequest A P Ser X O.

Definition attributedToFilter (subjectID : string) : ExportFilter A P Ser X O := λ se w,
  let '(w, at') := attribute envs c (exportTagger e) se w in (w, attributedTo at' subjectID).

Definition subjectOrUnattributableFilter (subjectID : string) : ExportFilter A P Ser X O := λ se w,
  let '(w, at') := attribute envs c (exportTagger e) se w in
  (w, negb (attributed at') || attributedTo at' subjectID).

Definition matchesRequest (se : StoredEvent) req w : SubjectWorld A P Ser X O * bool :=
  if match xq_FromTime req with Some t => se_Timestamp se <? t | None => false end then (w, false)
  else if match xq_ToTime req with Some t => t <? se_Timestamp se | None => false end then (w, false)
  else match xq_Filter req with Some f => f se w | None => (w, true) end.

(** Whether the event's key is revoked, asked at most once per key. *)
Definition underRevokedKey (se : StoredEvent) (revokedCache : gmap string bool) w
    : SubjectWorld A P Ser X O * (gmap string bool * bool) :=
  match es_encryption c with
  | None => (w, (revokedCache, false))
  | Some enc =>
      if negb (IsEncrypted (se_Metadata se)) then (w, (revokedCache, false))
      else
        let keyID := GetEncryptionKeyID (se_Metadata se) in
        match revokedCache !! keyID with
        | Some revoked => (w, (revokedCache, revoked))
        | None =>
            match withProvider envs (λ env, cfgIsRevoked enc (time_Now env 0) keyID) w with
            | (w, Ok revoked) => (w, (<[keyID := revoked]> revokedCache, revoked))
            | (w, Err _) => (w, (revokedCache, false))
            end
        end
  end.

Definition ProcessStoredEvent (se : StoredEvent) w : SubjectWorld A P Ser X O * res (Event V) :=
  let st := sw_store w in
  withProvider envs (λ env, deserializeWithUpcast c (time_Now env 0) (st_upcasters st) (st_serializer st) se) w.

Definition redactable (err : error) : bool :=
  errors_Is err ErrKeyRevoked || errors_Is err ErrKeyNotFound || errors_Is err ErrDecryptionFailed.

Definition processStoredEvent (se : StoredEvent) (revokedCache : gmap string bool) w
    : SubjectWorld A P Ser X O * (gmap string bool * res (ExportedEvent V)) :=
  let '(w, (revokedCache, revoked)) := underRevokedKey se revokedCache w in
  if revoked then (w, (revokedCache, Ok (redact se)))
  else
    match ProcessStoredEvent se w with
    | (w, Err err) =>
        (w, (revokedCache,
             if redactable err then Ok (redact se)
             else Err (ExportError "" (Wrapf "failed to process event at position %d in stream %q: %w" err))))
    | (w, Ok event) => (w, (revokedCache, Ok (exportedAs se (Some (ev_Data event)) (default None (marshalEvent (ev_Data event))) false)))
    end.

(** *** The loops

    [T] is what the handler accumulates. *)
Context {T : Type} (handler : ExportedEvent V → T → SubjectWorld A P Ser X O → SubjectWorld A P Ser X O * res T).

Fixpoint exportEvents req (stored : list StoredEvent) (revokedCache : gmap string bool) (acc : T) w
    : SubjectWorld A P Ser X O * res (gmap string bool * T) :=
  match stored with
  | [] => (w, Ok (revokedCache, acc))
  | se :: stored =>
      match ctx_Err (here envs w) with
      | Some err => (step w, Err err)
      | None =>
          match matchesRequest se req (step w) with
          | (w, false) => exportEvents req stored revokedCache acc w
          | (w, true) =>
              match processStoredEvent se revokedCache w with
              | (w, (_, Err err)) => (w, Err err)
              | (w, (revokedCache, Ok exported)) =>
                  match handler exported acc w with
                  | (w, Err err) => (w, Err err)
                  | (w, Ok acc) => exportEvents req stored revokedCache acc w
                  end
              end
          end
      end
  end.

Fixpoint exportFromStreams req (streams : list string) (revokedCache : gmap string bool) (acc : T) w
    : SubjectWorld A P Ser X O * res T :=
  match streams with
  | [] => (w, Ok acc)
  | streamID :: streams =>
      match ctx_Err (here envs w) with
      | Some err => (step w, Err err)
      | None =>
          match readLog envs others (λ env, LoadRaw env streamID 0) (step w) with
          | (w, Err err) =>
              if errors_Is err ErrStreamNotFound then exportFromStreams req streams revokedCache acc w
              else (w, Err (ExportError (xq_SubjectID req) (Wrapf "failed to load stream %q: %w" err)))
          | (w, Ok stored) =>
              match exportEvents req stored revokedCache acc w with
              | (w, Err err) => (w, Err err)
              | (w, Ok (revokedCache, acc)) => exportFromStreams req streams revokedCache acc w
              end
          end
      end
  end.

Definition exportFromScan (fuel : nat) req (revokedCache : gmap string bool) (acc : T) w
    : SubjectWorld A P Ser X O * res T :=
  if negb scannable then (w, Err ErrExportScanNotSupported)
  else
    match scanLoop envs others (λ err, ExportError (xq_SubjectID req) (Wrapf "failed to scan events from position %d: %w" err))
            (de_batchSize e) (λ batch '(revokedCache, acc) w, exportEvents req batch revokedCache acc w) fuel 0
            (revokedCache, acc) w with
    | (w, Err err) => (w, Err err)
    | (w, Ok (_, acc)) => (w, Ok acc)
    end.

Definition processEvents (fuel : nat) req (acc : T) w : SubjectWorld A P Ser X O * res T :=
  match xq_Streams req with
  | [] => exportFromScan fuel req ∅ acc w
  | streams =>
      let req :=
        match xq_Filter req with
        | Some _ => req
        | None => withFilter (subjectOrUnattributableFilter (xq_SubjectID req)) req
        end in
      exportFromStreams req streams ∅ acc w
  end.
End Exporting.

Section Operations.
Context {V Ser A P X O : Type} `{AEAD} `{ProviderOps P} `{!RevocableOps P} `{EventLogOps A} `{SerializerOps V Ser}
  `{MapOrder}.
Context (envs : nat → Env) (others : nat → A → A) (c : EventStore) (scannable : bool) (e : DataExporter O).
Context (marshalEvent : V → option Bytes).
Implicit Types w : SubjectWorld A P Ser X O.
Implicit Types req : ExportRequest A P Ser X O.

(** The resolver of a request that names neither streams nor a filter. *)
Definition requestResolver req : option (SubjectResolver O) :=
  match xq_Streams req, xq_Filter req with [], None => de_resolver e | _, _ => None end.

Definition collect (event : ExportedEvent V) (g : gathered V) w : SubjectWorld A P Ser X O * res (gathered V) :=
  (w, Ok (gather event g)).

(** The part of [Export] after the sources are known. *)
Definition exportCollected (fuel : nat) req (partial : bool) w : SubjectWorld A P Ser X O * res (ExportResult V) :=
  let exportedAt := time_Now (here envs w) 0 in
  match processEvents envs others c scannable e marshalEvent collect fuel req (mkGathered [] ∅ 0 0) (step w) with
  | (w, Err err) => (w, Err err)
  | (w, Ok g) =>
      (w, Ok (mkExportResult (xq_SubjectID req) (ga_Events g) (range (ga_streamSet g)).*1 (ga_TotalEvents g)
                (ga_RedactedCount g) exportedAt partial))
  end.

Definition Export (fuel : nat) req w : SubjectWorld A P Ser X O * res (ExportResult V) :=
  if bool_decide (xq_SubjectID req = "") then (w, Err ErrSubjectIDRequired)
  else
    match requestResolver req with
    | Some resolver =>
        match Resolve envs others c scannable fuel resolver (xq_SubjectID req) w with
        | (w, Err err) => (w, Err (ExportError (xq_SubjectID req) err))
        | (w, Ok fp) =>
            match fp_Streams fp with
            | [] =>
                (step w, Ok (mkExportResult (xq_SubjectID req) [] [] 0 0 (time_Now (here envs w) 0) (fp_Partial fp)))
            | streams =>
                exportCollected fuel (withFilter (attributedToFilter envs c e (xq_SubjectID req)) (withStreams streams req))
                  (fp_Partial fp) w
            end
        end
    | None =>
        match validateRequest req with
        | Some err => (w, Err err)
        | None => exportCollected fuel req false w
        end
    end.

(** The handler of a streaming export acts on the application. *)
Context (handler : Env → ExportedEvent V → op O error unit).

Definition hand (event : ExportedEvent V) (_ : unit) w : SubjectWorld A P Ser X O * res unit :=
  withOut envs (λ env, handler env event) w.

(** The nil handler is refused before; here it is given. *)
Definition ExportStream (fuel : nat) req w : SubjectWorld A P Ser X O * res unit :=
  if bool_decide (xq_SubjectID req = "") then (w, Err ErrSubjectIDRequired)
  else
    match requestResolver req with
    | Some resolver =>
        match Resolve envs others c scannable fuel resolver (xq_SubjectID req) w with
        | (w, Err err) => (w, Err (ExportError (xq_SubjectID req) err))
        | (w, Ok fp) =>
            if fp_Partial fp then (w, Err (ExportError (xq_SubjectID req) ErrExportPartialFootprint))
            else
              match fp_Streams fp with
              | [] => (w, Ok tt)
              | streams =>
                  processEvents envs others c scannable e marshalEvent hand fuel
                    (withFilter (attributedToFilter envs c e (xq_SubjectID req)) (withStreams streams req)) tt w
              end
        end
    | None =>
        match validateRequest req with
        | Some err => (w, Err err)
        | None => processEvents envs others c scannable e marshalEvent hand fuel req tt w
        end
    end.
End Operations.
