(* ===== verification/ExportTheorems.v ===== *)
(** * What an export delivers

    Other writers append while it runs, and keys may be revoked; whatever they
    do, an export hands over the events of its streams in order, each one
    either left out, redacted or read, and never one that is somebody else's. *)

From S2P Require Import Prelude.
From S2P Require Import Types.
From S2P Require Import Common.
From S2P Require Import Crypto.
From S2P Require Import LocalProvider.
From S2P Require Import Subject.
From S2P Require Import FieldEncryption.
From S2P Require Import FieldTheorems.
From S2P Require Import Revocation.
From S2P Require Import MemoryAdapter.
From S2P Require Import LogInvariant.
From S2P Require Import MemoryTheorems.
From S2P Require Import MemoryAdmin.
From S2P Require Import EventLog.
From S2P Require Import EventStore.
From S2P Require Import StoreRefinement.
From S2P Require Import StoreTheorems.
From S2P Require Import SubjectResolver.
From S2P Require Import ErasureFrames.
From S2P Require Import ErasureSafety.
From S2P Require Import ErasureProperties.
From S2P Require Import Export.

(** ** Selections *)

(** The exported form of a list of events: each one is kept and described, or
    dropped. *)
Inductive exports {B C} (kept dropped : B → Prop) (described : B → C → Prop) : list B → list C → Prop :=
| exports_nil : exports kept dropped described [] []
| exports_drop se l xs : dropped se → exports kept dropped described l xs → exports kept dropped described (se :: l) xs
| exports_keep se x l xs :
    kept se → described se x → exports kept dropped described l xs → exports kept dropped described (se :: l) (x :: xs).

Section Exports.
Context {B C : Type} {K D : B → Prop} {R : B → C → Prop}.

Lemma exports_app l xs l' xs' : exports K D R l xs → exports K D R l' xs' → exports K D R (l ++ l') (xs ++ xs').
Proof. induction 1; cbn; auto using exports. Qed.

Lemma exports_impl (K' D' : B → Prop) (R' : B → C → Prop) l xs :
  (∀ b, K b → K' b) → (∀ b, D b → D' b) → (∀ b x, R b x → R' b x) → exports K D R l xs → exports K' D' R' l xs.
Proof. intros HK HD HR. induction 1; eauto using exports. Qed.

Lemma exports_sources l xs x : exports K D R l xs → x ∈ xs → ∃ b, b ∈ l ∧ K b ∧ R b x.
Proof.
  induction 1 as [|b l xs _ _ IH|b y l xs Hk Hr _ IH]; [by intros ?%not_elem_of_nil| |].
  - intros Hx. destruct (IH Hx) as (b' & ? & ?). exists b'. split; [by right|done].
  - intros [->|Hx]%elem_of_cons; [exists b; split; [by left|done]|].
    destruct (IH Hx) as (b' & ? & ?). exists b'. split; [by right|done].
Qed.

Lemma exports_covers l xs b : exports K D R l xs → b ∈ l → D b ∨ ∃ x, x ∈ xs ∧ R b x.
Proof.
  induction 1 as [|b' l xs Hd _ IH|b' y l xs Hk Hr _ IH]; [by intros ?%not_elem_of_nil| |];
    intros [->|Hb]%elem_of_cons; [by left|by apply IH|right; exists y; split; [by left|done]|].
  destruct (IH Hb) as [?|(x & ? & ?)]; [by left|]. right. exists x. split; [by right|done].
Qed.

Lemma exports_sublist {Q} (f : B → Q) (g : C → Q) l xs :
  (∀ b x, R b x → g x = f b) → exports K D R l xs → g <$> xs `sublist_of` f <$> l.
Proof. intros Hf. induction 1; cbn; [constructor|by constructor|]. rewrite (Hf se) by done. by constructor. Qed.
End Exports.

Lemma stream_prefix sid l l' : l `prefix_of` l' → LogSpec.stream sid l `prefix_of` LogSpec.stream sid l'.
Proof. intros [k ->]. unfold LogSpec.stream. rewrite filter_app. by apply prefix_app_r. Qed.

(** Keys that increase along a list name its elements. *)
Lemma increasing_inj {B} (key : B → Z) l x y :
  strictly_increasing key l → x ∈ l → y ∈ l → key x = key y → x = y.
Proof.
  intros Hinc [i Hi]%list_elem_of_lookup [j Hj]%list_elem_of_lookup E.
  destruct (lt_eq_lt_dec i j) as [[Hlt| ->]|Hlt]; [| by simplify_eq |].
  - pose proof (Hinc _ _ _ _ Hi Hj Hlt). lia.
  - pose proof (Hinc _ _ _ _ Hj Hi Hlt). lia.
Qed.

Lemma increasing_NoDup {B} (key : B → Z) l : strictly_increasing key l → NoDup (key <$> l).
Proof.
  induction l as [|x l IH]; [constructor|]. intros [Hl Hx]%strictly_increasing_cons. cbn. constructor; [|auto].
  intros (y & E & Hy)%list_elem_of_fmap. specialize (Hx y Hy). lia.
Qed.

(** ** One event *)

Section Exporting.
Context {V Ser A P X O : Type} `{AEAD} `{ProviderOps P} `{!RevocableOps P} `{!RevocableLaws P} `{EventLogOps A}
  `{!EventLogLaws A} `{SerializerOps V Ser} `{MapOrder}.
Context (envs : nat → Env) (others : nat → A → A) (clock : monotone_clock envs) (appends : appends_only others)
  (live : ∀ n, ctx_law (envs n)).
Context (c : EventStore) (scannable : bool) (e : DataExporter O) (marshalEvent : V → option Bytes).
Implicit Types w v : SubjectWorld A P Ser X O.

(** The provider is only read, and the serializer and the upcasters stay; the
    application's state too when it is [quiet]. *)
Definition steady w w' : Prop :=
  moved envs w w' ∧ read envs w w' ∧ st_serializer (sw_store w') = st_serializer (sw_store w) ∧
  st_upcasters (sw_store w') = st_upcasters (sw_store w).
Definition quiet w w' : Prop := steady w w' ∧ sw_out w' = sw_out w.

#[local] Instance moved_order : PreOrder (moved (Ser := Ser) (A := A) (P := P) (X := X) (O := O) envs) := moved_preorder envs clock.
#[local] Instance read_order : PreOrder (read (Ser := Ser) (A := A) (P := P) (X := X) (O := O) envs) := read_preorder envs.

#[local] Instance steady_preorder : PreOrder steady.
Proof.
  split; [by intros w; split_and!|]. intros w1 w2 w3 (M12 & R12 & E1 & E2) (M23 & R23 & E3 & E4).
  split_and!; [by transitivity w2|by transitivity w2|by rewrite E3|by rewrite E4].
Qed.

#[local] Instance quiet_preorder : PreOrder quiet.
Proof. split; [by intros w|]. intros w1 w2 w3 [? E1] [? E2]. split; [by etransitivity|by rewrite E2]. Qed.

Lemma steady_read w w' : steady w w' → read envs w w'.
Proof. by intros (_ & ? & _). Qed.
Lemma steady_moved w w' : steady w w' → moved envs w w'.
Proof. by intros (? & _). Qed.
Lemma quiet_steady w w' : quiet w w' → steady w w'.
Proof. by intros []. Qed.
#[local] Hint Resolve steady_read steady_moved quiet_steady : core.

Lemma step_quiet w : quiet w (step w).
Proof. split; [|done]. split_and!; [apply step_moved|by apply step_read|done|done]. Qed.

Lemma readLog_quiet {R} (f : Env → Store A P Ser X → R) w w' r : readLog envs others f w = (w', r) → quiet w w'.
Proof.
  intros E. pose proof (readLog_moved envs others appends _ _ _ _ E) as Hm. pose proof (readLog_read envs others clock _ _ _ _ E) as Hr.
  unfold readLog in E. injection E as <- _. by split.
Qed.

Lemma withProvider_quiet {R} (f : Env → P → P * R) w w' r :
  reads (now envs w) (now envs w) (provider w) (f (here envs w) (provider w)).1 →
  withProvider envs f w = (w', r) → quiet w w'.
Proof.
  intros Hf E. pose proof (withProvider_read envs clock f w w' r Hf E) as Hr.
  assert (moved envs w w') as Hm.
  { eapply withProvider_moved; [|exact E]. intros t k Ht. by apply (reads_gone (now envs w) (now envs w)). }
  unfold withProvider in E. destruct (f _ _). injection E as <- _. by split.
Qed.

Lemma withOut_steady {R} (f : Env → O → O * R) w w' r : withOut envs f w = (w', r) → steady w w'.
Proof.
  intros E. pose proof (withOut_moved envs f w w' r E) as Hm. pose proof (withOut_read envs clock f w w' r E) as Hr.
  unfold withOut in E. destruct (f _ _). injection E as <- _. by split.
Qed.

Lemma attribute_quiet tagger se w w' a : attribute envs c tagger se w = (w', a) → quiet w w'.
Proof. apply withProvider_quiet. apply attributeSubjects_reads. Qed.

Lemma deserialize_reads t up ser se (p : P) : reads t t p (deserializeWithUpcast c t up ser se p).1.
Proof.
  unfold deserializeWithUpcast. destruct (_ && _); [apply rtc_refl|].
  destruct (es_encryption c) as [enc|]; [|apply rtc_refl]. destruct (IsEncrypted (se_Metadata se)); [|apply rtc_refl].
  pose proof (decryptFields_reads t enc (se_StreamID se) (se_Type se) (se_Data se) (se_Metadata se) p) as Hd.
  by destruct (decryptFields _ _ _ _ _ _ p).
Qed.

(** *** What happened in a run

    The state of the provider is one it was in between two worlds of the run. *)

(** Attribution gave the event subjects with [Q]. *)
Definition attributedIn (tagger : option SubjectTagger) w w' (se : StoredEvent) (Q : subjectAttribution → Prop) : Prop :=
  ∃ v, read envs w v ∧ read envs v w' ∧ Q (attributeSubjects c tagger (now envs v) se (provider v)).2.

(** Reading the event in the world [v] of a run from [w]. *)
Definition opens w v (se : StoredEvent) : res (Event V) :=
  (deserializeWithUpcast c (now envs v) (st_upcasters (sw_store w)) (st_serializer (sw_store w)) se (provider v)).2.

(** The provider said of the key whether it is revoked. *)
Definition askedIn w w' (keyID : string) (revoked : bool) : Prop :=
  ∃ enc v, es_encryption c = Some enc ∧ read envs w v ∧ read envs v w' ∧
    (cfgIsRevoked enc (now envs v) keyID (provider v)).2 = Ok revoked.

(** The exported form of an event: redacted, when its key was revoked or it
    could not be decrypted, or read. *)
Definition described w w' (se : StoredEvent) (x : ExportedEvent V) : Prop :=
  (x = redact se ∧
   ((IsEncrypted (se_Metadata se) = true ∧ askedIn w w' (GetEncryptionKeyID (se_Metadata se)) true) ∨
    ∃ v err, read envs w v ∧ read envs v w' ∧ opens w v se = Err err ∧ redactable err = true)) ∨
  ∃ v ev, read envs w v ∧ read envs v w' ∧ opens w v se = Ok ev ∧
    x = exportedAs se (Some (ev_Data ev)) (default None (marshalEvent (ev_Data ev))) false.

Lemma attributedIn_later tagger w w' w1 se Q :
  read envs w' w1 → attributedIn tagger w w' se Q → attributedIn tagger w w1 se Q.
Proof. intros Hr (v & ? & ? & ?). exists v. split; [done|]. split; [by etransitivity|done]. Qed.

Lemma attributedIn_impl tagger w w' se (Q Q' : subjectAttribution → Prop) :
  (∀ a, Q a → Q' a) → attributedIn tagger w w' se Q → attributedIn tagger w w' se Q'.
Proof. intros HQ (v & ? & ? & ?). exists v. auto. Qed.

Lemma attributedIn_attributable tagger w w' se Q : attributedIn tagger w w' se Q → attributable (P := P) c tagger se Q.
Proof. intros (v & _ & _ & ?). by exists (now envs v), (provider v). Qed.

Lemma attribute_attributedIn tagger se w0 w w' a (Q : subjectAttribution → Prop) :
  read envs w0 w → attribute envs c tagger se w = (w', a) → Q a → attributedIn tagger w0 w' se Q.
Proof.
  intros Hr E HQ. exists w. split; [done|]. split; [by apply attribute_quiet in E as [(_ & ? & _) _]|].
  unfold attribute, withProvider, now, provider in *. destruct (attributeSubjects _ _ _ _ _) as [p a']. by injection E as _ ->.
Qed.

Lemma askedIn_later w w' w1 key b : read envs w' w1 → askedIn w w' key b → askedIn w w1 key b.
Proof. intros Hr (enc & v & ? & ? & ? & ?). exists enc, v. split_and!; try done. by etransitivity. Qed.

Lemma described_later w w' w1 se x : read envs w' w1 → described w w' se x → described w w1 se x.
Proof.
  intros Hr [[-> Hu]|(v & ev & ? & ? & ? & ?)]; [left; split; [done|]|right].
  - destruct Hu as [[? Ha]|(v & err & ? & ? & ? & ?)]; [left; split; [done|by eapply askedIn_later]|right].
    exists v, err. split_and!; try done. by etransitivity.
  - exists v, ev. split_and!; try done. by etransitivity.
Qed.

Lemma described_source w w' se x :
  described w w' se x →
  x_StreamID x = se_StreamID se ∧ x_EventType x = se_Type se ∧ x_Version x = se_Version se ∧
  x_GlobalPosition x = se_GlobalPosition se ∧ x_Timestamp x = se_Timestamp se ∧
  x_Metadata x = newExportedMetadata (se_Metadata se).
Proof. by intros [[-> _]|(? & ? & _ & _ & _ & ->)]. Qed.

Section Anchored.
(** The world the run began in. *)
Context (w0 : SubjectWorld A P Ser X O).

(** What the cache holds of a key is what the provider said. *)
Definition sound w (cache : gmap string bool) : Prop := ∀ key b, cache !! key = Some b → askedIn w0 w key b.

Lemma sound_later w w' cache : steady w w' → sound w cache → sound w' cache.
Proof. intros (_ & Hr & _) Hs key b Hk. eapply askedIn_later; [exact Hr|by apply Hs]. Qed.

Lemma underRevokedKey_spec se cache w w' cache' b :
  steady w0 w → sound w cache → underRevokedKey envs c se cache w = (w', (cache', b)) →
  quiet w w' ∧ sound w' cache' ∧
  (b = true → IsEncrypted (se_Metadata se) = true ∧ askedIn w0 w' (GetEncryptionKeyID (se_Metadata se)) true).
Proof.
  unfold underRevokedKey. intros H0s Hc E. destruct (es_encryption c) as [enc|] eqn:Eenc; [|by injection E as <- <- <-].
  destruct (IsEncrypted (se_Metadata se)); cbn [negb] in E; [|by injection E as <- <- <-].
  destruct (cache !! _) as [b'|] eqn:Ec; [injection E as <- <- <-; split_and!; try done; intros ->; split; [done|by apply Hc]|].
  destruct (withProvider _ _ _) as [w1 r1] eqn:Ep.
  assert (quiet w w1) as Hq by (eapply withProvider_quiet; [|exact Ep]; apply cfgIsRevoked_reads).
  assert (∀ b', r1 = Ok b' → askedIn w0 w1 (GetEncryptionKeyID (se_Metadata se)) b') as Hasked.
  { intros b' ->. exists enc, w. split; [done|]. split; [auto|]. split; [apply steady_read, Hq|].
    unfold withProvider in Ep. unfold now, provider. destruct (cfgIsRevoked _ _ _ _) as [p r]. by injection Ep as _ ->. }
  assert (sound w1 cache) as Hc1 by (eapply sound_later; [apply Hq|done]).
  destruct r1 as [b'|err]; injection E as <- <- <-; split_and!; try done.
  - intros key b0 [[<- <-]|[_ Hk]]%lookup_insert_Some; [by apply Hasked|by apply Hc1].
  - intros ->. split; [done|by apply Hasked].
Qed.

Lemma ProcessStoredEvent_spec se w w' r :
  steady w0 w → ProcessStoredEvent envs c se w = (w', r) → quiet w w' ∧ r = opens w0 w se.
Proof.
  unfold ProcessStoredEvent. intros (_ & _ & E1 & E2) E. split.
  - apply withProvider_quiet in E; [done|]. apply deserialize_reads.
  - unfold opens. rewrite <- E1, <- E2. unfold withProvider in E. unfold provider, now.
    destruct (deserializeWithUpcast _ _ _ _ _ _) as [p r']. by injection E as _ <-.
Qed.

Lemma processStoredEvent_spec se cache w w' cache' r :
  steady w0 w → sound w cache → processStoredEvent envs c marshalEvent se cache w = (w', (cache', r)) →
  quiet w w' ∧ sound w' cache' ∧ ∀ x, r = Ok x → described w0 w' se x.
Proof.
  unfold processStoredEvent. intros H0s Hc E. destruct (underRevokedKey _ _ _ _ _) as [w1 [cache1 revoked]] eqn:Eu.
  apply underRevokedKey_spec in Eu as (Hq & Hc1 & Hr); [|done..]. destruct revoked.
  { injection E as <- <- <-. split; [done|]. split; [done|]. intros x [= <-]. left. split; [done|]. left. by apply Hr. }
  destruct (ProcessStoredEvent _ _ _ _) as [w2 r2] eqn:Ep.
  assert (steady w0 w1) as H01 by (etransitivity; [done|apply Hq]).
  apply ProcessStoredEvent_spec in Ep as [Hq2 Hr2]; [|done].
  assert (quiet w w2) as Hq' by by etransitivity. assert (sound w2 cache1) as Hc2 by (eapply sound_later; [apply Hq2|done]).
  destruct r2 as [ev|err]; injection E as <- <- <-; (split; [done|]); (split; [done|]); intros x.
  - intros [= <-]. right. exists w1, ev. split_and!; try done; auto.
  - destruct (redactable err) eqn:Er; [|done]. intros [= <-]. left. split; [done|]. right. exists w1, err. split_and!; try done; auto.
Qed.

(** ** The loops *)

(** A filter keeps events for which [K] holds, at that point of the run, and
    drops those for which [D] does, and leaves the world alone. *)
Definition selects (f : ExportFilter A P Ser X O) (K D : SubjectWorld A P Ser X O → StoredEvent → Prop) : Prop :=
  ∀ se w w' b, steady w0 w → f se w = (w', b) → quiet w w' ∧ if b : bool then K w' se else D w' se.

(** What held at a point of the run holds after it. *)
Definition stays (K : SubjectWorld A P Ser X O → StoredEvent → Prop) : Prop :=
  ∀ w w' se, read envs w w' → K w se → K w' se.

Lemma attributedIn_stays tagger Q : stays (λ w se, attributedIn tagger w0 w se Q).
Proof. intros w w' se. apply attributedIn_later. Qed.

Lemma attributed_selects subj :
  selects (attributedToFilter envs c e subj)
    (λ w se, attributedIn (exportTagger e) w0 w se (λ a, attributedTo a subj = true))
    (λ w se, attributedIn (exportTagger e) w0 w se (λ a, attributedTo a subj = false)).
Proof.
  intros se w w' b H0s E. unfold attributedToFilter in E. destruct (attribute _ _ _ _ _) as [w1 a] eqn:Ea. injection E as <- Eb.
  split; [by eapply attribute_quiet|]. destruct b; eapply attribute_attributedIn; eauto.
Qed.

Lemma unattributable_selects subj :
  selects (subjectOrUnattributableFilter envs c e subj)
    (λ w se, attributedIn (exportTagger e) w0 w se (λ a, attributed a = false ∨ attributedTo a subj = true))
    (λ w se, attributedIn (exportTagger e) w0 w se (othersOnly subj)).
Proof.
  intros se w w' b H0s E. unfold subjectOrUnattributableFilter in E. destruct (attribute _ _ _ _ _) as [w1 a] eqn:Ea.
  injection E as <- Eb. split; [by eapply attribute_quiet|].
  destruct b; (eapply attribute_attributedIn; [by apply steady_read|exact Ea|]); unfold othersOnly;
    destruct (attributed a), (attributedTo a subj); naive_solver.
Qed.

Definition inWindow (from to : option Time) (se : StoredEvent) : Prop :=
  (∀ t, from = Some t → t ≤ se_Timestamp se) ∧ (∀ t, to = Some t → se_Timestamp se ≤ t).

Lemma matchesRequest_spec se (req : ExportRequest A P Ser X O) f K D w w' b :
  xq_Filter req = Some f → selects f K D → steady w0 w → matchesRequest se req w = (w', b) →
  quiet w w' ∧
  if b then inWindow (xq_FromTime req) (xq_ToTime req) se ∧ K w' se
  else ¬ inWindow (xq_FromTime req) (xq_ToTime req) se ∨ D w' se.
Proof.
  intros Hf Hs H0s E. unfold matchesRequest in E. rewrite Hf in E. unfold inWindow.
  destruct (match xq_FromTime req with Some t => _ | None => _ end) eqn:E1.
  { injection E as <- <-. split; [done|]. left. intros [Hfrom _]. destruct (xq_FromTime req) as [t|]; [|done].
    specialize (Hfrom t eq_refl). zbool. lia. }
  destruct (match xq_ToTime req with Some t => _ | None => _ end) eqn:E2.
  { injection E as <- <-. split; [done|]. left. intros [_ Hto]. destruct (xq_ToTime req) as [t|]; [|done].
    specialize (Hto t eq_refl). zbool. lia. }
  apply Hs in E as [Hq Hb]; [|done]. split; [done|]. destruct b; [|by right]. split; [|done].
  split; intros t Ht; [rewrite Ht in E1|rewrite Ht in E2]; zbool; lia.
Qed.

Section Loops.
Context {T : Type} (handler : ExportedEvent V → T → SubjectWorld A P Ser X O → SubjectWorld A P Ser X O * res T).
(** What the handler's accumulator and the application hold once it was given
    some events; [J] once it may have refused the last one. *)
Context (I : list (ExportedEvent V) → T → O → Prop) (J : list (ExportedEvent V) → O → Prop).
Context (I_J : ∀ xs acc o, I xs acc o → J xs o).
Context (handler_steady : ∀ x acc w w' r, handler x acc w = (w', r) → steady w w').
Context (handler_I : ∀ x xs acc w w' r, I xs acc (sw_out w) → handler x acc w = (w', r) →
  match r with Ok acc' => I (xs ++ [x]) acc' (sw_out w') | Err _ => J (xs ++ [x]) (sw_out w') end).
Context (req : ExportRequest A P Ser X O) (f : ExportFilter A P Ser X O) (K D : SubjectWorld A P Ser X O → StoredEvent → Prop).
Context (has_filter : xq_Filter req = Some f) (filter_selects : selects f K D) (K_stays : stays K) (D_stays : stays D).

(** The exported form of some events, at a point of the run. *)
Definition selection w : list StoredEvent → list (ExportedEvent V) → Prop :=
  exports (λ se, inWindow (xq_FromTime req) (xq_ToTime req) se ∧ K w se)
    (λ se, ¬ inWindow (xq_FromTime req) (xq_ToTime req) se ∨ D w se) (described w0 w).

Lemma selection_later w w' l xs : steady w w' → selection w l xs → selection w' l xs.
Proof.
  intros Hs. pose proof (steady_read _ _ Hs) as Hr. apply exports_impl.
  - intros se [? ?]. split; [done|by eapply K_stays].
  - intros se [?|?]; [by left|right; by eapply D_stays].
  - intros se x. by apply described_later.
Qed.

Lemma selection_keep w w' se x l xs :
  inWindow (xq_FromTime req) (xq_ToTime req) se → K w se → described w0 w se x → steady w w' →
  selection w' l xs → selection w' (se :: l) (x :: xs).
Proof.
  intros Hw Hk Hd Hs. pose proof (steady_read _ _ Hs) as Hr. apply exports_keep; [split; [done|by eapply K_stays]|by eapply described_later].
Qed.

Lemma exportEvents_spec stored cache acc xs w w' r :
  steady w0 w → sound w cache → I xs acc (sw_out w) →
  exportEvents envs c marshalEvent handler req stored cache acc w = (w', r) →
  steady w w' ∧
  match r with
  | Ok (cache', acc') => sound w' cache' ∧ ∃ ys, selection w' stored ys ∧ I (xs ++ ys) acc' (sw_out w')
  | Err _ => ∃ pre ys, pre `prefix_of` stored ∧ selection w' pre ys ∧ J (xs ++ ys) (sw_out w')
  end.
Proof.
  revert cache acc xs w. induction stored as [|se stored IH]; intros cache acc xs w H0s Hc HI E; cbn [exportEvents] in E.
  { injection E as <- <-. split; [done|]. split; [done|]. exists []. rewrite app_nil_r. split; [constructor|done]. }
  destruct (ctx_Err (here envs w)).
  { injection E as <- <-. split; [apply step_quiet|]. exists [], []. rewrite app_nil_r.
    split; [apply prefix_nil|]. split; [constructor|by eapply I_J]. }
  destruct (matchesRequest se req (step w)) as [w1 b] eqn:Em.
  assert (steady w0 (step w)) as H0' by (etransitivity; [done|apply step_quiet]).
  destruct (matchesRequest_spec _ _ _ _ _ _ _ _ has_filter filter_selects H0' Em) as [Hq1 Hb].
  assert (quiet w w1) as Hq by (etransitivity; [apply step_quiet|done]). destruct Hq as [Hs Ho].
  assert (steady w0 w1) as H01 by by transitivity w. assert (sound w1 cache) as Hc1 by by apply (sound_later w).
  destruct b.
  - destruct Hb as [Hwin Hk]. destruct (processStoredEvent _ _ _ _ _ _) as [w2 [cache2 r2]] eqn:Ep.
    destruct (processStoredEvent_spec _ _ _ _ _ _ H01 Hc1 Ep) as ([Hs2 Ho2] & Hc2 & Hd). rewrite <- Ho, <- Ho2 in HI.
    assert (steady w w2) as Hs02 by by transitivity w1. assert (K w2 se) as Hk2 by (apply (K_stays w1); [by apply steady_read|done]).
    destruct r2 as [x|err].
    + specialize (Hd x eq_refl).
      destruct (handler x acc w2) as [w3 r3] eqn:Eh. pose proof (handler_I _ _ _ _ _ _ HI Eh) as HI3.
      apply handler_steady in Eh as Hs3. assert (steady w w3) as Hs03 by by transitivity w2. destruct r3 as [acc3|err].
      * assert (sound w3 cache2) as Hc3 by by apply (sound_later w2).
        destruct (IH _ _ _ _ ltac:(by transitivity w) Hc3 HI3 E) as [Hs4 Hr]. split; [by transitivity w3|].
        assert (steady w2 w') as Hs2' by by transitivity w3. destruct r as [[cache' acc']|err].
        -- destruct Hr as (Hc' & ys & Hsel & HI'). split; [done|]. exists (x :: ys). rewrite <- app_assoc in HI'. split; [|done].
           by eapply (selection_keep w2).
        -- destruct Hr as (pre & ys & Hpre & Hsel & HJ). exists (se :: pre), (x :: ys). rewrite <- app_assoc in HJ.
           split; [by apply prefix_cons|]. split; [|done]. by eapply (selection_keep w2).
      * injection E as <- <-. split; [done|]. exists [se], [x]. split; [apply prefix_cons, prefix_nil|].
        split; [|done]. eapply (selection_keep w2); [done..|constructor].
    + injection E as <- <-. split; [done|]. exists [], []. rewrite app_nil_r. split; [apply prefix_nil|].
      split; [constructor|by eapply I_J].
  - rewrite <- Ho in HI. destruct (IH _ _ _ _ H01 Hc1 HI E) as [Hs2 Hr]. split; [by transitivity w1|].
    assert (¬ inWindow (xq_FromTime req) (xq_ToTime req) se ∨ D w' se) as Hb'
      by (destruct Hb as [?|?]; [by left|right; apply (D_stays w1); [by apply steady_read|done]]).
    destruct r as [[cache' acc']|err].
    + destruct Hr as (Hc' & ys & Hsel & HI'). split; [done|]. exists ys. split; [|done]. by apply exports_drop.
    + destruct Hr as (pre & ys & Hpre & Hsel & HJ). exists (se :: pre), ys. split; [by apply prefix_cons|].
      split; [|done]. by apply exports_drop.
Qed.

(** A stream as it was read between two worlds. *)
Definition loaded w w' (sid : string) (l : list StoredEvent) : Prop :=
  LogSpec.stream sid (logged w) `prefix_of` l ∧ l `prefix_of` LogSpec.stream sid (logged w').

Lemma loaded_within w2 w w' w1 sid l :
  steady w2 w → steady w' w1 → el_wf (adapter w2) → el_wf (adapter w') → loaded w w' sid l → loaded w2 w1 sid l.
Proof.
  intros [Hm _] [Hm' _] Hwf Hwf' [Hp Hp']. destruct (mv_grown _ _ _ Hm Hwf) as [_ Hg].
  destruct (mv_grown _ _ _ Hm' Hwf') as [_ Hg']. split; etransitivity; [by apply stream_prefix|done|done|by apply stream_prefix].
Qed.

Lemma LoadRaw_loads w w' sid stored :
  el_wf (adapter w) → readLog envs others (λ env, LoadRaw env sid 0) w = (w', Ok stored) →
  stored = LogSpec.stream sid (logged w').
Proof.
  unfold readLog, LoadRaw. intros Hwf [= <- E].
  destruct (appends (sw_calls w) (adapter w) Hwf) as (Hwf' & Hp & _). destruct (bool_decide (sid = "")); [done|].
  cbn in E. rewrite el_load_spec in E by exact Hwf'. unfold LogSpec.load in E. inv_ok.
  apply list_filter_all. intros se Hse%list_elem_of_filter. apply (el_numbered (adapter (mkSubjectWorld (set_adapter (sw_store w) (others (sw_calls w) (adapter w))) (sw_out w) (S (sw_calls w)))) se Hwf'), Hse.
Qed.

Lemma steady_wf w w' : steady w w' → el_wf (adapter w) → el_wf (adapter w').
Proof. intros [Hm _] Hwf. by destruct (mv_grown _ _ _ Hm Hwf). Qed.

Lemma elem_of_loaded w w' sid l se : loaded w w' sid l → se ∈ l → se ∈ logged w' ∧ se_StreamID se = sid.
Proof. intros [_ Hp] Hse. apply and_comm, elem_of_stream. by eapply elem_of_prefix. Qed.

(** What was handed over when an export stops. *)
Definition cut w' (streams : list string) (xs : list (ExportedEvent V)) : Prop :=
  ∃ pre ys, (∀ se, se ∈ pre → se ∈ logged w' ∧ se_StreamID se ∈ streams) ∧ selection w' pre ys ∧ J (xs ++ ys) (sw_out w').

Lemma cut_now w w' streams acc xs : I xs acc (sw_out w) → quiet w w' → cut w' streams xs.
Proof.
  intros HI [_ Ho]. exists [], []. rewrite app_nil_r, Ho. split; [by intros se ?%not_elem_of_nil|].
  split; [constructor|by eapply I_J].
Qed.

Lemma cut_later w1 w w' sid streams l xs ys :
  el_wf (adapter w) → steady w w' → loaded w1 w sid l → selection w l ys → cut w' streams (xs ++ ys) →
  cut w' (sid :: streams) xs.
Proof.
  intros Hwf H12 Hl Hsel (pre & ys' & Hpre & Hsel' & HJ). exists (l ++ pre), (ys ++ ys'). rewrite <- app_assoc in HJ.
  split; [|split; [|done]].
  - intros se [Hse|Hse]%elem_of_app; [|destruct (Hpre se Hse); split; [done|by right]].
    destruct (elem_of_loaded _ _ _ _ _ Hl Hse) as [Hin <-]. split; [|by left].
    by apply (moved_logged envs w w' se); [apply H12|..].
  - apply exports_app; [by eapply selection_later|done].
Qed.

Lemma exportFromStreams_spec streams cache acc xs w w' r :
  steady w0 w → sound w cache → el_wf (adapter w) → I xs acc (sw_out w) →
  exportFromStreams envs others c marshalEvent handler req streams cache acc w = (w', r) →
  steady w w' ∧
  match r with
  | Ok acc' => ∃ loads ys, Forall2 (loaded w w') streams loads ∧ selection w' (concat loads) ys ∧ I (xs ++ ys) acc' (sw_out w')
  | Err _ => cut w' streams xs
  end.
Proof.
  revert cache acc xs w. induction streams as [|sid streams IH]; intros cache acc xs w H0s Hc Hwf HI E; cbn [exportFromStreams] in E.
  { injection E as <- <-. split; [done|]. exists [], []. rewrite app_nil_r. split; [constructor|]. split; [constructor|done]. }
  destruct (ctx_Err (here envs w)).
  { injection E as <- <-. split; [apply step_quiet|]. eapply cut_now; [exact HI|apply step_quiet]. }
  destruct (readLog _ _ _ _) as [w1 rd] eqn:El. pose proof (steady_wf _ _ (proj1 (step_quiet w)) Hwf) as Hwf0.
  assert (quiet w w1) as Hq by (etransitivity; [apply step_quiet|by eapply readLog_quiet]). destruct rd as [stored|err].
  2: { rewrite (LoadRaw_found _ _ appends _ _ _ _ live Hwf0 El) in E. injection E as <- <-. split; [apply Hq|by eapply cut_now]. }
  apply (LoadRaw_loads _ _ _ _ Hwf0) in El as ->. destruct Hq as [Hs Ho]. rewrite <- Ho in HI.
  assert (steady w0 w1) as H01 by by transitivity w. assert (sound w1 cache) as Hc1 by by apply (sound_later w).
  destruct (exportEvents _ _ _ _ _ _ _ _ _) as [w2 r2] eqn:Ee. destruct (exportEvents_spec _ _ _ _ _ _ _ H01 Hc1 HI Ee) as [Hs2 Hr2].
  assert (steady w w2) as Hs02 by by transitivity w1. pose proof (steady_wf _ _ Hs Hwf) as Hwf1.
  assert (loaded w w1 sid (LogSpec.stream sid (logged w1))) as Hld.
  { split; [|done]. apply stream_prefix. by destruct (mv_grown _ _ _ (proj1 Hs) Hwf). }
  pose proof (steady_wf _ _ Hs2 Hwf1) as Hwf2.
  assert (loaded w w2 sid (LogSpec.stream sid (logged w1))) as Hld2 by by apply (loaded_within w w w1 w2).
  destruct r2 as [[cache2 acc2]|err].
  - destruct Hr2 as (Hc2 & ys & Hsel & HI2). assert (steady w0 w2) as H02 by by transitivity w1.
    destruct (IH _ _ _ _ H02 Hc2 Hwf2 HI2 E) as [Hs3 Hr].
    pose proof (steady_wf _ _ Hs3 Hwf2) as Hwf3. split; [by transitivity w2|]. destruct r as [acc'|err].
    + destruct Hr as (loads & ys' & Hf & Hsel' & HI'). exists (LogSpec.stream sid (logged w1) :: loads), (ys ++ ys').
      rewrite <- app_assoc in HI'. split; [|split; [|done]].
      * constructor; [by apply (loaded_within w w w2 w')|]. eapply Forall2_impl; [exact Hf|]. intros s l.
        by apply loaded_within.
      * apply exports_app; [by eapply selection_later|done].
    + by eapply (cut_later w w2).
  - injection E as <- <-. split; [done|]. destruct Hr2 as (pre & ys & Hpre & Hsel & HJ). exists pre, ys.
    split; [|split; [done|done]]. intros se Hse.
    destruct (elem_of_loaded _ _ _ _ se Hld2) as [? <-]; [by eapply elem_of_prefix|].
    split; [done|by left].
Qed.

(** An export of the whole log hands over events of it. *)
Definition handedFromLog w (acc : T) : Prop :=
  ∃ xs, I xs acc (sw_out w) ∧ ∀ x, x ∈ xs → ∃ se, se ∈ logged w ∧ described w0 w se x.

Lemma handedFromLog_later w w' acc :
  quiet w w' → el_wf (adapter w) → handedFromLog w acc → handedFromLog w' acc.
Proof.
  intros [Hs Ho] Hwf (xs & HI & Hxs). exists xs. split; [by rewrite Ho|]. intros x Hx. destruct (Hxs x Hx) as (se & Hse & Hd).
  exists se. split; [by apply (moved_logged envs w w'); [apply Hs|..]|apply (described_later _ w); [by apply steady_read|done]].
Qed.

Lemma exportFromScan_described fuel acc w w' acc' :
  steady w0 w → el_wf (adapter w) → I [] acc (sw_out w) →
  exportFromScan envs others c scannable e marshalEvent handler fuel req ∅ acc w = (w', Ok acc') →
  steady w w' ∧ handedFromLog w' acc'.
Proof.
  intros H0s Hwf HI E. unfold exportFromScan in E. destruct (negb scannable); [done|].
  destruct (scanLoop _ _ _ _ _ _ _ _ _) as [w1 [[cache1 acc1]|err]] eqn:Es; [|done]. injection E as <- <-.
  eapply (scan_handles_at envs others clock appends (Ser := Ser) (P := P) (X := X) (O := O) quiet _ _ _
    (λ v '(cache, acc), steady w v ∧ sound v cache ∧ handedFromLog v acc) (λ _ _ _, True)) in Es as (_ & (? & _ & ?) & _);
    [by split|apply step_quiet|intros pos v v' r; apply readLog_quiet| |done| | |done].
  - intros v v' [cache acc0] Hq _ Hwfv (? & ? & ?). split; [etransitivity; [done|apply Hq]|].
    split; [eapply sound_later; [apply Hq|done]|by eapply handedFromLog_later].
  - intros batch [cache acc0] v v' [cache' acc0'] Hwfv Hpage (Hsv & Hc & xs & HI0 & Hxs) Eb.
    destruct (exportEvents_spec batch cache acc0 xs v v' _ ltac:(by etransitivity) Hc HI0 Eb) as (Hs & Hc' & ys & Hsel & HI').
    split; [by apply steady_moved|]. split; [|done]. split; [by etransitivity|]. split; [done|]. exists (xs ++ ys). split; [done|].
    assert (∀ se, se ∈ logged v → se ∈ logged v') as Hl by (intros se; by apply (moved_logged envs v v'); [apply Hs|]).
    intros x [Hx|Hx]%elem_of_app.
    + destruct (Hxs x Hx) as (se & Hse & Hd). exists se. split; [auto|]. apply (described_later _ v); [by apply steady_read|done].
    + destruct (exports_sources _ _ _ Hsel Hx) as (se & Hse & _ & Hd). exists se. split; [auto|done].
  - split; [done|]. split; [by intros key b; rewrite lookup_empty|]. exists []. split; [done|]. by intros x ?%not_elem_of_nil.
Qed.
End Loops.
End Anchored.

(** ** The resolution *)

(** What a resolution leaves as it is. *)
Definition setup w w' : Prop :=
  read envs w w' ∧ st_serializer (sw_store w') = st_serializer (sw_store w) ∧ st_upcasters (sw_store w') = st_upcasters (sw_store w) ∧
  sw_out w' = sw_out w.

#[local] Instance setup_preorder : PreOrder setup.
Proof.
  split; [by intros w|]. intros w1 w2 w3 (R & E1 & E2 & E3) (R' & E1' & E2' & E3'). unfold setup. rewrite E1', E2', E3'.
  split; [by transitivity w2|done].
Qed.

Lemma quiet_setup w w' : quiet w w' → setup w w'.
Proof. intros [(_ & ? & ? & ?) ?]. done. Qed.

Lemma step_setup w : setup w (step w).
Proof. apply quiet_setup, step_quiet. Qed.
Lemma readLog_setup {R} (f : Env → Store A P Ser X → R) w w' r : readLog envs others f w = (w', r) → setup w w'.
Proof. intros E. eapply quiet_setup, readLog_quiet, E. Qed.
Lemma attribute_setup tagger se w w' a : attribute envs c tagger se w = (w', a) → setup w w'.
Proof. intros E. eapply quiet_setup, attribute_quiet, E. Qed.
#[local] Hint Resolve step_setup readLog_setup attribute_setup : moved.

Lemma index_setup {R} (f : Env → O → R) w w' r : withOut envs (λ env o, (o, f env o)) w = (w', r) → setup w w'.
Proof.
  intros E. pose proof (withOut_steady _ _ _ _ E) as (_ & ? & ? & ?). unfold withOut in E. by injection E as <- _.
Qed.

Lemma loadFootprintStream_setup sid w w' r : loadFootprintStream envs others sid w = (w', r) → setup w w'.
Proof. unfold loadFootprintStream. intros E. splits; moves. Qed.

Lemma streamSharedWithOthers_setup tagger stored sid w w' r :
  streamSharedWithOthers envs c tagger stored sid w = (w', r) → setup w w'.
Proof.
  revert w. induction stored as [|se stored IH]; intros w E; cbn [streamSharedWithOthers] in E; splits; moves.
Qed.

Lemma collectEvents_setup tagger sid stored shared b w w' r :
  collectEvents envs c tagger sid stored shared b w = (w', r) → setup w w'.
Proof.
  revert shared b w. induction stored as [|se stored IH]; intros shared b w E; cbn [collectEvents] in E; splits; moves.
Qed.

Lemma attributeBatch_setup tagger sid batch b w w' r :
  attributeBatch envs c tagger sid batch b w = (w', r) → setup w w'.
Proof.
  revert b w. induction batch as [|se batch IH]; intros b w E; cbn [attributeBatch] in E; splits; moves.
Qed.
#[local] Hint Resolve loadFootprintStream_setup streamSharedWithOthers_setup collectEvents_setup attributeBatch_setup : moved.

Lemma collectStreams_setup tagger sid streams b w w' r :
  collectStreams envs others c tagger sid streams b w = (w', r) → setup w w'.
Proof.
  revert b w. induction streams as [|s streams IH]; intros b w E; cbn [collectStreams] in E; [splits; moves|].
  unfold collectIndexedStream in E. splits; moves.
Qed.

Lemma detectSharedStreams_setup tagger sid streams b w w' r :
  detectSharedStreams envs others c tagger sid streams b w = (w', r) → setup w w'.
Proof.
  revert b w. induction streams as [|s streams IH]; intros b w E; cbn [detectSharedStreams] in E; splits; moves.
Qed.

Lemma scanLoop_setup {B} wrap limit (body : list StoredEvent → B → SubjectWorld A P Ser X O → SubjectWorld A P Ser X O * res B)
    fuel pos acc w w' r :
  (∀ batch acc w w' r, body batch acc w = (w', r) → setup w w') →
  scanLoop envs others wrap limit body fuel pos acc w = (w', r) → setup w w'.
Proof.
  intros Hb. revert pos acc w. induction fuel as [|fuel IH]; intros pos acc w E; cbn [scanLoop] in E; splits; moves.
Qed.
#[local] Hint Resolve collectStreams_setup detectSharedStreams_setup : moved.

Lemma Resolve_quiet fuel r sid w w' x : Resolve envs others c scannable fuel r sid w = (w', x) → quiet w w'.
Proof.
  intros E. pose proof (Resolve_moved envs others clock appends c scannable fuel r sid w w' x E) as Hm.
  assert (setup w w') as (E0 & E1 & E2 & E3); [|by split]. unfold Resolve in E.
  destruct (resolve _ _ _ _ _ _ _ _ _) as [w1 y] eqn:Er. injection E as <- _. unfold resolve in Er.
  destruct (bool_decide _); [by injection Er as <- _|]. destruct (sr_index r) as [index|].
  - unfold resolveByIndex in Er. destruct (withOut _ _ _) as [w2 ix] eqn:Ew.
    apply (index_setup (λ env, index env sid)) in Ew. splits; moves.
  - unfold resolveByScan in Er. destruct (negb scannable); [by injection Er as <- _|].
    destruct (scanLoop _ _ _ _ _ _ _ _ _) as [w2 s] eqn:Es. apply scanLoop_setup in Es; [splits; moves|].
    intros batch acc w3 w4 r4 E4. splits; moves.
Qed.

(** *** What a resolution has seen *)

Section Seen.
Context (w0 : SubjectWorld A P Ser X O) (tagger : option SubjectTagger) (subj : string).

(** The event was denied the subject, or its stream is in the footprint. *)
Definition placed w (se : StoredEvent) (b : footprintBuilder) : Prop :=
  attributedIn tagger w0 w se (λ a, attributedTo a subj = false) ∨ is_Some (fb_streamSet b !! se_StreamID se).

(** And it was somebody's, or the footprint is partial. *)
Definition seen w (se : StoredEvent) (b : footprintBuilder) : Prop :=
  placed w se b ∧ (attributedIn tagger w0 w se (λ a, attributed a = true) ∨ fb_Partial b = true).

Lemma placed_later w w' se b : read envs w w' → placed w se b → placed w' se b.
Proof. intros Hr [?|?]; [left; by eapply attributedIn_later|by right]. Qed.

Lemma seen_later w w' se b : read envs w w' → seen w se b → seen w' se b.
Proof. intros Hr [? [?|?]]; (split; [by eapply placed_later|]); [left; by eapply attributedIn_later|by right]. Qed.

Lemma placed_grows w se b b' :
  (∀ k, is_Some (fb_streamSet b !! k) → is_Some (fb_streamSet b' !! k)) → placed w se b → placed w se b'.
Proof. intros Hs [?|?]; [by left|right; auto]. Qed.

Lemma record_streams se b k : is_Some (fb_streamSet b !! k) → is_Some (fb_streamSet (record se b) !! k).
Proof. intros ?. cbn. apply lookup_insert_is_Some'. by right. Qed.

Lemma record_stream se b : is_Some (fb_streamSet (record se b) !! se_StreamID se).
Proof. cbn. apply lookup_insert_is_Some'. by left. Qed.

Lemma attributedTo_attributed a : attributedTo a subj = true → attributed a = true.
Proof. unfold attributedTo, attributed. by destruct (at_subjects a). Qed.

Lemma attributeBatch_sees batch b w w' b' :
  read envs w0 w → attributeBatch envs c tagger subj batch b w = (w', b') →
  (∀ se, seen w se b → seen w' se b') ∧ ∀ se, se ∈ batch → seen w' se b'.
Proof.
  revert b w. induction batch as [|ev batch IH]; intros b w H0r E; cbn [attributeBatch] in E.
  { injection E as <- <-. split; [done|]. by intros se ?%not_elem_of_nil. }
  destruct (attribute envs c tagger ev w) as [w1 a] eqn:Ea. destruct (attribute_setup _ _ _ _ _ Ea) as [Hr _].
  destruct (IH _ _ ltac:(by transitivity w) E) as [Hkeep Hnew]. split.
  - intros se Hs. apply Hkeep. apply (seen_later _ _ _ _ Hr) in Hs as [Hp Ht]. split.
    + revert Hp. apply placed_grows. intros k. destruct (attributedTo a subj); [apply record_streams|by destruct (negb _)].
    + destruct Ht as [?|Ht]; [by left|right]. destruct (attributedTo a subj); [done|by destruct (negb _)].
  - intros se [->|Hse]%elem_of_cons; [|by apply Hnew]. apply Hkeep. destruct (attributedTo a subj) eqn:Ew; split.
    + right. apply record_stream.
    + left. eapply attribute_attributedIn; [done|exact Ea|by apply attributedTo_attributed].
    + left. by eapply attribute_attributedIn.
    + destruct (attributed a) eqn:Et; [left; by eapply attribute_attributedIn|by right].
Qed.

Lemma collectEvents_places stored shared b w w' shared' b' :
  read envs w0 w → collectEvents envs c tagger subj stored shared b w = (w', (shared', b')) →
  (∀ se, placed w se b → placed w' se b') ∧ ∀ se, se ∈ stored → placed w' se b'.
Proof.
  revert shared b w. induction stored as [|ev stored IH]; intros shared b w H0r E; cbn [collectEvents] in E.
  { injection E as <- <- <-. split; [done|]. by intros se ?%not_elem_of_nil. }
  destruct (attribute envs c tagger ev w) as [w1 a] eqn:Ea. destruct (attribute_setup _ _ _ _ _ Ea) as [Hr _].
  destruct (IH _ _ _ ltac:(by transitivity w) E) as [Hkeep Hnew]. split.
  - intros se Hp. apply Hkeep. apply (placed_later _ _ _ _ Hr) in Hp. revert Hp. apply placed_grows. intros k.
    destruct (attributedTo a subj); [apply record_streams|done].
  - intros se [->|Hse]%elem_of_cons; [|by apply Hnew]. apply Hkeep. destruct (attributedTo a subj) eqn:Ew.
    + right. apply record_stream.
    + left. by eapply attribute_attributedIn.
Qed.

(** Every event of the indexed streams is dealt with. *)
Lemma collectStreams_places streams b w w' b' :
  read envs w0 w → el_wf (adapter w) → collectStreams envs others c tagger subj streams b w = (w', Ok b') →
  (∀ se, placed w se b → placed w' se b') ∧
  ∀ se, se ∈ logged w → se_StreamID se ∈ streams → placed w' se b'.
Proof.
  revert b w. induction streams as [|sid streams IH]; intros b w H0r Hwf E; cbn [collectStreams] in E.
  { injection E as <- <-. split; [done|]. by intros se _ ?%not_elem_of_nil. }
  unfold loadFootprintStream in E. destruct (readLog _ _ _ _) as [w1 rd] eqn:El.
  pose proof (readLog_quiet _ _ _ _ El) as [(Hm & Hr & _) _]. destruct (mv_grown _ _ _ Hm Hwf) as [Hwf1 Hg].
  destruct rd as [stored|err]; [|by rewrite (LoadRaw_found _ _ appends _ _ _ _ live Hwf El) in E].
  apply (LoadRaw_loads _ _ _ _ Hwf) in El as ->. unfold collectIndexedStream in E.
  destruct (collectEvents _ _ _ _ _ _ _ _) as [w2 [shared b2]] eqn:Ec.
  destruct (collectEvents_places _ _ _ _ _ _ _ ltac:(by transitivity w) Ec) as [Hk1 Hn1].
  pose proof (collectEvents_moved envs others clock appends _ _ _ _ _ _ _ _ _ Ec) as Hm2.
  pose proof (proj1 (collectEvents_setup _ _ _ _ _ _ _ _ Ec)) as Hr2. destruct (mv_grown _ _ _ Hm2 Hwf1) as [Hwf2 Hg2].
  destruct (IH _ _ ltac:(transitivity w1; [by transitivity w|done]) Hwf2 E) as [Hk2 Hn2].
  assert (∀ se, placed w2 se b2 → placed w' se b') as Hk.
  { intros se Hp. apply Hk2. revert Hp. apply placed_grows. by destruct (_ && _). }
  split; [intros se Hp; apply Hk, Hk1; by eapply placed_later|].
  intros se Hse [Hs|Hs]%elem_of_cons; [apply Hk, Hn1, elem_of_stream|apply Hn2; [|done]].
  - split; [done|]. by eapply elem_of_prefix.
  - eapply elem_of_prefix; [|exact Hg2]. by eapply elem_of_prefix.
Qed.
End Seen.

(** The streams a resolution considers: those of the log, or those the index
    lists for the subject. *)
Definition considered (resolver : SubjectResolver O) (subj : string) w (sid : string) : Prop :=
  match sr_index resolver with
  | None => True
  | Some index => ∃ streams, index (here envs w) subj (sw_out w) = Ok streams ∧ sid ∈ streams
  end.

Lemma Resolve_streams fuel (resolver : SubjectResolver O) subj w w' fp :
  el_wf (adapter w) → Resolve envs others c scannable fuel resolver subj w = (w', Ok fp) →
  NoDup (fp_Streams fp) ∧
  (∀ se, se ∈ logged w → considered resolver subj w (se_StreamID se) →
     attributedIn (sr_tagger resolver) w w' se (λ a, attributedTo a subj = false) ∨ se_StreamID se ∈ fp_Streams fp) ∧
  (sr_index resolver = None → fp_Partial fp = false → ∀ se, se ∈ logged w →
     attributedIn (sr_tagger resolver) w w' se (λ a, attributed a = true)) ∧
  (is_Some (sr_index resolver) → fp_Partial fp = negb (sr_authoritative resolver)).
Proof.
  intros Hwf E. unfold Resolve in E. destruct (resolve _ _ _ _ _ _ _ _ _) as [w1 [[fp1 memo]|err]] eqn:Er; [|done].
  injection E as -> ->. assert (∀ m : nameSet, NoDup (sortedSet m)) as Hnd.
  { intros m. unfold sortedSet, sortStrings. unfold exchangeSort at 1. rewrite exchangeLoop_perm. apply NoDup_range_keys. }
  unfold resolve in Er. destruct (bool_decide _); [done|]. unfold considered. destruct (sr_index resolver) as [index|].
  - unfold resolveByIndex in Er. destruct (withOut _ _ w) as [w2 ix] eqn:Ew.
    pose proof (index_setup (λ env, index env subj) _ _ _ Ew) as [Hr _]. pose proof (withOut_steady _ _ _ _ Ew) as [Hm _].
    assert (ix = index (here envs w) subj (sw_out w)) as Eix by by injection Ew. destruct ix as [streams|err]; [|done].
    destruct (collectStreams _ _ _ _ _ _ _ _) as [w3 [b|err]] eqn:Ec; [|done]. injection Er as <- <- <-.
    split; [apply Hnd|]. split; [|done]. intros se Hse (l & El & Hl). cbn. rewrite elem_of_sortedSet.
    destruct (mv_grown _ _ _ Hm Hwf) as [Hwf2 Hg]. rewrite El in Eix. injection Eix as ->.
    eapply (collectStreams_places w) in Ec as [_ Hn]; [|done..]. apply Hn; [by eapply elem_of_prefix|done].
  - unfold resolveByScan in Er. destruct (negb scannable); [done|].
    destruct (scanLoop _ _ _ _ _ _ _ _ _) as [w2 [b|err]] eqn:Es; [|done].
    destruct (detectSharedStreams _ _ _ _ _ _ _ _) as [w3 [b2|err]] eqn:Ed; [|done]. injection Er as <- <- <-.
    destruct (detectSharedStreams_same _ _ _ _ _ _ _ _ _ _ Ed) as (Hss & _ & _ & Hpp).
    destruct (detectSharedStreams_setup _ _ _ _ _ _ _ Ed) as [Hr3 _]. split; [apply Hnd|].
    eapply (scan_handles_at envs others clock appends (λ v v', read envs v v') _ _ _ (λ v _, read envs w v)
      (λ v se b, seen w (sr_tagger resolver) subj v se b)) in Es as (_ & _ & _ & Hall).
    + assert (∀ se, se ∈ logged w → seen w (sr_tagger resolver) subj w3 se b) as Hseen.
      { intros se Hse. eapply seen_later; [exact Hr3|]. apply Hall; [done|]. by apply (el_numbered (adapter w)). }
      split; [|split; [|by intros [? ?]]]; intros; cbn [finalize fp_Streams fp_Partial] in *.
      * rewrite elem_of_sortedSet, Hss. by apply Hseen.
      * destruct (Hseen se) as [_ [?|?]]; [done..|congruence].
    + apply step_setup.
    + intros pos v v' r Ev. by apply readLog_setup in Ev as [? _].
    + intros v v' b' Hv _ _ ?. by transitivity v.
    + intros v v' se b'. apply seen_later.
    + intros batch b' v v' b'' _ _ Hv Eb. destruct (attributeBatch _ _ _ _ _ _ _) as [v2 b3] eqn:Ea. injection Eb as <- <-.
      destruct (attributeBatch_sees _ _ _ _ _ _ _ _ Hv Ea) as [? ?].
      pose proof (attributeBatch_setup _ _ _ _ _ _ _ Ea) as [Hr _].
      split; [by eapply attributeBatch_moved|]. split; [by transitivity v|done].
    + done.
    + done.
Qed.


(** ** Gathering *)

Definition gathering (xs : list (ExportedEvent V)) : gathered V := foldl (λ g x, gather x g) (mkGathered [] ∅ 0 0) xs.

Lemma gathering_spec xs :
  Z.of_nat (length xs) ≤ MaxInt64 →
  ga_Events (gathering xs) = xs ∧
  (∀ sid, is_Some (ga_streamSet (gathering xs) !! sid) ↔ sid ∈ x_StreamID <$> xs) ∧
  ga_TotalEvents (gathering xs) = Z.of_nat (length xs) ∧
  ga_RedactedCount (gathering xs) = Z.of_nat (length (filter (λ x, x_Redacted x = true) xs)).
Proof.
  induction xs as [|x xs IH] using rev_ind.
  { intros _. split; [done|]. split; [|done]. intros sid. split; [intros [? Hx]; discriminate Hx|by intros ?%not_elem_of_nil]. }
  rewrite length_app. cbn [length]. intros Hlen. destruct IH as (E1 & E2 & E3 & E4); [lia|].
  unfold gathering in *. rewrite foldl_snoc. cbn [gather ga_Events ga_streamSet ga_TotalEvents ga_RedactedCount].
  rewrite E1, E3, E4. unfold MaxInt64 in *. split; [done|]. split; [|split].
  - intros sid. etransitivity; [apply lookup_insert_is_Some'|]. rewrite E2, fmap_app, elem_of_app. cbn [fmap list_fmap].
    rewrite list_elem_of_singleton. split; intros [?|?]; auto.
  - rewrite i64_id by (unfold in_i64, MinInt64, MaxInt64; lia). lia.
  - pose proof (length_filter (λ x, x_Redacted x = true) xs) as Hf. rewrite filter_app, length_app, filter_cons.
    case_decide as Hr; [rewrite Hr|destruct (x_Redacted x)]; cbn [filter list_filter length]; [|done|lia].
    rewrite i64_id by (unfold in_i64, MinInt64, MaxInt64; lia). lia.
Qed.

Lemma elem_of_names (m : nameSet) sid : sid ∈ (range m).*1 ↔ is_Some (m !! sid).
Proof.
  rewrite list_elem_of_fmap. split.
  - intros ([k []] & -> & Hk%elem_of_range). by eexists.
  - intros [[] Hk]. exists (sid, tt). split; [done|]. by apply elem_of_range.
Qed.

(** The parts of a result agree. *)
Definition consistent (r : ExportResult V) : Prop :=
  NoDup (xr_Streams r) ∧ (∀ sid, sid ∈ xr_Streams r ↔ ∃ x, x ∈ xr_Events r ∧ x_StreamID x = sid) ∧
  xr_TotalEvents r = Z.of_nat (length (xr_Events r)) ∧
  xr_RedactedCount r = Z.of_nat (length (filter (λ x, x_Redacted x = true) (xr_Events r))).

(** The filter in effect for a request that names streams. *)
Definition effectiveFilter (req : ExportRequest A P Ser X O) : ExportFilter A P Ser X O :=
  match xq_Filter req with Some f => f | None => subjectOrUnattributableFilter envs c e (xq_SubjectID req) end.

Lemma processEvents_streams {T} (handler : ExportedEvent V → T → SubjectWorld A P Ser X O → SubjectWorld A P Ser X O * res T)
    fuel req acc w :
  xq_Streams req ≠ [] →
  processEvents envs others c scannable e marshalEvent handler fuel req acc w =
  exportFromStreams envs others c marshalEvent handler (withFilter (effectiveFilter req) req) (xq_Streams req) ∅ acc w.
Proof. unfold processEvents, effectiveFilter, withFilter. destruct req as [? [|? ?] [f|] ? ?]; done. Qed.

(** ** The positions of what was exported *)

Lemma loads_in w w' streams loads se :
  Forall2 (loaded w w') streams loads → se ∈ concat loads → se ∈ logged w' ∧ se_StreamID se ∈ streams.
Proof.
  induction 1 as [|sid l streams loads Hl _ IH]; cbn [concat]; [by intros ?%not_elem_of_nil|].
  intros [Hse|Hse]%elem_of_app; [|by destruct (IH Hse); split; [|right]].
  destruct (elem_of_loaded _ _ _ _ _ Hl Hse) as [? <-]. split; [done|by left].
Qed.

Lemma loads_NoDup w w' streams loads :
  el_wf (adapter w') → NoDup streams → Forall2 (loaded w w') streams loads → NoDup (se_GlobalPosition <$> concat loads).
Proof.
  intros Hwf Hnd Hf. induction Hf as [|sid l streams loads Hl Hf IH]; cbn [concat]; [constructor|].
  apply NoDup_cons in Hnd as [Hsid Hnd]. pose proof (el_positions _ Hwf) as Hinc.
  rewrite fmap_app. apply NoDup_app. split; [|split; [|by apply IH]].
  - destruct Hl as [_ [k Hk]]. assert (NoDup (se_GlobalPosition <$> LogSpec.stream sid (logged w'))) as Hst
      by (apply increasing_NoDup, strictly_increasing_filter, Hinc).
    rewrite Hk, fmap_app in Hst. by apply NoDup_app in Hst as [? _].
  - intros z (x & -> & Hx)%list_elem_of_fmap (y & E & Hy)%list_elem_of_fmap.
    destruct (elem_of_loaded _ _ _ _ _ Hl Hx) as [Hx' Hxs], (loads_in _ _ _ _ y Hf Hy) as [Hy' Hys].
    assert (x = y) as -> by by apply (increasing_inj _ _ _ _ Hinc). by subst sid.
Qed.

Lemma elem_of_loads w w' streams loads se :
  Forall2 (loaded w w') streams loads → se ∈ logged w → se_StreamID se ∈ streams → se ∈ concat loads.
Proof.
  intros Hf Hse [i Hi]%list_elem_of_lookup. destruct (Forall2_lookup_l _ _ _ _ _ Hf Hi) as (l & Hl & [Hpre _]).
  rewrite list_elem_of_In, in_concat. exists l. rewrite <- !list_elem_of_In. split; [by eapply list_elem_of_lookup_2|].
  eapply elem_of_prefix; [|exact Hpre]. by apply elem_of_stream.
Qed.

(** ** The results *)

(** Distinct positions of the log are no more than it has events. *)
Lemma logged_bound w (ps : list Z) :
  room (adapter w) → NoDup ps → (∀ z, z ∈ ps → z ∈ se_GlobalPosition <$> logged w) → Z.of_nat (length ps) ≤ MaxInt64.
Proof.
  intros Hroom Hnd Hin. pose proof (submseteq_length _ _ (NoDup_submseteq _ _ Hnd Hin)) as Hl.
  rewrite length_fmap in Hl. unfold room in Hroom. unfold logged in Hl. lia.
Qed.

Lemma gathering_Events xs : ga_Events (gathering xs) = xs.
Proof. induction xs as [|x xs IH] using rev_ind; [done|]. unfold gathering in *. rewrite foldl_snoc. cbn. by rewrite IH. Qed.

Lemma collect_steady (x : ExportedEvent V) acc w w' (r : res (gathered V)) : collect x acc w = (w', r) → steady w w'.
Proof. by intros [= <- _]. Qed.

Lemma collect_gathers (x : ExportedEvent V) (xs : list (ExportedEvent V)) acc w w' (r : res (gathered V)) :
  acc = gathering xs → collect x acc w = (w', r) →
  match r with Ok acc' => acc' = gathering (xs ++ [x]) | Err _ => True end.
Proof. intros -> [= <- <-]. unfold gathering. by rewrite foldl_snoc. Qed.

Lemma exportCollected_spec w0 fuel (req : ExportRequest A P Ser X O) partial K D w w' r :
  steady w0 w → NoDup (xq_Streams req) → xq_Streams req ≠ [] → selects w0 (effectiveFilter req) K D → stays K → stays D →
  el_wf (adapter w) → room (adapter w) →
  exportCollected envs others c scannable e marshalEvent fuel req partial w = (w', Ok r) →
  steady w w' ∧ xr_Partial r = partial ∧ consistent r ∧ NoDup (x_GlobalPosition <$> xr_Events r) ∧
  ∃ loads, Forall2 (loaded w w') (xq_Streams req) loads ∧ selection w0 req K D w' (concat loads) (xr_Events r).
Proof.
  intros H0s Hnd Hne Hsel HK HD Hwf Hroom E. unfold exportCollected in E. rewrite processEvents_streams in E by done.
  destruct (exportFromStreams _ _ _ _ _ _ _ _ _ _) as [w1 [g|err]] eqn:Ex; [|done]. injection E as <- <-.
  pose proof (step_quiet w) as [Hs0 _]. pose proof (steady_wf _ _ Hs0 Hwf) as Hwf0.
  assert (sound w0 (step w) ∅) as Hc by (intros key b; by rewrite lookup_empty).
  destruct (exportFromStreams_spec w0 collect (λ xs g _, g = gathering xs) (λ _ _, True) (λ _ _ _ _, Logic.I) collect_steady
    (λ x xs acc v v' rg, collect_gathers x xs acc v v' rg)
    (withFilter (effectiveFilter req) req) _ K D eq_refl Hsel HK HD _ ∅ _ [] _ _ _ ltac:(by transitivity w) Hc Hwf0 eq_refl Ex)
    as [Hs (loads & xs & Hld & Hxs & ->)]. cbn [app xr_Partial xr_Events].
  pose proof (steady_wf _ _ Hs Hwf0) as Hwf1. pose proof (loads_NoDup _ _ _ _ Hwf1 Hnd Hld) as Hpos.
  assert (x_GlobalPosition <$> xs `sublist_of` se_GlobalPosition <$> concat loads) as Hsub.
  { eapply exports_sublist; [|exact Hxs]. intros se x Hx. by apply described_source in Hx as (_ & _ & _ & ? & _). }
  assert (NoDup (x_GlobalPosition <$> xs)) as Hndx by by eapply sublist_NoDup.
  destruct (gathering_spec xs) as (E1 & E2 & E3 & E4).
  { rewrite <- (length_fmap x_GlobalPosition). apply (logged_bound w1); [|done|].
    - apply Hs; [done|]. by apply Hs0.
    - intros z Hz. eapply elem_of_sublist in Hz; [|exact Hsub]. apply list_elem_of_fmap in Hz as (se & -> & Hse).
      apply list_elem_of_fmap_2. by apply (loads_in _ _ _ _ _ Hld). }
  split; [by transitivity (step w)|]. split; [done|]. split; [|split; [by rewrite E1|]].
  - unfold consistent. cbn. rewrite E1, E3, E4. split; [apply NoDup_range_keys|]. split; [|done].
    intros sid. rewrite elem_of_names, E2, list_elem_of_fmap. naive_solver.
  - exists loads. rewrite E1. split; [|done]. eapply Forall2_impl; [exact Hld|]. intros sid l. by apply loaded_within.
Qed.

(** A filter that changes nothing. *)
Definition leavesBe (f : ExportFilter A P Ser X O) : Prop := ∀ se w w' b, f se w = (w', b) → quiet w w'.

Lemma filterFunc_leavesBe f : leavesBe (filterFunc f).
Proof. by intros se w w' b [= <- _]. Qed.

Lemma attributedTo_leavesBe subj : leavesBe (attributedToFilter envs c e subj).
Proof. intros se w w' b. unfold attributedToFilter. destruct (attribute _ _ _ _ _) eqn:Ea. intros [= <- _]. by eapply attribute_quiet. Qed.

Lemma unattributable_leavesBe subj : leavesBe (subjectOrUnattributableFilter envs c e subj).
Proof.
  intros se w w' b. unfold subjectOrUnattributableFilter. destruct (attribute _ _ _ _ _) eqn:Ea. intros [= <- _]. by eapply attribute_quiet.
Qed.

Lemma leavesBe_selects w0 f : leavesBe f → selects w0 f (λ _ _, True) (λ _ _, True).
Proof. intros Hf se w w' b _ E. split; [by eapply Hf|by destruct b]. Qed.

(** Whatever its sources, an export holds events of the log. *)
Lemma exportCollected_described w0 fuel (req : ExportRequest A P Ser X O) partial w w' r :
  steady w0 w → validateRequest req = None → (∀ f, xq_Filter req = Some f → leavesBe f) → el_wf (adapter w) →
  exportCollected envs others c scannable e marshalEvent fuel req partial w = (w', Ok r) →
  steady w w' ∧ ∀ x, x ∈ xr_Events r → ∃ se, se ∈ logged w' ∧ described w0 w' se x.
Proof.
  intros H0s Hv Hf Hwf E. unfold exportCollected in E.
  destruct (processEvents _ _ _ _ _ _ _ _ _ _ _) as [w1 [g|err]] eqn:Ex; [|done]. injection E as <- <-. cbn [xr_Events].
  pose proof (step_quiet w) as [Hs0 _]. pose proof (steady_wf _ _ Hs0 Hwf) as Hwf0.
  assert (steady w0 (step w)) as H0s1 by by transitivity w.
  assert (sound w0 (step w) ∅) as Hc by (intros key b; by rewrite lookup_empty).
  assert (leavesBe (effectiveFilter req)) as Hl.
  { unfold effectiveFilter. destruct (xq_Filter req); [by apply Hf|apply unattributable_leavesBe]. }
  assert (stays (λ _ _, True)) as Ht by done. apply (leavesBe_selects w0) in Hl.
  destruct (decide (xq_Streams req = [])) as [Hn|Hn].
  - assert (∃ f, xq_Filter req = Some f) as [f Ef].
    { unfold validateRequest in Hv. rewrite Hn in Hv. destruct (bool_decide _), (xq_Filter req); naive_solver. }
    unfold processEvents in Ex. rewrite Hn in Ex.
    destruct (exportFromScan_described w0 collect (λ xs g _, g = gathering xs) (λ _ _, True) (λ _ _ _ _, Logic.I) collect_steady
      (λ x xs acc v v' rg, collect_gathers x xs acc v v' rg) req f _ _ Ef (leavesBe_selects w0 f (Hf f Ef)) Ht Ht
      _ _ _ _ _ H0s1 Hwf0 eq_refl Ex) as [Hs (xs & -> & Hxs)].
    split; [by transitivity (step w)|]. by rewrite gathering_Events.
  - rewrite processEvents_streams in Ex by done.
    destruct (exportFromStreams_spec w0 collect (λ xs g _, g = gathering xs) (λ _ _, True) (λ _ _ _ _, Logic.I) collect_steady
      (λ x xs acc v v' rg, collect_gathers x xs acc v v' rg)
      (withFilter (effectiveFilter req) req) _ _ _ eq_refl Hl Ht Ht _ ∅ _ [] _ _ _ H0s1 Hc Hwf0 eq_refl Ex)
      as [Hs (loads & xs & Hld & Hxs & ->)]. split; [by transitivity (step w)|]. rewrite gathering_Events. cbn [app].
    intros x Hx. destruct (exports_sources _ _ _ Hxs Hx) as (se & Hse & _ & Hd). exists se.
    split; [by apply (loads_in _ _ _ _ _ Hld)|done].
Qed.

(** What is known of the events of a request without a filter. *)
Lemma requestResolver_Some (req : ExportRequest A P Ser X O) resolver :
  requestResolver e req = Some resolver → xq_Filter req = None ∧ exportTagger e = sr_tagger resolver.
Proof.
  unfold requestResolver, exportTagger. destruct (xq_Streams req), (xq_Filter req); try done. intros ->. done.
Qed.

(** C11: a subject's export is exact.  Resolved from the subject's footprint, it
    holds, each at most once, only events that attribution gave to the subject
    during the export, each redacted or as it was read.  Of the streams the
    resolution considered, all those of the log when the resolver has no index
    and those the index lists otherwise, it holds every event that the log held
    when the export began and that falls in the time window, but those that
    attribution denied the subject during the export.  An export without an
    index that does not say it is partial met no event it could not attribute;
    with an index it is partial exactly when the index is not said to be
    authoritative.  Its counts and its list of streams agree with its events.
    Other writers may append meanwhile, and the time of a revocation may come. *)
Theorem export_subject_exact fuel (req : ExportRequest A P Ser X O) resolver w w' r :
  requestResolver e req = Some resolver → el_wf (adapter w) → room (adapter w) →
  Export envs others c scannable e marshalEvent fuel req w = (w', Ok r) →
  let subj := xq_SubjectID req in
  let window := inWindow (xq_FromTime req) (xq_ToTime req) in
  let given se := attributedIn (sr_tagger resolver) w w' se (λ a, attributedTo a subj = true) in
  let denied se := attributedIn (sr_tagger resolver) w w' se (λ a, attributedTo a subj = false) in
  consistent r ∧ NoDup (x_GlobalPosition <$> xr_Events r) ∧
  (∀ x, x ∈ xr_Events r → ∃ se, se ∈ logged w' ∧ window se ∧ described w w' se x ∧ given se) ∧
  (∀ se, se ∈ logged w → window se → considered resolver subj w (se_StreamID se) →
     (∃ x, x ∈ xr_Events r ∧ described w w' se x) ∨ denied se) ∧
  (sr_index resolver = None → xr_Partial r = false → ∀ se, se ∈ logged w →
     attributedIn (sr_tagger resolver) w w' se (λ a, attributed a = true)) ∧
  (is_Some (sr_index resolver) → xr_Partial r = negb (sr_authoritative resolver)).
Proof.
  intros Hreq Hwf Hroom E subj window given denied. unfold Export in E. rewrite Hreq in E.
  destruct (requestResolver_Some _ _ Hreq) as [Hf Htg]. destruct (bool_decide _); [done|].
  destruct (Resolve _ _ _ _ _ _ _ _) as [w1 [fp|err]] eqn:Er; [|done].
  destruct (Resolve_streams _ _ _ _ _ _ Hwf Er) as (Hnd & Hall & Htagged & Hauth). apply Resolve_quiet in Er as [Hs1 _].
  destruct (fp_Streams fp) as [|s streams] eqn:Efp.
  { injection E as <- <-. cbn. assert (∀ se Q, attributedIn (sr_tagger resolver) w w1 se Q →
      attributedIn (sr_tagger resolver) w (step w1) se Q) as Hl by (intros se Q; apply attributedIn_later, step_quiet).
    split; [|split; [constructor|split; [by intros x ?%not_elem_of_nil|split; [|split; auto]]]].
    - split; [constructor|]. split; [|done]. intros sid. split; [by intros ?%not_elem_of_nil|by intros (? & ?%not_elem_of_nil & _)].
    - intros se Hse _ Hc. right. destruct (Hall se Hse Hc) as [?|?%not_elem_of_nil]; [|done]. by apply Hl. }
  pose proof (attributed_selects w subj) as Hsel. rewrite Htg in Hsel.
  destruct (exportCollected_spec w _ (withFilter (attributedToFilter envs c e subj) (withStreams (s :: streams) req)) _ _ _ _ _ _
    Hs1 Hnd ltac:(done) Hsel (attributedIn_stays _ _ _) (attributedIn_stays _ _ _) (steady_wf _ _ Hs1 Hwf)
    (mv_room _ _ _ (proj1 Hs1) Hwf Hroom) E) as (Hs2 & Hp & Hcons & Hpos & loads & Hld & Hxs).
  assert (∀ se Q, attributedIn (sr_tagger resolver) w w1 se Q → attributedIn (sr_tagger resolver) w w' se Q) as Hl
    by (intros se Q; apply attributedIn_later, Hs2).
  split; [done|]. split; [done|]. split; [|split; [|split]].
  - intros x Hx. destruct (exports_sources _ _ _ Hxs Hx) as (se & Hse & [Hw Hk] & Hd). exists se.
    split; [by apply (loads_in _ _ _ _ _ Hld)|done].
  - intros se Hse Hw Hc. destruct (Hall se Hse Hc) as [?|Hsid]; [right; by apply Hl|].
    destruct (moved_logged _ _ _ _ (proj1 Hs1) Hwf Hse) as [_ Hse1]. pose proof (elem_of_loads _ _ _ _ _ Hld Hse1 Hsid) as Hc1.
    destruct (exports_covers _ _ _ Hxs Hc1) as [[?|?]|?]; [done|by right|by left].
  - rewrite Hp. auto.
  - by rewrite Hp.
Qed.

(** *** Streaming *)

Section Streaming.
Context (handler : Env → ExportedEvent V → op O error unit).

(** The application after the handler took some events, in order. *)
Inductive handed (o : O) : list (ExportedEvent V) → O → Prop :=
| handed_nil : handed o [] o
| handed_snoc xs x n o1 o2 : handed o xs o1 → handler (envs n) x o1 = (o2, Ok tt) → handed o (xs ++ [x]) o2.

(** The same, when it may have refused the last one. *)
Definition handedUpTo (o : O) (xs : list (ExportedEvent V)) (o' : O) : Prop :=
  handed o xs o' ∨
  ∃ ys x n o1 err, xs = ys ++ [x] ∧ handed o ys o1 ∧ handler (envs n) x o1 = (o', Err err).

Lemma hand_steady x acc w w' r : hand envs handler x acc w = (w', r) → steady w w'.
Proof. apply withOut_steady. Qed.

Lemma hand_hands o x xs acc w w' r :
  handed o xs (sw_out w) → hand envs handler x acc w = (w', r) →
  match r with Ok _ => handed o (xs ++ [x]) (sw_out w') | Err _ => handedUpTo o (xs ++ [x]) (sw_out w') end.
Proof.
  unfold hand, withOut. intros Ho E. destruct (handler _ _ _) as [o2 r2] eqn:Eh. injection E as <- <-. cbn. destruct r2 as [[]|err].
  - by econstructor.
  - right. by eexists _, _, _, _, _.
Qed.

(** C12: a streaming export of named streams, without a filter of its own, hands
    the application, whatever the outcome, only events of those streams that
    attribution during the export gave to the subject or to nobody; when it
    succeeds it handed over, stream after stream and in the order of each, every
    one of them but those attributed to others only and those outside the time
    window.  (A filter of the request replaces this confinement.) *)
Theorem export_stream_confined fuel (req : ExportRequest A P Ser X O) w w' r :
  xq_SubjectID req ≠ "" → xq_Streams req ≠ [] → xq_Filter req = None → el_wf (adapter w) →
  ExportStream envs others c scannable e marshalEvent handler fuel req w = (w', r) →
  let window := inWindow (xq_FromTime req) (xq_ToTime req) in
  let kept se := window se ∧
    attributedIn (exportTagger e) w w' se (λ a, attributed a = false ∨ attributedTo a (xq_SubjectID req) = true) in
  let dropped se := ¬ window se ∨ attributedIn (exportTagger e) w w' se (othersOnly (xq_SubjectID req)) in
  ∃ xs, handedUpTo (sw_out w) xs (sw_out w') ∧
    (∀ x, x ∈ xs → ∃ se, se ∈ logged w' ∧ se_StreamID se ∈ xq_Streams req ∧ kept se ∧ described w w' se x) ∧
    (is_ok r = true → handed (sw_out w) xs (sw_out w') ∧
       ∃ loads, Forall2 (loaded w w') (xq_Streams req) loads ∧ exports kept dropped (described w w') (concat loads) xs).
Proof.
  intros Hsubj Hne Hf Hwf E window kept dropped. unfold ExportStream in E. rewrite bool_decide_false in E by done.
  assert (requestResolver e req = None) as Hr by (unfold requestResolver; by destruct (xq_Streams req)).
  assert (validateRequest req = None) as Hv.
  { unfold validateRequest. rewrite bool_decide_false by done. by destruct (xq_Streams req). }
  rewrite Hr, Hv, processEvents_streams in E by done. unfold effectiveFilter in E. rewrite Hf in E.
  assert (sound w w ∅) as Hc by (intros key b; by rewrite lookup_empty).
  destruct (exportFromStreams_spec w (hand envs handler) (λ xs _ o, handed (sw_out w) xs o) (handedUpTo (sw_out w))
    (λ xs _ o Ho, or_introl Ho) hand_steady (hand_hands (sw_out w))
    (withFilter (subjectOrUnattributableFilter envs c e (xq_SubjectID req)) req) _ _ _ eq_refl
    (unattributable_selects w (xq_SubjectID req)) (attributedIn_stays _ _ _) (attributedIn_stays _ _ _)
    _ ∅ _ [] _ _ _ ltac:(reflexivity) Hc Hwf (handed_nil _) E) as [Hs Hres].
  destruct r as [[]|err]; cbn [app] in Hres.
  - destruct Hres as (loads & xs & Hld & Hxs & Ho). exists xs. split; [by left|]. split; [|intros _; split; [done|by exists loads]].
    intros x Hx. destruct (exports_sources _ _ _ Hxs Hx) as (se & Hse & Hk & Hd). exists se.
    by destruct (loads_in _ _ _ _ _ Hld Hse).
  - destruct Hres as (pre & xs & Hpre & Hxs & Ho). exists xs. split; [done|]. split; [|done]. intros x Hx.
    destruct (exports_sources _ _ _ Hxs Hx) as (se & Hse & Hk & Hd). exists se. destruct (Hpre se Hse). done.
Qed.
End Streaming.

(** *** Shredded keys *)

(** An event under a key that was gone is redacted, when no handler swallows the
    failure to decrypt it. *)
Lemma described_gone w w' se x enc :
  es_encryption c = Some enc → fe_onDecryptionError enc = None → HasEncryptionEnvelope (se_Metadata se) = true →
  rv_gone (now envs w) (GetEncryptionKeyID (se_Metadata se)) (provider w) → described w w' se x → x = redact se.
Proof.
  intros Henc Hh Henv Hgone [[-> _]|(v & ev & [Ht Hr] & _ & Hd & _)]; [done|]. exfalso. unfold opens in Hd.
  eapply (reads_gone (now envs w) (now envs v)) in Hgone; [|done|exact Hr].
  assert (IsEncrypted (se_Metadata se) = true) as Hie by (unfold HasEncryptionEnvelope in Henv; zbool; done).
  assert (∃ d, (decryptFields (now envs v) enc (se_StreamID se) (se_Type se) (se_Data se) (se_Metadata se) (provider v)).2 = Ok d)
    as [d Hdec].
  { revert Hd. unfold deserializeWithUpcast. rewrite Henc, Hie. cbn [negb andb].
    destruct (decryptFields _ _ _ _ _ _ _) as [p1 [d|err]]; cbn; [by exists d|done]. }
  revert Hdec. unfold decryptFields. rewrite Hie, Hh. cbn [negb]. repeat (case_match; [done|]).
  all: repeat case_match; cbn; try done. all: intros _.
  all: match goal with E : DecryptDataKey _ _ ?ct _ = (_, Ok ?dek) |- _ =>
    apply (gone_unwraps (now envs w) (now envs v) (GetEncryptionKeyID (se_Metadata se)) ct dek (provider v));
      [done|done|unfold unwraps; by rewrite E] end.
Qed.

(** The events of an export are described. *)
Lemma Export_described fuel (req : ExportRequest A P Ser X O) w w' r :
  (∀ f, xq_Filter req = Some f → leavesBe f) → el_wf (adapter w) →
  Export envs others c scannable e marshalEvent fuel req w = (w', Ok r) →
  steady w w' ∧ ∀ x, x ∈ xr_Events r → ∃ se, se ∈ logged w' ∧ described w w' se x.
Proof.
  intros Hf Hwf E. unfold Export in E. destruct (bool_decide _) eqn:Esubj; [done|].
  destruct (requestResolver e req) as [resolver|] eqn:Hreq.
  - destruct (Resolve _ _ _ _ _ _ _ _) as [w1 [fp|err]] eqn:Er; [|done]. apply Resolve_quiet in Er as [Hs1 _].
    destruct (fp_Streams fp) as [|s streams].
    { injection E as <- <-. split; [etransitivity; [exact Hs1|apply step_quiet]|]. by intros x ?%not_elem_of_nil. }
    eapply (exportCollected_described w) in E as [Hs2 Hd]; [|done| | |by eapply steady_wf].
    + split; [by transitivity w1|done].
    + unfold validateRequest. cbn. by rewrite Esubj.
    + intros f [= <-]. apply attributedTo_leavesBe.
  - destruct (validateRequest req) eqn:Hv; [done|]. by eapply (exportCollected_described w) in E; [|reflexivity|..].
Qed.

(** C13: an export never hands out what was shredded: whether of named streams,
    of a resolved footprint or of the whole log, of an event whose master key
    was gone for good when the export began it holds the stored bytes only,
    marked as redacted, unless the store has a handler that swallows the failure
    to decrypt.  The filter of the request, if it has one, must change nothing
    of the store. *)
Theorem export_redacts_shredded fuel (req : ExportRequest A P Ser X O) enc w w' r :
  (∀ f, xq_Filter req = Some f → leavesBe f) → el_wf (adapter w) →
  es_encryption c = Some enc → fe_onDecryptionError enc = None →
  Export envs others c scannable e marshalEvent fuel req w = (w', Ok r) →
  ∀ x, x ∈ xr_Events r →
    (∃ se, se ∈ logged w' ∧ described w w' se x) ∧
    ∀ se, se ∈ logged w' → x_GlobalPosition x = se_GlobalPosition se → HasEncryptionEnvelope (se_Metadata se) = true →
      rv_gone (now envs w) (GetEncryptionKeyID (se_Metadata se)) (provider w) → x = redact se.
Proof.
  intros Hf Hwf Henc Hh E x Hx. destruct (Export_described _ _ _ _ _ Hf Hwf E) as [Hs Hd].
  split; [by apply Hd|]. intros se Hse Hpos Henv Hgone. destruct (Hd x Hx) as (se' & Hse' & Hd').
  assert (se' = se) as ->; [|by eapply described_gone].
  apply (increasing_inj se_GlobalPosition (logged w')); [by apply el_positions, (steady_wf w)|done..|].
  apply described_source in Hd' as (_ & _ & _ & E' & _). congruence.
Qed.
End Exporting.

(** ** Concrete exports *)

#[local] Existing Instance toyAEAD.
#[local] Existing Instance toyAEAD_laws.
#[local] Existing Instance listOrder.
#[local] Existing Instance sampleSerializer.
#[local] Existing Instance sampleLog.
#[local] Existing Instance sampleLog_laws.
#[local] Existing Instance sampleIndex.

(** A tagged event is attributed to its tags. *)
Lemma tagged_attributed c tagger se subj (P : Type) `{ProviderOps P} :
  subj ∈ GetSubjectTags (se_Metadata se) → ¬ attributable (P := P) c tagger se (λ a, attributedTo a subj = false).
Proof.
  intros Hin (t & p & Ht). eapply (tagged_not_others c tagger se subj P Hin). exists t, p. split; [|exact Ht].
  unfold attributeSubjects. destruct (GetSubjectTags _); [by apply not_elem_of_nil in Hin|done].
Qed.

Definition sampleMarshal (v : SampleEvent) : option Bytes :=
  match sampleSerialize v with Ok d => Some d | Err _ => None end.

Definition sampleExporter : DataExporter (list string) :=
  WithExportSubjectResolver (Some (WithResolverBatchSize 2 NewSubjectResolver)) NewDataExporter.

Definition exportOf (c : EventStore) (req : ExportRequest MemoryAdapter Provider (list string) (list (string * list string)) (list string)) w :=
  Export calmEnvs noWriters c true sampleExporter sampleMarshal 5 req w.

(** The streams, what is redacted and the plaintexts of the events. *)
Definition outline (r : res (ExportResult SampleEvent)) : option (list (string * bool * option string) * Z * Z * bool) :=
  match r with
  | Ok r => Some ((λ x, (x_StreamID x, x_Redacted x, sv_email <$> x_Data x)) <$> xr_Events r,
                  xr_TotalEvents r, xr_RedactedCount r, xr_Partial r)
  | Err _ => None
  end.

Definition subjectRequest : ExportRequest MemoryAdapter Provider (list string) (list (string * list string)) (list string) :=
  mkExportRequest "user-7" [] None None None.

Definition subjectExport := exportOf erasureConfig subjectRequest erasureWorld.

Definition subjectResult : ExportResult SampleEvent :=
  match subjectExport.2 with Ok r => r | Err _ => mkExportResult "" [] [] 0 0 0 true end.

Lemma subjectExport_result : subjectExport = (subjectExport.1, Ok subjectResult).
Proof. vm_compute. reflexivity. Qed.

(** Of the two events of the shared stream only the subject's is exported. *)
Lemma export_subject_exact_witness :
  outline subjectExport.2 = Some ([("User-7", false, Some "a@b.c")], 1, 0, false) ∧
  ∃ x, x ∈ xr_Events subjectResult ∧ x_GlobalPosition x = se_GlobalPosition firstLogged.
Proof.
  split; [vm_compute; reflexivity|].
  destruct (export_subject_exact calmEnvs noWriters calm_clock noWriters_append calm_law erasureConfig true sampleExporter
    sampleMarshal 5 subjectRequest (WithResolverBatchSize 2 NewSubjectResolver) erasureWorld subjectExport.1 subjectResult
    eq_refl erasureStore_wf erasureWorld_room subjectExport_result) as (_ & _ & _ & Hall & _).
  destruct (Hall firstLogged firstLogged_in) as [(x & Hx & Hd)|Ha].
  - split; intros ? [=].
  - exact Logic.I.
  - exists x. split; [exact Hx|]. by apply described_source in Hd as (_ & _ & _ & ? & _).
  - exfalso. apply (tagged_attributed erasureConfig None firstLogged "user-7" Provider).
    + rewrite firstLogged_tags. by left.
    + by eapply attributedIn_attributable.
Defined.

(** Once its key is revoked the event is exported redacted. *)
Definition shreddedExport := exportOf erasureConfig subjectRequest revokedWorld.

Definition shreddedResult : ExportResult SampleEvent :=
  match shreddedExport.2 with Ok r => r | Err _ => mkExportResult "" [] [] 0 0 0 true end.

Lemma shreddedExport_result : shreddedExport = (shreddedExport.1, Ok shreddedResult).
Proof. vm_compute. reflexivity. Qed.

Definition shreddedEvent : ExportedEvent SampleEvent :=
  match xr_Events shreddedResult with x :: _ => x | [] => redact firstLogged end.

Lemma shreddedEvent_exported : shreddedEvent ∈ xr_Events shreddedResult.
Proof. assert (xr_Events shreddedResult = [shreddedEvent]) as -> by (vm_compute; reflexivity). by left. Qed.

Lemma shreddedExport_log : firstLogged ∈ logged shreddedExport.1.
Proof.
  destruct (Export_described calmEnvs noWriters calm_clock noWriters_append calm_law erasureConfig true sampleExporter
    sampleMarshal 5 subjectRequest revokedWorld shreddedExport.1 shreddedResult
    ltac:(done) revokedWorld_wf shreddedExport_result) as [[Hm _] _].
  by apply (moved_logged calmEnvs revokedWorld); [|exact revokedWorld_wf|exact firstLogged_revoked].
Qed.

Lemma export_redacts_shredded_witness : shreddedEvent = redact firstLogged.
Proof.
  apply (export_redacts_shredded calmEnvs noWriters calm_clock noWriters_append calm_law erasureConfig true sampleExporter
    sampleMarshal 5 subjectRequest
    (NewFieldEncryptionConfig
       [WithEncryptionProvider; WithTenantKeyResolver (λ tenant, tenant); WithEncryptedFields "UserRegistered" ["email"]])
    revokedWorld shreddedExport.1 shreddedResult).
  - intros f [=].
  - exact revokedWorld_wf.
  - reflexivity.
  - reflexivity.
  - exact shreddedExport_result.
  - exact shreddedEvent_exported.
  - exact shreddedExport_log.
  - vm_compute. reflexivity.
  - vm_compute. reflexivity.
  - right; left. vm_compute. reflexivity.
Defined.

(** A streaming export of the shared stream to a handler that notes addresses. *)
Definition noting (_ : Env) (x : ExportedEvent SampleEvent) : op (list string) error unit := λ o,
  (o ++ [default "" (sv_email <$> x_Data x)], Ok tt).

Definition streamRequest : ExportRequest MemoryAdapter Provider (list string) (list (string * list string)) (list string) :=
  mkExportRequest "user-7" ["User-7"] None None None.

Definition streamExport :=
  ExportStream calmEnvs noWriters erasureConfig true sampleExporter sampleMarshal noting 5 streamRequest erasureWorld.

Lemma streamExport_result : streamExport = (streamExport.1, Ok tt).
Proof. vm_compute. reflexivity. Qed.

Lemma export_stream_confined_witness :
  sw_out streamExport.1 = ["a@b.c"] ∧
  ∃ xs, handed calmEnvs noting [] xs (sw_out streamExport.1) ∧ ∀ x, x ∈ xs → x_StreamID x = "User-7".
Proof.
  split; [vm_compute; reflexivity|].
  destruct (export_stream_confined calmEnvs noWriters calm_clock noWriters_append calm_law erasureConfig true sampleExporter
    sampleMarshal noting 5 streamRequest erasureWorld streamExport.1 (Ok tt) ltac:(discriminate) ltac:(discriminate) eq_refl
    erasureStore_wf streamExport_result) as (xs & _ & Hconf & Hok).
  exists xs. destruct (Hok eq_refl) as [Hh _]. split; [exact Hh|]. intros x Hx.
  destruct (Hconf x Hx) as (se & _ & Hsid & _ & Hd). apply described_source in Hd as (-> & _).
  by apply list_elem_of_singleton in Hsid.
Defined.

(** With a handler that swallows decryption errors, an event whose key the
    provider does not have is exported as if it had been read: what stands for
    the address is ciphertext. *)
Definition swallowingConfig : EventStore :=
  mkEventStore (Some (NewFieldEncryptionConfig
                  [WithEncryptionProvider; WithTenantKeyResolver (λ tenant, tenant); WithEncryptedFields "UserRegistered" ["email"];
                   WithDecryptionErrorHandler (λ _ _ _, None)]))
    10000 None false false false true true None.

Example swallowed_error_exports_ciphertext :
  match (exportOf swallowingConfig subjectRequest (withProviderState New erasureWorld)).2 with
  | Ok r => (λ x, (x_Redacted x, bool_decide (sv_email <$> x_Data x = Some "a@b.c"))) <$> xr_Events r = [(false, false)] ∧ xr_RedactedCount r = 0
  | Err _ => False
  end.
Proof. vm_compute. done. Qed.

(** A filtered scan redacts what was shredded just as well, and only that: the
    second event is under the key of another tenant. *)
Example filtered_scan_redacts :
  outline (exportOf erasureConfig (mkExportRequest "user-7" [] (Some (FilterByStreams ["User-7"])) None None) revokedWorld).2 =
  Some ([("User-7", true, None); ("User-7", false, Some "a@b.c")], 2, 1, false).
Proof. vm_compute. reflexivity. Qed.

(** A scan exports in the order of the log, not stream by stream. *)
Example scan_exports_in_log_order :
  (λ '(events, _, _, _), events.*1.*1) <$>
  outline (exportOf erasureConfig (mkExportRequest "user-7" [] (Some (filterFunc (λ _, true))) None None) erasureWorld).2 =
  Some ["User-7"; "User-8"; "User-7"].
Proof. vm_compute. reflexivity. Qed.
