(* ===== verification/KeyLifecycle.v ===== *)
(** * Re-encryption, pseudonyms and the upcasting serializer

    [src/keylifecycle.go]: copying a stream under the store's current keys.
    Between two calls of the store the world may change ([others]).
    [src/anonymize.go]: pseudonyms by HMAC-SHA256.
    [src/upcasting_serializer.go]: a serializer behind an upcaster chain. *)

From S2P Require Import Prelude.
From S2P Require Import Sha256.
From S2P Require Import Strconv.
From S2P Require Import Types.
From S2P Require Import Common.
From S2P Require Import Crypto.
From S2P Require Import FieldEncryption.
From S2P Require Import Versioning.
From S2P Require Import MemoryAdmin.
From S2P Require Import EventLog.
From S2P Require Import EventStore.
From S2P Require Import SubjectResolver.

(** ** Re-encryption *)

Section ReEncrypt.
Context {A P V Ser X : Type}.
Context `{AEAD} `{EventLogOps A} `{ProviderOps P} `{SerializerOps V Ser} `{SubjectIndexWriter X} `{MapOrder}.
Context (c : EventStore) (envs : nat → StoreEnv) (others : nat → Store A P Ser X → Store A P Ser X).
Implicit Types s : Store A P Ser X.

Definition oldKeySet (events : list (Event V)) : nameSet :=
  foldl (λ oldSet ev,
    let k := GetEncryptionKeyID (ev_Metadata ev) in if bool_decide (k = "") then oldSet else <[k := tt]> oldSet) ∅ events.

(** The metadata of a copy. *)
Definition copyMetadata (upcasters : option UpcasterChain) (ev : Event V) : Metadata :=
  let md := SanitizeReservedMetadata (ev_Metadata ev) in
  match upcasters with
  | Some chain =>
      if HasUpcasters chain (ev_Type ev) then SetSchemaVersion md (LatestVersion chain (ev_Type ev)) else md
  | None => md
  end.

(** The loop: how many events were copied, and the error that stopped it. *)
Fixpoint copyEvents (dstStreamID : string) (i : nat) (events : list (Event V)) s : Store A P Ser X * (Z * option error) :=
  match events with
  | [] => (s, (Z.of_nat i, None))
  | ev :: events =>
      if bool_decide (ser_GetEventType (ev_Data ev) = "") then
        (s, (Z.of_nat i, Some (Errorf "mink: ReEncryptStream: cannot derive a Go event type for event %d of stream %q (stored type %q, version %d) — register the event type (RegisterEvents) before re-encrypting")))
      else
        let md := copyMetadata (st_upcasters s) ev in
        match Append c (envs (S i)) dstStreamID [ev_Data ev] (mkAppendConfig md (Z.of_nat i) true) (others (S i) s) with
        | (s, Err err) => (s, (Z.of_nat i, Some err))
        | (s, Ok _) => copyEvents dstStreamID (S i) events s
        end
  end.

(** The number of copies, the old keys and the error. *)
Definition ReEncryptStream (srcStreamID dstStreamID : string) s : Store A P Ser X * (Z * list string * option error) :=
  if bool_decide (srcStreamID = "") || bool_decide (dstStreamID = "") then (s, (0, [], Some ErrEmptyStreamID))
  else
    match Load c (envs 0%nat) srcStreamID (others 0%nat s) with
    | (s, Err err) => (s, (0, [], Some err))
    | (s, Ok events) =>
        let '(s, (copied, err)) := copyEvents dstStreamID 0 events s in
        (s, (copied, sortedSet (oldKeySet events), err))
    end.
End ReEncrypt.

(** ** Pseudonyms *)

(** [hmac.New(sha256.New, key)] over the whole message. *)
Definition hmacSum (key msg : list Z) : list Z :=
  let key := if 64 <? Z.of_nat (length key) then Sum256 key else key in
  let key := key ++ repeat 0 (64 - length key)%nat in
  Sum256 ((Z.lxor 92 <$> key) ++ Sum256 ((Z.lxor 54 <$> key) ++ msg)).

Record Anonymizer := mkAnonymizer { an_secret : list Z; an_prefix : string; an_length : Z }.

Inductive AnonymizerOption := WithPseudonymPrefix (prefix : string) | WithPseudonymLength (n : Z).

Definition applyAnonymizerOption (a : Anonymizer) (o : AnonymizerOption) : Anonymizer :=
  match o with
  | WithPseudonymPrefix prefix => mkAnonymizer (an_secret a) prefix (an_length a)
  | WithPseudonymLength n => mkAnonymizer (an_secret a) (an_prefix a) n
  end.

Definition NewAnonymizer (secret : list Z) (opts : list AnonymizerOption) : Anonymizer :=
  foldl applyAnonymizerOption (mkAnonymizer secret "" 32) opts.

Definition ErrAnonymizerSecretRequired : error :=
  Errorf "mink: anonymizer secret is required; an empty secret degrades HMAC to an unkeyed hash and makes pseudonyms re-identifiable".

(** The receiver may be nil. *)
Definition Anonymizer_Validate (a : option Anonymizer) : option error :=
  match a with
  | None => Some ErrAnonymizerSecretRequired
  | Some a => if bool_decide (length (an_secret a) = 0%nat) then Some ErrAnonymizerSecretRequired else None
  end.

Definition Pseudonymize (a : Anonymizer) (scope value : string) : string :=
  let sum := EncodeToString (hmacSum (an_secret a) (bytesOf scope ++ [0] ++ bytesOf value)) in
  let sum :=
    if (0 <? an_length a) && (an_length a <? Z.of_nat (String.length sum))
    then String.substring 0 (Z.to_nat (an_length a)) sum else sum in
  an_prefix a +:+ sum.

(** The second case of RFC 4231. *)
Example hmac_rfc4231 :
  EncodeToString (hmacSum (bytesOf "Jefe") (bytesOf "what do ya want for nothing?")) =
  "5bdcc146bf60754e6a042426089575c75a003f089d2739839dec58b964ec3843".
Proof. vm_compute. reflexivity. Qed.

(** The scope is separated from the value by a zero byte, which a scope may
    contain. *)
Example scopes_may_collide :
  let a := NewAnonymizer (bytesOf "secret") [] in
  Pseudonymize a (String "a" (String "000" "b")) "c" = Pseudonymize a "a" (String "b" (String "000" "c")).
Proof. vm_compute. reflexivity. Qed.

Lemma hmacSum_length key msg : length (hmacSum key msg) = 32%nat.
Proof. apply Sum256_length. Qed.

Lemma substring_prefix_length n s : (n ≤ String.length s)%nat → String.length (String.substring 0 n s) = n.
Proof.
  revert n. induction s as [|a s IH]; intros [|n] Hn; cbn in *; try done; try lia. f_equal. apply IH. lia.
Qed.

(** A pseudonym shows the prefix and as many digits as were asked for, whatever
    the value. *)
Lemma Pseudonymize_length a scope value :
  Z.of_nat (String.length (Pseudonymize a scope value)) =
  Z.of_nat (String.length (an_prefix a)) + (if (0 <? an_length a) && (an_length a <? 64) then an_length a else 64).
Proof.
  unfold Pseudonymize. rewrite length_append, EncodeToString_length, hmacSum_length. cbn [Nat.mul Nat.add].
  change (Z.of_nat 64) with 64. destruct ((0 <? an_length a) && (an_length a <? 64)) eqn:E.
  - zbool. rewrite substring_prefix_length; [lia|]. rewrite EncodeToString_length, hmacSum_length. lia.
  - rewrite EncodeToString_length, hmacSum_length. lia.
Qed.

(** ** The upcasting serializer *)

Section Upcasting.
Context {V Ser : Type} `{SerializerOps V Ser}.

Record UpcastingSerializer := mkUpcastingSerializer { us_inner : Ser; us_chain : option UpcasterChain }.

Definition upcasting_Serialize (event : V) (s : UpcastingSerializer) : res Bytes := ser_Serialize event (us_inner s).

Definition DeserializeWithVersion (data : Bytes) (eventType : string) (schemaVersion : Z) (metadata : Metadata)
    (s : UpcastingSerializer) : res V :=
  match us_chain s with
  | Some chain =>
      if HasUpcasters chain eventType then
        match (Upcast chain eventType schemaVersion data metadata).2 with
        | Err err => Err err
        | Ok data => ser_Deserialize data eventType (us_inner s)
        end
      else ser_Deserialize data eventType (us_inner s)
  | None => ser_Deserialize data eventType (us_inner s)
  end.

Definition upcasting_Deserialize (data : Bytes) (eventType : string) (s : UpcastingSerializer) : res V :=
  DeserializeWithVersion data eventType DefaultSchemaVersion emptyMetadata s.

(** Neither registers events nor tells a fallback from an event; the formats
    are those of the inner serializer. *)
#[export] Instance upcastingSerializer : SerializerOps V UpcastingSerializer := {|
  ser_GetEventType := ser_GetEventType;
  ser_Serialize := upcasting_Serialize;
  ser_Deserialize := upcasting_Deserialize;
  ser_RegisterAll _ s := (s, Ok tt);
  ser_IsRegistered := None;
  ser_isMap := ser_isMap;
  ser_BinaryFormat := ser_BinaryFormat;
|}.
End Upcasting.
