(* ===== verification/KeyLifecycleTheorems.v ===== *)
(** * What re-encryption preserves

    [ReEncryptStream] over the store as streams of typed events, while other
    writers append. *)

From S2P Require Import Prelude.
From S2P Require Import Types.
From S2P Require Import Common.
From S2P Require Import Utf8.
From S2P Require Import Crypto.
From S2P Require Import LocalProvider.
From S2P Require Import Subject.
From S2P Require Import FieldEncryption.
From S2P Require Import FieldTheorems.
From S2P Require Import MemoryAdapter.
From S2P Require Import MemoryAdmin.
From S2P Require Import LogInvariant.
From S2P Require Import MemoryTheorems.
From S2P Require Import Versioning.
From S2P Require Import EventLog.
From S2P Require Import EventStore.
From S2P Require Import StoreRefinement.
From S2P Require Import StoreTheorems.
From S2P Require Import SubjectResolver.
From S2P Require Import ErasureSafety.
From S2P Require Import KeyLifecycle.

Section Theorems.
Context {A P V Ser X : Type}.
Context `{AEADLaws} `{ProviderOps P} `{!ProviderLaws P} `{!ProviderStable P}.
Context `{EventLogOps A} `{!EventLogLaws A} `{SerializerOps V Ser} `{!SerializerLaws V Ser}.
Context `{SubjectIndexWriter X} `{MapOrder}.
Context (c : EventStore) (opts : option (list EncryptionOption)).
Context (configured : es_encryption c = NewFieldEncryptionConfig <$> opts) (guarded : es_callerSchemaVersion c = false).
Implicit Types s : Store A P Ser X.

(** A copy is stamped with the version its data was upcast to. *)
Lemma copy_versioned up (ev : Event V) :
  ev_Type ev = ser_GetEventType (ev_Data ev) → versioned c up true (copyMetadata up ev) (ev_Data ev).
Proof using.
  intros Ht ch d -> Hch. unfold stampMetadata. cbn [negb ed_Type ed_Metadata]. rewrite subjectPolicy_lookup by done.
  rewrite sanitized_reserved, decide_False by (by apply (bool_decide_unpack _)).
  unfold copyMetadata, SetSchemaVersion. rewrite Ht, Hch. by rewrite custom_lookup_WithCustom, decide_True.
Qed.

(** ** Other writers *)

Lemma runAppends_log (calls : list (appendCall V)) s m :
  Forall (call_ok (st_serializer s)) calls → represents c s m →
  Z.of_nat (length (store_log s) + offered calls) ≤ MaxInt64 →
  same_setup s (runAppends c calls s).1 ∧ (length (store_log (runAppends c calls s).1) ≤ length (store_log s) + offered calls)%nat.
Proof using configured guarded H0 ProviderLaws0.
  revert s m. induction calls as [|call calls IH]; intros s m Hok Hm Hfit; cbn [runAppends]; [by split; [|cbn; lia]|].
  unfold offered in *. cbn [map sum_list_with foldr] in *. apply Forall_cons in Hok as [(Hk & Ht & He) Hok].
  destruct (Append _ _ _ _ _ s) as [s1 r] eqn:Ea.
  eapply Append_represents in Ea as (Hm1 & Hs1 & _ & Hl1); [|done..|cbn in Hfit; lia]. pose proof Hs1 as (E1 & E2 & E3).
  destruct (runAppends c calls s1) as [s2 rs2] eqn:Er. cbn [fst].
  destruct (IH s1 _ ltac:(by rewrite E1) Hm1) as [(E4 & E5 & E6) Hl2]; [cbn in Hfit; destruct r; lia|]. rewrite Er in *. cbn in *.
  split; [unfold same_setup; by rewrite E4, E5, E6|]. destruct r; lia.
Qed.

(** Before the [n]-th call of the re-encryption other writers make [calls n]. *)
Context (calls : nat → list (appendCall V)) (envs : nat → StoreEnv).
Context (entropies : ∀ n i, entropy_ok (se_entropy (envs n) i)).

Definition writers (n : nat) s : Store A P Ser X := (runAppends c (calls n) s).1.

(** An event one of them offers to a stream. *)
Definition foreignTo (sid : string) (v : V) : Prop :=
  ∃ n call, call ∈ calls n ∧ call_stream call = sid ∧ v ∈ call_events call.

(** A stream only they wrote to. *)
Definition grown (sid : string) (vs vs' : list V) : Prop := ∃ fs, vs' = vs ++ fs ∧ Forall (foreignTo sid) fs.

Lemma grown_refl sid vs : grown sid vs vs.
Proof using. exists []. by rewrite app_nil_r. Qed.

Lemma grown_trans sid vs1 vs2 vs3 : grown sid vs1 vs2 → grown sid vs2 vs3 → grown sid vs1 vs3.
Proof using.
  intros (f1 & -> & Hf1) (f2 & -> & Hf2). exists (f1 ++ f2). split; [by rewrite app_assoc|]. by apply Forall_app.
Qed.

Lemma grown_prefix sid vs vs' : grown sid vs vs' → vs `prefix_of` vs'.
Proof using. intros (? & -> & _). by apply prefix_app_r. Qed.

Lemma accepted_foreign n sid rs : Forall (foreignTo sid) (accepted sid (calls n) rs).
Proof using.
  assert (∀ cs, cs ⊆ calls n → Forall (foreignTo sid) (accepted sid cs rs)) as Hx; [|by apply Hx].
  intros cs. revert rs. induction cs as [|call cs IH]; intros [|r rs] Hs; cbn [accepted]; try done.
  apply Forall_app. split; [|apply IH; intros x Hx; apply Hs; by right].
  destruct (is_ok r && bool_decide (call_stream call = sid)) eqn:E; [|done].
  apply andb_true_iff in E as [_ E]. zbool. apply Forall_forall. intros v Hv.
  exists n, call. split; [apply Hs; by left|done].
Qed.

(** How many events they write before the [n]-th call. *)
Fixpoint written (n : nat) : nat := match n with O => 0%nat | S n => (written n + offered (calls n))%nat end.

Lemma written_le i j : (i ≤ j)%nat → (written i ≤ written j)%nat.
Proof. induction 1; cbn; lia. Qed.

Lemma writers_append n s m :
  Forall (call_ok (st_serializer s)) (calls n) → represents c s m →
  Z.of_nat (length (store_log s) + offered (calls n)) ≤ MaxInt64 →
  ∃ m', represents c (writers n s) m' ∧ (∀ sid, grown sid (m sid) (m' sid)) ∧ same_setup s (writers n s) ∧
    store_closed (writers n s) = store_closed s ∧
    (length (store_log (writers n s)) ≤ length (store_log s) + offered (calls n))%nat.
Proof using configured guarded H0 ProviderLaws0.
  intros Hok Hm Hfit. unfold writers. destruct (runAppends_log _ _ _ Hok Hm Hfit) as [Hs Hl].
  destruct (runAppends c (calls n) s) as [s' rs] eqn:E.
  destruct (runAppends_represents c opts _ _ _ _ _ configured guarded Hok Hm Hfit E) as (Hm' & Hc & _).
  eexists. split; [exact Hm'|]. split; [|done]. intros sid. eexists. split; [done|]. apply accepted_foreign.
Qed.

(** ** The loop *)

(** An event as [Load] returns it: known to the serializer, under its own type. *)
Definition loaded_event (ser : Ser) (ev : Event V) : Prop :=
  ser_known ser (ev_Data ev) ∧ ev_Type ev = ser_GetEventType (ev_Data ev).

(** What a run that copied [vs] to a stream that held [prior] made of the
    streams [m]: it stopped after [k] copies, and only then did another writer
    write to the destination. *)
Definition copies (dst : string) (prior vs : list V) (m m' : string → list V) (copied : Z) (err : option error) : Prop :=
  (∀ sid, sid ≠ dst → grown sid (m sid) (m' sid)) ∧
  ∃ k, copied = Z.of_nat (length prior + k) ∧ (if err then (k < length vs)%nat else k = length vs) ∧
    ((0 < k)%nat → m dst = prior) ∧ grown dst (m dst ++ take k vs) (m' dst) ∧
    (err = None → m dst = prior → m' dst = prior ++ vs).

Lemma copies_stop dst prior v vs m m' err :
  (∀ sid, grown sid (m sid) (m' sid)) → copies dst prior (v :: vs) m m' (Z.of_nat (length prior)) (Some err).
Proof using.
  intros Hp. split; [done|]. exists 0%nat. split; [lia|]. split; [cbn; lia|]. split; [lia|].
  split; [|done]. rewrite take_0, app_nil_r. apply Hp.
Qed.

Lemma copies_step dst prior v vs m m1 m' copied err :
  prior `prefix_of` m dst → (∀ sid, grown sid (m sid) (m1 sid)) → m1 dst = prior →
  copies dst (prior ++ [v]) vs (extend dst [v] m1) m' copied err →
  copies dst prior (v :: vs) m m' copied err.
Proof using.
  intros Hpre Hm1 Hd (Hp & k & -> & Hk & _ & Hg & Hdone).
  assert (m dst = prior) as Hmd.
  { specialize (Hm1 dst). rewrite Hd in Hm1. apply grown_prefix in Hm1. apply prefix_length_eq; [done|by apply prefix_length]. }
  unfold extend in Hp, Hg. rewrite decide_True in Hg by done. rewrite Hd, <- app_assoc in Hg.
  split.
  { intros sid Hs. specialize (Hp sid Hs). rewrite decide_False in Hp by done. by eapply grown_trans. }
  exists (S k). rewrite length_app. cbn [length take].
  split; [lia|]. split; [by destruct err; lia|]. split; [done|]. split; [by rewrite Hmd|].
  intros He _. rewrite (Hdone He); [by rewrite <- app_assoc|]. unfold extend. by rewrite decide_True, Hd.
Qed.

Lemma copyEvents_spec dst N i events s s' copied err m prior :
  Forall (loaded_event (st_serializer s)) events → (∀ n, Forall (call_ok (st_serializer s)) (calls n)) →
  represents c s m → prior `prefix_of` m dst → length prior = i → (i + length events ≤ N)%nat →
  (∀ n, (i ≤ n < N)%nat → Z.of_nat (length (store_log s) + (written (S (S n)) - written (S i)) + (S n - i)) ≤ MaxInt64) →
  copyEvents c envs writers dst i events s = (s', (copied, err)) →
  ∃ m', represents c s' m' ∧ copies dst prior (ev_Data <$> events) m m' copied err.
Proof using configured guarded H0 ProviderLaws0 entropies.
  revert i s m prior. induction events as [|ev events IH]; intros i s m prior Hev Hcalls Hm Hpre Hi HN Hfit E; cbn [copyEvents] in E.
  { injection E as <- <- <-. exists m. split; [done|]. split; [intros; apply grown_refl|]. exists 0%nat. split; [lia|]. split; [done|].
    split; [lia|]. cbn. rewrite app_nil_r. split; [apply grown_refl|]. intros _ ->. by rewrite app_nil_r. }
  destruct (bool_decide _).
  { injection E as <- <- <-. exists m. split; [done|]. rewrite <- Hi. apply copies_stop. intros; apply grown_refl. }
  apply Forall_cons in Hev as [[Hk Ht] Hev]. pose proof (Hfit i ltac:(cbn in HN; lia)) as Hfiti. cbn [written] in Hfiti.
  destruct (writers_append (S i) s m (Hcalls (S i)) Hm ltac:(lia)) as (m1 & Hm1 & Hp1 & (Es & Eu & _) & _ & Hl1).
  destruct (Append _ _ _ _ _ _) as [s2 r] eqn:Ea.
  eapply (Append_versioned_represents c opts) in Ea as (Hm2 & (Es2 & Eu2 & _) & _ & Hl2 & Hcv);
    [|done|by repeat constructor; cbn; rewrite Eu; apply copy_versioned|done|by repeat constructor; rewrite Es|exact Hm1|cbn [length]; lia].
  destruct r as [[]|err1].
  2: { injection E as <- <- <-. exists m1. split; [done|]. rewrite <- Hi. by apply copies_stop. }
  assert (m1 dst = prior) as Hd.
  { specialize (Hcv eq_refl). cbn [ac_expectedVersion] in Hcv. assert (prior `prefix_of` m1 dst) as Hpm by (etransitivity; [exact Hpre|by eapply grown_prefix]).
    symmetry. apply prefix_length_eq; [done|]. 
    apply CheckVersion_Ok in Hcv as [?|[[_ Hex]|[[? _]|[_ ?]]]]; [unfold AnyVersion in *; lia| |unfold StreamExists in *; lia|lia].
    zbool. rewrite Hex. cbn. lia. }
  edestruct (IH (S i) s2 (extend dst [ev_Data ev] m1) (prior ++ [ev_Data ev])) as (m' & Hm' & Hc); [| |exact Hm2| | | | |exact E|].
  - by rewrite Es2, Es.
  - by rewrite Es2, Es.
  - unfold extend. by rewrite decide_True, Hd.
  - rewrite length_app. cbn. lia.
  - cbn in HN. lia.
  - intros n Hn. specialize (Hfit n ltac:(lia)). cbn [written] in *. pose proof (written_le (S (S i)) (S (S n)) ltac:(lia)) as Hw. cbn [written] in Hw. cbn [length] in Hl2. lia.
  - exists m'. split; [done|]. by eapply copies_step.
Qed.

(** ** The keys *)

Lemma oldKeySet_lookup (events : list (Event V)) k :
  is_Some (oldKeySet events !! k) ↔ k ≠ "" ∧ k ∈ GetEncryptionKeyID ∘ ev_Metadata <$> events.
Proof using.
  unfold oldKeySet. induction events as [|ev events IH] using rev_ind.
  { split; [intros [? Hx]; discriminate Hx|by intros [_ ?%not_elem_of_nil]]. }
  rewrite foldl_snoc, fmap_app, elem_of_app. cbn [fmap list_fmap compose]. rewrite list_elem_of_singleton.
  destruct (bool_decide (GetEncryptionKeyID (ev_Metadata ev) = "")) eqn:E; zbool.
  - rewrite IH, E. naive_solver.
  - etransitivity; [apply lookup_insert_is_Some'|]. rewrite IH. naive_solver.
Qed.

Lemma loaded_events ser up (p : P) stored (vs : list V) :
  Forall2 (reads_back c up ser p) stored vs → Forall (loaded_event ser) (zip_with EventFromStored stored vs).
Proof using. induction 1 as [|e v stored vs (Hk & Ht & _) _ IH]; cbn; constructor; [by split|done]. Qed.

Lemma loaded_keys (stored : list StoredEvent) (vs : list V) :
  length stored = length vs →
  GetEncryptionKeyID ∘ ev_Metadata <$> zip_with EventFromStored stored vs = GetEncryptionKeyID ∘ se_Metadata <$> stored.
Proof using. revert vs. induction stored as [|e stored IH]; intros [|v vs] E; cbn; try done. f_equal. apply IH. by injection E. Qed.

(** C14: re-encrypting a stream copies it and nothing else.  Whatever other
    writers append meanwhile, the events the source held when it was read stay
    in the source; the copies read back as the same events in the same order; an
    error leaves exactly the copies it counts, fewer than the source's events,
    ahead of anything another writer put on the destination (what else a stream
    gained is theirs); and nothing is copied onto a destination that already
    holds events, so a second run fails.  The keys
    returned are those the source's events are sealed under. *)
Theorem reencrypt_copies_stream src dst s s' copied olds err m :
  represents c s m → store_closed s = false → src ≠ "" → dst ≠ "" → check_ctx (se_env (envs 0%nat)) = Ok tt →
  (∀ n, Forall (call_ok (st_serializer s)) (calls n)) →
  (∀ n, Z.of_nat (2 * (length (store_log s) + written n)) ≤ MaxInt64) →
  ReEncryptStream c envs writers src dst s = (s', (copied, olds, err)) →
  ∃ evs m' (k : nat), represents c s' m' ∧ grown src (m src) evs ∧ evs `prefix_of` m' src ∧
    copied = Z.of_nat k ∧ (if err then (k < length evs)%nat else k = length evs) ∧ ((0 < k)%nat → m dst = []) ∧
    grown dst (m dst ++ take k evs) (m' dst) ∧ (∀ sid, sid ≠ dst → grown sid (m sid) (m' sid)) ∧
    (err = None → evs ≠ [] → m' dst = evs) ∧
    ∀ key, key ∈ olds ↔ key ≠ "" ∧
      ∃ e, e ∈ LogSpec.stream src (store_log (writers 0 s)) ∧ GetEncryptionKeyID (se_Metadata e) = key.
Proof using configured guarded H0 ProviderLaws0 entropies.
  intros Hm Hcl Hsrc Hdst Hctx Hcalls Hfit E. unfold ReEncryptStream in E. rewrite !bool_decide_false in E by done. cbn [orb] in E.
  pose proof (Hfit 1%nat) as Hfit1. cbn [written Nat.add] in Hfit1.
  destruct (writers_append 0 s m (Hcalls 0%nat) Hm ltac:(lia)) as (m1 & Hm1 & Hp1 & (Es & Eu & _) & Hc1 & Hl1).
  destruct (LoadFrom_represents c (envs 0%nat) src 0 (writers 0 s) m1 Hm1 Hctx ltac:(by rewrite Hc1) Hsrc ltac:(lia)) as (q & Hlq & Hload).
  change (Z.to_nat 0) with 0%nat in Hload. rewrite !drop_0 in Hload. unfold Load in E. rewrite Hload in E.
  pose proof Hm1 as (_ & _ & Hst). destruct (Hst src) as [_ Hf]. pose proof (Forall2_length _ _ _ Hf) as Hlen.
  set (events := zip_with EventFromStored (LogSpec.stream src (store_log (writers 0 s))) (m1 src)) in *.
  assert (ev_Data <$> events = m1 src) as Hev by by apply zip_EventFromStored.
  destruct (copyEvents _ _ _ _ _ _ _) as [s2 [copied2 err2]] eqn:Ec. injection E as <- <- <- <-.
  assert (represents c (set_provider (writers 0 s) q) m1) as Hm2 by (eapply represents_setup; [exact Hm1|apply Hm1|done..]).
  assert (length (m1 src) ≤ length (store_log (writers 0 s)))%nat as Hle by (rewrite <- Hlen; apply length_filter).
  eapply (copyEvents_spec dst (length events) 0 events _ _ _ _ m1 []) in Ec as (m' & Hm' & Hp' & k & Hk & Hkl & Hpos & Hg & Hdone);
    [| | |exact Hm2|apply prefix_nil|done|done|].
  - rewrite Hev in *. exists (m1 src), m', k. split; [done|]. split; [apply Hp1|].
    assert (m1 dst = [] → m dst = []) as Hnil
      by (intros Ed; specialize (Hp1 dst); rewrite Ed in Hp1; by apply grown_prefix, prefix_nil_inv in Hp1).
    split.
    { destruct (decide (src = dst)) as [->|Hne]; [|eapply grown_prefix, Hp'; done].
      etransitivity; [|by eapply grown_prefix]. by apply prefix_app_r. }
    split; [done|]. split; [done|]. split; [auto|]. split.
    { destruct k as [|k].
      - rewrite take_0, app_nil_r in *. by eapply grown_trans.
      - rewrite Hpos in Hg by lia. rewrite Hnil by (apply Hpos; lia). done. }
    split; [intros sid Hs; eapply grown_trans; [apply Hp1|by apply Hp']|]. split.
    + intros He Hne. apply Hdone; [done|]. apply Hpos. rewrite He in Hkl. rewrite Hkl. destruct (m1 src); [done|cbn; lia].
    + intros key. rewrite elem_of_sortedSet, oldKeySet_lookup. unfold events. rewrite loaded_keys by done.
      rewrite list_elem_of_fmap. naive_solver.
  - cbn [st_serializer set_provider]. rewrite Es. rewrite <- Es. by eapply loaded_events.
  - cbn [st_serializer set_provider]. by rewrite Es.
  - intros n Hn. specialize (Hfit (S (S n))). pose proof (written_le 1 (S (S n)) ltac:(lia)) as Hw.
    unfold events in Hn. rewrite length_zip_with, Hlen in Hn. cbn [written Nat.add] in Hfit, Hw, Hl1 |- *.
    change (store_log (set_provider (writers 0 s) q)) with (store_log (writers 0 s)). lia.
Qed.
End Theorems.

(** ** A concrete re-encryption

    Tenants have keys of their own; another writer appends to the source
    between the copies. *)

#[local] Existing Instance toyAEAD.
#[local] Existing Instance toyAEAD_laws.
#[local] Existing Instance listOrder.
#[local] Existing Instance sampleSerializer.
#[local] Existing Instance sampleSerializer_laws.
#[local] Existing Instance sampleLog.
#[local] Existing Instance sampleLog_laws.
#[local] Existing Instance sampleIndex.

Definition meanwhile (n : nat) : list (appendCall SampleEvent) :=
  match n with
  | 1%nat => [mkAppendCall sampleStoreEnv "User-1" [mkSampleEvent "UserRegistered" "late@o.p"] (mkAppendConfig emptyMetadata AnyVersion false)]
  | _ => []
  end.

Definition reEncrypted :=
  ReEncryptStream sampleConfig (λ _, sampleStoreEnv) (writers sampleConfig meanwhile) "User-1" "User-1-v2" sampleRun.1.

Lemma reEncrypted_outcome : reEncrypted.2 = (3, ["tenant-a"], None).
Proof. vm_compute. reflexivity. Qed.

Lemma meanwhile_ok ser n : ser = ["UserRegistered"] → Forall (call_ok ser) (meanwhile n).
Proof.
  intros ->. destruct n as [|[|n]]; repeat constructor; cbn; try apply sampleEntropy_ok; try set_solver; apply utf8_ascii; reflexivity.
Qed.

Lemma meanwhile_written n : (written meanwhile n ≤ 1)%nat.
Proof.
  assert (∀ n, written meanwhile (S (S n)) = 1%nat) as Hw by (intros k; induction k as [|k IH]; [reflexivity|cbn in *; lia]).
  destruct n as [|[|n]]; [cbn; lia|cbn; lia|]. rewrite Hw. lia.
Qed.

Lemma reencrypt_copies_stream_witness :
  ∃ m', represents sampleConfig reEncrypted.1 m' ∧
    m' "User-1-v2" = [mkSampleEvent "UserRegistered" "a@b.c"; mkSampleEvent "UserRegistered" "d@e.f"; mkSampleEvent "UserRegistered" "l@m.n"].
Proof.
  destruct (runAppends_represents sampleConfig (Some sampleFieldOptions) sampleCalls sampleStore
    sampleRun.1 sampleRun.2 (λ _, []) eq_refl eq_refl sampleCalls_ok sampleStore_empty
    ltac:(vm_compute; discriminate) (surjective_pairing _)) as (Hm & Hc & _).
  destruct (reencrypt_copies_stream sampleConfig (Some sampleFieldOptions) eq_refl eq_refl meanwhile (λ _, sampleStoreEnv)
    (λ _ _, sampleEntropy_ok) "User-1" "User-1-v2" sampleRun.1 reEncrypted.1 3 ["tenant-a"] None _ Hm Hc
    ltac:(discriminate) ltac:(discriminate) eq_refl)
    as (evs & m' & k & Hm' & Hsrc & _ & Hk & Hall & _ & _ & _ & Hd & _).
  - intros n. apply meanwhile_ok. vm_compute. reflexivity.
  - intros n. pose proof (meanwhile_written n) as Hw. assert (length (store_log sampleRun.1) = 4%nat) as -> by (vm_compute; reflexivity).
    unfold MaxInt64. lia.
  - rewrite <- reEncrypted_outcome. apply surjective_pairing.
  - exists m'. split; [exact Hm'|]. apply grown_prefix in Hsrc. assert (length evs = 3%nat) as Hlen by (rewrite <- Hall; lia).
    rewrite (Hd eq_refl) by (intros ->; discriminate Hlen). symmetry. apply prefix_length_eq; [exact Hsrc|]. rewrite Hlen. vm_compute. lia.
Defined.
