(* ===== verification/Subscription.v ===== *)
(** * Subscriptions

    [src/subscription.go]: the event filters, the catch-up and the polling
    subscription, the bridge over an adapter's own subscription, and the
    [EventSubscriber] methods of the event store.  A goroutine takes one turn at
    a time; what a [select] with several ready cases takes is an argument of the
    turn.  The consumer, the closer, the other writers and the provider's other
    users act between two turns. *)

From S2P Require Import Prelude.
From S2P Require Import Types.
From S2P Require Import Common.
From S2P Require Import Crypto.
From S2P Require Import FieldEncryption.
From S2P Require Import MemorySubscription.
From S2P Require Import EventLog.
From S2P Require Import EventStore.

(** ** Filters

    An [EventFilter] is its [Matches]; nil is [None]. *)
Definition EventFilter := StoredEvent → bool.

Definition EventTypeFilter_Matches (eventTypes : gset string) : EventFilter := λ event, bool_decide (se_Type event ∈ eventTypes).

Definition NewEventTypeFilter (eventTypes : list string) : gset string := foldl (λ s t, {[t]} ∪ s) ∅ eventTypes.

Definition CategoryFilter_Matches (category : string) : EventFilter := λ event,
  match ParseStreamID (se_StreamID event) with
  | Err _ => false
  | Ok streamID => bool_decide (sid_Category streamID = category)
  end.

Fixpoint CompositeFilter_Matches (filters : list EventFilter) : EventFilter := λ event,
  match filters with
  | [] => true
  | filter :: filters => if negb (filter event) then false else CompositeFilter_Matches filters event
  end.

Definition streamVersionFilter_Matches (streamID : string) (fromVersion : Z) : EventFilter := λ event,
  bool_decide (se_StreamID event = streamID) && (fromVersion <? se_Version event).

(** ** Options *)

Record SubscriptionOptions := mkSubscriptionOptions {
  opt_BufferSize : Z;
  opt_Filter : option EventFilter;
  opt_RetryOnError : bool;
  opt_RetryInterval : Duration;
  opt_MaxRetries : Z;
}.

Definition DefaultSubscriptionOptions : SubscriptionOptions := mkSubscriptionOptions 256 None true 1000000000 5.

(** The options of a call with optional ones. *)
Definition chosenOptions (opts : list SubscriptionOptions) : SubscriptionOptions :=
  match opts with o :: _ => o | [] => DefaultSubscriptionOptions end.

Definition keeps (o : SubscriptionOptions) (event : StoredEvent) : bool :=
  match opt_Filter o with None => true | Some filter => filter event end.

Definition defaultSubscriptionPollInterval : Duration := 100000000.

(** ** Channels

    What the consumer got, what the channel holds, and whether the consumer is
    blocked in a receive: the next send is then handed over, also without a
    buffer. *)
Record channel := mkChannel {
  ch_cap : Z;
  ch_received : list StoredEvent;
  ch_buffer : list StoredEvent;
  ch_waiting : bool;
  ch_closed : bool;
}.

Definition makeChannel (size : Z) : res channel :=
  makechan size;; Ok (mkChannel size [] [] false false).

(** [None] while the send would block. *)
Definition send (event : StoredEvent) (ch : channel) : option channel :=
  if ch_waiting ch then Some (mkChannel (ch_cap ch) (ch_received ch ++ [event]) (ch_buffer ch) false (ch_closed ch))
  else if Z.of_nat (length (ch_buffer ch)) <? ch_cap ch
  then Some (mkChannel (ch_cap ch) (ch_received ch) (ch_buffer ch ++ [event]) false (ch_closed ch))
  else None.

Definition receive (ch : channel) : channel :=
  match ch_buffer ch with
  | event :: rest => mkChannel (ch_cap ch) (ch_received ch ++ [event]) rest (ch_waiting ch) (ch_closed ch)
  | [] => mkChannel (ch_cap ch) (ch_received ch) [] (negb (ch_closed ch)) (ch_closed ch)
  end.

(** Closing a closed channel panics. *)
Definition closeChannel (ch : channel) : option channel :=
  if ch_closed ch then None else Some (mkChannel (ch_cap ch) (ch_received ch) (ch_buffer ch) false true).

(** Everything that was sent, in order. *)
Definition sent (ch : channel) : list StoredEvent := ch_received ch ++ ch_buffer ch.

(** ** Subscriptions *)

(** [CatchupSubscription]; a [PollingSubscription] has no [started]. *)
Record subscription := mkSubscription {
  sub_opts : SubscriptionOptions;
  sub_position : Z;
  sub_eventCh : channel;
  sub_stopped : bool; (* stopCh is closed *)
  sub_err : option error;
  sub_closed : bool;
  sub_started : bool;
}.

Definition setPosition (pos : Z) (s : subscription) : subscription :=
  mkSubscription (sub_opts s) pos (sub_eventCh s) (sub_stopped s) (sub_err s) (sub_closed s) (sub_started s).
Definition setErr (err : error) (s : subscription) : subscription :=
  mkSubscription (sub_opts s) (sub_position s) (sub_eventCh s) (sub_stopped s) (Some err) (sub_closed s) (sub_started s).
Definition setEventCh (ch : channel) (s : subscription) : subscription :=
  mkSubscription (sub_opts s) (sub_position s) ch (sub_stopped s) (sub_err s) (sub_closed s) (sub_started s).
Definition setStarted (s : subscription) : subscription :=
  mkSubscription (sub_opts s) (sub_position s) (sub_eventCh s) (sub_stopped s) (sub_err s) (sub_closed s) true.

Definition newSubscription (fromPosition : Z) (opts : list SubscriptionOptions) : res subscription :=
  let options := chosenOptions opts in
  match makeChannel (opt_BufferSize options) with
  | Err err => Err err
  | Ok ch => Ok (mkSubscription options fromPosition ch false None false false)
  end.
Definition NewCatchupSubscription := newSubscription.
Definition NewPollingSubscription := newSubscription.

Definition CloseSubscription (s : subscription) : subscription :=
  if sub_closed s then s
  else mkSubscription (sub_opts s) (sub_position s) (sub_eventCh s) true (sub_err s) true (sub_started s).

(** ** The goroutines *)

Inductive kind := Catchup | Polling.

Inductive pc :=
| PEntry
| PCatchUp                                           (* top of the first loop *)
| PPoll (consecutiveErrors : Z)                      (* the select of the second *)
| PBackOff (consecutiveErrors : Z)
| PDecrypt (catchingUp : bool) (events decrypted : list StoredEvent)
| PDeliver (catchingUp : bool) (events : list StoredEvent)
| PDone
| PCrashed.                                          (* an unrecovered panic *)

(** The case a [select] takes. *)
Inductive choice := TakeDone | TakeStop | Proceed.

Section Goroutines.
Context {V A P Ser X : Type} `{AEAD} `{ProviderOps P} `{EventLogOps A}.
Context (k : kind) (c : EventStore) (supported : bool) (pollInterval : Duration).
Local Abbreviation Store := (Store A P Ser X).

Definition sys : Type := subscription * Store.

(** [defer close(eventCh)] *)
Definition finish (s : subscription) : subscription * pc :=
  match closeChannel (sub_eventCh s) with None => (s, PCrashed) | Some ch => (setEventCh ch s, PDone) end.

Definition fail (err : error) (s : subscription) : subscription * pc := finish (setErr err s).

(** A [select] on the context, the stop channel and a case that may be ready;
    [None] when the case taken is not ready. *)
Definition selecting (env : Env) (take : choice) (s : subscription) (ready : option (subscription * pc)) : option (subscription * pc) :=
  match take with
  | TakeDone => match ctx_Err env with Some err => Some (fail err s) | None => None end
  | TakeStop => if sub_stopped s then Some (finish s) else None
  | Proceed => ready
  end.

(** [default]: only when no other case is ready. *)
Definition idle (env : Env) (s : subscription) : bool := bool_decide (ctx_Err env = None) && negb (sub_stopped s).

(** [time.NewTicker] panics on an interval that is not positive. *)
Definition startTicker (s : subscription) : subscription * pc :=
  if pollInterval <=? 0 then (s, PCrashed) else (s, PPoll 0).

(** A page of the second loop that could not be read. *)
Definition pollFailed (err : error) (consecutiveErrors : Z) (s : subscription) : subscription * pc :=
  match k with
  | Polling => (s, PPoll 0)
  | Catchup =>
      if negb (opt_RetryOnError (sub_opts s)) then fail err s
      else
        let consecutiveErrors := i64 (consecutiveErrors + 1) in
        if (0 <? opt_MaxRetries (sub_opts s)) && (opt_MaxRetries (sub_opts s) <=? consecutiveErrors) then fail err s
        else if 0 <? opt_RetryInterval (sub_opts s) then (s, PBackOff consecutiveErrors)
        else (s, PPoll consecutiveErrors)
  end.

Definition keepStore (st : Store) (r : option (subscription * pc)) : option (pc * sys) :=
  match r with Some (s, p) => Some (p, (s, st)) | None => None end.

(** A turn; [None] when it is blocked, or over. *)
Definition turn (env : Env) (take : choice) (p : pc) (x : sys) : option (pc * sys) :=
  let '(s, st) := x in
  match p with
  | PEntry =>
      match k with
      | Catchup => if supported then Some (PCatchUp, x) else keepStore st (Some (fail ErrSubscriptionNotSupported s))
      | Polling => keepStore st (Some (startTicker s))
      end
  | PCatchUp =>
      keepStore st (selecting env take s
            (if idle env s
             then Some match LoadEventsFromPosition env (sub_position s) 100 st with
                       | Err err => fail err s
                       | Ok [] => startTicker s
                       | Ok events => (s, PDecrypt true events [])
                       end
             else None))
  | PPoll n =>
      keepStore st (selecting env take s
            (Some (if negb supported then (s, PPoll n)
                   else match LoadEventsFromPosition env (sub_position s) 100 st with
                        | Err err => pollFailed err n s
                        | Ok events => (s, PDecrypt false events [])
                        end)))
  | PBackOff n => keepStore st (selecting env take s (Some (s, PPoll n)))
  | PDecrypt phase [] decrypted => Some (PDeliver phase decrypted, x)
  | PDecrypt phase (e :: events) decrypted =>
      match DecryptStoredEvent c (time_Now env 0) e (st_provider st) with
      | (q, Err err) => let '(s, p) := fail err s in Some (p, (s, set_provider st q))
      | (q, Ok d) => Some (PDecrypt phase events (decrypted ++ [d]), (s, set_provider st q))
      end
  | PDeliver phase [] => Some (if phase then PCatchUp else PPoll 0, x)
  | PDeliver phase (e :: events) =>
      if negb (keeps (sub_opts s) e) then Some (PDeliver phase events, (setPosition (se_GlobalPosition e) s, st))
      else
        keepStore st (selecting env take s
              (match send e (sub_eventCh s) with
               | None => None
               | Some ch => Some (setPosition (se_GlobalPosition e) (setEventCh ch s), PDeliver phase events)
               end))
  | PDone | PCrashed => None
  end.

(** [Start]: the error, and whether a goroutine is launched. *)
Definition Start (s : subscription) : subscription * res bool :=
  match k with
  | Polling => (s, Ok true)
  | Catchup =>
      if sub_started s then (s, Ok false)
      else if sub_closed s then (s, Err ErrAdapterClosed)
      else (setStarted s, Ok true)
  end.

(** ** Everything that happens to a subscription *)

Record world := mkWorld { wo_sub : subscription; wo_store : Store; wo_threads : list pc }.

Definition startSubscription (w : world) : world * res unit :=
  match Start (wo_sub w) with
  | (s, Err err) => (mkWorld s (wo_store w) (wo_threads w), Err err)
  | (s, Ok launched) => (mkWorld s (wo_store w) (if launched then wo_threads w ++ [PEntry] else wo_threads w), Ok tt)
  end.

(** A turn of the [i]th goroutine. *)
Definition turnThread (env : Env) (take : choice) (i : nat) (w : world) : option world :=
  match wo_threads w !! i with
  | None => None
  | Some p =>
      match turn env take p (wo_sub w, wo_store w) with
      | None => None
      | Some (p, (s, st)) => Some (mkWorld s st (<[i := p]> (wo_threads w)))
      end
  end.

Definition onSub (f : subscription → subscription) (w : world) : world := mkWorld (f (wo_sub w)) (wo_store w) (wo_threads w).
Definition consume : world → world := onSub (λ s, setEventCh (receive (sub_eventCh s)) s).
Definition closeSub : world → world := onSub CloseSubscription.
End Goroutines.
Arguments world A P Ser X : clear implicits.

(** The loops of the two kinds. *)
Definition runTurn {A P Ser X} `{AEAD} `{ProviderOps P} `{EventLogOps A} c supported pollInterval env take
    : pc → sys (A := A) (P := P) (Ser := Ser) (X := X) → option (pc * sys) :=
  turn Catchup c supported pollInterval env take.
Definition pollTurn {A P Ser X} `{AEAD} `{ProviderOps P} `{EventLogOps A} c supported interval env take
    : pc → sys (A := A) (P := P) (Ser := Ser) (X := X) → option (pc * sys) :=
  turn Polling c supported interval env take.

(** ** The event store's methods *)

(** The options of a subscription with a structural filter. *)
Definition subscribeOptions (filter : option EventFilter) (opts : list SubscriptionOptions) : SubscriptionOptions :=
  let options := chosenOptions opts in
  let withFilter f := mkSubscriptionOptions (opt_BufferSize options) f (opt_RetryOnError options) (opt_RetryInterval options)
                        (opt_MaxRetries options) in
  match filter, opt_Filter options with
  | None, _ => options
  | Some f, Some g => withFilter (Some (CompositeFilter_Matches [f; g]))
  | Some f, None => withFilter (Some f)
  end.

(** A started catch-up subscription. *)
Definition subscribe {A P Ser X} (fromPosition : Z) (filter : option EventFilter) (opts : list SubscriptionOptions)
    (st : Store A P Ser X) : res (world A P Ser X) :=
  match NewCatchupSubscription fromPosition [subscribeOptions filter opts] with
  | Err err => Err err
  | Ok s => match startSubscription Catchup (mkWorld s st []) with (w, Ok _) => Ok w | (_, Err err) => Err err end
  end.

Definition SubscribeAll {A P Ser X} (fromPosition : Z) (opts : list SubscriptionOptions) (st : Store A P Ser X) :=
  subscribe fromPosition None opts st.
Definition SubscribeCategory {A P Ser X} (category : string) (fromPosition : Z) (opts : list SubscriptionOptions)
    (st : Store A P Ser X) :=
  subscribe fromPosition (Some (CategoryFilter_Matches category)) opts st.

(** The fallback of [SubscribeStream]. *)
Definition subscribeStreamByScan {A P Ser X} (streamID : string) (fromVersion : Z) (opts : list SubscriptionOptions)
    (st : Store A P Ser X) :=
  subscribe 0 (Some (streamVersionFilter_Matches streamID fromVersion)) opts st.

(** ** Bridging an adapter's own subscription *)

(** [adapterSubscription] with what its goroutine reads: the adapter's channel,
    and whether the subscription's context was cancelled by [Close]. *)
Record bridge := mkBridge {
  br_opts : SubscriptionOptions;
  br_eventCh : channel;
  br_canceled : bool;
  br_err : option error;
  br_incoming : list StoredEvent;
  br_incomingClosed : bool;
}.

Definition br_set (ch : channel) (err : option error) (incoming : list StoredEvent) (b : bridge) : bridge :=
  mkBridge (br_opts b) ch (br_canceled b) err incoming (br_incomingClosed b).

(** The first error stays. *)
Definition br_setErr (err : error) (b : bridge) : bridge :=
  br_set (br_eventCh b) (match br_err b with None => Some err | e => e end) (br_incoming b) b.

Definition CloseBridge (b : bridge) : bridge :=
  mkBridge (br_opts b) (br_eventCh b) true (br_err b) (br_incoming b) (br_incomingClosed b).

Inductive bridgePc := BReceive | BSend (event : StoredEvent) | BDone.

Section Bridge.
Context {A P Ser X : Type} `{AEAD} `{ProviderOps P} (c : EventStore).

(** [subCtx] is done when its parent is, or after [Close]. *)
Definition subCtxDone (env : Env) (b : bridge) : bool := negb (bool_decide (ctx_Err env = None)) || br_canceled b.

Definition reportStop (env : Env) (b : bridge) : bridge :=
  match ctx_Err env with Some err => br_setErr err b | None => b end.

Definition br_finish (env : Env) (b : bridge) : bridge * bridgePc :=
  let b := reportStop env b in
  match closeChannel (br_eventCh b) with
  | Some ch => (br_set ch (br_err b) (br_incoming b) b, BDone)
  | None => (b, BDone)
  end.

(** A turn; [stop] when the [select] takes the context's case. *)
Definition bridgeTurn (env : Env) (stop : bool) (p : bridgePc) (x : bridge * Store A P Ser X)
    : option (bridgePc * (bridge * Store A P Ser X)) :=
  let '(b, st) := x in
  match p with
  | BReceive =>
      if stop then
        if subCtxDone env b then let '(b, p) := br_finish env b in Some (p, (b, st)) else None
      else
        match br_incoming b with
        | [] => if br_incomingClosed b then let '(b, p) := br_finish env b in Some (p, (b, st)) else None
        | e :: rest =>
            let b := br_set (br_eventCh b) (br_err b) rest b in
            match DecryptStoredEvent c (time_Now env 0) e (st_provider st) with
            | (q, Err err) => let '(b, p) := br_finish env (br_setErr err b) in Some (p, (b, set_provider st q))
            | (q, Ok d) => Some (if keeps (br_opts b) d then BSend d else BReceive, (b, set_provider st q))
            end
        end
  | BSend e =>
      if stop then
        if subCtxDone env b then let '(b, p) := br_finish env b in Some (p, (b, st)) else None
      else
        match send e (br_eventCh b) with
        | None => None
        | Some ch => Some (BReceive, (br_set ch (br_err b) (br_incoming b) b, st))
        end
  | BDone => None
  end.
End Bridge.

(** ** [SubscribeStream] *)

Definition toAdapterSubscriptionOptions (opts : list SubscriptionOptions) : list MemorySubscription.SubscriptionOptions :=
  match opts with
  | [] => []
  | o :: _ => [MemorySubscription.mkSubscriptionOptions (opt_BufferSize o) 0 None]
  end.

(** [start] subscribes to the adapter and returns what its channel holds. *)
Definition subscribeViaAdapter (opts : list SubscriptionOptions) (start : res (list StoredEvent)) : res bridge :=
  let options := chosenOptions opts in
  match start with
  | Err err => Err err
  | Ok adapterCh =>
      match makeChannel (opt_BufferSize options) with
      | Err err => Err err
      | Ok ch => Ok (mkBridge options ch false None adapterCh false)
      end
  end.

(** [native] is the adapter's own [SubscribeStream], if it has one. *)
Definition SubscribeStream {A P Ser X}
    (native : option (string → Z → list MemorySubscription.SubscriptionOptions → res (list StoredEvent)))
    (streamID : string) (fromVersion : Z) (opts : list SubscriptionOptions) (st : Store A P Ser X)
    : res (bridge + world A P Ser X) :=
  if bool_decide (streamID = "") then Err ErrEmptyStreamID
  else
    match native with
    | Some subscribeStream =>
        match subscribeViaAdapter opts (subscribeStream streamID fromVersion (toAdapterSubscriptionOptions opts)) with
        | Err err => Err err
        | Ok b => Ok (inl b)
        end
    | None =>
        match subscribeStreamByScan streamID fromVersion opts st with
        | Err err => Err err
        | Ok w => Ok (inr w)
        end
    end.
