(* ===== verification/SubscriptionTheorems.v ===== *)
(** * What a subscription delivers

    Every event of the log past the starting position and up to the
    subscription's, once, in order and opened, as far as the filter keeps it:
    whatever the other writers, the consumer, the keys and the scheduler do. *)

From S2P Require Import Prelude.
From S2P Require Import Types.
From S2P Require Import Common.
From S2P Require Import Crypto.
From S2P Require Import LocalProvider.
From S2P Require Import FieldEncryption.
From S2P Require Import LogInvariant.
From S2P Require Import MemoryAdapter.
From S2P Require Import MemorySubscription.
From S2P Require Import MemoryTheorems.
From S2P Require Import EventLog.
From S2P Require Import EventStore.
From S2P Require Import StoreTheorems.
From S2P Require Import ProjectionCoverage.
From S2P Require Import ProjectionInvariant.
From S2P Require Import ProjectionReplay.
From S2P Require Import SubjectResolver.
From S2P Require Import ErasureFrames.
From S2P Require Import ErasureProperties.
From S2P Require Import Subscription.

(** ** Between two positions of the log *)

Lemma list_filter_ext_in {A} (P Q : A → Prop) `{∀ x, Decision (P x), ∀ x, Decision (Q x)} (l : list A) :
  (∀ x, x ∈ l → P x ↔ Q x) → filter P l = filter Q l.
Proof.
  induction l as [|x l IH]; [done|]. intros Hl. rewrite !filter_cons. rewrite IH by (intros y Hy; apply Hl; by right).
  destruct (Hl x ltac:(left)). repeat case_decide; tauto.
Qed.

Definition between (p q : Z) (log : list StoredEvent) : list StoredEvent :=
  filter (λ e, p < se_GlobalPosition e ∧ se_GlobalPosition e ≤ q) log.

Lemma increasing_split p log :
  strictly_increasing se_GlobalPosition log →
  ∃ l, log = l ++ after p log ∧ ∀ e, e ∈ l → se_GlobalPosition e ≤ p.
Proof.
  induction log as [|e log IH]; intros Hs; [exists []; by split; [|intros e ?%not_elem_of_nil]|].
  apply strictly_increasing_cons in Hs as [Hs He]. destruct (IH Hs) as (l & El & Hl).
  unfold after in *. destruct (decide (p < se_GlobalPosition e)) as [Hp|Hp].
  - rewrite filter_cons_True by done. exists []. split; [|by intros x ?%not_elem_of_nil]. cbn. f_equal.
    symmetry. apply list_filter_all. intros x Hx. specialize (He x Hx). lia.
  - rewrite filter_cons_False by done. exists (e :: l). split; [by rewrite El at 1|].
    intros x [->|Hx]%elem_of_cons; [lia|auto].
Qed.

(** The next event of the log extends what lies between. *)
Lemma between_next p q log x rest :
  strictly_increasing se_GlobalPosition log → p ≤ q → after q log = x :: rest →
  between p (se_GlobalPosition x) log = between p q log ++ [x] ∧ after (se_GlobalPosition x) log = rest ∧ q < se_GlobalPosition x.
Proof.
  intros Hs Hpq Ha. destruct (increasing_split q log Hs) as (l & El & Hl). rewrite Ha in El.
  assert (x ∈ after q log) as Hx by (rewrite Ha; left). apply list_elem_of_filter in Hx as [Hx _].
  assert (∀ y, y ∈ rest → se_GlobalPosition x < se_GlobalPosition y) as Hrest.
  { intros y Hy. assert (strictly_increasing se_GlobalPosition (x :: rest)) as Hs'.
    { rewrite <- Ha. by apply strictly_increasing_filter. }
    apply strictly_increasing_cons in Hs' as [_ Hlt]. by apply Hlt. }
  assert (∀ b, q ≤ b → filter (λ e, p < se_GlobalPosition e ∧ se_GlobalPosition e ≤ b) l = filter (λ e, p < se_GlobalPosition e) l) as Hfl.
  { intros b Hb. apply list_filter_ext_in. intros e He. specialize (Hl e He). lia. }
  split; [|split; [|done]].
  - unfold between. rewrite El, !filter_app, !Hfl by lia. rewrite filter_cons_True by lia. rewrite filter_cons_False by lia.
    rewrite !(list_filter_none _ rest) by (intros y Hy; specialize (Hrest y Hy); lia). by rewrite app_nil_r.
  - unfold after. rewrite El, filter_app, (list_filter_none _ l), filter_cons_False by (try (intros y Hy; specialize (Hl y Hy)); lia).
    apply list_filter_all. intros y Hy. by apply Hrest.
Qed.

Lemma between_empty p log : between p p log = [].
Proof. apply list_filter_none. intros e _. lia. Qed.

(** New events lie past every position of the old log. *)
Lemma between_grows p q log log' :
  log_ok log → log_ok log' → log `prefix_of` log' → p = q ∨ q ≤ headOf log → between p q log' = between p q log.
Proof.
  intros Hok [Hs' Hp'] [new ->] [->|Hq]; [by rewrite !between_empty|]. unfold between. rewrite filter_app.
  rewrite (list_filter_none _ new); [by rewrite app_nil_r|]. intros e He [_ Hle].
  assert (headOf log < se_GlobalPosition e); [|lia].
  destruct (decide (log = [])) as [->|Hne]; [cbn; by apply Hp'|]. destruct (headOf_in log Hne) as (x & Hx & ->).
  apply list_elem_of_lookup in He as [j Hj], Hx as [i Hi]. pose proof (lookup_lt_Some _ _ _ Hi).
  apply (Hs' i (length log + j)%nat); [by rewrite lookup_app_l|rewrite lookup_app_r by lia; by rewrite Nat.add_sub'|lia].
Qed.

Lemma after_grows p log log' : log `prefix_of` log' → after p log `prefix_of` after p log'.
Proof. intros [new ->]. unfold after. rewrite filter_app. by apply prefix_app_r. Qed.

(** ** The channel *)

Lemma send_sent e ch ch' : (ch_waiting ch = true → ch_buffer ch = []) → send e ch = Some ch' → sent ch' = sent ch ++ [e].
Proof.
  unfold send, sent. intros Hw. destruct (ch_waiting ch); [|destruct (_ <? _); [|done]]; intros [= <-]; cbn.
  - rewrite (Hw eq_refl). by rewrite !app_nil_r.
  - by rewrite app_assoc.
Qed.

(** A waiting consumer has emptied the buffer. *)
Definition channel_wf (ch : channel) : Prop := ch_waiting ch = true → ch_buffer ch = [].

Lemma send_wf e ch ch' : channel_wf ch → send e ch = Some ch' → channel_wf ch'.
Proof. unfold send, channel_wf. intros _. destruct (ch_waiting ch); [|destruct (_ <? _); [|done]]; by intros [= <-]. Qed.

Lemma receive_sent ch : sent (receive ch) = sent ch.
Proof. unfold receive, sent. destruct (ch_buffer ch); cbn; [done|]. by rewrite <- app_assoc. Qed.

Lemma channel_receive_wf ch : channel_wf ch → channel_wf (receive ch).
Proof. unfold receive, channel_wf. destruct (ch_buffer ch) eqn:E; cbn; [done|]. intros Hw Ht. by specialize (Hw Ht). Qed.

Lemma closeChannel_spec ch ch' : closeChannel ch = Some ch' → channel_wf ch' ∧ sent ch' = sent ch.
Proof. unfold closeChannel. destruct (ch_closed ch); [done|]. by intros [= <-]. Qed.

(** ** The invariant *)

Section Delivery.
Context {A P Ser X : Type} `{AEAD} `{ProviderOps P} `{EventLogOps A} `{!EventLogLaws A}.
Context (k : kind) (c : EventStore) (supported : bool) (pollInterval : Duration).
Context (start : Z) (o : SubscriptionOptions).
Local Abbreviation world := (world A P Ser X).
Implicit Types w : world.
Implicit Types s : subscription.

(** What an event was opened to, at some time under some keys. *)
Definition opened (e d : StoredEvent) : Prop := ∃ t (p p' : P), DecryptStoredEvent c t e p = (p', Ok d).

Lemma opened_position e d : opened e d → se_GlobalPosition d = se_GlobalPosition e.
Proof. intros (t & p & p' & E). apply DecryptStoredEvent_shape in E. by injection E. Qed.

Definition streamLog w : list StoredEvent := LogSpec.log (el_view (st_adapter (wo_store w))).

Definition delivered s (log : list StoredEvent) : Prop :=
  ∃ ds, Forall2 opened (between start (sub_position s) log) ds ∧ sent (sub_eventCh s) = filter (λ d, keeps o d = true) ds.

Record sub_wf s (log : list StoredEvent) : Prop := {
  sw_options : sub_opts s = o;
  sw_channel : channel_wf (sub_eventCh s);
  sw_delivered : delivered s log;
  sw_position : start = sub_position s ∨ start ≤ sub_position s ∧ sub_position s ≤ headOf log;
  sw_stopped : sub_stopped s = sub_closed s;
}.

(** What a goroutine holds follows the position in the log. *)
Definition thread_wf (p : pc) s (log : list StoredEvent) : Prop :=
  match p with
  | PDecrypt _ events decrypted =>
      ∃ raws, (raws ++ events) `prefix_of` after (sub_position s) log ∧ Forall2 opened raws decrypted
  | PDeliver _ events => ∃ raws, raws `prefix_of` after (sub_position s) log ∧ Forall2 opened raws events
  | PDone => is_Some (sub_err s) ∨ sub_closed s = true
  | _ => True
  end.

(** A catch-up subscription is started once; a poller is once started. *)
Record subscription_wf w : Prop := {
  sb_log : el_wf (st_adapter (wo_store w));
  sb_sub : sub_wf (wo_sub w) (streamLog w);
  sb_threads : wo_threads w = [] ∨ ∃ p, wo_threads w = [p] ∧ thread_wf p (wo_sub w) (streamLog w) ∧ (k = Catchup → sub_started (wo_sub w) = true);
}.

Lemma log_ok_of w : el_wf (st_adapter (wo_store w)) → log_ok (streamLog w).
Proof. intros Hwf. apply (log_ok_wf (wo_store w) Hwf). Qed.

(** The log grows past everything the subscription knows. *)
Lemma sub_wf_grows s log log' : log_ok log → log_ok log' → log `prefix_of` log' → sub_wf s log → sub_wf s log'.
Proof.
  intros Hok Hok' Hp [Ho Hc (ds & Hd & Hs) Hpos Hst].
  assert (headOf log ≤ headOf log') by (apply headOf_grows; [destruct Hp as [new ->]; by exists log, new|done..]).
  split; try done.
  - exists ds. rewrite (between_grows _ _ log) by (try done; destruct Hpos as [?|[? ?]]; tauto). done.
  - destruct Hpos as [?|[? ?]]; [by left|right; lia].
Qed.

Lemma thread_wf_grows p s log log' : log `prefix_of` log' → thread_wf p s log → thread_wf p s log'.
Proof.
  intros Hp. pose proof (after_grows (sub_position s) _ _ Hp). destruct p; cbn; try done.
  - intros (raws & Hr & Hf). exists raws. split; [by etransitivity|done].
  - intros (raws & Hr & Hf). exists raws. split; [by etransitivity|done].
Qed.

(** ** The turns *)

Lemma finish_wf s s' p log :
  sub_wf s log → is_Some (sub_err s) ∨ sub_closed s = true → finish s = (s', p) →
  sub_wf s' log ∧ thread_wf p s' log ∧ sub_started s' = sub_started s.
Proof.
  intros [Ho Hc Hd Hp Hst] He. unfold finish. destruct (closeChannel _) as [ch|] eqn:E; [|intros [= <- <-]; by split_and!].
  apply closeChannel_spec in E as [Hw Hs]. intros [= <- <-]. split_and!; try done. split; try done.
  unfold delivered in *. cbn. by rewrite Hs.
Qed.

Lemma fail_wf err s s' p log :
  sub_wf s log → fail err s = (s', p) → sub_wf s' log ∧ thread_wf p s' log ∧ sub_started s' = sub_started s.
Proof.
  intros [Ho Hc Hd Hp Hst] E. eapply finish_wf in E as (? & ? & ?); [by split_and!|by split|cbn; left; by eexists].
Qed.

Definition after_turn s s' p (log : list StoredEvent) : Prop :=
  sub_wf s' log ∧ thread_wf p s' log ∧ sub_started s' = sub_started s.

Lemma selecting_wf env take s ready s' p log :
  sub_wf s log → selecting env take s ready = Some (s', p) → (ready = Some (s', p) → after_turn s s' p log) →
  after_turn s s' p log.
Proof.
  intros Hwf. unfold selecting. destruct take.
  - destruct (ctx_Err env) as [err|]; [|done]. intros [= E] _. by eapply fail_wf.
  - destruct (sub_stopped s) eqn:Es; [|done]. intros [= E] _. eapply finish_wf; [exact Hwf| |exact E].
    right. by rewrite <- (sw_stopped _ _ Hwf).
  - intros E Hr. by apply Hr.
Qed.

Lemma startTicker_wf s s' p log : sub_wf s log → startTicker pollInterval s = (s', p) → after_turn s s' p log.
Proof. intros Hwf. unfold startTicker. destruct (_ <=? 0); intros [= <- <-]; by split_and!. Qed.

Lemma pollFailed_wf err n s s' p log : sub_wf s log → pollFailed k err n s = (s', p) → after_turn s s' p log.
Proof.
  intros Hwf. unfold pollFailed. destruct k; [|intros [= <- <-]; by split_and!].
  repeat case_match; try (by intros [= <- <-]; split_and!); intros E; by eapply fail_wf.
Qed.

(** A page is what follows the position. *)
Lemma load_follows env s (st : Store A P Ser X) events :
  el_wf (st_adapter st) → LoadEventsFromPosition env (sub_position s) 100 st = Ok events →
  events `prefix_of` after (sub_position s) (LogSpec.log (el_view (st_adapter st))).
Proof.
  intros Hwf E. apply load_page in E as (n & _ & ->); [|done]. rewrite selected_after. apply prefix_take.
Qed.

(** Past an event that is not sent, and past one that is. *)
Lemma step_over s e events ch raws log :
  sub_wf s log → log_ok log → raws `prefix_of` after (sub_position s) log → Forall2 opened raws (e :: events) →
  channel_wf ch → sent ch = sent (sub_eventCh s) ++ (if keeps o e then [e] else []) →
  let s' := setPosition (se_GlobalPosition e) (setEventCh ch s) in
  sub_wf s' log ∧ ∃ raws', raws' `prefix_of` after (sub_position s') log ∧ Forall2 opened raws' events.
Proof.
  intros [Ho Hc (ds & Hd & Hs) Hp Hst] [Hinc Hpos] Hr Hf Hcw Hsent. apply Forall2_cons_inv_r in Hf as (x & raws' & Hx & Hf & ->).
  destruct Hr as [rest Hr]. cbn in Hr. assert (start ≤ sub_position s) as Hle by (destruct Hp; lia).
  destruct (between_next start (sub_position s) log x (raws' ++ rest) Hinc Hle Hr) as (Hb & Ha & Hlt).
  pose proof (opened_position _ _ Hx) as Epos. cbn. split.
  - split; try done.
    + exists (ds ++ [e]). cbn. rewrite Epos, Hb. split; [by apply Forall2_app; [|constructor]|].
      rewrite filter_app, <- Hs, Hsent. f_equal. destruct (keeps o e) eqn:Ek; [by rewrite filter_cons_True|].
      by rewrite filter_cons_False by congruence.
    + right. cbn. rewrite Epos. split; [lia|]. apply headOf_max; [done|].
      assert (x ∈ after (sub_position s) log) as Hin by (rewrite Hr; left). by apply list_elem_of_filter in Hin as [_ ?].
  - exists raws'. split; [|done]. rewrite Epos, Ha. by apply prefix_app_r.
Qed.

Lemma turn_wf env take p s (st st' : Store A P Ser X) p' s' :
  let log := LogSpec.log (el_view (st_adapter st)) in
  el_wf (st_adapter st) → sub_wf s log → thread_wf p s log →
  turn k c supported pollInterval env take p (s, st) = Some (p', (s', st')) →
  after_turn s s' p' log ∧ st_adapter st' = st_adapter st.
Proof.
  intros log Hwf Hs Hp. assert (log_ok log) as Hok by apply (log_ok_wf st Hwf). unfold turn.
  assert (∀ r, keepStore st r = Some (p', (s', st')) → r = Some (s', p') ∧ st' = st) as Hon.
  { intros [[s1 p1]|]; cbn; [|done]. by intros [= -> -> ->]. }
  destruct p as [| |n|n|phase [|e events] dec|phase [|e events]| |]; cbn in Hp.
  - destruct k; [destruct supported|].
    + intros [= <- <- <-]. by split_and!.
    + intros [[= E] ->]%Hon. split; [|done]. by eapply fail_wf.
    + intros [[= E] ->]%Hon. split; [|done]. by eapply startTicker_wf.
  - intros [E ->]%Hon. split; [|done]. eapply selecting_wf; [done|exact E|]. clear E.
    destruct (idle env s); [|done]. destruct (LoadEventsFromPosition env (sub_position s) 100 st) as [[|e es]|err] eqn:El; intros [= E].
    + by eapply startTicker_wf.
    + subst s' p'. split_and!; try done. exists []. split; [|constructor]. by apply (load_follows env).
    + by eapply fail_wf.
  - intros [E ->]%Hon. split; [|done]. eapply selecting_wf; [done|exact E|]. clear E.
    destruct (negb supported); [intros [= <- <-]; by split_and!|].
    destruct (LoadEventsFromPosition env (sub_position s) 100 st) as [es|err] eqn:El; intros [= E].
    + subst s' p'. split_and!; try done. exists []. split; [|constructor]. by apply (load_follows env).
    + by eapply pollFailed_wf.
  - intros [E ->]%Hon. split; [|done]. eapply selecting_wf; [done|exact E|]. intros [= <- <-]. by split_and!.
  - intros [= <- <- <-]. split; [|done]. split_and!; try done. destruct Hp as (raws & Hr & ?).
    rewrite app_nil_r in Hr. by exists raws.
  - destruct Hp as (raws & Hr & Hf). destruct (DecryptStoredEvent _ _ _ _) as [q [d|err]] eqn:Ed.
    + intros [= <- <- <-]. split; [|done]. split_and!; try done. exists (raws ++ [e]). rewrite <- app_assoc. split; [done|].
      apply Forall2_app; [done|]. constructor; [|done]. by exists (time_Now env 0), (st_provider st), q.
    + destruct (fail err s) as [s1 p1] eqn:Ef. intros [= <- <- <-]. split; [|done]. by eapply fail_wf.
  - intros [= <- <- <-]. split; [|done]. by destruct phase; split_and!.
  - destruct Hp as (raws & Hr & Hf). rewrite (sw_options _ _ Hs). destruct (keeps o e) eqn:Ek; cbn [negb].
    + intros [E ->]%Hon. split; [|done]. eapply selecting_wf; [done|exact E|]. clear E.
      destruct (send e (sub_eventCh s)) as [ch|] eqn:Esend; [|done]. intros [= <- <-].
      destruct (step_over s e events ch raws log Hs Hok Hr Hf) as [Hs' Hp']; [by eapply send_wf, Esend; apply Hs| |].
      * rewrite Ek. eapply send_sent, Esend. apply Hs.
      * by split_and!.
    + intros [= <- <- <-]. split; [|done].
      destruct (step_over s e events (sub_eventCh s) raws log Hs Hok Hr Hf) as [Hs' Hp']; [apply Hs|by rewrite Ek, app_nil_r|].
      destruct s; by split_and!.
  - done.
  - done.
Qed.

(** ** Everything that can happen *)

(** A poller is started once, which nothing enforces. *)
Inductive subscription_action w : world → Prop :=
| sa_start : (k = Polling → wo_threads w = []) → subscription_action w (startSubscription k w).1
| sa_turn env take i w' : turnThread k c supported pollInterval env take i w = Some w' → subscription_action w w'
| sa_consume : subscription_action w (consume w)
| sa_close : subscription_action w (closeSub w)
| sa_others (st : Store A P Ser X) : grown (st_adapter (wo_store w)) (st_adapter st) →
    subscription_action w (mkWorld (wo_sub w) st (wo_threads w)).

Lemma onSub_wf f w :
  (∀ s log, sub_wf s log → sub_wf (f s) log) →
  (∀ s, sub_position (f s) = sub_position s ∧ (is_Some (sub_err s) → is_Some (sub_err (f s))) ∧
        (sub_closed s = true → sub_closed (f s) = true) ∧ (sub_started s = true → sub_started (f s) = true)) →
  subscription_wf w → subscription_wf (onSub f w).
Proof.
  intros Hf Hs [Hl Hsub Ht]. destruct (Hs (wo_sub w)) as (Hp & He & Hc & Hst). split; [done|by apply Hf|]. cbn.
  destruct Ht as [Ht|(p & Ht & Hw & Hstart)]; [by left|right]. exists p. split; [done|]. split; [|auto].
  unfold thread_wf in *. change (streamLog (onSub f w)) with (streamLog w). rewrite Hp. destruct p; try done. destruct Hw; auto.
Qed.

Lemma subscription_action_wf w w' : subscription_action w w' → subscription_wf w → subscription_wf w'.
Proof.
  intros [Honce|env take i w1 E| | |st Hg] Hwf.
  - destruct Hwf as [Hl Hs Ht]. unfold startSubscription, Start. destruct k eqn:Ek.
    + destruct (sub_started (wo_sub w)) eqn:Est; [split; [done|exact Hs|]|].
      { destruct Ht as [?|(p & ? & ? & ?)]; [by left|]. right. by exists p. }
      destruct Ht as [Ht|(p & _ & _ & Hstart)]; [|specialize (Hstart eq_refl); congruence].
      destruct (sub_closed (wo_sub w)) eqn:Ecl; cbn; [split; [done|exact Hs|by left]|].
      destruct Hs. split; [done|by split|]. cbn. rewrite Ht. right. by exists PEntry.
    + cbn. rewrite (Honce eq_refl). split; [done|exact Hs|]. right. exists PEntry. split_and!; [done|done|congruence].
  - destruct Hwf as [Hl Hs Ht]. unfold turnThread in E. destruct (wo_threads w !! i) as [p|] eqn:Ei; [|done].
    destruct Ht as [Ht|(p0 & Ht & Hp & Hstart)]; rewrite Ht in Ei; [done|].
    destruct i; [|done]. injection Ei as ->.
    destruct (turn _ _ _ _ _ _ _ _) as [[p' [s' st']]|] eqn:Et; [|done]. injection E as <-.
    destruct (turn_wf _ _ _ _ _ _ _ _ Hl Hs Hp Et) as [(Hs' & Hp' & Hst') Ha].
    split; cbn; unfold streamLog; cbn; rewrite ?Ha; [done|done|]. right. exists p'. rewrite Ht, Hst'. by split_and!.
  - apply onSub_wf; [|done|done]. intros s log [Ho Hc Hd Hp Hst]. split; try done; cbn; [by apply channel_receive_wf|].
    unfold delivered in *. cbn. by rewrite receive_sent.
  - apply onSub_wf; [| |done].
    + intros s log Hs. unfold CloseSubscription. destruct (sub_closed s); [done|]. by destruct Hs; split.
    + intros s. unfold CloseSubscription. by destruct (sub_closed s) eqn:Ec.
  - destruct Hwf as [Hl Hs Ht]. destruct (Hg Hl) as [Hl' Hpre].
    pose proof (log_ok_of w Hl) as Hok. pose proof (log_ok_wf st Hl') as Hok'.
    split; cbn; [done|exact (sub_wf_grows _ _ _ Hok Hok' Hpre Hs)|]. destruct Ht as [Ht|(p & Ht & Hp & Hstart)]; [by left|right].
    exists p. split; [done|]. split; [exact (thread_wf_grows _ _ _ _ Hpre Hp)|done].
Qed.
End Delivery.

(** C20: under any interleaving of its goroutine with the consumer, [Close], the
    context, other writers and revocations of keys, what a subscription
    started at [fromPosition] has sent is exactly the events of the log past
    [fromPosition] and up to its own position, each once, in log order, as they
    were opened, less those the filter drops: nothing is skipped, repeated or
    delivered out of order.  When its goroutine has ended, it was closed or
    [Err] says why. *)
Theorem subscription_delivers_in_order {A P Ser X} `{AEAD} `{ProviderOps P} `{EventLogOps A} `{!EventLogLaws A}
    k c supported pollInterval fromPosition opts s (st : Store A P Ser X) w :
  newSubscription fromPosition opts = Ok s → el_wf (st_adapter st) →
  rtc (subscription_action k c supported pollInterval) (mkWorld s st []) w →
  let ch := sub_eventCh (wo_sub w) in
  (∃ ds, Forall2 (opened (P := P) c) (between fromPosition (sub_position (wo_sub w)) (streamLog w)) ds ∧
         ch_received ch ++ ch_buffer ch = filter (λ d, keeps (chosenOptions opts) d = true) ds) ∧
  (PDone ∈ wo_threads w → is_Some (sub_err (wo_sub w)) ∨ sub_closed (wo_sub w) = true).
Proof.
  intros Hnew Hwf Hsteps.
  assert (subscription_wf k c fromPosition (chosenOptions opts) (mkWorld s st [])) as Hnewwf.
  { unfold newSubscription, makeChannel in Hnew. destruct (makechan _); [|done]. injection Hnew as <-. split; [done| |by left].
    split; cbn; try done; [|by left]. exists []. cbn. by rewrite between_empty. }
  assert (subscription_wf k c fromPosition (chosenOptions opts) w) as [_ Hs Ht].
  { clear Hnew Hwf. induction Hsteps as [|w1 w2 w3 Hstep _ IH]; [done|]. apply IH. by eapply subscription_action_wf. }
  split; [apply Hs|]. destruct Ht as [->|(p & -> & Hp & _)]; [by intros ?%not_elem_of_nil|].
  by intros <-%list_elem_of_singleton.
Qed.

(** ** The bridge over an adapter's subscription *)

Section Bridge.
Context {A P Ser X : Type} `{AEAD} `{ProviderOps P} (c : EventStore) (o : SubscriptionOptions).

(** [all] is everything the adapter has put on its channel. *)
Definition bridged : Type := list StoredEvent * (bridge * Store A P Ser X) * bridgePc.

Definition withBridge (f : bridge → bridge) (x : bridged) : bridged := (x.1.1, (f x.1.2.1, x.1.2.2), x.2).

Inductive bridge_action : bridged → bridged → Prop :=
| ba_turn env stop all x p x' p' : bridgeTurn c env stop p x = Some (p', x') → bridge_action (all, x, p) (all, x', p')
| ba_consume x : bridge_action x (withBridge (λ b, br_set (receive (br_eventCh b)) (br_err b) (br_incoming b) b) x)
| ba_close x : bridge_action x (withBridge CloseBridge x)
| ba_adapter e all b st p : bridge_action (all, (b, st), p)
    (all ++ [e], (br_set (br_eventCh b) (br_err b) (br_incoming b ++ [e]) b, st), p)
| ba_adapterCloses x : bridge_action x
    (withBridge (λ b, mkBridge (br_opts b) (br_eventCh b) (br_canceled b) (br_err b) (br_incoming b) true) x)
| ba_others all b st st' p : bridge_action (all, (b, st), p) (all, (b, st'), p).

(** What was taken from the adapter, opened; at most one event could not be
    opened and at most one is in hand. *)
Definition bridge_wf (x : bridged) : Prop :=
  let '(all, (b, _), p) := x in
  br_opts b = o ∧ channel_wf (br_eventCh b) ∧
  ∃ taken failed ds held, all = taken ++ failed ++ br_incoming b ∧ Forall2 (opened (P := P) c) taken ds ∧
    sent (br_eventCh b) ++ held = filter (λ d, keeps o d = true) ds ∧
    match p with
    | BReceive => failed = [] ∧ held = []
    | BSend d => failed = [] ∧ held = [d]
    | BDone => (length failed + length held ≤ 1)%nat ∧ (failed ≠ [] → is_Some (br_err b))
    end.

Lemma br_finish_spec env b b' p :
  channel_wf (br_eventCh b) → br_finish env b = (b', p) →
  p = BDone ∧ br_opts b' = br_opts b ∧ channel_wf (br_eventCh b') ∧ sent (br_eventCh b') = sent (br_eventCh b) ∧
  br_incoming b' = br_incoming b ∧ (is_Some (br_err b) → is_Some (br_err b')).
Proof.
  intros Hw. unfold br_finish, reportStop, br_setErr. destruct (ctx_Err env) as [err|]; cbn.
  all: destruct (closeChannel (br_eventCh b)) as [ch|] eqn:E; intros [= <- <-]; cbn; split_and!; try done.
  all: try (by apply closeChannel_spec in E as [? ?]). all: by destruct (br_err b).
Qed.

Lemma bridgeTurn_wf env stop all x p x' p' :
  bridgeTurn c env stop p x = Some (p', x') → bridge_wf (all, x, p) → bridge_wf (all, x', p').
Proof.
  destruct x as [b st]. intros E (Ho & Hc & taken & failed & ds & held & Ha & Hf & Hs & Hp). destruct p as [|d|]; cbn in E; [| |done].
  - destruct Hp as [-> ->]. destruct stop.
    { destruct (subCtxDone env b); [|done]. destruct (br_finish env b) as [b1 p1] eqn:Eb. injection E as <- <-.
      apply br_finish_spec in Eb as (-> & Ho1 & Hc1 & Hs1 & Hi1 & _); [|done]. split; [congruence|]. split; [done|].
      exists taken, [], ds, []. rewrite Hi1, Hs1. split_and!; try done. cbn. lia. }
    destruct (br_incoming b) as [|e rest] eqn:Ei.
    { destruct (br_incomingClosed b); [|done]. destruct (br_finish env b) as [b1 p1] eqn:Eb. injection E as <- <-.
      apply br_finish_spec in Eb as (-> & Ho1 & Hc1 & Hs1 & Hi1 & _); [|done]. split; [congruence|]. split; [done|].
      exists taken, [], ds, []. rewrite Hi1, Hs1, Ei. split_and!; try done. cbn. lia. }
    destruct (DecryptStoredEvent _ _ _ _) as [q [d|err]] eqn:Ed.
    + injection E as <- <-. cbn. split; [done|]. split; [done|]. rewrite Ho.
      exists (taken ++ [e]), [], (ds ++ [d]), (if keeps o d then [d] else []). cbn. split_and!.
      * by rewrite <- app_assoc.
      * apply Forall2_app; [done|]. constructor; [|done]. by eexists _, _, _.
      * rewrite filter_app, <- Hs, app_nil_r. f_equal. destruct (keeps o d) eqn:Ek; [by rewrite filter_cons_True|by rewrite filter_cons_False by congruence].
      * by destruct (keeps o d).
    + destruct (br_finish env _) as [b1 p1] eqn:Eb. injection E as <- <-.
      apply br_finish_spec in Eb as (-> & Ho1 & Hc1 & Hs1 & Hi1 & He1); [|done]. split; [by rewrite Ho1|]. split; [done|].
      exists taken, [e], ds, []. rewrite Hi1, Hs1. split_and!; try done. intros _. apply He1. cbn. by destruct (br_err b).
  - destruct Hp as [-> ->]. destruct stop.
    { destruct (subCtxDone env b); [|done]. destruct (br_finish env b) as [b1 p1] eqn:Eb. injection E as <- <-.
      apply br_finish_spec in Eb as (-> & Ho1 & Hc1 & Hs1 & Hi1 & _); [|done]. split; [congruence|]. split; [done|].
      exists taken, [], ds, [d]. by rewrite Hi1, Hs1. }
    destruct (send d (br_eventCh b)) as [ch|] eqn:Es; [|done]. injection E as <- <-. split; [done|].
    split; [by eapply send_wf|]. exists taken, [], ds, []. cbn. split_and!; try done.
    rewrite app_nil_r, (send_sent _ _ _ Hc Es). done.
Qed.

(** What a native subscription delivers is what the adapter put on its channel,
    in order, opened and filtered; it ends early only with an error or when it
    is closed. *)
Theorem bridge_delivers_in_order opts incoming b st x :
  subscribeViaAdapter opts (Ok incoming) = Ok b → o = chosenOptions opts →
  rtc bridge_action (incoming, (b, st), BReceive) x → bridge_wf x.
Proof.
  unfold subscribeViaAdapter, makeChannel. destruct (makechan _); [|done]. intros [= <-] Ho Hsteps.
  assert (∀ x y, bridge_action x y → bridge_wf x → bridge_wf y) as Hpres.
  { intros y z [env stop all y1 p y2 p' E|y1|y1|e all b1 st1 p|y1|all b1 st1 st2 p]; [by eapply bridgeTurn_wf|..].
    all: try destruct y1 as [[all [b1 st1]] p]; intros (Ho1 & Hc & taken & failed & ds & held & Ha & Hf & Hs & Hp); cbn in *.
    - split; [done|]. split; [by apply channel_receive_wf|]. exists taken, failed, ds, held. cbn. by rewrite receive_sent.
    - split; [done|]. split; [done|]. by exists taken, failed, ds, held.
    - split; [done|]. split; [done|]. exists taken, failed, ds, held. cbn. split; [by rewrite Ha, !app_assoc|]. by split.
    - split; [done|]. split; [done|]. by exists taken, failed, ds, held.
    - split; [done|]. split; [done|]. by exists taken, failed, ds, held. }
  assert (bridge_wf (incoming, (mkBridge (chosenOptions opts) (mkChannel (opt_BufferSize (chosenOptions opts)) [] [] false false) false None incoming false, st), BReceive)) as Hinit.
  { split; [done|]. split; [done|]. by exists [], [], [], []. }
  clear Ho. induction Hsteps as [|x y z Hstep _ IH]; [done|]. by eapply IH, Hpres.
Qed.
End Bridge.

(** ** A concrete subscription

    Over the store of the erasure example; [play] runs moves. *)

Inductive move := MStart | MTurn (take : choice) (i : nat) | MConsume | MClose | MRevoke (key : string).

Section Play.
Context {A Ser X : Type} `{AEAD} `{EventLogOps A} `{!EventLogLaws A}.
Context (k : kind) (c : EventStore) (pollInterval : Duration).
Local Abbreviation world := (world A Provider Ser X).

Definition playMove (w : world) (mv : move) : option world :=
  match mv with
  | MStart => Some (startSubscription k w).1
  | MTurn take i => turnThread k c true pollInterval sampleEnv take i w
  | MConsume => Some (consume w)
  | MClose => Some (closeSub w)
  | MRevoke key => Some (mkWorld (wo_sub w) (set_provider (wo_store w) (RevokeKey key (st_provider (wo_store w))).1) (wo_threads w))
  end.

Fixpoint play (moves : list move) (w : world) : option world :=
  match moves with [] => Some w | mv :: moves => playMove w mv ≫= play moves end.

Lemma play_actions moves w w' :
  k = Catchup → play moves w = Some w' → rtc (subscription_action k c true pollInterval) w w'.
Proof.
  intros Hk. revert w. induction moves as [|mv moves IH]; intros w; cbn [play]; [intros [= ->]; apply rtc_refl|].
  destruct (playMove w mv) as [w1|] eqn:E; [|done]. cbn. intros Hp. eapply rtc_l; [|by apply IH].
  destruct mv; cbn in E.
  - injection E as <-. apply sa_start. congruence.
  - by eapply sa_turn.
  - injection E as <-. apply sa_consume.
  - injection E as <-. apply sa_close.
  - injection E as <-. by apply sa_others.
Qed.
End Play.

#[local] Existing Instances toyAEAD toyAEAD_laws sampleLog sampleLog_laws.

Definition userEvents : list SubscriptionOptions :=
  [mkSubscriptionOptions 1 (Some (CompositeFilter_Matches [CategoryFilter_Matches "User"; EventTypeFilter_Matches (NewEventTypeFilter ["UserRegistered"])]))
     true 0 5].

Definition sampleSub : subscription :=
  match NewCatchupSubscription 0 userEvents with Ok s => s | Err _ => mkSubscription DefaultSubscriptionOptions 0 (mkChannel 0 [] [] false false) false None false false end.

(** The first event is opened, its key revoked, and the second opened and sent
    when the consumer makes room. *)
Definition sampleMoves : list move :=
  [MStart] ++ replicate 3 (MTurn Proceed 0) ++ [MRevoke "tenant-a"] ++ replicate 3 (MTurn Proceed 0) ++
  [MTurn Proceed 0; MConsume; MTurn Proceed 0].

Definition subscribed : option _ := play Catchup erasureConfig 1 sampleMoves (mkWorld sampleSub erasureStore []).

Definition subscribedWorld :=
  match subscribed with Some w => w | None => mkWorld sampleSub erasureStore [] end.

Lemma subscribed_runs : subscribed = Some subscribedWorld.
Proof.
  unfold subscribedWorld. assert (is_Some subscribed) as [w ->]; [|done]. apply is_Some_alt. vm_compute. exact I.
Qed.

Lemma subscription_delivers_in_order_witness :
  (se_StreamID <$> ch_received (sub_eventCh (wo_sub subscribedWorld)),
   se_StreamID <$> ch_buffer (sub_eventCh (wo_sub subscribedWorld)), sub_position (wo_sub subscribedWorld)) =
    (["User-7"], ["User-8"], 2) ∧
  ∃ ds, Forall2 (opened (P := Provider) erasureConfig) (between 0 (sub_position (wo_sub subscribedWorld)) (streamLog subscribedWorld)) ds ∧
        ch_received (sub_eventCh (wo_sub subscribedWorld)) ++ ch_buffer (sub_eventCh (wo_sub subscribedWorld)) =
          filter (λ d, keeps (chosenOptions userEvents) d = true) ds.
Proof.
  split; [vm_compute; reflexivity|].
  apply (subscription_delivers_in_order Catchup erasureConfig true 1 0 userEvents sampleSub erasureStore subscribedWorld eq_refl
    erasureStore_wf (play_actions Catchup erasureConfig 1 sampleMoves _ _ eq_refl subscribed_runs)).
Defined.

(** A poller started twice delivers every event twice. *)
Example second_poller_duplicates :
  (λ w, se_GlobalPosition <$> sent (sub_eventCh (wo_sub w))) <$>
    play Polling erasureConfig 1
      ([MStart; MStart] ++ [MTurn Proceed 0; MTurn Proceed 1; MTurn Proceed 0; MTurn Proceed 1] ++
       replicate 7 (MTurn Proceed 0) ++ replicate 7 (MTurn Proceed 1))
      (mkWorld (mkSubscription DefaultSubscriptionOptions 0 (mkChannel 256 [] [] false false) false None false false) erasureStore []) =
  Some [1; 2; 3; 1; 2; 3].
Proof. vm_compute. reflexivity. Qed.
