(* ===== verification/Repository.v ===== *)
(** * Read model repositories

    The query language and the in-memory repository of [src/repository.go]:
    values as Go's reflection sees them, the filters, the order and the pages.
    A model is a pointer into a memory that its caller shares. *)

From Stdlib Require Import Floats.SpecFloat.
From S2P Require Import Prelude.
From S2P Require Import Utf8.
From S2P Require Import Types.
From S2P Require Import Strconv.

(** ** Queries *)

Inductive FilterOp :=
| FilterOpEq | FilterOpNe | FilterOpGt | FilterOpGte | FilterOpLt | FilterOpLte | FilterOpIn | FilterOpNotIn
| FilterOpLike | FilterOpIsNull | FilterOpIsNotNull | FilterOpContains | FilterOpBetween
| FilterOpOther (op : string).

(** A Go value: its type's name, and what [reflect] finds in it.  Pointers,
    slices and the like have an address; [VOpaque] is a map, channel or
    function. *)
Inductive value :=
| VNil
| VBool (type : string) (b : bool)
| VInt (type : string) (z : Z)
| VUint (type : string) (z : Z)
| VFloat (type : string) (f : float64)
| VString (type : string) (s : string)
| VTime (t : Time) (repr : nat)     (* the instant; the location and the rest *)
| VPtr (type : string) (target : option (nat * value))
| VSlice (type : string) (items : option (nat * list value))
| VArray (type : string) (items : list value)
| VStruct (type : string) (fields : list value)
| VOpaque (type : string) (contents : option nat).

Record Filter := mkFilter { f_Field : string; f_Op : FilterOp; f_Value : value }.
Record OrderBy := mkOrderBy { ob_Field : string; ob_Desc : bool }.

Record Query := mkQuery {
  q_Filters : list Filter;
  q_OrderBy : list OrderBy;
  q_Limit : Z;
  q_Offset : Z;
  q_IncludeCount : bool;
}.

Definition NewQuery : Query := mkQuery [] [] 0 0 false.

Definition Where (field : string) (op : FilterOp) (v : value) (q : Query) : Query :=
  mkQuery (q_Filters q ++ [mkFilter field op v]) (q_OrderBy q) (q_Limit q) (q_Offset q) (q_IncludeCount q).
Definition And := Where.
Definition OrderByAsc (field : string) (q : Query) : Query :=
  mkQuery (q_Filters q) (q_OrderBy q ++ [mkOrderBy field false]) (q_Limit q) (q_Offset q) (q_IncludeCount q).
Definition OrderByDesc (field : string) (q : Query) : Query :=
  mkQuery (q_Filters q) (q_OrderBy q ++ [mkOrderBy field true]) (q_Limit q) (q_Offset q) (q_IncludeCount q).
Definition WithLimit (limit : Z) (q : Query) : Query :=
  mkQuery (q_Filters q) (q_OrderBy q) limit (q_Offset q) (q_IncludeCount q).
Definition WithOffset (offset : Z) (q : Query) : Query :=
  mkQuery (q_Filters q) (q_OrderBy q) (q_Limit q) offset (q_IncludeCount q).
Definition WithPagination (page pageSize : Z) (q : Query) : Query :=
  let offset := i64 (i64 (page - 1) * pageSize) in
  mkQuery (q_Filters q) (q_OrderBy q) pageSize (if offset <? 0 then 0 else offset) (q_IncludeCount q).
Definition WithCount (q : Query) : Query := mkQuery (q_Filters q) (q_OrderBy q) (q_Limit q) (q_Offset q) true.

(** ** Comparing values *)

Definition isNilValue (v : value) : bool :=
  match v with VNil | VPtr _ None | VSlice _ None | VOpaque _ None => true | _ => false end.

(** NaN is less and greater than nothing. *)
Definition toFloat (v : value) : option float64 :=
  match v with VInt _ z | VUint _ z => Some (float64OfInt z) | VFloat _ f => Some f | _ => None end.

Definition toTime (v : value) : option Time := match v with VTime t _ => Some t | _ => None end.

Definition compareFloat (x y : float64) : comparison := if SFltb x y then Lt else if SFltb y x then Gt else Eq.

(** [strings.Compare] *)
Fixpoint compareString (a b : string) : comparison :=
  match a, b with
  | "", "" => Eq
  | "", _ => Lt
  | _, "" => Gt
  | String x a, String y b => match byteZ x ?= byteZ y with Eq => compareString a b | c => c end
  end.

(** [None] when the comparison is not defined.  [v.(string)] holds of the
    predeclared type only. *)
Definition compareOrdered (a b : value) : option comparison :=
  match toTime a with
  | Some t => match toTime b with Some t' => Some (t ?= t') | None => None end
  | None =>
      match toFloat a with
      | Some x => match toFloat b with Some y => Some (compareFloat x y) | None => None end
      | None =>
          match a, b with
          | VString "string" s, VString "string" s' => Some (compareString s s')
          | _, _ => None
          end
      end
  end.

(** [reflect.DeepEqual]; what a map, channel or function holds is compared by
    [opaque]. *)
Fixpoint deepEqual (opaque : nat → nat → bool) (a b : value) {struct a} : bool :=
  let list := fix go l l' := match l, l' with [], [] => true | x :: l, y :: l' => deepEqual opaque x y && go l l' | _, _ => false end in
  match a, b with
  | VNil, VNil => true
  | VBool t x, VBool t' y => bool_decide (t = t') && Bool.eqb x y
  | VInt t x, VInt t' y | VUint t x, VUint t' y => bool_decide (t = t') && (x =? y)
  | VFloat t x, VFloat t' y => bool_decide (t = t') && SFeqb x y
  | VString t x, VString t' y => bool_decide (t = t') && bool_decide (x = y)
  | VTime x r, VTime y r' => (x =? y) && bool_decide (r = r')
  | VPtr t x, VPtr t' y =>
      bool_decide (t = t') &&
      match x, y with
      | None, None => true
      | Some (l, x), Some (l', y) => bool_decide (l = l') || deepEqual opaque x y
      | _, _ => false
      end
  | VSlice t x, VSlice t' y =>
      bool_decide (t = t') &&
      match x, y with
      | None, None => true
      | Some (l, x), Some (l', y) =>
          bool_decide (length x = length y) && (bool_decide (l = l') || list x y)
      | _, _ => false
      end
  | VArray t x, VArray t' y | VStruct t x, VStruct t' y => bool_decide (t = t') && list x y
  | VOpaque t x, VOpaque t' y =>
      bool_decide (t = t') &&
      match x, y with None, None => true | Some c, Some c' => opaque c c' | _, _ => false end
  | _, _ => false
  end.

Section Values.
Context (opaque : nat → nat → bool).

Definition valuesEqual (a b : value) : bool :=
  match compareOrdered a b with
  | Some c => match c with Eq => true | _ => false end
  | None => deepEqual opaque a b
  end.

Definition toSlice (v : value) : option (list value) :=
  match v with
  | VSlice _ None => Some []
  | VSlice _ (Some (_, items)) | VArray _ items => Some items
  | _ => None
  end.

(** [strings.Contains] *)
Definition stringsContains (s sub : string) : bool := match String.index 0 sub s with Some _ => true | None => false end.

Definition matchContains (v target : value) : bool :=
  match v with
  | VString "string" s => match target with VString "string" sub => stringsContains s sub | _ => false end
  | _ =>
      match toSlice v with
      | Some items => existsb (λ item, valuesEqual item target) items
      | None => false
      end
  end.

(** ** LIKE

    The anchored expression [compileLike] builds, over the runes of a string;
    a byte that starts no rune is read as U+FFFD. *)
Inductive reAtom := ReAnySequence | ReAny | ReLiteral (rune : string).

Definition likeRunes (s : string) : list string := default (EncodeRune 65533) <$> runes (String.length s) s.

Definition compileLike (pattern : string) : list reAtom :=
  (λ r, if bool_decide (r = "%") then ReAnySequence else if bool_decide (r = "_") then ReAny else ReLiteral r) <$>
  likeRunes pattern.

(** [re.MatchString] *)
Fixpoint reMatch (re : list reAtom) (text : list string) : bool :=
  match re with
  | [] => match text with [] => true | _ => false end
  | ReAny :: re => match text with _ :: text => reMatch re text | [] => false end
  | ReLiteral r :: re => match text with c :: text => bool_decide (c = r) && reMatch re text | [] => false end
  | ReAnySequence :: re =>
      (fix star text := reMatch re text || match text with [] => false | _ :: text => star text end) text
  end.

(** ** Filters *)

Record compiledFilter := mkCompiledFilter {
  cf_field : string;
  cf_op : FilterOp;
  cf_value : value;
  cf_re : list reAtom;
  cf_set : list value;
  cf_lo : value;
  cf_hi : value;
}.

Definition plain (f : Filter) : compiledFilter := mkCompiledFilter (f_Field f) (f_Op f) (f_Value f) [] [] VNil VNil.

Definition compileFilter (f : Filter) : res compiledFilter :=
  let with_ re set lo hi := mkCompiledFilter (f_Field f) (f_Op f) (f_Value f) re set lo hi in
  match f_Op f with
  | FilterOpEq | FilterOpNe | FilterOpGt | FilterOpGte | FilterOpLt | FilterOpLte
  | FilterOpContains | FilterOpIsNull | FilterOpIsNotNull => Ok (plain f)
  | FilterOpLike =>
      match f_Value f with
      | VString "string" pattern => Ok (with_ (compileLike pattern) [] VNil VNil)
      | _ => Err (Wrapf "%w: LIKE requires a string value" ErrInvalidQuery)
      end
  | FilterOpIn | FilterOpNotIn =>
      match toSlice (f_Value f) with
      | None => Err (Wrapf "%w: %s requires a slice value" ErrInvalidQuery)
      | Some [] => Err (Wrapf "%w: %s requires a non-empty slice" ErrInvalidQuery)
      | Some items => Ok (with_ [] items VNil VNil)
      end
  | FilterOpBetween =>
      match toSlice (f_Value f) with
      | Some [lo; hi] => Ok (with_ [] [] lo hi)
      | _ => Err (Wrapf "%w: BETWEEN requires a [low, high] value" ErrInvalidQuery)
      end
  | FilterOpOther _ => Err (Wrapf "%w: unsupported filter operator %q" ErrInvalidQuery)
  end.

Fixpoint compileFilters (filters : list Filter) : res (list compiledFilter) :=
  match filters with
  | [] => Ok []
  | f :: filters =>
      match compileFilter f with
      | Err err => Err err
      | Ok cf => match compileFilters filters with Err err => Err err | Ok cfs => Ok (cf :: cfs) end
      end
  end.

(** One filter on the value of its field, if the model has it. *)
Definition matchCompiled (v : option value) (cf : compiledFilter) : bool :=
  match cf_op cf with
  | FilterOpIsNull => match v with None => true | Some v => isNilValue v end
  | FilterOpIsNotNull => match v with None => false | Some v => negb (isNilValue v) end
  | op =>
      match v with
      | None => match op with FilterOpNe => true | _ => false end
      | Some v =>
          match op with
          | FilterOpEq => valuesEqual v (cf_value cf)
          | FilterOpNe => negb (valuesEqual v (cf_value cf))
          | FilterOpGt => match compareOrdered v (cf_value cf) with Some Gt => true | _ => false end
          | FilterOpGte => match compareOrdered v (cf_value cf) with Some (Gt | Eq) => true | _ => false end
          | FilterOpLt => match compareOrdered v (cf_value cf) with Some Lt => true | _ => false end
          | FilterOpLte => match compareOrdered v (cf_value cf) with Some (Lt | Eq) => true | _ => false end
          | FilterOpIn => existsb (λ item, valuesEqual v item) (cf_set cf)
          | FilterOpNotIn => negb (existsb (λ item, valuesEqual v item) (cf_set cf))
          | FilterOpLike => match v with VString "string" s => reMatch (cf_re cf) (likeRunes s) | _ => false end
          | FilterOpContains => matchContains v (cf_value cf)
          | FilterOpBetween =>
              match compareOrdered v (cf_lo cf), compareOrdered v (cf_hi cf) with
              | Some (Gt | Eq), Some (Lt | Eq) => true
              | _, _ => false
              end
          | _ => false
          end
      end
  end.
End Values.

(** ** Struct fields *)

Inductive goType := TOther | TPtr (elem : goType) | TStruct (fields : list structField)
with structField := mkStructField (name jsonTag : string) (anonymous exported : bool) (type : goType).

Definition fields_of (t : goType) : list structField := match t with TStruct fields => fields | _ => [] end.

Fixpoint stripPointers (t : goType) : goType := match t with TPtr t => stripPointers t | _ => t end.

(** [strings.Split(tag, ",")[0]] *)
Definition beforeComma (tag : string) : string :=
  match String.index 0 "," tag with Some i => String.substring 0 i tag | None => tag end.

Class StringsToLower := strings_ToLower : string → string.

Section Reflection.
Context `{StringsToLower}.

(** The first field to claim a key keeps it. *)
Definition claim (key : string) (idx : list nat) (m : gmap string (list nat)) : gmap string (list nat) :=
  match m !! key with Some _ => m | None => <[key := idx]> m end.

(** A field of a level: what it adds to the index, or an embedded struct for the
    next level. *)
Definition indexField (prefix : list nat) (i : nat) (sf : structField) (m : gmap string (list nat)) (next : list (goType * list nat))
    : gmap string (list nat) * list (goType * list nat) :=
  let '(mkStructField name jsonTag anonymous exported type) := sf in
  let idx := prefix ++ [i] in
  let ft := stripPointers type in
  if anonymous && match ft with TStruct _ => true | _ => false end then (m, next ++ [(ft, idx)])
  else if negb exported then (m, next)
  else
    let tag := beforeComma jsonTag in
    let m := if negb (bool_decide (tag = "")) && negb (bool_decide (tag = "-")) then claim tag idx m else m in
    let lname := strings_ToLower name in
    (if negb (bool_decide (lname = "")) then claim lname idx m else m, next).

Fixpoint indexFields (prefix : list nat) (i : nat) (fields : list structField) (m : gmap string (list nat))
    (next : list (goType * list nat)) : gmap string (list nat) * list (goType * list nat) :=
  match fields with
  | [] => (m, next)
  | sf :: fields => let '(m, next) := indexField prefix i sf m next in indexFields prefix (S i) fields m next
  end.

(** Breadth first, so that a shallower field wins. *)
Fixpoint buildFieldIndex (depth : nat) (level : list (goType * list nat)) (m : gmap string (list nat)) : gmap string (list nat) :=
  match depth, level with
  | S depth, _ :: _ =>
      let '(m, next) := foldl (λ '(m, next) '(t, prefix), indexFields prefix 0 (fields_of t) m next) (m, []) level in
      buildFieldIndex depth next m
  | _, _ => m
  end.

(** How deep structs are embedded in a type. *)
Fixpoint embedding (t : goType) : nat :=
  match t with
  | TOther => 0
  | TPtr t => embedding t
  | TStruct fields => S (foldr (λ '(mkStructField _ _ _ _ t) n, Nat.max (embedding t) n) 0%nat fields)
  end.

Definition fieldIndexFor (t : goType) : gmap string (list nat) := buildFieldIndex (embedding t) [(t, [])] ∅.

Definition lookupField (t : goType) (field : string) : option (list nat) :=
  match fieldIndexFor t !! field with Some idx => Some idx | None => fieldIndexFor t !! strings_ToLower field end.

(** Through the pointers of a value; nil stops. *)
Fixpoint deref (v : value) : option value :=
  match v with VPtr _ None => None | VPtr _ (Some (_, v)) => deref v | _ => Some v end.

Fixpoint fieldByIndexPath (v : value) (idx : list nat) : option value :=
  match idx with
  | [] => Some v
  | i :: idx =>
      match deref v with
      | Some (VStruct _ fields) => match fields !! i with Some v => fieldByIndexPath v idx | None => None end
      | _ => None
      end
  end.

(** The model's own pointer is never nil here. *)
Definition fieldValue (t : goType) (model : value) (field : string) : option value :=
  match stripPointers t with
  | TStruct _ as t => match lookupField t field with Some idx => fieldByIndexPath model idx | None => None end
  | _ => None
  end.

Fixpoint validateFilterFields (t : goType) (filters : list Filter) : option error :=
  match stripPointers t with
  | TStruct _ as s =>
      match filters with
      | [] => None
      | f :: filters =>
          match lookupField s (f_Field f) with
          | Some _ => validateFilterFields t filters
          | None => Some (UnknownFilterFieldError (f_Field f))
          end
      end
  | _ => None
  end.
End Reflection.

(** ** The repository *)

(** [sort.SliceStable]: what the stable sort gives when the comparison is a weak
    order on the elements, some permutation otherwise. *)
Definition weak_order_on {A} (less : A → A → bool) (l : list A) : Prop :=
  (∀ x y, x ∈ l → y ∈ l → less x y = true → less y x = false) ∧
  (∀ x y z, x ∈ l → y ∈ l → z ∈ l → less x y = false → less y z = false → less x z = false).

Class SliceStable := {
  sortStable : ∀ {A}, (A → A → bool) → list A → list A;
  sortStable_perm : ∀ {A} (less : A → A → bool) l, sortStable less l ≡ₚ l;
  sortStable_sorts : ∀ {A} (less : A → A → bool) l, weak_order_on less l → sortStable less l = stableSort less l;
}.

Definition listStable : SliceStable :=
  {| sortStable := @stableSort; sortStable_perm := @stableSort_perm; sortStable_sorts := λ A less l _, eq_refl |}.

(** The models by their ids, as pointers; what they point to is in a memory. *)
Definition Memory := nat → value.
Definition write (l : nat) (v : value) (mem : Memory) : Memory := λ l', if decide (l' = l) then v else mem l'.
Abbreviation InMemoryRepository := (gmap string nat).
Definition NewInMemoryRepository : InMemoryRepository := ∅.

Section Repository.
Context `{MapOrder} `{SliceStable} `{StringsToLower} (opaque : nat → nat → bool).
Context (T : goType) (getID : value → string).
Implicit Types mem : Memory.
Implicit Types r : InMemoryRepository.

Definition model_field (model : value) (field : string) : option value := fieldValue T model field.

Definition matchesCompiled (model : value) (filters : list compiledFilter) : bool :=
  forallb (λ cf, matchCompiled opaque (model_field model (cf_field cf)) cf) filters.

(** The results are shallow copies: values. *)
Definition Get (id : string) mem r : res value :=
  match r !! id with Some l => Ok (mem l) | None => Err ErrNotFound end.

Definition GetMany (ids : list string) mem r : list value := mem <$> omap (λ id, r !! id) ids.

Definition matchingModels (query : Query) mem r : res (list nat) :=
  match validateFilterFields T (q_Filters query) with
  | Some err => Err err
  | None =>
      match compileFilters (q_Filters query) with
      | Err err => Err err
      | Ok compiled => Ok (filter (λ l, matchesCompiled (mem l) compiled = true) ((range r).*2))
      end
  end.

Record decorated := mkDecorated { dec_model : nat; dec_keys : list value; dec_id : string }.

(** The pairs of keys in the order of the criteria, then the ids. *)
Fixpoint lessKeys (orderBy : list OrderBy) (ks ks' : list value) (id id' : string) : bool :=
  match orderBy, ks, ks' with
  | ob :: orderBy, k :: ks, k' :: ks' =>
      match compareOrdered k k' with
      | None | Some Eq => lessKeys orderBy ks ks' id id'
      | Some Lt => negb (ob_Desc ob)
      | Some Gt => ob_Desc ob
      end
  | _, _, _ => match compareString id id' with Lt => true | _ => false end
  end.

Definition decorate (orderBy : list OrderBy) mem (l : nat) : decorated :=
  mkDecorated l ((λ ob, default VNil (model_field (mem l) (ob_Field ob))) <$> orderBy) (getID (mem l)).

Definition orderModels (orderBy : list OrderBy) mem (models : list nat) : list nat :=
  match orderBy with
  | [] => sortStable (λ l l', match compareString (getID (mem l)) (getID (mem l')) with Lt => true | _ => false end) models
  | _ => dec_model <$> sortStable (λ d d', lessKeys orderBy (dec_keys d) (dec_keys d') (dec_id d) (dec_id d')) (decorate orderBy mem <$> models)
  end.

(** Offset and limit. *)
Definition paginate (query : Query) (matched : list nat) : list nat :=
  if (0 <? q_Offset query) && (Z.of_nat (length matched) <=? q_Offset query) then []
  else
    let matched := if 0 <? q_Offset query then drop (Z.to_nat (q_Offset query)) matched else matched in
    if (0 <? q_Limit query) && (q_Limit query <? Z.of_nat (length matched)) then take (Z.to_nat (q_Limit query)) matched else matched.

Definition Find (query : Query) mem r : res (list value) :=
  match matchingModels query mem r with
  | Err err => Err err
  | Ok matched => Ok (mem <$> paginate query (orderModels (q_OrderBy query) mem matched))
  end.

Definition FindOne (query : Query) mem r : res value :=
  match Find (WithLimit 1 query) mem r with
  | Err err => Err err
  | Ok [] => Err ErrNotFound
  | Ok (v :: _) => Ok v
  end.

Definition Count (query : Query) mem r : res Z :=
  match q_Filters query with
  | [] => Ok (Z.of_nat (size r))
  | _ => match matchingModels query mem r with Err err => Err err | Ok matched => Ok (Z.of_nat (length matched)) end
  end.

(** The caller's pointer is kept. *)
Definition Insert (l : nat) mem r : InMemoryRepository * res unit :=
  match r !! getID (mem l) with
  | Some _ => (r, Err ErrAlreadyExists)
  | None => (<[getID (mem l) := l]> r, Ok tt)
  end.

Definition Upsert (l : nat) mem r : InMemoryRepository * res unit := (<[getID (mem l) := l]> r, Ok tt).

(** [updateFn] writes through the stored pointer; the map is not touched. *)
Definition Update (id : string) (updateFn : value → value) mem r : Memory * res unit :=
  match r !! id with
  | None => (mem, Err ErrNotFound)
  | Some l => (write l (updateFn (mem l)) mem, Ok tt)
  end.

Definition Delete (id : string) r : InMemoryRepository * res unit :=
  match r !! id with None => (r, Err ErrNotFound) | Some _ => (delete id r, Ok tt) end.

Definition DeleteMany (query : Query) mem r : InMemoryRepository * res Z :=
  match q_Filters query with
  | [] => (∅, Ok (Z.of_nat (size r)))
  | filters =>
      match validateFilterFields T filters with
      | Some err => (r, Err err)
      | None =>
          match compileFilters filters with
          | Err err => (r, Err err)
          | Ok compiled =>
              let toDelete := (filter (λ x, matchesCompiled (mem x.2) compiled = true) (range r)).*1 in
              (foldl (λ r id, delete id r) r toDelete, Ok (Z.of_nat (length toDelete)))
          end
      end
  end.

Definition Clear r : InMemoryRepository := ∅.
Definition Len r : Z := Z.of_nat (size r).
Definition Exists (id : string) r : bool := match r !! id with Some _ => true | None => false end.
Definition GetAll mem r : list value := mem <$> (range r).*2.
End Repository.
