(* ===== verification/RepositoryTheorems.v ===== *)
(** * What a repository promises

    The in-memory repository is a finite map of models by id; a query returns a
    page of the matching models in a fixed order; LIKE is SQL's. *)

From Stdlib Require Import Floats.SpecFloat.
From S2P Require Import Prelude.
From S2P Require Import Utf8.
From S2P Require Import Types.
From S2P Require Import Strconv.
From S2P Require Import Repository.

(** ** Three-way comparisons *)

Record total_cmp {A} (c : A → A → comparison) : Prop := {
  tc_opp : ∀ x y, c y x = CompOpp (c x y);
  tc_trans : ∀ x y z, c x y = Lt → c y z = Lt → c x z = Lt;
  tc_eq : ∀ x y z, c x y = Eq → c x z = c y z;
}.

Lemma total_cmp_refl {A} (c : A → A → comparison) x : total_cmp c → c x x = Eq.
Proof. intros [Ho _ _]. specialize (Ho x x). by destruct (c x x). Qed.

Definition lt_of (c : comparison) : bool := match c with Lt => true | _ => false end.

Lemma total_cmp_weak {A} (c : A → A → comparison) : total_cmp c → weak_order (λ x y, lt_of (c x y)).
Proof.
  intros [Ho Ht He]. split.
  - intros x y. rewrite (Ho x y). by destruct (c x y).
  - intros x y z Hxy Hyz. destruct (c x z) eqn:E; try done. exfalso.
    destruct (c x y) eqn:Exy; try done; [rewrite (He _ _ _ Exy) in E; by rewrite E in Hyz|].
    assert (c y x = Lt) as Hyx by (rewrite (Ho x y); by rewrite Exy). by rewrite (Ht _ _ _ Hyx E) in Hyz.
Qed.

Lemma Z_total_cmp : total_cmp Z.compare.
Proof.
  split.
  - intros x y. apply Z.compare_antisym.
  - intros x y z. rewrite !Z.compare_lt_iff. lia.
  - intros x y z. rewrite Z.compare_eq_iff. by intros ->.
Qed.

Lemma opp_total_cmp {A} (c : A → A → comparison) : total_cmp c → total_cmp (λ x y, CompOpp (c x y)).
Proof.
  intros [Ho Ht He]. split.
  - intros x y. by rewrite (Ho x y).
  - intros x y z Hxy Hyz. assert (c y x = Lt ∧ c z y = Lt) as [Hyx Hzy] by (rewrite (Ho x y), (Ho y z); destruct (c x y), (c y z); done).
    pose proof (Ht _ _ _ Hzy Hyx) as Hzx. rewrite (Ho z x), Hzx. done.
  - intros x y z Hxy. rewrite (He x y z); [done|]. by destruct (c x y).
Qed.

(** First by one, then by the other. *)
Definition cmp_then {A} (c d : A → A → comparison) (x y : A) : comparison := match c x y with Eq => d x y | r => r end.

Lemma then_total_cmp {A} (c d : A → A → comparison) : total_cmp c → total_cmp d → total_cmp (cmp_then c d).
Proof.
  intros [Ho Ht He] [Ho' Ht' He']. unfold cmp_then. split.
  - intros x y. rewrite (Ho x y), (Ho' x y). by destruct (c x y).
  - intros x y z. destruct (c x y) eqn:Exy; try done.
    + intros Hd. rewrite (He _ _ z Exy). destruct (c y z); try done. by apply Ht'.
    + intros _. destruct (c y z) eqn:Eyz; try done.
      * intros _. assert (c z y = Eq) as Ezy by (rewrite (Ho y z); by rewrite Eyz).
        assert (c z x = c y x) as Ezx by by apply He. rewrite (Ho z x), Ezx, (Ho x y), Exy. done.
      * intros _. by rewrite (Ht _ _ _ Exy Eyz).
  - intros x y z. destruct (c x y) eqn:Exy; try done. intros Hd. rewrite (He _ _ z Exy). destruct (c y z); try done. by apply He'.
Qed.

Lemma on_total_cmp {A B} (f : A → B) (c : B → B → comparison) : total_cmp c → total_cmp (λ x y, c (f x) (f y)).
Proof. intros [Ho Ht He]. split; intros; eauto. Qed.

(** Lists of numbers, as in a dictionary. *)
Fixpoint lexcmp (l l' : list Z) : comparison :=
  match l, l' with
  | [], [] => Eq
  | [], _ => Lt
  | _, [] => Gt
  | x :: l, y :: l' => match x ?= y with Eq => lexcmp l l' | c => c end
  end.

Lemma lexcmp_total : total_cmp lexcmp.
Proof.
  destruct Z_total_cmp as [Ho Ht He]. split.
  - intros l. induction l as [|x l IH]; intros [|y l']; cbn; try done. rewrite (Ho x y), IH. by destruct (x ?= y).
  - intros l. induction l as [|x l IH]; intros [|y l'] [|z l'']; cbn; try done.
    destruct (Z.compare_spec x y) as [->|Hxy|Hxy]; try done.
    + destruct (y ?= z); try done. apply IH.
    + intros _. destruct (Z.compare_spec y z) as [->|Hyz|Hyz]; try done; intros _.
      * by rewrite (proj2 (Z.compare_lt_iff _ _) Hxy).
      * by rewrite (proj2 (Z.compare_lt_iff x z)) by lia.
  - intros l. induction l as [|x l IH]; intros [|y l']; cbn; try done. intros [|z l'']; cbn.
    + intros _. done.
    + destruct (Z.compare_spec x y) as [->|Hxy|Hxy]; try done. intros Hl. destruct (y ?= z); try done. by apply IH.
Qed.

Lemma lexcmp_eq l l' : lexcmp l l' = Eq → l = l'.
Proof.
  revert l'. induction l as [|x l IH]; intros [|y l']; cbn; try done.
  destruct (Z.compare_spec x y) as [->|Hxy|Hxy]; try done. intros Hl. by rewrite (IH l' Hl).
Qed.

(** ** Keys

    The values a criterion sorts: of one kind, and no NaN among them. *)
Inductive keyKind := KTime | KNumber | KString | KOther.

#[export] Instance keyKind_eq_dec : EqDecision keyKind.
Proof. solve_decision. Defined.

Definition kindOf (v : value) : option keyKind :=
  match toTime v with
  | Some _ => Some KTime
  | None =>
      match toFloat v with
      | Some S754_nan => None
      | Some _ => Some KNumber
      | None => match v with VString "string" _ => Some KString | _ => Some KOther end
      end
  end.

Definition uniform (vs : list value) : Prop := ∃ κ, ∀ v, v ∈ vs → kindOf v = Some κ.

Definition floatKey (x : float64) : list Z :=
  match x with
  | S754_infinity true => [-2; 0; 0]
  | S754_finite true m e => [-1; - e; - Zpos m]
  | S754_zero _ => [0; 0; 0]
  | S754_finite false m e => [1; e; Zpos m]
  | S754_infinity false => [2; 0; 0]
  | S754_nan => [3; 0; 0]
  end.

Definition stringKey (s : string) : list Z := byteZ <$> String.list_ascii_of_string s.

Definition valueKey (v : value) : list Z :=
  match toTime v with
  | Some t => [t]
  | None =>
      match toFloat v with
      | Some x => floatKey x
      | None => match v with VString "string" s => stringKey s | _ => [] end
      end
  end.

Lemma compareString_key s s' : compareString s s' = lexcmp (stringKey s) (stringKey s').
Proof.
  revert s'. induction s as [|a s IH]; intros [|b s']; cbn; try done. rewrite IH. done.
Qed.

Lemma SFltb_key x y : x ≠ S754_nan → y ≠ S754_nan → SFltb x y = lt_of (lexcmp (floatKey x) (floatKey y)).
Proof.
  intros Hx Hy. unfold SFltb, SFcompare. destruct x as [[]|[]| |[] m e], y as [[]|[]| |[] m' e']; try done; cbn.
  - rewrite !Z.compare_opp, Z.compare_antisym, (Z.compare_antisym (Zpos m) (Zpos m')). cbn.
    change (Pos.compare_cont Eq m m') with (m ?= m')%positive. rewrite (Z.compare_antisym e e'). 
    destruct (e ?= e'); cbn; try done. by destruct (m ?= m')%positive.
  - destruct (e ?= e'); cbn; try done. change (Pos.compare_cont Eq m m') with (m ?= m')%positive. by destruct (m ?= m')%positive.
Qed.

Lemma compareFloat_key x y : x ≠ S754_nan → y ≠ S754_nan → compareFloat x y = lexcmp (floatKey x) (floatKey y).
Proof.
  intros Hx Hy. unfold compareFloat. rewrite !SFltb_key by done. rewrite (tc_opp _ lexcmp_total (floatKey x) (floatKey y)).
  by destruct (lexcmp _ _).
Qed.

Lemma match_string {A} (type : string) (x y : A) :
  match type with "string" => x | _ => y end = if (type =? "string")%string then x else y.
Proof. by repeat (match goal with |- context [match ?s with _ => _ end] => is_var s; destruct s end). Qed.

(** On values of one kind the comparison is that of their keys. *)
Lemma compareOrdered_key κ a b :
  kindOf a = Some κ → kindOf b = Some κ → default Eq (compareOrdered a b) = lexcmp (valueKey a) (valueKey b).
Proof.
  unfold kindOf, compareOrdered, valueKey. destruct (toTime a) as [t|], (toTime b) as [t'|]; cbn.
  - intros _ _. by destruct (t ?= t').
  - intros [= <-]. destruct (toFloat b) as [[]|]; try done. by repeat case_match.
  - destruct (toFloat a) as [x|]; [|by repeat case_match; intros; simplify_eq].
    by destruct x; intros; simplify_eq.
  - destruct (toFloat a) as [x|] eqn:Ea, (toFloat b) as [y|] eqn:Eb; cbn.
    + intros Hx Hy. apply compareFloat_key; [by destruct x|by destruct y].
    + destruct x; try done; intros [= <-]; by repeat case_match.
    + destruct y; try done; intros Ha [= <-]; revert Ha; by repeat case_match.
    + destruct a, b; try done; rewrite ?match_string;
        repeat match goal with |- context [(?s =? "string")%string] => destruct (s =? "string")%string end;
        intros; simplify_eq; try done; apply compareString_key.
Qed.

(** When a key comes before another: an earlier instant, a smaller number, a
    smaller string byte by byte. *)
Inductive keyBefore : value → value → Prop :=
| instant_before a b t t' : toTime a = Some t → toTime b = Some t' → t < t' → keyBefore a b
| number_before a b x y : toFloat a = Some x → toFloat b = Some y → SFcompare x y = Some Lt → keyBefore a b
| string_before s s' : String.compare s s' = Lt → keyBefore (VString "string" s) (VString "string" s').

Lemma compareString_compare s s' : compareString s s' = String.compare s s'.
Proof.
  revert s'. induction s as [|a s IH]; intros [|b s']; cbn; try done. unfold byteZ, Ascii.compare.
  rewrite <- N2Z.inj_compare, IH. done.
Qed.

Lemma compareOrdered_before a b : default Eq (compareOrdered a b) = Lt ↔ keyBefore a b.
Proof.
  split.
  - unfold compareOrdered. destruct (toTime a) as [t|] eqn:Ea.
    { destruct (toTime b) as [t'|] eqn:Eb; cbn; [|done]. intros Hlt. by eapply instant_before. }
    destruct (toFloat a) as [x|] eqn:Fa.
    { destruct (toFloat b) as [y|] eqn:Fb; cbn; [|done]. unfold compareFloat. destruct (SFltb x y) eqn:Exy; [|by destruct (SFltb y x)].
      intros _. eapply number_before; [done..|]. unfold SFltb in Exy. by destruct (SFcompare x y) as [[]|]. }
    destruct a, b; try done; rewrite ?match_string;
      repeat match goal with |- context [(?s =? "string")%string] => destruct (String.eqb_spec s "string") end;
      subst; try done. cbn. rewrite compareString_compare. intros Hlt. by constructor.
  - intros [a' b' t t' Ea Eb Hlt|a' b' x y Fa Fb Hlt|s s' Hlt]; unfold compareOrdered.
    + rewrite Ea, Eb. exact Hlt.
    + assert (toTime a' = None) as -> by (by destruct a'). rewrite Fa, Fb. cbn. unfold compareFloat, SFltb. by rewrite Hlt.
    + cbn. by rewrite compareString_compare.
Qed.

Lemma keyBefore_key κ a b :
  kindOf a = Some κ → kindOf b = Some κ → lexcmp (valueKey a) (valueKey b) = Lt ↔ keyBefore a b.
Proof. intros Ha Hb. by rewrite <- (compareOrdered_key κ a b Ha Hb), compareOrdered_before. Qed.

(** ** The order of the results *)

(** The criteria from the [i]th key on, then the ids. *)
Definition rowCmp (orderBy : list OrderBy) (i : nat) : decorated → decorated → comparison :=
  let fix go (orderBy : list OrderBy) (i : nat) :=
    match orderBy with
    | [] => λ d d', lexcmp (stringKey (dec_id d)) (stringKey (dec_id d'))
    | ob :: orderBy =>
        let key d := valueKey (nth i (dec_keys d) VNil) in
        cmp_then (if ob_Desc ob then λ d d', CompOpp (lexcmp (key d) (key d')) else λ d d', lexcmp (key d) (key d')) (go orderBy (S i))
    end in go orderBy i.

Lemma rowCmp_total orderBy i : total_cmp (rowCmp orderBy i).
Proof.
  unfold rowCmp. revert i. induction orderBy as [|ob orderBy IH]; intros i; [apply (on_total_cmp (λ d, stringKey (dec_id d))), lexcmp_total|].
  apply then_total_cmp; [|apply IH]. destruct (ob_Desc ob).
  - apply opp_total_cmp, (on_total_cmp (λ d, valueKey (nth i (dec_keys d) VNil))), lexcmp_total.
  - apply (on_total_cmp (λ d, valueKey (nth i (dec_keys d) VNil))), lexcmp_total.
Qed.

Lemma rowCmp_eq orderBy i d d' : rowCmp orderBy i d d' = Eq → dec_id d = dec_id d'.
Proof.
  unfold rowCmp. revert i. induction orderBy as [|ob orderBy IH]; intros i; cbn.
  - intros E%lexcmp_eq. revert E. generalize (dec_id d) (dec_id d'). intros a. induction a as [|x a IHa]; intros [|y b]; try done.
    intros [= Hx Ha]. rewrite (IHa b Ha). f_equal. rewrite <- (ascii_N_embedding x), <- (ascii_N_embedding y). f_equal. unfold byteZ in Hx. lia.
  - unfold cmp_then at 1. case_match; try done. apply IH.
Qed.

Lemma lessKeys_rowCmp orderBy i d d' :
  length (dec_keys d) = (i + length orderBy)%nat → length (dec_keys d') = (i + length orderBy)%nat →
  (∀ j, (i ≤ j)%nat → (j < length (dec_keys d))%nat → ∃ κ, kindOf (nth j (dec_keys d) VNil) = Some κ ∧ kindOf (nth j (dec_keys d') VNil) = Some κ) →
  lessKeys orderBy (drop i (dec_keys d)) (drop i (dec_keys d')) (dec_id d) (dec_id d') = lt_of (rowCmp orderBy i d d').
Proof.
  revert i. induction orderBy as [|ob orderBy IH]; intros i Hl Hl' Hk; cbn [length] in *.
  - cbn. rewrite compareString_key. done.
  - assert (∀ ks : list value, length ks = (i + S (length orderBy))%nat → drop i ks = nth i ks VNil :: drop (S i) ks) as Hdrop.
    { intros ks Hks. rewrite (drop_S ks (nth i ks VNil) i); [done|]. destruct (lookup_lt_is_Some_2 ks i) as [v Hv]; [lia|].
      rewrite Hv. f_equal. symmetry. apply nth_lookup_Some with (d := VNil) in Hv. done. }
    rewrite (Hdrop (dec_keys d)), (Hdrop (dec_keys d')) by lia. cbn [lessKeys].
    destruct (Hk i) as (κ & K1 & K2); [lia|lia|]. pose proof (compareOrdered_key κ _ _ K1 K2) as Hc.
    specialize (IH (S i) ltac:(lia) ltac:(lia)).
    assert (rowCmp (ob :: orderBy) i d d' = cmp_then (if ob_Desc ob then λ d d', CompOpp (lexcmp (valueKey (nth i (dec_keys d) VNil)) (valueKey (nth i (dec_keys d') VNil)))
      else λ d d', lexcmp (valueKey (nth i (dec_keys d) VNil)) (valueKey (nth i (dec_keys d') VNil))) (rowCmp orderBy (S i)) d d') as -> by done.
    unfold cmp_then. destruct (compareOrdered _ _) as [[]|]; cbn in Hc; destruct (ob_Desc ob); rewrite <- Hc; cbn; try done; apply IH; intros; apply Hk; lia.
Qed.

(** ** Sorting *)

Lemma insertBy_ext {A} (less less' : A → A → bool) x l :
  (∀ y, y ∈ l → less x y = less' x y) → insertBy less x l = insertBy less' x l.
Proof.
  induction l as [|y l IH]; intros Hl; cbn; [done|]. rewrite (Hl y) by left. rewrite IH; [done|]. intros z Hz. apply Hl. by right.
Qed.

Lemma stableSort_ext {A} (less less' : A → A → bool) l :
  (∀ x y, x ∈ l → y ∈ l → less x y = less' x y) → stableSort less l = stableSort less' l.
Proof.
  intros Hl. unfold stableSort.
  enough (∀ k acc, (∀ x, x ∈ acc ++ k → x ∈ l) → foldl (λ acc x, insertBy less x acc) acc k = foldl (λ acc x, insertBy less' x acc) acc k) as Hx.
  { apply Hx. by intros x. }
  induction k as [|x k IH]; intros acc Hin; cbn; [done|].
  rewrite (insertBy_ext less less').
  - apply IH. intros y Hy. apply Hin. rewrite elem_of_app, insertBy_perm, elem_of_cons in Hy. rewrite elem_of_app, elem_of_cons. tauto.
  - intros y Hy. apply Hl; apply Hin; rewrite elem_of_app, ?elem_of_cons; tauto.
Qed.

(** Any stable sort by a comparison that separates the elements gives the one
    sorted list. *)
Lemma sort_determined {A} (c : A → A → comparison) (less : A → A → bool) (l : list A) :
  total_cmp c → (∀ x y, x ∈ l → y ∈ l → less x y = lt_of (c x y)) → (∀ x y, x ∈ l → y ∈ l → c x y = Eq → x = y) →
  ∃ s, s ≡ₚ l ∧ StronglySorted (λ x y, lt_of (c y x) = false) s ∧
    ∀ (SS : SliceStable) l', l' ≡ₚ l → sortStable less l' = s.
Proof.
  intros Hc Hless Heq. set (less' := λ x y, lt_of (c x y)). pose proof (total_cmp_weak c Hc) as Hw.
  exists (stableSort less' l). split; [apply stableSort_perm|]. split; [by apply (stableSort_sorted less')|].
  intros SS l' Hp. rewrite sortStable_sorts.
  - rewrite (stableSort_ext less less'); [|intros x y Hx Hy; apply Hless; by rewrite <- Hp].
    eapply (StronglySorted_unique_strong (λ x y, less' y x = false)).
    + intros x y Hx Hy H1 H2. rewrite stableSort_perm, Hp in Hx. rewrite stableSort_perm in Hy. apply Heq; try done.
      unfold less', lt_of in H1, H2. rewrite (tc_opp c Hc x y) in H1. by destruct (c x y).
    + by apply stableSort_sorted.
    + by apply stableSort_sorted.
    + by rewrite !stableSort_perm.
  - split.
    + intros x y Hx Hy. rewrite Hp in Hx, Hy. rewrite !Hless by done. apply (less_asym _ Hw).
    + intros x y z Hx Hy Hz. rewrite Hp in Hx, Hy, Hz. rewrite !Hless by done. apply (less_ntrans _ Hw).
Qed.

(** ** The finite map *)

Section Refinement.
Context `{StringsToLower} (opaque : nat → nat → bool) (T : goType) (getID : value → string).
Implicit Types mem : Memory.
Implicit Types r : InMemoryRepository.

(** What the repository holds, and that every model is under its own id. *)
Definition contents mem r : gmap string value := mem <$> r.
Definition consistent mem r : Prop := ∀ id l, r !! id = Some l → getID (mem l) = id.

Definition matches (compiled : list compiledFilter) (v : value) : bool := matchesCompiled opaque T v compiled.

Lemma range_values `{MapOrder} mem r (P : value → bool) :
  mem <$> filter (λ l, P (mem l) = true) ((range r).*2) ≡ₚ filter (λ v, P v = true) ((map_to_list (contents mem r)).*2).
Proof.
  rewrite range_perm. unfold contents. rewrite map_to_list_fmap. generalize (map_to_list r). intros l.
  induction l as [|[id x] l IH]; [done|]. rewrite !fmap_cons, !filter_cons. cbn [snd prod_map].
  destruct (decide (P (mem x) = true)); [|done]. rewrite fmap_cons. by constructor.
Qed.

Lemma range_ids `{MapOrder} mem r : consistent mem r → NoDup ((λ l, getID (mem l)) <$> (range r).*2).
Proof.
  intros Hc. assert ((λ l, getID (mem l)) <$> (range r).*2 = (range r).*1) as ->; [|apply NoDup_range_keys].
  rewrite <- list_fmap_compose. apply list_fmap_ext. intros i [id l] Hx. apply list_elem_of_lookup_2, elem_of_range in Hx. cbn. by apply Hc.
Qed.

Definition row mem (orderBy : list OrderBy) (l : nat) : decorated := decorate T getID orderBy mem l.

Definition fieldOf (v : value) (ob : OrderBy) : value := default VNil (model_field T v (ob_Field ob)).

(** The order asked for: the first criterion on which two models differ
    decides, ascending or descending as it says, and the ids decide when they
    tie on all. *)
Fixpoint rowsBefore (orderBy : list OrderBy) (v v' : value) : Prop :=
  match orderBy with
  | [] => String.compare (getID v) (getID v') = Lt
  | ob :: orderBy =>
      (if ob_Desc ob then keyBefore (fieldOf v' ob) (fieldOf v ob) else keyBefore (fieldOf v ob) (fieldOf v' ob)) ∨
      (¬ keyBefore (fieldOf v ob) (fieldOf v' ob) ∧ ¬ keyBefore (fieldOf v' ob) (fieldOf v ob) ∧ rowsBefore orderBy v v')
  end.

(** Every criterion sorts values of one kind. *)
Definition sortable (orderBy : list OrderBy) mem r : Prop :=
  ∀ ob, ob ∈ orderBy → uniform ((λ v, default VNil (model_field T v (ob_Field ob))) <$> (map_to_list (contents mem r)).*2).

Lemma stored_value mem r id l : r !! id = Some l → mem l ∈ (map_to_list (contents mem r)).*2.
Proof.
  intros Hl. apply list_elem_of_fmap. exists (id, mem l). split; [done|]. apply elem_of_map_to_list. unfold contents. by rewrite lookup_fmap, Hl.
Qed.

Lemma row_less mem r orderBy l l' id id' :
  sortable orderBy mem r → r !! id = Some l → r !! id' = Some l' →
  lessKeys orderBy (dec_keys (row mem orderBy l)) (dec_keys (row mem orderBy l')) (dec_id (row mem orderBy l)) (dec_id (row mem orderBy l')) =
  lt_of (rowCmp orderBy 0 (row mem orderBy l) (row mem orderBy l')).
Proof.
  intros Hs Hl Hl'. rewrite <- lessKeys_rowCmp; [by rewrite !drop_0|by cbn; rewrite length_fmap..|].
  intros j _ Hj. cbn in Hj |- *. rewrite length_fmap in Hj. apply lookup_lt_is_Some_2 in Hj as [ob Hob].
  destruct (Hs ob ltac:(by eapply list_elem_of_lookup_2)) as [κ Hκ]. exists κ.
  assert (∀ k, nth j ((λ ob, default VNil (model_field T (mem k) (ob_Field ob))) <$> orderBy) VNil = default VNil (model_field T (mem k) (ob_Field ob))) as Hnth.
  { intros k. apply nth_lookup_Some with (d := VNil). by rewrite list_lookup_fmap, Hob. }
  rewrite !Hnth. split; apply Hκ, list_elem_of_fmap; eexists; (split; [reflexivity|]); by eapply stored_value.
Qed.

(** On sortable models the comparison of rows is the order asked for. *)
Lemma rowCmp_before mem r l l' id id' pre orderBy :
  sortable (pre ++ orderBy) mem r → r !! id = Some l → r !! id' = Some l' →
  rowCmp orderBy (length pre) (row mem (pre ++ orderBy) l) (row mem (pre ++ orderBy) l') = Lt →
  rowsBefore orderBy (mem l) (mem l').
Proof.
  intros Hs Hl Hl'. revert pre Hs. induction orderBy as [|ob orderBy IH]; intros pre Hs; cbn [rowsBefore].
  { intros Hc. by rewrite <- compareString_compare, compareString_key. }
  assert (∀ k, nth (length pre) (dec_keys (row mem (pre ++ ob :: orderBy) k)) VNil = fieldOf (mem k) ob) as Hnth.
  { intros k. cbn. fold (fieldOf (mem k)). rewrite fmap_app. cbn. rewrite <- (length_fmap (fieldOf (mem k)) pre). apply nth_middle. }
  set (d := row _ _ l) in *. set (d' := row _ _ l') in *.
  assert (rowCmp (ob :: orderBy) (length pre) d d' =
    cmp_then (if ob_Desc ob then λ d d', CompOpp (lexcmp (valueKey (nth (length pre) (dec_keys d) VNil)) (valueKey (nth (length pre) (dec_keys d') VNil)))
      else λ d d', lexcmp (valueKey (nth (length pre) (dec_keys d) VNil)) (valueKey (nth (length pre) (dec_keys d') VNil)))
      (rowCmp orderBy (S (length pre))) d d') as -> by done.
  destruct (Hs ob) as [κ Hκ]; [apply elem_of_app; right; left|].
  assert (∀ k i, r !! i = Some k → kindOf (fieldOf (mem k) ob) = Some κ) as Hkind.
  { intros k i Hk. apply Hκ. apply list_elem_of_fmap. eexists. split; [reflexivity|]. by eapply stored_value. }
  pose proof (keyBefore_key κ _ _ (Hkind _ _ Hl) (Hkind _ _ Hl')) as H1.
  pose proof (keyBefore_key κ _ _ (Hkind _ _ Hl') (Hkind _ _ Hl)) as H2.
  rewrite (tc_opp _ lexcmp_total (valueKey (fieldOf (mem l) ob))) in H2.
  specialize (IH (pre ++ [ob])). rewrite length_app, <- app_assoc in IH. cbn [length app] in IH. rewrite Nat.add_1_r in IH.
  unfold cmp_then. destruct (ob_Desc ob); unfold d, d'; rewrite !Hnth; fold d d';
    destruct (lexcmp _ _) eqn:E; cbn [CompOpp] in *; try done; intros Hc; [right|left; by apply H2|right|left; by apply H1];
    (split; [by intros ?%H1|]); (split; [by intros ?%H2|]); by apply IH.
Qed.

Lemma row_determined mem r l l' id id' :
  consistent mem r → r !! id = Some l → r !! id' = Some l' → getID (mem l) = getID (mem l') → l = l'.
Proof. intros Hc Hl Hl' E. rewrite (Hc _ _ Hl), (Hc _ _ Hl') in E. subst id'. by simplify_eq. Qed.

Lemma rows_models mem orderBy (l : list nat) : dec_model <$> (row mem orderBy <$> l) = l.
Proof. induction l as [|x l IH]; [done|]. cbn. by rewrite IH. Qed.

Lemma insertBy_fmap {A B} (f : A → B) (less : B → B → bool) x l :
  insertBy less (f x) (f <$> l) = f <$> insertBy (λ x y, less (f x) (f y)) x l.
Proof. induction l as [|y l IH]; cbn; [done|]. destruct (less (f x) (f y)); [done|]. cbn. by rewrite <- IH. Qed.

Lemma stableSort_fmap {A B} (f : A → B) (less : B → B → bool) l :
  stableSort less (f <$> l) = f <$> stableSort (λ x y, less (f x) (f y)) l.
Proof.
  unfold stableSort. change (@nil B) with (f <$> @nil A). generalize (@nil A). induction l as [|x l IH]; intros acc; [done|].
  rewrite fmap_cons. cbn [foldl]. by rewrite insertBy_fmap, IH.
Qed.

(** The models that match, in the one order of the criteria. *)
Lemma order_determined mem r orderBy (P : value → bool) :
  consistent mem r → sortable orderBy mem r →
  ∃ all : list nat,
    mem <$> all ≡ₚ filter (λ v, P v = true) ((map_to_list (contents mem r)).*2) ∧
    StronglySorted (rowsBefore orderBy) (mem <$> all) ∧
    ∀ (MO : MapOrder) (SS : SliceStable), orderModels T getID orderBy mem (filter (λ l, P (mem l) = true) ((range r).*2)) = all.
Proof.
  intros Hc Hs. set (l0 := filter (λ l, P (mem l) = true) ((map_to_list r).*2)).
  assert (∀ l, l ∈ l0 → ∃ id, r !! id = Some l) as Hin.
  { intros l Hl. apply list_elem_of_filter in Hl as [_ Hl]. apply list_elem_of_fmap in Hl as ([id l'] & -> & Hl).
    exists id. by apply elem_of_map_to_list in Hl. }
  assert (NoDup l0) as Hnd.
  { apply NoDup_filter. pose proof (@range_ids listOrder mem r Hc) as Hr. apply NoDup_fmap_1 in Hr. exact Hr. }
  destruct (sort_determined (rowCmp orderBy 0)
    (λ d d', lessKeys orderBy (dec_keys d) (dec_keys d') (dec_id d) (dec_id d')) (row mem orderBy <$> l0)) as (s & Hp & Hsorted & Hall).
  { apply rowCmp_total. }
  { intros d d' (l & -> & Hl)%list_elem_of_fmap (l' & -> & Hl')%list_elem_of_fmap.
    destruct (Hin l Hl) as [id E], (Hin l' Hl') as [id' E']. by eapply row_less. }
  { intros d d' (l & -> & Hl)%list_elem_of_fmap (l' & -> & Hl')%list_elem_of_fmap Heq%rowCmp_eq.
    destruct (Hin l Hl) as [id E], (Hin l' Hl') as [id' E']. by rewrite (row_determined mem r l l' id id'). }
  assert (∀ d, d ∈ s → ∃ l id, d = row mem orderBy l ∧ r !! id = Some l) as Hrows.
  { intros d Hd. rewrite Hp in Hd. apply list_elem_of_fmap in Hd as (l & -> & Hl). destruct (Hin l Hl) as [id ?]. by exists l, id. }
  exists (dec_model <$> s). split; [|split].
  - rewrite Hp. rewrite <- (@range_values listOrder). fold l0. by rewrite rows_models.
  - rewrite <- list_fmap_compose. assert (NoDup s) as Hnds.
    { rewrite Hp. apply (NoDup_fmap_1 dec_model). by rewrite rows_models. }
    clear Hp Hall. induction Hsorted as [|d s Hss IH Hd]; [constructor|]. apply NoDup_cons in Hnds as [Hni Hnds].
    constructor; [apply IH; [|done]; intros x Hx; apply Hrows; by right|]. apply Forall_fmap, Forall_forall. intros d' Hd'.
    rewrite Forall_forall in Hd. specialize (Hd d' Hd'). destruct (Hrows d ltac:(left)) as (l & id & -> & El).
    destruct (Hrows d' ltac:(by right)) as (l' & id' & -> & El'). apply (rowCmp_before mem r l l' id id' []); [done..|]. cbn [app length].
    change (dec_model (row mem orderBy l)) with l in *. change (dec_model (row mem orderBy l')) with l' in *.
    rewrite (tc_opp _ (rowCmp_total orderBy 0) (row mem orderBy l)) in Hd.
    destruct (rowCmp orderBy 0 (row mem orderBy l) (row mem orderBy l')) eqn:E; try done. apply rowCmp_eq in E. cbn in E.
    exfalso. apply Hni. by rewrite (row_determined mem r l l' id id').
  - intros MO SS. assert (filter (λ l, P (mem l) = true) (range r).*2 ≡ₚ l0) as Hpr by (unfold l0; by rewrite range_perm).
    destruct orderBy as [|ob orderBy]; [|cbn [orderModels]; f_equal; apply Hall; by rewrite Hpr].
    set (l' := filter _ (range r).*2) in *. pose proof (Hall listStable (row mem [] <$> l') ltac:(apply fmap_Permutation; exact Hpr)) as Hrow. cbn in Hrow.
    rewrite stableSort_fmap in Hrow. rewrite <- Hrow, rows_models. cbn [orderModels].
    rewrite sortStable_sorts; [done|]. pose proof (total_cmp_weak _ (rowCmp_total [] 0)) as Hw.
    split.
    + intros x y _ _. rewrite !compareString_key. exact (less_asym _ Hw (row mem [] x) (row mem [] y)).
    + intros x y z _ _ _. rewrite !compareString_key. exact (less_ntrans _ Hw (row mem [] x) (row mem [] y) (row mem [] z)).
Qed.

Definition pageOf {A} (limit offset : Z) (l : list A) : list A :=
  let l := drop (Z.to_nat offset) l in if 0 <? limit then take (Z.to_nat limit) l else l.

Lemma paginate_pageOf q l : paginate q l = pageOf (q_Limit q) (q_Offset q) l.
Proof.
  unfold paginate, pageOf. destruct (Z.ltb_spec 0 (q_Offset q)) as [Ho|Ho]; cbn [andb].
  - destruct (Z.leb_spec (Z.of_nat (length l)) (q_Offset q)).
    + rewrite drop_ge by lia. by destruct (0 <? q_Limit q); [rewrite take_nil|].
    + destruct (0 <? q_Limit q); cbn [andb]; [|done]. destruct (Z.ltb_spec (q_Limit q) (Z.of_nat (length (drop (Z.to_nat (q_Offset q)) l)))); [done|].
      symmetry. apply take_ge. lia.
  - replace (Z.to_nat (q_Offset q)) with 0%nat by lia. rewrite drop_0. destruct (0 <? q_Limit q); cbn [andb]; [|done].
    destruct (Z.ltb_spec (q_Limit q) (Z.of_nat (length l))); [done|]. symmetry. apply take_ge. lia.
Qed.

Lemma fmap_pageOf {A B} (f : A → B) limit offset l : f <$> pageOf limit offset l = pageOf limit offset (f <$> l).
Proof. unfold pageOf. destruct (0 <? limit); by rewrite ?fmap_take, fmap_drop. Qed.

(** C24: where the values that each criterion sorts are of one kind (instants,
    numbers, strings, or none of these) and no NaN is among them, the models a
    query matches have one order, strictly increasing by its criteria, each
    ascending or descending as it says, and then by id; and [Find] returns the
    page its limit and offset cut out of it, whatever order the map is iterated
    in and whatever stable sort runs: successive pages neither repeat nor miss
    a model. *)
Theorem find_returns_pages mem r query compiled :
  consistent mem r → sortable (q_OrderBy query) mem r →
  validateFilterFields T (q_Filters query) = None → compileFilters (q_Filters query) = Ok compiled →
  ∃ all : list value,
    all ≡ₚ filter (λ v, matches compiled v = true) ((map_to_list (contents mem r)).*2) ∧
    StronglySorted (rowsBefore (q_OrderBy query)) all ∧
    ∀ (MO : MapOrder) (SS : SliceStable) limit offset,
      Find opaque T getID (WithOffset offset (WithLimit limit query)) mem r = Ok (pageOf limit offset all).
Proof.
  intros Hc Hs Hv Hf. destruct (order_determined mem r (q_OrderBy query) (matches compiled) Hc Hs) as (all & Hp & Hsorted & Hall).
  exists (mem <$> all). split; [done|]. split; [done|]. intros MO SS limit offset.
  unfold Find, matchingModels. cbn [WithOffset WithLimit q_Filters q_OrderBy]. rewrite Hv, Hf.
  rewrite paginate_pageOf, fmap_pageOf. cbn [q_Limit q_Offset]. by rewrite <- (Hall MO SS).
Qed.

(** ** The operations *)

Lemma foldl_delete (ids : list string) r id : foldl (λ r id, delete id r) r ids !! id = if decide (id ∈ ids) then None else r !! id.
Proof.
  revert r. induction ids as [|x ids IH]; intros r; cbn; [by rewrite decide_False by apply not_elem_of_nil|]. rewrite IH.
  destruct (decide (id ∈ ids)); [by rewrite decide_True by (by right)|]. destruct (decide (id = x)) as [->|].
  - rewrite decide_True by left. apply lookup_delete_eq.
  - rewrite decide_False by (intros [?|?]%elem_of_cons; done). by apply lookup_delete_ne.
Qed.

Lemma consistent_fresh mem r l v : (∀ id, r !! id ≠ Some l) → consistent mem r → consistent (write l v mem) r.
Proof. intros Hl Hc id l' E. unfold write. destruct (decide (l' = l)) as [->|]; [by destruct (Hl id)|by apply Hc]. Qed.

(** A write through the one pointer of an id. *)
Lemma contents_write mem r id l v :
  consistent mem r → r !! id = Some l → contents (write l v mem) r = <[id := v]> (contents mem r).
Proof.
  intros Hc Hl. unfold contents. apply map_eq. intros id'. rewrite lookup_fmap. unfold write.
  destruct (decide (id' = id)) as [->|Hne].
  - rewrite lookup_insert_eq, Hl. cbn. by rewrite decide_True.
  - rewrite lookup_insert_ne, lookup_fmap by done. destruct (r !! id') as [l'|] eqn:E; [|done]. cbn. rewrite decide_False; [done|].
    intros ->. apply Hne. by rewrite <- (Hc _ _ E), <- (Hc _ _ Hl).
Qed.

Lemma insert_ok mem r l : consistent mem r → consistent mem (<[getID (mem l) := l]> r).
Proof. intros Hc id l' [[<- <-]|[_ E]]%lookup_insert_Some; [done|by apply Hc]. Qed.

Lemma contents_insert mem r l : contents mem (<[getID (mem l) := l]> r) = <[getID (mem l) := mem l]> (contents mem r).
Proof. apply fmap_insert. Qed.

Lemma delete_many_lookup `{MapOrder} mem r compiled id :
  contents mem (foldl (λ r id, delete id r) r ((filter (λ x, matches compiled (mem x.2) = true) (range r)).*1)) !! id =
  filter (λ x, matches compiled x.2 = false) (contents mem r) !! id.
Proof.
  unfold contents. rewrite lookup_fmap, foldl_delete. destruct (decide _) as [Hd|Hd].
  - apply list_elem_of_fmap in Hd as ([id' l] & -> & [Hm Hl]%list_elem_of_filter). apply elem_of_range in Hl. cbn in *.
    symmetry. apply map_lookup_filter_None. right. intros v. rewrite lookup_fmap, Hl. intros [= <-]. cbn. by rewrite Hm.
  - destruct (r !! id) as [l|] eqn:E; cbn.
    + symmetry. apply map_lookup_filter_Some. rewrite lookup_fmap, E. split; [done|]. cbn.
      destruct (matches compiled (mem l)) eqn:Em; [|done]. exfalso. apply Hd. apply list_elem_of_fmap. exists (id, l). split; [done|].
      apply list_elem_of_filter. split; [done|]. by apply elem_of_range.
    + symmetry. apply map_lookup_filter_None. left. by rewrite lookup_fmap, E.
Qed.

Lemma delete_many_count `{MapOrder} mem r compiled :
  length ((filter (λ x, matches compiled (mem x.2) = true) (range r)).*1) = size (filter (λ x, matches compiled x.2 = true) (contents mem r)).
Proof.
  unfold contents. rewrite map_filter_fmap, map_size_fmap, map_filter_alt, map_size_list_to_map.
  - rewrite length_fmap, range_perm. f_equal. apply list_filter_iff. by intros [].
  - apply NoDup_fst_filter, NoDup_fst_map_to_list.
Qed.

(** C25: seen as a finite map from ids to models, the repository is one: reads
    are lookups, and each write is the update it names or an error that
    changes nothing.  [DeleteMany] removes the matching models and counts
    them; with a field that does not exist or an invalid filter it removes
    nothing.  An update keeps the model's id, and nobody else writes to the
    models it was given. *)
Theorem repository_refines_map `{MapOrder} mem r :
  consistent mem r →
  let m := contents mem r in
  (∀ id, Get id mem r = match m !! id with Some v => Ok v | None => Err ErrNotFound end) ∧
  (∀ ids, GetMany ids mem r = omap (λ id, m !! id) ids) ∧
  (∀ id, Exists id r = bool_decide (is_Some (m !! id))) ∧
  (∀ l, let '(r', res) := Insert getID l mem r in
        consistent mem r' ∧
        match m !! getID (mem l) with
        | Some _ => contents mem r' = m ∧ res = Err ErrAlreadyExists
        | None => contents mem r' = <[getID (mem l) := mem l]> m ∧ res = Ok tt
        end) ∧
  (∀ l, let '(r', res) := Upsert getID l mem r in
        consistent mem r' ∧ contents mem r' = <[getID (mem l) := mem l]> m ∧ res = Ok tt) ∧
  (∀ id f, (∀ v, getID (f v) = getID v) →
        let '(mem', res) := Update id f mem r in
        consistent mem' r ∧
        match m !! id with
        | Some v => contents mem' r = <[id := f v]> m ∧ res = Ok tt
        | None => contents mem' r = m ∧ res = Err ErrNotFound
        end) ∧
  (∀ id, let '(r', res) := Delete id r in
        consistent mem r' ∧ contents mem r' = delete id m ∧ res = match m !! id with Some _ => Ok tt | None => Err ErrNotFound end) ∧
  (∀ query, let '(r', res) := DeleteMany opaque T query mem r in
        consistent mem r' ∧
        match validateFilterFields T (q_Filters query), compileFilters (q_Filters query) with
        | None, Ok compiled =>
            contents mem r' = filter (λ x, matches compiled x.2 = false) m ∧
            res = Ok (Z.of_nat (size (filter (λ x, matches compiled x.2 = true) m)))
        | Some err, _ | None, Err err => r' = r ∧ res = Err err
        end).
Proof.
  intros Hc m. assert (∀ id, m !! id = mem <$> r !! id) as Hm by (intros id; apply lookup_fmap).
  split; [|split; [|split; [|split; [|split; [|split; [|split]]]]]].
  - intros id. unfold Get. rewrite Hm. by destruct (r !! id).
  - intros ids. unfold GetMany. induction ids as [|id ids IH]; [done|]. cbn. rewrite Hm. destruct (r !! id); cbn; by rewrite IH.
  - intros id. unfold Exists. rewrite Hm. by destruct (r !! id).
  - intros l. unfold Insert. rewrite Hm. destruct (r !! getID (mem l)); [done|].
    split; [by apply insert_ok|]. split; [apply contents_insert|done].
  - intros l. split; [by apply insert_ok|]. split; [apply contents_insert|done].
  - intros id f Hf. unfold Update. rewrite Hm. destruct (r !! id) as [l|] eqn:E; [|done]. cbn. split; [|split; [by apply contents_write|done]].
    intros id' l' E'. unfold write. destruct (decide (l' = l)) as [->|]; [rewrite Hf|]; by apply Hc.
  - intros id. unfold Delete. rewrite Hm. destruct (r !! id) as [l|] eqn:E; cbn.
    + split; [intros id' l' [_ E']%lookup_delete_Some; by apply Hc|]. split; [apply fmap_delete|done].
    + split; [done|]. split; [|done]. symmetry. apply delete_id. by rewrite Hm, E.
  - intros query. unfold DeleteMany.
    assert (∀ compiled, let r' := foldl (λ r id, delete id r) r ((filter (λ x, matches compiled (mem x.2) = true) (range r)).*1) in
      consistent mem r' ∧ contents mem r' = filter (λ x, matches compiled x.2 = false) m) as Hdel.
    { intros compiled r'. split; [|apply map_eq; intros id; apply delete_many_lookup].
      intros id l. unfold r'. rewrite foldl_delete. destruct (decide _); [done|]. apply Hc. }
    destruct (q_Filters query) as [|f fs] eqn:Ef.
    + assert (validateFilterFields T [] = None) as -> by (cbn; by destruct (stripPointers T)). cbn [compileFilters].
      destruct (Hdel []) as [_ Hd]. split; [by intros id l|]. unfold contents at 1. rewrite fmap_empty. split.
      * symmetry. apply map_empty. intros id. apply map_lookup_filter_None. right. by intros v _.
      * rewrite map_filter_id by done. unfold m, contents. by rewrite map_size_fmap.
    + destruct (validateFilterFields T (f :: fs)); [done|]. destruct (compileFilters (f :: fs)) as [compiled|err]; [|done].
      destruct (Hdel compiled) as [Hc' Hd]. split; [exact Hc'|]. split; [exact Hd|]. exact (f_equal (λ n, Ok (Z.of_nat n)) (delete_many_count mem r compiled)).
Qed.
End Refinement.

(** ** LIKE *)

(** SQL's LIKE over runes: [%] stands for any run of them, [_] for one. *)
Inductive sqlLike : list string → list string → Prop :=
| like_end : sqlLike [] []
| like_percent pattern skipped text : sqlLike pattern text → sqlLike ("%" :: pattern) (skipped ++ text)
| like_underscore pattern c text : sqlLike pattern text → sqlLike ("_" :: pattern) (c :: text)
| like_rune pattern c text : c ≠ "%" → c ≠ "_" → sqlLike pattern text → sqlLike (c :: pattern) (c :: text).

Lemma reMatch_star re text : reMatch (ReAnySequence :: re) text = true ↔ ∃ skipped rest, text = skipped ++ rest ∧ reMatch re rest = true.
Proof.
  induction text as [|c text IH]; cbn in *.
  - rewrite orb_false_r. split; [intros E; by exists [], []|]. intros ([|] & [|] & E & Hr); try done.
  - rewrite orb_true_iff, IH. split.
    + intros [E|(sk & rest & -> & E)]; [by exists [], (c :: text)|by exists (c :: sk), rest].
    + intros ([|c' sk] & rest & E & Hr); cbn in E; [left; by subst|right]. injection E as -> ->. by exists sk, rest.
Qed.

(** The expression compiled from a LIKE pattern matches exactly what SQL's
    LIKE matches, rune by rune: anchored at both ends, [%] over any text
    including line breaks, [_] over one character, every other character
    literally. *)
Theorem like_is_sql (pattern text : string) :
  reMatch (compileLike pattern) (likeRunes text) = true ↔ sqlLike (likeRunes pattern) (likeRunes text).
Proof.
  unfold compileLike. generalize (likeRunes pattern) (likeRunes text). intros p. induction p as [|c p IH]; intros t.
  - split; [destruct t; [constructor|done]|]. by inversion 1.
  - rewrite fmap_cons. case_bool_decide as Hp; [|case_bool_decide as Hu].
    + subst c. rewrite reMatch_star. split.
      * intros (sk & rest & -> & Hr). constructor. by apply IH.
      * inversion 1; subst; [|done]. eexists _, _. split; [done|]. by apply IH.
    + subst c. split; [destruct t; [done|]; cbn; intros Hr; constructor; by apply IH|]. inversion 1; subst; [by apply IH|done].
    + split.
      * destruct t as [|c' t]; [done|]. cbn. intros [Hc Hr]%andb_true_iff. apply bool_decide_eq_true in Hc as ->. constructor; try done. by apply IH.
      * inversion 1; subst; try done. cbn. apply andb_true_iff. split; [by apply bool_decide_eq_true|]. by apply IH.
Qed.

(** ** A concrete repository

    An account has an id, a score and an embedded base with a region and an id
    of its own, which the outer one hides. *)

Definition lowerAscii (c : ascii) : ascii := if (65 <=? byteZ c) && (byteZ c <=? 90) then byteOf (byteZ c + 32) else c.
#[local] Instance asciiLower : StringsToLower := λ s, String.string_of_list_ascii (lowerAscii <$> String.list_ascii_of_string s).

Definition Account : goType :=
  TStruct [mkStructField "ID" "id,omitempty" false true TOther; mkStructField "Score" "" false true TOther;
           mkStructField "Base" "" true true (TStruct [mkStructField "Region" "region" false true TOther;
                                                       mkStructField "ID" "id" false true TOther])].

Definition account (id region : string) (score : float64) : value :=
  VStruct "Account" [VString "string" id; VFloat "float64" score; VStruct "Base" [VString "string" region; VString "string" ""]].

Definition accountID (v : value) : string :=
  match fieldValue Account v "id" with Some (VString _ s) => s | _ => "" end.

Definition noOpaque (_ _ : nat) : bool := false.

Definition accounts : Memory := λ l,
  match l with
  | 0%nat => account "a" "eu" (float64OfInt 10)
  | 1%nat => account "b" "eu" (float64OfInt 30)
  | 2%nat => account "c" "us" (float64OfInt 20)
  | _ => account "d" "eu" S754_nan
  end.

Definition accountRepo : InMemoryRepository :=
  foldl (λ r l, (Upsert accountID l accounts r).1) NewInMemoryRepository [0; 1; 2]%nat.

Lemma accountRepo_consistent : consistent accountID accounts accountRepo.
Proof.
  assert (map_Forall (λ id l, accountID (accounts l) = id) accountRepo) as Hf; [|exact Hf].
  apply (bool_decide_unpack _). vm_compute. exact I.
Qed.

(** The shallower [ID] wins, and the region is promoted. *)
Example account_fields :
  (fieldValue Account (account "a" "eu" (float64OfInt 1)) "id", fieldValue Account (account "a" "eu" (float64OfInt 1)) "REGION",
   fieldValue Account (account "a" "eu" (float64OfInt 1)) "regon") = (Some (VString "string" "a"), Some (VString "string" "eu"), None).
Proof. vm_compute. reflexivity. Qed.

Definition europeans : Query := OrderByDesc "score" (Where "region" FilterOpLike (VString "string" "e%") NewQuery).

Definition europeanFilters : list compiledFilter := match compileFilters (q_Filters europeans) with Ok c => c | Err _ => [] end.

Lemma europeans_sortable : sortable Account (q_OrderBy europeans) accounts accountRepo.
Proof.
  intros ob ->%list_elem_of_singleton. exists KNumber. apply Forall_forall.
  apply (bool_decide_unpack _). vm_compute. exact I.
Qed.

Lemma find_returns_pages_witness :
  ∃ all, length all = 2%nat ∧
    ∀ (MO : MapOrder) (SS : SliceStable) limit offset,
      Find noOpaque Account accountID (WithOffset offset (WithLimit limit europeans)) accounts accountRepo = Ok (pageOf limit offset all).
Proof.
  destruct (find_returns_pages noOpaque Account accountID accounts accountRepo europeans europeanFilters accountRepo_consistent
    europeans_sortable ltac:(vm_compute; reflexivity) ltac:(vm_compute; reflexivity)) as (all & Hp & _ & Hall).
  exists all. split; [|exact Hall]. rewrite (Permutation_length Hp). vm_compute. reflexivity.
Defined.

Example second_page :
  match @Find listOrder listStable _ noOpaque Account accountID (WithPagination 2 1 europeans) accounts accountRepo with
  | Ok vs => accountID <$> vs | Err _ => [] end = ["a"].
Proof. vm_compute. reflexivity. Qed.

Lemma repository_refines_map_witness :
  Get "b" accounts accountRepo = Ok (account "b" "eu" (float64OfInt 30)).
Proof.
  destruct (@repository_refines_map asciiLower noOpaque Account accountID listOrder accounts accountRepo accountRepo_consistent) as [Hget _].
  rewrite Hget. vm_compute. reflexivity.
Defined.

(** Numbers are compared as [float64]: NaN equals every number, and two
    neighbours above 2^53 are equal, so a delete by number can hit them. *)
Example nan_matches_every_number :
  (valuesEqual noOpaque (VFloat "float64" S754_nan) (VInt "int" 5), valuesEqual noOpaque (VInt "int64" 9007199254740993) (VInt "int64" 9007199254740992)) = (true, true).
Proof. vm_compute. reflexivity. Qed.

Example delete_by_score_deletes_nan :
  (@DeleteMany listOrder asciiLower noOpaque Account (Where "score" FilterOpEq (VInt "int" 5) NewQuery) accounts {["d" := 3%nat]}).2 = Ok 1.
Proof. vm_compute. reflexivity. Qed.
